(* ===== verification/_CoqProject ===== *)
-Q . S2P
Prelude.v
Encoding.v
Types.v
GoMonad.v
Filesystem.v
Logging.v
Database.v
LRUCache.v
Entity.v
Core.v
CoreLemmas.v
CoreSafety.v
CoreSpec.v
CoreCert.v
CoreProps.v
CoreProposals.v
CoreVotes.v
CoreBounds.v
CoreEffects.v
CoreReads.v
ChainCore.v
BlockTree.v
Network.v
Agreement.v
WaitBlock.v
Pacemaker.v
PacemakerProps.v
ViewRace.v
PacemakerLive.v
Transport.v
TransportConc.v
Grpc.v
AbClient.v
Base.v
Replica.v
ReplicaSafety.v
Chain.v
Rounds.v
Live.v
Cluster.v
Crypto.v
Authenticity.v
Leveldb.v
LevelProvider.v
Wal.v
Commands.v
Deployment.v
