(* ===== verification/Prelude.v ===== *)
(** * go-hotstuff: a verification development

    A replica of go-hotstuff runs chained HotStuff.  Its parts, under [src/]:

    - the consensus core ([consensus/consensus.go]): proposals, votes, quorum
      certificates, the voting rule, the three-chain commit rule;
    - the pacemaker ([pacemaker/roundrobin.go]): views, leaders, new-view
      messages, the queue of client commands;
    - the replica ([consensus/hotstuff.go], [connection.go], [events.go]): it
      joins the two, verifies incoming messages and hands the core's events to
      the pacemaker, and keeps the connections;
    - what they stand on: the block cache ([common/db/memorydb]), the replica
      configuration and block hash ([consensus/entity.go]), signatures
      ([common/crypto]), the broadcast server and the gRPC client and server
      ([transport]), the LevelDB provider ([common/db/leveldb]), the start-up of
      the write-ahead log ([consensus/wal.go]), logging ([common/log]);
    - the commands ([cmd/server], [cmd/client]) that start replicas and submit
      commands.

    The core sends events on a channel ([notifyChan]); the replica's loop runs
    each event against the pacemaker, which calls back into the core through
    the interface [api.HotStuff] and sends messages through the broadcast
    server.

    ** Files

    - [Prelude]: machine integers, bytes, lemmas on lists of pairs.
    - [Encoding]: little-endian integers, hexadecimal, SHA-256, executable.
    - [Types]: the protobuf structs ([protos/pb/*.pb.go]).
    - [GoMonad]: a Go method as a state transformer that returns, fails with an
      error, panics or parks; [evolves], the closure of a relation on states
      under sequential composition, and [sound], panic freedom under an
      invariant, each with its hint database.
    - [Filesystem]: paths, directories, [CreateDirIfMissing], [DirEmpty].
      [Logging]: [DefaultLogger] and the process-wide logger.
    - [Database]: [api.Database] as a class with the laws its client needs.
    - [LRUCache]: the cache as a hash map of list elements, refining an abstract
      least-recently-used list; it is an instance of the laws of [Database].
    - [Entity]: [ReplicaConf], [VerifyQuorumCert], [VerifyIdentity],
      [GetQuorumSize], [GetBlockHash]; quorum intersection.
    - [Core]: [HotStuffCore] and every method of it.  Certificates are objects
      in a heap, because [OnProposalVote] adds signatures to certificates that
      several fields share.
    - [CoreLemmas]: states up to cache recency ([core_eqv], with [Proper]
      instances), the preorder [core_le], each method's effect on relations.
    - [CoreSafety]: the invariant [core_wf], executions ([core_step]), and that
      no call panics.
    - [CoreSpec]: pure specifications ([update_spec], [rule_outcome],
      [accept_spec]) and the triple [wp] that connects methods to them.
    - [CoreCert]: the invariant [certified] on adopted and announced
      certificates.
    - [CoreProps], [CoreProposals]: the core's theorems, and executions that
      show what the handlers do not check.
    - [CoreVotes]: sequences of votes, refined to a tally.  [CoreBounds]: heights
      as machine integers.  [CoreEffects]: what a call may vote for, decide, lock
      on and adopt.  [CoreReads]: which blocks a handler reads from the cache.
    - [BlockTree]: trees of blocks by hash, branches, three-chains.  [Network]:
      honest replicas that run the core side by side with faulty ones, and the
      invariant of one replica.  [Agreement]: the invariant of the network,
      agreement, and executions that break it.
    - [WaitBlock]: [AsyncWaitBlock] interleaved with the
      goroutines that store blocks.
    - [Pacemaker], [PacemakerProps], [PacemakerLive]: [RoundRobinPM] over the
      class [HotStuff], its theorems, and the leader's progress.  [ViewRace]: the
      test and the store that move the current view and the vote height,
      interleaved between goroutines.
    - [Transport]: [abServer], one method at a time.  [TransportConc]: its
      goroutines interleaved at the lock, the channels and [Send].
    - [Grpc], [AbClient]: TLS configuration, connections, the listening socket,
      the handshake.
    - [Base]: [NodeManager], [HotStuffBase], the message handlers and the
      replica's steps; the instance of [HotStuff].
    - [Replica]: the frame [HotStuffStable] through which the core's invariants
      hold of whole replicas; the handlers' theorems.  [ReplicaSafety]: the
      contract [HotStuffSafe] between core and pacemaker, and panic freedom.
    - [ChainCore]: the core on the blocks of a certified chain, and that the
      blocks it needs stay in the cache.  [Chain]: a replica that receives such a
      chain, of any length.  [Rounds]: the core's proposals and votes on the
      chain.  [Live]: a replica's steps when nothing fails.  [Cluster]: [N]
      replicas from their start, in rounds, that exchange what they send.
    - [Crypto]: low-S ECDSA signatures.  [Authenticity]: what signed view changes
      can be used for.
    - [Leveldb]: named databases.
      [LevelProvider]: opening, closing and locking databases.  [Wal]: start-up
      of the write-ahead log.
    - [Commands]: the configuration of the cluster, starting a replica, the
      client's requests.  [Deployment]: the two [main] functions.

    ** What the theorems show

    Agreement: honest replicas never decide conflicting blocks (C1), provided
    every call passes the checks that [Network.checked] lists and the handlers
    leave out; without the voting rule alone one faulty replica of four splits
    the others (C2), and without the check that a justification names the parent,
    which the hash of a block does not cover, so does a leader that sends one
    block with justifications of different age ([older_justify_splits]).  The
    assumptions of C1 are explicit in its hypotheses and its step relation: at
    most [F] of [N >= 3F + 1] replicas are faulty; handlers run one at a time; a
    signature of an honest replica on a block hash verifies only after that
    replica voted for the block ([unforged]; what else the key signs, view
    changes, is taken not to be a block hash, and C25 shows why that matters); the
    blocks of the execution have a parent among them, one lower, and no two of
    them are a SHA-256 collision ([linked]); blocks are named by their hash,
    justifications name the parent and carry a quorum of signatures, and a replica
    votes only where the voting rule raised its vote height and the block to lock
    on is stored.

    Progress: [N] replicas, each with core, pacemaker and broadcast server, that
    are started by [Run] and exchange what the code sends complete every round of
    the protocol, decide all blocks but the last three and execute their commands
    in order (C3), for any number of rounds and any order of arrival within a
    round.  Every event and goroutine is run once and every message delivered
    once.  C3 assumes that nobody fails, that every message arrives before the
    next round, that no view timer fires, that handlers run one at a time and that
    each leader has a command queued when it enters its view; hash collisions
    among the blocks and heights beyond [int64] are excluded.  A replica that
    receives a chain of certified proposals in order, from whoever, votes for and
    decides it likewise (C4).  The cache of thirty blocks still holds what the
    handlers need.

    Commit rule: [update] is the three-phase rule (C7), decides only below a
    three-chain (C5) and without gaps (C6).  Panics: of a whole replica, exactly
    two, on a proposal after the executed block was evicted, and where a recursion
    over disconnected leaders overflows the stack (C8), as one message can make it
    do ([huge_view_overflows]).  Certificates:
    what a replica adopts and announces is signed by a quorum (C9); verification
    (C17); votes complete a certificate exactly once (C10), as the tally they
    implement (C15), in any order (C16).  Handlers on every branch:
    the voting rule (C11), proposals (C12, C13), votes (C14).  Pacemaker:
    the leader proposes (C18), view changes and vote delivery terminate within [N]
    hops while views are [N] short of the largest [int64] (C19, C20), handlers run
    one at a time never lower the current view ([view_forward]) but goroutines can
    (C21), and likewise the vote height ([height_race]); new-view quorums fire once
    (C22).  Replica: votes are authenticated (C23), view
    changes survive the network (C24), but verify as votes (C25) and are not
    signed beyond their first 32 bytes (C26).  Machine integers: heights stay in
    range (C27), and what happens at its end (C28).  Cache (C29).  Broadcast
    server under concurrency: no panic on a channel (C30), when a sender can
    finish (C31).  Waiting for a block, the one interleaving that loses the
    wake-up (C32).  Block hashes (C33), signatures (C34), LevelDB
    (C35), TLS (C36), the handshake (C37), start-up of the log (C38), of the
    servers (C39) and the client (C40).

    Theorems without a number complete the picture: invariants of parts
    ([highest_qc_certified], [core_never_panics], [core_monotone],
    [LRU_index_coherent], [worker_connected], [FileLock_exclusive]),
    [quorum_intersection], [leader_rotation], further outcomes, and behaviour the code does not intend
    ([double_vote], [vote_regardless_of_rule], [decide_unsigned],
    [redelivery_decides_twice], [stored_under_claimed_hash],
    [uncertified_proposal_crashes], [stale_failure_disconnects], [early_wakeup],
    [relock_leaks], [failed_server_keeps_port], [failed_send_deadlocks],
    [unsigned_splits], [vote_without_lock], [view_changes_adopted],
    [older_justify_splits], [huge_view_overflows], [height_race],
    [zero_names_collide]).

    ** Conventions, bounds and fuel

    Integers are [Z] with [wrap64] at every operation that can overflow.  Go's
    nil is [None].  A method runs to completion before the next starts, except
    where it waits for a block ([Park]); what follows the wait is a definition
    of its own ([..._wake]).  Goroutines are recorded and run as separate steps,
    in any order; [TransportConc], [WaitBlock] and [ViewRace] interleave them
    inside a method, at the lock and the channels of the broadcast server, at the
    condition variable, and between the test and the store of the current view and
    the vote height.  Theorems about whole handlers hold of handlers that run one
    at a time.  The loops of the core run a number of times computed from heights
    and are recursions on that number.  The recursions of the pacemaker carry as
    fuel the depth to which a goroutine's stack lets them recurse
    ([stack_depth]); running out of it ends the process ([unwound]).  C19 and C20
    show that [hops], the number of replicas, suffices while views are far from
    the largest [int64]; C8 covers every depth.

    ** Parameters

    The clock, randomness, [proto.Marshal], [proto.Unmarshal] and [proto.Clone],
    the wal library and etcd's [fileutil], ECDSA and ASN.1, [crypto/x509] and
    gRPC, cobra and package flag, the LevelDB engine, log15's file handler, the
    depth of a goroutine's stack,
    [fmt.Sprintf] and the order of map iteration are parameters; what is assumed of them is a named
    hypothesis of the theorem that uses it, or a law of a class
    ([LevelLaws], [LevelDiskLaws]).

    ** Not modelled

    Generated protobuf and gRPC code, the libraries that parse arguments, signals,
    the format of log lines, [GeneratePrivateKey] (a library call).  Accessors
    ([GetID], [GetNotifier], [GetReplicas], [Server]) are reads of the fields,
    and [ApplyPaceMaker] and [msgEvent.ExecuteMessage] are in how a replica is
    put together: a pacemaker over a [HotStuffBase], whose input [InMessage] is
    a message with its sender. *)

From stdpp Require Import base numbers fin_maps gmap sets strings list.
From Stdlib Require Import Strings.Byte.

(** ** Machine integers

    Go's [int64], [uint64] and [uint32] are kept as [Z] with the wrap-around
    written out at every operation that can overflow. *)

Definition wrap64 (z : Z) : Z := ((z + 2 ^ 63) `mod` 2 ^ 64 - 2 ^ 63)%Z.
Definition wrapu64 (z : Z) : Z := (z `mod` 2 ^ 64)%Z.
Definition is_int64 (z : Z) : Prop := (- 2 ^ 63 ≤ z < 2 ^ 63)%Z.

#[global] Instance is_int64_dec z : Decision (is_int64 z).
Proof. unfold is_int64. apply _. Defined.

Lemma wrap64_id z : is_int64 z → wrap64 z = z.
Proof.
  unfold is_int64, wrap64. intros H.
  rewrite Z.mod_small; lia.
Qed.

Lemma wrap64_add_l a b : wrap64 (wrap64 a + b) = wrap64 (a + b).
Proof.
  unfold wrap64. f_equal.
  replace ((a + 2 ^ 63) `mod` 2 ^ 64 - 2 ^ 63 + b + 2 ^ 63)%Z with ((a + 2 ^ 63) `mod` 2 ^ 64 + b)%Z by lia.
  rewrite Zplus_mod_idemp_l. f_equal. lia.
Qed.

Lemma wrap64_int64 z : is_int64 (wrap64 z).
Proof.
  unfold is_int64, wrap64.
  pose proof (Z.mod_pos_bound (z + 2 ^ 63) (2 ^ 64) eq_refl). lia.
Qed.

Lemma wrapu64_inj z1 z2 : is_int64 z1 → is_int64 z2 → wrapu64 z1 = wrapu64 z2 → z1 = z2.
Proof.
  unfold is_int64, wrapu64. intros H1 H2 Heq.
  assert (Hd : ((z1 - z2) `mod` 2 ^ 64 = 0)%Z).
  { rewrite Zminus_mod, Heq, Z.sub_diag. done. }
  apply Z.mod_divide in Hd; [|done]. destruct Hd as [k Hk].
  assert (k = 0)%Z by nia. lia.
Qed.

(** ** Bytes

    Go's [[]byte] is a list of [byte]; a nil slice and an empty slice are not
    distinguished by any operation the modelled code applies to them except
    where a model says so explicitly. *)

Abbreviation bytes := (list byte).

#[global] Instance byte_eq_dec : EqDecision byte := Byte.byte_eq_dec.

Definition byte_to_Z (b : byte) : Z := Z.of_N (Byte.to_N b).
Definition byte_of_Z (z : Z) : byte :=
  match Byte.of_N (Z.to_N (z `mod` 256)) with Some b => b | None => x00 end.

Lemma byte_to_of_Z z : byte_to_Z (byte_of_Z z) = (z `mod` 256)%Z.
Proof.
  unfold byte_to_Z, byte_of_Z.
  pose proof (Z.mod_pos_bound z 256 eq_refl) as Hb.
  destruct (Byte.of_N _) as [b|] eqn:E.
  - apply Byte.to_of_N in E. rewrite E. lia.
  - apply Byte.of_N_None_iff in E. lia.
Qed.

Lemma byte_of_to_Z b : byte_of_Z (byte_to_Z b) = b.
Proof.
  unfold byte_of_Z, byte_to_Z.
  pose proof (Byte.to_N_bounded b).
  rewrite Z.mod_small by lia. rewrite N2Z.id, Byte.of_to_N. done.
Qed.

Lemma byte_to_Z_range b : (0 ≤ byte_to_Z b < 256)%Z.
Proof. unfold byte_to_Z. pose proof (Byte.to_N_bounded b). lia. Qed.

#[global] Instance byte_to_Z_inj : Inj (=) (=) byte_to_Z.
Proof. intros a b H. rewrite <-(byte_of_to_Z a), H. apply byte_of_to_Z. Qed.

#[global] Instance byte_countable : Countable byte.
Proof. apply (inj_countable' byte_to_Z byte_of_Z byte_of_to_Z). Defined.

(** ** Lists of pairs with distinct first components *)

Section pairs.
Context {A B : Type}.
Implicit Types (l : list (A * B)).

Lemma filter_ext_elem {C} (P Q : C → Prop) `{∀ x, Decision (P x), ∀ x, Decision (Q x)} (l : list C) :
  (∀ x, x ∈ l → P x ↔ Q x) → filter P l = filter Q l.
Proof.
  induction l as [|x l IH]; intros HPQ; [done|].
  assert (P x ↔ Q x) by (apply HPQ; left).
  rewrite !filter_cons, IH by (intros; apply HPQ; by right).
  repeat case_decide; done || tauto.
Qed.

Lemma filter_fmap {C D} (f : C → D) (P : D → Prop) `{∀ x, Decision (P x)} (l : list C) :
  filter P (f <$> l) = f <$> filter (λ x, P (f x)) l.
Proof.
  induction l as [|x l IH]; [done|].
  rewrite fmap_cons, !filter_cons, IH. by case_decide.
Qed.

Lemma head_elem {C} (l : list C) x : head l = Some x → x ∈ l.
Proof. destruct l; simpl; intros; simplify_eq. left. Qed.

Lemma head_filter_elem {C} (P : C → Prop) `{∀ x, Decision (P x)} (l : list C) x :
  head (filter P l) = Some x → x ∈ l ∧ P x.
Proof. intros Hx%head_elem%list_elem_of_filter. tauto. Qed.

Lemma head_filter_notin {C} (P : C → Prop) `{∀ x, Decision (P x)} (l : list C) x :
  head (filter P l) = None → x ∈ l → ¬ P x.
Proof.
  intros Hh Hx HP. assert (x ∈ filter P l) as Hf by (by apply list_elem_of_filter).
  destruct (filter P l); [by apply not_elem_of_nil in Hf | done].
Qed.

Lemma fst_elem l a b : (a, b) ∈ l → a ∈ l.*1.
Proof. intros. apply list_elem_of_fmap. by exists (a, b). Qed.

Lemma nodup_fst_inj l a b b' : NoDup l.*1 → (a, b) ∈ l → (a, b') ∈ l → b = b'.
Proof.
  induction l as [|[a0 b0] l IH]; simpl; intros Hnd H1 H2.
  { by apply not_elem_of_nil in H1. }
  apply NoDup_cons in Hnd as [Hni Hnd].
  apply elem_of_cons in H1 as [?|H1], H2 as [?|H2]; simplify_eq; [done|..|by apply IH].
  - apply fst_elem in H2. done.
  - apply fst_elem in H1. done.
Qed.

Lemma head_filter_fst `{EqDecision A} l a b :
  NoDup l.*1 → (a, b) ∈ l → head (filter (λ x, x.1 = a) l) = Some (a, b).
Proof.
  intros Hnd Hin. destruct (head (filter _ l)) as [[a' b']|] eqn:E.
  - apply head_filter_elem in E as [Hin' Heq]. simpl in Heq. subst.
    by rewrite (nodup_fst_inj l a b b').
  - by apply (head_filter_notin _ _ (a, b)) in E.
Qed.

Lemma filter_fst_perm `{EqDecision A} l a b :
  NoDup l.*1 → (a, b) ∈ l → (a, b) :: filter (λ x, x.1 ≠ a) l ≡ₚ l.
Proof.
  induction l as [|[a0 b0] l IH]; simpl; intros Hnd Hin.
  { by apply not_elem_of_nil in Hin. }
  apply NoDup_cons in Hnd as [Hni Hnd].
  rewrite filter_cons; simpl. apply elem_of_cons in Hin as [?|Hin]; simplify_eq.
  - rewrite decide_False by naive_solver. f_equiv. clear -Hni.
    induction l as [|[a1 b1] l IH]; [done|]. simpl in *.
    apply not_elem_of_cons in Hni as [Hne Hni].
    rewrite filter_cons, decide_True by done. f_equiv. by apply IH.
  - rewrite decide_True by (intros ->; by apply fst_elem in Hin).
    etrans; [apply Permutation_swap|]. f_equiv. by apply IH.
Qed.

Lemma filter_fst_notin `{EqDecision A} l a :
  a ∉ l.*1 → filter (λ x, x.1 ≠ a) l = l.
Proof.
  induction l as [|[a1 b1] l IH]; [done|]. simpl. intros Hni.
  apply not_elem_of_cons in Hni as [Hne Hni].
  rewrite filter_cons, decide_True by done. by rewrite IH.
Qed.

Lemma take_removelast {C} (l : list C) : take (length l - 1) l = removelast l.
Proof.
  induction l as [|x [|y l] IH]; [done..|].
  change (x :: take (length l) (y :: l) = x :: removelast (y :: l)). f_equal.
  rewrite <-IH. f_equal. simpl. lia.
Qed.

End pairs.
