(* ===== verification/Encoding.v ===== *)
(** * The parts of Go's standard library the protocol computes with

    [crypto/sha256.Sum256], [encoding/hex.EncodeToString] and
    [encoding/binary.LittleEndian.PutUint64], as [consensus/entity.go] and
    [consensus/consensus.go] use them: executable definitions, and the facts
    about them (lengths, injectivity) that the block-hash and block-store
    theorems rest on. *)

From stdpp Require Import base numbers fin_maps gmap sets strings list.
From Stdlib Require Import Strings.Byte Ascii.
From S2P Require Import Prelude.

(** ** encoding/binary *)

(** [le_bytes n z]: the [n] low-order bytes of [z], least significant first. *)
Fixpoint le_bytes (n : nat) (z : Z) : bytes :=
  match n with
  | O => []
  | S n => byte_of_Z z :: le_bytes n (z `div` 256)
  end.

(** [binary.LittleEndian.PutUint64(buf, v)] on a fresh 8-byte [buf]. *)
Definition PutUint64 (v : Z) : bytes := le_bytes 8 v.

(** Big-endian words, as SHA-256 reads and writes them. *)
Definition be_bytes (n : nat) (z : Z) : bytes := rev (le_bytes n z).

Definition be_word (bs : bytes) : Z :=
  foldl (λ acc b, acc * 256 + byte_to_Z b)%Z 0%Z bs.

Lemma length_le_bytes n z : length (le_bytes n z) = n.
Proof. revert z. induction n; intros; simpl; auto. Qed.

Lemma length_be_bytes n z : length (be_bytes n z) = n.
Proof. unfold be_bytes. rewrite length_rev. apply length_le_bytes. Qed.

Lemma le_bytes_inj (n : nat) z1 z2 :
  (0 ≤ z1 < 256 ^ Z.of_nat n)%Z → (0 ≤ z2 < 256 ^ Z.of_nat n)%Z → le_bytes n z1 = le_bytes n z2 → z1 = z2.
Proof.
  revert z1 z2. induction n as [|n IH]; intros z1 z2 H1 H2 Heq.
  { change (256 ^ Z.of_nat 0)%Z with 1%Z in *. lia. }
  simpl in Heq. injection Heq as Hb Ht.
  rewrite Nat2Z.inj_succ, Z.pow_succ_r in H1, H2 by lia.
  apply (f_equal byte_to_Z) in Hb. rewrite !byte_to_of_Z in Hb.
  apply IH in Ht.
  - rewrite (Z.div_mod z1 256), (Z.div_mod z2 256), Ht, Hb by lia. done.
  - split; [apply Z.div_pos; lia | apply Z.div_lt_upper_bound; lia].
  - split; [apply Z.div_pos; lia | apply Z.div_lt_upper_bound; lia].
Qed.

Lemma PutUint64_inj z1 z2 :
  (0 ≤ z1 < 2 ^ 64)%Z → (0 ≤ z2 < 2 ^ 64)%Z → PutUint64 z1 = PutUint64 z2 → z1 = z2.
Proof. intros H1 H2. apply le_bytes_inj; done. Qed.

(** ** encoding/hex *)

Definition hextable (n : Z) : ascii :=
  ascii_of_N (Z.to_N (if decide (n < 10)%Z then 48 + n else 87 + n)).

(** [hex.EncodeToString]: two lower-case digits per byte, high nibble first. *)
Fixpoint EncodeToString (src : bytes) : string :=
  match src with
  | [] => EmptyString
  | b :: src =>
      String (hextable (byte_to_Z b `div` 16))
        (String (hextable (byte_to_Z b `mod` 16)) (EncodeToString src))
  end.

Lemma hextable_inj m n :
  (0 ≤ m < 16)%Z → (0 ≤ n < 16)%Z → hextable m = hextable n → m = n.
Proof.
  unfold hextable. intros Hm Hn Heq.
  apply (f_equal N_of_ascii) in Heq.
  rewrite !N_ascii_embedding in Heq; repeat case_decide; lia.
Qed.

#[global] Instance EncodeToString_inj : Inj (=) (=) EncodeToString.
Proof.
  intros xs. induction xs as [|x xs IH]; intros [|y ys] Heq; simpl in Heq; try done.
  injection Heq as Hhi Hlo Ht. f_equal; [|by apply IH].
  pose proof (byte_to_Z_range x). pose proof (byte_to_Z_range y).
  apply hextable_inj in Hhi; cycle 1.
  { split; [apply Z.div_pos; lia | apply Z.div_lt_upper_bound; lia]. }
  { split; [apply Z.div_pos; lia | apply Z.div_lt_upper_bound; lia]. }
  apply hextable_inj in Hlo; [|apply Z.mod_pos_bound; lia..].
  apply (inj byte_to_Z).
  rewrite (Z.div_mod (byte_to_Z x) 16), (Z.div_mod (byte_to_Z y) 16), Hhi, Hlo by lia.
  done.
Qed.

(** ** crypto/sha256 (FIPS 180-4) *)

Module Sha256.

Local Open Scope Z_scope.

Definition w32 (z : Z) : Z := Z.land z 0xffffffff.
Definition add32 (a b : Z) : Z := w32 (a + b).
Definition rotr (n x : Z) : Z := Z.lor (Z.shiftr x n) (w32 (Z.shiftl x (32 - n))).

Definition Ch (x y z : Z) : Z := Z.lxor (Z.land x y) (Z.land (Z.lxor x 0xffffffff) z).
Definition Maj (x y z : Z) : Z := Z.lxor (Z.lxor (Z.land x y) (Z.land x z)) (Z.land y z).
Definition Sigma0 (x : Z) : Z := Z.lxor (Z.lxor (rotr 2 x) (rotr 13 x)) (rotr 22 x).
Definition Sigma1 (x : Z) : Z := Z.lxor (Z.lxor (rotr 6 x) (rotr 11 x)) (rotr 25 x).
Definition sigma0 (x : Z) : Z := Z.lxor (Z.lxor (rotr 7 x) (rotr 18 x)) (Z.shiftr x 3).
Definition sigma1 (x : Z) : Z := Z.lxor (Z.lxor (rotr 17 x) (rotr 19 x)) (Z.shiftr x 10).

(** The round constants are the first 32 bits of the fractional parts of the
    cube roots of the first 64 primes (FIPS 180-4, 4.2.2); [K] is the computed
    list.  [cbrt n x] is the integer cube root of an [x] below [2 ^ (3 * n)]. *)
Fixpoint cbrt (n : nat) (x : Z) : Z :=
  match n with
  | O => 0
  | S n => let r := 2 * cbrt n (Z.shiftr x 3) in
           if (r + 1) ^ 3 <=? x then r + 1 else r
  end.

Definition is_prime (p : Z) : bool :=
  forallb (λ d, negb (p `mod` d =? 0)) (seqZ 2 (p - 2)).

Definition primes : list Z := List.filter is_prime (seqZ 2 310).

Definition K : list Z :=
  Eval vm_compute in (λ p, w32 (cbrt 36 (Z.shiftl p 96))) <$> primes.

Record digest := Digest { hA : Z; hB : Z; hC : Z; hD : Z; hE : Z; hF : Z; hG : Z; hH : Z }.

Definition init : digest :=
  Digest 0x6a09e667 0xbb67ae85 0x3c6ef372 0xa54ff53a
         0x510e527f 0x9b05688c 0x1f83d9ab 0x5be0cd19.

Definition step (k w : Z) (d : digest) : digest :=
  let t1 := w32 (hH d + Sigma1 (hE d) + Ch (hE d) (hF d) (hG d) + k + w) in
  let t2 := w32 (Sigma0 (hA d) + Maj (hA d) (hB d) (hC d)) in
  Digest (add32 t1 t2) (hA d) (hB d) (hC d) (add32 (hD d) t1) (hE d) (hF d) (hG d).

(** The message schedule as a sliding window of the last sixteen words. *)
Definition extend (ws : list Z) : Z :=
  w32 (sigma1 (nth 14 ws 0) + nth 9 ws 0 + sigma0 (nth 1 ws 0) + nth 0 ws 0).

Fixpoint rounds (ks ws : list Z) (d : digest) : digest :=
  match ks with
  | [] => d
  | k :: ks => rounds ks (tail ws ++ [extend ws]) (step k (nth 0 ws 0) d)
  end.

Definition add_digest (a b : digest) : digest :=
  Digest (add32 (hA a) (hA b)) (add32 (hB a) (hB b)) (add32 (hC a) (hC b)) (add32 (hD a) (hD b))
         (add32 (hE a) (hE b)) (add32 (hF a) (hF b)) (add32 (hG a) (hG b)) (add32 (hH a) (hH b)).

(** [words n bs] cuts [n] big-endian 32-bit words off [bs]. *)
Fixpoint words (n : nat) (bs : bytes) : list Z :=
  match n with
  | O => []
  | S n => be_word (take 4 bs) :: words n (drop 4 bs)
  end.

Fixpoint blocks (n : nat) (bs : bytes) (d : digest) : digest :=
  match n with
  | O => d
  | S n => blocks n (drop 64 bs) (add_digest d (rounds K (words 16 bs) d))
  end.

Definition zero_pad (len : nat) : nat :=
  Z.to_nat ((55 - Z.of_nat len) `mod` 64).

Definition pad (msg : bytes) : bytes :=
  msg ++ [x80] ++ replicate (zero_pad (length msg)) x00
      ++ be_bytes 8 (8 * Z.of_nat (length msg)).

Definition output (d : digest) : bytes :=
  mjoin (be_bytes 4 <$> [hA d; hB d; hC d; hD d; hE d; hF d; hG d; hH d]).

(** [sha256.Sum256(data)], as a 32-byte slice. *)
Definition Sum256 (data : bytes) : bytes :=
  let p := pad data in
  output (blocks (length p / 64)%nat p init).

Lemma length_Sum256 data : length (Sum256 data) = 32%nat.
Proof. unfold Sum256, output. done. Qed.

(** Every padded message is a whole number of 64-byte blocks, so [Sum256]
    consumes all of it. *)
Lemma pad_blocks data : (Z.of_nat (length (pad data)) `mod` 64 = 0)%Z.
Proof.
  unfold pad, zero_pad. rewrite !length_app, length_replicate, length_be_bytes. simpl.
  rewrite !Nat2Z.inj_add, Nat2Z.inj_succ, !Nat2Z.inj_add, Z2Nat.id
    by (apply Z.mod_pos_bound; lia).
  set (n := Z.of_nat (length data)).
  pose proof (Z.div_mod (55 - n) 64 ltac:(lia)).
  replace (n + Z.succ ((55 - n) `mod` 64 + Z.of_nat 8)) with ((1 - (55 - n) `div` 64) * 64) by lia.
  apply Z.mod_mul. lia.
Qed.

(** The first FIPS test vector. *)
Example Sum256_abc :
  EncodeToString (Sum256 [x61; x62; x63])
  = "ba7816bf8f01cfea414140de5dae2223b00361a396177a9cb410ff61f20015ad".
Proof. vm_compute. reflexivity. Qed.

End Sha256.
