(* ===== verification/Types.v ===== *)
(** * Protocol messages ([protos/pb/hotstuff.pb.go], [protos/pb/wal.pb.go])

    The generated Go structs.  A pointer to a [QuorumCert] can be shared: a
    block's [SelfQc] keeps collecting signatures after [genericQC] points to
    it.  The messages that hold such pointers are therefore parametrised by
    the representation [Q] of a certificate pointer: [QCRef], an address in
    the replica's certificate heap, for messages in memory, and [QuorumCert]
    itself for messages on the wire.  [None] is Go's nil. *)

From stdpp Require Import base numbers fin_maps gmap sets strings list.
From S2P Require Import Prelude.

Record PartCert := MkPartCert { pc_ReplicaId : Z; pc_Signature : bytes }.

(** [Signs] is a Go map: [None] is the nil map, which reads like an empty one
    but cannot be written; its values are pointers. *)
Record QuorumCert := MkQuorumCert {
  qc_ViewNumber : Z;
  qc_BlockHash : bytes;
  qc_Signs : option (gmap Z (option PartCert)) }.

Abbreviation QCRef := nat (only parsing).

Record Block (Q : Type) := MkBlock {
  ParentHash : bytes;
  Cmds : bytes;
  Proposer : Z;
  Height : Z;
  Timestamp : Z;
  Justify : option Q;
  SelfQc : option Q }.
Arguments MkBlock {Q}.
Arguments ParentHash {Q}.
Arguments Cmds {Q}.
Arguments Proposer {Q}.
Arguments Height {Q}.
Arguments Timestamp {Q}.
Arguments Justify {Q}.
Arguments SelfQc {Q}.

Record ViewChange := MkViewChange { vc_Data : bytes; vc_Signature : bytes }.

Record NewView (Q : Type) := MkNewView { nv_ViewNumber : Z; nv_GenericQc : option Q }.
Arguments MkNewView {Q}.
Arguments nv_ViewNumber {Q}.
Arguments nv_GenericQc {Q}.

Record Proposal (Q : Type) := MkProposal { prop_ViewNumber : Z; prop_Block : option (Block Q) }.
Arguments MkProposal {Q}.
Arguments prop_ViewNumber {Q}.
Arguments prop_Block {Q}.

Record Vote := MkVote {
  vote_ViewNumber : Z;
  vote_Voter : Z;
  vote_BlockHash : bytes;
  vote_Cert : option PartCert }.

Record Forward := MkForward { fwd_Data : bytes }.

(** The oneof [Message.Type]. *)
Inductive MessageType (Q : Type) :=
| Message_ViewChange (vc : ViewChange)
| Message_Proposal (p : Proposal Q)
| Message_Vote (v : Vote)
| Message_Forward (f : Forward).
Arguments Message_ViewChange {Q}.
Arguments Message_Proposal {Q}.
Arguments Message_Vote {Q}.
Arguments Message_Forward {Q}.

Record Message (Q : Type) := MkMessage {
  msg_ChainId : string;
  msg_Type : option (MessageType Q) }.
Arguments MkMessage {Q}.
Arguments msg_ChainId {Q}.
Arguments msg_Type {Q}.

Record ConfigMetadata := MkConfigMetadata { md_N : Z; md_F : Z; md_MsgWaitTimeout : Z }.

Inductive Status :=
| UNKNOWN | SUCCESS | BAD_REQUEST | FORBIDDEN | NOT_FOUND | REQUEST_ENTITY_TOO_LARGE
| INTERNAL_SERVER_ERROR | NOT_IMPLEMENTED | SERVICE_UNAVAILABLE.

(** The enum's wire numbers. *)
Definition Status_number (s : Status) : Z :=
  match s with
  | UNKNOWN => 0 | SUCCESS => 200 | BAD_REQUEST => 400 | FORBIDDEN => 403
  | NOT_FOUND => 404 | REQUEST_ENTITY_TOO_LARGE => 413
  | INTERNAL_SERVER_ERROR => 500 | NOT_IMPLEMENTED => 501 | SERVICE_UNAVAILABLE => 503
  end%Z.

Record SubmitRequest := MkSubmitRequest { sreq_ChainId : string; sreq_Cmds : bytes }.
Record SubmitResponse := MkSubmitResponse { sresp_Status : Status; sresp_Info : string }.

(** [pb.HardState] ([protos/pb/wal.pb.go]). *)
Record HardState := MkHardState {
  hs_Committed : Z; hs_Generic : bytes; hs_Locked : bytes; hs_Executed : bytes }.

#[global] Instance PartCert_eq_dec : EqDecision PartCert.
Proof. solve_decision. Defined.
#[global] Instance QuorumCert_eq_dec : EqDecision QuorumCert.
Proof. solve_decision. Defined.
#[global] Instance Block_eq_dec `{EqDecision Q} : EqDecision (Block Q).
Proof. solve_decision. Defined.
#[global] Instance Vote_eq_dec : EqDecision Vote.
Proof. solve_decision. Defined.
#[global] Instance NewView_eq_dec `{EqDecision Q} : EqDecision (NewView Q).
Proof. solve_decision. Defined.
#[global] Instance Proposal_eq_dec `{EqDecision Q} : EqDecision (Proposal Q).
Proof. solve_decision. Defined.
#[global] Instance Status_eq_dec : EqDecision Status.
Proof. solve_decision. Defined.

(** Reading a possibly nil signature map. *)
Definition signs (qc : QuorumCert) : gmap Z (option PartCert) := default ∅ (qc_Signs qc).

(** [len(qc.Signs)], an [int]. *)
Definition len_signs (qc : QuorumCert) : Z := Z.of_nat (size (signs qc)).

Definition set_signs (m : gmap Z (option PartCert)) (qc : QuorumCert) : QuorumCert :=
  MkQuorumCert (qc_ViewNumber qc) (qc_BlockHash qc) (Some m).

Definition set_SelfQc {Q} (r : option Q) (b : Block Q) : Block Q :=
  MkBlock (ParentHash b) (Cmds b) (Proposer b) (Height b) (Timestamp b) (Justify b) r.

Definition set_ViewNumber {Q} (v : Z) (p : Proposal Q) : Proposal Q :=
  MkProposal v (prop_Block p).
