(* ===== verification/GoMonad.v ===== *)
(** * Go functions as state transformers

    A Go method that mutates its receiver is a function from the receiver's
    state to an outcome and a new state.  The outcome keeps apart the four ways
    a method can end: it returns a value, it returns a non-nil [error] (with
    the state changes made so far), it panics (nil dereference, division by
    zero), or its goroutine is parked.  The file gives the
    monad, and the two reasoning principles the components use: inversion of
    successful runs, and [evolves], the closure of a preorder on states under
    sequential composition. *)

From stdpp Require Import base numbers fin_maps gmap sets strings list.
From S2P Require Import Prelude.

(** The [error] values of the modelled code, one constructor per message. *)
Inductive go_error :=
| ErrKeyNotFound (key : string)         (* memorydb: retrieving a missing key *)
| ErrDeleteMissing                      (* memorydb: deleting a missing key *)
| ErrCapacity (new cur : Z)             (* memorydb: EnlargeCapacity *)
| ErrParentNotFound                     (* OnPropose *)
| ErrBelowVoteHeight (new vote : Z)     (* OnPropose *)
| ErrExpectedBlockNotFound (h : bytes)  (* OnReceiveProposal *)
| ErrDuplicateVote (h : bytes) (voter : Z)
| ErrEmptyBlock | ErrNilJustify         (* getJustifyBlock *)
| ErrSign                               (* api.Signer *)
| ErrVerify                             (* api.Verifier *)
| ErrMarshal
| ErrNilMessage | ErrInvalidReplica (dest : Z)  (* abServer *)
| ErrEmptyRequest | ErrStopped
| ErrNotDir (path : string) | ErrDenied (path : string)  (* os *)
| ErrCreateDir (path : string) | ErrOpenDir (path : string)
| ErrCheckEmpty (path : string)         (* log.CreateDirIfMissing, DirEmpty *)
| EAGAIN | ErrIO | ErrDBClosed          (* goleveldb *)
| ErrLockHeld (path : string)           (* FileLock *)
| ErrMissingAddress | ErrListen (address : string) | ErrNilListener | ErrNilServer
| ErrServe                              (* GrpcServer *)
| ErrKeyPair | ErrNeedKeyAndCert | ErrServerRoot | ErrClientRoot  (* TLS options *)
| ErrDial (address : string) | ErrHandshake | ErrRecv             (* GrpcClient, abClient *)
| ErrNoSnapshot | ErrWal                (* write-ahead log *)
| ErrTrailingArgs | ErrParseKey.        (* commands *)

#[global] Instance go_error_eq_dec : EqDecision go_error.
Proof. solve_decision. Defined.

(** What a parked goroutine waits for: a block to arrive ([sync.Cond.Wait]), or
    a channel to have room or a value. *)
Inductive waiting :=
| WaitBlock (hash : bytes)
| WaitChan.

Inductive res (A : Type) :=
| Ok (a : A)
| Fail (e : go_error)
| Panic
| Park (w : waiting).
Arguments Ok {A}.
Arguments Fail {A}.
Arguments Panic {A}.
Arguments Park {A}.

Definition M (S A : Type) : Type := S → res A * S.

#[global] Instance M_ret S : MRet (M S) := λ A a s, (Ok a, s).
#[global] Instance M_bind S : MBind (M S) := λ A B f m s,
  match m s with
  | (Ok a, s') => f a s'
  | (Fail e, s') => (Fail e, s')
  | (Panic, s') => (Panic, s')
  | (Park h, s') => (Park h, s')
  end.

Section ops.
Context {S : Type}.

Definition get_st : M S S := λ s, (Ok s, s).
Definition gets {A} (f : S → A) : M S A := λ s, (Ok (f s), s).
Definition modify (f : S → S) : M S unit := λ s, (Ok tt, f s).
Definition fail {A} (e : go_error) : M S A := λ s, (Fail e, s).
Definition panic {A} : M S A := λ s, (Panic, s).
Definition park {A} (w : waiting) : M S A := λ s, (Park w, s).

(** [x, err := m(); ...] where the caller inspects [err] itself. *)
Definition try {A} (m : M S A) : M S (go_error + A) := λ s,
  match m s with
  | (Ok a, s') => (Ok (inr a), s')
  | (Fail e, s') => (Ok (inl e), s')
  | (Panic, s') => (Panic, s')
  | (Park h, s') => (Park h, s')
  end.

(** [if err != nil { return err }]. *)
Definition orFail {A} (x : go_error + A) : M S A :=
  match x with inl e => fail e | inr a => mret a end.

(** Dereference of a pointer; nil panics. *)
Definition orPanic {A} (x : option A) : M S A :=
  match x with Some a => mret a | None => panic end.

Definition when (b : bool) (m : M S unit) : M S unit := if b then m else mret tt.

End ops.

(** ** Running a method *)

Section run.
Context {S : Type}.
Implicit Types (s : S).

Lemma run_ret {A} (a : A) s : (mret a : M S A) s = (Ok a, s).
Proof. done. Qed.

Lemma run_bind_Ok {A B} (m : M S A) (f : A → M S B) s a s' :
  m s = (Ok a, s') → (m ≫= f) s = f a s'.
Proof. intros H. unfold mbind, M_bind. by rewrite H. Qed.

Lemma run_bind_Fail {A B} (m : M S A) (f : A → M S B) s e s' :
  m s = (Fail e, s') → (m ≫= f) s = (Fail e, s').
Proof. intros H. unfold mbind, M_bind. by rewrite H. Qed.

Lemma run_bind_Panic {A B} (m : M S A) (f : A → M S B) s s' :
  m s = (Panic, s') → (m ≫= f) s = (Panic, s').
Proof. intros H. unfold mbind, M_bind. by rewrite H. Qed.

Lemma run_bind_Park {A B} (m : M S A) (f : A → M S B) s h s' :
  m s = (Park h, s') → (m ≫= f) s = (Park h, s').
Proof. intros H. unfold mbind, M_bind. by rewrite H. Qed.

Lemma run_gets {A B} (g : S → A) (f : A → M S B) s : (gets g ≫= f) s = f (g s) s.
Proof. done. Qed.

Lemma run_modify {B} (g : S → S) (f : unit → M S B) s : (modify g ≫= f) s = f tt (g s).
Proof. done. Qed.

Lemma run_orPanic {A B} (a : A) (f : A → M S B) s : (orPanic (Some a) ≫= f) s = f a s.
Proof. done. Qed.

Lemma run_orFail {A B} (a : A) (f : A → M S B) s : (orFail (inr a) ≫= f) s = f a s.
Proof. done. Qed.

Lemma bind_Ok_inv {A B} (m : M S A) (f : A → M S B) s b s' :
  (m ≫= f) s = (Ok b, s') → ∃ a s1, m s = (Ok a, s1) ∧ f a s1 = (Ok b, s').
Proof.
  unfold mbind, M_bind. destruct (m s) as [[a|e| |h] s1] eqn:E; intros H; try discriminate.
  eauto.
Qed.

Lemma bind_assoc {A B C} (m : M S A) (f : A → M S B) (g : B → M S C) s :
  ((m ≫= f) ≫= g) s = (m ≫= λ a, f a ≫= g) s.
Proof. unfold mbind, M_bind. by destruct (m s) as [[] ?]. Qed.

Lemma orFail_Ok_inv {A} (x : go_error + A) s a s' :
  orFail x s = (Ok a, s') → x = inr a ∧ s' = s.
Proof. destruct x; simpl; intros H; inversion H; done. Qed.

Lemma orPanic_Ok_inv {A} (x : option A) s a s' :
  orPanic x s = (Ok a, s') → x = Some a ∧ s' = s.
Proof. destruct x; simpl; intros H; inversion H; done. Qed.

End run.

(** ** Evolution: [evolves R m] when every run of [m], however it ends, relates
    its initial to its final state by [R]. *)

Section evolves.
Context {S : Type} (R : relation S) `{!PreOrder R}.

Definition evolves {A} (m : M S A) : Prop := ∀ s, R s (m s).2.

Lemma evolves_ret {A} (a : A) : evolves (mret a).
Proof. intros s. done. Qed.

Lemma evolves_gets {A} (g : S → A) : evolves (gets g).
Proof. intros s. done. Qed.

Lemma evolves_fail {A} e : evolves (fail (A:=A) e).
Proof. intros s. done. Qed.

Lemma evolves_panic {A} : evolves (panic (A:=A)).
Proof. intros s. done. Qed.

Lemma evolves_park {A} h : evolves (park (A:=A) h).
Proof. intros s. done. Qed.

Lemma evolves_orFail {A} (x : go_error + A) : evolves (orFail x).
Proof. destruct x; intros s; done. Qed.

Lemma evolves_orPanic {A} (x : option A) : evolves (orPanic x).
Proof. destruct x; intros s; done. Qed.

Lemma evolves_modify (f : S → S) : (∀ s, R s (f s)) → evolves (modify f).
Proof. intros H s. apply H. Qed.

Lemma evolves_bind {A B} (m : M S A) (f : A → M S B) :
  evolves m → (∀ a, evolves (f a)) → evolves (m ≫= f).
Proof.
  intros Hm Hf s. specialize (Hm s). unfold mbind, M_bind.
  destruct (m s) as [[a|e| |h] s1]; simpl in *; try done.
  etrans; [exact Hm | apply Hf].
Qed.

(** ... when every result of the first call satisfies [P]. *)
Lemma evolves_bind_post {A B} (P : A → Prop) (m : M S A) (f : A → M S B) :
  evolves m → (∀ s a s', m s = (Ok a, s') → P a) → (∀ a, P a → evolves (f a)) → evolves (m ≫= f).
Proof.
  intros Hm HP Hf s. specialize (Hm s). specialize (HP s). unfold mbind, M_bind.
  destruct (m s) as [[a|e| |h] s1]; simpl in *; try done.
  etrans; [exact Hm | by eapply Hf, HP].
Qed.

Lemma evolves_try {A} (m : M S A) : evolves m → evolves (try m).
Proof. intros Hm s. specialize (Hm s). unfold try. by destruct (m s) as [[] ?]. Qed.

Lemma evolves_when b (m : M S unit) : evolves m → evolves (when b m).
Proof. destruct b; [done|]. intros _. apply evolves_ret. Qed.

Lemma evolves_run {A} (m : M S A) s r s' : evolves m → m s = (r, s') → R s s'.
Proof. intros H E. specialize (H s). by rewrite E in H. Qed.

(** Evolution from the states in which a preceding test succeeded. *)
Lemma evolves_gets_bind {A B} (g : S → A) (f : A → M S B) :
  (∀ s, R s ((f (g s)) s).2) → evolves (gets g ≫= f).
Proof. intros H s. apply H. Qed.

(** Evolution from the states that satisfy [P], a property the earlier calls
    keep. *)
Definition evolves_if {A} (P : S → Prop) (m : M S A) : Prop := ∀ s, P s → R s (m s).2.

Lemma evolves_if_of {A} P (m : M S A) : evolves m → evolves_if P m.
Proof. intros Hm s _. apply Hm. Qed.

Lemma evolves_if_bind {A B} P (m : M S A) (f : A → M S B) :
  evolves m → (∀ s, P s → P (m s).2) → (∀ a, evolves_if P (f a)) → evolves_if P (m ≫= f).
Proof.
  intros Hm HP Hf s Hs. specialize (Hm s). specialize (HP s Hs). unfold mbind, M_bind.
  destruct (m s) as [[a|e| |h] s1]; simpl in *; try done.
  etrans; [exact Hm | by apply Hf].
Qed.

End evolves.

Create HintDb evolves.
#[export] Hint Resolve evolves_ret evolves_gets evolves_fail evolves_panic evolves_park
  evolves_orFail evolves_orPanic : evolves.

(** [evolve] splits a method body into its primitive calls and closes each from
    the [evolves] database. *)
Ltac evolve_step :=
  first
  [ apply evolves_ret; [apply _] | apply evolves_gets; [apply _]
  | apply evolves_fail; [apply _] | apply evolves_panic; [apply _]
  | apply evolves_park; [apply _]
  | apply evolves_orFail; [apply _] | apply evolves_orPanic; [apply _]
  | solve [eauto 4 with evolves]
  | apply evolves_try
  | apply evolves_when; [apply _|]
  | apply evolves_bind; [apply _| |intros ?]
  | match goal with
    | |- evolves _ (match ?x with _ => _ end) => destruct x
    | |- evolves _ (let '_ := ?x in _) => destruct x
    end ].
Ltac evolve := repeat evolve_step.

(** ** Panic freedom: [sound I m] when every run of [m] from a state that
    satisfies [I] ends without a panic in such a state. *)

Section sound.
Context {S : Type} (I : S → Prop).

Definition sound_at {A} (m : M S A) (s : S) : Prop := (m s).1 ≠ Panic ∧ I (m s).2.
Definition sound {A} (m : M S A) : Prop := ∀ s, I s → sound_at m s.

Lemma sound_ret {A} (a : A) : sound (mret a).
Proof. intros s Hs. by split. Qed.

Lemma sound_gets {A} (g : S → A) : sound (gets g).
Proof. intros s Hs. by split. Qed.

Lemma sound_fail {A} e : sound (fail (A:=A) e).
Proof. intros s Hs. by split. Qed.

Lemma sound_park {A} h : sound (park (A:=A) h).
Proof. intros s Hs. by split. Qed.

Lemma sound_orFail {A} (x : go_error + A) : sound (orFail x).
Proof. destruct x; intros s Hs; by split. Qed.

Lemma sound_modify (f : S → S) : (∀ s, I s → I (f s)) → sound (modify f).
Proof. intros Hf s Hs. split; [done|]. by apply Hf. Qed.

(** The rest of a method runs from the state the first call leaves. *)
Lemma sound_at_bind {A B} (m : M S A) (f : A → M S B) s :
  sound_at m s → (∀ a s', m s = (Ok a, s') → I s' → sound_at (f a) s') → sound_at (m ≫= f) s.
Proof.
  unfold sound_at. unfold mbind, M_bind. intros [Hp Hi] Hf.
  destruct (m s) as [[a|e| |h] s1]; simpl in *; try done. by apply Hf.
Qed.

Lemma sound_bind {A B} (m : M S A) (f : A → M S B) :
  sound m → (∀ a, sound (f a)) → sound (m ≫= f).
Proof. intros Hm Hf s Hs. apply sound_at_bind; [by apply Hm|]. intros a s' _ Hs'. by apply Hf. Qed.

Lemma sound_bind_post {A B} (P : A → Prop) (m : M S A) (f : A → M S B) :
  sound m → (∀ s a s', m s = (Ok a, s') → P a) → (∀ a, P a → sound (f a)) → sound (m ≫= f).
Proof.
  intros Hm HP Hf s Hs. apply sound_at_bind; [by apply Hm|]. intros a s' Hr Hs'. eapply Hf; eauto.
Qed.

Lemma sound_gets_bind {A B} (g : S → A) (f : A → M S B) :
  (∀ s, I s → sound_at (f (g s)) s) → sound (gets g ≫= f).
Proof. intros Hf s Hs. by apply Hf. Qed.

Lemma sound_try {A} (m : M S A) : sound m → sound (try m).
Proof. intros Hm s Hs. destruct (Hm s Hs) as [Hp Hi]. unfold sound_at, try. by destruct (m s) as [[] ?]. Qed.

Lemma sound_when b (m : M S unit) : sound m → sound (when b m).
Proof. destruct b; [done|]. intros _. apply sound_ret. Qed.

End sound.

Create HintDb sound.
#[export] Hint Resolve sound_ret sound_gets sound_fail sound_park sound_orFail : sound.

(** [sounds] splits a method body into its calls and closes each from the
    [sound] database. *)
Ltac sounds :=
  repeat first
  [ solve [eauto 4 with sound]
  | apply sound_try
  | apply sound_when
  | apply sound_bind; [|intros ?]
  | match goal with
    | |- sound _ (match ?x with _ => _ end) => destruct x
    end ].

(** [mrun H] peels the leading call off a successful run [H : m s = (Ok a, s')]. *)
Tactic Notation "minv" hyp(H) "as" simple_intropattern(p) :=
  apply bind_Ok_inv in H; destruct H as p.
