(* ===== verification/Filesystem.v ===== *)
(** * Paths and directories ([common/log/log15.go])

    Go's [path] package on slash-separated strings, a file system as a finite
    map from cleaned paths to nodes with the [os] calls the program makes, and
    [CreateDirIfMissing] and [DirEmpty], which the logger, the database and the
    file lock share.  Failures the file system does not explain (permissions, a
    failing [Close]) are given by [FSEnv]. *)

From stdpp Require Import base numbers fin_maps gmap sets strings list.
From Stdlib Require Import Ascii.
From S2P Require Import Prelude GoMonad.

(** ** Package path *)

Definition slash : ascii := "/"%char.

(** [strings.Split(s, "/")]. *)
Fixpoint split_slash (s : string) : list string :=
  match s with
  | EmptyString => [EmptyString]
  | String c s =>
      if decide (c = slash) then EmptyString :: split_slash s
      else match split_slash s with
           | [] => [String c EmptyString]
           | x :: xs => String c x :: xs
           end
  end.

(** A cleaned path: whether it is rooted, and its elements. *)
Abbreviation cpath := (bool * list string)%type.

(** The elements of a path, last first: empty and [.] are dropped, [..] removes
    the element before it, and is kept only at the start of a relative path. *)
Definition clean_step (rooted : bool) (acc : list string) (x : string) : list string :=
  if decide (x = EmptyString ∨ x = ".") then acc
  else if decide (x = "..") then
    match acc with
    | y :: acc' => if decide (y = "..") then ".." :: acc else acc'
    | [] => if rooted then [] else [".."]
    end
  else x :: acc.

Definition is_rooted (s : string) : bool :=
  match s with String c _ => bool_decide (c = slash) | EmptyString => false end.

Definition clean (s : string) : cpath :=
  (is_rooted s, rev (foldl (clean_step (is_rooted s)) [] (split_slash s))).

Definition print_path (p : cpath) : string :=
  match p with
  | (true, l) => String slash (String.concat "/" l)
  | (false, []) => "."
  | (false, l) => String.concat "/" l
  end.

(** [path.Clean]. *)
Definition Clean (s : string) : string := print_path (clean s).

(** [path.Split]'s directory part: up to and including the last slash. *)
Fixpoint dir_part (s : string) : string :=
  match s with
  | EmptyString => EmptyString
  | String c s =>
      let d := dir_part s in
      if decide (d = EmptyString) then (if decide (c = slash) then "/" else EmptyString)
      else String c d
  end.

(** [path.Dir]; the result is kept cleaned. *)
Definition Dir (s : string) : cpath := clean (dir_part s).

(** [path.Join]. *)
Fixpoint Join (elems : list string) : string :=
  match elems with
  | [] => EmptyString
  | e :: elems' => if decide (e = EmptyString) then Join elems' else Clean (String.concat "/" elems)
  end.

(** [strings.HasSuffix(s, "/")]. *)
Fixpoint ends_slash (s : string) : bool :=
  match s with
  | EmptyString => false
  | String c EmptyString => bool_decide (c = slash)
  | String _ s => ends_slash s
  end.

Example path_examples :
  Clean "/a/./b//../c/" = "/a/c" ∧ print_path (Dir "a/b") = "a" ∧ print_path (Dir "a/b/") = "a/b"
  ∧ Join ["/x/bin"; "logs"] = "/x/bin/logs" ∧ Clean "" = "." ∧ Clean "../../a" = "../../a".
Proof. vm_compute. done. Qed.

(** ** The file system *)

Inductive node := DirNode | FileNode.

#[global] Instance node_eq_dec : EqDecision node.
Proof. solve_decision. Defined.

Abbreviation FS := (gmap cpath node).

Record FSEnv := MkFSEnv {
  mkdir_denied : cpath → bool;
  open_denied : cpath → bool;
  close_fails : bool }.

Definition parent (p : cpath) : option cpath :=
  match p.2 with [] => None | _ => Some (p.1, removelast p.2) end.

(** The node at a path; the root and the working directory are directories. *)
Definition node_at (fs : FS) (p : cpath) : option node :=
  match p.2 with [] => Some DirNode | _ => fs !! p end.

Definition has_entry (fs : FS) (p : cpath) : bool :=
  bool_decide (filter (λ kv, parent kv.1 = Some p) fs ≠ ∅).

Section os.
Context (env : FSEnv).

(** [os.MkdirAll] below [pre]: creates what is missing, element by element. *)
Fixpoint mkdirs (r : bool) (pre rest : list string) : M FS unit :=
  match rest with
  | [] => mret tt
  | x :: rest =>
      let p := (r, pre ++ [x]) in
      fs ← get_st;
      match node_at fs p with
      | Some DirNode => mkdirs r (pre ++ [x]) rest
      | Some FileNode => fail (ErrNotDir (print_path p))
      | None =>
          if mkdir_denied env p then fail (ErrDenied (print_path p))
          else _ ← modify (<[p := DirNode]>); mkdirs r (pre ++ [x]) rest
      end
  end.

Definition MkdirAll (p : cpath) : M FS unit := mkdirs p.1 [] p.2.

(** [os.Mkdir]. *)
Definition Mkdir (p : cpath) : M FS unit :=
  fs ← get_st;
  match node_at fs p, parent p with
  | Some _, _ => fail (ErrNotDir (print_path p))
  | None, Some q =>
      if decide (node_at fs q = Some DirNode) then
        if mkdir_denied env p then fail (ErrDenied (print_path p)) else modify (<[p := DirNode]>)
      else fail (ErrNotDir (print_path p))
  | None, None => fail (ErrNotDir (print_path p))
  end.

(** ** log15.go *)

(** [DirEmpty]: the deferred [Close] runs last and panics if it fails. *)
Definition DirEmpty (dirPath : string) : M FS bool :=
  fs ← get_st;
  let p := clean dirPath in
  match node_at fs p with
  | None => fail (ErrOpenDir dirPath)
  | Some n =>
      if open_denied env p then fail (ErrOpenDir dirPath)
      else if close_fails env then panic
      else match n with
           | DirNode => mret (negb (has_entry fs p))
           | FileNode => fail (ErrCheckEmpty dirPath)
           end
  end.

Definition CreateDirIfMissing (dirPath : string) : M FS bool :=
  let dirPath := if ends_slash dirPath then dirPath else dirPath +:+ "/" in
  r ← try (MkdirAll (Dir dirPath));
  match r with
  | inl _ => fail (ErrCreateDir dirPath)
  | inr _ => DirEmpty dirPath
  end.

End os.

(** ** Lemmas on paths *)

Lemma split_slash_ne s : split_slash s ≠ [].
Proof. destruct s as [|c s]; simpl; [done|]. case_decide; [done|]. by destruct (split_slash s). Qed.

Lemma split_snoc_slash s : split_slash (s +:+ "/") = split_slash s ++ [EmptyString].
Proof.
  induction s as [|c s IH]; [done|].
  change (String c s +:+ "/") with (String c (s +:+ "/")). cbn [split_slash].
  rewrite IH. case_decide; [done|]. pose proof (split_slash_ne s).
  by destruct (split_slash s).
Qed.

Lemma ends_snoc_slash s : ends_slash (s +:+ "/") = true.
Proof.
  induction s as [|c s IH]; [done|].
  change (String c s +:+ "/") with (String c (s +:+ "/")).
  destruct s as [|c' s]; [done|]. exact IH.
Qed.

Lemma dir_part_slash s : ends_slash s = true → dir_part s = s.
Proof.
  induction s as [|c s IH]; [done|]. intros Hs. destruct s as [|c' s].
  - simpl in *. apply bool_decide_eq_true in Hs as ->. done.
  - assert (Hd : dir_part (String c' s) = String c' s) by (by apply IH).
    cbn [dir_part] in *. rewrite Hd. by rewrite decide_False.
Qed.

(** A trailing slash does not change the path it names. *)
Lemma clean_snoc_slash s : s ≠ EmptyString → clean (s +:+ "/") = clean s.
Proof.
  intros Hs. unfold clean. rewrite split_snoc_slash, foldl_snoc.
  destruct s as [|c s]; [done|].
  change (is_rooted (String c s +:+ "/")) with (is_rooted (String c s)).
  unfold clean_step at 1. rewrite decide_True by auto. done.
Qed.

(** ** Lemmas on the file system *)

(** Every node lies in a directory. *)
Definition fs_wf (fs : FS) : Prop :=
  ∀ p n, fs !! p = Some n → p.2 ≠ [] ∧ ∀ q, parent p = Some q → node_at fs q = Some DirNode.

Lemma node_at_mono fs fs' p n : fs ⊆ fs' → node_at fs p = Some n → node_at fs' p = Some n.
Proof. unfold node_at. destruct (p.2); [done|]. intros Hs Hn. by eapply lookup_weaken. Qed.

Lemma parent_snoc r pre x : parent (r, pre ++ [x]) = Some (r, pre).
Proof. unfold parent. simpl. destruct (pre ++ [x]) eqn:E; [by destruct pre|]. by rewrite <-E, removelast_last. Qed.

Lemma node_at_snoc fs r pre x : node_at fs (r, pre ++ [x]) = fs !! (r, pre ++ [x]).
Proof. unfold node_at. simpl. by destruct pre. Qed.

Lemma fs_wf_mkdir fs r pre x :
  fs_wf fs → node_at fs (r, pre) = Some DirNode → fs !! (r, pre ++ [x]) = None →
  fs_wf (<[(r, pre ++ [x]) := DirNode]> fs) ∧ fs ⊆ <[(r, pre ++ [x]) := DirNode]> fs.
Proof.
  intros Hwf Hd Hn. assert (Hsub : fs ⊆ <[(r, pre ++ [x]) := DirNode]> fs) by (by apply insert_subseteq).
  split; [|done]. intros p n Hp. destruct (decide (p = (r, pre ++ [x]))) as [->|Hne].
  - split; [by destruct pre|]. intros q Hq. rewrite parent_snoc in Hq. injection Hq as <-.
    by eapply node_at_mono.
  - rewrite lookup_insert_ne in Hp by done. destruct (Hwf p n Hp) as [Hp2 Hq]. split; [done|].
    intros q Hpq. eapply node_at_mono; [done|]. by apply Hq.
Qed.

Lemma has_entry_iff fs p : has_entry fs p = true ↔ ∃ q n, fs !! q = Some n ∧ parent q = Some p.
Proof.
  unfold has_entry. rewrite bool_decide_eq_true.
  split.
  - intros (q & n & Hq)%map_choose. apply map_lookup_filter_Some in Hq as [Hq Hp]. eauto.
  - intros (q & n & Hq & Hp) He. assert (Hf : filter (λ kv, parent kv.1 = Some p) fs !! q = Some n)
      by (by apply map_lookup_filter_Some). by rewrite He, lookup_empty in Hf.
Qed.

(** The paths on the way from [pre] to [pre ++ rest]. *)
Definition on_way (r : bool) (pre rest : list string) (p : cpath) : Prop :=
  ∃ k, (k < length rest)%nat ∧ p = (r, pre ++ take (S k) rest).

Lemma on_way_here r pre x rest : on_way r pre (x :: rest) (r, pre ++ [x]).
Proof. exists 0%nat. split; [simpl; lia|]. simpl. by rewrite take_0. Qed.

Lemma on_way_next r pre x rest p : on_way r (pre ++ [x]) rest p → on_way r pre (x :: rest) p.
Proof.
  intros (k & Hk & ->). exists (S k). split; [simpl; lia|]. by rewrite <-app_assoc.
Qed.

Definition obstructed (env : FSEnv) (fs : FS) (p : cpath) : Prop :=
  fs !! p = Some FileNode ∨ (fs !! p = None ∧ mkdir_denied env p = true).

(** What changed between two file systems: directories on the way, nothing else. *)
Definition extends (fs fs' : FS) (way : cpath → Prop) : Prop :=
  fs ⊆ fs' ∧ fs_wf fs' ∧ ∀ p n, fs !! p = None → fs' !! p = Some n → n = DirNode ∧ way p.

Lemma mkdirs_spec env r rest : ∀ pre fs,
  fs_wf fs → node_at fs (r, pre) = Some DirNode →
  match mkdirs env r pre rest fs with
  | (Ok _, fs') => extends fs fs' (on_way r pre rest) ∧ node_at fs' (r, pre ++ rest) = Some DirNode
      ∧ (∀ p, on_way r pre rest p → ¬ obstructed env fs p)
  | (Fail _, fs') => extends fs fs' (on_way r pre rest) ∧ ∃ p, on_way r pre rest p ∧ obstructed env fs p
  | _ => False
  end.
Proof.
  induction rest as [|x rest IH]; intros pre fs Hwf Hd.
  { simpl. rewrite app_nil_r. split; [|split; [done|]].
    - split; [done|]. split; [done|]. intros. congruence.
    - intros p (k & Hk & _). simpl in Hk. lia. }
  assert (Hhere := on_way_here r pre x rest).
  assert (Hext : ∀ fs', extends fs fs' (on_way r (pre ++ [x]) rest) → extends fs fs' (on_way r pre (x :: rest))).
  { intros fs' (H1 & H2 & H3). split; [done|]. split; [done|]. intros p n Hn Hp.
    destruct (H3 p n Hn Hp). split; [done|]. by apply on_way_next. }
  assert (Hsplit : ∀ p, on_way r pre (x :: rest) p → p = (r, pre ++ [x]) ∨ on_way r (pre ++ [x]) rest p).
  { intros p ([|k] & Hk & ->); [left; simpl; by rewrite take_0|right].
    exists k. simpl in Hk. split; [lia|]. by rewrite <-app_assoc. }
  cbn [mkdirs]. unfold get_st. unfold mbind at 1, M_bind at 1. rewrite node_at_snoc.
  destruct (fs !! (r, pre ++ [x])) as [[|]|] eqn:Hx.
  - specialize (IH (pre ++ [x]) fs Hwf). rewrite node_at_snoc in IH. specialize (IH Hx).
    rewrite <-app_assoc in IH. destruct (mkdirs env r (pre ++ [x]) rest fs) as [[| | |] fs']; try done.
    + destruct IH as (He & Hn & Ho). split; [by apply Hext|]. split; [done|].
      intros p [->|Hp]%Hsplit; [intros [?|[? _]]; congruence|by apply Ho].
    + destruct IH as (He & p & Hp & Ho). split; [by apply Hext|]. exists p. split; [by apply on_way_next|done].
  - simpl. split; [|exists (r, pre ++ [x]); split; [done|by left]].
    split; [done|]. split; [done|]. intros. congruence.
  - destruct (mkdir_denied env (r, pre ++ [x])) eqn:Hden.
    { simpl. split; [|exists (r, pre ++ [x]); split; [done|by right]].
      split; [done|]. split; [done|]. intros. congruence. }
    rewrite run_modify. set (fs1 := <[(r, pre ++ [x]) := DirNode]> fs).
    destruct (fs_wf_mkdir fs r pre x Hwf Hd Hx) as [Hwf1 Hsub].
    specialize (IH (pre ++ [x]) fs1 Hwf1). rewrite node_at_snoc in IH.
    specialize (IH (lookup_insert_eq _ _ _)). rewrite <-app_assoc in IH.
    assert (Hext1 : ∀ fs', extends fs1 fs' (on_way r (pre ++ [x]) rest) → extends fs fs' (on_way r pre (x :: rest))).
    { intros fs' (H1 & H2 & H3). split; [by etrans|]. split; [done|]. intros p n Hn Hp.
      destruct (decide (p = (r, pre ++ [x]))) as [->|Hne].
      - rewrite (lookup_weaken fs1 fs' _ DirNode) in Hp; [by injection Hp as <-|apply lookup_insert_eq|done].
      - destruct (H3 p n) as [-> Hw]; [by unfold fs1; rewrite lookup_insert_ne by done|done|].
        split; [done|]. by apply on_way_next. }
    assert (Hob : ∀ p, p ≠ (r, pre ++ [x]) → obstructed env fs1 p ↔ obstructed env fs p).
    { intros p Hne. unfold obstructed, fs1. by rewrite !lookup_insert_ne by done. }
    assert (Hnot : ¬ obstructed env fs1 (r, pre ++ [x])).
    { unfold obstructed, fs1. rewrite lookup_insert_eq. intros [?|[? _]]; congruence. }
    destruct (mkdirs env r (pre ++ [x]) rest fs1) as [[| | |] fs']; try done.
    + destruct IH as (He & Hn & Ho). split; [by apply Hext1|]. split; [done|].
      intros p Hp. destruct (decide (p = (r, pre ++ [x]))) as [->|Hne].
      * intros [?|[_ ?]]; congruence.
      * apply Hsplit in Hp as [|Hp]; [done|]. rewrite <-Hob by done. by apply Ho.
    + destruct IH as (He & p & Hp & Ho). split; [by apply Hext1|]. exists p.
      split; [by apply on_way_next|]. apply Hob; [|done]. intros ->. done.
Qed.

Lemma absent_no_entry fs p : fs_wf fs → p.2 ≠ [] → fs !! p = None → has_entry fs p = false.
Proof.
  intros Hwf Hp Hn. apply not_true_iff_false. intros (q & n & Hq & Hpq)%has_entry_iff.
  destruct (Hwf q n Hq) as [_ Hd]. specialize (Hd p Hpq). unfold node_at in Hd.
  destruct (p.2); congruence.
Qed.

(** [CreateDirIfMissing] works on the directory it is given, with or without a
    trailing slash. *)
Lemma CreateDir_unfold env dirPath :
  dirPath ≠ EmptyString →
  ∃ d, clean d = clean dirPath
    ∧ CreateDirIfMissing env dirPath
      = (r ← try (MkdirAll env (clean dirPath));
         match r with inl _ => fail (ErrCreateDir d) | inr _ => DirEmpty env d end).
Proof.
  intros Hne. unfold CreateDirIfMissing. destruct (ends_slash dirPath) eqn:He.
  - exists dirPath. split; [done|]. cbv zeta. unfold Dir. by rewrite dir_part_slash.
  - exists (dirPath +:+ "/"). split; [by apply clean_snoc_slash|]. cbv zeta. unfold Dir.
    rewrite dir_part_slash by apply ends_snoc_slash. by rewrite clean_snoc_slash.
Qed.

(** Creating directories: [CreateDirIfMissing] makes the directory and every
    missing directory above it and touches nothing else; it reports [true]
    exactly when the directory has no entries, in particular when it was just
    made; it fails exactly when an element of the path is a file, a directory
    cannot be made, or the result cannot be opened. *)
Theorem CreateDirIfMissing_spec env dirPath fs :
  dirPath ≠ EmptyString → close_fails env = false → fs_wf fs →
  let p := clean dirPath in
  match CreateDirIfMissing env dirPath fs with
  | (Ok empty, fs') =>
      extends fs fs' (on_way p.1 [] p.2) ∧ node_at fs' p = Some DirNode
      ∧ (empty = true ↔ ∀ q, parent q = Some p → fs' !! q = None)
      ∧ (p.2 ≠ [] → fs !! p = None → empty = true)
      ∧ open_denied env p = false ∧ ∀ q, on_way p.1 [] p.2 q → ¬ obstructed env fs q
  | (Fail _, fs') =>
      extends fs fs' (on_way p.1 [] p.2)
      ∧ (open_denied env p = true ∨ ∃ q, on_way p.1 [] p.2 q ∧ obstructed env fs q)
  | _ => False
  end.
Proof.
  intros Hne Hcl Hwf p. destruct (CreateDir_unfold env dirPath Hne) as (d & Hd & ->). fold p in Hd |- *. clearbody p.
  unfold try, MkdirAll. unfold mbind at 1, M_bind at 1.
  pose proof (mkdirs_spec env p.1 p.2 [] fs Hwf eq_refl) as Hm.
  destruct (mkdirs env p.1 [] p.2 fs) as [[u|e| |w] fs']; try done.
  2: { simpl. destruct Hm as [He Ho]. split; [done|]. by right. }
  destruct Hm as (He & Hn & Ho). change ([] ++ p.2) with p.2 in Hn. rewrite <-surjective_pairing in Hn.
  unfold DirEmpty, get_st. unfold mbind, M_bind. rewrite Hd, Hn, Hcl.
  destruct (open_denied env p) eqn:Hop; simpl; [split; [done|by left]|].
  split_and!; try done.
  - rewrite negb_true_iff, <-not_true_iff_false, has_entry_iff. split.
    + intros Hno q Hq. apply eq_None_not_Some. intros [n Hqn]. apply Hno. eauto.
    + intros Hall (q & n & Hq & Hp). rewrite (Hall q Hp) in Hq. done.
  - intros Hp Habs. rewrite negb_true_iff. apply not_true_iff_false.
    intros (q & n & Hq & Hpq)%has_entry_iff. destruct He as (Hsub & Hwf' & Hnew).
    destruct (fs !! q) as [n0|] eqn:Hq0.
    + destruct (Hwf q n0 Hq0) as [_ Hdir]. specialize (Hdir p Hpq). unfold node_at in Hdir.
      destruct (p.2) eqn:E; [done|congruence].
    + destruct (Hnew q n Hq0 Hq) as [_ (k & Hk & ->)]. unfold parent in Hpq. cbn [fst snd app] in Hpq.
      destruct (take (S k) p.2) eqn:Ht; [done|]. rewrite <-Ht in Hpq. injection Hpq as Hpq.
      apply (f_equal (λ x, length x.2)) in Hpq. cbn [snd] in Hpq.
      rewrite <-take_removelast, !length_take in Hpq. lia.
Qed.

(** A bare machine: the database directory is made, and is empty. *)
Lemma CreateDirIfMissing_spec_witness :
  let env := MkFSEnv (λ _, false) (λ _, false) false in
  let fs' : FS := {[(true, ["opt"]) := DirNode; (true, ["opt"; "dbdata"]) := DirNode]} in
  CreateDirIfMissing env "/opt/dbdata" ∅ = (Ok true, fs')
  ∧ extends ∅ fs' (on_way true [] ["opt"; "dbdata"]).
Proof.
  intros env fs'. assert (Hr : CreateDirIfMissing env "/opt/dbdata" ∅ = (Ok true, fs')) by (vm_compute; reflexivity).
  split; [exact Hr|].
  pose proof (CreateDirIfMissing_spec env "/opt/dbdata" ∅ ltac:(discriminate) eq_refl
    ltac:(intros p n Hp; rewrite lookup_empty in Hp; discriminate)) as Hs.
  rewrite Hr in Hs. exact (proj1 Hs).
Defined.
