(* ===== verification/Logging.v ===== *)
(** * Logging ([common/log/logger.go], [common/log/log15.go], [api/logger.go])

    [DefaultLogger] turns the calls of [api.Logger] into calls of the log15
    library, which the model records.  [New] prepares the log directory and the
    handlers, and [GetLogger] keeps one process-wide logger.  [fmt.Sprintf], the
    path of the executable and log15's [Must.FileHandler] are parameters. *)

From stdpp Require Import base numbers fin_maps gmap sets strings list.
From Stdlib Require Import Ascii.
From S2P Require Import Prelude GoMonad Filesystem.

(** An argument of type [interface{}]: a string, or anything else. *)
Inductive value := VString (s : string) | VOther (n : nat).

Inductive Lvl := LvlCrit | LvlError | LvlWarn | LvlInfo | LvlDebug.

#[global] Instance Lvl_eq_dec : EqDecision Lvl.
Proof. solve_decision. Defined.

Inductive sink := JsonFile (path : string) | ColorStderr.

(** A log15 logger: its context and its level-filtered handlers. *)
Record DefaultLogger := MkLogger { ctx : list value; handlers : list (Lvl * sink) }.

(** A call of log15's [Crit], [Error], [Warn], [Info] or [Debug]. *)
Record log_call := MkCall { c_logger : DefaultLogger; c_lvl : Lvl; c_msg : string; c_ctx : list value }.

Abbreviation Output := (list log_call).

Definition write (l : DefaultLogger) (lvl : Lvl) (msg : string) (c : list value) : M Output unit :=
  modify (λ o, o ++ [MkCall l lvl msg c]).

Section methods.
Context (Sprintf : string → list value → string) (l : DefaultLogger).

(** The common body of [Debug], [Info], [Warning], [Error] and [Fatal]: no
    argument logs nothing, a first argument that is not a string panics. *)
Definition leveled (lvl : Lvl) (v : list value) : M Output unit :=
  match v with
  | [] => mret tt
  | VString msg :: c => write l lvl msg c
  | VOther _ :: _ => panic
  end.

Definition Logger_New (c : list value) : DefaultLogger := MkLogger (ctx l ++ c) (handlers l).

Definition Debug (v : list value) : M Output unit := leveled LvlDebug v.
Definition Debugf (format : string) (v : list value) : M Output unit := write l LvlDebug (Sprintf format v) [].
Definition Error (v : list value) : M Output unit := leveled LvlError v.
Definition Errorf (format : string) (v : list value) : M Output unit := write l LvlError (Sprintf format v) [].
Definition Info (v : list value) : M Output unit := leveled LvlInfo v.
Definition Infof (format : string) (v : list value) : M Output unit := write l LvlInfo (Sprintf format v) [].
Definition Warning (v : list value) : M Output unit := leveled LvlWarn v.
Definition Warningf (format : string) (v : list value) : M Output unit := write l LvlWarn (Sprintf format v) [].
(** [Fatal] and [Fatalf] return to the caller. *)
Definition Fatal (v : list value) : M Output unit := leveled LvlCrit v.
Definition Fatalf (format : string) (v : list value) : M Output unit := write l LvlCrit (Sprintf format v) [].
Definition Logger_Panic (v : list value) : M Output unit := panic.
Definition Panicf (format : string) (v : list value) : M Output unit := panic.

End methods.

(** ** log15.go *)

Fixpoint replace_backslash (s : string) : string :=
  match s with
  | EmptyString => EmptyString
  | String c s => String (if decide (c = "\"%char) then slash else c) (replace_backslash s)
  end.

(** [GetCurrentPath]: [exe] is [filepath.Abs(filepath.Dir(os.Args[0]))]. *)
Definition GetCurrentPath {S} (exe : go_error + string) : M S string :=
  match exe with inl _ => panic | inr dir => mret (replace_backslash dir) end.

Section new.
Context (env : FSEnv) (exe : go_error + string).

(** [log15.Must.FileHandler] with the JSON format. *)
Context (FileHandler : string → M FS sink).

Definition New (c : list value) : M FS DefaultLogger :=
  cur ← GetCurrentPath exe;
  let filePath := Join [cur; "logs"] in
  let errorFile := Join [filePath; "error.json"] in
  r ← try (CreateDirIfMissing env filePath);
  match r with
  | inl _ => panic
  | inr _ =>
      f ← FileHandler errorFile;
      mret (MkLogger c [(LvlError, f); (LvlDebug, ColorStderr)])
  end.

(** ** logger.go *)

(** The file system and the package variable [defaultLogger]. *)
Record LogWorld := MkLogWorld { log_fs : FS; defaultLogger : option DefaultLogger }.

Definition SetLogger (l : option DefaultLogger) : M LogWorld unit :=
  modify (λ w, MkLogWorld (log_fs w) l).

Definition on_fs {A} (m : M FS A) : M LogWorld A := λ w,
  let '(r, fs) := m (log_fs w) in (r, MkLogWorld fs (defaultLogger w)).

Definition GetLogger (c : list value) : M LogWorld DefaultLogger :=
  d ← gets defaultLogger;
  l ← match d with
      | Some l => mret l
      | None =>
          l ← on_fs (New [VString "logger"; VString "hotstuff"]);
          _ ← SetLogger (Some l);
          mret l
      end;
  if decide (length c = 0%nat) then mret l else mret (Logger_New l c).

(** ** Properties *)

(** The logger has the handler of [logs/error.json] for errors and the terminal. *)
Lemma New_handlers c fs l fs' :
  New c fs = (Ok l, fs') →
  ctx l = c ∧ ∃ cur f fs2, GetCurrentPath exe fs = (Ok cur, fs) ∧
    FileHandler (Join [Join [cur; "logs"]; "error.json"]) fs2 = (Ok f, fs') ∧
    handlers l = [(LvlError, f); (LvlDebug, ColorStderr)].
Proof.
  unfold New. intros H. minv H as (cur & fs1 & Hc & H). minv H as (r & fs2 & _ & H).
  destruct r as [e|e]; [done|]. minv H as (f & fs3 & Hf & H). injection H as <- <-.
  split; [done|]. exists cur, f, fs2. split_and!; [|done|done].
  unfold GetCurrentPath in *. destruct exe; [done|]. by injection Hc as <- _.
Qed.

(** Once a logger exists, [GetLogger] makes no further file system call and
    every logger it returns writes to the same sinks. *)
Lemma GetLogger_shared c c' w l w' :
  GetLogger c w = (Ok l, w') →
  ∃ l', GetLogger c' w' = (Ok l', w') ∧ handlers l' = handlers l.
Proof.
  unfold GetLogger. rewrite !run_gets. intros H. minv H as (d & w1 & Hd & H).
  assert (Hw : w1 = w' ∧ handlers l = handlers d ∧ defaultLogger w' = Some d).
  { destruct (decide _) in H; injection H as <- <-; (split; [done|split; [done|]]);
    destruct (defaultLogger w) eqn:E in Hd;
    try (injection Hd as <- <-; exact E);
    minv Hd as (l1 & w2 & _ & Hd); minv Hd as (u & w3 & Hs & Hd); injection Hd as <- <-;
    injection Hs as _ <-; reflexivity. }
  destruct Hw as (-> & Hh & Hdef). rewrite Hdef, Hh. rewrite (run_bind_Ok _ _ _ _ _ (run_ret d w')).
  destruct (decide (length c' = 0%nat)); eexists; (split; [reflexivity|done]).
Qed.

End new.
