(* ===== verification/Database.v ===== *)
(** * The storage interface ([api/db.go])

    [api.Database] as an operational class, and the contract a block store
    offers its client [HotStuffCore]: reads do not change what later reads
    return, a written key reads back, and writing one key either leaves
    another key's value alone or forgets it (a cache may evict). *)

From stdpp Require Import base numbers fin_maps gmap sets strings list.
From S2P Require Import Prelude GoMonad.

Class Database (DB K V : Type) := {
  db_get : K → DB → (go_error + V) * DB;
  db_put : K → V → DB → option go_error * DB;
  db_delete : K → DB → option go_error * DB }.

(** What [Get] would return, as an option. *)
Definition db_view `{Database DB K V} (d : DB) (k : K) : option V :=
  match (db_get k d).1 with inr v => Some v | inl _ => None end.

Class DatabaseLaws (DB K V : Type) `{Database DB K V} := {
  db_inv : DB → Prop;
  db_get_inv k d : db_inv d → db_inv (db_get k d).2;
  db_put_inv k v d : db_inv d → db_inv (db_put k v d).2;
  db_view_get k k' d : db_inv d → db_view (db_get k d).2 k' = db_view d k';
  db_view_put_eq k v d : db_inv d → db_view (db_put k v d).2 k = Some v;
  db_view_put_ne k k' v d : db_inv d → k' ≠ k →
    db_view (db_put k v d).2 k' = None ∨ db_view (db_put k v d).2 k' = db_view d k' }.

#[export] Hint Resolve db_get_inv db_put_inv : core.
