(* ===== verification/LRUCache.v ===== *)
(** * The in-memory block store ([common/db/memorydb/lru_cache.go])

    [container/list] elements are modelled with their identity, because the
    index map stores element pointers: [cache] maps a key to an element, [lru]
    is the list of elements, front (most recently used) first.  The abstract
    specification is a recency-ordered association list; every operation is
    shown to implement its abstract counterpart, and the abstract cache is
    shown to keep a key until [capacity] other keys have been used. *)

From stdpp Require Import base numbers fin_maps gmap sets strings list.
From S2P Require Import Prelude GoMonad Database.

Record Pair (K V : Type) := MkPair { key : K; value : V }.
Arguments MkPair {K V}.
Arguments key {K V}.
Arguments value {K V}.

(** ** container/list *)

Module GoList.
Section list.
Context {A : Type}.

(** An element is its identity and its [Value]. *)
Abbreviation Element := (nat * A)%type.

Definition Remove (e : nat) (l : list Element) : list Element :=
  filter (λ x, x.1 ≠ e) l.

Definition Find (e : nat) (l : list Element) : option A :=
  snd <$> head (filter (λ x, x.1 = e) l).

Definition MoveToFront (e : nat) (l : list Element) : list Element :=
  match Find e l with Some a => (e, a) :: Remove e l | None => l end.

Definition Back (l : list Element) : option Element := last l.

(** Assigning through an element's [Value]. *)
Definition SetValue (e : nat) (f : A → A) (l : list Element) : list Element :=
  (λ x, if decide (x.1 = e) then (x.1, f x.2) else x) <$> l.

End list.
End GoList.
Import GoList.

Record LRUCache (K V : Type) `{Countable K} := MkLRUCache {
  capacity : Z;
  cache : gmap K nat;
  lru : list (nat * Pair K V);
  fresh_elem : nat }.
Arguments MkLRUCache {K V _ _}.
Arguments capacity {K V _ _}.
Arguments cache {K V _ _}.
Arguments lru {K V _ _}.
Arguments fresh_elem {K V _ _}.

Section ops.
Context {K V : Type} `{Countable K}.
Implicit Types (c : LRUCache K V) (k : K) (v : V).

Definition NewLRUCache (cap : Z) : LRUCache K V := MkLRUCache cap ∅ [] 0.

(** [fmt] of the key in error messages is not modelled: the error carries an
    empty string. *)
Definition Get (k : K) (c : LRUCache K V) : (go_error + V) * LRUCache K V :=
  match cache c !! k with
  | Some elem =>
      let c' := MkLRUCache (capacity c) (cache c) (MoveToFront elem (lru c)) (fresh_elem c) in
      match Find elem (lru c) with
      | Some p => (inr (value p), c')
      | None => (inl (ErrKeyNotFound EmptyString), c')
      end
  | None => (inl (ErrKeyNotFound EmptyString), c)
  end.

Definition evict (c : LRUCache K V) : LRUCache K V :=
  match Back (lru c) with
  | None => c
  | Some (elem, p) =>
      MkLRUCache (capacity c) (delete (key p) (cache c)) (Remove elem (lru c)) (fresh_elem c)
  end.

Definition Put (k : K) (v : V) (c : LRUCache K V) : option go_error * LRUCache K V :=
  match cache c !! k with
  | Some elem =>
      let l := MoveToFront elem (lru c) in
      let l := SetValue elem (λ p, MkPair (key p) v) l in
      (None, MkLRUCache (capacity c) (cache c) l (fresh_elem c))
  | None =>
      let elem := fresh_elem c in
      let l := (elem, MkPair k v) :: lru c in
      let c' := MkLRUCache (capacity c) (<[k := elem]> (cache c)) l (S elem) in
      if decide (capacity c < Z.of_nat (length l))%Z then (None, evict c') else (None, c')
  end.

Definition Delete (k : K) (c : LRUCache K V) : option go_error * LRUCache K V :=
  match cache c !! k with
  | Some elem =>
      (None, MkLRUCache (capacity c) (delete k (cache c)) (Remove elem (lru c)) (fresh_elem c))
  | None => (Some ErrDeleteMissing, c)
  end.

Definition Len (c : LRUCache K V) : Z := Z.of_nat (length (lru c)).

Definition Keys (c : LRUCache K V) : list K := (map_to_list (cache c)).*1.

Definition EnlargeCapacity (newCapacity : Z) (c : LRUCache K V)
    : option go_error * LRUCache K V :=
  if decide (newCapacity < capacity c)%Z
  then (Some (ErrCapacity newCapacity (capacity c)), c)
  else (None, MkLRUCache newCapacity (cache c) (lru c) (fresh_elem c)).

(** [Close] is unimplemented. *)
Definition cache_Close : M (LRUCache K V) unit := panic.

End ops.

#[global] Instance LRU_Database {K V} `{Countable K} : Database (LRUCache K V) K V := {|
  db_get := Get; db_put := Put; db_delete := Delete |}.

(** ** The abstract cache: an association list, most recently used first *)

Module Spec.
Section spec.
Context {K V : Type} `{EqDecision K}.

Definition lookup (k : K) (l : list (K * V)) : option V :=
  snd <$> head (filter (λ x, x.1 = k) l).

Definition remove (k : K) (l : list (K * V)) : list (K * V) := filter (λ x, x.1 ≠ k) l.

(** Mark [k] as most recently used. *)
Definition touch (k : K) (l : list (K * V)) : list (K * V) :=
  match lookup k l with Some v => (k, v) :: remove k l | None => l end.

Definition put (cap : nat) (k : K) (v : V) (l : list (K * V)) : list (K * V) :=
  take cap ((k, v) :: remove k l).

End spec.
End Spec.

(** The recency list an implementation state stands for. *)
Definition abs {K V} `{Countable K} (c : LRUCache K V) : list (K * V) :=
  (λ e, (key e.2, value e.2)) <$> lru c.

(** The index map and the list agree, elements and keys are distinct, and the
    list fits the capacity. *)
Record lru_inv {K V} `{Countable K} (c : LRUCache K V) : Prop := {
  inv_index k e : cache c !! k = Some e ↔ ∃ v, (e, MkPair k v) ∈ lru c;
  inv_nodup : NoDup (lru c).*1;
  inv_keys : NoDup (abs c).*1;
  inv_fresh e p : (e, p) ∈ lru c → (e < fresh_elem c)%nat;
  inv_cap : (Z.of_nat (length (lru c)) ≤ Z.max 0 (capacity c))%Z }.

(** ** Correctness *)

Section proofs.
Context {K V : Type} `{Countable K}.
Implicit Types (c : LRUCache K V) (k : K) (v : V).

Lemma Find_Some (l : list (nat * Pair K V)) e p : NoDup l.*1 → (e, p) ∈ l → Find e l = Some p.
Proof. intros Hnd Hin. unfold Find. by rewrite (head_filter_fst l e p). Qed.

Lemma MoveToFront_elem (l : list (nat * Pair K V)) e p :
  NoDup l.*1 → (e, p) ∈ l → MoveToFront e l = (e, p) :: Remove e l.
Proof. intros Hnd Hin. unfold MoveToFront. by rewrite (Find_Some l e p). Qed.

(** Recency lists only depend on the pairs. *)
Definition absl (l : list (nat * Pair K V)) : list (K * V) :=
  (λ e, (key e.2, value e.2)) <$> l.

Lemma absl_elem l k v : (k, v) ∈ absl l ↔ ∃ e, (e, MkPair k v) ∈ l.
Proof.
  unfold absl. rewrite list_elem_of_fmap. split.
  - intros [[e [k' v']] [Heq Hin]]. simpl in Heq. simplify_eq. eauto.
  - intros [e Hin]. by exists (e, MkPair k v).
Qed.

Lemma absl_Remove l e k v :
  NoDup l.*1 → NoDup (absl l).*1 → (e, MkPair k v) ∈ l →
  absl (Remove e l) = Spec.remove k (absl l).
Proof.
  intros Hids Hkeys Hin. unfold absl, Remove, Spec.remove.
  rewrite filter_fmap. f_equal. apply filter_ext_elem.
  intros [e' [k' v']] Hin'. simpl. split; intros Hne ->; apply Hne.
  - assert (v = v') as <-.
    { apply (nodup_fst_inj (absl l) k); [done|apply absl_elem; eauto..]. }
    assert (Hsw : NoDup ((λ x, (x.2, x.1)) <$> l).*1).
    { assert (Heq : (absl l).*1 = (key ∘ fst) <$> ((λ x : nat * Pair K V, (x.2, x.1)) <$> l)).
      { unfold absl. rewrite <-!list_fmap_compose. done. }
      rewrite Heq in Hkeys. rewrite list_fmap_compose in Hkeys.
      by apply NoDup_fmap_1 in Hkeys. }
    symmetry. apply (nodup_fst_inj _ (MkPair k v) _ _ Hsw).
    + apply list_elem_of_fmap. by exists (e, MkPair k v).
    + apply list_elem_of_fmap. by exists (e', MkPair k v).
  - assert (MkPair k v = MkPair k' v') by (by apply (nodup_fst_inj l e)). by simplify_eq.
Qed.

Lemma lookup_Some k v (l : list (K * V)) :
  NoDup l.*1 → Spec.lookup k l = Some v ↔ (k, v) ∈ l.
Proof.
  intros Hnd. unfold Spec.lookup. split.
  - destruct (head _) as [[k' v']|] eqn:E; simpl; intros; simplify_eq.
    apply head_filter_elem in E as [Hin Heq]. simpl in Heq. by subst.
  - intros Hin. by rewrite (head_filter_fst l k v).
Qed.

Lemma lookup_None k (l : list (K * V)) : Spec.lookup k l = None ↔ k ∉ l.*1.
Proof.
  unfold Spec.lookup. split.
  - destruct (head _) as [[k' v']|] eqn:E; simpl; intros; simplify_eq.
    intros [[k' v'] [Heq Hin]]%list_elem_of_fmap. simpl in *. subst.
    by apply (head_filter_notin _ _ (k', v')) in E.
  - intros Hni. destruct (head _) as [[k' v']|] eqn:E; [|done].
    apply head_filter_elem in E as [Hin Heq]. simpl in Heq. subst.
    exfalso. apply Hni. by apply fst_elem in Hin.
Qed.

Lemma index_lookup c k : lru_inv c → cache c !! k = None ↔ Spec.lookup k (abs c) = None.
Proof.
  intros Hinv. rewrite lookup_None. split.
  - intros Hc [[k' v] [Heq Hin]]%list_elem_of_fmap. simpl in Heq. subst.
    apply absl_elem in Hin as [e Hin].
    assert (cache c !! k' = Some e) by (apply (inv_index c Hinv); eauto). congruence.
  - intros Hni. destruct (cache c !! k) as [e|] eqn:E; [|done].
    apply (inv_index c Hinv) in E as [v Hin]. exfalso. apply Hni.
    apply (fst_elem _ _ v). apply absl_elem. eauto.
Qed.

(** The invariant only depends on the list up to permutation. *)
Lemma lru_inv_perm c l :
  lru_inv c → l ≡ₚ lru c → lru_inv (MkLRUCache (capacity c) (cache c) l (fresh_elem c)).
Proof.
  intros [Hidx Hnd Hkeys Hf Hcap] Hp. unfold abs in *. constructor; simpl.
  - intros k e. rewrite Hidx. by setoid_rewrite Hp.
  - by rewrite Hp.
  - unfold abs; simpl. by rewrite Hp.
  - intros e p. rewrite Hp. apply Hf.
  - by rewrite Hp.
Qed.

(** ** [Get] *)

Lemma Get_spec c k :
  lru_inv c →
  (Get k c).1 = match Spec.lookup k (abs c) with
                | Some v => inr v
                | None => inl (ErrKeyNotFound EmptyString)
                end
  ∧ abs (Get k c).2 = Spec.touch k (abs c)
  ∧ lru_inv (Get k c).2.
Proof.
  intros Hinv. unfold Get, Spec.touch.
  destruct (cache c !! k) as [e|] eqn:E.
  - pose proof (inv_index c Hinv k e) as Hidx.
    apply Hidx in E as [v Hin]. clear Hidx.
    assert (Hl : Spec.lookup k (abs c) = Some v).
    { apply lookup_Some; [apply Hinv|]. apply absl_elem. eauto. }
    rewrite Hl, (Find_Some _ e (MkPair k v)) by (by try apply Hinv).
    rewrite (MoveToFront_elem _ e (MkPair k v)) by (by try apply Hinv).
    split; [done|]. split; simpl.
    + unfold abs at 1. simpl. f_equal. apply absl_Remove with v; [apply Hinv..|done].
    + apply (lru_inv_perm c); [done|]. apply filter_fst_perm; [apply Hinv|done].
  - apply (index_lookup c k Hinv) in E as ->. done.
Qed.

(** ** [Put] *)

Lemma SetValue_hd e p (f : Pair K V → Pair K V) (l : list (nat * Pair K V)) :
  e ∉ l.*1 → SetValue e f ((e, p) :: l) = (e, f p) :: l.
Proof.
  intros Hni. unfold SetValue. simpl. rewrite decide_True by done. f_equal.
  induction l as [|[e' p'] l IH]; [done|]. simpl in *.
  apply not_elem_of_cons in Hni as [Hne Hni].
  rewrite decide_False by done. f_equal. by apply IH.
Qed.

Lemma Remove_fst e (l : list (nat * Pair K V)) : e ∉ (Remove e l).*1.
Proof.
  intros [[e' p] [-> Hin]]%list_elem_of_fmap. by apply list_elem_of_filter in Hin as [? ?].
Qed.

Lemma lru_nodup_pair c e k v :
  lru_inv c → (e, MkPair k v) ∈ lru c →
  ∀ e' v', (e', MkPair k v') ∈ lru c → e' = e ∧ v' = v.
Proof.
  intros Hinv Hin e' v' Hin'. pose proof (inv_index c Hinv k) as Hidx.
  assert (cache c !! k = Some e) by (apply Hidx; eauto).
  assert (cache c !! k = Some e') by (apply Hidx; eauto). simplify_eq. split; [done|].
  assert (MkPair k v' = MkPair k v) by (apply (nodup_fst_inj (lru c) e); [apply Hinv|done..]).
  by simplify_eq.
Qed.

(** Overwriting a cached key: the list keeps its elements, one with a new value. *)
Lemma lru_inv_update c e k v0 v :
  lru_inv c → (e, MkPair k v0) ∈ lru c →
  lru_inv (MkLRUCache (capacity c) (cache c) ((e, MkPair k v) :: Remove e (lru c)) (fresh_elem c)).
Proof.
  intros Hinv Hin.
  pose proof (filter_fst_perm (lru c) e (MkPair k v0) (inv_nodup c Hinv) Hin) as Hp.
  pose proof Hinv as [Hidx Hnd Hkeys Hf Hcap]. unfold abs in Hkeys.
  constructor; simpl.
  - intros k' e'. rewrite Hidx. split; intros [v' Hin'].
    + destruct (decide (k' = k)) as [->|Hk].
      * destruct (lru_nodup_pair c e k v0 Hinv Hin e' v' Hin') as [-> _].
        exists v. left.
      * exists v'. right. apply list_elem_of_filter. split; [|done]. simpl. intros ->.
        apply Hk. assert (MkPair k' v' = MkPair k v0) by (by apply (nodup_fst_inj (lru c) e)).
        by simplify_eq.
    + apply elem_of_cons in Hin' as [?|Hin']; simplify_eq; [eauto|].
      apply list_elem_of_filter in Hin' as [_ Hin']. eauto.
  - rewrite <-Hp in Hnd. exact Hnd.
  - unfold abs; simpl. rewrite <-Hp in Hkeys. exact Hkeys.
  - intros e' p' [?|Hin']%elem_of_cons; simplify_eq; [by eapply Hf|].
    apply list_elem_of_filter in Hin' as [_ Hin']. by eapply Hf.
  - rewrite <-Hp in Hcap. exact Hcap.
Qed.

(** A state whose list may exceed the capacity by one, as between [PushFront]
    and [evict]. *)
Definition push (k : K) (v : V) (c : LRUCache K V) : LRUCache K V :=
  MkLRUCache (capacity c) (<[k := fresh_elem c]> (cache c))
    ((fresh_elem c, MkPair k v) :: lru c) (S (fresh_elem c)).

Lemma push_index c k v k' e :
  lru_inv c → cache c !! k = None →
  cache (push k v c) !! k' = Some e ↔ ∃ v', (e, MkPair k' v') ∈ lru (push k v c).
Proof.
  intros Hinv Hk. pose proof (inv_index c Hinv) as Hidx. simpl.
  destruct (decide (k' = k)) as [->|Hne].
  - rewrite lookup_insert_eq. split.
    + intros. simplify_eq. exists v. left.
    + intros [v' [?|Hin]%elem_of_cons]; simplify_eq; [done|].
      assert (cache c !! k = Some e) by (apply Hidx; eauto). congruence.
  - rewrite lookup_insert_ne by done. rewrite Hidx. split.
    + intros [v' Hin]. exists v'. by right.
    + intros [v' [?|Hin]%elem_of_cons]; simplify_eq. eauto.
Qed.

Lemma push_nodup c k v : lru_inv c → NoDup (lru (push k v c)).*1.
Proof.
  intros Hinv. simpl. apply NoDup_cons. split; [|apply Hinv].
  intros [[e p] [Heq Hin]]%list_elem_of_fmap. apply (inv_fresh c Hinv) in Hin. simpl in *. lia.
Qed.

Lemma push_keys c k v : lru_inv c → cache c !! k = None → NoDup (abs (push k v c)).*1.
Proof.
  intros Hinv Hk%(index_lookup c k Hinv). unfold abs. simpl. apply NoDup_cons.
  split; [by apply lookup_None | apply Hinv].
Qed.

Lemma Remove_last e p (l : list (nat * Pair K V)) :
  NoDup (l ++ [(e, p)]).*1 → Remove e (l ++ [(e, p)]) = l.
Proof.
  rewrite fmap_app. intros (_ & Hd & _)%NoDup_app. unfold Remove. rewrite filter_app.
  rewrite filter_cons_False by (simpl; auto). rewrite filter_nil, app_nil_r.
  apply filter_fst_notin. intros Hin. apply (Hd e Hin). left.
Qed.

Lemma lru_inv_evict c k v :
  lru_inv c → cache c !! k = None → (capacity c < Z.of_nat (length (lru (push k v c))))%Z →
  lru_inv (evict (push k v c)) ∧ abs (evict (push k v c)) = removelast (abs (push k v c)).
Proof.
  intros Hinv Hk Hlen. unfold evict, Back.
  pose proof (push_index c k v) as Hidx. pose proof (push_nodup c k v Hinv) as Hnd.
  pose proof (push_keys c k v Hinv Hk) as Hkeys.
  assert (Hf : ∀ e p, (e, p) ∈ lru (push k v c) → (e < fresh_elem (push k v c))%nat).
  { simpl. intros e p [?|Hin]%elem_of_cons; simplify_eq; [lia|].
    apply (inv_fresh c Hinv) in Hin. lia. }
  pose proof (inv_cap c Hinv) as Hcap. change (capacity (push k v c)) with (capacity c).
  assert (Hl : (Z.of_nat (length (lru (push k v c))) ≤ Z.max 0 (capacity c) + 1)%Z).
  { simpl. lia. }
  assert (Hpos : lru (push k v c) ≠ []) by done.
  unfold abs in *. revert Hidx Hnd Hkeys Hf Hl Hlen Hpos.
  generalize (lru (push k v c)), (cache (push k v c)), (fresh_elem (push k v c)).
  intros l m n Hidx Hnd Hkeys Hf Hl Hlen Hpos.
  destruct l as [|[e [k1 v1]] l _] using rev_ind; [done|].
  rewrite last_snoc. simpl. rewrite Remove_last by done.
  rewrite length_app in Hl. simpl in Hl. rewrite !fmap_app in *. simpl in *.
  apply NoDup_app in Hnd as (Hnd1 & Hnd2 & _). apply NoDup_app in Hkeys as (Hkeys1 & Hkeys2 & _).
  split; [|by rewrite removelast_last]. constructor; simpl; try done.
  - intros k' e'. destruct (decide (k' = k1)) as [->|Hne].
    + rewrite lookup_delete_eq. split; [done|]. intros [v' Hin]. exfalso.
      apply (Hkeys2 k1); [|left]. apply (fst_elem _ _ v'). apply absl_elem. eauto.
    + rewrite lookup_delete_ne by done. rewrite (Hidx k' e' Hinv Hk). split.
      * intros [v' [Hin|Hin]%elem_of_app]; [eauto|].
        apply list_elem_of_singleton in Hin. by simplify_eq.
      * intros [v' Hin]. exists v'. apply elem_of_app. by left.
  - intros e' p' Hin. apply (Hf e' p'). apply elem_of_app. by left.
  - lia.
Qed.

Lemma Put_spec c k v :
  lru_inv c →
  (Put k v c).1 = None
  ∧ abs (Put k v c).2 = Spec.put (Z.to_nat (capacity c)) k v (abs c)
  ∧ lru_inv (Put k v c).2.
Proof.
  intros Hinv. pose proof (inv_cap c Hinv) as Hcap. unfold Put, Spec.put.
  assert (Hlen : length (abs c) = length (lru c)) by apply length_fmap.
  destruct (cache c !! k) as [e|] eqn:E.
  - apply (inv_index c Hinv) in E as [v0 Hin].
    rewrite (MoveToFront_elem _ e (MkPair k v0)) by (by try apply Hinv).
    rewrite SetValue_hd by apply Remove_fst. simpl.
    split; [done|]. split; [|by eapply lru_inv_update].
    assert (Hp : S (length (Remove e (lru c))) = length (lru c)).
    { apply (Permutation_length (filter_fst_perm (lru c) e _ (inv_nodup c Hinv) Hin)). }
    unfold abs at 1; simpl.
    change ((λ e0 : nat * Pair K V, (key e0.2, value e0.2)) <$> Remove e (lru c))
      with (absl (Remove e (lru c))).
    rewrite (absl_Remove _ e k v0) by (by try apply Hinv).
    rewrite take_ge; [done|]. simpl in *.
    assert (length (Spec.remove k (abs c)) = length (Remove e (lru c))) as ->; [|lia].
    { unfold abs. change ((λ e0 : nat * Pair K V, (key e0.2, value e0.2)) <$> lru c) with (absl (lru c)).
      rewrite <-(absl_Remove _ e k v0) by (by try apply Hinv). apply length_fmap. }
  - assert (Hnk : Spec.remove k (abs c) = abs c).
    { apply filter_fst_notin, lookup_None, index_lookup; done. }
    rewrite Hnk. change (MkLRUCache _ _ _ _) with (push k v c).
    case_decide as Hd.
    + destruct (lru_inv_evict c k v Hinv E Hd) as [Hi Ha]. split; [done|]. split; [|done].
      cbn [snd]. rewrite Ha, <-take_removelast. unfold abs at 1 2. simpl. f_equal.
      rewrite length_fmap. simpl in Hd. lia.
    + split; [done|]. simpl in Hd. split.
      * cbn [snd]. rewrite take_ge; [done|]. simpl. lia.
      * cbn [snd]. constructor; [intros; by apply push_index|by apply push_nodup|by apply push_keys|..].
        -- simpl. intros e p [?|Hin]%elem_of_cons; simplify_eq; [lia|].
           apply (inv_fresh c Hinv) in Hin. lia.
        -- simpl. lia.
Qed.

(** ** [Delete] *)

Lemma Delete_spec c k :
  lru_inv c →
  (Delete k c).1 = (if decide (k ∈ (abs c).*1) then None else Some ErrDeleteMissing)
  ∧ abs (Delete k c).2 = Spec.remove k (abs c)
  ∧ lru_inv (Delete k c).2.
Proof.
  intros Hinv. unfold Delete. destruct (cache c !! k) as [e|] eqn:E.
  - pose proof E as [v Hin]%(inv_index c Hinv).
    rewrite decide_True by (apply (fst_elem _ _ v), absl_elem; eauto).
    split; [done|]. assert (Ha : absl (Remove e (lru c)) = Spec.remove k (abs c)).
    { apply absl_Remove with v; [apply Hinv..|done]. }
    split; [exact Ha|]. pose proof Hinv as [Hidx Hnd Hkeys Hf Hcap]. constructor; simpl.
    + intros k' e'. destruct (decide (k' = k)) as [->|Hne].
      * rewrite lookup_delete_eq. split; [done|]. intros [v' [Hne Hin']%list_elem_of_filter].
        destruct (lru_nodup_pair c e k v Hinv Hin e' v' Hin') as [-> _]. done.
      * rewrite lookup_delete_ne by done. rewrite Hidx. split; intros [v' Hin']; exists v'.
        -- apply list_elem_of_filter. split; [|done]. simpl. intros ->.
           assert (MkPair k' v' = MkPair k v) by (by apply (nodup_fst_inj (lru c) e)).
           by simplify_eq.
        -- by apply list_elem_of_filter in Hin' as [_ ?].
    + eapply sublist_NoDup; [exact Hnd|]. apply fmap_sublist, sublist_filter.
    + unfold abs. simpl. eapply sublist_NoDup; [exact Hkeys|].
      apply fmap_sublist. unfold abs. apply fmap_sublist, sublist_filter.
    + intros e' p [_ Hin']%list_elem_of_filter. by eapply Hf.
    + assert (length (Remove e (lru c)) ≤ length (lru c))%nat by apply length_filter. lia.
  - pose proof E as Hn%(index_lookup c k Hinv)%lookup_None. rewrite decide_False by done.
    split; [done|]. split; [|done]. symmetry. by apply filter_fst_notin.
Qed.

Lemma New_inv cap : lru_inv (NewLRUCache cap : LRUCache K V).
Proof.
  constructor; simpl.
  - intros k e. rewrite lookup_empty. split; [done|].
    intros [v Hin]. by apply not_elem_of_nil in Hin.
  - constructor.
  - constructor.
  - intros e p Hin. by apply not_elem_of_nil in Hin.
  - lia.
Qed.

Lemma EnlargeCapacity_inv n c : lru_inv c → lru_inv (EnlargeCapacity n c).2.
Proof.
  intros Hinv. unfold EnlargeCapacity. case_decide; [done|].
  destruct Hinv as [Hidx Hnd Hkeys Hf Hcap]. constructor; simpl; try done. lia.
Qed.

Lemma Get_capacity k c : capacity (Get k c).2 = capacity c.
Proof. unfold Get. by repeat case_match. Qed.

Lemma Put_capacity k v c : capacity (Put k v c).2 = capacity c.
Proof. unfold Put, evict. repeat case_match; done. Qed.

End proofs.

(** ** The abstract cache's laws *)

Section spec_laws.
Context {K V : Type} `{Countable K}.
Implicit Types (l : list (K * V)) (k : K) (v : V).

Lemma spec_touch_perm k l : NoDup l.*1 → Spec.touch k l ≡ₚ l.
Proof.
  intros Hnd. unfold Spec.touch. destruct (Spec.lookup k l) as [v|] eqn:E; [|done].
  apply filter_fst_perm; [done|]. by apply lookup_Some.
Qed.

Lemma spec_lookup_perm k l l' :
  NoDup l.*1 → l ≡ₚ l' → Spec.lookup k l = Spec.lookup k l'.
Proof.
  intros Hnd Hp. apply option_eq. intros v.
  rewrite !lookup_Some by (by rewrite <-?Hp). by rewrite Hp.
Qed.

Lemma spec_lookup_put_eq cap k v l : (0 < cap)%nat → Spec.lookup k (Spec.put cap k v l) = Some v.
Proof.
  intros Hc. unfold Spec.put, Spec.lookup. destruct cap; [lia|]. simpl.
  by rewrite filter_cons_True.
Qed.

Lemma spec_lookup_remove k k' l :
  k' ≠ k → Spec.lookup k' (Spec.remove k l) = Spec.lookup k' l.
Proof.
  intros Hne. unfold Spec.lookup, Spec.remove. do 2 f_equal.
  induction l as [|[k0 v0] l IH]; [done|]. rewrite !filter_cons. simpl.
  repeat case_decide; simplify_eq; rewrite ?filter_cons; simpl; try done.
  - rewrite decide_True by done. by rewrite IH.
  - by rewrite decide_False by done.
Qed.

Lemma spec_lookup_take n k l :
  Spec.lookup k (take n l) = None ∨ Spec.lookup k (take n l) = Spec.lookup k l.
Proof.
  revert n. induction l as [|[k0 v0] l IH]; intros [|n]; [by left..|].
  unfold Spec.lookup in *. simpl. rewrite !filter_cons. simpl. case_decide; [by right|].
  apply IH.
Qed.

Lemma spec_lookup_put_ne cap k k' v l :
  k' ≠ k →
  Spec.lookup k' (Spec.put cap k v l) = None
  ∨ Spec.lookup k' (Spec.put cap k v l) = Spec.lookup k' l.
Proof.
  intros Hne. unfold Spec.put.
  destruct (spec_lookup_take cap k' ((k, v) :: Spec.remove k l)) as [Hn | ->]; [by left|].
  right. rewrite <-(spec_lookup_remove k k' l Hne). unfold Spec.lookup.
  by rewrite filter_cons_False by (simpl; congruence).
Qed.

End spec_laws.

(** The view the [Database] interface gives of a cache is its recency list. *)
Lemma LRU_view {K V} `{Countable K} (c : LRUCache K V) k :
  lru_inv c → db_view c k = Spec.lookup k (abs c).
Proof.
  intros Hinv. unfold db_view. simpl. destruct (Get_spec c k Hinv) as (-> & _ & _).
  by destruct (Spec.lookup k (abs c)).
Qed.

#[global] Instance LRU_DatabaseLaws {K V} `{Countable K} : DatabaseLaws (LRUCache K V) K V.
Proof.
  refine {| db_inv := λ c, lru_inv c ∧ (0 < capacity c)%Z |}.
  - intros k d [Hi Hc]. simpl. destruct (Get_spec d k Hi) as (_ & _ & ?). by rewrite Get_capacity.
  - intros k v d [Hi Hc]. simpl. destruct (Put_spec d k v Hi) as (_ & _ & ?). by rewrite Put_capacity.
  - intros k k' d [Hi Hc]. destruct (Get_spec d k Hi) as (_ & Ha & Hi').
    simpl. rewrite !LRU_view, Ha by done.
    apply spec_lookup_perm; [|apply spec_touch_perm; apply Hi].
    rewrite <-Ha. apply Hi'.
  - intros k v d [Hi Hc]. destruct (Put_spec d k v Hi) as (_ & Ha & Hi').
    simpl. rewrite LRU_view, Ha by done. apply spec_lookup_put_eq. lia.
  - intros k k' v d [Hi Hc] Hne. destruct (Put_spec d k v Hi) as (_ & Ha & Hi').
    simpl. rewrite !LRU_view, Ha by done. by apply spec_lookup_put_ne.
Defined.

(** ** Retention: how long a written key stays cached *)

Inductive lru_op (K V : Type) :=
| OpGet (k : K)
| OpPut (k : K) (v : V).
Arguments OpGet {K V}.
Arguments OpPut {K V}.

Definition op_key {K V} (o : lru_op K V) : K :=
  match o with OpGet k => k | OpPut k _ => k end.

Section retention.
Context {K V : Type} `{Countable K}.
Implicit Types (c : LRUCache K V) (k : K) (v : V) (l : list (K * V)) (T : gset K).

Definition run_op (o : lru_op K V) (c : LRUCache K V) : LRUCache K V :=
  match o with OpGet k => (Get k c).2 | OpPut k v => (Put k v c).2 end.

Definition run_ops (os : list (lru_op K V)) (c : LRUCache K V) : LRUCache K V :=
  foldl (λ c o, run_op o c) c os.

(** Every key in front of [k] belongs to [T]. *)
Definition behind T k v l : Prop :=
  ∃ p q, l = p ++ (k, v) :: q ∧ (∀ x, x ∈ p.*1 → x ∈ T).

Lemma behind_length T k v p q :
  NoDup (p ++ (k, v) :: q).*1 → (∀ x, x ∈ p.*1 → x ∈ T) → (length p ≤ size T)%nat.
Proof.
  rewrite fmap_app. intros [Hnd _]%NoDup_app Hsub.
  rewrite <-(length_fmap fst p), <-(size_list_to_set (C:=gset K)) by done.
  apply subseteq_size. intros x. rewrite elem_of_list_to_set. apply Hsub.
Qed.

Lemma remove_app k l1 l2 : Spec.remove k (l1 ++ l2) = Spec.remove k l1 ++ Spec.remove k l2.
Proof. apply filter_app. Qed.

Lemma remove_fst_sub k l x : x ∈ (Spec.remove k l).*1 → x ∈ l.*1.
Proof.
  intros [[a b] [-> [_ Hin]%list_elem_of_filter]]%list_elem_of_fmap.
  by apply (fst_elem _ _ b).
Qed.

Lemma behind_touch T k v k' l :
  NoDup l.*1 → behind T k v l → behind ({[k']} ∪ T) k v (Spec.touch k' l).
Proof.
  intros Hnd (p & q & -> & Hp). unfold Spec.touch.
  destruct (Spec.lookup _ _) as [v'|] eqn:E.
  - destruct (decide (k' = k)) as [->|Hne].
    + apply lookup_Some in E; [|done]. assert (v' = v) as ->.
      { apply (nodup_fst_inj _ k _ _ Hnd E). apply elem_of_app. right. left. }
      exists [], (Spec.remove k (p ++ (k, v) :: q)). split; [done|].
      intros x Hx. by apply not_elem_of_nil in Hx.
    + exists ((k', v') :: Spec.remove k' p), (Spec.remove k' q). split.
      * rewrite remove_app. simpl. f_equal. f_equal. unfold Spec.remove.
        by rewrite filter_cons_True by (simpl; congruence).
      * intros x [->|Hx]%elem_of_cons; [set_solver|].
        apply remove_fst_sub in Hx. apply Hp in Hx. set_solver.
  - exists p, q. split; [done|]. intros x Hx. apply Hp in Hx. set_solver.
Qed.

Lemma behind_put T k v k' v' cap l :
  NoDup l.*1 → k' ≠ k → behind T k v l → (size ({[k']} ∪ T) < cap)%nat →
  NoDup ((k', v') :: Spec.remove k' l).*1 →
  behind ({[k']} ∪ T) k v (Spec.put cap k' v' l).
Proof.
  intros Hnd Hne (p & q & -> & Hp) Hsz Hnd'. unfold Spec.put.
  assert (Hr : (k', v') :: Spec.remove k' (p ++ (k, v) :: q)
               = ((k', v') :: Spec.remove k' p) ++ (k, v) :: Spec.remove k' q).
  { rewrite remove_app. simpl. do 2 f_equal. unfold Spec.remove.
    by rewrite filter_cons_True by (simpl; congruence). }
  assert (Hsub : ∀ x, x ∈ ((k', v') :: Spec.remove k' p).*1 → x ∈ {[k']} ∪ T).
  { intros x [->|Hx]%elem_of_cons; [set_solver|].
    apply remove_fst_sub, Hp in Hx. set_solver. }
  rewrite Hr in *. pose proof (behind_length _ _ _ _ _ Hnd' Hsub).
  rewrite take_app_ge by lia. destruct (cap - _)%nat as [|n] eqn:E; [lia|].
  exists ((k', v') :: Spec.remove k' p), (take n (Spec.remove k' q)). by split.
Qed.

Lemma run_op_spec o c : lru_inv c →
  lru_inv (run_op o c) ∧ capacity (run_op o c) = capacity c
  ∧ abs (run_op o c) = match o with
      | OpGet k => Spec.touch k (abs c)
      | OpPut k v => Spec.put (Z.to_nat (capacity c)) k v (abs c) end.
Proof.
  intros Hi. destruct o as [k|k v]; simpl.
  - destruct (Get_spec c k Hi) as (_ & ? & ?). by rewrite Get_capacity.
  - destruct (Put_spec c k v Hi) as (_ & ? & ?). by rewrite Put_capacity.
Qed.

Lemma remove_nodup k v l : NoDup l.*1 → NoDup ((k, v) :: Spec.remove k l).*1.
Proof.
  intros Hnd. simpl. apply NoDup_cons. split.
  - intros [[a b] [Heq [Hne Hin]%list_elem_of_filter]]%list_elem_of_fmap.
    simpl in *. congruence.
  - eapply sublist_NoDup; [exact Hnd|]. apply fmap_sublist, sublist_filter.
Qed.

Lemma run_ops_behind os : ∀ c T k v,
  lru_inv c → behind T k v (abs c) →
  (∀ o, o ∈ os → op_key o ≠ k) →
  (Z.of_nat (size (list_to_set (op_key <$> os) ∪ T)) < capacity c)%Z →
  lru_inv (run_ops os c) ∧ Spec.lookup k (abs (run_ops os c)) = Some v.
Proof.
  induction os as [|o os IH]; intros c T k v Hi Hb Hk Hsz; simpl.
  - split; [done|]. apply lookup_Some; [apply Hi|].
    destruct Hb as (p & q & -> & _). apply elem_of_app. right. left.
  - destruct (run_op_spec o c Hi) as (Hi' & Hcap & Ha).
    assert (Hne : op_key o ≠ k) by (apply Hk; left).
    assert (Hle : (size ({[op_key o]} ∪ T) ≤ size (list_to_set (op_key <$> o :: os) ∪ T))%nat).
    { apply subseteq_size. set_solver. }
    apply (IH _ ({[op_key o]} ∪ T)); [done|..].
    + rewrite Ha. destruct o as [k'|k' v']; simpl in *.
      * apply behind_touch; [apply Hi|done].
      * apply behind_put; [apply Hi|done|done|lia|].
        apply remove_nodup, Hi.
    + intros o' Ho'. apply Hk. by right.
    + rewrite Hcap. eapply Z.le_lt_trans; [|exact Hsz]. apply inj_le, subseteq_size.
      simpl. set_solver.
Qed.

End retention.

(** ** Trace refinement

    A client drives the cache through calls and sees replies.  The
    implementation started empty gives the same replies as the abstract
    recency list, whatever the calls. *)

Inductive call (K V : Type) :=
| CGet (k : K)
| CPut (k : K) (v : V)
| CDelete (k : K)
| CLen
| CEnlargeCapacity (n : Z).
Arguments CGet {K V}.
Arguments CPut {K V}.
Arguments CDelete {K V}.
Arguments CLen {K V}.
Arguments CEnlargeCapacity {K V}.

Inductive reply (V : Type) :=
| RValue (r : go_error + V)
| RError (e : option go_error)
| RLen (n : Z).
Arguments RValue {V}.
Arguments RError {V}.
Arguments RLen {V}.

Section refinement.
Context {K V : Type} `{Countable K}.
Implicit Types (c : LRUCache K V).

Definition impl_step (cl : call K V) (c : LRUCache K V) : reply V * LRUCache K V :=
  match cl with
  | CGet k => let '(r, c') := Get k c in (RValue r, c')
  | CPut k v => let '(e, c') := Put k v c in (RError e, c')
  | CDelete k => let '(e, c') := Delete k c in (RError e, c')
  | CLen => (RLen (Len c), c)
  | CEnlargeCapacity n => let '(e, c') := EnlargeCapacity n c in (RError e, c')
  end.

Definition spec_step (cl : call K V) (s : Z * list (K * V)) : reply V * (Z * list (K * V)) :=
  let '(cap, l) := s in
  match cl with
  | CGet k =>
      (RValue (match Spec.lookup k l with
               | Some v => inr v
               | None => inl (ErrKeyNotFound EmptyString) end),
       (cap, Spec.touch k l))
  | CPut k v => (RError None, (cap, Spec.put (Z.to_nat cap) k v l))
  | CDelete k =>
      (RError (if decide (k ∈ l.*1) then None else Some ErrDeleteMissing), (cap, Spec.remove k l))
  | CLen => (RLen (Z.of_nat (length l)), s)
  | CEnlargeCapacity n =>
      if decide (n < cap)%Z then (RError (Some (ErrCapacity n cap)), s)
      else (RError None, (n, l))
  end.

Fixpoint impl_run (cls : list (call K V)) (c : LRUCache K V) : list (reply V) * LRUCache K V :=
  match cls with
  | [] => ([], c)
  | cl :: cls => let '(r, c') := impl_step cl c in
                 let '(rs, c'') := impl_run cls c' in (r :: rs, c'')
  end.

Fixpoint spec_run (cls : list (call K V)) (s : Z * list (K * V))
    : list (reply V) * (Z * list (K * V)) :=
  match cls with
  | [] => ([], s)
  | cl :: cls => let '(r, s') := spec_step cl s in
                 let '(rs, s'') := spec_run cls s' in (r :: rs, s'')
  end.

Definition abs_state (c : LRUCache K V) : Z * list (K * V) := (capacity c, abs c).

Lemma impl_step_simulates cl c :
  lru_inv c →
  lru_inv (impl_step cl c).2
  ∧ spec_step cl (abs_state c) = ((impl_step cl c).1, abs_state (impl_step cl c).2).
Proof.
  intros Hi. destruct cl as [k|k v|k| |n]; simpl; unfold abs_state.
  - pose proof (Get_spec c k Hi) as (Hr & Ha & Hi'). pose proof (Get_capacity k c).
    destruct (Get k c) as [r c']; simpl in *. by rewrite Hr, Ha, H0.
  - pose proof (Put_spec c k v Hi) as (Hr & Ha & Hi'). pose proof (Put_capacity k v c).
    destruct (Put k v c) as [r c']; simpl in *. by rewrite Hr, Ha, H0.
  - pose proof (Delete_spec c k Hi) as (Hr & Ha & Hi').
    assert (capacity (Delete k c).2 = capacity c) as Hc by (unfold Delete; by destruct (cache c !! k)).
    destruct (Delete k c) as [r c']; simpl in *. by rewrite Hr, Ha, Hc.
  - split; [done|]. unfold abs, Len. by rewrite length_fmap.
  - split; [by pose proof (EnlargeCapacity_inv n c Hi); destruct (EnlargeCapacity n c)|].
    unfold EnlargeCapacity. simpl. by case_decide.
Qed.

Lemma impl_run_simulates cls : ∀ c,
  lru_inv c →
  lru_inv (impl_run cls c).2
  ∧ spec_run cls (abs_state c) = ((impl_run cls c).1, abs_state (impl_run cls c).2).
Proof.
  induction cls as [|cl cls IH]; intros c Hi; [done|]. cbn [impl_run spec_run].
  destruct (impl_step_simulates cl c Hi) as [Hi' Hs].
  destruct (spec_step cl (abs_state c)) as [rs s'] eqn:Es.
  destruct (impl_step cl c) as [r c']; simpl in *. simplify_eq.
  destruct (IH c' Hi') as [Hi'' ->]. by destruct (impl_run cls c').
Qed.

Lemma Keys_perm c : lru_inv c → Keys c ≡ₚ (abs c).*1.
Proof.
  intros Hi. apply NoDup_Permutation; [apply NoDup_fst_map_to_list|apply Hi|].
  intros k. unfold Keys. rewrite list_elem_of_fmap. split.
  - intros [[k' e] [-> Hin]]. apply elem_of_map_to_list in Hin.
    apply (inv_index c Hi) in Hin as [v Hin]. apply (fst_elem _ _ v), absl_elem. eauto.
  - intros [[k' v] [-> Hin]]%list_elem_of_fmap. apply absl_elem in Hin as [e Hin].
    exists (k', e). split; [done|]. apply elem_of_map_to_list, (inv_index c Hi). eauto.
Qed.

(** ** Properties *)

(** C29 Refinement: every sequence of [Get], [Put], [Delete], [Len] and
    [EnlargeCapacity] calls on a new cache of any capacity gets exactly the
    replies of the abstract least-recently-used list, and ends in a state that
    stands for the abstract one. *)
Theorem LRU_refinement cap (cls : list (call K V)) :
  spec_run cls (cap, [])
  = ((impl_run cls (NewLRUCache cap)).1, abs_state (impl_run cls (NewLRUCache cap)).2).
Proof. apply (impl_run_simulates cls (NewLRUCache cap) (New_inv cap)). Qed.

(** The index map and the element list never drift apart: in every reachable
    state [Keys] lists each cached key once, [Len] counts them, and a cache of
    capacity [n] never holds more than [n] keys (none if [n] is negative). *)
Theorem LRU_index_coherent cap (cls : list (call K V)) :
  let c := (impl_run cls (NewLRUCache cap)).2 in
  Keys c ≡ₚ (abs c).*1 ∧ NoDup (Keys c)
  ∧ Len c = Z.of_nat (length (Keys c)) ∧ (Len c ≤ Z.max 0 (capacity c))%Z.
Proof.
  intros c. assert (Hi : lru_inv c) by apply impl_run_simulates, New_inv.
  pose proof (Keys_perm c Hi) as Hp. split_and!.
  - done.
  - rewrite Hp. apply Hi.
  - unfold Len. rewrite Hp. unfold abs. by rewrite !length_fmap.
  - apply Hi.
Qed.

(** Retention: a key just written stays readable, with its value, through
    any sequence of reads and writes of other keys that uses fewer distinct
    keys than the capacity. *)
Theorem LRU_retention (c : LRUCache K V) k v (os : list (lru_op K V)) :
  lru_inv c →
  (∀ o, o ∈ os → op_key o ≠ k) →
  (Z.of_nat (size (list_to_set (op_key <$> os) : gset K)) < capacity c)%Z →
  (Get k (run_ops os (Put k v c).2)).1 = inr v.
Proof.
  intros Hi Hk Hsz. destruct (Put_spec c k v Hi) as (_ & Ha & Hi').
  destruct (run_ops_behind os (Put k v c).2 ∅ k v) as [Hi2 Hl]; [done| |exact Hk| |].
  - rewrite Ha. unfold Spec.put. destruct (Z.to_nat (capacity c)) as [|n] eqn:E; [lia|].
    exists [], (take n (Spec.remove k (abs c))). split; [done|].
    intros x Hx. by apply not_elem_of_nil in Hx.
  - by rewrite Put_capacity, (right_id_L ∅ (∪)).
  - destruct (Get_spec _ k Hi2) as (-> & _ & _). by rewrite Hl.
Qed.

End refinement.

(** The repository's own test ([lru_cache_test.go], [TestLruCache]) replayed on
    the model: "alice" is evicted by "carol" from a cache of capacity two. *)
Example TestLruCache :
  (impl_run [CPut "alice" 10; CGet "alice"; CPut "bob" 11; CPut "carol" 12; CGet "alice";
             CDelete "carol"; CGet "carol"]%Z (NewLRUCache 2)).1
  = [RError None; RValue (inr 10%Z); RError None; RError None;
     RValue (inl (ErrKeyNotFound "")); RError None; RValue (inl (ErrKeyNotFound ""))].
Proof. vm_compute. reflexivity. Qed.

Lemma LRU_retention_witness :
  (Get "a" (run_ops [OpPut "b" 2%Z; OpGet "b"; OpGet "z"] (Put "a" 1%Z (NewLRUCache 3)).2)).1
  = inr 1%Z.
Proof.
  apply (LRU_retention (NewLRUCache 3) "a" 1%Z [OpPut "b" 2%Z; OpGet "b"; OpGet "z"]).
  - apply New_inv.
  - intros o. rewrite !elem_of_cons. intros [->|[->|[->|[]%not_elem_of_nil]]] Heq; discriminate Heq.
  - vm_compute. done.
Defined.
