(* ===== verification/Entity.v ===== *)
(** * Replica configuration and block identity ([consensus/entity.go],
    [common/utils/utils.go], [api/crypto.go])

    The set of replicas with their signature verifiers, the verification of
    quorum certificates and of single signatures, and the hash that names a
    block. *)

From stdpp Require Import base numbers fin_maps fin_map_dom gmap sets strings list.
From Stdlib Require Import Strings.Byte.
From S2P Require Import Prelude GoMonad Encoding Types.

(** [api.Verifier]: [Verify(signature, digest)].  [api.Signer] draws randomness,
    which the model passes explicitly. *)
Definition Verifier : Type := bytes → bytes → go_error + bool.
Definition Signer (E : Type) : Type := E → bytes → go_error + bytes.

Record ReplicaInfo := MkReplicaInfo { Verify : Verifier }.

Record ReplicaConf := MkReplicaConf {
  Metadata : ConfigMetadata;
  Replicas : gmap Z ReplicaInfo }.

(** [utils.GetQuorumSize]: an [int], 64 bits wide. *)
Definition GetQuorumSize (md : ConfigMetadata) : Z := wrap64 (md_N md - md_F md).

(** [err == nil && ok] of one verification. *)
Definition accepts (info : ReplicaInfo) (sig digest : bytes) : bool :=
  match Verify info sig digest with inr ok => ok | inl _ => false end.

Section conf.
Context (rc : ReplicaConf).

(** The verification of one [Signs] entry: [None] when the goroutine
    dereferences a nil certificate, [Some false] for an unknown replica or a
    refused signature. *)
Definition verify_entry (digest : bytes) (e : Z * option PartCert) : option bool :=
  match Replicas rc !! e.1 with
  | None => Some false
  | Some info =>
      match e.2 with
      | None => None
      | Some pc => Some (accepts info (pc_Signature pc) digest)
      end
  end.

(** [VerifyQuorumCert]: [None] is a panic.  The goroutines only add to a
    counter, so the order of the map's iteration is immaterial. *)
Definition VerifyQuorumCert (qc : option QuorumCert) : option bool :=
  match qc with
  | None => Some false
  | Some qc =>
      if decide (len_signs qc < GetQuorumSize (Metadata rc))%Z then Some false
      else
        results ← mapM (verify_entry (qc_BlockHash qc)) (map_to_list (signs qc));
        let numVerified := Z.of_nat (length (filter (λ b : bool, b = true) results)) in
        Some (bool_decide (wrapu64 (GetQuorumSize (Metadata rc)) ≤ numVerified)%Z)
  end.

(** [VerifyIdentity]. *)
Definition VerifyIdentity (replicaId : Z) (signature digest : bytes) : bool :=
  match Replicas rc !! replicaId with
  | None => false
  | Some info =>
      match Verify info signature digest with
      | inl _ => false
      | inr ok => ok
      end
  end.

(** ** What a verified certificate means *)

(** The replicas whose stored signature verifies. *)
Definition signers (qc : QuorumCert) : gset Z :=
  dom (filter (λ e, verify_entry (qc_BlockHash qc) e = Some true) (signs qc)).

(** No certificate of a known replica is nil. *)
Definition certs_present (qc : QuorumCert) : Prop :=
  map_Forall (λ id pc, is_Some (Replicas rc !! id) → is_Some pc) (signs qc).

#[global] Instance certs_present_dec qc : Decision (certs_present qc).
Proof. unfold certs_present. apply _. Defined.

End conf.

(** [GetBlockHash]: [ParentHash], eight bytes of height, [Cmds]. *)
Definition block_preimage {Q} (b : Block Q) : bytes :=
  ParentHash b ++ PutUint64 (wrapu64 (Height b)) ++ Cmds b.

Definition GetBlockHash {Q} (b : Block Q) : bytes := Sha256.Sum256 (block_preimage b).

(** ** Lemmas *)

Section conf_lemmas.
Context (rc : ReplicaConf).
Implicit Types (qc : QuorumCert).

Lemma verify_entry_true digest id pc :
  verify_entry rc digest (id, pc) = Some true ↔
  ∃ info c, Replicas rc !! id = Some info ∧ pc = Some c
            ∧ accepts info (pc_Signature c) digest = true.
Proof.
  unfold verify_entry. simpl. destruct (Replicas rc !! id) as [info|].
  - destruct pc as [c|]; split.
    + intros Heq. exists info, c. split_and!; [done..|congruence].
    + intros (info' & c' & ? & ? & <-). by simplify_eq.
    + done.
    + by intros (info' & c' & _ & ? & _).
  - split; [done|]. by intros (info & c & ? & _).
Qed.

Lemma elem_of_signers qc id :
  id ∈ signers rc qc ↔
  ∃ info c, Replicas rc !! id = Some info ∧ signs qc !! id = Some (Some c)
            ∧ accepts info (pc_Signature c) (qc_BlockHash qc) = true.
Proof.
  unfold signers. rewrite elem_of_dom. unfold is_Some.
  setoid_rewrite map_lookup_filter_Some. setoid_rewrite verify_entry_true. naive_solver.
Qed.

Lemma signers_registered qc : signers rc qc ⊆ dom (Replicas rc).
Proof.
  intros id (info & c & Hi & _)%elem_of_signers. apply elem_of_dom. eauto.
Qed.

(** The goroutines' counter is the number of signers. *)
Lemma length_verified (f : Z * option PartCert → option bool) (l : list (Z * option PartCert)) bs :
  mapM f l = Some bs →
  length (filter (λ b : bool, b = true) bs) = length (filter (λ e, f e = Some true) l).
Proof.
  revert bs. induction l as [|e l IH]; intros bs Hm; simpl in Hm.
  { injection Hm as <-. done. }
  destruct (f e) as [b|] eqn:E; simpl in Hm; [|done].
  destruct (mapM f l) as [bs'|] eqn:E'; simpl in Hm; [|done].
  injection Hm as <-.
  rewrite !filter_cons, E. destruct b.
  - rewrite !decide_True by done. simpl. f_equal. by apply IH.
  - rewrite !decide_False by done. by apply IH.
Qed.

Lemma size_signers qc :
  size (signers rc qc)
  = length (filter (λ e, verify_entry rc (qc_BlockHash qc) e = Some true) (map_to_list (signs qc))).
Proof.
  unfold signers. rewrite size_dom, <-length_map_to_list.
  apply Permutation_length, NoDup_Permutation.
  - apply NoDup_map_to_list.
  - apply NoDup_filter, NoDup_map_to_list.
  - intros [id pc]. rewrite list_elem_of_filter, !elem_of_map_to_list.
    rewrite map_lookup_filter_Some. naive_solver.
Qed.

Lemma mapM_certs qc :
  is_Some (mapM (verify_entry rc (qc_BlockHash qc)) (map_to_list (signs qc)))
  ↔ certs_present rc qc.
Proof.
  rewrite mapM_is_Some, Forall_forall. unfold certs_present. split.
  - intros Hall id pc Hin [info Hi].
    specialize (Hall (id, pc)). rewrite elem_of_map_to_list in Hall.
    destruct (Hall Hin) as [b Hb]. unfold verify_entry in Hb. simpl in Hb. rewrite Hi in Hb.
    by destruct pc.
  - intros Hall [id pc] Hin%elem_of_map_to_list. unfold verify_entry. simpl.
    destruct (Replicas rc !! id) as [info|] eqn:E; [|eauto].
    destruct (Hall id pc Hin) as [c ->]; eauto.
Qed.

Lemma signers_size qc : (Z.of_nat (size (signers rc qc)) ≤ len_signs qc)%Z.
Proof.
  unfold len_signs, signers. rewrite size_dom. apply inj_le.
  apply map_subseteq_size, map_filter_subseteq.
Qed.

(** The quorum size as the configuration means it, when the subtraction does
    not overflow and there are no more faults than replicas. *)
Definition sane_metadata (md : ConfigMetadata) : Prop :=
  (0 ≤ md_F md ≤ md_N md)%Z ∧ (md_N md < 2 ^ 63)%Z.

Lemma quorum_sane md : sane_metadata md → GetQuorumSize md = (md_N md - md_F md)%Z.
Proof. intros [? ?]. apply wrap64_id. unfold is_int64. lia. Qed.

Lemma VerifyQuorumCert_spec qc :
  sane_metadata (Metadata rc) → certs_present rc qc →
  VerifyQuorumCert rc (Some qc)
  = Some (bool_decide (md_N (Metadata rc) - md_F (Metadata rc) ≤ Z.of_nat (size (signers rc qc)))%Z).
Proof.
  intros Hs Hc. unfold VerifyQuorumCert. pose proof (quorum_sane _ Hs) as Hq.
  pose proof (signers_size qc). rewrite Hq. case_decide as Hd.
  - rewrite bool_decide_eq_false_2 by lia. done.
  - apply mapM_certs in Hc as [bs Hbs]. rewrite Hbs. simpl. do 2 f_equal.
    rewrite (length_verified _ _ _ Hbs), <-size_signers.
    destruct Hs. unfold wrapu64. rewrite Z.mod_small by lia. done.
Qed.

Lemma VerifyQuorumCert_true qc :
  sane_metadata (Metadata rc) → VerifyQuorumCert rc (Some qc) = Some true →
  (md_N (Metadata rc) - md_F (Metadata rc) ≤ Z.of_nat (size (signers rc qc)))%Z.
Proof.
  intros Hs Hv. destruct (decide (certs_present rc qc)) as [Hc|Hc].
  - rewrite VerifyQuorumCert_spec in Hv by done.
    injection Hv as Hv. by apply bool_decide_eq_true in Hv.
  - exfalso. unfold VerifyQuorumCert in Hv. case_decide; [done|].
    rewrite <-mapM_certs in Hc. destruct (mapM _ _); [|done]. apply Hc. eauto.
Qed.

(** Two sets of registered replicas of quorum size share more than [F] members. *)
Lemma quorum_overlap (X Y R : gset Z) (n f : Z) :
  X ⊆ R → Y ⊆ R → (Z.of_nat (size R) ≤ n)%Z → (3 * f + 1 ≤ n)%Z →
  (n - f ≤ Z.of_nat (size X))%Z → (n - f ≤ Z.of_nat (size Y))%Z →
  (f + 1 ≤ Z.of_nat (size (X ∩ Y)))%Z.
Proof.
  intros HX HY HR Hn HsX HsY.
  assert (Hu : (size (X ∪ Y) ≤ size R)%nat) by (apply subseteq_size; set_solver).
  assert (Hsum : (size (X ∪ Y) + size (X ∩ Y) = size X + size Y)%nat).
  { rewrite size_union_alt. assert (size (Y ∖ X) + size (X ∩ Y) = size Y)%nat; [|lia].
    rewrite (size_difference_alt Y X). assert (Y ∩ X = X ∩ Y) as -> by set_solver.
    assert (size (X ∩ Y) ≤ size Y)%nat by (apply subseteq_size; set_solver). lia. }
  lia.
Qed.

(** Two verified certificates share a signer outside a set of [F] replicas. *)
Lemma quorum_share qc1 qc2 (faulty : gset Z) :
  sane_metadata (Metadata rc) →
  (Z.of_nat (size (dom (Replicas rc))) ≤ md_N (Metadata rc))%Z →
  (3 * md_F (Metadata rc) + 1 ≤ md_N (Metadata rc))%Z →
  (Z.of_nat (size faulty) ≤ md_F (Metadata rc))%Z →
  VerifyQuorumCert rc (Some qc1) = Some true →
  VerifyQuorumCert rc (Some qc2) = Some true →
  ∃ i, (i ∉ faulty) ∧ i ∈ signers rc qc1 ∧ i ∈ signers rc qc2.
Proof.
  intros Hs Hreg Hn Hf H1%VerifyQuorumCert_true H2%VerifyQuorumCert_true; [|done..].
  pose proof (quorum_overlap (signers rc qc1) (signers rc qc2) (dom (Replicas rc))
    (md_N (Metadata rc)) (md_F (Metadata rc))
    (signers_registered qc1) (signers_registered qc2) Hreg Hn H1 H2) as Hov.
  destruct (set_choose_or_empty ((signers rc qc1 ∩ signers rc qc2) ∖ faulty)) as [[id Hid]|He].
  - exists id. set_solver.
  - assert (Hsub : signers rc qc1 ∩ signers rc qc2 ⊆ faulty).
    { intros id Hid. destruct (decide (id ∈ faulty)); set_solver. }
    apply subseteq_size in Hsub. lia.
Qed.

End conf_lemmas.

(** ** Block hashes *)

Lemma preimage_split (p1 p2 c1 c2 : bytes) (h1 h2 : Z) :
  length p1 = length p2 → (0 ≤ h1 < 2 ^ 64)%Z → (0 ≤ h2 < 2 ^ 64)%Z →
  p1 ++ PutUint64 h1 ++ c1 = p2 ++ PutUint64 h2 ++ c2 → p1 = p2 ∧ h1 = h2 ∧ c1 = c2.
Proof.
  intros Hlen Hh1 Hh2 Heq. apply app_inj_1 in Heq as [-> Heq]; [|done].
  apply app_inj_1 in Heq as [Hh ->].
  - split_and!; [done| |done]. by apply PutUint64_inj in Hh.
  - unfold PutUint64. by rewrite !length_le_bytes.
Qed.

(** Distinct inputs with the same SHA-256 digest. *)
Definition sha256_collides (x y : bytes) : Prop := x ≠ y ∧ Sha256.Sum256 x = Sha256.Sum256 y.

(** ** Properties *)

(** C17 A quorum certificate verifies exactly when at least [N - F] distinct
    registered replicas signed the block hash it names: unknown replicas, and
    certificates whose signature is refused or fails to decode, never count. *)
Theorem VerifyQuorumCert_iff rc qc :
  sane_metadata (Metadata rc) → certs_present rc qc →
  (VerifyQuorumCert rc (Some qc) = Some true) ↔
  (md_N (Metadata rc) - md_F (Metadata rc) ≤ Z.of_nat (size (signers rc qc)))%Z.
Proof.
  intros Hs Hc. rewrite VerifyQuorumCert_spec by done. split.
  - intros Heq. injection Heq as Heq. by apply bool_decide_eq_true in Heq.
  - intros Hle. by rewrite bool_decide_eq_true_2.
Qed.

(** Quorum intersection: with [N >= 3F + 1] replicas registered, any two
    certificates that verify (for the same or for different blocks) were both
    signed by a replica outside any given set of at most [F] faulty ones. *)
Theorem quorum_intersection rc qc1 qc2 (faulty : gset Z) :
  sane_metadata (Metadata rc) →
  (Z.of_nat (size (dom (Replicas rc))) ≤ md_N (Metadata rc))%Z →
  (3 * md_F (Metadata rc) + 1 ≤ md_N (Metadata rc))%Z →
  (Z.of_nat (size faulty) ≤ md_F (Metadata rc))%Z →
  VerifyQuorumCert rc (Some qc1) = Some true →
  VerifyQuorumCert rc (Some qc2) = Some true →
  ∃ i, (i ∉ faulty) ∧ i ∈ signers rc qc1 ∧ i ∈ signers rc qc2.
Proof. apply quorum_share. Qed.

(** C33 Block hashes bind their contents: blocks with the same hash and parent
    hashes of the same length have the same parent, height and commands, unless
    their own two preimages are a SHA-256 collision. *)
Theorem GetBlockHash_binding {Q} (b1 b2 : Block Q) :
  is_int64 (Height b1) → is_int64 (Height b2) →
  length (ParentHash b1) = length (ParentHash b2) →
  GetBlockHash b1 = GetBlockHash b2 →
  (ParentHash b1 = ParentHash b2 ∧ Height b1 = Height b2 ∧ Cmds b1 = Cmds b2)
  ∨ sha256_collides (block_preimage b1) (block_preimage b2).
Proof.
  intros Hh1 Hh2 Hlen Heq.
  destruct (decide (block_preimage b1 = block_preimage b2)) as [Hp|Hp].
  - left. apply preimage_split in Hp as (Hpar & Hh & Hc); [|done|apply Z.mod_pos_bound; lia..].
    split_and!; [done| |done]. by apply wrapu64_inj.
  - right. done.
Qed.

(** What a block hash does not cover: proposer, timestamp, justification and
    self-certificate are free, and where parent hashes may differ in length the
    concatenation is ambiguous: a block without parent whose commands are
    [rest ++ le64(h)] has the hash of a block of height [h] without commands
    whose parent hash is [le64(g) ++ rest]. *)
Theorem GetBlockHash_not_covered {Q} (b : Block Q) (proposer ts g h : Z) (j sq : option Q)
    (rest : bytes) :
  GetBlockHash (MkBlock (ParentHash b) (Cmds b) proposer (Height b) ts j sq) = GetBlockHash b
  ∧ GetBlockHash (MkBlock (Q:=Q) [] (rest ++ PutUint64 (wrapu64 h)) proposer g ts j sq)
    = GetBlockHash (MkBlock (Q:=Q) (PutUint64 (wrapu64 g) ++ rest) [] proposer h ts j sq).
Proof.
  split; [done|]. unfold GetBlockHash, block_preimage. cbn [ParentHash Cmds Height].
  by rewrite app_nil_r, app_nil_l, app_assoc.
Qed.

(** The genesis block of [NewHotStuffCore], and the hash the repository's own
    test ([entity_test.go], [TestGetBlockHash]) expects for it. *)
Example TestGetBlockHash :
  EncodeToString (GetBlockHash (MkBlock (Q:=QCRef) [] [] 0 0 0 None None))
  = "af5570f5a1810b7af78caf4bc70a660f0df51e42baf91d4de5b2328de0e83dfc".
Proof. vm_compute. reflexivity. Qed.

(** ** A concrete configuration for witnesses: four replicas, one fault, a
    toy scheme whose signature of a digest by [i] is [i] followed by the
    digest. *)

Module Toy.

Definition sign (i : Z) (digest : bytes) : bytes := byte_of_Z i :: digest.

Definition info (i : Z) : ReplicaInfo :=
  MkReplicaInfo (λ sig digest, inr (bool_decide (sig = sign i digest))).

Definition conf : ReplicaConf :=
  MkReplicaConf (MkConfigMetadata 4 1 3)
    {[0%Z := info 0; 1%Z := info 1; 2%Z := info 2; 3%Z := info 3]}.

Definition cert (i : Z) (digest : bytes) : option PartCert := Some (MkPartCert i (sign i digest)).

(** A certificate for [digest] signed by the replicas [ids]. *)
Definition qc (view : Z) (digest : bytes) (ids : list Z) : QuorumCert :=
  MkQuorumCert view digest (Some (list_to_map ((λ i, (i, cert i digest)) <$> ids))).

End Toy.

Lemma VerifyQuorumCert_iff_witness :
  VerifyQuorumCert Toy.conf (Some (Toy.qc 1 [x61] [0; 1; 3]%Z)) = Some true.
Proof.
  apply (VerifyQuorumCert_iff Toy.conf (Toy.qc 1 [x61] [0; 1; 3]%Z)).
  - split; simpl; lia.
  - apply (bool_decide_unpack _). vm_compute. done.
  - vm_compute. discriminate.
Defined.

Lemma quorum_intersection_witness :
  ∃ i, (i ∉ ({[3%Z]} : gset Z))
        ∧ i ∈ signers Toy.conf (Toy.qc 1 [x61] [0; 1; 3]%Z)
        ∧ i ∈ signers Toy.conf (Toy.qc 2 [x62] [1; 2; 3]%Z).
Proof.
  apply (quorum_intersection Toy.conf (Toy.qc 1 [x61] [0; 1; 3]%Z) (Toy.qc 2 [x62] [1; 2; 3]%Z)).
  - split; simpl; lia.
  - vm_compute. discriminate.
  - vm_compute. discriminate.
  - vm_compute. discriminate.
  - vm_compute. reflexivity.
  - vm_compute. reflexivity.
Defined.

Lemma GetBlockHash_binding_witness :
  let b1 := MkBlock (Q:=QCRef) [x01] [x61] 0 7 0 None None in
  let b2 := MkBlock (Q:=QCRef) [x01] [x61] 2 7 9 None None in
  (ParentHash b1 = ParentHash b2 ∧ Height b1 = Height b2 ∧ Cmds b1 = Cmds b2)
  ∨ sha256_collides (block_preimage b1) (block_preimage b2).
Proof.
  intros b1 b2. apply (GetBlockHash_binding b1 b2).
  - apply (bool_decide_unpack _). vm_compute. done.
  - apply (bool_decide_unpack _). vm_compute. done.
  - reflexivity.
  - reflexivity.
Defined.
