(* ===== verification/Core.v ===== *)
(** * The consensus core ([consensus/consensus.go])

    [HotStuffCore] and its methods.  Quorum certificates are heap objects
    ([qcHeap]): [genericQC], [lockedQC], [execQC] and a block's [Justify] and
    [SelfQc] are pointers into that heap, and [OnProposalVote] writes signatures
    through a block's [SelfQc], so every pointer to that certificate sees them.
    Blocks are not written after they are stored, so they are values.

    A method runs to completion before the next one starts, except where it
    parks in [sync.Cond.Wait]; the mutexes of the source guard exactly the
    fields the model updates.  Values sent on [notifyChan] are recorded in the
    order they are sent.  [api.Database] is the interface class [Database];
    [proto.Clone] is the parameter [clone]; the clock and the signer's
    randomness are arguments. *)

From stdpp Require Import base numbers fin_maps gmap sets strings list.
From S2P Require Import Prelude GoMonad Encoding Types Database LRUCache Entity.

(** ** Events ([consensus/events.go]) *)

Inductive EventNotifier :=
| ProposeEvent (p : Proposal QCRef)
| ReceiveProposalEvent (p : Proposal QCRef) (v : Vote)
| ReceiveNewViewEvent (ReplicaId : Z) (View : NewView QCRef)
| QcFinishEvent (EvProposer : Z) (Qc : option QCRef)
| HqcUpdateEvent (Qc : option QCRef)
| DecideEvent (b : Block QCRef).

(** ** State *)

Record HotStuffCore (DB : Type) := MkCore {
  genesisBlock : Block QCRef;
  genericQC : option QCRef;
  lockedQC : option QCRef;
  execQC : option QCRef;
  voteHeight : Z;
  blockCache : DB;
  voteSet : gmap string (list Vote);
  notifyChan : list EventNotifier;
  condGen : nat;                  (* number of [cond.Broadcast] calls *)
  qcHeap : list QuorumCert }.
Arguments MkCore {DB}.
Arguments genesisBlock {DB}.
Arguments genericQC {DB}.
Arguments lockedQC {DB}.
Arguments execQC {DB}.
Arguments voteHeight {DB}.
Arguments blockCache {DB}.
Arguments voteSet {DB}.
Arguments notifyChan {DB}.
Arguments condGen {DB}.
Arguments qcHeap {DB}.

Section setters.
Context {DB : Type}.

Definition set_genericQC (r : option QCRef) (s : HotStuffCore DB) : HotStuffCore DB :=
  MkCore (genesisBlock s) r (lockedQC s) (execQC s) (voteHeight s) (blockCache s)
    (voteSet s) (notifyChan s) (condGen s) (qcHeap s).
Definition set_lockedQC (r : option QCRef) (s : HotStuffCore DB) : HotStuffCore DB :=
  MkCore (genesisBlock s) (genericQC s) r (execQC s) (voteHeight s) (blockCache s)
    (voteSet s) (notifyChan s) (condGen s) (qcHeap s).
Definition set_execQC (r : option QCRef) (s : HotStuffCore DB) : HotStuffCore DB :=
  MkCore (genesisBlock s) (genericQC s) (lockedQC s) r (voteHeight s) (blockCache s)
    (voteSet s) (notifyChan s) (condGen s) (qcHeap s).
Definition set_voteHeight (h : Z) (s : HotStuffCore DB) : HotStuffCore DB :=
  MkCore (genesisBlock s) (genericQC s) (lockedQC s) (execQC s) h (blockCache s)
    (voteSet s) (notifyChan s) (condGen s) (qcHeap s).
Definition set_blockCache (d : DB) (s : HotStuffCore DB) : HotStuffCore DB :=
  MkCore (genesisBlock s) (genericQC s) (lockedQC s) (execQC s) (voteHeight s) d
    (voteSet s) (notifyChan s) (condGen s) (qcHeap s).
Definition set_voteSet (m : gmap string (list Vote)) (s : HotStuffCore DB) : HotStuffCore DB :=
  MkCore (genesisBlock s) (genericQC s) (lockedQC s) (execQC s) (voteHeight s) (blockCache s)
    m (notifyChan s) (condGen s) (qcHeap s).
Definition set_notifyChan (l : list EventNotifier) (s : HotStuffCore DB) : HotStuffCore DB :=
  MkCore (genesisBlock s) (genericQC s) (lockedQC s) (execQC s) (voteHeight s) (blockCache s)
    (voteSet s) l (condGen s) (qcHeap s).
Definition set_condGen (n : nat) (s : HotStuffCore DB) : HotStuffCore DB :=
  MkCore (genesisBlock s) (genericQC s) (lockedQC s) (execQC s) (voteHeight s) (blockCache s)
    (voteSet s) (notifyChan s) n (qcHeap s).
Definition set_qcHeap (h : list QuorumCert) (s : HotStuffCore DB) : HotStuffCore DB :=
  MkCore (genesisBlock s) (genericQC s) (lockedQC s) (execQC s) (voteHeight s) (blockCache s)
    (voteSet s) (notifyChan s) (condGen s) h.

End setters.

(** The fields of [HotStuffCore] that are never assigned after construction,
    and [proto.Clone]. *)
Record CoreEnv (E : Type) := MkCoreEnv {
  id : Z;
  Sign : Signer E;
  replicas : ReplicaConf;
  clone : QuorumCert → QuorumCert }.
Arguments MkCoreEnv {E}.
Arguments id {E}.
Arguments Sign {E}.
Arguments replicas {E}.
Arguments clone {E}.

Section core.
Context {DB E : Type} `{Database DB string (Block QCRef)} (env : CoreEnv E).

Local Abbreviation Core := (HotStuffCore DB).
Local Abbreviation C := (M (HotStuffCore DB)).

(** ** The certificate heap *)

Definition read_qc (r : QCRef) : C QuorumCert :=
  h ← gets qcHeap; orPanic (h !! r).

(** [p.field] through a certificate pointer: nil panics. *)
Definition deref (r : option QCRef) : C QuorumCert :=
  r ← orPanic r; read_qc r.

Definition alloc_qc (qc : QuorumCert) : C QCRef :=
  h ← gets qcHeap;
  _ ← modify (set_qcHeap (h ++ [qc]));
  mret (length h).

Definition write_qc (r : QCRef) (qc : QuorumCert) : C unit :=
  modify (λ s, set_qcHeap (<[r := qc]> (qcHeap s)) s).

(** ** Channel, condition variable, accessors *)

Definition notify (n : EventNotifier) : C unit :=
  modify (λ s, set_notifyChan (notifyChan s ++ [n]) s).

Definition cond_Broadcast : C unit := modify (λ s, set_condGen (S (condGen s)) s).

Definition GetVoteHeight : C Z := gets voteHeight.

Definition setVoteHeight (vHeight : Z) : C unit := modify (set_voteHeight vHeight).

Definition GetHighQC : C (option QCRef) := gets genericQC.

(** ** Block store *)

Definition StoreBlock (block : Block QCRef) : C unit :=
  qc ← deref (SelfQc block);
  modify (λ s, set_blockCache
    (db_put (EncodeToString (qc_BlockHash qc)) block (blockCache s)).2 s).

Definition LoadBlock (hash : bytes) : C (go_error + Block QCRef) := λ s,
  let '(r, d) := db_get (EncodeToString hash) (blockCache s) in
  (Ok r, set_blockCache d s).

(** [AsyncWaitBlock] up to [cond.Wait]. *)
Definition AsyncWaitBlock (hash : bytes) : C (go_error + Block QCRef) :=
  r ← LoadBlock hash;
  match r with
  | inr block => mret (inr block)
  | inl _ => park (WaitBlock hash)
  end.

(** [AsyncWaitBlock] after [cond.Wait] returns. *)
Definition AsyncWaitBlock_wake (hash : bytes) : C (go_error + Block QCRef) := LoadBlock hash.

Definition getJustifyBlock (block : option (Block QCRef)) : C (go_error + Block QCRef) :=
  match block with
  | None => mret (inl ErrEmptyBlock)
  | Some block =>
      match Justify block with
      | None => mret (inl ErrNilJustify)
      | Some j => qc ← read_qc j; LoadBlock (qc_BlockHash qc)
      end
  end.

(** ** Certificates *)

Definition UpdateHighestQC (block : Block QCRef) (qc : option QCRef) : C unit :=
  q ← deref qc;
  ok ← orPanic (VerifyQuorumCert (replicas env) (Some q));
  if ok : bool then
    g ← gets genericQC;
    match g with
    | None => modify (set_genericQC qc)
    | Some _ =>
        high ← deref g;
        hb ← LoadBlock (qc_BlockHash high);
        match hb with
        | inl _ => mret tt
        | inr highBlock =>
            if decide (Height highBlock < Height block)%Z then
              _ ← modify (set_genericQC qc);
              notify (HqcUpdateEvent qc)
            else mret tt
        end
    end
  else mret tt.

Definition updateLockedQC (block : Block QCRef) (qc : option QCRef) : C unit :=
  l ← gets lockedQC;
  _ ← match l with
      | None => _ ← deref qc; modify (set_lockedQC qc)
      | Some _ => mret tt
      end;
  l ← gets lockedQC;
  locked ← deref l;
  lb ← LoadBlock (qc_BlockHash locked);
  match lb with
  | inl _ => mret tt
  | inr lockedBlock =>
      if decide (Height lockedBlock < Height block)%Z then
        _ ← deref qc;
        modify (set_lockedQC qc)
      else mret tt
  end.

(** The [for i := block0.Height - execHeight; i > 0; i--] loop of [update]. *)
Fixpoint decide_loop (i : nat) (blockHash : bytes) : C unit :=
  match i with
  | O => mret tt
  | S i =>
      r ← LoadBlock blockHash;
      nblk ← orFail r;
      _ ← notify (DecideEvent nblk);
      decide_loop i (ParentHash nblk)
  end.

(** The DECIDE phase of [update], after the three-chain test. *)
Definition decide_phase (block0 block1 : Block QCRef) : C unit :=
  e ← gets execQC;
  execHeight ← match e with
    | None => mret 0%Z
    | Some _ =>
        eqc ← deref e;
        r ← LoadBlock (qc_BlockHash eqc);
        execBlock ← orFail r;
        mret (Height execBlock)
    end;
  _ ← modify (set_execQC (Justify block1));
  decide_loop (Z.to_nat (wrap64 (Height block0 - execHeight))) (GetBlockHash block0).

Definition update (block : Block QCRef) : C unit :=
  r2 ← getJustifyBlock (Some block);
  block2 ← orFail r2;
  _ ← UpdateHighestQC block2 (Justify block);
  r1 ← getJustifyBlock (Some block2);
  match r1 with
  | inl _ => mret tt
  | inr block1 =>
      _ ← updateLockedQC block1 (Justify block2);
      r0 ← getJustifyBlock (Some block1);
      match r0 with
      | inl _ => mret tt
      | inr block0 =>
          j2 ← deref (Justify block2);
          j1 ← deref (Justify block1);
          if decide (ParentHash block2 ≠ qc_BlockHash j2 ∨ ParentHash block1 ≠ qc_BlockHash j1)
          then mret tt
          else decide_phase block0 block1
      end
  end.

(** ** Votes *)

Definition createPartCert (ent : E) (hash : bytes) : C (option PartCert) :=
  sig ← orFail (Sign env ent hash);
  mret (Some (MkPartCert (id env) sig)).

Definition voteProposal (ent : E) (viewNumber height : Z) (hash : bytes) : C Vote :=
  cert ← createPartCert ent hash;
  mret (MkVote viewNumber (id env) hash cert).

Definition addVoteMsg (vote : Vote) : C unit :=
  modify (λ s,
    let blockHash := EncodeToString (vote_BlockHash vote) in
    match voteSet s !! blockHash with
    | Some voteSlice => set_voteSet (<[blockHash := voteSlice ++ [vote]]> (voteSet s)) s
    | None => set_voteSet (<[blockHash := [vote]]> (voteSet s)) s
    end).

(** The loop of [applyVotes] over a non-nil signature map. *)
Definition add_votes (m : gmap Z (option PartCert)) (votes : list Vote)
    : gmap Z (option PartCert) :=
  foldl (λ m v, match m !! vote_Voter v with
                | Some _ => m
                | None => <[vote_Voter v := vote_Cert v]> m
                end) m votes.

Definition applyVotes (block : Block QCRef) : C unit :=
  r ← orPanic (SelfQc block);
  qc ← read_qc r;
  vs ← gets voteSet;
  let blockHash := EncodeToString (qc_BlockHash qc) in
  match vs !! blockHash with
  | None => mret tt
  | Some votes =>
      _ ← match qc_Signs qc with
          | None => when (negb (bool_decide (votes = []))) panic
          | Some m => write_qc r (set_signs (add_votes m votes) qc)
          end;
      modify (set_voteSet (delete blockHash vs))
  end.

Definition OnProposalVote (vote : Vote) : C unit :=
  lb ← LoadBlock (vote_BlockHash vote);
  match lb with
  | inl _ => addVoteMsg vote
  | inr block =>
      r ← orPanic (SelfQc block);
      qc ← read_qc r;
      if decide (GetQuorumSize (Metadata (replicas env)) ≤ len_signs qc)%Z then mret tt
      else if decide (is_Some (signs qc !! vote_Voter vote)) then
        fail (ErrDuplicateVote (vote_BlockHash vote) (vote_Voter vote))
      else
        _ ← write_qc r (set_signs (<[vote_Voter vote := vote_Cert vote]> (signs qc)) qc);
        _ ← applyVotes block;
        qc' ← read_qc r;
        if decide (len_signs qc' < GetQuorumSize (Metadata (replicas env)))%Z then mret tt
        else
          _ ← UpdateHighestQC block (SelfQc block);
          notify (QcFinishEvent (Proposer block) (SelfQc block))
  end.

Definition OnNewView (signer : Z) (view : NewView QCRef) : C unit :=
  notify (ReceiveNewViewEvent signer view).

(** ** Proposals *)

(** [createLeaf]: [now] is the clock reading. *)
Definition createLeaf (now : Z) (parentHash cmds : bytes) (height : Z) : C (Block QCRef) :=
  g ← gets genericQC;
  j ← match g with
      | None => mret None
      | Some _ => qc ← deref g; r ← alloc_qc (clone env qc); mret (Some r)
      end;
  mret (MkBlock parentHash cmds (id env) height now j None).

Definition OnPropose (now : Z) (ent : E) (curView : Z) (parentHash cmds : bytes) : C unit :=
  lb ← LoadBlock parentHash;
  match lb with
  | inl _ => fail ErrParentNotFound
  | inr block =>
      newBlock ← createLeaf now parentHash cmds (wrap64 (Height block + 1));
      vh ← GetVoteHeight;
      if decide (Height newBlock ≤ vh)%Z then fail (ErrBelowVoteHeight (Height newBlock) vh)
      else
        let hash := GetBlockHash newBlock in
        sq ← alloc_qc (MkQuorumCert curView hash (Some ∅));
        let newBlock := set_SelfQc (Some sq) newBlock in
        _ ← StoreBlock newBlock;
        _ ← update newBlock;
        _ ← setVoteHeight (Height newBlock);
        vote ← voteProposal ent curView (Height newBlock) hash;
        _ ← OnProposalVote vote;
        notify (ProposeEvent (MkProposal curView (Some newBlock)))
  end.

(** The loop of the safety condition: follow [ParentHash] [i] times. *)
Fixpoint walk_parents (i : nat) (nblk : Block QCRef) : C (Block QCRef) :=
  match i with
  | O => mret nblk
  | S i =>
      r ← LoadBlock (ParentHash nblk);
      nblk ← orFail r;
      walk_parents i nblk
  end.

(** The voting rule of [OnReceiveProposal]: liveness or safety condition. *)
Definition vote_rule (block : Block QCRef) : C unit :=
  vh ← GetVoteHeight;
  if decide (vh < Height block)%Z then
    rj ← getJustifyBlock (Some block);
    jb ← orFail rj;
    l ← gets lockedQC;
    lqc ← deref l;
    rl ← LoadBlock (qc_BlockHash lqc);
    lockedb ← orFail rl;
    if decide (Height lockedb < Height jb)%Z then setVoteHeight (Height block)
    else
      nblk ← walk_parents (Z.to_nat (wrap64 (Height block - Height lockedb))) block;
      nq ← deref (SelfQc nblk);
      lq ← deref (SelfQc lockedb);
      if decide (qc_BlockHash nq = qc_BlockHash lq) then setVoteHeight (Height block)
      else mret tt
  else mret tt.

(** [OnReceiveProposal] after the justified block was found. *)
Definition acceptProposal (ent : E) (prop : Proposal QCRef) (block : Block QCRef) : C unit :=
  _ ← update block;
  _ ← vote_rule block;
  sq ← deref (SelfQc block);
  vote ← voteProposal ent (prop_ViewNumber prop) (Height block) (qc_BlockHash sq);
  notify (ReceiveProposalEvent prop vote).

Definition OnReceiveProposal (ent : E) (prop : Proposal QCRef) : C unit :=
  block ← orPanic (prop_Block prop);
  _ ← deref (SelfQc block);
  _ ← StoreBlock block;
  _ ← cond_Broadcast;
  j ← deref (Justify block);
  r ← AsyncWaitBlock (qc_BlockHash j);
  match r with
  | inl _ => fail (ErrExpectedBlockNotFound (qc_BlockHash j))
  | inr _ => acceptProposal ent prop block
  end.

(** [OnReceiveProposal] resumed after [cond.Wait]. *)
Definition OnReceiveProposal_wake (ent : E) (prop : Proposal QCRef) : C unit :=
  block ← orPanic (prop_Block prop);
  j ← deref (Justify block);
  r ← AsyncWaitBlock_wake (qc_BlockHash j);
  match r with
  | inl _ => fail (ErrExpectedBlockNotFound (qc_BlockHash j))
  | inr _ => acceptProposal ent prop block
  end.

End core.

(** ** Construction *)

Definition genesis : Block QCRef := MkBlock [] [] 0 0 0 None None.

Section new.
Context {DB : Type} `{Database DB string (Block QCRef)}.

(** [NewHotStuffCore] over an empty store [d]. *)
Definition NewHotStuffCore (d : DB) : HotStuffCore DB :=
  let hash := GetBlockHash genesis in
  let g := set_SelfQc (Q:=QCRef) (Some 0%nat) genesis in
  MkCore g (Some 0%nat) (Some 0%nat) (Some 0%nat) 0
    (db_put (EncodeToString hash) g d).2 ∅ [] 0 [MkQuorumCert (-1) hash (Some ∅)].

End new.

(** The store [NewHotStuffCore] creates. *)
Definition CoreDB : Type := LRUCache string (Block QCRef).
Definition initCore : HotStuffCore CoreDB := NewHotStuffCore (NewLRUCache 30 : CoreDB).
