(* ===== verification/CoreLemmas.v ===== *)
(** * Reasoning about the consensus core

    What the block store contains ([stored]), states up to cache recency
    ([core_eqv], with the [Proper] instances that let theorems ignore it), the
    preorder [core_le] along which every method moves the state, and one lemma
    per method for its effect. *)

From stdpp Require Import base numbers fin_maps gmap sets strings list.
From S2P Require Import Prelude GoMonad Encoding Types Database LRUCache Entity Core.

(** ** The store seen through its interface *)

Section eqv.
Context {DB : Type} `{DatabaseLaws DB string (Block QCRef)}.
Implicit Types (s : HotStuffCore DB).

(** The block [LoadBlock] finds under a hash. *)
Definition stored s (h : bytes) : option (Block QCRef) :=
  db_view (blockCache s) (EncodeToString h).

Definition store_ok s : Prop := db_inv (blockCache s).

(** Two states that differ only in the recency order of the block cache. *)
Record core_eqv s s' : Prop := {
  eqv_genesis : genesisBlock s = genesisBlock s';
  eqv_generic : genericQC s = genericQC s';
  eqv_locked : lockedQC s = lockedQC s';
  eqv_exec : execQC s = execQC s';
  eqv_height : voteHeight s = voteHeight s';
  eqv_voteSet : voteSet s = voteSet s';
  eqv_notify : notifyChan s = notifyChan s';
  eqv_cond : condGen s = condGen s';
  eqv_heap : qcHeap s = qcHeap s';
  eqv_ok : store_ok s ↔ store_ok s';
  eqv_stored h : stored s h = stored s' h }.

#[global] Instance core_equiv : Equiv (HotStuffCore DB) := core_eqv.

#[global] Instance core_equivalence : Equivalence (≡@{HotStuffCore DB}).
Proof.
  split.
  - intros s. by constructor.
  - intros s s' []. constructor; intros; by symmetry.
  - intros s1 s2 s3 [] []. constructor; intros; etrans; eauto.
Qed.

#[global] Instance genericQC_proper : Proper ((≡) ==> (=)) (genericQC (DB:=DB)).
Proof. by intros s s' []. Qed.
#[global] Instance lockedQC_proper : Proper ((≡) ==> (=)) (lockedQC (DB:=DB)).
Proof. by intros s s' []. Qed.
#[global] Instance execQC_proper : Proper ((≡) ==> (=)) (execQC (DB:=DB)).
Proof. by intros s s' []. Qed.
#[global] Instance voteHeight_proper : Proper ((≡) ==> (=)) (voteHeight (DB:=DB)).
Proof. by intros s s' []. Qed.
#[global] Instance voteSet_proper : Proper ((≡) ==> (=)) (voteSet (DB:=DB)).
Proof. by intros s s' []. Qed.
#[global] Instance notifyChan_proper : Proper ((≡) ==> (=)) (notifyChan (DB:=DB)).
Proof. by intros s s' []. Qed.
#[global] Instance qcHeap_proper : Proper ((≡) ==> (=)) (qcHeap (DB:=DB)).
Proof. by intros s s' []. Qed.
#[global] Instance store_ok_proper : Proper ((≡) ==> iff) store_ok.
Proof. by intros s s' []. Qed.
#[global] Instance stored_proper : Proper ((≡) ==> (=) ==> (=)) stored.
Proof. by intros s s' [] h ? <-. Qed.

Ltac solve_set_proper :=
  intros ? ? -> s s' Hs; destruct Hs; constructor; done.

#[global] Instance set_genericQC_proper : Proper ((=) ==> (≡) ==> (≡)) (set_genericQC (DB:=DB)).
Proof. solve_set_proper. Qed.
#[global] Instance set_lockedQC_proper : Proper ((=) ==> (≡) ==> (≡)) (set_lockedQC (DB:=DB)).
Proof. solve_set_proper. Qed.
#[global] Instance set_execQC_proper : Proper ((=) ==> (≡) ==> (≡)) (set_execQC (DB:=DB)).
Proof. solve_set_proper. Qed.
#[global] Instance set_voteHeight_proper : Proper ((=) ==> (≡) ==> (≡)) (set_voteHeight (DB:=DB)).
Proof. solve_set_proper. Qed.
#[global] Instance set_voteSet_proper : Proper ((=) ==> (≡) ==> (≡)) (set_voteSet (DB:=DB)).
Proof. solve_set_proper. Qed.
#[global] Instance set_notifyChan_proper : Proper ((=) ==> (≡) ==> (≡)) (set_notifyChan (DB:=DB)).
Proof. solve_set_proper. Qed.
#[global] Instance set_qcHeap_proper : Proper ((=) ==> (≡) ==> (≡)) (set_qcHeap (DB:=DB)).
Proof. solve_set_proper. Qed.

(** [LoadBlock] reports what is stored and only touches recency. *)
Lemma LoadBlock_run h s :
  store_ok s →
  ∃ r s', LoadBlock h s = (Ok r, s') ∧ s' ≡ s ∧ store_ok s'
          ∧ stored s h = match r with inr b => Some b | inl _ => None end.
Proof.
  intros Hs. unfold LoadBlock, stored, db_view.
  destruct (db_get (EncodeToString h) (blockCache s)) as [r d] eqn:E.
  exists r, (set_blockCache d s).
  assert (Hd : d = (db_get (EncodeToString h) (blockCache s)).2) by (by rewrite E).
  assert (Hok : db_inv d) by (subst; by apply db_get_inv).
  split; [done|]. split; [|split; [done|done]].
  constructor; try done. intros h'. unfold stored. simpl. subst. by apply db_view_get.
Qed.

Lemma LoadBlock_found h s b :
  store_ok s → stored s h = Some b →
  ∃ s', LoadBlock h s = (Ok (inr b), s') ∧ s' ≡ s ∧ store_ok s'.
Proof.
  intros Hs Hb. destruct (LoadBlock_run h s Hs) as (r & s' & Hr & He & Hs' & Hst).
  rewrite Hb in Hst. destruct r; simplify_eq. eauto.
Qed.

Lemma LoadBlock_missing h s :
  store_ok s → stored s h = None →
  ∃ e s', LoadBlock h s = (Ok (inl e), s') ∧ s' ≡ s ∧ store_ok s'.
Proof.
  intros Hs Hb. destruct (LoadBlock_run h s Hs) as (r & s' & Hr & He & Hs' & Hst).
  rewrite Hb in Hst. destruct r; simplify_eq. eauto.
Qed.

Lemma read_qc_run (r : QCRef) s qc :
  qcHeap s !! r = Some qc → read_qc r s = (Ok qc, s).
Proof. intros Hq. unfold read_qc. rewrite run_gets, Hq. done. Qed.

Lemma deref_run (r : QCRef) s qc :
  qcHeap s !! r = Some qc → deref (Some r) s = (Ok qc, s).
Proof. intros Hq. apply (read_qc_run r s qc Hq). Qed.

Lemma read_qc_inv (r : QCRef) s qc s' :
  read_qc r s = (Ok qc, s') → s' = s ∧ qcHeap s !! r = Some qc.
Proof.
  unfold read_qc. rewrite run_gets. intros [Hl ->]%orPanic_Ok_inv. done.
Qed.

Lemma deref_inv (o : option QCRef) s qc s' :
  deref o s = (Ok qc, s') → s' = s ∧ ∃ r, o = Some r ∧ qcHeap s !! r = Some qc.
Proof.
  destruct o as [r|]; [|discriminate]. intros [-> Hq]%(read_qc_inv r). eauto.
Qed.

(** Writing a block: it is found afterwards, and any other hash is found as
    before or has been evicted. *)
Lemma StoreBlock_run b s r qc :
  store_ok s → SelfQc b = Some r → qcHeap s !! r = Some qc →
  ∃ s', StoreBlock b s = (Ok tt, s')
    ∧ store_ok s' ∧ stored s' (qc_BlockHash qc) = Some b
    ∧ (∀ h, h ≠ qc_BlockHash qc → stored s' h = None ∨ stored s' h = stored s h)
    ∧ s' = set_blockCache (blockCache s') s.
Proof.
  intros Hs Hr Hq. unfold StoreBlock. rewrite Hr, (run_bind_Ok _ _ _ _ _ (deref_run r s qc Hq)).
  eexists. split; [done|]. unfold store_ok, stored. simpl. split_and!; [|..|done].
  - by apply db_put_inv.
  - by apply db_view_put_eq.
  - intros h Hne. apply db_view_put_ne; [done|]. intros Heq. apply Hne. by apply (inj _) in Heq.
Qed.

End eqv.

(** ** Evolution of the core *)

(** Certificates only gain signatures, keep what they certify, and stop
    changing once they hold a quorum [q]. *)
Definition heap_le (q : Z) (h h' : list QuorumCert) : Prop :=
  ∀ (r : nat) qc, h !! r = Some qc →
    ∃ qc', h' !! r = Some qc'
      ∧ qc_ViewNumber qc' = qc_ViewNumber qc ∧ qc_BlockHash qc' = qc_BlockHash qc
      ∧ signs qc ⊆ signs qc' ∧ ((q ≤ len_signs qc)%Z → qc' = qc).

#[global] Instance heap_le_preorder q : PreOrder (heap_le q).
Proof.
  split.
  - intros h r qc Hq. exists qc. done.
  - intros h1 h2 h3 H12 H23 r qc1 H1.
    destruct (H12 r qc1 H1) as (qc2 & H2 & Hv & Hh & Hs & Hf).
    destruct (H23 r qc2 H2) as (qc3 & H3 & Hv' & Hh' & Hs' & Hf').
    exists qc3. split_and!; [done|congruence..|by etrans|].
    intros Hq. rewrite (Hf Hq) in *. auto.
Qed.

Section evolution.
Context {DB : Type} `{DatabaseLaws DB string (Block QCRef)}.
Implicit Types (s : HotStuffCore DB).

Record core_le (q : Z) s s' : Prop := {
  le_genesis : genesisBlock s' = genesisBlock s;
  le_height : (voteHeight s ≤ voteHeight s')%Z;
  le_heap : heap_le q (qcHeap s) (qcHeap s');
  le_notify : notifyChan s `prefix_of` notifyChan s';
  le_cond : (condGen s ≤ condGen s')%nat;
  le_store : store_ok s → store_ok s' }.

#[global] Instance core_le_preorder q : PreOrder (core_le q).
Proof.
  split.
  - intros s. by constructor.
  - intros s1 s2 s3 [] []. constructor; [congruence|lia|by etrans|by etrans|lia|auto].
Qed.

(** Nothing but [setVoteHeight] changes the vote height. *)
Definition height_eq s s' : Prop := voteHeight s' = voteHeight s.

#[global] Instance height_eq_preorder : PreOrder height_eq.
Proof. split; [done|]. intros s1 s2 s3 H1 H2. unfold height_eq in *. congruence. Qed.

(** The events that carry no certificate. *)
Definition plain (e : EventNotifier) : Prop :=
  match e with HqcUpdateEvent _ | QcFinishEvent _ _ => False | _ => True end.

(** The relations that hold across every primitive change of the core other
    than those to the highest certificate, signatures and the vote height. *)
Class CoreStable (R : relation (HotStuffCore DB)) : Prop := {
  cs_preorder :: PreOrder R;
  cs_get k s : R s (set_blockCache (db_get k (blockCache s)).2 s);
  cs_locked r s : R s (set_lockedQC r s);
  cs_exec r s : R s (set_execQC r s);
  cs_notify e s : plain e → R s (set_notifyChan (notifyChan s ++ [e]) s);
  cs_cond s : R s (set_condGen (S (condGen s)) s);
  cs_alloc qc s : R s (set_qcHeap (qcHeap s ++ [qc]) s);
  cs_voteSet m s : R s (set_voteSet m s) }.

(** ... across storing a block. *)
Class CoreStore (R : relation (HotStuffCore DB)) : Prop :=
  cs_put k b s : R s (set_blockCache (db_put k b (blockCache s)).2 s).

(** ... across any change of the highest certificate and its event. *)
Class CoreSimple (R : relation (HotStuffCore DB)) : Prop := {
  cs_generic r s : R s (set_genericQC r s);
  cs_event e s : R s (set_notifyChan (notifyChan s ++ [e]) s) }.

(** ... across [UpdateHighestQC], which tests the certificate it adopts. *)
Class CoreHigh {E} (env : CoreEnv E) (R : relation (HotStuffCore DB)) : Prop :=
  cs_high b o : evolves R (UpdateHighestQC (DB:=DB) env b o).

(** ... across announcing a certificate that holds a quorum [q]. *)
Class CoreFinish (q : Z) (R : relation (HotStuffCore DB)) : Prop :=
  cs_finish p r qc s :
    qcHeap s !! r = Some qc → (q ≤ len_signs qc)%Z →
    R s (set_notifyChan (notifyChan s ++ [QcFinishEvent p (Some r)]) s).

(** ... and across writing signatures into a certificate short of [q]. *)
Class CoreWritable (q : Z) (R : relation (HotStuffCore DB)) : Prop :=
  cs_write r qc m s :
    qcHeap s !! r = Some qc → (len_signs qc < q)%Z → signs qc ⊆ m →
    R s (set_qcHeap (<[r := set_signs m qc]> (qcHeap s)) s).

Lemma heap_le_app q h qc : heap_le q h (h ++ [qc]).
Proof.
  intros r qc0 Hr. exists qc0. split_and!; try done.
  rewrite lookup_app_l by (by apply lookup_lt_Some in Hr). done.
Qed.

Lemma heap_le_write q h r qc m :
  h !! r = Some qc → (len_signs qc < q)%Z → signs qc ⊆ m →
  heap_le q h (<[r := set_signs m qc]> h).
Proof.
  intros Hr Hlt Hm r' qc' Hr'. destruct (decide (r = r')) as [<-|Hne].
  - simplify_eq. exists (set_signs m qc).
    rewrite list_lookup_insert_eq by (by apply lookup_lt_Some in Hr).
    split_and!; try done. lia.
  - exists qc'. rewrite list_lookup_insert_ne by done. done.
Qed.

#[global] Instance core_le_stable q : CoreStable (core_le q).
Proof.
  split; [apply _|..]; intros; constructor; simpl; try done.
  - unfold store_ok. simpl. apply db_get_inv.
  - by apply prefix_app_r.
  - lia.
  - apply heap_le_app.
Qed.

#[global] Instance core_le_store q : CoreStore (core_le q).
Proof. intros k b s. constructor; simpl; try done. unfold store_ok. simpl. apply db_put_inv. Qed.

#[global] Instance core_le_simple q : CoreSimple (core_le q).
Proof. split; intros; constructor; simpl; try done. by apply prefix_app_r. Qed.

#[global] Instance core_le_writable q : CoreWritable q (core_le q).
Proof. intros r qc m s Hr Hlt Hm. constructor; simpl; try done. by apply heap_le_write. Qed.

#[global] Instance height_eq_stable : CoreStable height_eq.
Proof. split; [apply _|..]; done. Qed.

#[global] Instance height_eq_store : CoreStore height_eq.
Proof. done. Qed.

#[global] Instance height_eq_simple : CoreSimple height_eq.
Proof. split; done. Qed.

(** Only votes and proposals change existing certificates. *)
Definition heap_grows s s' : Prop := qcHeap s `prefix_of` qcHeap s'.

#[global] Instance heap_grows_preorder : PreOrder heap_grows.
Proof. split; [intros s; unfold heap_grows; done|]. intros s1 s2 s3 H1 H2. unfold heap_grows in *. by etrans. Qed.

#[global] Instance heap_grows_stable : CoreStable heap_grows.
Proof. split; [apply _|..]; intros; unfold heap_grows; simpl; try done. by apply prefix_app_r. Qed.

#[global] Instance heap_grows_simple : CoreSimple heap_grows.
Proof. split; intros; unfold heap_grows; simpl; done. Qed.

#[global] Instance simple_finish q R `{!CoreSimple R} : CoreFinish q R.
Proof. intros p r qc s _ _. apply cs_event. Qed.

#[global] Instance height_eq_writable q : CoreWritable q height_eq.
Proof. done. Qed.

(** Every method built from those primitives. *)
Section stable.
Context {E : Type} (env : CoreEnv E) (R : relation (HotStuffCore DB)) `{!CoreStable R}.

Lemma notify_evolves e : plain e → evolves R (notify (DB:=DB) e).
Proof. intros He. apply evolves_modify. intros s. by apply cs_notify. Qed.

Lemma read_qc_evolves r : evolves R (read_qc (DB:=DB) r).
Proof. unfold read_qc. evolve. Qed.

Lemma deref_evolves r : evolves R (deref (DB:=DB) r).
Proof. unfold deref. evolve. Qed.

Lemma alloc_qc_evolves qc : evolves R (alloc_qc (DB:=DB) qc).
Proof. intros s. apply cs_alloc. Qed.

Lemma LoadBlock_evolves h : evolves R (LoadBlock (DB:=DB) h).
Proof.
  intros s. pose proof (cs_get (EncodeToString h) s). unfold LoadBlock.
  by destruct (db_get _ _).
Qed.

Lemma StoreBlock_evolves `{!CoreStore R} b : evolves R (StoreBlock (DB:=DB) b).
Proof.
  unfold StoreBlock. apply evolves_bind; [apply _|apply deref_evolves|].
  intros qc. apply evolves_modify. intros s. apply cs_put.
Qed.

Lemma cond_Broadcast_evolves : evolves R (cond_Broadcast (DB:=DB)).
Proof. intros s. apply cs_cond. Qed.

Lemma set_lockedQC_evolves r : evolves R (modify (set_lockedQC (DB:=DB) r)).
Proof. intros s. apply cs_locked. Qed.
Lemma set_execQC_evolves r : evolves R (modify (set_execQC (DB:=DB) r)).
Proof. intros s. apply cs_exec. Qed.

Hint Extern 1 (plain _) => exact I : evolves.
Hint Resolve notify_evolves read_qc_evolves deref_evolves alloc_qc_evolves LoadBlock_evolves
  StoreBlock_evolves cond_Broadcast_evolves set_lockedQC_evolves
  set_execQC_evolves : evolves.

Lemma getJustifyBlock_evolves b : evolves R (getJustifyBlock (DB:=DB) b).
Proof. unfold getJustifyBlock. evolve. Qed.
Hint Resolve getJustifyBlock_evolves : evolves.

Lemma simple_high : CoreSimple R → CoreHigh env R.
Proof.
  intros Hsimple b o. unfold UpdateHighestQC.
  pose proof (λ r, evolves_modify R (set_genericQC (DB:=DB) r) (cs_generic r)).
  pose proof (λ e, evolves_modify R _ (cs_event e)) as Hn. fold (notify (DB:=DB)) in Hn.
  evolve.
Qed.

Lemma UpdateHighestQC_evolves `{!CoreHigh env R} b qc :
  evolves R (UpdateHighestQC (DB:=DB) env b qc).
Proof. apply cs_high. Qed.
Hint Resolve UpdateHighestQC_evolves : evolves.

Lemma updateLockedQC_evolves b qc : evolves R (updateLockedQC (DB:=DB) b qc).
Proof. unfold updateLockedQC. evolve. Qed.
Hint Resolve updateLockedQC_evolves : evolves.

Lemma decide_loop_evolves i : ∀ h, evolves R (decide_loop (DB:=DB) i h).
Proof. induction i as [|i IH]; intros h; simpl; evolve. Qed.
Hint Resolve decide_loop_evolves : evolves.

Lemma decide_phase_evolves b0 b1 : evolves R (decide_phase (DB:=DB) b0 b1).
Proof. unfold decide_phase. evolve. Qed.
Hint Resolve decide_phase_evolves : evolves.

Lemma update_evolves `{!CoreHigh env R} b : evolves R (update (DB:=DB) env b).
Proof. unfold update. evolve. Qed.
Hint Resolve update_evolves : evolves.

Lemma walk_parents_evolves i : ∀ b, evolves R (walk_parents (DB:=DB) i b).
Proof. induction i as [|i IH]; intros b; simpl; evolve. Qed.

Lemma voteProposal_evolves ent v h hash : evolves R (voteProposal (DB:=DB) env ent v h hash).
Proof. unfold voteProposal, createPartCert. evolve. Qed.

Lemma createLeaf_evolves now p c h : evolves R (createLeaf (DB:=DB) env now p c h).
Proof. unfold createLeaf. evolve. Qed.

Lemma AsyncWaitBlock_evolves h : evolves R (AsyncWaitBlock (DB:=DB) h).
Proof. unfold AsyncWaitBlock. evolve. Qed.

Lemma addVoteMsg_evolves v : evolves R (addVoteMsg (DB:=DB) v).
Proof.
  apply evolves_modify. intros s. cbv zeta. destruct (voteSet s !! _); apply cs_voteSet.
Qed.

End stable.
End evolution.

#[export] Hint Resolve notify_evolves read_qc_evolves deref_evolves alloc_qc_evolves
  LoadBlock_evolves StoreBlock_evolves cond_Broadcast_evolves
  set_lockedQC_evolves set_execQC_evolves getJustifyBlock_evolves UpdateHighestQC_evolves
  updateLockedQC_evolves decide_loop_evolves decide_phase_evolves update_evolves
  walk_parents_evolves voteProposal_evolves createLeaf_evolves AsyncWaitBlock_evolves
  addVoteMsg_evolves : evolves.
#[export] Existing Instance simple_high.
#[export] Hint Extern 1 (CoreStable _) => apply _ : evolves.
#[export] Hint Extern 1 (CoreStore _) => apply _ : evolves.
#[export] Hint Extern 1 (CoreHigh _ _) => apply _ : evolves.
#[export] Hint Extern 1 (plain _) => exact I : evolves.

(** ** Recording a vote *)

Lemma add_votes_subseteq votes : ∀ m, m ⊆ add_votes m votes.
Proof.
  induction votes as [|v votes IH]; intros m; simpl; [done|].
  destruct (m !! vote_Voter v) eqn:E; [apply IH|].
  etrans; [|apply IH]. by apply insert_subseteq.
Qed.

Section votes.
Context {DB E : Type} `{DatabaseLaws DB string (Block QCRef)} (env : CoreEnv E).
Implicit Types (s : HotStuffCore DB).

(** The state after [OnProposalVote] wrote [m] into the certificate [qc] at [r]
    and merged the votes buffered for its hash. *)
Definition record_vote (r : QCRef) (qc : QuorumCert) (m : gmap Z (option PartCert)) s
    : HotStuffCore DB :=
  let h := EncodeToString (qc_BlockHash qc) in
  set_voteSet (delete h (voteSet s))
    (set_qcHeap (<[r := set_signs (add_votes m (default [] (voteSet s !! h))) qc]> (qcHeap s)) s).

Lemma set_voteSet_id s : set_voteSet (voteSet s) s = s.
Proof. by destruct s. Qed.

Lemma record_vote_run {A} (k : unit → M (HotStuffCore DB) A) block r qc m s :
  SelfQc block = Some r → qcHeap s !! r = Some qc →
  (write_qc r (set_signs m qc) ≫= λ _, applyVotes block ≫= k) s
  = k tt (record_vote r qc m s).
Proof.
  intros Hr Hq. unfold write_qc. rewrite run_modify. unfold applyVotes.
  set (s1 := set_qcHeap _ s).
  assert (Hq1 : qcHeap s1 !! r = Some (set_signs m qc)).
  { simpl. apply list_lookup_insert_eq. by apply lookup_lt_Some in Hq. }
  rewrite bind_assoc, Hr, run_orPanic.
  rewrite bind_assoc, (run_bind_Ok _ _ _ _ _ (read_qc_run r s1 _ Hq1)).
  rewrite bind_assoc, run_gets. unfold record_vote.
  change (voteSet s1) with (voteSet s). change (qc_BlockHash (set_signs m qc)) with (qc_BlockHash qc).
  destruct (voteSet s !! EncodeToString (qc_BlockHash qc)) as [votes|] eqn:Ev; simpl.
  - unfold write_qc. rewrite bind_assoc, run_modify. f_equal. unfold s1, set_signs. simpl.
    by rewrite list_insert_insert_eq.
  - by rewrite (delete_id _ _ Ev).
Qed.

(** [OnProposalVote], branch by branch. *)
Lemma OnProposalVote_unknown vote s :
  store_ok s → stored s (vote_BlockHash vote) = None →
  ∃ s', OnProposalVote env vote s = (Ok tt, s')
    ∧ s' ≡ set_voteSet (<[EncodeToString (vote_BlockHash vote) :=
         default [] (voteSet s !! EncodeToString (vote_BlockHash vote)) ++ [vote]]> (voteSet s)) s.
Proof.
  intros Hs Hb. destruct (LoadBlock_missing _ s Hs Hb) as (e & s1 & Hl & He & Hs1).
  unfold OnProposalVote. rewrite (run_bind_Ok _ _ _ _ _ Hl). unfold addVoteMsg, modify.
  eexists. split; [done|]. cbv zeta.
  destruct (voteSet s1 !! EncodeToString (vote_BlockHash vote)) eqn:Ev;
    rewrite He in Ev; rewrite Ev; simpl; by rewrite He.
Qed.

Section known.
Context (vote : Vote) s (block : Block QCRef) (r : QCRef) (qc : QuorumCert).
Hypothesis (Hs : store_ok s) (Hb : stored s (vote_BlockHash vote) = Some block).
Hypothesis (Hr : SelfQc block = Some r) (Hq : qcHeap s !! r = Some qc).

Let q := GetQuorumSize (Metadata (replicas env)).

Lemma OnProposalVote_full :
  (q ≤ len_signs qc)%Z → ∃ s', OnProposalVote env vote s = (Ok tt, s') ∧ s' ≡ s.
Proof.
  intros Hfull. destruct (LoadBlock_found _ s block Hs Hb) as (s1 & Hl & He & Hs1).
  unfold OnProposalVote. rewrite (run_bind_Ok _ _ _ _ _ Hl), Hr, run_orPanic.
  rewrite (run_bind_Ok _ _ _ _ _ (read_qc_run r s1 qc ltac:(by rewrite He))).
  rewrite decide_True by done. eauto.
Qed.

Lemma OnProposalVote_duplicate :
  (len_signs qc < q)%Z → is_Some (signs qc !! vote_Voter vote) →
  ∃ s', OnProposalVote env vote s
        = (Fail (ErrDuplicateVote (vote_BlockHash vote) (vote_Voter vote)), s') ∧ s' ≡ s.
Proof.
  intros Hlt Hdup. destruct (LoadBlock_found _ s block Hs Hb) as (s1 & Hl & He & Hs1).
  unfold OnProposalVote. rewrite (run_bind_Ok _ _ _ _ _ Hl), Hr, run_orPanic.
  rewrite (run_bind_Ok _ _ _ _ _ (read_qc_run r s1 qc ltac:(by rewrite He))).
  rewrite decide_False by (unfold q in Hlt; lia). rewrite decide_True by done. eauto.
Qed.

(** The signatures after this vote. *)
Definition new_signs : gmap Z (option PartCert) :=
  add_votes (<[vote_Voter vote := vote_Cert vote]> (signs qc))
    (default [] (voteSet s !! EncodeToString (qc_BlockHash qc))).

Lemma OnProposalVote_counted :
  (len_signs qc < q)%Z → signs qc !! vote_Voter vote = None →
  ∃ s1, s1 ≡ s ∧ store_ok s1 ∧
    OnProposalVote env vote s
    = (let s2 := record_vote r qc (<[vote_Voter vote := vote_Cert vote]> (signs qc)) s1 in
       if decide (Z.of_nat (size new_signs) < q)%Z then (Ok tt, s2)
       else (_ ← UpdateHighestQC env block (SelfQc block);
             notify (QcFinishEvent (Proposer block) (SelfQc block))) s2).
Proof.
  intros Hlt Hnew. destruct (LoadBlock_found _ s block Hs Hb) as (s1 & Hl & He & Hs1).
  exists s1. split; [done|]. split; [done|].
  unfold OnProposalVote. rewrite (run_bind_Ok _ _ _ _ _ Hl), Hr, run_orPanic.
  assert (Hq1 : qcHeap s1 !! r = Some qc) by (by rewrite He).
  rewrite (run_bind_Ok _ _ _ _ _ (read_qc_run r s1 qc Hq1)).
  rewrite decide_False by (unfold q in Hlt; lia).
  rewrite decide_False by (rewrite Hnew; by intros [? ?]).
  rewrite (record_vote_run _ _ _ _ _ _ Hr Hq1). cbv beta zeta.
  set (s2 := record_vote _ _ _ _).
  assert (Hq2 : qcHeap s2 !! r = Some (set_signs new_signs qc)).
  { unfold s2, record_vote, new_signs. simpl. rewrite He.
    apply list_lookup_insert_eq. by apply lookup_lt_Some in Hq. }
  rewrite (run_bind_Ok _ _ _ _ _ (read_qc_run r s2 _ Hq2)).
  unfold len_signs. change (signs (set_signs new_signs qc)) with new_signs.
  fold q. by case_decide.
Qed.

End known.
End votes.

(** ** Evolution of the handlers *)

Section handlers.
Context {DB E : Type} `{DatabaseLaws DB string (Block QCRef)} (env : CoreEnv E).
Implicit Types (s : HotStuffCore DB).

Let q := GetQuorumSize (Metadata (replicas env)).

Lemma read_qc_none {A} (k : QuorumCert → M (HotStuffCore DB) A) (r : QCRef) s :
  qcHeap s !! r = None → (read_qc r ≫= k) s = (Panic, s).
Proof. intros Hq. unfold read_qc. rewrite bind_assoc, run_gets, Hq. done. Qed.

Lemma record_vote_evolves (R : relation (HotStuffCore DB)) `{!CoreStable R, !CoreWritable q R} r qc m s :
  qcHeap s !! r = Some qc → (len_signs qc < q)%Z → signs qc ⊆ m →
  R s (record_vote r qc m s).
Proof.
  intros Hq Hlt Hm. unfold record_vote. cbv zeta. etrans; [|apply cs_voteSet].
  apply cs_write; [done..|]. etrans; [exact Hm|apply add_votes_subseteq].
Qed.

(** The end of [OnProposalVote]: announce the certificate if it is complete. *)
Lemma announce_evolves (R : relation (HotStuffCore DB))
    `{!CoreStable R, !CoreHigh env R, !CoreFinish q R} block r :
  evolves R (qc' ← read_qc (DB:=DB) r;
             if decide (len_signs qc' < q)%Z then mret tt
             else _ ← UpdateHighestQC env block (Some r);
                  notify (QcFinishEvent (Proposer block) (Some r))).
Proof.
  intros s. destruct (qcHeap s !! r) as [qc|] eqn:Hq.
  2: { rewrite read_qc_none by done. apply cs_preorder. }
  rewrite (run_bind_Ok _ _ _ _ _ (read_qc_run r s qc Hq)).
  case_decide as Hlt; [apply cs_preorder|].
  pose proof (cs_high (env:=env) (R:=R) block (Some r) s) as Hu.
  pose proof (cs_high (env:=env) (R:=heap_grows) block (Some r) s) as Hg.
  unfold mbind, M_bind. destruct (UpdateHighestQC env block (Some r) s) as [[] s1]; simpl in *; try done.
  etrans; [exact Hu|]. apply (cs_finish (q:=q) _ r qc); [|lia]. by apply (prefix_lookup_Some _ _ _ _ Hq).
Qed.

Lemma OnProposalVote_evolves (R : relation (HotStuffCore DB)) 
    `{!CoreStable R, !CoreHigh env R, !CoreWritable q R, !CoreFinish q R} vote :
  evolves R (OnProposalVote (DB:=DB) env vote).
Proof.
  unfold OnProposalVote. apply evolves_bind; [apply _|solve [eauto 4 with evolves]|].
  intros [e|block]; [solve [eauto 4 with evolves]|].
  destruct (SelfQc block) as [r|] eqn:Hr; [|intros s; apply cs_preorder].
  intros s. rewrite run_orPanic. destruct (qcHeap s !! r) as [qc|] eqn:Hq.
  2: { rewrite read_qc_none by done. apply cs_preorder. }
  rewrite (run_bind_Ok _ _ _ _ _ (read_qc_run r s qc Hq)).
  case_decide as Hfull; [apply cs_preorder|]. case_decide as Hdup; [apply cs_preorder|].
  rewrite (record_vote_run _ _ _ _ _ _ Hr Hq).
  etrans; [apply (record_vote_evolves R r qc (<[vote_Voter vote := vote_Cert vote]> (signs qc)))|].
  - done.
  - unfold q. lia.
  - apply insert_subseteq. by apply eq_None_not_Some.
  - apply (announce_evolves R block r).
Qed.

(** Raising the vote height is allowed from a state below the new height. *)
Lemma setVoteHeight_evolves_if h :
  evolves_if (core_le q) (λ s, (voteHeight s < h)%Z) (setVoteHeight (DB:=DB) h).
Proof. intros s Hlt. constructor; simpl; try done. lia. Qed.

Lemma below_kept {A} (m : M (HotStuffCore DB) A) h :
  evolves height_eq m → ∀ s, (voteHeight s < h)%Z → (voteHeight (m s).2 < h)%Z.
Proof. intros Hm s Hlt. specialize (Hm s). unfold height_eq in Hm. lia. Qed.

Ltac below := 
  repeat first
  [ apply evolves_if_bind; [apply _ | solve [evolve] | apply below_kept; solve [evolve] | intros ?]
  | match goal with
    | |- evolves_if _ _ (match ?x with _ => _ end) => destruct x
    end
  | apply setVoteHeight_evolves_if
  | apply evolves_if_of; solve [evolve] ].

Lemma vote_rule_evolves block : evolves (core_le q) (vote_rule (DB:=DB) block).
Proof.
  unfold vote_rule, GetVoteHeight. apply evolves_gets_bind. intros s.
  case_decide as Hlt; [|apply core_le_preorder].
  match goal with |- core_le q s ((?m) s).2 =>
    enough (evolves_if (core_le q) (λ s, (voteHeight s < Height block)%Z) m) as He by (by apply He)
  end. below.
Qed.

Lemma acceptProposal_evolves ent prop block :
  evolves (core_le q) (acceptProposal (DB:=DB) env ent prop block).
Proof. pose proof vote_rule_evolves. unfold acceptProposal. evolve. Qed.

Lemma OnReceiveProposal_evolves ent prop :
  evolves (core_le q) (OnReceiveProposal (DB:=DB) env ent prop).
Proof. pose proof acceptProposal_evolves. unfold OnReceiveProposal. evolve. Qed.

Lemma OnReceiveProposal_wake_evolves ent prop :
  evolves (core_le q) (OnReceiveProposal_wake (DB:=DB) env ent prop).
Proof.
  pose proof acceptProposal_evolves. unfold OnReceiveProposal_wake, AsyncWaitBlock_wake. evolve.
Qed.

Lemma OnPropose_evolves now ent v p c :
  evolves (core_le q) (OnPropose (DB:=DB) env now ent v p c).
Proof.
  pose proof (OnProposalVote_evolves (core_le q)) as Hv.
  unfold OnPropose. apply evolves_bind; [apply _|solve [eauto 4 with evolves]|].
  intros [e|block]; [evolve|]. apply evolves_bind; [apply _|solve [eauto 4 with evolves]|].
  intros nb. unfold GetVoteHeight. apply evolves_gets_bind. intros s.
  case_decide as Hle; [apply core_le_preorder|]. cbv zeta.
  match goal with |- core_le q s ((?m) s).2 =>
    enough (evolves_if (core_le q) (λ s, (voteHeight s < Height nb)%Z) m) as He
      by (apply He; lia)
  end.
  do 3 (apply evolves_if_bind;
    [apply _ | solve [evolve] | apply below_kept; solve [evolve] | intros ?]).
  intros s1 Hlt. unfold setVoteHeight. rewrite run_modify.
  etrans; [apply (setVoteHeight_evolves_if (Height nb) s1 Hlt)|].
  match goal with |- core_le q _ ((?m) ?s2).2 => enough (evolves (core_le q) m) as He by apply He end.
  evolve.
Qed.

End handlers.
