(* ===== verification/CoreSafety.v ===== *)
(** * The core never dereferences nil

    The type invariant of [HotStuffCore] ([core_wf]): certificate pointers
    point into the heap, stored blocks have the pointers the code reads, and no
    certificate pointer inside a signature map is nil.  Every handler preserves
    it and never panics on a message with the fields the code dereferences. *)

From stdpp Require Import base numbers fin_maps gmap sets strings list.
From S2P Require Import Prelude GoMonad Encoding Types Database LRUCache Entity Core CoreLemmas.

Section wf.
Context {DB E : Type} `{DatabaseLaws DB string (Block QCRef)} (env : CoreEnv E).
Implicit Types (s : HotStuffCore DB).

Definition ref_ok (n : nat) (r : option QCRef) : Prop := ∃ i, r = Some i ∧ (i < n)%nat.

(** The pointers [consensus.go] reads of a stored block: [SelfQc] always,
    [Justify] unless it is nil (the genesis block). *)
Definition block_ok (n : nat) (b : Block QCRef) : Prop :=
  ref_ok n (SelfQc b) ∧ (Justify b = None ∨ ref_ok n (Justify b)).

Definition certs_ok (m : gmap Z (option PartCert)) : Prop := map_Forall (λ _ pc, is_Some pc) m.

(** What the handlers of an event dereference without a test. *)
Definition event_ok (n : nat) (e : EventNotifier) : Prop :=
  match e with
  | ReceiveProposalEvent _ vote => is_Some (vote_Cert vote)
  | ReceiveNewViewEvent _ view => ref_ok n (nv_GenericQc view)
  | QcFinishEvent _ qc | HqcUpdateEvent qc => ref_ok n qc
  | ProposeEvent _ | DecideEvent _ => True
  end.

Record core_wf s : Prop := {
  wf_store : store_ok s;
  wf_generic : ref_ok (length (qcHeap s)) (genericQC s);
  wf_locked : ref_ok (length (qcHeap s)) (lockedQC s);
  wf_exec : ref_ok (length (qcHeap s)) (execQC s);
  wf_blocks h b : stored s h = Some b → block_ok (length (qcHeap s)) b;
  wf_certs r qc : qcHeap s !! r = Some qc → certs_ok (signs qc);
  wf_votes h vs v : voteSet s !! h = Some vs → v ∈ vs → is_Some (vote_Cert v);
  wf_events e : e ∈ notifyChan s → event_ok (length (qcHeap s)) e }.

(** A run that ends without a panic, in a well-formed state, with at least the
    certificates it started with. *)
Definition safe {A} (m : M (HotStuffCore DB) A) s (Q : A → HotStuffCore DB → Prop) : Prop :=
  match m s with
  | (Ok a, s') => core_wf s' ∧ (length (qcHeap s) ≤ length (qcHeap s'))%nat ∧ Q a s'
  | (Panic, _) => False
  | (_, s') => core_wf s' ∧ (length (qcHeap s) ≤ length (qcHeap s'))%nat
  end.

Lemma safe_bind {A B} (m : M (HotStuffCore DB) A) (f : A → M (HotStuffCore DB) B) s Q Q' :
  safe m s Q →
  (∀ a s', core_wf s' → (length (qcHeap s) ≤ length (qcHeap s'))%nat → Q a s' → safe (f a) s' Q') →
  safe (m ≫= f) s Q'.
Proof.
  unfold safe. unfold mbind, M_bind. destruct (m s) as [[a|e| |h] s1]; try done.
  intros (Hwf & Hle & HQ) Hf. specialize (Hf a s1 Hwf Hle HQ).
  destruct (f a s1) as [[b|e| |h] s2]; try done; intuition lia.
Qed.

Lemma safe_ret {A} (a : A) s (Q : A → HotStuffCore DB → Prop) : core_wf s → Q a s → safe (mret a) s Q.
Proof. intros. unfold safe. simpl. auto. Qed.

Lemma safe_fail {A} e s (Q : A → HotStuffCore DB → Prop) : core_wf s → safe (fail e) s Q.
Proof. intros. unfold safe. simpl. auto. Qed.

Lemma safe_gets {A} (g : HotStuffCore DB → A) s (Q : A → HotStuffCore DB → Prop) :
  core_wf s → Q (g s) s → safe (gets g) s Q.
Proof. intros. unfold safe. simpl. auto. Qed.

Lemma safe_orFail {A} (x : go_error + A) s (Q : A → HotStuffCore DB → Prop) :
  core_wf s → (∀ a, x = inr a → Q a s) → safe (orFail x) s Q.
Proof. intros Hwf HQ. destruct x; unfold safe; simpl; auto. Qed.

Lemma safe_modify (f : HotStuffCore DB → HotStuffCore DB) s (Q : unit → HotStuffCore DB → Prop) :
  core_wf (f s) → (length (qcHeap s) ≤ length (qcHeap (f s)))%nat → Q tt (f s) → safe (modify f) s Q.
Proof. intros. unfold safe. simpl. auto. Qed.

Lemma safe_mono {A} (m : M (HotStuffCore DB) A) s (Q Q' : A → HotStuffCore DB → Prop) :
  safe m s Q → (∀ a s', Q a s' → Q' a s') → safe m s Q'.
Proof. unfold safe. intros Hm HQ. destruct (m s) as [[] ?]; naive_solver. Qed.

(** Well-formedness under the core's primitive updates. *)
Lemma ref_ok_mono n n' r : (n ≤ n')%nat → ref_ok n r → ref_ok n' r.
Proof. intros Hle (i & -> & Hi). exists i. split; [done|lia]. Qed.

Lemma block_ok_mono n n' b : (n ≤ n')%nat → block_ok n b → block_ok n' b.
Proof.
  intros Hle [Hs [Hj|Hj]]; (split; [by eapply ref_ok_mono|]); [by left|right].
  by eapply ref_ok_mono.
Qed.

Lemma event_ok_mono n n' e : (n ≤ n')%nat → event_ok n e → event_ok n' e.
Proof. intros Hle. destruct e; simpl; eauto using ref_ok_mono. Qed.

Lemma core_wf_eqv s s' : s ≡ s' → core_wf s → core_wf s'.
Proof.
  intros He Hwf. constructor.
  - rewrite <-He. apply Hwf.
  - rewrite <-He. apply Hwf.
  - rewrite <-He. apply Hwf.
  - rewrite <-He. apply Hwf.
  - intros h b. rewrite <-He. by apply wf_blocks.
  - intros r qc. rewrite <-He. by apply wf_certs.
  - intros h vs v. rewrite <-He. by apply wf_votes.
  - intros e. rewrite <-He. by apply wf_events.
Qed.

Lemma wf_notify e s :
  core_wf s → event_ok (length (qcHeap s)) e → core_wf (set_notifyChan (notifyChan s ++ [e]) s).
Proof.
  intros [] He. constructor; simpl; try done.
  intros e' [Hin | ->%list_elem_of_singleton]%elem_of_app; auto.
Qed.
Lemma wf_set_height h s : core_wf s → core_wf (set_voteHeight h s).
Proof. intros []. by constructor. Qed.
Lemma wf_set_cond n s : core_wf s → core_wf (set_condGen n s).
Proof. intros []. by constructor. Qed.
Lemma wf_set_generic r s : core_wf s → ref_ok (length (qcHeap s)) r → core_wf (set_genericQC r s).
Proof. intros []. by constructor. Qed.
Lemma wf_set_locked r s : core_wf s → ref_ok (length (qcHeap s)) r → core_wf (set_lockedQC r s).
Proof. intros []. by constructor. Qed.
Lemma wf_set_exec r s : core_wf s → ref_ok (length (qcHeap s)) r → core_wf (set_execQC r s).
Proof. intros []. by constructor. Qed.

Lemma wf_alloc qc s : core_wf s → certs_ok (signs qc) → core_wf (set_qcHeap (qcHeap s ++ [qc]) s).
Proof.
  intros [] Hqc.
  assert (Hle : (length (qcHeap s) ≤ length (qcHeap s ++ [qc]))%nat) by (rewrite length_app; lia).
  constructor; simpl; try done; try by eapply ref_ok_mono.
  - intros h b Hb. eapply block_ok_mono; [exact Hle|]. by eapply wf_blocks0.
  - intros r qc' [Hr|[_ Hr]]%lookup_app_Some; [by eapply wf_certs0|].
    apply list_lookup_singleton_Some in Hr as [_ <-]. done.
  - intros e He. eapply event_ok_mono; [exact Hle|auto].
Qed.

Lemma add_votes_certs_ok votes : ∀ m,
  certs_ok m → (∀ v, v ∈ votes → is_Some (vote_Cert v)) → certs_ok (add_votes m votes).
Proof.
  induction votes as [|v votes IH]; intros m Hm Hv; simpl; [done|].
  destruct (m !! vote_Voter v) eqn:Em; apply IH; try done; [intros; apply Hv; by right| |].
  - apply map_Forall_insert_2; [|done]. apply Hv. left.
  - intros; apply Hv; by right.
Qed.

Lemma wf_record_vote r qc m s :
  core_wf s → qcHeap s !! r = Some qc → certs_ok m → core_wf (record_vote r qc m s).
Proof.
  intros Hwf Hq Hm. pose proof (wf_votes s Hwf) as Hvs. destruct Hwf.
  unfold record_vote. cbv zeta. constructor; simpl; rewrite ?length_insert; try done.
  - intros r' qc' Hr'. destruct (decide (r = r')) as [<-|Hne].
    + rewrite list_lookup_insert_eq in Hr' by (by apply lookup_lt_Some in Hq).
      injection Hr' as <-. apply add_votes_certs_ok; [done|]. intros v Hv.
      destruct (voteSet s !! _) as [vs|] eqn:Ev; simpl in Hv; [by eapply Hvs|].
      by apply not_elem_of_nil in Hv.
    + rewrite list_lookup_insert_ne in Hr' by done. by eapply wf_certs0.
  - intros h vs v. rewrite lookup_delete_Some. intros [_ Hl]. by eapply Hvs.
Qed.

(** ** The primitives are safe *)

Lemma safe_read_qc r s (Q : QuorumCert → HotStuffCore DB → Prop) :
  core_wf s → (r < length (qcHeap s))%nat →
  (∀ qc, qcHeap s !! r = Some qc → Q qc s) → safe (read_qc r) s Q.
Proof.
  intros Hwf Hr HQ. apply lookup_lt_is_Some in Hr as [qc Hq].
  unfold safe. rewrite (read_qc_run r s qc Hq). auto.
Qed.

Lemma safe_deref o s (Q : QuorumCert → HotStuffCore DB → Prop) :
  core_wf s → ref_ok (length (qcHeap s)) o →
  (∀ r qc, o = Some r → qcHeap s !! r = Some qc → Q qc s) → safe (deref o) s Q.
Proof.
  intros Hwf (r & -> & Hr) HQ. apply (safe_read_qc r); [done..|]. intros qc Hq. by eapply HQ.
Qed.

Lemma safe_LoadBlock h s (Q : go_error + Block QCRef → HotStuffCore DB → Prop) :
  core_wf s →
  (∀ r s', s' ≡ s → core_wf s' → stored s h = match r with inr b => Some b | inl _ => None end →
           (∀ b, r = inr b → block_ok (length (qcHeap s')) b) → Q r s') →
  safe (LoadBlock h) s Q.
Proof.
  intros Hwf HQ. destruct (LoadBlock_run h s (wf_store s Hwf)) as (r & s' & Hr & He & Hok & Hst).
  assert (Hwf' : core_wf s') by (by apply (core_wf_eqv s)).
  assert (Hh : qcHeap s' = qcHeap s) by (by rewrite He).
  unfold safe. rewrite Hr, Hh. split; [done|]. split; [done|]. apply HQ; [done..|].
  intros b ->. rewrite Hh. by eapply (wf_blocks s Hwf).
Qed.

Lemma safe_notify e s (Q : unit → HotStuffCore DB → Prop) :
  core_wf s → event_ok (length (qcHeap s)) e → (∀ s', Q tt s') → safe (notify e) s Q.
Proof. intros Hwf He HQ. apply safe_modify; [by apply wf_notify|done|apply HQ]. Qed.

(** ** The methods are safe *)

Lemma safe_getJustifyBlock b s (Q : go_error + Block QCRef → HotStuffCore DB → Prop) :
  core_wf s → block_ok (length (qcHeap s)) b →
  (∀ r s', s' ≡ s → core_wf s' →
     (∀ b', r = inr b' → block_ok (length (qcHeap s')) b' ∧ ref_ok (length (qcHeap s')) (Justify b)) →
     Q r s') →
  safe (getJustifyBlock (Some b)) s Q.
Proof.
  intros Hwf [_ Hj] HQ. unfold getJustifyBlock.
  destruct (Justify b) as [j|] eqn:Ej.
  - destruct Hj as [|(j' & Hj' & Hlt)]; [done|]. injection Hj' as <-.
    eapply safe_bind; [by apply (safe_read_qc j s (λ _ s', s' = s))|].
    intros qc s' Hwf' _ ->. apply safe_LoadBlock; [done|].
    intros r s1 He Hwf1 _ Hb. apply HQ; [done..|]. intros b' ->. split; [by apply Hb|].
    exists j. split; [done|]. by rewrite He.
  - apply safe_ret; [done|]. by apply HQ.
Qed.

Lemma certs_ok_present rc qc : certs_ok (signs qc) → certs_present rc qc.
Proof. intros Hc i pc Hi _. by apply (Hc i). Qed.

Lemma Verify_some rc qc : certs_ok (signs qc) → is_Some (VerifyQuorumCert rc (Some qc)).
Proof.
  intros Hc%(certs_ok_present rc)%mapM_certs. unfold VerifyQuorumCert.
  case_decide; [eauto|]. destruct Hc as [bs ->]. eauto.
Qed.

Lemma safe_UpdateHighestQC b r s :
  core_wf s → ref_ok (length (qcHeap s)) r → safe (UpdateHighestQC env b r) s (λ _ _, True).
Proof.
  intros Hwf Hr. unfold UpdateHighestQC.
  eapply safe_bind; [apply (safe_deref r s (λ qc s', s' = s ∧ certs_ok (signs qc)))|].
  { done. } { done. } { intros i qc _ Hq. split; [done|]. by eapply wf_certs. }
  intros qc s' _ _ [-> Hc]. destruct (Verify_some (replicas env) qc Hc) as [[] ->].
  2: by apply safe_ret.
  eapply safe_bind; [by apply (safe_ret true s (λ a s', a = true ∧ s' = s))|].
  intros a s' _ _ [-> ->].
  eapply safe_bind; [by apply (safe_gets genericQC s (λ g s', g = genericQC s ∧ s' = s))|].
  intros g s' _ _ [-> ->]. destruct (genericQC s) as [g|] eqn:Eg.
  2: { apply safe_modify; [by apply wf_set_generic|done|done]. }
  eapply safe_bind; [apply (safe_deref (Some g) s (λ _ s', s' = s)); [done| |done]|].
  { rewrite <-Eg. apply Hwf. }
  intros high s' _ _ ->. eapply safe_bind.
  { apply (safe_LoadBlock _ s (λ _ s', qcHeap s' = qcHeap s)); [done|].
    intros hb s' He _ _ _. by rewrite He. }
  intros hb s' Hwf' _ Hh. destruct hb as [e|hb]; [by apply safe_ret|].
  case_decide; [|by apply safe_ret].
  eapply safe_bind.
  { apply (safe_modify _ _ (λ _ _, True)); [|done|done]. apply wf_set_generic; [done|]. by rewrite Hh. }
  intros _ s2 Hwf2 Hle2 _. apply safe_notify; [done| |done]. simpl in *. rewrite Hh in Hle2.
  by eapply ref_ok_mono.
Qed.

Lemma safe_updateLockedQC b r s :
  core_wf s → ref_ok (length (qcHeap s)) r → safe (updateLockedQC b r) s (λ _ _, True).
Proof.
  intros Hwf Hr. unfold updateLockedQC.
  eapply safe_bind; [by apply (safe_gets lockedQC s (λ g s', g = lockedQC s ∧ s' = s))|].
  intros l s' _ _ [-> ->]. destruct (wf_locked s Hwf) as (l & Hl & Hlt). rewrite Hl.
  eapply safe_bind; [by apply (safe_ret tt s (λ _ s', s' = s))|]. intros _ s' _ _ ->.
  eapply safe_bind; [by apply (safe_gets lockedQC s (λ g s', g = lockedQC s ∧ s' = s))|].
  intros l' s' _ _ [-> ->].
  eapply safe_bind; [apply (safe_deref (lockedQC s) s (λ _ s', s' = s)); [done|apply Hwf|done]|].
  intros locked s' _ _ ->. eapply safe_bind.
  { apply (safe_LoadBlock _ s (λ _ s', qcHeap s' = qcHeap s)); [done|].
    intros hb s' He _ _ _. by rewrite He. }
  intros lb s' Hwf' _ Hh. destruct lb as [e|lb]; [by apply safe_ret|].
  case_decide; [|by apply safe_ret].
  eapply safe_bind; [apply (safe_deref r s' (λ _ s2, s2 = s')); [done|by rewrite Hh|done]|].
  intros _ s2 _ _ ->. apply safe_modify; [apply wf_set_locked; [done|by rewrite Hh]|done|done].
Qed.

Lemma safe_decide_loop i : ∀ h s, core_wf s → safe (decide_loop i h) s (λ _ _, True).
Proof.
  induction i as [|i IH]; intros h s Hwf; simpl; [by apply safe_ret|].
  eapply safe_bind; [by apply (safe_LoadBlock _ s (λ _ _, True))|]. intros r s1 Hwf1 _ _.
  eapply safe_bind; [by apply (safe_orFail _ s1 (λ _ _, True))|]. intros b s2 Hwf2 _ _.
  eapply safe_bind; [by apply (safe_notify _ s2 (λ _ _, True))|]. intros _ s3 Hwf3 _ _.
  by apply IH.
Qed.

Lemma safe_decide_phase b0 b1 s :
  core_wf s → ref_ok (length (qcHeap s)) (Justify b1) → safe (decide_phase b0 b1) s (λ _ _, True).
Proof.
  intros Hwf Hj. unfold decide_phase.
  eapply safe_bind; [by apply (safe_gets execQC s (λ g s', g = execQC s ∧ s' = s))|].
  intros e s' _ _ [-> ->]. destruct (wf_exec s Hwf) as (x & Hx & Hlt).
  eapply (safe_bind _ _ _ (λ _ s', qcHeap s' = qcHeap s)).
  { rewrite Hx.
    eapply safe_bind; [apply (safe_deref (Some x) s (λ _ s', s' = s)); [done|by exists x|done]|].
    intros qc s' _ _ ->. eapply safe_bind.
    { apply (safe_LoadBlock _ s (λ _ s', qcHeap s' = qcHeap s)); [done|].
      intros hb s' He _ _ _. by rewrite He. }
    intros r s' Hwf' _ Hh.
    eapply safe_bind; [by apply (safe_orFail r s' (λ _ s2, s2 = s'))|].
    intros b s2 _ _ ->. by apply safe_ret. }
  intros eh s' Hwf' _ Hh.
  eapply safe_bind.
  { apply (safe_modify _ _ (λ _ _, True)); [|done|done]. apply wf_set_exec; [done|]. by rewrite Hh. }
  intros _ s2 Hwf2 _ _. by apply safe_decide_loop.
Qed.

Lemma safe_update b s :
  core_wf s → block_ok (length (qcHeap s)) b → safe (update env b) s (λ _ _, True).
Proof.
  intros Hwf Hb. unfold update.
  eapply safe_bind.
  { apply (safe_getJustifyBlock b s (λ r s', qcHeap s' = qcHeap s ∧ ∀ b', r = inr b' →
      block_ok (length (qcHeap s')) b' ∧ ref_ok (length (qcHeap s')) (Justify b))); [done..|].
    intros r s' He _ Hr. split; [by rewrite He|done]. }
  intros r2 s1 Hwf1 _ [Hh1 Hr2].
  eapply safe_bind; [by apply (safe_orFail r2 s1 (λ a s', s' = s1 ∧ r2 = inr a))|].
  intros b2 s' _ _ [-> Hb2]. destruct (Hr2 b2 Hb2) as [Hb2ok Hj].
  eapply safe_bind; [by apply safe_UpdateHighestQC|]. intros _ s2 Hwf2 Hle2 _.
  eapply safe_bind.
  { apply (safe_getJustifyBlock b2 s2 (λ r s', qcHeap s' = qcHeap s2 ∧ ∀ b', r = inr b' →
      block_ok (length (qcHeap s')) b' ∧ ref_ok (length (qcHeap s')) (Justify b2)));
      [done|by eapply block_ok_mono|].
    intros r s' He _ Hr. split; [by rewrite He|done]. }
  intros r1 s3 Hwf3 _ [Hh3 Hr1]. destruct r1 as [e|b1]; [by apply safe_ret|].
  destruct (Hr1 b1 eq_refl) as [Hb1ok Hj2].
  eapply safe_bind; [by apply safe_updateLockedQC|]. intros _ s4 Hwf4 Hle4 _.
  eapply safe_bind.
  { apply (safe_getJustifyBlock b1 s4 (λ r s', qcHeap s' = qcHeap s4 ∧ ∀ b', r = inr b' →
      block_ok (length (qcHeap s')) b' ∧ ref_ok (length (qcHeap s')) (Justify b1)));
      [done|by eapply block_ok_mono|].
    intros r s' He _ Hr. split; [by rewrite He|done]. }
  intros r0 s5 Hwf5 _ [Hh5 Hr0]. destruct r0 as [e|b0]; [by apply safe_ret|].
  destruct (Hr0 b0 eq_refl) as [Hb0ok Hj1].
  eapply safe_bind.
  { apply (safe_deref (Justify b2) s5 (λ _ s', s' = s5)); [done| |done].
    rewrite Hh5. by eapply ref_ok_mono. }
  intros j2 s' _ _ ->.
  eapply safe_bind; [by apply (safe_deref (Justify b1) s5 (λ _ s', s' = s5))|].
  intros j1 s' _ _ ->. case_decide; [by apply safe_ret|]. by apply safe_decide_phase.
Qed.

Lemma safe_OnProposalVote vote s :
  core_wf s → is_Some (vote_Cert vote) → safe (OnProposalVote env vote) s (λ _ _, True).
Proof.
  intros Hwf Hv. unfold OnProposalVote.
  eapply safe_bind.
  { apply (safe_LoadBlock _ s (λ r s', ∀ b, r = inr b → block_ok (length (qcHeap s')) b)); [done|].
    intros r s' He Hwf' _ Hb. apply Hb. }
  intros r s1 Hwf1 _ Hb. destruct r as [e|block].
  - apply safe_modify; [|cbv zeta; by destruct (voteSet s1 !! _)|done].
    cbv zeta. destruct Hwf1. set (key := EncodeToString _).
    destruct (voteSet s1 !! key) as [vs|] eqn:Ev; (constructor; simpl; try done);
      intros h vs' v'; rewrite lookup_insert_Some; intros [[_ <-]|[_ Hl]] Hin; try by eapply wf_votes0.
    + apply elem_of_app in Hin as [Hin|Hin]; [by eapply wf_votes0|].
      apply list_elem_of_singleton in Hin. by subst.
    + apply list_elem_of_singleton in Hin. by subst.
  - destruct (Hb block eq_refl) as [(i & Hi & Hlt) _].
    apply lookup_lt_is_Some in Hlt as [qc Hq]. unfold safe. rewrite Hi, run_orPanic.
    rewrite (run_bind_Ok _ _ _ _ _ (read_qc_run i s1 qc Hq)).
    case_decide; [by split_and!|]. case_decide; [done|].
    rewrite (record_vote_run _ _ _ _ _ _ Hi Hq). cbv beta.
    set (s2 := record_vote _ _ _ _).
    assert (Hwf2 : core_wf s2).
    { apply wf_record_vote; [done..|]. apply map_Forall_insert_2; [done|].
      by eapply (wf_certs s1 Hwf1). }
    assert (Hl2 : length (qcHeap s2) = length (qcHeap s1)).
    { unfold s2, record_vote. simpl. apply length_insert. }
    assert (Hi2 : (i < length (qcHeap s2))%nat) by (rewrite Hl2; by apply lookup_lt_Some in Hq).
    rewrite <-Hl2.
    match goal with |- context [(?m) s2] => change (safe m s2 (λ _ _, True)) end.
    eapply safe_bind; [by apply (safe_read_qc i s2 (λ _ s', s' = s2))|]. intros qc' s' _ _ ->.
    case_decide; [by apply safe_ret|].
    eapply safe_bind; [apply safe_UpdateHighestQC; [done|by exists i]|].
    intros _ s3 Hwf3 Hle3 _. apply safe_notify; [done| |done]. exists i. split; [done|lia].
Qed.

Lemma safe_walk_parents i : ∀ b s,
  core_wf s → block_ok (length (qcHeap s)) b →
  safe (walk_parents i b) s (λ b' s', block_ok (length (qcHeap s')) b').
Proof.
  induction i as [|i IH]; intros b s Hwf Hb; simpl; [by apply safe_ret|].
  eapply safe_bind.
  { apply (safe_LoadBlock _ s (λ r s', ∀ b, r = inr b → block_ok (length (qcHeap s')) b)); [done|].
    intros r s' He Hwf' _ Hb'. apply Hb'. }
  intros r s1 Hwf1 _ Hr.
  eapply safe_bind; [by apply (safe_orFail r s1 (λ a s', s' = s1 ∧ r = inr a))|].
  intros b' s' _ _ [-> Hb']. apply IH; [done|]. by apply Hr.
Qed.

Lemma safe_vote_rule b s :
  core_wf s → block_ok (length (qcHeap s)) b → safe (vote_rule b) s (λ _ _, True).
Proof.
  intros Hwf Hb. unfold vote_rule.
  eapply safe_bind; [by apply (safe_gets voteHeight s (λ _ s', s' = s))|]. intros vh s' _ _ ->.
  case_decide; [|by apply safe_ret].
  eapply safe_bind.
  { apply (safe_getJustifyBlock b s (λ r s', qcHeap s' = qcHeap s)); [done..|].
    intros r s' He _ Hr. by rewrite He. }
  intros rj s1 Hwf1 _ Hh1.
  eapply safe_bind; [by apply (safe_orFail rj s1 (λ a s', s' = s1))|]. intros jb s' _ _ ->.
  eapply safe_bind; [by apply (safe_gets lockedQC s1 (λ g s', g = lockedQC s1 ∧ s' = s1))|].
  intros l s' _ _ [-> ->].
  eapply safe_bind; [apply (safe_deref (lockedQC s1) s1 (λ _ s', s' = s1)); [done|apply Hwf1|done]|].
  intros lq s' _ _ ->.
  eapply safe_bind.
  { apply (safe_LoadBlock _ s1 (λ r s', qcHeap s' = qcHeap s1
      ∧ ∀ b, r = inr b → block_ok (length (qcHeap s')) b)); [done|].
    intros r s' He Hwf' _ Hb'. split; [by rewrite He|apply Hb']. }
  intros rl s2 Hwf2 _ [Hh2 Hl].
  eapply safe_bind; [by apply (safe_orFail rl s2 (λ a s', s' = s2 ∧ rl = inr a))|].
  intros lb s' _ _ [-> Hlb]. case_decide.
  { apply safe_modify; [by apply wf_set_height|done|done]. }
  eapply safe_bind; [apply safe_walk_parents; [done|by rewrite Hh2, Hh1]|].
  intros nb s3 Hwf3 Hle3 Hnb.
  eapply safe_bind; [apply (safe_deref (SelfQc nb) s3 (λ _ s', s' = s3)); [done|apply Hnb|done]|].
  intros nq s' _ _ ->.
  eapply safe_bind; [apply (safe_deref (SelfQc lb) s3 (λ _ s', s' = s3)); [done| |done]|].
  { eapply ref_ok_mono; [exact Hle3|]. by apply (Hl lb). }
  intros lq' s' _ _ ->. case_decide; [|by apply safe_ret].
  apply safe_modify; [by apply wf_set_height|done|done].
Qed.

Lemma safe_voteProposal ent v h hash s :
  core_wf s →
  safe (voteProposal env ent v h hash) s (λ vote s', s' = s ∧ is_Some (vote_Cert vote)).
Proof.
  intros Hwf. unfold voteProposal, createPartCert, safe. unfold mbind, M_bind.
  destruct (Sign env ent hash); simpl; [done|]. split_and!; eauto.
Qed.

Lemma safe_acceptProposal ent prop b s :
  core_wf s → block_ok (length (qcHeap s)) b → safe (acceptProposal env ent prop b) s (λ _ _, True).
Proof.
  intros Hwf Hb. unfold acceptProposal.
  eapply safe_bind; [by apply safe_update|]. intros _ s1 Hwf1 Hle1 _.
  assert (Hb1 : block_ok (length (qcHeap s1)) b) by (by eapply block_ok_mono).
  eapply safe_bind; [by apply safe_vote_rule|]. intros _ s2 Hwf2 Hle2 _.
  eapply safe_bind.
  { apply (safe_deref (SelfQc b) s2 (λ _ s', s' = s2)); [done| |done].
    eapply ref_ok_mono; [exact Hle2|apply Hb1]. }
  intros sq s' _ _ ->. eapply safe_bind; [by apply safe_voteProposal|].
  intros vote s' _ _ [-> Hv]. by apply safe_notify.
Qed.

(** A proposal with the fields the code dereferences without a test. *)
Definition prop_ok (n : nat) (prop : Proposal QCRef) : Prop :=
  ∃ b, prop_Block prop = Some b ∧ ref_ok n (SelfQc b) ∧ ref_ok n (Justify b).

Lemma wf_store_block b s r qc :
  core_wf s → block_ok (length (qcHeap s)) b → SelfQc b = Some r → qcHeap s !! r = Some qc →
  ∃ s', StoreBlock b s = (Ok tt, s') ∧ core_wf s' ∧ qcHeap s' = qcHeap s.
Proof.
  intros Hwf Hb Hr Hq.
  destruct (StoreBlock_run b s r qc (wf_store s Hwf) Hr Hq) as (s' & Hrun & Hok & Hthis & Hother & Heq).
  exists s'. split; [done|].
  assert (Hh : qcHeap s' = qcHeap s) by (by rewrite Heq). split; [|done].
  pose proof (wf_blocks s Hwf) as Hbl. destruct Hwf. constructor.
  - done.
  - by rewrite Heq.
  - by rewrite Heq.
  - by rewrite Heq.
  - intros h b'. rewrite Hh. destruct (decide (h = qc_BlockHash qc)) as [->|Hne].
    + rewrite Hthis. intros. by simplify_eq.
    + destruct (Hother h Hne) as [-> | ->]; [done|]. apply Hbl.
  - by rewrite Heq.
  - by rewrite Heq.
  - by rewrite Heq.
Qed.

Lemma safe_StoreBlock b s :
  core_wf s → block_ok (length (qcHeap s)) b →
  safe (StoreBlock b) s (λ _ s', qcHeap s' = qcHeap s).
Proof.
  intros Hwf Hb. destruct (proj1 Hb) as (r & Hr & Hlt).
  apply lookup_lt_is_Some in Hlt as [qc Hq].
  destruct (wf_store_block b s r qc Hwf Hb Hr Hq) as (s' & Hrun & Hwf' & Hh).
  unfold safe. rewrite Hrun, Hh. done.
Qed.

Lemma safe_OnReceiveProposal ent prop s :
  core_wf s → prop_ok (length (qcHeap s)) prop → safe (OnReceiveProposal env ent prop) s (λ _ _, True).
Proof.
  intros Hwf (b & Hb & Hs & Hj). unfold OnReceiveProposal, safe. rewrite Hb, run_orPanic.
  match goal with |- context [(?m) s] => change (safe m s (λ _ _, True)) end.
  assert (Hbok : block_ok (length (qcHeap s)) b) by (split; [done|by right]).
  eapply safe_bind; [by apply (safe_deref (SelfQc b) s (λ _ s', s' = s))|]. intros _ s' _ _ ->.
  eapply safe_bind; [by apply safe_StoreBlock|]. intros ? s1 Hwf1 _ Hh1.
  eapply safe_bind.
  { apply (safe_modify _ s1 (λ _ s', qcHeap s' = qcHeap s)); [by apply wf_set_cond|done..]. }
  intros ? s2 Hwf2 _ Hh2.
  eapply safe_bind; [apply (safe_deref (Justify b) s2 (λ _ s', s' = s2)); [done|by rewrite Hh2|done]|].
  intros j s' _ _ ->.
  eapply (safe_bind _ _ _ (λ _ s', qcHeap s' = qcHeap s)).
  { unfold AsyncWaitBlock. eapply safe_bind.
    { apply (safe_LoadBlock _ s2 (λ _ s', qcHeap s' = qcHeap s)); [done|].
      intros r s' He _ _ _. by rewrite He. }
    intros r s' Hwf' Hle' Hh'. destruct r; [|by apply safe_ret]. unfold safe; simpl. done. }
  intros r s3 Hwf3 _ Hh3. destruct r; [by apply safe_fail|].
  apply safe_acceptProposal; [done|]. by rewrite Hh3.
Qed.

Lemma safe_OnReceiveProposal_wake ent prop s :
  core_wf s → prop_ok (length (qcHeap s)) prop →
  safe (OnReceiveProposal_wake env ent prop) s (λ _ _, True).
Proof.
  intros Hwf (b & Hb & Hs & Hj). unfold OnReceiveProposal_wake, safe. rewrite Hb, run_orPanic.
  match goal with |- context [(?m) s] => change (safe m s (λ _ _, True)) end.
  assert (Hbok : block_ok (length (qcHeap s)) b) by (split; [done|by right]).
  eapply safe_bind; [by apply (safe_deref (Justify b) s (λ _ s', s' = s))|].
  intros j s' _ _ ->.
  eapply safe_bind.
  { apply (safe_LoadBlock _ s (λ _ s', qcHeap s' = qcHeap s)); [done|].
    intros r s' He _ _ _. by rewrite He. }
  intros r s3 Hwf3 _ Hh3. destruct r; [by apply safe_fail|].
  apply safe_acceptProposal; [done|]. by rewrite Hh3.
Qed.

(** [proto.Clone] makes an equal copy. *)
Hypothesis clone_copies : ∀ qc, clone env qc = qc.

Lemma safe_createLeaf now p c h s :
  core_wf s →
  safe (createLeaf env now p c h) s
    (λ b s', SelfQc b = None ∧ Height b = h ∧ ref_ok (length (qcHeap s')) (Justify b)).
Proof.
  intros Hwf. unfold createLeaf.
  eapply safe_bind; [by apply (safe_gets genericQC s (λ g s', g = genericQC s ∧ s' = s))|].
  intros g s' _ _ [-> ->]. destruct (wf_generic s Hwf) as (g & Hg & Hlt). rewrite Hg.
  apply lookup_lt_is_Some in Hlt as [qc Hq].
  unfold safe, alloc_qc, mbind, M_bind. rewrite (deref_run g s qc Hq). simpl.
  split; [apply wf_alloc; [done|]; rewrite clone_copies; by eapply wf_certs|].
  rewrite length_app. simpl. split; [lia|]. split_and!; [done..|].
  exists (length (qcHeap s)). split; [done|lia].
Qed.

Lemma certs_ok_empty : certs_ok ∅.
Proof. apply map_Forall_empty. Qed.

Lemma safe_OnPropose now ent v p c s :
  core_wf s → safe (OnPropose env now ent v p c) s (λ _ _, True).
Proof.
  intros Hwf. unfold OnPropose.
  eapply safe_bind; [by apply (safe_LoadBlock _ s (λ _ _, True))|]. intros lb s1 Hwf1 _ _.
  destruct lb as [e|block]; [by apply safe_fail|].
  eapply safe_bind; [by apply safe_createLeaf|]. intros nb s2 Hwf2 _ (Hsq & Hht & Hj).
  eapply safe_bind; [by apply (safe_gets voteHeight s2 (λ _ s', s' = s2))|].
  intros vh s' _ _ ->. case_decide; [by apply safe_fail|]. cbv zeta.
  eapply (safe_bind _ _ _ (λ r s', r = length (qcHeap s2)
            ∧ length (qcHeap s') = S (length (qcHeap s2)))).
  { unfold safe, alloc_qc. simpl. rewrite length_app. simpl.
    split_and!; [|lia|done|lia]. apply wf_alloc; [done|]. apply certs_ok_empty. }
  intros sq s3 Hwf3 _ [Hsq3 Hlen]. set (b := set_SelfQc (Some sq) nb).
  assert (Hb : block_ok (length (qcHeap s3)) b).
  { split; [exists sq; split; [done|lia]|]. right. eapply ref_ok_mono; [|exact Hj]. lia. }
  eapply safe_bind; [by apply safe_StoreBlock|]. intros ? s4 Hwf4 _ Hh4.
  eapply safe_bind; [apply safe_update; [done|by rewrite Hh4]|]. intros _ s5 Hwf5 _ _.
  eapply safe_bind.
  { apply (safe_modify _ s5 (λ _ _, True)); [by apply wf_set_height|done|done]. }
  intros _ s6 Hwf6 _ _.
  eapply safe_bind; [by apply safe_voteProposal|]. intros vote s' _ _ [-> Hv].
  eapply safe_bind; [by apply safe_OnProposalVote|]. intros _ s7 Hwf7 _ _.
  by apply safe_notify.
Qed.

(** ** Executions *)

(** A call of one of the core's entry points. *)
Inductive core_call :=
| CallPropose (now : Z) (ent : E) (curView : Z) (parentHash cmds : bytes)
| CallReceiveProposal (ent : E) (prop : Proposal QCRef)
| CallWakeProposal (ent : E) (prop : Proposal QCRef)
| CallVote (vote : Vote)
| CallNewView (signer : Z) (view : NewView QCRef)
| CallUpdateHighestQC (block : Block QCRef) (qc : option QCRef)
| CallLoadBlock (hash : bytes).

Definition run_call (c : core_call) : M (HotStuffCore DB) unit :=
  match c with
  | CallPropose now ent v p cmds => OnPropose env now ent v p cmds
  | CallReceiveProposal ent prop => OnReceiveProposal env ent prop
  | CallWakeProposal ent prop => OnReceiveProposal_wake env ent prop
  | CallVote vote => OnProposalVote env vote
  | CallNewView signer view => OnNewView signer view
  | CallUpdateHighestQC b qc => UpdateHighestQC env b qc
  | CallLoadBlock h => _ ← LoadBlock h; mret tt
  end.

(** The pointers an entry point, or the handler of the event it sends,
    dereferences without a test are not nil. *)
Definition call_ok (n : nat) (c : core_call) : Prop :=
  match c with
  | CallReceiveProposal _ prop | CallWakeProposal _ prop => prop_ok n prop
  | CallVote vote => is_Some (vote_Cert vote)
  | CallNewView _ view => ref_ok n (nv_GenericQc view)
  | CallUpdateHighestQC _ qc => ref_ok n qc
  | _ => True
  end.

(** One step of the core: an entry point runs, or a received message's
    certificate is unmarshalled into memory. *)
Inductive core_step : relation (HotStuffCore DB) :=
| step_call c s : call_ok (length (qcHeap s)) c → core_step s (run_call c s).2
| step_unmarshal qc s :
    certs_ok (signs qc) → core_step s (set_qcHeap (qcHeap s ++ [qc]) s).

Lemma safe_run_call c s :
  core_wf s → call_ok (length (qcHeap s)) c → safe (run_call c) s (λ _ _, True).
Proof.
  intros Hwf Hc. destruct c; simpl in *.
  - by apply safe_OnPropose.
  - by apply safe_OnReceiveProposal.
  - by apply safe_OnReceiveProposal_wake.
  - by apply safe_OnProposalVote.
  - by apply safe_notify.
  - by apply safe_UpdateHighestQC.
  - eapply safe_bind; [by apply (safe_LoadBlock _ s (λ _ _, True))|]. intros. by apply safe_ret.
Qed.

Lemma safe_no_panic {A} (m : M (HotStuffCore DB) A) s Q :
  safe m s Q → (m s).1 ≠ Panic ∧ core_wf (m s).2.
Proof. unfold safe. destruct (m s) as [[] ?]; simpl; naive_solver. Qed.

Lemma core_step_wf s s' : core_wf s → core_step s s' → core_wf s'.
Proof.
  intros Hwf Hstep. destruct Hstep as [c s Hc|qc s Hc].
  - by apply (safe_no_panic _ _ _ (safe_run_call c s Hwf Hc)).
  - by apply wf_alloc.
Qed.

Lemma core_steps_wf s s' : core_wf s → rtc core_step s s' → core_wf s'.
Proof. intros Hwf Hs. induction Hs as [|s1 s2 s3 H12 _ IH]; [done|]. by eauto using core_step_wf. Qed.

End wf.

Section monotone.
Context {DB E : Type} `{DatabaseLaws DB string (Block QCRef)} (env : CoreEnv E).

Lemma run_call_evolves c :
  evolves (core_le (GetQuorumSize (Metadata (replicas env)))) (run_call (DB:=DB) env c).
Proof.
  destruct c; simpl.
  - apply OnPropose_evolves.
  - apply OnReceiveProposal_evolves.
  - apply OnReceiveProposal_wake_evolves.
  - apply OnProposalVote_evolves; apply _.
  - unfold OnNewView. evolve.
  - evolve.
  - evolve.
Qed.

Lemma core_step_le s s' :
  core_step (DB:=DB) env s s' → core_le (GetQuorumSize (Metadata (replicas env))) s s'.
Proof.
  intros [c s0 _|qc s0 _]; [apply run_call_evolves|]. apply cs_alloc.
Qed.

Lemma core_steps_le s s' :
  rtc (core_step (DB:=DB) env) s s' → core_le (GetQuorumSize (Metadata (replicas env))) s s'.
Proof.
  intros Hs. induction Hs as [|s1 s2 s3 H12 _ IH]; [done|].
  etrans; [by apply core_step_le|done].
Qed.

End monotone.

(** A new core stores the genesis block and nothing else. *)
Lemma NewHotStuffCore_stored {DB} `{DatabaseLaws DB string (Block QCRef)} (d : DB) h b :
  db_inv d → (∀ k, db_view d k = None) →
  stored (NewHotStuffCore d) h = Some b → b = set_SelfQc (Some 0%nat) genesis.
Proof.
  intros Hd He. unfold NewHotStuffCore, stored. cbv zeta. cbn [blockCache].
  generalize (GetBlockHash genesis). intros h0.
  destruct (decide (EncodeToString h = EncodeToString h0)) as [-> | Hne].
  - rewrite db_view_put_eq by done. intros Hb. by injection Hb as <-.
  - match goal with |- db_view (db_put _ ?g _).2 _ = _ → _ =>
      destruct (db_view_put_ne (EncodeToString h0) (EncodeToString h) g d Hd Hne) as [-> | ->]
    end; [done|]. by rewrite He.
Qed.

(** The state [NewHotStuffCore] builds is well formed. *)
Lemma NewHotStuffCore_wf {DB} `{DatabaseLaws DB string (Block QCRef)} (d : DB) :
  db_inv d → (∀ k, db_view d k = None) → core_wf (NewHotStuffCore d).
Proof.
  intros Hd He. pose proof (λ h b, NewHotStuffCore_stored d h b Hd He) as Hst. revert Hst.
  unfold NewHotStuffCore. cbv zeta. generalize (GetBlockHash genesis). intros h Hst. constructor; simpl.
  - unfold store_ok. simpl. by apply db_put_inv.
  - exists 0%nat. auto.
  - exists 0%nat. auto.
  - exists 0%nat. auto.
  - intros h' b ->%Hst. split; [exists 0%nat; auto|by left].
  - intros r qc Hr. apply list_lookup_singleton_Some in Hr as [_ <-]. apply certs_ok_empty.
  - intros h' vs v. by rewrite lookup_empty.
  - intros e Hin. by apply not_elem_of_nil in Hin.
Qed.

Lemma initCore_wf : core_wf initCore.
Proof.
  apply NewHotStuffCore_wf.
  - split; [apply New_inv|done].
  - intros k. done.
Qed.

Lemma initCore_stored h b : stored initCore h = Some b → b = set_SelfQc (Some 0%nat) genesis.
Proof.
  apply NewHotStuffCore_stored.
  - split; [apply New_inv|done].
  - intros k. done.
Qed.
