(* ===== verification/CoreSpec.v ===== *)
(** * The core's specification up to cache recency

    A weakest-precondition style triple [wp] that runs a method from any state
    equivalent to a given one, and the pure functions ([adopt_high],
    [adopt_lock], [commit], [update_spec], [may_vote]) that say what the methods
    of [consensus.go] do, with the block store read as a finite map.  The
    theorems of [CoreProps] are about the methods; this file connects the two. *)

From stdpp Require Import base numbers fin_maps gmap sets strings list.
From S2P Require Import Prelude GoMonad Encoding Types Database LRUCache Entity Core.
From S2P Require Import CoreLemmas CoreSafety.

Section spec.
Context {DB E : Type} `{DatabaseLaws DB string (Block QCRef)} (env : CoreEnv E).
Implicit Types (s : HotStuffCore DB) (b : Block QCRef).

(** ** Vocabulary *)

Definition qc_hash s (o : option QCRef) : option bytes :=
  r ← o; qc ← qcHeap s !! r; Some (qc_BlockHash qc).

(** The stored block a certificate pointer names. *)
Definition qc_block s (o : option QCRef) : option (Block QCRef) :=
  h ← qc_hash s o; stored s h.

Definition verified s (o : option QCRef) : bool :=
  match o ≫= λ r, qcHeap s !! r with
  | Some qc => bool_decide (VerifyQuorumCert (replicas env) (Some qc) = Some true)
  | None => false
  end.

Definition above b (o : option (Block QCRef)) : bool :=
  match o with Some b' => bool_decide (Height b' < Height b)%Z | None => false end.

(** A block whose parent is the block its justification certifies. *)
Definition direct s b : bool := bool_decide (qc_hash s (Justify b) = Some (ParentHash b)).

(** The blocks met following [ParentHash] from hash [h], at most [n], ending at
    the first one that is not stored. *)
Fixpoint branch s (n : nat) (h : bytes) : list (Block QCRef) :=
  match n with
  | O => []
  | S n => match stored s h with
           | None => []
           | Some b => b :: branch s n (ParentHash b)
           end
  end.

Definition emit (l : list EventNotifier) s : HotStuffCore DB :=
  set_notifyChan (notifyChan s ++ l) s.

(** ** The specification *)

Definition adopt_high b (o : option QCRef) s : HotStuffCore DB :=
  if verified s o && above b (qc_block s (genericQC s))
  then emit [HqcUpdateEvent o] (set_genericQC o s) else s.

Definition adopt_lock b (o : option QCRef) s : HotStuffCore DB :=
  if above b (qc_block s (lockedQC s)) then set_lockedQC o s else s.

Definition exec_gap s (b0 eb : Block QCRef) : nat := Z.to_nat (wrap64 (Height b0 - Height eb)).

(** [true] when the method returns a nil error. *)
Definition commit (b0 b1 : Block QCRef) s : bool * HotStuffCore DB :=
  match qc_block s (execQC s) with
  | None => (false, s)
  | Some eb =>
      let n := exec_gap s b0 eb in
      let l := branch s n (GetBlockHash b0) in
      (bool_decide (length l = n), emit (DecideEvent <$> l) (set_execQC (Justify b1) s))
  end.

Definition update_spec b s : bool * HotStuffCore DB :=
  match qc_block s (Justify b) with
  | None => (false, s)
  | Some b2 =>
      let s1 := adopt_high b2 (Justify b) s in
      match qc_block s (Justify b2) with
      | None => (true, s1)
      | Some b1 =>
          let s2 := adopt_lock b1 (Justify b2) s1 in
          match qc_block s (Justify b1) with
          | None => (true, s2)
          | Some b0 => if direct s b2 && direct s b1 then commit b0 b1 s2 else (true, s2)
          end
      end
  end.

(** The block reached by following [ParentHash] [n] times. *)
Fixpoint ancestor s (n : nat) b : option (Block QCRef) :=
  match n with
  | O => Some b
  | S n => p ← stored s (ParentHash b); ancestor s n p
  end.

(** The voting rule: [None] when a block it reads is not stored, otherwise
    whether the block may be voted for. *)
Definition rule_outcome b s : option bool :=
  if decide (voteHeight s < Height b)%Z then
    jb ← qc_block s (Justify b);
    lb ← qc_block s (lockedQC s);
    if decide (Height lb < Height jb)%Z then Some true
    else
      a ← ancestor s (Z.to_nat (wrap64 (Height b - Height lb))) b;
      Some (bool_decide (qc_hash s (SelfQc a) = qc_hash s (SelfQc lb)))
  else Some false.

Definition apply_rule b s : HotStuffCore DB :=
  if decide (rule_outcome b s = Some true) then set_voteHeight (Height b) s else s.

(** The vote this replica signs for hash [h]. *)
Definition vote_for (view : Z) (h sig : bytes) : Vote :=
  MkVote view (id env) h (Some (MkPartCert (id env) sig)).

Definition accept_spec (ent : E) (prop : Proposal QCRef) b s : bool * HotStuffCore DB :=
  if (update_spec b s).1 then
    let s1 := (update_spec b s).2 in
    let s2 := apply_rule b s1 in
    match rule_outcome b s1, qc_hash s (SelfQc b) with
    | Some _, Some h =>
        match Sign env ent h with
        | inl _ => (false, s2)
        | inr sig =>
            (true, emit [ReceiveProposalEvent prop (vote_for (prop_ViewNumber prop) h sig)] s2)
        end
    | _, _ => (false, s2)
    end
  else update_spec b s.

(** ** The triple *)

Definition wp {A} (m : M (HotStuffCore DB) A) s (Φ : res A → HotStuffCore DB → Prop) : Prop :=
  ∀ s1, s1 ≡ s → ∃ s0, (m s1).2 ≡ s0 ∧ Φ (m s1).1 s0.

Lemma wp_bind {A B} (m : M (HotStuffCore DB) A) (f : A → M (HotStuffCore DB) B) s Φ :
  wp m s (λ r s0, match r with
                  | Ok a => wp (f a) s0 Φ
                  | Fail e => Φ (Fail e) s0
                  | Panic => Φ Panic s0
                  | Park h => Φ (Park h) s0
                  end) →
  wp (m ≫= f) s Φ.
Proof.
  intros Hm s1 He. destruct (Hm s1 He) as (s0 & He0 & HΦ). unfold mbind, M_bind.
  destruct (m s1) as [[a|e| |h] s1']; simpl in *; [by apply HΦ|by exists s0..].
Qed.

Lemma wp_ret {A} (a : A) s (Φ : res A → HotStuffCore DB → Prop) : Φ (Ok a) s → wp (mret a) s Φ.
Proof. intros HΦ s1 He. by exists s. Qed.

Lemma wp_fail {A} e s (Φ : res A → HotStuffCore DB → Prop) : Φ (Fail e) s → wp (fail e) s Φ.
Proof. intros HΦ s1 He. by exists s. Qed.

Lemma wp_gets {A} (g : HotStuffCore DB → A) `{!Proper ((≡) ==> (=)) g} s
    (Φ : res A → HotStuffCore DB → Prop) :
  Φ (Ok (g s)) s → wp (gets g) s Φ.
Proof. intros HΦ s1 He. exists s. split; [done|]. simpl. by rewrite He. Qed.

Lemma wp_modify (f : HotStuffCore DB → HotStuffCore DB) `{!Proper ((≡) ==> (≡)) f} s
    (Φ : res unit → HotStuffCore DB → Prop) :
  Φ (Ok tt) (f s) → wp (modify f) s Φ.
Proof. intros HΦ s1 He. exists (f s). split; [|done]. simpl. by f_equiv. Qed.

#[global] Instance emit_proper l : Proper ((≡) ==> (≡)) (emit l).
Proof. intros s s' He. unfold emit. by rewrite (notifyChan_proper _ _ He), He. Qed.

#[global] Instance qc_hash_proper : Proper ((≡) ==> (=) ==> (=)) qc_hash.
Proof. intros s s' He o ? <-. unfold qc_hash. destruct o; [|done]. simpl. by rewrite He. Qed.

#[global] Instance qc_block_proper : Proper ((≡) ==> (=) ==> (=)) qc_block.
Proof.
  intros s s' He o ? <-. unfold qc_block. rewrite He. destruct (qc_hash s' o); [|done].
  simpl. by rewrite He.
Qed.

#[global] Instance adopt_high_proper b o : Proper ((≡) ==> (≡)) (adopt_high b o).
Proof.
  intros s s' He. unfold adopt_high, verified.
  rewrite (genericQC_proper _ _ He), (qcHeap_proper _ _ He), He.
  destruct (_ && _); [|done]. by rewrite He.
Qed.

Lemma wp_notify e s (Φ : res unit → HotStuffCore DB → Prop) :
  Φ (Ok tt) (emit [e] s) → wp (notify e) s Φ.
Proof. intros HΦ. apply (wp_modify (emit [e])). done. Qed.

Lemma wp_LoadBlock h s (Φ : res (go_error + Block QCRef) → HotStuffCore DB → Prop) :
  store_ok s →
  (∀ r, stored s h = match r with inr b => Some b | inl _ => None end → Φ (Ok r) s) →
  wp (LoadBlock h) s Φ.
Proof.
  intros Hs HΦ s1 He. assert (Hs1 : store_ok s1) by (by rewrite He).
  destruct (LoadBlock_run h s1 Hs1) as (r & s' & Hr & He' & _ & Hst).
  rewrite Hr. exists s. split; [by etrans|]. apply HΦ. by rewrite <-He.
Qed.

Lemma wp_read_qc r s qc (Φ : res QuorumCert → HotStuffCore DB → Prop) :
  qcHeap s !! r = Some qc → Φ (Ok qc) s → wp (read_qc r) s Φ.
Proof.
  intros Hq HΦ s1 He. rewrite (read_qc_run r s1 qc) by (by rewrite He). by exists s.
Qed.

Lemma wp_deref r s qc (Φ : res QuorumCert → HotStuffCore DB → Prop) :
  qcHeap s !! r = Some qc → Φ (Ok qc) s → wp (deref (Some r)) s Φ.
Proof. apply wp_read_qc. Qed.

Lemma wp_orFail {A} (x : go_error + A) s (Φ : res A → HotStuffCore DB → Prop) :
  match x with inr a => Φ (Ok a) s | inl e => Φ (Fail e) s end → wp (orFail x) s Φ.
Proof. destruct x; intros HΦ s1 He; by exists s. Qed.

Lemma wp_run {A} (m : M (HotStuffCore DB) A) s Φ :
  wp m s Φ → ∃ s0, (m s).2 ≡ s0 ∧ Φ (m s).1 s0.
Proof. intros Hm. by apply Hm. Qed.

Lemma wp_mono {A} (m : M (HotStuffCore DB) A) s (Φ Ψ : res A → HotStuffCore DB → Prop) :
  wp m s Φ → (∀ r s0, Φ r s0 → Ψ r s0) → wp m s Ψ.
Proof. intros Hm HΦ s1 He. destruct (Hm s1 He) as (s0 & ? & ?). eauto. Qed.

(** A method that loads the block named by a certificate pointer. *)
Lemma wp_getJustifyBlock b s (Φ : res (go_error + Block QCRef) → HotStuffCore DB → Prop) :
  core_wf s → block_ok (length (qcHeap s)) b →
  (∀ r, qc_block s (Justify b) = match r with inr b => Some b | inl _ => None end → Φ (Ok r) s) →
  wp (getJustifyBlock (Some b)) s Φ.
Proof.
  intros Hwf [_ Hj] HΦ. unfold getJustifyBlock, qc_block, qc_hash in *.
  destruct (Justify b) as [j|]; [|by apply wp_ret, HΦ].
  destruct Hj as [|(j' & [= <-] & Hlt)]; [done|].
  apply lookup_lt_is_Some in Hlt as [qc Hq].
  apply wp_bind. eapply wp_read_qc; [done|]. apply wp_LoadBlock; [apply Hwf|].
  intros r Hr. apply HΦ. simpl. rewrite Hq. done.
Qed.

(** ** The methods meet the specification *)

Lemma wf_lookup s o : ref_ok (length (qcHeap s)) o → ∃ r qc, o = Some r ∧ qcHeap s !! r = Some qc.
Proof. intros (r & -> & Hlt). apply lookup_lt_is_Some in Hlt as [qc Hq]. eauto. Qed.

Lemma qc_block_lookup s r qc : qcHeap s !! r = Some qc → qc_block s (Some r) = stored s (qc_BlockHash qc).
Proof. intros Hq. unfold qc_block, qc_hash. simpl. by rewrite Hq. Qed.

Lemma verified_lookup s r qc :
  qcHeap s !! r = Some qc →
  verified s (Some r) = bool_decide (VerifyQuorumCert (replicas env) (Some qc) = Some true).
Proof. intros Hq. unfold verified. cbn [mbind option_bind]. by rewrite Hq. Qed.

Lemma wp_UpdateHighestQC b o s :
  core_wf s → ref_ok (length (qcHeap s)) o →
  wp (UpdateHighestQC env b o) s (λ r s0, r = Ok tt ∧ s0 = adopt_high b o s).
Proof.
  intros Hwf (r & qc & -> & Hq)%wf_lookup. unfold UpdateHighestQC, adopt_high.
  rewrite (verified_lookup _ _ _ Hq). apply wp_bind. eapply wp_deref; [done|].
  destruct (Verify_some (replicas env) qc (wf_certs s Hwf _ _ Hq)) as [ok Hok].
  rewrite Hok. apply wp_bind, wp_ret. destruct ok; [|by apply wp_ret].
  rewrite bool_decide_eq_true_2 by done. rewrite andb_true_l.
  apply wp_bind, wp_gets; [apply _|].
  destruct (wf_lookup _ _ (wf_generic s Hwf)) as (g & gq & -> & Hg).
  apply wp_bind. eapply wp_deref; [done|]. apply wp_bind, wp_LoadBlock; [apply Hwf|].
  intros hb Hhb. rewrite (qc_block_lookup _ _ _ Hg), Hhb.
  destruct hb as [e|hb]; [by apply wp_ret|]. simpl.
  destruct (decide (Height hb < Height b)%Z) as [Hlt|Hlt].
  - rewrite bool_decide_eq_true_2 by done.
    apply wp_bind, wp_modify; [solve_proper|]. by apply wp_notify.
  - rewrite bool_decide_eq_false_2 by done. by apply wp_ret.
Qed.

Lemma wp_updateLockedQC b o s :
  core_wf s → ref_ok (length (qcHeap s)) o →
  wp (updateLockedQC b o) s (λ r s0, r = Ok tt ∧ s0 = adopt_lock b o s).
Proof.
  intros Hwf (r & qc & -> & Hq)%wf_lookup. unfold updateLockedQC, adopt_lock.
  destruct (wf_lookup _ _ (wf_locked s Hwf)) as (l & lq & Hl & Hlq).
  apply wp_bind, wp_gets; [apply _|]. rewrite Hl. apply wp_bind, wp_ret.
  apply wp_bind, wp_gets; [apply _|]. rewrite Hl.
  apply wp_bind. eapply wp_deref; [done|]. apply wp_bind, wp_LoadBlock; [apply Hwf|].
  intros lb Hlb. rewrite (qc_block_lookup _ _ _ Hlq), Hlb.
  destruct lb as [e|lb]; [by apply wp_ret|]. simpl.
  destruct (decide (Height lb < Height b)%Z) as [Hlt|Hlt].
  - rewrite bool_decide_eq_true_2 by done.
    apply wp_bind. eapply wp_deref; [done|]. apply wp_modify; [solve_proper|done].
  - rewrite bool_decide_eq_false_2 by done. by apply wp_ret.
Qed.

Definition returned (r : res unit) (ok : bool) : Prop :=
  if ok then r = Ok tt else ∃ e, r = Fail e.

Lemma emit_emit l1 l2 s : emit l2 (emit l1 s) = emit (l1 ++ l2) s.
Proof. unfold emit. destruct s. unfold set_notifyChan. simpl. by rewrite app_assoc. Qed.

Lemma emit_nil s : emit [] s = s.
Proof. unfold emit. destruct s. unfold set_notifyChan. simpl. by rewrite app_nil_r. Qed.

Lemma branch_emit n l : ∀ s h, branch (emit l s) n h = branch s n h.
Proof.
  induction n as [|n IH]; intros s h; simpl; [done|].
  change (stored (emit l s) h) with (stored s h). destruct (stored s h); [|done]. by rewrite IH.
Qed.

Lemma wp_decide_loop n : ∀ h s,
  store_ok s →
  wp (decide_loop n h) s (λ r s0,
    returned r (bool_decide (length (branch s n h) = n))
    ∧ s0 = emit (DecideEvent <$> branch s n h) s).
Proof.
  induction n as [|n IH]; intros h s Hs; simpl.
  { apply wp_ret. split; [done|]. by rewrite emit_nil. }
  apply wp_bind, wp_LoadBlock; [done|]. intros r Hr. rewrite Hr.
  destruct r as [e|b]; apply wp_bind, wp_orFail; simpl.
  { split; [by exists e|]. by rewrite emit_nil. }
  apply wp_bind, wp_notify. eapply wp_mono; [by apply IH|].
  intros r s0 [Hret ->]. rewrite branch_emit in *. split.
  - erewrite bool_decide_ext; [exact Hret|]. lia.
  - by rewrite emit_emit.
Qed.

Lemma branch_ext s s' n : (∀ h, stored s' h = stored s h) → ∀ h, branch s' n h = branch s n h.
Proof.
  intros Hst. induction n as [|n IH]; intros h; simpl; [done|]. rewrite Hst.
  destruct (stored s h); [|done]. by rewrite IH.
Qed.

Lemma wp_decide_phase b0 b1 s :
  core_wf s → wp (decide_phase b0 b1) s (λ r s0,
    returned r (commit b0 b1 s).1 ∧ s0 = (commit b0 b1 s).2).
Proof.
  intros Hwf. unfold decide_phase, commit.
  destruct (wf_lookup _ _ (wf_exec s Hwf)) as (x & xq & Hx & Hxq).
  apply wp_bind, wp_gets; [apply _|]. rewrite Hx, (qc_block_lookup _ _ _ Hxq).
  apply wp_bind, wp_bind. eapply wp_deref; [done|]. apply wp_bind, wp_LoadBlock; [apply Hwf|].
  intros r Hr. rewrite Hr. destruct r as [e|eb]; apply wp_bind, wp_orFail.
  { split; [by exists e|done]. }
  apply wp_ret, wp_bind, wp_modify; [solve_proper|].
  eapply wp_mono; [apply wp_decide_loop, Hwf|]. intros r s0 [Hret ->].
  rewrite (branch_ext s (set_execQC (Justify b1) s)) in * by done. done.
Qed.

Lemma adopt_high_same b o s :
  qcHeap (adopt_high b o s) = qcHeap s ∧ blockCache (adopt_high b o s) = blockCache s.
Proof. unfold adopt_high. by destruct (_ && _). Qed.

Lemma adopt_lock_same b o s :
  qcHeap (adopt_lock b o s) = qcHeap s ∧ blockCache (adopt_lock b o s) = blockCache s.
Proof. unfold adopt_lock. by destruct (above _ _). Qed.

Lemma qc_hash_same s s' o : qcHeap s' = qcHeap s → qc_hash s' o = qc_hash s o.
Proof. unfold qc_hash. by intros ->. Qed.

Lemma qc_block_same s s' o :
  qcHeap s' = qcHeap s → blockCache s' = blockCache s → qc_block s' o = qc_block s o.
Proof. unfold qc_block, stored. intros Hh Hb. by rewrite (qc_hash_same s), Hb. Qed.

Lemma wf_adopt_high b o s : core_wf s → ref_ok (length (qcHeap s)) o → core_wf (adopt_high b o s).
Proof.
  intros Hwf Ho. unfold adopt_high. destruct (_ && _); [|done].
  apply wf_notify; [by apply wf_set_generic|done].
Qed.

Lemma wf_adopt_lock b o s : core_wf s → ref_ok (length (qcHeap s)) o → core_wf (adopt_lock b o s).
Proof. intros Hwf Ho. unfold adopt_lock. destruct (above _ _); [|done]. by apply wf_set_locked. Qed.

Lemma qc_block_ok s o b : core_wf s → qc_block s o = Some b → block_ok (length (qcHeap s)) b.
Proof.
  unfold qc_block. intros Hwf Hb. destruct (qc_hash s o) as [h|]; [|done]. by eapply wf_blocks.
Qed.

Lemma qc_block_ref s b b' :
  block_ok (length (qcHeap s)) b → qc_block s (Justify b) = Some b' →
  ref_ok (length (qcHeap s)) (Justify b).
Proof. intros [_ [Hj|Hj]]; [|done]. unfold qc_block, qc_hash. by rewrite Hj. Qed.

Lemma wp_update b s :
  core_wf s → block_ok (length (qcHeap s)) b →
  wp (update env b) s (λ r s0,
    returned r (update_spec b s).1 ∧ s0 = (update_spec b s).2).
Proof.
  intros Hwf Hb. unfold update, update_spec.
  apply wp_bind, wp_getJustifyBlock; [done..|]. intros r2 Hr2. rewrite Hr2.
  destruct r2 as [e|b2]; apply wp_bind, wp_orFail; [split; [by exists e|done]|].
  assert (Hb2 : block_ok (length (qcHeap s)) b2) by (by eapply qc_block_ok).
  assert (Hj : ref_ok (length (qcHeap s)) (Justify b)) by (by eapply qc_block_ref).
  apply wp_bind. eapply wp_mono; [by apply wp_UpdateHighestQC|]. intros ? s1 [-> Hs1].
  destruct (adopt_high_same b2 (Justify b) s) as [Hh1 Hc1].
  assert (Hwf1 : core_wf s1) by (subst; by apply wf_adopt_high).
  rewrite <-Hs1 in *. apply wp_bind, wp_getJustifyBlock; [done|by rewrite Hh1|].
  intros r1 Hr1. rewrite (qc_block_same s) in Hr1 by done. rewrite Hr1.
  destruct r1 as [e|b1]; [by apply wp_ret|].
  assert (Hb1 : block_ok (length (qcHeap s)) b1) by (by eapply qc_block_ok).
  assert (Hj2 : ref_ok (length (qcHeap s)) (Justify b2)) by (by eapply qc_block_ref).
  apply wp_bind. eapply wp_mono; [apply wp_updateLockedQC; [done|by rewrite Hh1]|].
  intros ? s2 [-> Hs2].
  destruct (adopt_lock_same b1 (Justify b2) s1) as [Hh2 Hc2].
  assert (Hwf2 : core_wf s2) by (subst s2; apply wf_adopt_lock; [done|by rewrite Hh1]).
  rewrite <-Hs2 in *. rewrite Hh1 in Hh2. rewrite Hc1 in Hc2.
  apply wp_bind, wp_getJustifyBlock; [done|by rewrite Hh2|].
  intros r0 Hr0. rewrite (qc_block_same s) in Hr0 by done. rewrite Hr0.
  destruct r0 as [e|b0]; [by apply wp_ret|].
  assert (Hj1 : ref_ok (length (qcHeap s)) (Justify b1)) by (by eapply qc_block_ref).
  unfold direct, qc_hash.
  destruct (wf_lookup _ _ Hj2) as (i2 & q2 & Hi2 & Hq2).
  destruct (wf_lookup _ _ Hj1) as (i1 & q1 & Hi1 & Hq1).
  rewrite Hi2, Hi1. simpl. rewrite Hq2, Hq1. simpl.
  apply wp_bind. eapply wp_deref; [by rewrite Hh2|]. apply wp_bind.
  eapply wp_deref; [by rewrite Hh2|]. rewrite <-bool_decide_and.
  case_decide as Hd.
  - rewrite bool_decide_eq_false_2 by (intros [[=] [=]]; naive_solver). by apply wp_ret.
  - rewrite bool_decide_eq_true_2; [by apply wp_decide_phase|].
    split; f_equal; destruct (decide (qc_BlockHash q2 = ParentHash b2)), (decide (qc_BlockHash q1 = ParentHash b1));
      naive_solver.
Qed.

(** ** The voting rule and the acceptance of a proposal *)

Lemma wp_walk_parents n : ∀ b s (Φ : res (Block QCRef) → HotStuffCore DB → Prop),
  store_ok s →
  match ancestor s n b with Some a => Φ (Ok a) s | None => ∀ e, Φ (Fail e) s end →
  wp (walk_parents n b) s Φ.
Proof.
  induction n as [|n IH]; intros b s Φ Hs HΦ; simpl in *; [by apply wp_ret|].
  apply wp_bind, wp_LoadBlock; [done|]. intros r Hr. rewrite Hr in HΦ.
  destruct r as [e|p]; apply wp_bind, wp_orFail; [done|]. by apply IH.
Qed.

Lemma ancestor_ok s n : ∀ b a,
  core_wf s → block_ok (length (qcHeap s)) b → ancestor s n b = Some a →
  block_ok (length (qcHeap s)) a.
Proof.
  induction n as [|n IH]; intros b a Hwf Hb Ha; simpl in Ha; [by simplify_eq|].
  destruct (stored s (ParentHash b)) as [p|] eqn:Hp; [|done]. simpl in Ha.
  eapply IH; [done|by eapply wf_blocks|done].
Qed.

Lemma qc_hash_lookup s r qc : qcHeap s !! r = Some qc → qc_hash s (Some r) = Some (qc_BlockHash qc).
Proof. intros Hq. unfold qc_hash. simpl. by rewrite Hq. Qed.

Lemma wp_vote_rule b s :
  core_wf s → block_ok (length (qcHeap s)) b →
  wp (vote_rule b) s (λ r s0,
    returned r (bool_decide (is_Some (rule_outcome b s))) ∧ s0 = apply_rule b s).
Proof.
  intros Hwf Hb. unfold vote_rule, GetVoteHeight, setVoteHeight, apply_rule, rule_outcome.
  apply wp_bind, wp_gets; [apply _|].
  destruct (decide (voteHeight s < Height b)%Z); [|by apply wp_ret].
  apply wp_bind, wp_getJustifyBlock; [done..|]. intros rj Hj. rewrite Hj.
  destruct rj as [e|jb]; apply wp_bind, wp_orFail; [split; [by exists e|done]|].
  apply wp_bind, wp_gets; [apply _|].
  destruct (wf_lookup _ _ (wf_locked s Hwf)) as (lr & lq & Hl & Hlq). rewrite Hl.
  apply wp_bind. eapply wp_deref; [done|]. apply wp_bind, wp_LoadBlock; [apply Hwf|].
  intros rl Hrl. rewrite (qc_block_lookup _ _ _ Hlq), Hrl. cbn [mbind option_bind].
  destruct rl as [e|lb]; apply wp_bind, wp_orFail; [split; [by exists e|done]|].
  cbn [mbind option_bind]. destruct (decide (Height lb < Height jb)%Z).
  { apply wp_modify; [solve_proper|]. by rewrite decide_True. }
  apply wp_bind, wp_walk_parents; [apply Hwf|].
  destruct (ancestor s _ b) as [a|] eqn:Ha; [|intros e; split; [by exists e|done]].
  destruct (wf_lookup _ _ (proj1 (ancestor_ok _ _ _ _ Hwf Hb Ha))) as (i & q & Hi & Hq).
  destruct (wf_lookup _ _ (proj1 (wf_blocks s Hwf _ _ Hrl))) as (i' & q' & Hi' & Hq').
  cbn [mbind option_bind]. rewrite Hi, Hi'.
  rewrite (qc_hash_lookup _ _ _ Hq), (qc_hash_lookup _ _ _ Hq').
  apply wp_bind. eapply wp_deref; [done|]. apply wp_bind. eapply wp_deref; [done|].
  destruct (decide (qc_BlockHash q = qc_BlockHash q')) as [Heq|Hne].
  - rewrite Heq, (bool_decide_eq_true_2 (Some _ = Some _)) by done. apply wp_modify; [solve_proper|].
    by rewrite decide_True.
  - apply wp_ret. rewrite (bool_decide_eq_false_2 (Some (qc_BlockHash q) = _)) by congruence. done.
Qed.

Lemma update_spec_heap b s : qcHeap (update_spec b s).2 = qcHeap s.
Proof.
  unfold update_spec, commit. destruct (qc_block s (Justify b)) as [b2|]; [|done].
  destruct (adopt_high_same b2 (Justify b) s) as [Hh _].
  destruct (qc_block s (Justify b2)) as [b1|]; [|done].
  destruct (adopt_lock_same b1 (Justify b2) (adopt_high b2 (Justify b) s)) as [Hh2 _].
  rewrite Hh in Hh2. destruct (qc_block s (Justify b1)) as [b0|]; [|done].
  destruct (_ && _); [|done]. by destruct (qc_block _ _).
Qed.

Lemma update_spec_stored b s h : stored (update_spec b s).2 h = stored s h.
Proof.
  unfold update_spec, commit. destruct (qc_block s (Justify b)) as [b2|]; [|done].
  destruct (adopt_high_same b2 (Justify b) s) as [_ Hh].
  destruct (qc_block s (Justify b2)) as [b1|]; [|unfold stored; simpl; by rewrite Hh].
  destruct (adopt_lock_same b1 (Justify b2) (adopt_high b2 (Justify b) s)) as [_ Hh2].
  rewrite Hh in Hh2. unfold stored.
  destruct (qc_block s (Justify b1)) as [b0|]; [|simpl; by rewrite Hh2].
  destruct (_ && _); [|simpl; by rewrite Hh2]. destruct (qc_block _ _); simpl; by rewrite Hh2.
Qed.

Lemma wf_update_spec b s :
  core_wf s → block_ok (length (qcHeap s)) b → core_wf (update_spec b s).2.
Proof.
  intros Hwf Hb. pose proof (wp_run _ _ _ (wp_update b s Hwf Hb)) as (s0 & He & _ & ->).
  eapply core_wf_eqv; [exact He|].
  by apply (safe_no_panic _ _ _ (safe_update env b s Hwf Hb)).
Qed.

Lemma apply_rule_heap b s : qcHeap (apply_rule b s) = qcHeap s.
Proof. unfold apply_rule. by case_decide. Qed.

Lemma wp_acceptProposal ent prop b s :
  core_wf s → block_ok (length (qcHeap s)) b →
  wp (acceptProposal env ent prop b) s (λ r s0,
    returned r (accept_spec ent prop b s).1 ∧ s0 = (accept_spec ent prop b s).2).
Proof.
  intros Hwf Hb. unfold acceptProposal, accept_spec.
  pose proof (wf_update_spec b s Hwf Hb) as Hwf1. pose proof (update_spec_heap b s) as Hh1.
  apply wp_bind. eapply wp_mono; [by apply wp_update|]. intros r s1 [Hret Hs1].
  rewrite <-Hs1 in *. unfold returned in Hret.
  destruct ((update_spec b s).1) eqn:Hok.
  2: { destruct Hret as [e ->]. rewrite Hok, <-Hs1. split; [by exists e|done]. }
  rewrite Hret. apply wp_bind. eapply wp_mono; [apply wp_vote_rule; [done|by rewrite Hh1]|].
  intros r2 s2 [Hret2 ->]. unfold returned in Hret2.
  destruct (wf_lookup _ _ (proj1 Hb)) as (i & q & Hi & Hq).
  rewrite Hi, (qc_hash_lookup _ _ _ Hq).
  destruct (rule_outcome b s1) as [v|] eqn:Hv; rewrite ?bool_decide_eq_true_2 in Hret2 by eauto.
  2: { rewrite bool_decide_eq_false_2 in Hret2 by (by intros [? ?]).
       destruct Hret2 as [e ->]. split; [by exists e|done]. }
  rewrite Hret2. apply wp_bind.
  eapply wp_deref; [by rewrite apply_rule_heap, Hh1|].
  unfold voteProposal, createPartCert. destruct (Sign env ent (qc_BlockHash q)) as [e|sig] eqn:Hsig.
  - apply wp_bind, wp_bind, wp_bind, wp_orFail. split; [by exists e|done].
  - apply wp_bind, wp_bind, wp_bind, wp_orFail. by apply wp_ret, wp_ret, wp_notify.
Qed.

End spec.
