(* ===== verification/CoreCert.v ===== *)
(** * What the core certifies

    The certificates the core adopts and announces are backed by signatures:
    [certified] says so of [genericQC] and of every certificate sent on
    [notifyChan], and every step of the core preserves it, because signatures
    are only added to certificates short of a quorum. *)

From stdpp Require Import base numbers fin_maps gmap sets strings list.
From S2P Require Import Prelude GoMonad Encoding Types Database LRUCache Entity Core.
From S2P Require Import CoreLemmas CoreSafety.

Section generic.
Context {DB E : Type} `{DatabaseLaws DB string (Block QCRef)} (env : CoreEnv E).
Context (R : relation (HotStuffCore DB)).

Let q := GetQuorumSize (Metadata (replicas env)).

(** Relations that also ignore the vote height hold across every entry point. *)
Context `{!CoreStable R, !CoreStore R, !CoreHigh env R, !CoreWritable q R, !CoreFinish q R}.
Hypothesis cs_height : ∀ h s, R s (set_voteHeight h s).

Lemma set_height_evolves h : evolves R (setVoteHeight (DB:=DB) h).
Proof. intros s. apply cs_height. Qed.

Lemma run_call_evolves_in c : evolves R (run_call (DB:=DB) env c).
Proof.
  pose proof set_height_evolves as Hh. pose proof (OnProposalVote_evolves env R) as Hv.
  assert (Ha : ∀ ent p b, evolves R (acceptProposal (DB:=DB) env ent p b)).
  { intros. unfold acceptProposal, vote_rule, GetVoteHeight. evolve. }
  destruct c; simpl.
  - unfold OnPropose, GetVoteHeight. evolve.
  - unfold OnReceiveProposal. evolve.
  - unfold OnReceiveProposal_wake, AsyncWaitBlock_wake. evolve.
  - apply Hv.
  - unfold OnNewView. evolve.
  - evolve.
  - evolve.
Qed.

Lemma core_step_in s s' : core_step (DB:=DB) env s s' → R s s'.
Proof. intros [c s0 _|qc s0 _]; [apply run_call_evolves_in|apply cs_alloc]. Qed.

Lemma core_steps_in s s' : rtc (core_step (DB:=DB) env) s s' → R s s'.
Proof.
  intros Hs. induction Hs as [s|s1 s2 s3 H12 _ IH]; [apply cs_preorder|].
  etrans; [by apply core_step_in|done].
Qed.

End generic.

Section certified.
Context {DB E : Type} `{DatabaseLaws DB string (Block QCRef)} (env : CoreEnv E).
Implicit Types (s : HotStuffCore DB).

Let q := GetQuorumSize (Metadata (replicas env)).

(** The certificate [o] points to passes verification. *)
Definition proven (h : list QuorumCert) (o : option QCRef) : Prop :=
  ∃ r qc, o = Some r ∧ h !! r = Some qc ∧ VerifyQuorumCert (replicas env) (Some qc) = Some true.

(** The certificate [o] points to holds a quorum of signatures. *)
Definition full (h : list QuorumCert) (o : option QCRef) : Prop :=
  ∃ r qc, o = Some r ∧ h !! r = Some qc ∧ (q ≤ len_signs qc)%Z.

Record certified s : Prop := {
  cert_generic : genericQC s = Some 0%nat ∨ proven (qcHeap s) (genericQC s);
  cert_hqc o : HqcUpdateEvent o ∈ notifyChan s → proven (qcHeap s) o;
  cert_finish p o : QcFinishEvent p o ∈ notifyChan s → full (qcHeap s) o }.

Definition keeps_certified s s' : Prop := certified s → certified s'.

#[global] Instance keeps_preorder : PreOrder keeps_certified.
Proof. split; [by intros s Hc|]. unfold keeps_certified. intros s1 s2 s3 H12 H23. auto. Qed.

Lemma verify_full qc : VerifyQuorumCert (replicas env) (Some qc) = Some true → (q ≤ len_signs qc)%Z.
Proof. unfold VerifyQuorumCert. case_decide; [done|]. unfold q. lia. Qed.

Lemma proven_mono h h' o : heap_le q h h' → proven h o → proven h' o.
Proof.
  intros Hle (r & qc & -> & Hq & Hv). destruct (Hle r qc Hq) as (qc' & Hq' & _ & _ & _ & Hf).
  exists r, qc'. rewrite (Hf (verify_full qc Hv)) in *. done.
Qed.

Lemma full_mono h h' o : heap_le q h h' → full h o → full h' o.
Proof.
  intros Hle (r & qc & -> & Hq & Hv). destruct (Hle r qc Hq) as (qc' & Hq' & _ & _ & _ & Hf).
  exists r, qc'. rewrite (Hf Hv) in *. done.
Qed.

Lemma certified_heap s h :
  heap_le q (qcHeap s) h → certified s → certified (set_qcHeap h s).
Proof.
  intros Hle [Hg Hh Hf]. constructor; simpl.
  - destruct Hg; [by left|right]. by eapply proven_mono.
  - intros o Ho. eapply proven_mono; [done|]. by apply Hh.
  - intros p o Ho. eapply full_mono; [done|]. by eapply Hf.
Qed.

Lemma certified_event s e :
  match e with
  | HqcUpdateEvent o => proven (qcHeap s) o
  | QcFinishEvent _ o => full (qcHeap s) o
  | _ => True
  end → certified s → certified (set_notifyChan (notifyChan s ++ [e]) s).
Proof.
  intros He [Hg Hh Hf]. constructor; simpl; [done|..].
  - intros o [Ho|Ho%list_elem_of_singleton]%elem_of_app; [by apply Hh|]. by subst.
  - intros p o [Ho|Ho%list_elem_of_singleton]%elem_of_app; [by eapply Hf|]. by subst.
Qed.

#[global] Instance keeps_stable : CoreStable keeps_certified.
Proof.
  split; [apply _|..]; intros; intros Hc; try (destruct Hc; by constructor).
  - apply certified_event; [|done]. by destruct e.
  - apply certified_heap; [apply heap_le_app|done].
Qed.

#[global] Instance keeps_store : CoreStore keeps_certified.
Proof. intros k b s []. by constructor. Qed.

#[global] Instance keeps_writable : CoreWritable q keeps_certified.
Proof. intros r qc m s Hr Hlt Hm Hc. apply certified_heap; [by apply heap_le_write|done]. Qed.

#[global] Instance keeps_finish : CoreFinish q keeps_certified.
Proof. intros p r qc s Hr Hq Hc. apply certified_event; [|done]. by exists r, qc. Qed.

Lemma certified_adopt s o : proven (qcHeap s) o → certified s → certified (set_genericQC o s).
Proof. intros Ho []. constructor; simpl; [by right|done..]. Qed.

Lemma deref_none {A} (k : QuorumCert → M (HotStuffCore DB) A) (r : QCRef) s :
  qcHeap s !! r = None → (deref (Some r) ≫= k) s = (Panic, s).
Proof. apply read_qc_none. Qed.

#[global] Instance keeps_high : CoreHigh env keeps_certified.
Proof.
  intros b [r|] s; [|done]. unfold UpdateHighestQC.
  destruct (qcHeap s !! r) as [qc|] eqn:Hq; [|by rewrite deref_none].
  rewrite (run_bind_Ok _ _ _ _ _ (deref_run r s qc Hq)).
  destruct (VerifyQuorumCert (replicas env) (Some qc)) as [[]|] eqn:Hv; [|done..].
  rewrite run_orPanic, run_gets.
  assert (Hp : ∀ s1, heap_grows s s1 → proven (qcHeap s1) (Some r)).
  { intros s1 Hh. exists r, qc. split_and!; [done| |done]. by apply (prefix_lookup_Some _ _ _ _ Hq). }
  clear Hv. destruct (genericQC s) as [g|].
  2: { intros Hc. apply certified_adopt; [|done]. by apply Hp. }
  destruct (qcHeap s !! g) as [gq|] eqn:Hgq; [|by rewrite deref_none].
  rewrite (run_bind_Ok _ _ _ _ _ (deref_run g s gq Hgq)).
  pose proof (LoadBlock_evolves keeps_certified (qc_BlockHash gq) s) as Hl.
  pose proof (LoadBlock_evolves heap_grows (qc_BlockHash gq) s) as Hh.
  unfold mbind, M_bind. destruct (LoadBlock (qc_BlockHash gq) s) as [[[e|hb]| | |] s1]; simpl in *; try done.
  case_decide; [|exact Hl]. simpl. intros Hc.
  apply (certified_event (set_genericQC (Some r) s1)); [by apply Hp|]. apply certified_adopt; auto.
Qed.

Lemma keeps_height h s : keeps_certified s (set_voteHeight h s).
Proof. intros []. by constructor. Qed.

Lemma call_keeps_certified c : evolves keeps_certified (run_call (DB:=DB) env c).
Proof. apply (run_call_evolves_in env keeps_certified), keeps_height. Qed.

Lemma certified_steps s s' : rtc (core_step (DB:=DB) env) s s' → certified s → certified s'.
Proof. intros Hs. by apply (core_steps_in env keeps_certified keeps_height). Qed.

End certified.

Lemma certified_init {E} (env : CoreEnv E) : certified env initCore.
Proof.
  constructor; simpl.
  - by left.
  - by intros o ?%not_elem_of_nil.
  - by intros p o ?%not_elem_of_nil.
Qed.
