(* ===== verification/CoreProps.v ===== *)
(** * Properties of the consensus core

    The theorems about [consensus/consensus.go]: executions never dereference
    nil, what only grows, which certificates are adopted, the vote count, the
    voting rule, the acceptance of proposals, and the three-chain commit rule. *)

From stdpp Require Import base numbers fin_maps fin_map_dom gmap sets strings list.
From Stdlib Require Import Strings.Byte.
From S2P Require Import Prelude GoMonad Encoding Types Database LRUCache Entity Core.
From S2P Require Import CoreLemmas CoreSafety CoreSpec CoreCert.

(** ** Replicas of the four-replica configuration, for witnesses *)

Module ToyCore.

(** Replica [i]; [proto.Clone] copies; signing needs no randomness. *)
Definition env (i : Z) : CoreEnv unit :=
  MkCoreEnv i (λ _ d, inr (Toy.sign i d)) Toy.conf (λ qc, qc).

Definition ghash : bytes := GetBlockHash genesis.

(** A block with the certificate addresses the proposal handlers expect. *)
Definition block (parent cmds : bytes) (height : Z) (j sq : nat) : Block QCRef :=
  MkBlock parent cmds 0 height 0 (Some j) (Some sq).

(** A received message's certificates are unmarshalled into new objects. *)
Definition receive (qcs : list QuorumCert) (s : HotStuffCore CoreDB) : HotStuffCore CoreDB :=
  set_qcHeap (qcHeap s ++ qcs) s.

(** Four blocks, each the child of the one before and justified by a
    certificate for it; the certificates of block [k] live at [2k-1], [2k]. *)
Definition b1 : Block QCRef := block ghash [x61] 1 1 2.
Definition h1 : bytes := GetBlockHash b1.
Definition b2 : Block QCRef := block h1 [x62] 2 3 4.
Definition h2 : bytes := GetBlockHash b2.
Definition b3 : Block QCRef := block h2 [x63] 3 5 6.
Definition h3 : bytes := GetBlockHash b3.
Definition b4 : Block QCRef := block h3 [x64] 4 7 8.
Definition h4 : bytes := GetBlockHash b4.

Definition prop (view : Z) (b : Block QCRef) : core_call := CallReceiveProposal tt (MkProposal view (Some b)).

(** Replica 1 receives [b], justified by a certificate of [signers] for [jh]. *)
Definition recv (view : Z) (jh : bytes) (signers : list Z) (h : bytes) (b : Block QCRef)
    (s : HotStuffCore CoreDB) : HotStuffCore CoreDB :=
  (run_call (env 1) (prop view b) (receive [Toy.qc (view - 1) jh signers; Toy.qc view h []] s)).2.

Definition s1 : HotStuffCore CoreDB := recv 1 ghash [] h1 b1 initCore.
Definition s2 : HotStuffCore CoreDB := recv 2 h1 [0; 1; 2]%Z h2 b2 s1.
Definition s3 : HotStuffCore CoreDB := recv 3 h2 [0; 1; 2]%Z h3 b3 s2.
(** [s3] with the certificates of [b4]. *)
Definition s3' : HotStuffCore CoreDB := receive [Toy.qc 3 h3 [0; 1; 2]%Z; Toy.qc 4 h4 []] s3.
Definition s4 : HotStuffCore CoreDB := recv 4 h3 [0; 1; 2]%Z h4 b4 s3.

Lemma certs_ok_qc view h ids : certs_ok (signs (Toy.qc view h ids)).
Proof.
  unfold Toy.qc, signs. simpl. intros i pc Hi%elem_of_list_to_map_2.
  apply list_elem_of_fmap in Hi as (j & Heq & _). injection Heq as _ ->. by eexists.
Qed.

Lemma receive_steps v1 g1 i1 v2 g2 i2 s :
  rtc (core_step (env 1)) s (receive [Toy.qc v1 g1 i1; Toy.qc v2 g2 i2] s).
Proof.
  eapply rtc_l; [by apply (step_unmarshal _ (Toy.qc v1 g1 i1)), certs_ok_qc|].
  eapply rtc_l; [by apply (step_unmarshal _ (Toy.qc v2 g2 i2)), certs_ok_qc|].
  unfold receive, set_qcHeap. simpl. rewrite <-app_assoc. simpl. by destruct s.
Qed.

Lemma recv_steps view jh ids h b s j :
  Justify b = Some j → SelfQc b = Some (S j) → length (qcHeap s) = j →
  rtc (core_step (env 1)) s (recv view jh ids h b s).
Proof.
  intros Hj Hs Hl. eapply rtc_r; [apply (receive_steps (view - 1) jh ids view h [] s)|].
  apply step_call. exists b. split; [done|].
  unfold receive. simpl. rewrite length_app. simpl.
  split; [exists (S j)|exists j]; (split; [done|lia]).
Qed.

(** Values an evaluation computes once. *)
Ltac by_vm := vm_compute; reflexivity.

Lemma s1_reachable : rtc (core_step (env 1)) initCore s1.
Proof. apply (recv_steps 1 ghash [] h1 b1 initCore 1); done. Qed.

Lemma s3_reachable : rtc (core_step (env 1)) initCore s3.
Proof.
  etrans; [apply s1_reachable|].
  etrans; [apply (recv_steps 2 h1 [0; 1; 2]%Z h2 b2 s1 3); [done..|by_vm]|].
  apply (recv_steps 3 h2 [0; 1; 2]%Z h3 b3 s2 5); [done..|by_vm].
Qed.

Lemma s3'_reachable : rtc (core_step (env 1)) initCore s3'.
Proof. etrans; [apply s3_reachable|apply receive_steps]. Qed.

Lemma reachable_wf s : rtc (core_step (env 1)) initCore s → core_wf s.
Proof. intros Hs. eapply (core_steps_wf (env 1)); [done|apply initCore_wf|done]. Qed.

Lemma b4_ok : block_ok (length (qcHeap s3')) b4.
Proof.
  replace (length (qcHeap s3')) with 9%nat by by_vm.
  split; [exists 8%nat|right; exists 7%nat]; (split; [done|lia]).
Qed.

Definition vote1 (i : Z) : Vote := MkVote 1 i h1 (Toy.cert i h1).

(** Replicas 0 and 2 have voted for [b1]. *)
Definition s1v : HotStuffCore CoreDB :=
  (OnProposalVote (env 1) (vote1 2) (OnProposalVote (env 1) (vote1 0) s1).2).2.

Lemma vote_steps i s :
  rtc (core_step (env 1)) initCore s →
  rtc (core_step (env 1)) initCore (OnProposalVote (env 1) (vote1 i) s).2.
Proof.
  intros Hs. eapply rtc_r; [exact Hs|]. apply (step_call (env 1) (CallVote (vote1 i)) s). by eexists.
Qed.

Lemma s1v_reachable : rtc (core_step (env 1)) initCore s1v.
Proof. apply vote_steps, vote_steps, s1_reachable. Qed.

Lemma proposal_step cmds :
  core_step (env 1) initCore (run_call (env 1) (CallPropose 7 tt 0 ghash cmds) initCore).2.
Proof. by apply (step_call (env 1) (CallPropose 7 tt 0 ghash cmds)). Qed.

End ToyCore.

(** ** Executions *)

(** No execution of the core panics: from [NewHotStuffCore], after any
    sequence of proposals, votes, new-view messages, wake-ups and certificate
    updates whose messages carry the pointers the handlers read without a test,
    the next such call returns, fails with an error or waits for a block, and
    leaves the state well formed. *)
Theorem core_never_panics {E} (env : CoreEnv E) s c :
  (∀ qc, clone env qc = qc) →
  rtc (core_step env) initCore s → call_ok (length (qcHeap s)) c →
  (run_call env c s).1 ≠ Panic ∧ core_wf (run_call env c s).2.
Proof.
  intros Hclone Hs Hc.
  assert (Hwf : core_wf s) by (eapply core_steps_wf; [done|apply initCore_wf|done]).
  eapply safe_no_panic. by apply safe_run_call.
Qed.

Lemma core_never_panics_witness :
  let s := (run_call (ToyCore.env 1) (CallPropose 7 tt 0 ToyCore.ghash [x61]) initCore).2 in
  (run_call (ToyCore.env 1) (CallVote (MkVote 0 2 ToyCore.ghash (Toy.cert 2 ToyCore.ghash))) s).1 ≠ Panic
  ∧ core_wf (run_call (ToyCore.env 1) (CallVote (MkVote 0 2 ToyCore.ghash (Toy.cert 2 ToyCore.ghash))) s).2.
Proof.
  intros s. apply (core_never_panics (ToyCore.env 1)).
  - reflexivity.
  - apply rtc_once, ToyCore.proposal_step.
  - exists (MkPartCert 2 (Toy.sign 2 ToyCore.ghash)). reflexivity.
Defined.

(** Along any execution the vote height never decreases, the events sent to
    the pacemaker are never retracted, and every quorum certificate keeps its
    view, its block hash and the signatures it has, and is never written again
    once it holds a quorum. *)
Theorem core_monotone {E} (env : CoreEnv E) (s s' : HotStuffCore CoreDB) :
  rtc (core_step env) s s' →
  (voteHeight s ≤ voteHeight s')%Z ∧ notifyChan s `prefix_of` notifyChan s' ∧
  ∀ r qc, qcHeap s !! r = Some qc →
    ∃ qc', qcHeap s' !! r = Some qc'
      ∧ qc_ViewNumber qc' = qc_ViewNumber qc ∧ qc_BlockHash qc' = qc_BlockHash qc
      ∧ signs qc ⊆ signs qc'
      ∧ ((GetQuorumSize (Metadata (replicas env)) ≤ len_signs qc)%Z → qc' = qc).
Proof. intros [_ Hh Hq Hn _ _]%core_steps_le. split_and!; [done|done|]. apply Hq. Qed.

Lemma core_monotone_witness :
  let s' := (run_call (ToyCore.env 1) (CallPropose 7 tt 0 ToyCore.ghash [x61]) initCore).2 in
  (voteHeight initCore ≤ voteHeight s')%Z ∧ notifyChan initCore `prefix_of` notifyChan s' ∧
  ∀ r qc, qcHeap initCore !! r = Some qc →
    ∃ qc', qcHeap s' !! r = Some qc'
      ∧ qc_ViewNumber qc' = qc_ViewNumber qc ∧ qc_BlockHash qc' = qc_BlockHash qc
      ∧ signs qc ⊆ signs qc' ∧ ((3 ≤ len_signs qc)%Z → qc' = qc).
Proof.
  intros s'. apply (core_monotone (ToyCore.env 1) initCore s').
  apply rtc_once, ToyCore.proposal_step.
Defined.

(** In every reachable state the highest certificate is the genesis one or
    is signed by [N - F] distinct registered replicas, and so is every
    certificate announced to the pacemaker as the new highest; a certificate
    announced as finished holds at least [N - F] votes. *)
Theorem highest_qc_certified {E} (env : CoreEnv E) s :
  sane_metadata (Metadata (replicas env)) → rtc (core_step env) initCore s →
  let q := (md_N (Metadata (replicas env)) - md_F (Metadata (replicas env)))%Z in
  let backed o := ∃ r qc, o = Some r ∧ qcHeap s !! r = Some qc
                          ∧ (q ≤ Z.of_nat (size (signers (replicas env) qc)))%Z in
  (genericQC s = Some 0%nat ∨ backed (genericQC s))
  ∧ (∀ o, HqcUpdateEvent o ∈ notifyChan s → backed o)
  ∧ (∀ p o, QcFinishEvent p o ∈ notifyChan s →
       ∃ r qc, o = Some r ∧ qcHeap s !! r = Some qc ∧ (q ≤ len_signs qc)%Z).
Proof.
  intros Hsane Hs q backed.
  destruct (certified_steps env _ _ Hs (certified_init env)) as [Hg Hh Hf].
  assert (Hb : ∀ o, proven env (qcHeap s) o → backed o).
  { intros o (r & qc & -> & Hq & Hv). exists r, qc. split_and!; [done..|].
    by apply VerifyQuorumCert_true. }
  split_and!.
  - destruct Hg; [by left|right; by apply Hb].
  - intros o Ho. by apply Hb, Hh.
  - intros p o Ho. unfold q. rewrite <-quorum_sane by done. by apply (Hf p).
Qed.

Lemma highest_qc_certified_witness :
  HqcUpdateEvent (Some 3%nat) ∈ notifyChan ToyCore.s3
  ∧ ∃ r qc, Some 3%nat = Some r ∧ qcHeap ToyCore.s3 !! r = Some qc
            ∧ (4 - 1 ≤ Z.of_nat (size (signers Toy.conf qc)))%Z.
Proof.
  assert (Hin : HqcUpdateEvent (Some 3%nat) ∈ notifyChan ToyCore.s3).
  { apply (list_elem_of_lookup_2 _ 1). ToyCore.by_vm. }
  split; [exact Hin|].
  apply (highest_qc_certified (ToyCore.env 1) ToyCore.s3); [|apply ToyCore.s3_reachable|exact Hin].
  split; simpl; lia.
Defined.

(** ** The commit rule *)

Section update.
Context {DB E : Type} `{DatabaseLaws DB string (Block QCRef)} (env : CoreEnv E).
Implicit Types (s : HotStuffCore DB) (b : Block QCRef).

(** Unfolded outcome of [update_spec], one case per phase reached. *)
Lemma commit_events b0 b1 s :
  ∃ l, notifyChan (commit b0 b1 s).2 = notifyChan s ++ (DecideEvent <$> l)
    ∧ ∀ eb, qc_block s (execQC s) = Some eb → l = branch s (exec_gap s b0 eb) (GetBlockHash b0)
    ∧ (qc_block s (execQC s) = None → l = []).
Proof.
  unfold commit. destruct (qc_block s (execQC s)) as [eb|].
  - eexists. split; [done|]. intros eb' [= <-]. done.
  - exists []. simpl. rewrite app_nil_r. done.
Qed.

Lemma branch_elem s x n : ∀ h, x ∈ branch s n h →
  ∃ i, (i < n)%nat ∧ branch s n h !! i = Some x.
Proof.
  intros h Hx. apply list_elem_of_lookup in Hx as [i Hi]. exists i. split; [|done].
  apply lookup_lt_Some in Hi. enough (length (branch s n h) ≤ n)%nat by lia.
  clear. revert h. induction n as [|n IH]; intros h; simpl; [done|].
  destruct (stored s h) as [b|]; simpl; [specialize (IH (ParentHash b))|]; lia.
Qed.

Definition high_events b (s : HotStuffCore DB) : list EventNotifier :=
  match qc_block s (Justify b) with
  | Some b2 => if verified env s (Justify b) && above b2 (qc_block s (genericQC s))
               then [HqcUpdateEvent (Justify b)] else []
  | None => []
  end.

(** The three blocks [update] inspects, with the parent links it requires. *)
Definition three_chain s b b2 b1 b0 : Prop :=
  qc_block s (Justify b) = Some b2 ∧ qc_block s (Justify b2) = Some b1
  ∧ qc_block s (Justify b1) = Some b0
  ∧ qc_hash s (Justify b2) = Some (ParentHash b2)
  ∧ qc_hash s (Justify b1) = Some (ParentHash b1).

Lemma adopt_high_notify b b2 s :
  qc_block s (Justify b) = Some b2 →
  notifyChan (adopt_high env b2 (Justify b) s) = notifyChan s ++ high_events b s.
Proof.
  intros Hb2. unfold adopt_high, high_events. rewrite Hb2. destruct (_ && _); [done|].
  by rewrite app_nil_r.
Qed.

Lemma adopt_lock_notify b o s : notifyChan (adopt_lock b o s) = notifyChan s.
Proof. unfold adopt_lock. by destruct (above _ _). Qed.

Lemma adopt_exec b2 o b1 o' s : execQC (adopt_lock b1 o' (adopt_high env b2 o s)) = execQC s.
Proof. unfold adopt_lock, adopt_high. by destruct (above _ _), (_ && _). Qed.

Lemma update_spec_events b s :
  (notifyChan (update_spec env b s).2 = notifyChan s ++ high_events b s)
  ∨ ∃ b2 b1 b0 eb, three_chain s b b2 b1 b0 ∧ qc_block s (execQC s) = Some eb
      ∧ notifyChan (update_spec env b s).2
        = notifyChan s ++ high_events b s
          ++ (DecideEvent <$> branch s (exec_gap s b0 eb) (GetBlockHash b0)).
Proof.
  unfold update_spec. destruct (qc_block s (Justify b)) as [b2|] eqn:Hb2.
  2: { left. unfold high_events. rewrite Hb2. by rewrite app_nil_r. }
  destruct (qc_block s (Justify b2)) as [b1|] eqn:Hb1; [|left; by apply adopt_high_notify].
  set (s2 := adopt_lock _ _ _).
  assert (Hn : notifyChan s2 = notifyChan s ++ high_events b s)
    by (unfold s2; by rewrite adopt_lock_notify, adopt_high_notify).
  destruct (adopt_high_same env b2 (Justify b) s) as [Hh1 Hc1].
  destruct (adopt_lock_same b1 (Justify b2) (adopt_high env b2 (Justify b) s)) as [Hh2 Hc2].
  fold s2 in Hh2, Hc2. rewrite Hh1 in Hh2. rewrite Hc1 in Hc2.
  destruct (qc_block s (Justify b1)) as [b0|] eqn:Hb0; [|by left].
  destruct (direct s b2 && direct s b1) eqn:Hd; [|by left].
  apply andb_true_iff in Hd as [Hd2 Hd1].
  apply bool_decide_eq_true in Hd1. apply bool_decide_eq_true in Hd2. unfold commit.
  assert (He2 : execQC s2 = execQC s) by apply adopt_exec.
  rewrite (qc_block_same s) by done. rewrite He2.
  destruct (qc_block s (execQC s)) as [eb|] eqn:He; [|by left]. right.
  exists b2, b1, b0, eb. split; [done|]. split; [done|].
  unfold emit. cbn [snd set_notifyChan set_execQC notifyChan]. rewrite Hn, <-app_assoc. do 3 f_equal. apply branch_ext. intros h. unfold stored. by rewrite Hc2.
Qed.

(** The events [update] sends. *)
Lemma update_run b s :
  core_wf s → block_ok (length (qcHeap s)) b →
  returned (update env b s).1 (update_spec env b s).1 ∧ (update env b s).2 ≡ (update_spec env b s).2.
Proof. intros Hwf Hb. by destruct (wp_run _ _ _ (wp_update env b s Hwf Hb)) as (s0 & He & Hr & ->). Qed.

(** C7 [update] refines the specification [update_spec], in which the block
    store is a finite map: PRE-COMMIT adopts the justification of the new block
    as highest certificate if it verifies and is higher, COMMIT locks the
    certificate one link up if its block is higher than the locked one, DECIDE
    executes the branch below the third block when both parent links coincide
    with the certificates.  The outcome (nil or error) and the final state, up
    to cache recency, are the specification's. *)
Theorem update_refines b s :
  core_wf s → block_ok (length (qcHeap s)) b →
  (if (update_spec env b s).1 then (update env b s).1 = Ok tt
   else ∃ e, (update env b s).1 = Fail e)
  ∧ (update env b s).2 ≡ (update_spec env b s).2.
Proof. apply update_run. Qed.

(** C5 A block is only decided below a three-chain: the events [update] sends
    are at most one new highest certificate followed by decided blocks, and if
    any block is decided then the new block's justification chain reaches
    [b2], [b1], [b0] with [b1] the parent of [b2] and [b0] the parent of [b1],
    and the decided blocks are those on the branch that starts at the hash of
    [b0], as many as [b0] is higher than the last executed block. *)
Theorem decide_three_chain b s :
  core_wf s → block_ok (length (qcHeap s)) b →
  ∃ l, notifyChan (update env b s).2 = notifyChan s ++ high_events b s ++ (DecideEvent <$> l)
    ∧ (l ≠ [] →
       ∃ b2 b1 b0 eb, three_chain s b b2 b1 b0 ∧ qc_block s (execQC s) = Some eb
         ∧ l = branch s (Z.to_nat (wrap64 (Height b0 - Height eb))) (GetBlockHash b0)).
Proof.
  intros Hwf Hb. destruct (update_run b s Hwf Hb) as [_ He].
  rewrite (notifyChan_proper _ _ He).
  destruct (update_spec_events b s) as [Hn|(b2 & b1 & b0 & eb & H3 & Hx & Hn)]; rewrite Hn.
  - exists []. rewrite app_nil_r. done.
  - eexists. split; [done|]. intros _. by exists b2, b1, b0, eb.
Qed.

End update.

Lemma update_refines_witness :
  (update (ToyCore.env 1) ToyCore.b4 ToyCore.s3').1 = Ok tt
  ∧ (update (ToyCore.env 1) ToyCore.b4 ToyCore.s3').2
    ≡ (update_spec (ToyCore.env 1) ToyCore.b4 ToyCore.s3').2.
Proof.
  pose proof (update_refines (ToyCore.env 1) ToyCore.b4 ToyCore.s3'
    (ToyCore.reachable_wf _ ToyCore.s3'_reachable) ToyCore.b4_ok) as Hr.
  replace ((update_spec (ToyCore.env 1) ToyCore.b4 ToyCore.s3').1) with true in Hr by ToyCore.by_vm.
  exact Hr.
Defined.

Lemma decide_three_chain_witness :
  ∃ l, notifyChan (update (ToyCore.env 1) ToyCore.b4 ToyCore.s3').2
       = notifyChan ToyCore.s3' ++ high_events (ToyCore.env 1) ToyCore.b4 ToyCore.s3' ++ (DecideEvent <$> l)
    ∧ (l ≠ [] →
       ∃ b2 b1 b0 eb, three_chain ToyCore.s3' ToyCore.b4 b2 b1 b0
         ∧ qc_block ToyCore.s3' (execQC ToyCore.s3') = Some eb
         ∧ l = branch ToyCore.s3' (Z.to_nat (wrap64 (Height b0 - Height eb))) (GetBlockHash b0)).
Proof.
  exact (decide_three_chain (ToyCore.env 1) ToyCore.b4 ToyCore.s3'
    (ToyCore.reachable_wf _ ToyCore.s3'_reachable) ToyCore.b4_ok).
Defined.


Section commits.
Context {DB E : Type} `{DatabaseLaws DB string (Block QCRef)} (env : CoreEnv E).
Implicit Types (s : HotStuffCore DB) (b : Block QCRef).

(** Consecutive blocks differ by one in height. *)
Fixpoint linked (l : list (Block QCRef)) : bool :=
  match l with
  | x :: l' => match l' with
               | y :: _ => bool_decide (Height x = Height y + 1)%Z && linked l'
               | [] => true
               end
  | [] => true
  end.

Lemma linked_heights l : ∀ x,
  linked (x :: l) = true →
  Height <$> (x :: l) = reverse (seqZ (Height x - Z.of_nat (length l)) (Z.of_nat (S (length l)))).
Proof.
  induction l as [|y l IH]; intros x Hl.
  - simpl. rewrite Z.sub_0_r. done.
  - cbn [linked] in Hl. apply andb_true_iff in Hl as [Hh%bool_decide_eq_true Hl].
    specialize (IH y Hl). rewrite fmap_cons, IH. cbn [length].
    rewrite (seqZ_S _ (S (length l))), reverse_snoc.
    f_equal; [lia|]. do 2 f_equal; lia.
Qed.

Lemma direct_chain b b2 b1 b0 s :
  three_chain s b b2 b1 b0 →
  update_spec env b s
  = commit b0 b1 (adopt_lock b1 (Justify b2) (adopt_high env b2 (Justify b) s)).
Proof.
  intros (H2 & H1 & H0' & Hp2 & Hp1). unfold update_spec. rewrite H2, H1, H0'.
  unfold direct. rewrite !bool_decide_eq_true_2 by done. done.
Qed.

(** C6 Decisions are contiguous: when a three-chain [b0 <- b1 <- b2] commits and
    the stored branch below [b0] is linked by height, [update] decides exactly
    the heights between the last executed block and [b0], each once, from [b0]
    downwards, and [b0] becomes the last executed block, so that the next
    commit continues where this one ended. *)
Theorem update_commits b b2 b1 b0 eb s :
  core_wf s → block_ok (length (qcHeap s)) b →
  three_chain s b b2 b1 b0 → qc_block s (execQC s) = Some eb →
  is_int64 (Height b0 - Height eb) →
  let n := Z.to_nat (Height b0 - Height eb) in
  let l := branch s n (GetBlockHash b0) in
  length l = n → stored s (GetBlockHash b0) = Some b0 → linked l = true →
  (update env b s).1 = Ok tt
  ∧ notifyChan (update env b s).2 = notifyChan s ++ high_events env b s ++ (DecideEvent <$> l)
  ∧ Height <$> l = reverse (seqZ (Height eb + 1) (Z.of_nat n))
  ∧ qc_block (update env b s).2 (execQC (update env b s).2) = Some b0.
Proof.
  intros Hwf Hb H3 Hx Hi n l Hl Hst Hlink. destruct (update_run env b s Hwf Hb) as [Hr He].
  rewrite (notifyChan_proper _ _ He), He.
  rewrite (direct_chain b b2 b1 b0) in * by done.
  destruct (adopt_high_same env b2 (Justify b) s) as [Hh1 Hc1].
  destruct (adopt_lock_same b1 (Justify b2) (adopt_high env b2 (Justify b) s)) as [Hh2 Hc2].
  pose proof (adopt_exec env b2 (Justify b) b1 (Justify b2) s) as Hx2.
  pose proof (adopt_lock_notify b1 (Justify b2) (adopt_high env b2 (Justify b) s)) as Hn2.
  rewrite (adopt_high_notify env b b2 s) in Hn2 by apply H3.
  set (s2 := adopt_lock _ _ _) in *. rewrite Hh1 in Hh2. rewrite Hc1 in Hc2.
  unfold commit in *. rewrite Hx2, (qc_block_same s s2), Hx in * by done.
  unfold exec_gap in *. rewrite wrap64_id in * by done. fold n in Hr |- *.
  rewrite (branch_ext s s2) in * by (intros h; unfold stored; by rewrite Hc2). fold l in Hr |- *.
  rewrite bool_decide_eq_true_2 in Hr by done. split; [exact Hr|]. split_and!.
  - unfold emit. cbn [snd set_notifyChan set_execQC notifyChan]. by rewrite Hn2, <-app_assoc.
  - destruct n as [|n'] eqn:En; [done|]. unfold l in *. cbn [branch] in *. rewrite Hst in *.
    rewrite linked_heights by done. cbn [length] in Hl. injection Hl as Hl. rewrite Hl.
    do 2 f_equal. lia.
  - unfold emit. cbn [snd set_notifyChan set_execQC execQC]. rewrite (qc_block_same s) by done.
    apply H3.
Qed.

End commits.

Lemma update_commits_witness :
  (update (ToyCore.env 1) ToyCore.b4 ToyCore.s3').1 = Ok tt
  ∧ notifyChan (update (ToyCore.env 1) ToyCore.b4 ToyCore.s3').2
    = notifyChan ToyCore.s3' ++ high_events (ToyCore.env 1) ToyCore.b4 ToyCore.s3' ++ [DecideEvent ToyCore.b1]
  ∧ qc_block (update (ToyCore.env 1) ToyCore.b4 ToyCore.s3').2
      (execQC (update (ToyCore.env 1) ToyCore.b4 ToyCore.s3').2) = Some ToyCore.b1.
Proof.
  assert (Hl : branch ToyCore.s3' 1 (GetBlockHash ToyCore.b1) = [ToyCore.b1]) by ToyCore.by_vm.
  destruct (update_commits (ToyCore.env 1) ToyCore.b4 ToyCore.b3 ToyCore.b2 ToyCore.b1
    (set_SelfQc (Some 0%nat) genesis) ToyCore.s3'
    (ToyCore.reachable_wf _ ToyCore.s3'_reachable) ToyCore.b4_ok) as (Hr & Hn & _ & Hx).
  - repeat split; ToyCore.by_vm.
  - ToyCore.by_vm.
  - apply (bool_decide_unpack _). vm_compute. exact I.
  - ToyCore.by_vm.
  - ToyCore.by_vm.
  - ToyCore.by_vm.
  - change (Z.to_nat _) with 1%nat in Hn. rewrite Hl in Hn. split; [exact Hr|]. split; [exact Hn|exact Hx].
Defined.

(** ** Votes *)

Section votes.
Context {DB E : Type} `{DatabaseLaws DB string (Block QCRef)} (env : CoreEnv E).
Implicit Types (s : HotStuffCore DB) (b : Block QCRef).

Let q := GetQuorumSize (Metadata (replicas env)).

Lemma add_votes_lookup votes : ∀ m i,
  add_votes m votes !! i
  = match m !! i with
    | Some c => Some c
    | None => vote_Cert <$> head (filter (λ v, vote_Voter v = i) votes)
    end.
Proof.
  induction votes as [|v votes IH]; intros m i; simpl; [by destruct (m !! i)|].
  rewrite filter_cons. destruct (m !! vote_Voter v) as [c|] eqn:Hv; rewrite IH.
  - destruct (m !! i) eqn:Hi; [done|]. case_decide; [congruence|done].
  - destruct (decide (vote_Voter v = i)) as [<-|Hne].
    + by rewrite lookup_insert_eq, Hv.
    + rewrite lookup_insert_ne by done. done.
Qed.

(** The signatures of a certificate after a vote for its block was counted: the
    vote, and the first buffered vote of every voter not yet in it. *)
Definition counted_signs vote qc s (m : gmap Z (option PartCert)) : Prop :=
  ∀ i, m !! i = match <[vote_Voter vote := vote_Cert vote]> (signs qc) !! i with
                | Some c => Some c
                | None => vote_Cert <$> head (filter (λ v, vote_Voter v = i)
                            (default [] (voteSet s !! EncodeToString (qc_BlockHash qc))))
                end.

(** [UpdateHighestQC] from a state with the certificate written. *)
Lemma finish_run b r s :
  core_wf s → SelfQc b = Some r → (r < length (qcHeap s))%nat →
  let out := (_ ← UpdateHighestQC env b (SelfQc b);
              notify (QcFinishEvent (Proposer b) (SelfQc b))) s in
  out.1 = Ok tt ∧ out.2 ≡ emit [QcFinishEvent (Proposer b) (SelfQc b)] (adopt_high env b (SelfQc b) s).
Proof.
  intros Hwf Hr Hlt out.
  assert (Hw : wp (_ ← UpdateHighestQC env b (SelfQc b);
              notify (QcFinishEvent (Proposer b) (SelfQc b))) s
    (λ r s0, r = Ok tt ∧ s0 = emit [QcFinishEvent (Proposer b) (SelfQc b)] (adopt_high env b (SelfQc b) s))).
  { apply wp_bind. eapply wp_mono; [apply wp_UpdateHighestQC; [done|by exists r]|].
    intros ? s0 [-> ->]. by apply wp_notify. }
  by destruct (wp_run _ _ _ Hw) as (s0 & He & Ho & ->).
Qed.

(** C14 The vote handler on every branch.  A vote for a block that is not stored
    is buffered; once the block's certificate holds a quorum further votes are
    ignored; a second vote of the same replica is an error; otherwise the vote
    and the buffered votes of further replicas are added, and when that
    completes the quorum the certificate is offered as highest certificate and
    [QcFinishEvent] is sent, once.  State equalities are up to cache recency. *)
Theorem OnProposalVote_outcome vote s :
  core_wf s → is_Some (vote_Cert vote) →
  let out := OnProposalVote env vote s in
  let key := EncodeToString (vote_BlockHash vote) in
  match stored s (vote_BlockHash vote) with
  | None => out.1 = Ok tt
      ∧ out.2 ≡ set_voteSet (<[key := default [] (voteSet s !! key) ++ [vote]]> (voteSet s)) s
  | Some b =>
      ∃ r qc, SelfQc b = Some r ∧ qcHeap s !! r = Some qc ∧
        if decide (q ≤ len_signs qc)%Z then out.1 = Ok tt ∧ out.2 ≡ s
        else if decide (is_Some (signs qc !! vote_Voter vote)) then
          out.1 = Fail (ErrDuplicateVote (vote_BlockHash vote) (vote_Voter vote)) ∧ out.2 ≡ s
        else ∃ m, counted_signs vote qc s m ∧ out.1 = Ok tt ∧
          let s1 := set_voteSet (delete (EncodeToString (qc_BlockHash qc)) (voteSet s))
                      (set_qcHeap (<[r := set_signs m qc]> (qcHeap s)) s) in
          if decide (Z.of_nat (size m) < q)%Z then out.2 ≡ s1
          else out.2 ≡ emit [QcFinishEvent (Proposer b) (SelfQc b)] (adopt_high env b (SelfQc b) s1)
  end.
Proof.
  intros Hwf Hc out key. destruct (stored s (vote_BlockHash vote)) as [b|] eqn:Hb.
  2: { destruct (OnProposalVote_unknown env vote s (wf_store s Hwf) Hb) as (s' & Ho & He).
       unfold out. by rewrite Ho. }
  destruct (wf_lookup _ _ (proj1 (wf_blocks s Hwf _ _ Hb))) as (r & qc & Hr & Hq).
  exists r, qc. split; [done|]. split; [done|]. case_decide as Hfull.
  { destruct (OnProposalVote_full env vote s b r qc (wf_store s Hwf) Hb Hr Hq Hfull) as (s' & Ho & He).
    unfold out. by rewrite Ho. }
  case_decide as Hdup.
  { destruct (OnProposalVote_duplicate env vote s b r qc (wf_store s Hwf) Hb Hr Hq ltac:(unfold q in *; lia) Hdup)
      as (s' & Ho & He). unfold out. by rewrite Ho. }
  apply eq_None_not_Some in Hdup.
  destruct (OnProposalVote_counted env vote s b r qc (wf_store s Hwf) Hb Hr Hq ltac:(unfold q in *; lia) Hdup)
    as (s1 & He1 & Hok1 & Ho).
  set (m := new_signs vote s qc) in *. exists m.
  split; [intros i; apply add_votes_lookup|]. cbv zeta in Ho.
  set (s2 := record_vote r qc _ s1) in Ho.
  set (t2 := set_voteSet _ (set_qcHeap _ s)).
  assert (He2 : s2 ≡ t2).
  { unfold s2, t2, record_vote, m, new_signs. cbv zeta. by rewrite He1. }
  fold q in Ho. unfold out. rewrite Ho. cbv zeta. destruct (decide (Z.of_nat (size m) < q)%Z).
  { by split. }
  assert (Hwf2 : core_wf t2).
  { eapply core_wf_eqv; [exact He2|]. apply wf_record_vote; [by eapply core_wf_eqv|by rewrite He1|].
    apply map_Forall_insert_2; [done|]. by eapply (wf_certs s Hwf). }
  assert (Hlt : (r < length (qcHeap t2))%nat).
  { unfold t2. simpl. rewrite length_insert. by eapply lookup_lt_Some. }
  rewrite <-(eqv_heap _ _ He2) in Hlt.
  destruct (finish_run b r s2 (core_wf_eqv _ _ (symmetry He2) Hwf2) Hr Hlt) as [Hok Hs].
  split; [exact Hok|]. rewrite Hs. f_equiv. by apply adopt_high_proper.
Qed.

End votes.

Lemma OnProposalVote_outcome_witness :
  let qc := default (Toy.qc 0 [] []) (qcHeap ToyCore.s1v !! 2%nat) in
  let out := OnProposalVote (ToyCore.env 1) (ToyCore.vote1 3) ToyCore.s1v in
  ∃ m, counted_signs (ToyCore.vote1 3) qc ToyCore.s1v m ∧ out.1 = Ok tt.
Proof.
  assert (Hst : stored ToyCore.s1v ToyCore.h1 = Some ToyCore.b1) by ToyCore.by_vm.
  pose proof (OnProposalVote_outcome (ToyCore.env 1) (ToyCore.vote1 3) ToyCore.s1v
    (ToyCore.reachable_wf _ ToyCore.s1v_reachable)
    (ex_intro _ _ eq_refl)) as Hv.
  cbv zeta in Hv. change (vote_BlockHash (ToyCore.vote1 3)) with ToyCore.h1 in Hv.
  rewrite Hst in Hv. destruct Hv as (r & qc & Hr & Hq & Hv).
  injection Hr as <-. intros qc0 out. unfold qc0. rewrite Hq. simpl default.
  assert (Hlen : option_map len_signs (qcHeap ToyCore.s1v !! 2%nat) = Some 2%Z) by ToyCore.by_vm.
  assert (Hin : option_map (λ qc, signs qc !! 3%Z) (qcHeap ToyCore.s1v !! 2%nat) = Some None) by ToyCore.by_vm.
  rewrite Hq in Hlen, Hin. injection Hlen as Hlen. injection Hin as Hin.
  rewrite decide_False in Hv by (rewrite Hlen; vm_compute; congruence).
  rewrite decide_False in Hv by (change (vote_Voter (ToyCore.vote1 3)) with 3%Z; rewrite Hin; by intros [? ?]).
  destruct Hv as (m & Hm & Ho & _). exists m. split; [exact Hm|exact Ho].
Defined.

(** The third vote completes the certificate: replica 1 adopts it as highest
    certificate and reports [b1] finished. *)
Example third_vote_finishes :
  let s' := (OnProposalVote (ToyCore.env 1) (ToyCore.vote1 3) ToyCore.s1v).2 in
  drop (length (notifyChan ToyCore.s1v)) (notifyChan s')
  = [HqcUpdateEvent (Some 2%nat); QcFinishEvent 0 (Some 2%nat)]
  ∧ genericQC s' = Some 2%nat.
Proof. split; ToyCore.by_vm. Qed.
