(* ===== verification/CoreProposals.v ===== *)
(** * Properties of the proposal handlers

    The voting rule, [OnReceiveProposal] and [OnPropose] of
    [consensus/consensus.go], and concrete executions that show what the
    handlers do not check. *)

From stdpp Require Import base numbers fin_maps fin_map_dom gmap sets strings list.
From Stdlib Require Import Strings.Byte.
From S2P Require Import Prelude GoMonad Encoding Types Database LRUCache Entity Core.
From S2P Require Import CoreLemmas CoreSafety CoreSpec CoreProps.

Section proposals.
Context {DB E : Type} `{DatabaseLaws DB string (Block QCRef)} (env : CoreEnv E).
Implicit Types (s : HotStuffCore DB) (b : Block QCRef).

(** ** The voting rule *)

(** The block extends the locked one: following parents down to the locked
    height arrives at a block with the locked block's hash. *)
Definition extends_lock s b lb : Prop :=
  ∃ a, ancestor s (Z.to_nat (wrap64 (Height b - Height lb))) b = Some a
       ∧ qc_hash s (SelfQc a) = qc_hash s (SelfQc lb).

Lemma rule_true b s :
  rule_outcome b s = Some true ↔
  (voteHeight s < Height b)%Z
  ∧ ∃ jb lb, qc_block s (Justify b) = Some jb ∧ qc_block s (lockedQC s) = Some lb
      ∧ ((Height lb < Height jb)%Z ∨ extends_lock s b lb).
Proof.
  unfold rule_outcome, extends_lock. split.
  - case_decide as Hv; [|done]. intros Hr. split; [done|].
    destruct (qc_block s (Justify b)) as [jb|]; [|done]. simpl in Hr.
    destruct (qc_block s (lockedQC s)) as [lb|]; [|done]. simpl in Hr.
    exists jb, lb. split_and!; [done..|]. case_decide; [by left|right].
    destruct (ancestor _ _ _) as [a|]; [|done]. simpl in Hr. injection Hr as Hr.
    apply bool_decide_eq_true in Hr. by exists a.
  - intros (Hv & jb & lb & -> & -> & Hc). rewrite decide_True by done. simpl.
    case_decide; [done|]. destruct Hc as [|(a & -> & Heq)]; [done|]. simpl.
    by rewrite bool_decide_eq_true_2.
Qed.

(** C11 The voting rule: [OnReceiveProposal] raises the vote height to the
    proposed block's exactly when the block is higher than the vote height, its
    justification and the locked block are stored, and the block is justified
    above the lock (liveness) or extends the locked block (safety); otherwise the
    rule changes nothing.  The vote height is the height of the last block that
    passed the rule or was proposed by this replica; votes are also cast for
    blocks the rule refuses, which leave it where it is. *)
Theorem vote_rule_sound b s :
  core_wf s → block_ok (length (qcHeap s)) b →
  let passes := (voteHeight s < Height b)%Z
    ∧ ∃ jb lb, qc_block s (Justify b) = Some jb ∧ qc_block s (lockedQC s) = Some lb
        ∧ ((Height lb < Height jb)%Z ∨ extends_lock s b lb) in
  (passes ∧ vote_rule b s = (Ok tt, (vote_rule b s).2)
     ∧ (vote_rule b s).2 ≡ set_voteHeight (Height b) s)
  ∨ (¬ passes ∧ (vote_rule b s).2 ≡ s).
Proof.
  intros Hwf Hb passes. destruct (wp_run _ _ _ (wp_vote_rule b s Hwf Hb)) as (s0 & He & Hr & Hs).
  unfold passes. rewrite <-rule_true. unfold apply_rule, returned in *.
  case_decide as Hd; subst.
  - left. rewrite bool_decide_eq_true_2 in Hr by eauto. split_and!; [done| |done].
    by rewrite <-Hr, <-surjective_pairing.
  - by right.
Qed.

(** ** Receiving a proposal *)

(** [OnReceiveProposal] stores the block, wakes waiters, and accepts the
    proposal or waits. *)
Lemma receive_run ent prop b s :
  core_wf s → prop_ok (length (qcHeap s)) prop → prop_Block prop = Some b →
  let out := OnReceiveProposal env ent prop s in
  ∃ h s1, core_wf s1 ∧ qc_hash s (SelfQc b) = Some h ∧ stored s1 h = Some b
    ∧ (∀ k, k ≠ h → stored s1 k = None ∨ stored s1 k = stored s k)
    ∧ s1 = set_condGen (S (condGen s)) (set_blockCache (blockCache s1) s)
    ∧ if decide (is_Some (qc_block s1 (Justify b)))
      then returned out.1 (accept_spec env ent prop b s1).1 ∧ out.2 ≡ (accept_spec env ent prop b s1).2
      else ∃ jh, qc_hash s (Justify b) = Some jh ∧ out.1 = Park (WaitBlock jh) ∧ out.2 ≡ s1.
Proof.
  intros Hwf (b' & Hb' & Hsq & Hj) Hb out. rewrite Hb in Hb'. injection Hb' as <-.
  destruct (wf_lookup _ _ Hsq) as (r & qc & Hr & Hq).
  destruct (wf_lookup _ _ Hj) as (j & jq & Hjr & Hjq).
  assert (Hbok : block_ok (length (qcHeap s)) b) by (split; [done|by right]).
  destruct (StoreBlock_run b s r qc (wf_store s Hwf) Hr Hq) as (s1 & Hrun & Hok & Hthis & Hothers & Heq).
  destruct (wf_store_block b s r qc Hwf Hbok Hr Hq) as (s1' & Hrun' & Hwf1 & Hh1).
  rewrite Hrun in Hrun'. injection Hrun' as <-.
  set (s2 := set_condGen (S (condGen s1)) s1).
  assert (Hwf2 : core_wf s2) by (by apply wf_set_cond).
  exists (qc_BlockHash qc), s2. split_and!.
  - done.
  - rewrite Hr. by apply qc_hash_lookup.
  - done.
  - exact Hothers.
  - unfold s2. rewrite Heq. done.
  - unfold out, OnReceiveProposal. rewrite Hb, run_orPanic, Hr.
    rewrite (run_bind_Ok _ _ _ _ _ (deref_run r s qc Hq)), (run_bind_Ok _ _ _ _ _ Hrun).
    unfold cond_Broadcast. rewrite run_modify. fold s2. rewrite Hjr.
    assert (Hjq2 : qcHeap s2 !! j = Some jq) by (unfold s2; simpl; by rewrite Hh1).
    rewrite (run_bind_Ok _ _ _ _ _ (deref_run j s2 jq Hjq2)), (qc_block_lookup _ _ _ Hjq2).
    unfold AsyncWaitBlock. rewrite bind_assoc.
    destruct (LoadBlock_run (qc_BlockHash jq) s2 (wf_store s2 Hwf2)) as (x & s3 & Hl & He & _ & Hst).
    rewrite (run_bind_Ok _ _ _ _ _ Hl), Hst. destruct x as [e|jb].
    + rewrite decide_False by (by intros [? ?]). exists (qc_BlockHash jq).
      split; [by apply qc_hash_lookup|]. done.
    + rewrite decide_True by eauto. rewrite (run_bind_Ok (mret (inr jb)) _ s3 (inr jb) s3 (run_ret _ _)).
      destruct (wp_acceptProposal env ent prop b s2 Hwf2 ltac:(unfold s2; simpl; by rewrite Hh1) s3 He) as (s0 & He0 & Hret & ->).
      done.
Qed.

(** The same for a handler resumed after [cond.Wait]. *)
Lemma wake_run ent prop b s :
  core_wf s → prop_ok (length (qcHeap s)) prop → prop_Block prop = Some b →
  let out := OnReceiveProposal_wake env ent prop s in
  if decide (is_Some (qc_block s (Justify b)))
  then returned out.1 (accept_spec env ent prop b s).1 ∧ out.2 ≡ (accept_spec env ent prop b s).2
  else (∃ e, out.1 = Fail e) ∧ out.2 ≡ s.
Proof.
  intros Hwf (b' & Hb' & Hsq & Hj) Hb out. rewrite Hb in Hb'. injection Hb' as <-.
  destruct (wf_lookup _ _ Hj) as (j & jq & Hjr & Hjq).
  unfold out, OnReceiveProposal_wake, AsyncWaitBlock_wake. rewrite Hb, run_orPanic, Hjr.
  rewrite (run_bind_Ok _ _ _ _ _ (deref_run j s jq Hjq)), (qc_block_lookup _ _ _ Hjq).
  destruct (LoadBlock_run (qc_BlockHash jq) s (wf_store s Hwf)) as (x & s3 & Hl & He & _ & Hst).
  rewrite (run_bind_Ok _ _ _ _ _ Hl), Hst. destruct x as [e|jb].
  - rewrite decide_False by (by intros [? ?]). split; [by eexists|done].
  - rewrite decide_True by eauto.
    destruct (wp_acceptProposal env ent prop b s Hwf ltac:(split; [done|by right]) s3 He)
      as (s0 & He0 & Hret & ->).
    done.
Qed.

(** C12 [OnReceiveProposal] on every branch: the block is stored under the hash
    its own certificate names and waiters are woken; if the justified block is
    not stored the handler waits for it; otherwise the core is updated, the
    voting rule applied, and on success the last event is the replica's own
    signed vote for the block. *)
Theorem OnReceiveProposal_outcome ent prop b s :
  core_wf s → prop_ok (length (qcHeap s)) prop → prop_Block prop = Some b →
  let out := OnReceiveProposal env ent prop s in
  ∃ h s1, qc_hash s (SelfQc b) = Some h ∧ stored s1 h = Some b
    ∧ s1 = set_condGen (S (condGen s)) (set_blockCache (blockCache s1) s)
    ∧ if decide (is_Some (qc_block s1 (Justify b)))
      then returned out.1 (accept_spec env ent prop b s1).1 ∧ out.2 ≡ (accept_spec env ent prop b s1).2
      else ∃ jh, qc_hash s (Justify b) = Some jh ∧ out.1 = Park (WaitBlock jh) ∧ out.2 ≡ s1.
Proof.
  intros Hwf Hp Hb out. destruct (receive_run ent prop b s Hwf Hp Hb) as (h & s1 & _ & Hh & Hs & _ & He).
  by exists h, s1.
Qed.

(** A vote is sent whether or not the voting rule passes: for every proposal
    at or below the vote height whose block and justification are known and
    that [update] accepts, [OnReceiveProposal] sends the replica's signed vote
    and leaves the vote height where it was. *)
Theorem vote_regardless_of_rule ent prop b s1 h sig :
  core_wf s1 → block_ok (length (qcHeap s1)) b →
  (update_spec env b s1).1 = true → (Height b ≤ voteHeight (update_spec env b s1).2)%Z →
  qc_hash s1 (SelfQc b) = Some h → Sign env ent h = inr sig →
  let out := acceptProposal env ent prop b s1 in
  out.1 = Ok tt
  ∧ last (notifyChan out.2)
    = Some (ReceiveProposalEvent prop
        (MkVote (prop_ViewNumber prop) (id env) h (Some (MkPartCert (id env) sig))))
  ∧ voteHeight out.2 = voteHeight (update_spec env b s1).2.
Proof.
  intros Hwf Hb Hu Hle Hh Hsig out.
  destruct (wp_run _ _ _ (wp_acceptProposal env ent prop b s1 Hwf Hb)) as (s0 & He & Hr & ->).
  assert (Hro : rule_outcome b (update_spec env b s1).2 = Some false).
  { unfold rule_outcome. rewrite decide_False by lia. done. }
  unfold accept_spec in He, Hr. rewrite Hu, Hro, Hh, Hsig in He, Hr.
  unfold apply_rule in He. rewrite Hro, decide_False in He by done.
  unfold out. split; [exact Hr|]. rewrite (notifyChan_proper _ _ He), (voteHeight_proper _ _ He).
  split; [|done]. unfold emit. cbn [snd set_notifyChan notifyChan]. by rewrite last_snoc.
Qed.

(** ** Proposing *)

(** The replica's own vote on a certificate without signatures. *)
Lemma first_vote vote b r qc s :
  core_wf s → is_Some (vote_Cert vote) → stored s (vote_BlockHash vote) = Some b →
  SelfQc b = Some r → qcHeap s !! r = Some qc → signs qc = ∅ →
  (0 < GetQuorumSize (Metadata (replicas env)))%Z →
  let out := OnProposalVote env vote s in
  out.1 = Ok tt ∧ voteHeight out.2 = voteHeight s ∧ (∀ h, stored out.2 h = stored s h)
  ∧ ∃ qc', qcHeap out.2 !! r = Some qc' ∧ qc_ViewNumber qc' = qc_ViewNumber qc
      ∧ qc_BlockHash qc' = qc_BlockHash qc ∧ signs qc' !! vote_Voter vote = Some (vote_Cert vote).
Proof.
  intros Hwf Hc Hb Hr Hq He Hpos out.
  destruct (OnProposalVote_counted env vote s b r qc (wf_store s Hwf) Hb Hr Hq) as (s1 & He1 & Hok1 & Ho).
  { unfold len_signs. rewrite He, map_size_empty. lia. }
  { by rewrite He, lookup_empty. }
  cbv zeta in Ho. set (s2 := record_vote r qc _ s1) in Ho.
  assert (Hwf2 : core_wf s2).
  { apply wf_record_vote; [by eapply core_wf_eqv|by rewrite He1|].
    apply map_Forall_insert_2; [done|]. by eapply (wf_certs s Hwf). }
  assert (Hq2 : qcHeap s2 !! r = Some (set_signs (new_signs vote s qc) qc)).
  { unfold s2, record_vote, new_signs. simpl. rewrite He1. apply list_lookup_insert_eq.
    by eapply lookup_lt_Some. }
  assert (Hst2 : ∀ h, stored s2 h = stored s h) by (intros h; by rewrite <-He1).
  assert (Hown : signs (set_signs (new_signs vote s qc) qc) !! vote_Voter vote = Some (vote_Cert vote)).
  { unfold new_signs. simpl. eapply lookup_weaken; [|apply add_votes_subseteq]. apply lookup_insert_eq. }
  assert (Hvh : voteHeight s2 = voteHeight s) by (unfold s2, record_vote; simpl; by rewrite He1).
  unfold out. rewrite Ho. case_decide.
  { split_and!; [done..|]. eauto. }
  destruct (finish_run env b r s2 Hwf2 Hr ltac:(by eapply lookup_lt_Some)) as [Hok Hs].
  split_and!; [done|rewrite (voteHeight_proper _ _ Hs)| |].
  - unfold emit, adopt_high. destruct (_ && _); done.
  - intros h. rewrite Hs. unfold emit, adopt_high. destruct (_ && _); apply Hst2.
  - rewrite (qcHeap_proper _ _ Hs). unfold emit. cbn [set_notifyChan qcHeap].
    rewrite (proj1 (adopt_high_same env b (SelfQc b) s2)). eauto.
Qed.

(** [proto.Clone] makes an equal copy. *)
Hypothesis clone_copies : ∀ qc, clone env qc = qc.

Lemma createLeaf_run now p c h s g gq :
  genericQC s = Some g → qcHeap s !! g = Some gq →
  createLeaf env now p c h s
  = (Ok (MkBlock p c (id env) h now (Some (length (qcHeap s))) None),
     set_qcHeap (qcHeap s ++ [gq]) s).
Proof.
  intros Hg Hq. unfold createLeaf. rewrite run_gets, Hg. rewrite bind_assoc.
  rewrite (run_bind_Ok _ _ _ _ _ (deref_run g s gq Hq)), clone_copies. done.
Qed.

(** The block [OnPropose] creates in state [s], its two certificates at the end
    of the heap, and the state in which it is stored. *)
Definition leaf now (parentHash cmds : bytes) height s : Block QCRef :=
  MkBlock parentHash cmds (id env) height now
    (Some (length (qcHeap s))) (Some (S (length (qcHeap s)))).

Definition leaf_heap now curView parentHash cmds height gq s : list QuorumCert :=
  qcHeap s ++ [gq; MkQuorumCert curView (GetBlockHash (leaf now parentHash cmds height s)) (Some ∅)].

Lemma LoadBlock_cache h s r s' :
  LoadBlock h s = (Ok r, s') → s' = set_blockCache (blockCache s') s.
Proof.
  unfold LoadBlock. destruct (db_get _ _) as [x d]. intros [= _ <-]. done.
Qed.

(** [OnPropose] from the creation of the block on. *)
Definition propose_leaf (ent : E) (curView : Z) (nb : Block QCRef) (h : bytes)
    : M (HotStuffCore DB) unit :=
  _ ← StoreBlock nb;
  _ ← update env nb;
  _ ← setVoteHeight (Height nb);
  vote ← voteProposal env ent curView (Height nb) h;
  _ ← OnProposalVote env vote;
  notify (ProposeEvent (MkProposal curView (Some nb))).

Lemma OnPropose_leaf now ent curView parentHash cmds pb s g gq :
  store_ok s → stored s parentHash = Some pb →
  genericQC s = Some g → qcHeap s !! g = Some gq →
  (voteHeight s < wrap64 (Height pb + 1))%Z →
  let height := wrap64 (Height pb + 1) in
  let nb := leaf now parentHash cmds height s in
  ∃ s0, s0 ≡ s ∧ s0 = set_blockCache (blockCache s0) s ∧ LoadBlock parentHash s = (Ok (inr pb), s0) ∧
    OnPropose env now ent curView parentHash cmds s
    = propose_leaf ent curView nb (GetBlockHash nb)
        (set_qcHeap (leaf_heap now curView parentHash cmds height gq s) s0).
Proof.
  intros Hs Hp Hg Hq Hlt height nb.
  destruct (LoadBlock_found _ s pb Hs Hp) as (s0 & Hl & He & Hok0).
  pose proof (LoadBlock_cache _ _ _ _ Hl) as Hc. exists s0. split_and!; [done..|].
  unfold OnPropose. rewrite (run_bind_Ok _ _ _ _ _ Hl).
  assert (Hg0 : genericQC s0 = Some g) by (by rewrite He).
  assert (Hq0 : qcHeap s0 !! g = Some gq) by (by rewrite He).
  rewrite (run_bind_Ok _ _ _ _ _ (createLeaf_run _ _ _ _ s0 g gq Hg0 Hq0)).
  unfold GetVoteHeight. rewrite run_gets. cbn [Height set_qcHeap voteHeight].
  rewrite (voteHeight_proper _ _ He), decide_False by lia. cbv zeta.
  rewrite (qcHeap_proper _ _ He). unfold alloc_qc. rewrite bind_assoc, run_gets.
  cbn [qcHeap set_qcHeap]. rewrite length_app. cbn [length]. rewrite Nat.add_1_r.
  unfold propose_leaf, leaf_heap. rewrite <-app_assoc. done.
Qed.

(** [propose_leaf] up to the replica's vote on its own block. *)
Lemma propose_leaf_steps ent curView nb r qc h s :
  core_wf s → block_ok (length (qcHeap s)) nb → SelfQc nb = Some r →
  qcHeap s !! r = Some qc → qc_BlockHash qc = h →
  let out := propose_leaf ent curView nb h s in
  ∃ s1, core_wf s1 ∧ stored s1 h = Some nb
    ∧ (∀ k, k ≠ h → stored s1 k = None ∨ stored s1 k = stored s k)
    ∧ s1 = set_blockCache (blockCache s1) s
    ∧ match (update_spec env nb s1).1, Sign env ent h with
      | false, _ => (∃ e, out.1 = Fail e) ∧ out.2 ≡ (update_spec env nb s1).2
      | true, inl e => out.1 = Fail e ∧ out.2 ≡ set_voteHeight (Height nb) (update_spec env nb s1).2
      | true, inr sig =>
          ∃ s3, core_wf s3 ∧ s3 ≡ set_voteHeight (Height nb) (update_spec env nb s1).2
            ∧ out = (_ ← OnProposalVote env (vote_for env curView h sig);
                     notify (ProposeEvent (MkProposal curView (Some nb)))) s3
      end.
Proof.
  intros Hwf Hb Hr Hq Hh out.
  destruct (StoreBlock_run nb s r qc (wf_store s Hwf) Hr Hq) as (s1 & Hrun & _ & Hthis & Hothers & Heq).
  destruct (wf_store_block nb s r qc Hwf Hb Hr Hq) as (s1' & Hrun' & Hwf1 & Hh1).
  rewrite Hrun in Hrun'. injection Hrun' as <-. rewrite Hh in Hthis, Hothers.
  exists s1. split_and!; [done..|].
  assert (Hb1 : block_ok (length (qcHeap s1)) nb) by (by rewrite Hh1).
  unfold out, propose_leaf. rewrite (run_bind_Ok _ _ _ _ _ Hrun).
  destruct (update_run env nb s1 Hwf1 Hb1) as [Hret He].
  pose proof (wf_update_spec env nb s1 Hwf1 Hb1) as Hwf2.
  unfold returned in Hret. destruct (update env nb s1) as [x s2] eqn:Hu. simpl in Hret, He.
  destruct ((update_spec env nb s1).1).
  2: { destruct Hret as [e ->]. rewrite (run_bind_Fail _ _ _ _ _ Hu). split; [by exists e|done]. }
  subst x. rewrite (run_bind_Ok _ _ _ _ _ Hu). unfold setVoteHeight. rewrite run_modify.
  unfold voteProposal, createPartCert. rewrite !bind_assoc.
  destruct (Sign env ent h) as [e|sig].
  { rewrite (run_bind_Fail (orFail (inl e)) _ _ e _ eq_refl). split; [done|]. simpl. by rewrite He. }
  rewrite run_orFail. exists (set_voteHeight (Height nb) s2).
  assert (He3 : set_voteHeight (Height nb) s2 ≡ set_voteHeight (Height nb) (update_spec env nb s1).2)
    by (by rewrite He).
  split_and!; [eapply core_wf_eqv; [symmetry; exact He3|by apply wf_set_height]|done|].
  rewrite (run_bind_Ok (mret _) _ _ _ _ (run_ret _ _)).
  by rewrite (run_bind_Ok (mret _) _ _ _ _ (run_ret _ _)).
Qed.

Lemma propose_leaf_run ent curView nb r qc h s :
  core_wf s → block_ok (length (qcHeap s)) nb → SelfQc nb = Some r →
  qcHeap s !! r = Some qc → qc_BlockHash qc = h → signs qc = ∅ →
  (0 < GetQuorumSize (Metadata (replicas env)))%Z →
  let out := propose_leaf ent curView nb h s in
  ∃ s1, stored s1 h = Some nb ∧ s1 = set_blockCache (blockCache s1) s
    ∧ match (update_spec env nb s1).1, Sign env ent h with
      | false, _ => (∃ e, out.1 = Fail e) ∧ out.2 ≡ (update_spec env nb s1).2
      | true, inl e => out.1 = Fail e ∧ out.2 ≡ set_voteHeight (Height nb) (update_spec env nb s1).2
      | true, inr sig =>
          out.1 = Ok tt ∧ voteHeight out.2 = Height nb ∧ stored out.2 h = Some nb
          ∧ last (notifyChan out.2) = Some (ProposeEvent (MkProposal curView (Some nb)))
          ∧ ∃ qc', qcHeap out.2 !! r = Some qc' ∧ qc_ViewNumber qc' = qc_ViewNumber qc
              ∧ qc_BlockHash qc' = h
              ∧ signs qc' !! id env = Some (Some (MkPartCert (id env) sig))
      end.
Proof.
  intros Hwf Hb Hr Hq Hh Hempty Hpos out.
  destruct (propose_leaf_steps ent curView nb r qc h s Hwf Hb Hr Hq Hh) as (s1 & _ & Hthis & _ & Heq & Hm).
  exists s1. split; [done|]. split; [done|]. fold out in Hm.
  pose proof (update_spec_heap env nb s1) as Hheap. pose proof (update_spec_stored env nb s1) as Hst.
  destruct ((update_spec env nb s1).1); [|done]. destruct (Sign env ent h) as [e|sig]; [done|].
  destruct Hm as (s3 & Hwf3 & He3 & Hout).
  assert (Hst3 : ∀ k, stored s3 k = stored s1 k) by (intros k; rewrite He3; apply Hst).
  destruct (first_vote (vote_for env curView h sig) nb r qc s3 Hwf3 ltac:(by eexists))
    as (Hok & Hvh & Hst4 & qc' & Hq' & Hv' & Hh' & Hs').
  { by rewrite Hst3. }
  { done. }
  { rewrite (qcHeap_proper _ _ He3). simpl. by rewrite Hheap, Heq. }
  { done. } { done. }
  rewrite Hout. destruct (OnProposalVote env _ s3) as [o s4] eqn:Ho. simpl in *. subst o.
  rewrite (run_bind_Ok _ _ _ _ _ Ho). simpl. rewrite (voteHeight_proper _ _ He3) in Hvh.
  split_and!; [done|done| |by rewrite last_snoc|].
  - change (stored (set_notifyChan ?a ?b) ?c) with (stored b c). by rewrite Hst4, Hst3.
  - exists qc'. rewrite <-Hh. done.
Qed.

Lemma OnPropose_no_parent now ent curView parentHash cmds s :
  core_wf s → stored s parentHash = None →
  let out := OnPropose env now ent curView parentHash cmds s in
  out.1 = Fail ErrParentNotFound ∧ out.2 ≡ s.
Proof.
  intros Hwf Hp out. destruct (LoadBlock_missing _ s (wf_store s Hwf) Hp) as (e & s1 & Hl & He & _).
  unfold out, OnPropose. by rewrite (run_bind_Ok _ _ _ _ _ Hl).
Qed.

Lemma OnPropose_low now ent curView parentHash cmds s g gq pb :
  core_wf s → genericQC s = Some g → qcHeap s !! g = Some gq → stored s parentHash = Some pb →
  (wrap64 (Height pb + 1) ≤ voteHeight s)%Z →
  let out := OnPropose env now ent curView parentHash cmds s in
  out.1 = Fail (ErrBelowVoteHeight (wrap64 (Height pb + 1)) (voteHeight s))
  ∧ out.2 ≡ set_qcHeap (qcHeap s ++ [gq]) s.
Proof.
  intros Hwf Hg Hq Hp Hle out.
  destruct (LoadBlock_found _ s pb (wf_store s Hwf) Hp) as (s0 & Hl & He & _).
  unfold out, OnPropose. rewrite (run_bind_Ok _ _ _ _ _ Hl).
  rewrite (run_bind_Ok _ _ _ _ _ (createLeaf_run _ _ _ _ s0 g gq ltac:(by rewrite He) ltac:(by rewrite He))).
  unfold GetVoteHeight. rewrite run_gets. cbn [Height set_qcHeap voteHeight].
  rewrite (voteHeight_proper _ _ He), decide_True by done. split; [done|]. simpl. by rewrite He.
Qed.

(** The state in which [propose_leaf] starts. *)
Lemma OnPropose_start now ent curView parentHash cmds s g gq pb :
  core_wf s → genericQC s = Some g → qcHeap s !! g = Some gq → stored s parentHash = Some pb →
  (voteHeight s < wrap64 (Height pb + 1))%Z →
  let nb := leaf now parentHash cmds (wrap64 (Height pb + 1)) s in
  ∃ t, core_wf t ∧ (∀ k, stored t k = stored s k)
    ∧ t = set_qcHeap (leaf_heap now curView parentHash cmds (wrap64 (Height pb + 1)) gq s)
            (set_blockCache (blockCache t) s)
    ∧ block_ok (length (qcHeap t)) nb
    ∧ qcHeap t !! S (length (qcHeap s)) = Some (MkQuorumCert curView (GetBlockHash nb) (Some ∅))
    ∧ OnPropose env now ent curView parentHash cmds s = propose_leaf ent curView nb (GetBlockHash nb) t.
Proof.
  intros Hwf Hg Hq Hp Hlt nb.
  destruct (OnPropose_leaf now ent curView parentHash cmds pb s g gq (wf_store s Hwf) Hp Hg Hq Hlt)
    as (s0 & He0 & Hs0 & _ & Ho).
  set (t := set_qcHeap _ s0) in Ho. exists t.
  assert (Hlen : length (qcHeap t) = S (S (length (qcHeap s)))).
  { unfold t, leaf_heap. simpl. rewrite length_app. simpl. lia. }
  split_and!; [| |unfold t; by rewrite Hs0| | |done].
  - unfold t, leaf_heap. rewrite <-(qcHeap_proper _ _ He0), cons_middle, app_assoc.
    apply (wf_alloc _ (set_qcHeap (qcHeap s0 ++ [gq]) s0)); [apply wf_alloc|apply certs_ok_empty].
    + by eapply core_wf_eqv.
    + by eapply wf_certs.
  - intros k. change (stored t k) with (stored s0 k). by rewrite He0.
  - rewrite Hlen. split; [eexists|right; eexists]; (split; [done|lia]).
  - unfold t, leaf_heap. simpl. rewrite lookup_app_r by lia.
    rewrite Nat.sub_succ_l, Nat.sub_diag by lia. done.
Qed.

(** [OnPropose] of a block above the vote height, up to the replica's vote. *)
Lemma OnPropose_steps now ent curView parentHash cmds s g gq pb :
  core_wf s → genericQC s = Some g → qcHeap s !! g = Some gq → stored s parentHash = Some pb →
  (voteHeight s < wrap64 (Height pb + 1))%Z →
  let nb := leaf now parentHash cmds (wrap64 (Height pb + 1)) s in
  let h := GetBlockHash nb in
  let out := OnPropose env now ent curView parentHash cmds s in
  ∃ s1, core_wf s1 ∧ stored s1 h = Some nb
    ∧ (∀ k, k ≠ h → stored s1 k = None ∨ stored s1 k = stored s k)
    ∧ s1 = set_qcHeap (qcHeap s ++ [gq; MkQuorumCert curView h (Some ∅)]) (set_blockCache (blockCache s1) s)
    ∧ match (update_spec env nb s1).1, Sign env ent h with
      | false, _ => (∃ e, out.1 = Fail e) ∧ out.2 ≡ (update_spec env nb s1).2
      | true, inl e => out.1 = Fail e ∧ out.2 ≡ set_voteHeight (Height nb) (update_spec env nb s1).2
      | true, inr sig =>
          ∃ s3, core_wf s3 ∧ s3 ≡ set_voteHeight (Height nb) (update_spec env nb s1).2
            ∧ out = (_ ← OnProposalVote env (vote_for env curView h sig);
                     notify (ProposeEvent (MkProposal curView (Some nb)))) s3
      end.
Proof.
  intros Hwf Hg Hq Hp Hlt nb h out.
  destruct (OnPropose_start now ent curView parentHash cmds s g gq pb Hwf Hg Hq Hp Hlt)
    as (t & Hwft & Hstt & Ht & Hnb & Hself & Ho). fold nb in Hnb, Hself, Ho. fold h out in Hself, Ho.
  destruct (propose_leaf_steps ent curView nb _ _ h t Hwft Hnb eq_refl Hself eq_refl)
    as (s1 & Hwf1 & Hst1 & Hothers & Hs1 & Hm). rewrite <-Ho in Hm.
  exists s1. split_and!; [done..| | |done].
  - intros k Hk. rewrite <-Hstt. by apply Hothers.
  - by rewrite Hs1, Ht.
Qed.

(** C13 [OnPropose] on every branch.  Without the parent block, or when the new
    block would not be higher than the vote height, it fails and stores
    nothing.  Otherwise the new block is a child of [parentHash] one higher,
    carries the commands and a copy of the highest certificate, is stored under
    its own hash with a fresh certificate for the current view, and unless
    [update] or the signer fails the replica has voted for it: the vote height
    is the block's, the certificate holds the replica's own signature, and the
    proposal is the last event sent. *)
Theorem OnPropose_outcome now ent curView parentHash cmds s g gq :
  core_wf s → (0 < GetQuorumSize (Metadata (replicas env)))%Z →
  genericQC s = Some g → qcHeap s !! g = Some gq →
  let out := OnPropose env now ent curView parentHash cmds s in
  match stored s parentHash with
  | None => out.1 = Fail ErrParentNotFound ∧ out.2 ≡ s
  | Some pb =>
      let height := wrap64 (Height pb + 1) in
      if decide (height ≤ voteHeight s)%Z then
        out.1 = Fail (ErrBelowVoteHeight height (voteHeight s))
        ∧ out.2 ≡ set_qcHeap (qcHeap s ++ [gq]) s
      else
        let nb := leaf now parentHash cmds height s in
        let h := GetBlockHash nb in
        ∃ s1, stored s1 h = Some nb
          ∧ s1 = set_qcHeap (leaf_heap now curView parentHash cmds height gq s)
                   (set_blockCache (blockCache s1) s)
          ∧ match (update_spec env nb s1).1, Sign env ent h with
            | false, _ => (∃ e, out.1 = Fail e) ∧ out.2 ≡ (update_spec env nb s1).2
            | true, inl e => out.1 = Fail e ∧ out.2 ≡ set_voteHeight height (update_spec env nb s1).2
            | true, inr sig =>
                out.1 = Ok tt ∧ voteHeight out.2 = height ∧ stored out.2 h = Some nb
                ∧ last (notifyChan out.2) = Some (ProposeEvent (MkProposal curView (Some nb)))
                ∧ ∃ qc', qcHeap out.2 !! S (length (qcHeap s)) = Some qc'
                    ∧ qc_ViewNumber qc' = curView ∧ qc_BlockHash qc' = h
                    ∧ signs qc' !! id env = Some (Some (MkPartCert (id env) sig))
            end
  end.
Proof.
  intros Hwf Hpos Hg Hq out. destruct (stored s parentHash) as [pb|] eqn:Hp; [|by apply OnPropose_no_parent].
  intros height. case_decide as Hle; [by apply (OnPropose_low now ent curView parentHash cmds s g)|]. intros nb h.
  destruct (OnPropose_start now ent curView parentHash cmds s g gq pb Hwf Hg Hq Hp ltac:(fold height; lia))
    as (t & Hwft & _ & Ht & Hnb & Hself & Ho).
  destruct (propose_leaf_run ent curView nb (S (length (qcHeap s))) _ h t Hwft Hnb eq_refl Hself
    eq_refl eq_refl Hpos) as (s1 & Hst & Hs1 & Hm).
  exists s1. split; [done|]. split; [rewrite Hs1, Ht; done|].
  unfold out. rewrite Ho. exact Hm.
Qed.

End proposals.

(** ** Witnesses *)

Lemma vote_rule_sound_witness :
  (vote_rule ToyCore.b4 ToyCore.s3').2 ≡ set_voteHeight 4 ToyCore.s3'.
Proof.
  destruct (vote_rule_sound ToyCore.b4 ToyCore.s3'
    (ToyCore.reachable_wf _ ToyCore.s3'_reachable) ToyCore.b4_ok) as [(_ & _ & He)|[Hn _]].
  - exact He.
  - destruct Hn. split; [ToyCore.by_vm|]. exists ToyCore.b3, ToyCore.b1.
    split; [ToyCore.by_vm|]. split; [ToyCore.by_vm|]. left. ToyCore.by_vm.
Defined.

Lemma OnReceiveProposal_outcome_witness :
  ∃ h s1, qc_hash ToyCore.s3' (Some 8%nat) = Some h ∧ stored s1 h = Some ToyCore.b4
    ∧ s1 = set_condGen (S (condGen ToyCore.s3')) (set_blockCache (blockCache s1) ToyCore.s3').
Proof.
  destruct (OnReceiveProposal_outcome (ToyCore.env 1) tt (MkProposal 4 (Some ToyCore.b4)) ToyCore.b4
    ToyCore.s3') as (h & s1 & Hh & Hs & He & _).
  - apply ToyCore.reachable_wf, ToyCore.s3'_reachable.
  - exists ToyCore.b4. destruct ToyCore.b4_ok as [Hs [Hj|Hj]]; [discriminate|].
    split; [reflexivity|]. split; [exact Hs|exact Hj].
  - reflexivity.
  - exists h, s1. split; [exact Hh|]. split; [exact Hs|exact He].
Defined.

Module Fork.

(** A sibling of [b1] at the same height, its certificates at [3] and [4]. *)
Definition c1 : Block QCRef := ToyCore.block ToyCore.ghash [x7a] 1 3 4.
Definition hc : bytes := GetBlockHash c1.
Definition s1' : HotStuffCore CoreDB :=
  ToyCore.receive [Toy.qc 0 ToyCore.ghash []; Toy.qc 1 hc []] ToyCore.s1.

(** [s1'] with the sibling stored. *)
Definition t1 : HotStuffCore CoreDB := (StoreBlock c1 s1').2.

Lemma c1_ok : block_ok (length (qcHeap s1')) c1.
Proof.
  replace (length (qcHeap s1')) with 5%nat by ToyCore.by_vm.
  split; [exists 4%nat|right; exists 3%nat]; (split; [done|lia]).
Qed.

Lemma s1'_reachable : rtc (core_step (ToyCore.env 1)) initCore s1'.
Proof. etrans; [apply ToyCore.s1_reachable|apply ToyCore.receive_steps]. Qed.

Lemma t1_wf : core_wf t1.
Proof.
  refine (proj2 (safe_no_panic _ _ _ (safe_StoreBlock c1 s1' _ c1_ok))).
  apply ToyCore.reachable_wf, s1'_reachable.
Qed.

End Fork.

Lemma vote_regardless_of_rule_witness :
  let p := MkProposal 1 (Some Fork.c1) in
  let out := acceptProposal (ToyCore.env 1) tt p Fork.c1 Fork.t1 in
  out.1 = Ok tt
  ∧ last (notifyChan out.2)
    = Some (ReceiveProposalEvent p (MkVote 1 1 Fork.hc (Some (MkPartCert 1 (Toy.sign 1 Fork.hc)))))
  ∧ voteHeight out.2 = voteHeight (update_spec (ToyCore.env 1) Fork.c1 Fork.t1).2.
Proof.
  intros p out. apply (vote_regardless_of_rule (ToyCore.env 1) tt p Fork.c1 Fork.t1 Fork.hc
    (Toy.sign 1 Fork.hc)).
  - apply Fork.t1_wf.
  - replace (length (qcHeap Fork.t1)) with (length (qcHeap Fork.s1')) by ToyCore.by_vm. apply Fork.c1_ok.
  - ToyCore.by_vm.
  - vm_compute. discriminate.
  - ToyCore.by_vm.
  - ToyCore.by_vm.
Defined.

Lemma OnPropose_outcome_witness :
  let out := OnPropose (ToyCore.env 1) 7 tt 0 [x00] [x61] initCore in
  out.1 = Fail ErrParentNotFound ∧ out.2 ≡ initCore.
Proof.
  pose proof (OnPropose_outcome (ToyCore.env 1) (λ _, eq_refl) 7 tt 0 [x00] [x61] initCore 0%nat
    (MkQuorumCert (-1) ToyCore.ghash (Some ∅)) initCore_wf eq_refl eq_refl eq_refl) as Ho.
  replace (stored initCore [x00]) with (@None (Block QCRef)) in Ho by ToyCore.by_vm. exact Ho.
Defined.

(** ** What the handlers do not check *)

Definition decided_heights (s : HotStuffCore CoreDB) : list Z :=
  omap (λ e, match e with DecideEvent b => Some (Height b) | _ => None end) (notifyChan s).

Definition votes_sent (s : HotStuffCore CoreDB) : list (Z * Z * bytes) :=
  omap (λ e, match e with
             | ReceiveProposalEvent _ v => Some (vote_Voter v, vote_ViewNumber v, vote_BlockHash v)
             | _ => None
             end) (notifyChan s).

(** Equivocation: shown two different blocks of height 1 for the same view,
    replica 1 signs a vote for both. *)
Theorem double_vote :
  votes_sent (ToyCore.recv 1 ToyCore.ghash [] Fork.hc Fork.c1 ToyCore.s1)
  = [(1%Z, 1%Z, ToyCore.h1); (1%Z, 1%Z, Fork.hc)] ∧ Fork.hc ≠ ToyCore.h1.
Proof. split; [ToyCore.by_vm|]. vm_compute. discriminate. Qed.

(** Deciding without signatures: four chained proposals whose certificates
    carry no signature at all lock and decide the first block, because [update]
    goes on after [UpdateHighestQC] refused the certificate; the highest
    certificate stays the genesis one. *)
Theorem decide_unsigned :
  let s1 := ToyCore.recv 1 ToyCore.ghash [] ToyCore.h1 ToyCore.b1 initCore in
  let s2 := ToyCore.recv 2 ToyCore.h1 [] ToyCore.h2 ToyCore.b2 s1 in
  let s3 := ToyCore.recv 3 ToyCore.h2 [] ToyCore.h3 ToyCore.b3 s2 in
  let s4 := ToyCore.recv 4 ToyCore.h3 [] ToyCore.h4 ToyCore.b4 s3 in
  decided_heights s4 = [1%Z] ∧ genericQC s4 = Some 0%nat ∧ lockedQC s4 = Some 5%nat.
Proof. split_and!; ToyCore.by_vm. Qed.

(** Blocks are stored under the hash the sender claims: a proposal whose
    certificate names the genesis hash replaces the genesis block. *)
Theorem stored_under_claimed_hash :
  let s := ToyCore.recv 1 ToyCore.ghash [] ToyCore.ghash ToyCore.b1 initCore in
  stored s ToyCore.ghash = Some ToyCore.b1 ∧ GetBlockHash ToyCore.b1 ≠ ToyCore.ghash.
Proof. split; [ToyCore.by_vm|]. vm_compute. discriminate. Qed.

Module Redelivery.

Definition b5 : Block QCRef := ToyCore.block ToyCore.h4 [x65] 5 9 10.
Definition h5 : bytes := GetBlockHash b5.
(** [b4] delivered again, its certificates at [11] and [12]. *)
Definition b4' : Block QCRef := ToyCore.block ToyCore.h3 [x64] 4 11 12.
Definition b6 : Block QCRef := ToyCore.block h5 [x66] 6 13 14.
Definition h6 : bytes := GetBlockHash b6.

Definition s5 : HotStuffCore CoreDB := ToyCore.recv 5 ToyCore.h4 [0; 1; 2]%Z h5 b5 ToyCore.s4.
Definition s5' : HotStuffCore CoreDB := ToyCore.recv 4 ToyCore.h3 [0; 1; 2]%Z ToyCore.h4 b4' s5.
Definition s6 : HotStuffCore CoreDB := ToyCore.recv 6 h5 [0; 1; 2]%Z h6 b6 s5'.

End Redelivery.

(** [execQC] is not monotone: in order, blocks 1, 2 and 3 are decided once
    each; if the proposal of block 4 is delivered again before block 6, [update]
    moves [execQC] back to block 1, and block 6 decides block 2 a second time,
    after block 3. *)
Theorem redelivery_decides_twice :
  decided_heights Redelivery.s5 = [1; 2]%Z
  ∧ decided_heights (ToyCore.recv 6 Redelivery.h5 [0; 1; 2]%Z Redelivery.h6
      (ToyCore.block Redelivery.h5 [x66] 6 11 12) Redelivery.s5) = [1; 2; 3]%Z
  ∧ decided_heights Redelivery.s6 = [1; 2; 3; 2]%Z.
Proof. split_and!; ToyCore.by_vm. Qed.
