(* ===== verification/CoreVotes.v ===== *)
(** * Counting votes ([OnProposalVote] over a sequence of votes)

    [CoreProps] says what one vote does.  Here a whole sequence of votes for a
    stored block is delivered: the code is refined to a tally, a pure function of
    the signatures, the buffered votes and the sequence, from which follow that a
    quorum of votes completes the certificate exactly once, that the certificate
    then verifies, and that the order of delivery does not matter. *)

From stdpp Require Import base numbers fin_maps gmap sets strings list.
From S2P Require Import Prelude GoMonad Encoding Types Database LRUCache Entity Core.
From S2P Require Import CoreLemmas CoreSafety CoreSpec CoreProps.

(** ** The tally *)

Record tally := MkTally { cast : gmap Z (option PartCert); held : list Vote }.

Definition voters (vs : list Vote) : gset Z := list_to_set (vote_Voter <$> vs).

(** One vote, with quorum [q]: nothing changes once the quorum is there or when
    the voter is counted already; otherwise the vote and the held ones count. *)
Definition count_vote (q : Z) (t : tally) (v : Vote) : tally :=
  if decide (q ≤ Z.of_nat (size (cast t)))%Z then t
  else if decide (is_Some (cast t !! vote_Voter v)) then t
  else MkTally (add_votes (<[vote_Voter v := vote_Cert v]> (cast t)) (held t)) [].

Definition count_votes (q : Z) (t : tally) (vs : list Vote) : tally := foldl (count_vote q) t vs.

Definition full_tally (q : Z) (t : tally) : Prop := (q ≤ Z.of_nat (size (cast t)))%Z.

#[global] Instance full_tally_dec q t : Decision (full_tally q t).
Proof. unfold full_tally. apply _. Defined.

Lemma add_votes_dom votes : ∀ m, dom (add_votes m votes) = dom m ∪ voters votes.
Proof.
  induction votes as [|v votes IH]; intros m; simpl; [set_solver|].
  rewrite IH. destruct (m !! vote_Voter v) eqn:E.
  - apply elem_of_dom_2 in E. unfold voters. simpl. set_solver.
  - rewrite dom_insert_L. unfold voters. simpl. set_solver.
Qed.

Lemma count_vote_mono q t v : cast t ⊆ cast (count_vote q t v).
Proof.
  unfold count_vote. repeat case_decide; try done. simpl.
  etrans; [|apply add_votes_subseteq]. apply insert_subseteq. by apply eq_None_not_Some.
Qed.

Lemma count_votes_mono q vs : ∀ t, cast t ⊆ cast (count_votes q t vs).
Proof.
  induction vs as [|v vs IH]; intros t; [done|]. etrans; [apply (count_vote_mono q t v)|apply IH].
Qed.

Lemma full_tally_mono q t t' : cast t ⊆ cast t' → full_tally q t → full_tally q t'.
Proof. unfold full_tally. intros Hs%map_subseteq_size. lia. Qed.

(** Short of the quorum every voter has been counted. *)
Lemma count_votes_dom q vs : ∀ t,
  full_tally q (count_votes q t vs) ∨ dom (cast t) ∪ voters vs ⊆ dom (cast (count_votes q t vs)).
Proof.
  induction vs as [|v vs IH]; intros t; [right; unfold voters; set_solver|].
  destruct (decide (q ≤ Z.of_nat (size (cast t)))%Z) as [Hfull | Hshort].
  { left. eapply full_tally_mono; [apply count_votes_mono|done]. }
  destruct (IH (count_vote q t v)) as [Hf | Hd]; [by left|]. right. simpl.
  assert (dom (cast t) ∪ {[vote_Voter v]} ⊆ dom (cast (count_vote q t v))) as Hv.
  { unfold count_vote. rewrite decide_False by done.
    destruct (decide (is_Some (cast t !! vote_Voter v))) as [Hs | Hs].
    - apply elem_of_dom in Hs. set_solver.
    - simpl. rewrite add_votes_dom, dom_insert_L. set_solver. }
  unfold voters in *. simpl. set_solver.
Qed.

(** A certificate is in the tally because it was there or came with a vote. *)
Lemma add_votes_origin votes m i c :
  add_votes m votes !! i = Some c → m !! i = Some c ∨ ∃ v, v ∈ votes ∧ vote_Voter v = i ∧ vote_Cert v = c.
Proof.
  rewrite add_votes_lookup. destruct (m !! i) as [c'|]; [by left|]. intros Hc. right.
  apply fmap_Some in Hc as (v & Hv & ->). apply head_Some_elem_of in Hv.
  apply list_elem_of_filter in Hv as [? ?]. eauto.
Qed.

Definition tally_origin (t : tally) (vs : list Vote) (i : Z) (c : option PartCert) : Prop :=
  cast t !! i = Some c ∨ ∃ v, (v ∈ held t ∨ v ∈ vs) ∧ vote_Voter v = i ∧ vote_Cert v = c.

Lemma count_votes_origin q vs : ∀ t i c,
  cast (count_votes q t vs) !! i = Some c → tally_origin t vs i c.
Proof.
  induction vs as [|v vs IH]; intros t i c Hc; [by left|]. apply IH in Hc. unfold tally_origin in *.
  unfold count_vote in Hc. repeat case_decide; [set_solver..|]. simpl in Hc.
  destruct Hc as [Hc | (w & [Hw | Hw] & <- & <-)]; [|set_solver..].
  apply add_votes_origin in Hc as [Hc | (w & Hw & <- & <-)]; [|set_solver].
  rewrite lookup_insert_Some in Hc. destruct Hc as [[<- <-] | [_ Hc]]; set_solver.
Qed.

Lemma size_cast t : Z.of_nat (size (cast t)) = Z.of_nat (size (dom (cast t))).
Proof. by rewrite size_dom. Qed.

(** Votes of replicas that are counted already change nothing. *)
Lemma count_votes_dup q vs t : voters vs ⊆ dom (cast t) → count_votes q t vs = t.
Proof.
  induction vs as [|v vs IH]; [done|]. unfold voters. simpl. intros Hs.
  assert (is_Some (cast t !! vote_Voter v)) as Hv by (apply elem_of_dom; set_solver).
  unfold count_vote. rewrite (decide_True (P:=is_Some _)) by done. case_decide; apply IH; set_solver.
Qed.

Lemma count_votes_new q vs t :
  ¬ (voters vs ⊆ dom (cast t)) →
  full_tally q (count_votes q t vs) ∨
  dom (cast t) ∪ voters (held t) ∪ voters vs ⊆ dom (cast (count_votes q t vs)).
Proof.
  induction vs as [|v vs IH]; unfold voters; simpl; [set_solver|]. intros Hnew.
  destruct (decide (q ≤ Z.of_nat (size (cast t)))%Z) as [Hfull | Hshort].
  { left. eapply full_tally_mono; [|exact Hfull].
    etrans; [apply (count_vote_mono q t v)|apply count_votes_mono]. }
  unfold count_vote. rewrite decide_False by done. destruct (decide (is_Some _)) as [Hs | Hs].
  - apply elem_of_dom in Hs. destruct IH as [Hf | Hd]; [set_solver|by left|]. right. set_solver.
  - pose proof (count_votes_dom q vs
      (MkTally (add_votes (<[vote_Voter v := vote_Cert v]> (cast t)) (held t)) [])) as [Hf | Hd]; [by left|].
    right. simpl in Hd. rewrite add_votes_dom, dom_insert_L in Hd. unfold voters in Hd. set_solver.
Qed.

(** When a sequence of votes reaches the quorum: independent of its order. *)
Lemma full_iff q vs t :
  full_tally q (count_votes q t vs) ↔
  full_tally q t ∨ ¬ (voters vs ⊆ dom (cast t)) ∧
    (q ≤ Z.of_nat (size (dom (cast t) ∪ voters (held t) ∪ voters vs)))%Z.
Proof.
  split.
  - intros Hf. destruct (decide (voters vs ⊆ dom (cast t))) as [Hd | Hd].
    { left. by rewrite count_votes_dup in Hf. }
    right. split; [done|]. unfold full_tally in Hf. rewrite size_cast in Hf. etrans; [exact Hf|].
    apply inj_le, subseteq_size. intros i [c Hc]%elem_of_dom. apply count_votes_origin in Hc.
    unfold voters. destruct Hc as [Hc | (v & Hv & <- & _)].
    + apply elem_of_dom_2 in Hc. set_solver.
    + rewrite !elem_of_union, !elem_of_list_to_set, !list_elem_of_fmap. naive_solver.
  - intros [Hf | [Hnew Hsz]].
    + eapply full_tally_mono; [apply count_votes_mono|done].
    + destruct (count_votes_new q vs t Hnew) as [Hf | Hd]; [done|].
      unfold full_tally. rewrite size_cast. etrans; [exact Hsz|]. by apply inj_le, subseteq_size.
Qed.

(** Distinct new voters, no more than the quorum needs, all count. *)
Lemma count_votes_all q vs : ∀ m,
  NoDup (vote_Voter <$> vs) → voters vs ## dom m →
  (Z.of_nat (size m) + Z.of_nat (length vs) ≤ q)%Z →
  count_votes q (MkTally m []) vs = MkTally (add_votes m vs) [].
Proof.
  induction vs as [|v vs IH]; intros m Hnd Hdis Hle; [done|]. simpl in *.
  apply NoDup_cons in Hnd as [Hv Hnd]. unfold voters in Hdis. simpl in Hdis.
  assert (m !! vote_Voter v = None) as Hm by (apply not_elem_of_dom; set_solver).
  unfold count_vote. simpl. rewrite decide_False by lia. rewrite decide_False by (rewrite Hm; by intros [? ?]).
  rewrite Hm. apply IH; [done| |].
  - rewrite dom_insert_L. unfold voters. intros i Hi [Hi' | Hi']%elem_of_union; [|set_solver].
    apply elem_of_singleton in Hi' as ->. by apply elem_of_list_to_set in Hi.
  - rewrite map_size_insert_None by done. lia.
Qed.

Lemma filter_voter vs i :
  NoDup (vote_Voter <$> vs) → (length (filter (λ v, vote_Voter v = i) vs) ≤ 1)%nat.
Proof.
  induction vs as [|v vs IH]; simpl; [lia|]. intros [Hv Hnd]%NoDup_cons. rewrite filter_cons.
  case_decide as Hi; [|by apply IH]. simpl.
  destruct (filter (λ v, vote_Voter v = i) vs) as [|w l] eqn:Ef; [simpl; lia|].
  assert (w ∈ filter (λ v, vote_Voter v = i) vs) as Hw by (rewrite Ef; left).
  apply list_elem_of_filter in Hw as [Hwi Hw]. exfalso. apply Hv. rewrite Hi, <- Hwi.
  by apply list_elem_of_fmap_2.
Qed.

Lemma add_votes_perm m vs vs' :
  vs ≡ₚ vs' → NoDup (vote_Voter <$> vs) → add_votes m vs = add_votes m vs'.
Proof.
  intros Hp Hnd. apply map_eq. intros i. rewrite !add_votes_lookup. destruct (m !! i); [done|].
  pose proof (filter_voter vs i Hnd) as Hl.
  assert (filter (λ v, vote_Voter v = i) vs ≡ₚ filter (λ v, vote_Voter v = i) vs') as Hf by (by rewrite Hp).
  destruct (filter _ vs) as [|v [|]]; [|apply Permutation_singleton_l in Hf|simpl in Hl; lia].
  - apply Permutation_nil_l in Hf. by rewrite Hf.
  - by rewrite Hf.
Qed.

(** ** Delivering votes *)

Section votes.
Context {DB E : Type} `{DatabaseLaws DB string (Block QCRef)} (env : CoreEnv E).
Implicit Types (s : HotStuffCore DB) (b : Block QCRef).

Let q := GetQuorumSize (Metadata (replicas env)).

(** The handler ignores the error [OnProposalVote] returns. *)
Definition run_votes (vs : list Vote) (s : HotStuffCore DB) : HotStuffCore DB :=
  foldl (λ s v, (OnProposalVote env v s).2) s vs.

Definition is_finish (r : QCRef) (e : EventNotifier) : bool :=
  match e with QcFinishEvent _ (Some r') => bool_decide (r' = r) | _ => false end.

(** How often the certificate at [r] was announced complete. *)
Definition finishes (r : QCRef) (s : HotStuffCore DB) : nat := length (List.filter (is_finish r) (notifyChan s)).

(** The block [b] is stored under [h], its certificate, at [r], is for [h], and
    [t] is what has been cast and held for it. *)
Record collecting (h : bytes) (b : Block QCRef) (r : QCRef) (qc : QuorumCert) (t : tally) s : Prop := {
  col_wf : core_wf s;
  col_stored : stored s h = Some b;
  col_self : SelfQc b = Some r;
  col_qc : ∃ qc', qcHeap s !! r = Some qc' ∧ signs qc' = cast t
                  ∧ qc_ViewNumber qc' = qc_ViewNumber qc ∧ qc_BlockHash qc' = h;
  col_held : default [] (voteSet s !! EncodeToString h) = held t }.

Lemma collecting_eqv h b r qc t s s' : s ≡ s' → collecting h b r qc t s → collecting h b r qc t s'.
Proof.
  intros He [Hwf Hst Hs Hq Hh]. split; [by eapply core_wf_eqv| |done| |].
  - by rewrite <- (eqv_stored _ _ He).
  - by rewrite <- (eqv_heap _ _ He).
  - by rewrite <- (eqv_voteSet _ _ He).
Qed.

Lemma finishes_eqv r s s' : s ≡ s' → finishes r s = finishes r s'.
Proof. intros He. unfold finishes. by rewrite (eqv_notify _ _ He). Qed.

Definition vote_ok (h : bytes) (v : Vote) : Prop := vote_BlockHash v = h ∧ is_Some (vote_Cert v).

Lemma finishes_emit r b s :
  SelfQc b = Some r →
  finishes r (emit [QcFinishEvent (Proposer b) (SelfQc b)] (adopt_high env b (SelfQc b) s)) = S (finishes r s).
Proof.
  intros Hr. unfold finishes, adopt_high. rewrite Hr.
  destruct (_ && _); simpl;
    rewrite !List.filter_app, !length_app; simpl; rewrite bool_decide_eq_true_2 by done; simpl; lia.
Qed.

(** The state in which the signatures of a counted vote have been written. *)
Lemma collecting_record h b r qc qc' m t s s1 :
  collecting h b r qc t s → s1 ≡ s → qcHeap s !! r = Some qc' → qc_BlockHash qc' = h →
  qc_ViewNumber qc' = qc_ViewNumber qc → certs_ok m →
  let s2 := record_vote r qc' m s1 in
  collecting h b r qc (MkTally (add_votes m (held t)) []) s2 ∧ finishes r s2 = finishes r s.
Proof.
  intros [Hwf Hst Hr _ Hheld] He Hq Hh Hv Hm s2. assert (core_wf s1) as Hwf1 by (by eapply core_wf_eqv).
  assert (qcHeap s1 !! r = Some qc') as Hq1 by (by rewrite (eqv_heap _ _ He)).
  split; [split|].
  - by apply wf_record_vote.
  - unfold s2, record_vote. unfold stored. simpl. fold (stored s1 h). by rewrite (eqv_stored _ _ He).
  - done.
  - exists (set_signs (add_votes m (held t)) qc'). unfold s2, record_vote. simpl.
    rewrite Hh, (eqv_voteSet _ _ He), Hheld. split_and!; try done.
    apply list_lookup_insert_eq. by eapply lookup_lt_Some.
  - unfold s2, record_vote. simpl. by rewrite Hh, lookup_delete_eq.
  - unfold s2, record_vote, finishes. simpl. by rewrite (eqv_notify _ _ He).
Qed.

Lemma collecting_finish h b r qc t s :
  collecting h b r qc t s →
  let s' := ((_ ← UpdateHighestQC env b (SelfQc b); notify (QcFinishEvent (Proposer b) (SelfQc b))) s).2 in
  collecting h b r qc t s' ∧ finishes r s' = S (finishes r s).
Proof.
  intros [Hwf Hst Hr (qc' & Hq & Hrest) Hheld] s'. apply lookup_lt_Some in Hq as Hlt.
  destruct (finish_run env b r s Hwf Hr Hlt) as [_ He]. fold s' in He.
  assert (ref_ok (length (qcHeap s)) (SelfQc b)) as Href by (exists r; auto).
  destruct (adopt_high_same env b (SelfQc b) s) as [Hhp Hbc].
  split; [|rewrite (finishes_eqv _ _ _ He); by apply finishes_emit].
  eapply collecting_eqv; [symmetry; exact He|]. split.
  - unfold emit. simpl. apply wf_notify; [by apply wf_adopt_high|]. by rewrite Hhp.
  - unfold stored, emit. simpl. by rewrite Hbc.
  - done.
  - exists qc'. unfold emit. simpl. by rewrite Hhp.
  - unfold emit, adopt_high. by destruct (_ && _).
Qed.

(** One vote through the code is one vote through the tally. *)
Lemma vote_counted h b r qc t v s :
  collecting h b r qc t s → vote_ok h v →
  let s' := (OnProposalVote env v s).2 in
  collecting h b r qc (count_vote q t v) s' ∧
  finishes r s' = (finishes r s +
    if decide (¬ full_tally q t ∧ full_tally q (count_vote q t v)) then 1 else 0)%nat.
Proof.
  intros Hcol [Hvh Hvc] s'. pose proof Hcol as [Hwf Hst Hr (qc' & Hq & Hsg & Hvn & Hbh) Hheld].
  rewrite <- Hvh in Hst.
  assert (Hlen : len_signs qc' = Z.of_nat (size (cast t))) by (unfold len_signs; by rewrite Hsg).
  unfold full_tally, count_vote. destruct (decide (q ≤ Z.of_nat (size (cast t)))%Z) as [Hfull | Hshort].
  { destruct (OnProposalVote_full env v s b r qc' (wf_store s Hwf) Hst Hr Hq) as (s1 & Ho & He); [by rewrite Hlen|].
    unfold s'. rewrite Ho. simpl. rewrite decide_False by tauto. split; [by eapply collecting_eqv|].
    rewrite (finishes_eqv _ _ _ He). lia. }
  destruct (decide (is_Some (cast t !! vote_Voter v))) as [Hdup | Hnew].
  { destruct (OnProposalVote_duplicate env v s b r qc' (wf_store s Hwf) Hst Hr Hq) as (s1 & Ho & He);
      [unfold q in *; lia|by rewrite Hsg|].
    unfold s'. rewrite Ho. simpl. rewrite decide_False by tauto. split; [by eapply collecting_eqv|].
    rewrite (finishes_eqv _ _ _ He). lia. }
  apply eq_None_not_Some in Hnew.
  destruct (OnProposalVote_counted env v s b r qc' (wf_store s Hwf) Hst Hr Hq) as (s1 & He1 & Hok1 & Ho);
    [unfold q in *; lia|by rewrite Hsg|].
  destruct (collecting_record h b r qc qc' (<[vote_Voter v := vote_Cert v]> (cast t)) t s s1) as [Hcol2 Hfin2]; try done.
  { apply map_Forall_insert_2; [done|]. rewrite <- Hsg. by eapply (wf_certs s Hwf). }
  unfold s'. rewrite Ho. unfold new_signs. rewrite Hsg, Hbh, Hheld. cbv zeta.
  set (s2 := record_vote _ _ _ _) in *. fold q. simpl cast.
  destruct (decide (Z.of_nat (size (add_votes (<[vote_Voter v := vote_Cert v]> (cast t)) (held t))) < q)%Z).
  - rewrite decide_False by lia. split; [done|]. simpl. lia.
  - rewrite decide_True by lia. destruct (collecting_finish _ _ _ _ _ _ Hcol2) as [Hcol3 Hfin3].
    split; [exact Hcol3|]. rewrite Hfin3. lia.
Qed.

(** The whole sequence. *)
Lemma votes_counted h b r qc vs : ∀ t s,
  collecting h b r qc t s → Forall (vote_ok h) vs →
  collecting h b r qc (count_votes q t vs) (run_votes vs s) ∧
  finishes r (run_votes vs s) = (finishes r s +
    if decide (¬ full_tally q t ∧ full_tally q (count_votes q t vs)) then 1 else 0)%nat.
Proof.
  induction vs as [|v vs IH]; intros t s Hcol Hvs; simpl.
  { rewrite decide_False by tauto. split; [done|lia]. }
  apply Forall_cons in Hvs as [Hv Hvs].
  destruct (vote_counted h b r qc t v s Hcol Hv) as [Hcol1 Hfin1].
  destruct (IH _ _ Hcol1 Hvs) as [Hcol' Hfin']. split; [done|]. rewrite Hfin', Hfin1.
  pose proof (full_tally_mono q t _ (count_vote_mono q t v)).
  pose proof (full_tally_mono q _ _ (count_votes_mono q vs (count_vote q t v))).
  fold (count_votes q (count_vote q t v) vs). repeat case_decide; tauto || lia.
Qed.

Definition tally_of (h : bytes) (qc : QuorumCert) (s : HotStuffCore DB) : tally :=
  MkTally (signs qc) (default [] (voteSet s !! EncodeToString h)).

(** What the theorems below assume of the block the votes are for. *)
Record votable (h : bytes) (b : Block QCRef) (r : QCRef) (qc : QuorumCert) (s : HotStuffCore DB) : Prop := {
  vt_wf : core_wf s;
  vt_stored : stored s h = Some b;
  vt_self : SelfQc b = Some r;
  vt_qc : qcHeap s !! r = Some qc;
  vt_hash : qc_BlockHash qc = h }.

Lemma votable_collecting h b r qc s : votable h b r qc s → collecting h b r qc (tally_of h qc s) s.
Proof. intros []. split; try done. by exists qc. Qed.

(** C15 votes_refine_tally: the vote handler, run on any sequence of votes for a
    stored block, duplicates and surplus votes included, implements the tally:
    the block's certificate holds exactly the signatures the tally has cast, the
    buffered votes are the ones it still holds, and completion is announced
    exactly when the sequence takes the tally to the quorum. *)
Theorem votes_refine_tally h b r qc vs s :
  votable h b r qc s → Forall (vote_ok h) vs →
  let t := tally_of h qc s in
  let s' := run_votes vs s in
  (∃ qc', qcHeap s' !! r = Some qc' ∧ signs qc' = cast (count_votes q t vs)
          ∧ qc_ViewNumber qc' = qc_ViewNumber qc ∧ qc_BlockHash qc' = h) ∧
  default [] (voteSet s' !! EncodeToString h) = held (count_votes q t vs) ∧
  stored s' h = Some b ∧
  finishes r s' = (finishes r s +
    if decide (¬ full_tally q t ∧ full_tally q (count_votes q t vs)) then 1 else 0)%nat.
Proof.
  intros Hv Hvs t s'.
  destruct (votes_counted h b r qc vs _ _ (votable_collecting _ _ _ _ _ Hv) Hvs) as [[_ Hst _ Hq Hh] Hf].
  done.
Qed.

(** The vote carries a signature of its voter for the block's hash. *)
Definition authentic (h : bytes) (v : Vote) : Prop :=
  verify_entry (replicas env) h (vote_Voter v, vote_Cert v) = Some true.

Lemma authentic_verifies qc :
  sane_metadata (Metadata (replicas env)) →
  (∀ i c, signs qc !! i = Some c → verify_entry (replicas env) (qc_BlockHash qc) (i, c) = Some true) →
  (q ≤ len_signs qc)%Z → VerifyQuorumCert (replicas env) (Some qc) = Some true.
Proof.
  intros Hsane Hall Hq. rewrite VerifyQuorumCert_spec; [|done|].
  - rewrite bool_decide_eq_true_2; [done|]. rewrite <- quorum_sane by done. fold q.
    etrans; [exact Hq|]. unfold len_signs. rewrite <- size_dom. apply inj_le, subseteq_size.
    intros i [c Hc]%elem_of_dom. apply elem_of_signers.
    apply Hall in Hc as Hv. apply verify_entry_true in Hv as (info & c' & ? & -> & ?). eauto.
  - intros i c Hc _. apply Hall, verify_entry_true in Hc as (info & c' & ? & -> & ?). eauto.
Qed.

(** C10 quorum_finishes: from a certificate short of the quorum, votes complete it
    exactly when they bring at least one new voter and, with the buffered ones,
    enough distinct voters: then [QcFinishEvent] is sent exactly once, however many
    votes follow, and if all the votes are authentic the certificate verifies at
    every replica.  A leader that receives a quorum of votes always gets its
    certificate. *)
Theorem quorum_finishes h b r qc vs s :
  votable h b r qc s → Forall (vote_ok h) vs → (len_signs qc < q)%Z →
  let buffered := default [] (voteSet s !! EncodeToString h) in
  let s' := run_votes vs s in
  if decide (¬ (voters vs ⊆ dom (signs qc)) ∧
             (q ≤ Z.of_nat (size (dom (signs qc) ∪ voters buffered ∪ voters vs)))%Z)
  then finishes r s' = S (finishes r s) ∧
    ∃ qc', qcHeap s' !! r = Some qc' ∧ qc_BlockHash qc' = h ∧ (q ≤ len_signs qc')%Z ∧
      (sane_metadata (Metadata (replicas env)) → Forall (authentic h) vs → Forall (authentic h) buffered →
       (∀ i c, signs qc !! i = Some c → verify_entry (replicas env) h (i, c) = Some true) →
       VerifyQuorumCert (replicas env) (Some qc') = Some true)
  else finishes r s' = finishes r s.
Proof.
  intros Hv Hvs Hlt buffered s'.
  destruct (votes_counted h b r qc vs _ _ (votable_collecting _ _ _ _ _ Hv) Hvs)
    as [[_ _ _ (qc' & Hq & Hsg & _ & Hh) _] Hf]. fold s' in Hq, Hf.
  assert (Hnf : ¬ full_tally q (tally_of h qc s)) by (unfold full_tally; simpl; unfold len_signs in Hlt; lia).
  pose proof (full_iff q vs (tally_of h qc s)) as Hiff. simpl in Hiff. fold buffered in Hiff.
  match goal with |- if decide ?P then _ else _ => destruct (decide P) as [Hd | Hd] end.
  - assert (full_tally q (count_votes q (tally_of h qc s) vs)) as Hfull by tauto.
    rewrite decide_True in Hf by done. split; [lia|]. exists qc'. split_and!; try done.
    + unfold len_signs. rewrite Hsg. exact Hfull.
    + intros Hsane Hav Hab Has. apply authentic_verifies; [done| |unfold len_signs; by rewrite Hsg].
      intros i c Hc. rewrite Hh. rewrite Hsg in Hc. apply count_votes_origin in Hc.
      rewrite Forall_forall in Hav, Hab. destruct Hc as [Hc | (v & [Hin | Hin] & <- & <-)]; [by apply Has|..].
      * by apply Hab.
      * by apply Hav.
  - rewrite decide_False in Hf by tauto. lia.
Qed.

(** C16 vote_order_irrelevant: delivering the same votes in another order announces
    the certificate equally often; and when they are votes of distinct new
    replicas, none is buffered and they are no more than the quorum needs, the
    certificate ends up with the same signatures. *)
Theorem vote_order_irrelevant h b r qc vs vs' s :
  votable h b r qc s → Forall (vote_ok h) vs → vs ≡ₚ vs' →
  finishes r (run_votes vs s) = finishes r (run_votes vs' s) ∧
  (NoDup (vote_Voter <$> vs) → voters vs ## dom (signs qc) →
   default [] (voteSet s !! EncodeToString h) = [] →
   (len_signs qc + Z.of_nat (length vs) ≤ q)%Z →
   signs <$> qcHeap (run_votes vs s) !! r = signs <$> qcHeap (run_votes vs' s) !! r).
Proof.
  intros Hv Hvs Hp. assert (Forall (vote_ok h) vs') as Hvs' by (by rewrite <- Hp).
  assert (voters vs = voters vs') as Hvot.
  { unfold voters. apply set_eq. intros i. by rewrite !elem_of_list_to_set, Hp. }
  pose proof (votable_collecting _ _ _ _ _ Hv) as Hcol.
  destruct (votes_counted h b r qc vs _ _ Hcol Hvs) as [[_ _ _ (q1 & Hq1 & Hs1 & _) _] ->].
  destruct (votes_counted h b r qc vs' _ _ Hcol Hvs') as [[_ _ _ (q2 & Hq2 & Hs2 & _) _] ->].
  pose proof (full_iff q vs (tally_of h qc s)) as Hi1. pose proof (full_iff q vs' (tally_of h qc s)) as Hi2.
  rewrite <- Hvot in Hi2. split; [repeat case_decide; tauto || lia|].
  intros Hnd Hdis Hh Hle. rewrite Hq1, Hq2. simpl. rewrite Hs1, Hs2. f_equal.
  unfold tally_of. rewrite Hh. rewrite !count_votes_all; try done; simpl.
  - by apply add_votes_perm.
  - by rewrite <- Hp.
  - by rewrite <- Hvot.
  - by rewrite <- Hp.
Qed.

End votes.

(** ** Witnesses: replica 1 collects votes for the first block *)

Module ToyVotes.
Import ToyCore.

Definition votes : list Vote := [vote1 0; vote1 2; vote1 0; vote1 3; vote1 1].

Lemma s1_votable : votable h1 b1 2 (Toy.qc 1 h1 []) s1.
Proof. split; [apply reachable_wf, s1_reachable|by_vm..]. Qed.

Lemma votes_ok : Forall (vote_ok h1) votes.
Proof. repeat constructor; by eexists. Qed.

Lemma votes_refine_tally_witness :
  Forall (vote_ok h1) votes ∧ finishes 2 (run_votes (env 1) votes s1) = 1%nat.
Proof.
  split; [exact votes_ok|].
  destruct (votes_refine_tally (env 1) h1 b1 2 _ votes s1 s1_votable votes_ok) as (_ & _ & _ & Hf).
  rewrite Hf. by_vm.
Defined.

Lemma quorum_finishes_witness :
  finishes 2 (run_votes (env 1) votes s1) = S (finishes 2 s1) ∧
  ∃ qc', qcHeap (run_votes (env 1) votes s1) !! 2%nat = Some qc' ∧
         VerifyQuorumCert Toy.conf (Some qc') = Some true.
Proof.
  assert (Hlt : (len_signs (Toy.qc 1 h1 []) < 3)%Z) by by_vm.
  pose proof (quorum_finishes (env 1) h1 b1 2 _ votes s1 s1_votable votes_ok Hlt) as Hq.
  cbv zeta in Hq. rewrite decide_True in Hq by (apply (bool_decide_unpack _); by_vm).
  destruct Hq as [Hf (qc' & Hqc & _ & _ & Hver)]. split; [exact Hf|]. exists qc'.
  split; [exact Hqc|]. apply Hver.
  - vm_compute. repeat split; congruence.
  - repeat constructor; by_vm.
  - replace (default [] _) with (@nil Vote) by by_vm. constructor.
  - intros i c Hc. discriminate Hc.
Defined.

Lemma vote_order_irrelevant_witness :
  signs <$> qcHeap (run_votes (env 1) [vote1 0; vote1 2; vote1 3] s1) !! 2%nat
  = signs <$> qcHeap (run_votes (env 1) [vote1 2; vote1 0; vote1 3] s1) !! 2%nat.
Proof.
  assert (Forall (vote_ok h1) [vote1 0; vote1 2; vote1 3]) as Hok by (repeat constructor; by eexists).
  apply (vote_order_irrelevant (env 1) h1 b1 2 _ _ _ s1 s1_votable Hok); [constructor|..].
  - apply (bool_decide_unpack _); by_vm.
  - apply (bool_decide_unpack _); by_vm.
  - by_vm.
  - vm_compute. discriminate.
Defined.

End ToyVotes.
