(* ===== verification/CoreBounds.v ===== *)
(** * Machine integers in the core

    Heights are [int64] in the source and [Z] in the model.  Every height the
    core keeps stays in the range of its type ([core_typed]), and what happens at
    the end of that range: a replica whose vote height is the largest [int64]
    never proposes again. *)

From stdpp Require Import base numbers fin_maps gmap sets strings list.
From Stdlib Require Import Strings.Byte.
From S2P Require Import Prelude GoMonad Encoding Types Database LRUCache Entity Core.
From S2P Require Import CoreLemmas CoreSafety CoreSpec CoreCert CoreProps.

Definition MaxInt64 : Z := (2 ^ 63 - 1)%Z.

Section typed.
Context {DB E : Type} `{DatabaseLaws DB string (Block QCRef)} (env : CoreEnv E).
Implicit Types (s : HotStuffCore DB).

Let q := GetQuorumSize (Metadata (replicas env)).

(** Every height the core holds is a value of its Go type. *)
Record typed s : Prop := {
  ty_store : store_ok s;
  ty_vote : is_int64 (voteHeight s);
  ty_blocks h b : stored s h = Some b → is_int64 (Height b) }.

Definition keeps_typed s s' : Prop := typed s → typed s'.

#[global] Instance keeps_typed_preorder : PreOrder keeps_typed.
Proof. split; [intros s; unfold keeps_typed; auto|]. intros s1 s2 s3. unfold keeps_typed. auto. Qed.

#[global] Instance typed_stable : CoreStable keeps_typed.
Proof.
  split; [apply _|..]; intros; intros [Hst Hv Hb]; constructor; try done.
  - unfold store_ok. simpl. by apply db_get_inv.
  - intros h b. unfold stored. simpl. rewrite db_view_get by done. apply Hb.
Qed.

#[global] Instance typed_simple : CoreSimple keeps_typed.
Proof. split; intros; intros []; by constructor. Qed.

#[global] Instance typed_writable : CoreWritable q keeps_typed.
Proof. intros r qc m s _ _ _ []. by constructor. Qed.

Lemma setVoteHeight_typed h : is_int64 h → evolves keeps_typed (setVoteHeight (DB:=DB) h).
Proof. intros Hh. apply evolves_modify. intros s []. by constructor. Qed.

Lemma StoreBlock_typed b : is_int64 (Height b) → evolves keeps_typed (StoreBlock (DB:=DB) b).
Proof.
  intros Hb. unfold StoreBlock. apply evolves_bind; [apply _|apply deref_evolves, _|].
  intros qc. apply evolves_modify. intros s [Hst Hv Hbs]. constructor; [by apply db_put_inv|done|].
  intros h b'. unfold stored. simpl.
  destruct (decide (EncodeToString h = EncodeToString (qc_BlockHash qc))) as [-> | Hne].
  - rewrite db_view_put_eq by done. congruence.
  - destruct (db_view_put_ne (EncodeToString (qc_BlockHash qc)) (EncodeToString h) b (blockCache s)) as [-> | ->];
      [done|done|done|]. apply Hbs.
Qed.

(** The blocks of a call are decoded from messages, so their heights are [int64]. *)
Definition call_typed (c : core_call (E:=E)) : Prop :=
  match c with
  | CallReceiveProposal _ prop | CallWakeProposal _ prop =>
      ∀ b, prop_Block prop = Some b → is_int64 (Height b)
  | _ => True
  end.

Lemma acceptProposal_typed ent prop b :
  is_int64 (Height b) → evolves keeps_typed (acceptProposal (DB:=DB) env ent prop b).
Proof.
  intros Hb. pose proof (setVoteHeight_typed _ Hb). unfold acceptProposal, vote_rule, GetVoteHeight. evolve.
Qed.

Lemma OnPropose_typed now ent v p c : evolves keeps_typed (OnPropose (DB:=DB) env now ent v p c).
Proof.
  pose proof (OnProposalVote_evolves env keeps_typed) as Hvote.
  unfold OnPropose, GetVoteHeight. apply evolves_bind; [apply _|apply LoadBlock_evolves, _|].
  intros [e|block]; [evolve|].
  apply (evolves_bind_post keeps_typed (λ nb, is_int64 (Height nb))); [evolve|..].
  - intros s nb s' Hrun. unfold createLeaf in Hrun. minv Hrun as (g & s1 & _ & Hrun).
    minv Hrun as (j & s2 & _ & Hrun). injection Hrun as <- _. apply wrap64_int64.
  - intros nb Hnb. pose proof (setVoteHeight_typed _ Hnb) as Hs.
    assert (∀ sq, evolves keeps_typed (StoreBlock (DB:=DB) (set_SelfQc sq nb))) by (intros; by apply StoreBlock_typed).
    evolve.
Qed.

Lemma run_call_typed c : call_typed c → evolves keeps_typed (run_call (DB:=DB) env c).
Proof.
  intros Hc. pose proof (OnProposalVote_evolves env keeps_typed) as Hvote. destruct c as [ | | | | | | ]; simpl in Hc |- *.
  - apply OnPropose_typed.
  - unfold OnReceiveProposal. destruct (prop_Block prop) as [b|] eqn:Hb; [|evolve].
    pose proof (acceptProposal_typed ent prop b (Hc b eq_refl)). pose proof (StoreBlock_typed b (Hc b eq_refl)).
    intros s. rewrite run_orPanic. revert s.
    match goal with |- ∀ s, keeps_typed s ((?m) s).2 => change (evolves keeps_typed m) end. evolve.
  - unfold OnReceiveProposal_wake, AsyncWaitBlock_wake. destruct (prop_Block prop) as [b|] eqn:Hb; [|evolve].
    pose proof (acceptProposal_typed ent prop b (Hc b eq_refl)).
    intros s. rewrite run_orPanic. revert s.
    match goal with |- ∀ s, keeps_typed s ((?m) s).2 => change (evolves keeps_typed m) end. evolve.
  - apply Hvote.
  - unfold OnNewView. evolve.
  - evolve.
  - evolve.
Qed.

(** Steps on messages whose integers are values of their Go types. *)
Inductive typed_step : relation (HotStuffCore DB) :=
| typed_call c s : call_typed c → typed_step s (run_call env c s).2
| typed_unmarshal qc s : typed_step s (set_qcHeap (qcHeap s ++ [qc]) s).

Lemma typed_steps s s' : rtc typed_step s s' → typed s → typed s'.
Proof.
  induction 1 as [|s1 s2 s3 [c s Hc|qc s] _ IH]; [done|..]; intros Hs; apply IH.
  - by apply (run_call_typed c Hc s).
  - by apply (cs_alloc (R:=keeps_typed) qc s).
Qed.

End typed.

Lemma typed_steps_le {E} (env : CoreEnv E) (s s' : HotStuffCore CoreDB) :
  rtc (typed_step env) s s' → core_le (GetQuorumSize (Metadata (replicas env))) s s'.
Proof.
  induction 1 as [|s1 s2 s3 [c s Hc|qc s] _ IH]; [done|..]; (etrans; [|exact IH]).
  - apply run_call_evolves.
  - apply cs_alloc.
Qed.

Lemma initCore_typed : typed initCore.
Proof.
  split; [exact (wf_store _ initCore_wf)|done|]. intros h b ->%initCore_stored. done.
Qed.

(** C27 heights_int64: in every state a replica reaches through messages with [int64]
    fields, its vote height and the heights of all its stored blocks are [int64]
    values, and the vote height is never negative: the additions and subtractions
    that could leave the range wrap as the machine's do, and no other ever does. *)
Theorem heights_int64 {E} (env : CoreEnv E) (s : HotStuffCore CoreDB) :
  rtc (typed_step env) initCore s →
  is_int64 (voteHeight s) ∧ (0 ≤ voteHeight s)%Z ∧
  ∀ h b, stored s h = Some b → is_int64 (Height b).
Proof.
  intros Hs. destruct (typed_steps env _ _ Hs initCore_typed) as [_ Hv Hb]. split_and!; [done| |done].
  exact (le_height _ _ _ (typed_steps_le env _ _ Hs)).
Qed.

(** ** The end of the range *)

Section exhausted.
Context {DB E : Type} `{DatabaseLaws DB string (Block QCRef)} (env : CoreEnv E).
Implicit Types (s : HotStuffCore DB).

(** A proposal at the vote height or below it changes nothing but memory. *)
Lemma OnPropose_too_low now ent v p c s :
  core_wf s → (∀ b, stored s p = Some b → (wrap64 (Height b + 1) ≤ voteHeight s)%Z) →
  let out := OnPropose env now ent v p c s in
  (∃ e, out.1 = Fail e) ∧ notifyChan out.2 = notifyChan s ∧ voteHeight out.2 = voteHeight s ∧
  ∀ h, stored out.2 h = stored s h.
Proof.
  intros Hwf Hlow out. unfold out, OnPropose. destruct (stored s p) as [pb|] eqn:Hp.
  - destruct (LoadBlock_found _ s pb (wf_store s Hwf) Hp) as (s0 & Hl & He & _).
    rewrite (run_bind_Ok _ _ _ _ _ Hl).
    destruct (wf_generic s Hwf) as (g & Hg & Hlt). apply lookup_lt_is_Some in Hlt as [gq Hq].
    assert (Hleaf : createLeaf env now p c (wrap64 (Height pb + 1)) s0
      = (Ok (MkBlock p c (id env) (wrap64 (Height pb + 1)) now (Some (length (qcHeap s0))) None),
         set_qcHeap (qcHeap s0 ++ [clone env gq]) s0)).
    { unfold createLeaf. rewrite run_gets, (eqv_generic _ _ He), Hg, bind_assoc.
      by rewrite (run_bind_Ok _ _ _ _ _ (deref_run g s0 gq ltac:(by rewrite (eqv_heap _ _ He)))). }
    rewrite (run_bind_Ok _ _ _ _ _ Hleaf). unfold GetVoteHeight. rewrite run_gets.
    cbn [Height set_qcHeap voteHeight]. rewrite (eqv_height _ _ He).
    specialize (Hlow pb eq_refl). rewrite decide_True by done. cbn. split_and!.
    + eauto.
    + apply (eqv_notify _ _ He).
    + apply (eqv_height _ _ He).
    + intros h. apply (eqv_stored _ _ He).
  - destruct (LoadBlock_missing _ s (wf_store s Hwf) Hp) as (e & s0 & Hl & He & _).
    rewrite (run_bind_Ok _ _ _ _ _ Hl). cbn. split_and!; [eauto|apply (eqv_notify _ _ He)|apply (eqv_height _ _ He)|].
    intros h. apply (eqv_stored _ _ He).
Qed.

End exhausted.

(** C28 max_height_stops_proposals: heights are not bounded by the parent's, so a single
    accepted proposal can carry the largest [int64].  Once the vote height is that
    large the replica never proposes again: in every later state [OnPropose] fails
    for every parent, the height of a new block having wrapped below zero or being
    no larger than the vote height; nothing is stored and no event is sent. *)
Theorem max_height_stops_proposals {E} (env : CoreEnv E) (s s' : HotStuffCore CoreDB) now ent v p c :
  (∀ qc, clone env qc = qc) →
  rtc (core_step env) initCore s → voteHeight s = MaxInt64 → rtc (core_step env) s s' →
  let out := OnPropose env now ent v p c s' in
  (∃ e, out.1 = Fail e) ∧ notifyChan out.2 = notifyChan s' ∧ ∀ h, stored out.2 h = stored s' h.
Proof.
  intros Hclone Hs Hmax Hs'. assert (core_wf s') as Hwf.
  { eapply (core_steps_wf env); [done|apply initCore_wf|by etrans]. }
  pose proof (le_height _ _ _ (core_steps_le env _ _ Hs')) as Hle.
  destruct (OnPropose_too_low env now ent v p c s' Hwf) as (He & Hn & _ & Hst); [|done].
  intros b _. pose proof (wrap64_int64 (Height b + 1)) as Hw.
  unfold is_int64, MaxInt64 in *. lia.
Qed.

(** ** Witnesses *)

Module ToyBounds.
Import ToyCore.

(** A proposal of the largest height, justified by a quorum for [b1]. *)
Definition top : Block QCRef := block h1 [x6d] MaxInt64 3 4.
Definition htop : bytes := GetBlockHash top.
Definition s2' : HotStuffCore CoreDB := recv 2 h1 [0; 1; 2]%Z htop top s1.

Lemma s2'_reachable : rtc (core_step (env 1)) initCore s2'.
Proof. etrans; [exact s1_reachable|]. apply (recv_steps 2 h1 [0; 1; 2]%Z htop top s1 3); [done..|by_vm]. Qed.

Lemma recv_typed view jh ids h b s :
  is_int64 (Height b) → rtc (typed_step (env 1)) s (recv view jh ids h b s).
Proof.
  intros Hb. eapply rtc_l; [apply (typed_unmarshal _ (Toy.qc (view - 1) jh ids))|].
  eapply rtc_l; [apply (typed_unmarshal _ (Toy.qc view h []))|]. apply rtc_once. unfold recv, receive.
  set (s' := set_qcHeap _ (set_qcHeap _ s)).
  replace (set_qcHeap (qcHeap s ++ [_; _]) s) with s'; [apply typed_call; simpl; congruence|].
  unfold s', set_qcHeap. simpl. by rewrite <- app_assoc.
Qed.

Lemma s2'_typed : rtc (typed_step (env 1)) initCore s2'.
Proof.
  etrans; [exact (recv_typed 1 ghash [] h1 b1 initCore (wrap64_int64 1))|].
  exact (recv_typed 2 h1 [0; 1; 2]%Z htop top s1 (wrap64_int64 MaxInt64)).
Qed.

Lemma heights_int64_witness : is_int64 (voteHeight s2') ∧ voteHeight s2' = MaxInt64.
Proof.
  split; [|by_vm].
  exact (proj1 (heights_int64 (env 1) s2' s2'_typed)).
Defined.

Lemma max_height_stops_proposals_witness :
  voteHeight s2' = MaxInt64 ∧ ∃ e, (OnPropose (env 1) 0 tt 3 htop [x6e] s2').1 = Fail e.
Proof.
  assert (Hmax : voteHeight s2' = MaxInt64) by by_vm. split; [exact Hmax|].
  exact (proj1 (max_height_stops_proposals (env 1) s2' s2' 0 tt 3 htop [x6e] (λ _, eq_refl) s2'_reachable Hmax (rtc_refl _ _))).
Defined.

End ToyBounds.
