(* ===== verification/CoreEffects.v ===== *)
(** * What each call of the core touches

    Calls that are not about a proposal are [quiet]: they keep the stored
    blocks, the lock and the vote height, only add signatures to certificates,
    and send neither votes nor decisions.  Signatures come from somewhere: every
    signature in a certificate, or in a buffered vote, was received in a
    message or made by the replica ([auth]). *)

From stdpp Require Import base numbers fin_maps gmap sets strings list.
From S2P Require Import Prelude GoMonad Encoding Types Database LRUCache Entity Core.
From S2P Require Import CoreLemmas CoreSafety CoreSpec CoreCert CoreProps CoreProposals CoreVotes.

(** The block hash an event announces this replica's vote for. *)
Definition event_vote (e : EventNotifier) : option bytes :=
  match e with
  | ReceiveProposalEvent _ v => Some (vote_BlockHash v)
  | ProposeEvent p => GetBlockHash <$> prop_Block p
  | _ => None
  end.

Definition is_decide (e : EventNotifier) : bool :=
  match e with DecideEvent _ => true | _ => false end.

(** Neither a vote nor a decision. *)
Definition quiet_event (e : EventNotifier) : Prop := event_vote e = None ∧ is_decide e = false.

Section effects.
Context {DB E : Type} `{DatabaseLaws DB string (Block QCRef)} (env : CoreEnv E).
Implicit Types (s : HotStuffCore DB).

Let q := GetQuorumSize (Metadata (replicas env)).
Let rc := replicas env.

(** This replica has announced a vote for the block of hash [h]. *)
Definition voted s (h : bytes) : Prop := ∃ e, e ∈ notifyChan s ∧ event_vote e = Some h.

#[global] Instance voted_dec s h : Decision (voted s h).
Proof.
  refine (cast_if (decide (Exists (λ e, event_vote e = Some h) (notifyChan s))));
    unfold voted; rewrite <-Exists_exists; done.
Defined.

Record quiet s s' : Prop := {
  quiet_stored h : stored s' h = stored s h;
  quiet_locked : lockedQC s' = lockedQC s;
  quiet_height : voteHeight s' = voteHeight s;
  quiet_generic : genericQC s' = genericQC s ∨ proven env (qcHeap s') (genericQC s');
  quiet_heap : heap_le q (qcHeap s) (qcHeap s');
  quiet_events : ∃ l, notifyChan s' = notifyChan s ++ l ∧ Forall quiet_event l }.

#[global] Instance quiet_preorder : PreOrder quiet.
Proof.
  split.
  - intros s. constructor; try done; [by left|]. exists []. by rewrite app_nil_r.
  - intros s1 s2 s3 [S1 L1 H1 G1 Q1 (l1 & E1 & F1)] [S2 L2 H2 G2 Q2 (l2 & E2 & F2)]. constructor.
    + intros h. by rewrite S2.
    + congruence.
    + congruence.
    + destruct G2 as [->|]; [|by right]. destruct G1; [by left|right]. by eapply proven_mono.
    + by etrans.
    + exists (l1 ++ l2). rewrite E2, E1, app_assoc. split; [done|]. by apply Forall_app_2.
Qed.

Lemma quiet_eqv s s' : s ≡ s' → quiet s s'.
Proof.
  intros He. constructor.
  - intros h. by rewrite He.
  - by rewrite He.
  - by rewrite He.
  - left. by rewrite He.
  - by rewrite He.
  - exists []. rewrite app_nil_r. split; [by rewrite He|done].
Qed.

Lemma quiet_emit l s : Forall quiet_event l → quiet s (emit l s).
Proof. intros Hl. constructor; try done; [by left|]. by exists l. Qed.

Lemma quiet_alloc qc s : quiet s (set_qcHeap (qcHeap s ++ [qc]) s).
Proof. constructor; try done; [by left|apply heap_le_app|]. exists []. by rewrite app_nil_r. Qed.

Lemma verified_proven s o : verified env s o = true ↔ proven env (qcHeap s) o.
Proof.
  unfold verified, proven. split.
  - destruct o as [r|]; simpl; [|done]. destruct (qcHeap s !! r) as [qc|] eqn:Hq; [|done].
    intros Hv%bool_decide_eq_true. eauto.
  - intros (r & qc & -> & Hq & Hv). simpl. rewrite Hq. by apply bool_decide_eq_true_2.
Qed.

Lemma quiet_adopt_high b o s : quiet s (adopt_high env b o s).
Proof.
  unfold adopt_high. destruct (verified env s o) eqn:Hv; [|done]. destruct (above _ _); [|done].
  etrans; [|by apply quiet_emit; repeat constructor].
  constructor; try done; [right; by apply verified_proven|]. exists []. by rewrite app_nil_r.
Qed.

Lemma quiet_record_vote r qc m s :
  qcHeap s !! r = Some qc → (len_signs qc < q)%Z → signs qc ⊆ m → quiet s (record_vote r qc m s).
Proof.
  intros Hr Hlt Hm. unfold record_vote. constructor; try done.
  - by left.
  - simpl. apply heap_le_write; [done..|]. etrans; [exact Hm|]. apply add_votes_subseteq.
  - exists []. by rewrite app_nil_r.
Qed.

(** A wait-free description of the vote: the state is unchanged, buffers the
    vote, or records it and announces a quorum. *)
Lemma vote_cases vote s :
  core_wf s → is_Some (vote_Cert vote) →
  let s' := (OnProposalVote env vote s).2 in
  s' ≡ s
  ∨ s' ≡ set_voteSet (<[EncodeToString (vote_BlockHash vote) :=
         default [] (voteSet s !! EncodeToString (vote_BlockHash vote)) ++ [vote]]> (voteSet s)) s
  ∨ ∃ b r qc, stored s (vote_BlockHash vote) = Some b ∧ SelfQc b = Some r ∧ qcHeap s !! r = Some qc
      ∧ (len_signs qc < q)%Z ∧ signs qc !! vote_Voter vote = None
      ∧ let s2 := record_vote r qc (<[vote_Voter vote := vote_Cert vote]> (signs qc)) s in
        s' ≡ s2 ∨ s' ≡ emit [QcFinishEvent (Proposer b) (SelfQc b)] (adopt_high env b (SelfQc b) s2).
Proof.
  intros Hwf Hc s'. pose proof (wf_store s Hwf) as Hs. unfold s'.
  destruct (stored s (vote_BlockHash vote)) as [b|] eqn:Hb.
  2: { right; left. destruct (OnProposalVote_unknown env vote s Hs Hb) as (s1 & -> & He). exact He. }
  destruct (wf_lookup _ _ (proj1 (wf_blocks s Hwf _ _ Hb))) as (r & qc & Hr & Hq).
  destruct (decide (q ≤ len_signs qc)%Z) as [Hfull|Hlt].
  { left. destruct (OnProposalVote_full env vote s b r qc Hs Hb Hr Hq Hfull) as (s1 & -> & He). exact He. }
  destruct (signs qc !! vote_Voter vote) as [c|] eqn:Hv.
  { left. destruct (OnProposalVote_duplicate env vote s b r qc Hs Hb Hr Hq) as (s1 & -> & He);
      [unfold q in Hlt; lia|by eauto|exact He]. }
  right; right. exists b, r, qc. split_and!; [done..|unfold q in *; lia|done|].
  set (s2 := record_vote r qc _ s).
  destruct (OnProposalVote_counted env vote s b r qc Hs Hb Hr Hq) as (s1 & He & Hs1 & ->);
    [unfold q in Hlt; lia|done|].
  set (s2' := record_vote r qc _ s1).
  assert (He2 : s2' ≡ s2).
  { unfold s2', s2, record_vote. by rewrite (voteSet_proper _ _ He), (qcHeap_proper _ _ He), He. }
  cbv zeta. case_decide; [by left|right].
  assert (Hwf2 : core_wf s2').
  { apply wf_record_vote; [by eapply core_wf_eqv|by rewrite He|].
    apply map_Forall_insert_2; [done|]. by eapply (wf_certs s Hwf). }
  assert (Hlen : (r < length (qcHeap s2'))%nat).
  { rewrite (qcHeap_proper _ _ He2). unfold s2, record_vote. simpl. rewrite length_insert.
    by eapply lookup_lt_Some. }
  destruct (finish_run env b r s2' Hwf2 Hr Hlen) as [_ ->]. by rewrite He2.
Qed.

Lemma vote_quiet vote s :
  core_wf s → is_Some (vote_Cert vote) → quiet s (OnProposalVote env vote s).2.
Proof.
  intros Hwf Hc. destruct (vote_cases vote s Hwf Hc) as [He|[He|(b & r & qc & Hb & Hr & Hq & Hlt & Hv & Hcase)]].
  - by apply quiet_eqv.
  - etrans; [|apply quiet_eqv; symmetry; exact He]. constructor; try done; [by left|]. exists []. by rewrite app_nil_r.
  - cbv zeta in Hcase. set (s2 := record_vote _ _ _ _) in Hcase.
    assert (H2 : quiet s s2) by (apply quiet_record_vote; [done..|by apply insert_subseteq]).
    etrans; [exact H2|]. destruct Hcase as [He|He]; (etrans; [|apply quiet_eqv; symmetry; exact He]); [done|].
    etrans; [apply quiet_adopt_high|]. apply quiet_emit. by repeat constructor.
Qed.

End effects.

(** ** Where signatures come from *)

Section auth.
Context {DB E : Type} `{DatabaseLaws DB string (Block QCRef)} (env : CoreEnv E).
Implicit Types (s : HotStuffCore DB).

(** Every certificate is stored under the hash it names. *)
Definition keyed s : Prop := ∀ k b, stored s k = Some b → qc_hash s (SelfQc b) = Some k.

(** [A j h]: replica [j] may have signed [h]. *)
Implicit Types (A : Z → bytes → Prop).

Definition qc_auth A (qc : QuorumCert) : Prop :=
  ∀ j, j ∈ signers (replicas env) qc → A j (qc_BlockHash qc).

Definition vote_auth A (v : Vote) : Prop :=
  ∀ info c, Replicas (replicas env) !! vote_Voter v = Some info → vote_Cert v = Some c →
    accepts info (pc_Signature c) (vote_BlockHash v) = true → A (vote_Voter v) (vote_BlockHash v).

Record auth A s : Prop := {
  auth_heap r qc : qcHeap s !! r = Some qc → qc_auth A qc;
  auth_held k vs v : voteSet s !! k = Some vs → v ∈ vs →
    EncodeToString (vote_BlockHash v) = k ∧ vote_auth A v }.

Lemma auth_mono A A' s : (∀ j h, A j h → A' j h) → auth A s → auth A' s.
Proof.
  intros HA [Hh Hv]. constructor.
  - intros r qc Hq j Hj. by eapply HA, Hh.
  - intros k vs v Hk Hin. destruct (Hv k vs v Hk Hin) as [? Ha]. split; [done|].
    intros info c Hi Hc Hacc. by eapply HA, Ha.
Qed.

(** [auth] reads the certificates and the buffered votes only. *)
Lemma auth_same A s s' : qcHeap s' = qcHeap s → voteSet s' = voteSet s → auth A s → auth A s'.
Proof. intros Hh Hv [H1 H2]. constructor; rewrite ?Hh, ?Hv; done. Qed.

Lemma auth_eqv A s s' : s ≡ s' → auth A s → auth A s'.
Proof. intros He. apply auth_same; by rewrite He. Qed.

Lemma auth_alloc A qc s : qc_auth A qc → auth A s → auth A (set_qcHeap (qcHeap s ++ [qc]) s).
Proof.
  intros Hq [H1 H2]. constructor; simpl; [|done].
  intros r qc' [Hr|[_ Hr]]%lookup_app_Some; [by eapply H1|].
  apply list_lookup_singleton_Some in Hr as [_ <-]. done.
Qed.

Lemma qc_auth_empty A view h : qc_auth A (MkQuorumCert view h (Some ∅)).
Proof.
  intros j (info & c & _ & Hj & _)%elem_of_signers. unfold signs in Hj. simpl in Hj.
  by rewrite lookup_empty in Hj.
Qed.

Lemma auth_adopt_high A b o s : auth A s → auth A (adopt_high env b o s).
Proof. apply auth_same; unfold adopt_high; by destruct (_ && _). Qed.

Lemma auth_record_vote A vote r qc s :
  auth A s → vote_auth A vote → qcHeap s !! r = Some qc → vote_BlockHash vote = qc_BlockHash qc →
  auth A (record_vote r qc (<[vote_Voter vote := vote_Cert vote]> (signs qc)) s).
Proof.
  intros [Hh Hv] Ha Hq Heq. unfold record_vote. constructor; simpl.
  - intros r' qc' [(-> & <- & _)|[_ Hr]]%list_lookup_insert_Some; [|by eapply Hh].
    intros j (info & c & Hi & Hj & Hacc)%elem_of_signers. simpl in *.
    apply add_votes_origin in Hj as [Hj|(v & Hin & <- & Hc)].
    + apply lookup_insert_Some in Hj as [[<- Hc]|[_ Hj]].
      * rewrite <-Heq in *. by eapply Ha.
      * eapply Hh; [done|]. apply elem_of_signers. eauto.
    + destruct (voteSet s !! EncodeToString (qc_BlockHash qc)) as [vs|] eqn:Hvs;
        [|by apply not_elem_of_nil in Hin].
      destruct (Hv _ _ _ Hvs Hin) as [Heq'%(inj _) Hav]. rewrite <-Heq' in *. by eapply Hav.
  - intros k vs v [_ Hk]%lookup_delete_Some Hin. by eapply Hv.
Qed.

Lemma auth_hold A vote s :
  auth A s → vote_auth A vote →
  let k := EncodeToString (vote_BlockHash vote) in
  auth A (set_voteSet (<[k := default [] (voteSet s !! k) ++ [vote]]> (voteSet s)) s).
Proof.
  intros [Hh Hv] Ha k. constructor; simpl; [done|].
  intros k' vs v [[<- <-]|[_ Hk]]%lookup_insert_Some Hin; [|by eapply Hv].
  apply elem_of_app in Hin as [Hin|Hin%list_elem_of_singleton]; [|by subst].
  destruct (voteSet s !! k) as [vs|] eqn:Hvs; [by eapply Hv|by apply not_elem_of_nil in Hin].
Qed.

(** A vote that is authentic leaves only authentic signatures. *)
Lemma vote_keeps_auth A vote s :
  core_wf s → keyed s → is_Some (vote_Cert vote) → auth A s → vote_auth A vote →
  auth A (OnProposalVote env vote s).2.
Proof.
  intros Hwf Hk Hc Hs Ha.
  destruct (vote_cases env vote s Hwf Hc) as [He|[He|(b & r & qc & Hb & Hr & Hq & Hlt & Hv & Hcase)]].
  - by eapply auth_eqv; [symmetry|].
  - eapply auth_eqv; [symmetry; exact He|]. by apply auth_hold.
  - assert (Heq : vote_BlockHash vote = qc_BlockHash qc).
    { apply Hk in Hb. rewrite Hr, (qc_hash_lookup _ _ _ Hq) in Hb. congruence. }
    assert (H2 := auth_record_vote A vote r qc s Hs Ha Hq Heq).
    destruct Hcase as [He|He]; (eapply auth_eqv; [symmetry; exact He|]); [done|].
    by eapply auth_same; [| |apply (auth_adopt_high A b (SelfQc b)), H2].
Qed.

End auth.

(** ** [update] *)

Section update.
Context {DB E : Type} `{DatabaseLaws DB string (Block QCRef)} (env : CoreEnv E).
Implicit Types (s : HotStuffCore DB) (b : Block QCRef).

(** [update] changes neither votes, certificates nor stored blocks. *)
Lemma update_spec_frame b s :
  voteHeight (update_spec env b s).2 = voteHeight s
  ∧ voteSet (update_spec env b s).2 = voteSet s
  ∧ genericQC (update_spec env b s).2 ∈ [genericQC s; Justify b].
Proof.
  unfold update_spec, commit, adopt_high, adopt_lock.
  destruct (qc_block s (Justify b)) as [b2|]; [|set_solver].
  destruct (verified _ _ _ && _), (qc_block s (Justify b2)) as [b1|]; simpl;
    try (split_and!; [done|done|set_solver]);
    destruct (above b1 _), (qc_block s (Justify b1)) as [b0|]; simpl; try (split_and!; [done|done|set_solver]);
    destruct (_ && _); simpl; try (split_and!; [done|done|set_solver]);
    destruct (qc_block _ _); simpl; (split_and!; [done|done|set_solver]).
Qed.

Lemma adopt_high_locked b o s : lockedQC (adopt_high env b o s) = lockedQC s.
Proof. unfold adopt_high. by destruct (_ && _). Qed.

(** The lock after [update]: unchanged, or moved up to the block [b''.justify]
    names; and where the chain of two justifications and the lock are stored,
    not below it. *)
Lemma update_spec_lock b s :
  lockedQC (update_spec env b s).2 = lockedQC s
  ∨ ∃ b2 b1 lb, qc_block s (Justify b) = Some b2 ∧ qc_block s (Justify b2) = Some b1
      ∧ qc_block s (lockedQC s) = Some lb ∧ (Height lb < Height b1)%Z
      ∧ lockedQC (update_spec env b s).2 = Justify b2.
Proof.
  unfold update_spec, commit. destruct (qc_block s (Justify b)) as [b2|]; [|by left].
  set (s1 := adopt_high env b2 (Justify b) s).
  assert (H1 : lockedQC s1 = lockedQC s) by apply adopt_high_locked.
  destruct (qc_block s (Justify b2)) as [b1|] eqn:Hb1; [|by left].
  assert (H2 : lockedQC (adopt_lock b1 (Justify b2) s1) = lockedQC s ∨
    ∃ lb, qc_block s (lockedQC s) = Some lb ∧ (Height lb < Height b1)%Z
      ∧ lockedQC (adopt_lock b1 (Justify b2) s1) = Justify b2).
  { unfold adopt_lock. rewrite H1, (qc_block_same s s1) by (apply adopt_high_same).
    unfold above. destruct (qc_block s (lockedQC s)) as [lb|]; [|by left].
    case_bool_decide; [right; eauto|by left]. }
  set (s2 := adopt_lock _ _ _) in *.
  assert (Hl : ∀ t : HotStuffCore DB, lockedQC t = lockedQC s2 → lockedQC t = lockedQC s ∨
    ∃ b3 b4 lb, Some b2 = Some b3 ∧ qc_block s (Justify b3) = Some b4
      ∧ qc_block s (lockedQC s) = Some lb ∧ (Height lb < Height b4)%Z ∧ lockedQC t = Justify b3).
  { intros t ->. destruct H2 as [|(lb & ? & ? & ?)]; [by left|right]. by exists b2, b1, lb. }
  destruct (qc_block s (Justify b1)) as [b0|]; [|by apply Hl].
  destruct (_ && _); [|by apply Hl]. destruct (qc_block s2 (execQC s2)); by apply Hl.
Qed.

Lemma update_spec_lock_ge b s b2 b1 lb' :
  qc_block s (Justify b) = Some b2 → qc_block s (Justify b2) = Some b1 →
  qc_block s (lockedQC (update_spec env b s).2) = Some lb' → (Height b1 ≤ Height lb')%Z.
Proof.
  intros Hb2 Hb1 Hlb. unfold update_spec, commit in Hlb. rewrite Hb2, Hb1 in Hlb.
  set (s1 := adopt_high env b2 (Justify b) s) in *.
  assert (H1 : lockedQC s1 = lockedQC s) by apply adopt_high_locked.
  assert (H2 : qc_block s (lockedQC (adopt_lock b1 (Justify b2) s1)) = Some lb' → (Height b1 ≤ Height lb')%Z).
  { unfold adopt_lock. rewrite H1, (qc_block_same s s1) by (apply adopt_high_same).
    unfold above. destruct (qc_block s (lockedQC s)) as [lb|] eqn:Hl.
    - case_bool_decide; simpl; [rewrite Hb1|rewrite H1, Hl]; intros [= <-]; lia.
    - by rewrite H1, Hl. }
  set (s2 := adopt_lock _ _ _) in *.
  destruct (qc_block s (Justify b1)) as [b0|]; [|by apply H2].
  destruct (_ && _); [|by apply H2]. destruct (qc_block s2 (execQC s2)); by apply H2.
Qed.

(** The decisions [update] announces. *)
Lemma update_spec_decides b s :
  ∃ l1 l2, notifyChan (update_spec env b s).2 = notifyChan s ++ l1 ++ (DecideEvent <$> l2)
    ∧ Forall quiet_event l1
    ∧ (l2 = [] ∨ ∃ b2 b1 b0 eb, three_chain s b b2 b1 b0 ∧ qc_block s (execQC s) = Some eb
         ∧ l2 = branch s (exec_gap s b0 eb) (GetBlockHash b0)).
Proof.
  assert (Hq : Forall quiet_event (high_events env b s)).
  { unfold high_events. destruct (qc_block s (Justify b)); [|done].
    destruct (_ && _); by repeat constructor. }
  destruct (update_spec_events env b s) as [Hn|(b2 & b1 & b0 & eb & H3 & Hx & Hn)]; rewrite Hn.
  - exists (high_events env b s), []. rewrite app_nil_r. split_and!; [done..|by left].
  - eexists _, _. split_and!; [done..|]. right. by exists b2, b1, b0, eb.
Qed.

End update.

(** ** Every call leaves only authentic signatures *)

Section call_auth.
Context {DB E : Type} `{DatabaseLaws DB string (Block QCRef)} (env : CoreEnv E).
Implicit Types (s : HotStuffCore DB) (b : Block QCRef).
Context (clone_copies : ∀ qc, clone env qc = qc).
Context (Hq : (0 < GetQuorumSize (Metadata (replicas env)))%Z).

Lemma accept_spec_certs ent prop b s :
  qcHeap (accept_spec env ent prop b s).2 = qcHeap s ∧ voteSet (accept_spec env ent prop b s).2 = voteSet s.
Proof.
  pose proof (update_spec_heap env b s) as Hh. destruct (update_spec_frame env b s) as (_ & Hv & _).
  unfold accept_spec, apply_rule. destruct ((update_spec env b s).1); [|done].
  case_decide; (destruct (rule_outcome _ _), (qc_hash s (SelfQc b)); [|done..]); by destruct (Sign _ _ _).
Qed.

Lemma receive_auth A ent prop s :
  core_wf s → prop_ok (length (qcHeap s)) prop → auth env A s →
  auth env A (OnReceiveProposal env ent prop s).2.
Proof.
  intros Hwf Hp. assert (Hp' := Hp). destruct Hp' as (b & Hb & _).
  destruct (receive_run env ent prop b s Hwf Hp Hb) as (h & s1 & _ & _ & _ & _ & Hs1 & Hout).
  destruct (accept_spec_certs ent prop b s1) as [Hh Hv].
  case_decide; [destruct Hout as [_ He]|destruct Hout as (jh & _ & _ & He)]; apply auth_same.
  - by rewrite (qcHeap_proper _ _ He), Hh, Hs1.
  - by rewrite (voteSet_proper _ _ He), Hv, Hs1.
  - by rewrite (qcHeap_proper _ _ He), Hs1.
  - by rewrite (voteSet_proper _ _ He), Hs1.
Qed.

Lemma wake_auth A ent prop s :
  core_wf s → prop_ok (length (qcHeap s)) prop → auth env A s →
  auth env A (OnReceiveProposal_wake env ent prop s).2.
Proof.
  intros Hwf Hp. assert (Hp' := Hp). destruct Hp' as (b & Hb & _).
  pose proof (wake_run env ent prop b s Hwf Hp Hb) as Hout. cbv zeta in Hout.
  destruct (accept_spec_certs ent prop b s) as [Hh Hv].
  case_decide; destruct Hout as [_ He]; apply auth_same.
  - by rewrite (qcHeap_proper _ _ He), Hh.
  - by rewrite (voteSet_proper _ _ He), Hv.
  - by rewrite (qcHeap_proper _ _ He).
  - by rewrite (voteSet_proper _ _ He).
Qed.

(** A block stored under its own hash keeps the store keyed. *)
Lemma keyed_store s s1 h b :
  keyed s → qcHeap s `prefix_of` qcHeap s1 → qc_hash s1 (SelfQc b) = Some h → stored s1 h = Some b →
  (∀ k, k ≠ h → stored s1 k = None ∨ stored s1 k = stored s k) → keyed s1.
Proof.
  intros Hk Hpre Hh Hb Hothers k b' Hs. destruct (decide (k = h)) as [->|Hne]; [congruence|].
  destruct (Hothers k Hne) as [He|He]; [congruence|]. rewrite He in Hs. specialize (Hk k b' Hs).
  unfold qc_hash in *. destruct (SelfQc b') as [r|]; simpl in *; [|done].
  destruct (qcHeap s !! r) as [qc|] eqn:Hr; [|done]. by rewrite (prefix_lookup_Some _ _ _ _ Hr Hpre).
Qed.

Lemma propose_auth A now ent view parentHash cmds s :
  core_wf s → keyed s → auth env A s →
  let s' := (OnPropose env now ent view parentHash cmds s).2 in
  auth env (λ j h, A j h ∨ (j = id env ∧ voted s' h)) s'.
Proof.
  intros Hwf Hk Ha s'. destruct (wf_lookup _ _ (wf_generic s Hwf)) as (g & gq & Hg & Hgq).
  assert (Hleft : ∀ s0, s' ≡ s0 → auth env A s0 → auth env (λ j h, A j h ∨ (j = id env ∧ voted s' h)) s').
  { intros s0 He Ha0. eapply auth_eqv; [symmetry; exact He|]. eapply auth_mono; [|exact Ha0]. by left. }
  assert (Hgqa : auth env A (set_qcHeap (qcHeap s ++ [gq]) s)) by (apply auth_alloc; [by eapply (auth_heap env A s Ha)|done]).
  destruct (stored s parentHash) as [pb|] eqn:Hp.
  2: { destruct (OnPropose_no_parent env now ent view parentHash cmds s Hwf Hp) as [_ He]. by eapply Hleft. }
  destruct (decide (voteHeight s < wrap64 (Height pb + 1))%Z) as [Hlt|Hlt].
  2: { destruct (OnPropose_low env clone_copies now ent view parentHash cmds s g gq pb Hwf Hg Hgq Hp) as [_ He];
         [lia|]. by eapply Hleft. }
  destruct (OnPropose_steps env clone_copies now ent view parentHash cmds s g gq pb Hwf Hg Hgq Hp Hlt)
    as (s1 & Hwf1 & Hst1 & Hothers & Hs1 & Hm).
  set (nb := leaf env now parentHash cmds _ s) in *. set (h := GetBlockHash nb) in *.
  assert (Hheap : qcHeap s1 = (qcHeap s ++ [gq]) ++ [MkQuorumCert view h (Some ∅)])
    by (rewrite Hs1; simpl; by rewrite <-app_assoc).
  assert (Hgqa2 := auth_alloc env A (MkQuorumCert view h (Some ∅)) _ (qc_auth_empty env A view h) Hgqa).
  assert (Ha1 : auth env A s1).
  { apply (auth_same env A _ s1) in Hgqa2; [done|done|by rewrite Hs1]. }
  pose proof (update_spec_heap env nb s1) as Hh2. destruct (update_spec_frame env nb s1) as (_ & Hv2 & _).
  assert (Ha2 : auth env A (update_spec env nb s1).2) by (by eapply auth_same).
  assert (Ha3 : auth env A (set_voteHeight (Height nb) (update_spec env nb s1).2)) by (by eapply auth_same).
  destruct ((update_spec env nb s1).1); [|destruct Hm as [_ He]; by eapply Hleft].
  destruct (Sign env ent h) as [e|sig]; [destruct Hm as [_ He]; by eapply Hleft|].
  destruct Hm as (s3 & Hwf3 & He3 & Hout). set (vote := vote_for env view h sig) in *.
  assert (Hq1 : qcHeap s1 !! S (length (qcHeap s)) = Some (MkQuorumCert view h (Some ∅))).
  { rewrite Hheap, lookup_app_r by (rewrite length_app; simpl; lia).
    by replace (S (length (qcHeap s)) - length (qcHeap s ++ [gq]))%nat with 0%nat by (rewrite length_app; simpl; lia). }
  assert (Hst3 : ∀ k, stored s3 k = stored s1 k) by (intros k; rewrite He3; apply update_spec_stored).
  assert (Hheap3 : qcHeap s3 = qcHeap s1) by (by rewrite (qcHeap_proper _ _ He3)).
  destruct (first_vote env vote nb (S (length (qcHeap s))) (MkQuorumCert view h (Some ∅)) s3 Hwf3) as (Hok & _);
    [by eexists|by rewrite Hst3|done|by rewrite Hheap3|done|done|].
  assert (Hkeyed : keyed s3).
  { apply (keyed_store s s3 h nb Hk).
    - rewrite Hheap3, Hheap, <-app_assoc. by apply prefix_app_r.
    - unfold qc_hash. simpl. by rewrite Hheap3, Hq1.
    - by rewrite Hst3.
    - intros k Hne. rewrite !Hst3. by apply Hothers. }
  destruct (OnProposalVote env vote s3) as [o v] eqn:Hov. simpl in Hok. subst o.
  assert (Hs' : s' = emit [ProposeEvent (MkProposal view (Some nb))] v).
  { unfold s'. rewrite Hout. by rewrite (run_bind_Ok _ _ _ _ _ Hov). }
  eapply (auth_same env _ v); [by rewrite Hs'..|]. replace v with (OnProposalVote env vote s3).2 by (by rewrite Hov).
  apply vote_keeps_auth; [done|done|by eexists| |].
  - eapply auth_mono; [|eapply auth_eqv; [symmetry; exact He3|exact Ha3]]. by left.
  - intros info c _ _ _. right. split; [done|]. eexists. rewrite Hs'. split; [apply elem_of_app; right; by left|done].
Qed.

(** After any call every signature was authentic before, is the vote received,
    or is the replica's own vote. *)
Lemma call_auth A s c :
  core_wf s → call_ok (length (qcHeap s)) c → keyed s → auth env A s →
  match c with CallVote v => vote_auth env A v | _ => True end →
  let s' := (run_call env c s).2 in auth env (λ j h, A j h ∨ (j = id env ∧ voted s' h)) s'.
Proof.
  intros Hwf Hok Hk Ha Hv s'. destruct c; simpl in *; [by apply propose_auth|..];
    (eapply auth_mono; [by left|]).
  - by apply receive_auth.
  - by apply wake_auth.
  - by apply vote_keeps_auth.
  - by eapply auth_same; [..|exact Ha].
  - destruct (wp_run _ _ _ (wp_UpdateHighestQC env block qc s Hwf Hok)) as (s0 & He & _ & ->).
    eapply auth_eqv; [symmetry; exact He|]. by apply auth_adopt_high.
  - destruct (LoadBlock_run hash s (wf_store s Hwf)) as (x & s1 & Hl & He & _).
    unfold s', run_call. rewrite (run_bind_Ok _ _ _ _ _ Hl). eapply auth_eqv; [symmetry; exact He|done].
Qed.

End call_auth.
