(* ===== verification/CoreReads.v ===== *)
(** * Which blocks a handler reads

    The cache of [memorydb] forgets the blocks used longest ago, so which blocks
    are still there depends on which ones the handlers read.  [reads T m s] says
    that the run of [m] from [s] changes the block store only by reading keys of
    [T]; this file shows it for the methods [OnReceiveProposal] is made of. *)

From stdpp Require Import base numbers fin_maps gmap sets strings list.
From S2P Require Import Prelude GoMonad Encoding Types Database LRUCache Entity Core.
From S2P Require Import CoreLemmas CoreSafety CoreSpec.

Section reads.
Context {DB E : Type} `{DatabaseLaws DB string (Block QCRef)} (env : CoreEnv E) (T : gset string).
Implicit Types (s : HotStuffCore DB) (b : Block QCRef) (d : DB).

(** A store reached by reading keys of [T]. *)
Definition touches d d' : Prop :=
  ∃ ks, Forall (.∈ T) ks ∧ d' = foldl (λ d k, (db_get k d).2) d ks.

#[global] Instance touches_preorder : PreOrder touches.
Proof.
  split.
  - intros d. by exists [].
  - intros d1 d2 d3 (k1 & H1 & ->) (k2 & H2 & ->). exists (k1 ++ k2).
    split; [by apply Forall_app|]. by rewrite foldl_app.
Qed.

Definition reads {A} (m : M (HotStuffCore DB) A) s : Prop := touches (blockCache s) (blockCache (m s).2).

Lemma reads_same {A} (m : M (HotStuffCore DB) A) s :
  blockCache (m s).2 = blockCache s → reads m s.
Proof. intros Hm. unfold reads. rewrite Hm. reflexivity. Qed.

Lemma reads_bind {A B} (m : M (HotStuffCore DB) A) (f : A → M (HotStuffCore DB) B) s :
  reads m s → (∀ a s', m s = (Ok a, s') → reads (f a) s') → reads (m ≫= f) s.
Proof.
  unfold reads, mbind, M_bind. intros Hm Hf. destruct (m s) as [[a|e| |w] s']; [|done..].
  etrans; [exact Hm|]. by apply Hf.
Qed.

Lemma reads_assoc {A B C} (m : M (HotStuffCore DB) A) (f : A → M (HotStuffCore DB) B)
    (g : B → M (HotStuffCore DB) C) s :
  reads (m ≫= λ x, f x ≫= g) s → reads ((m ≫= f) ≫= g) s.
Proof. unfold reads. by rewrite bind_assoc. Qed.

Lemma reads_LoadBlock h s : EncodeToString h ∈ T → reads (LoadBlock h) s.
Proof.
  intros Hh. exists [EncodeToString h]. split; [by constructor|]. unfold LoadBlock. simpl.
  by destruct (db_get _ _).
Qed.

Lemma reads_orFail {A} (x : go_error + A) s : reads (orFail x) s.
Proof. apply reads_same. by destruct x. Qed.

Lemma reads_orPanic {A} (x : option A) s : reads (orPanic x) s.
Proof. apply reads_same. by destruct x. Qed.

Lemma reads_read_qc r s : reads (read_qc r) s.
Proof. unfold read_qc. apply reads_bind; [by apply reads_same|]. intros. apply reads_orPanic. Qed.

Lemma reads_deref o s : reads (deref o) s.
Proof. unfold deref. apply reads_bind; [apply reads_orPanic|]. intros. apply reads_read_qc. Qed.

(** The hash a certificate pointer names is in [T]. *)
Definition covers s (o : option QCRef) : Prop := ∀ h, qc_hash s o = Some h → EncodeToString h ∈ T.

#[global] Instance covers_proper : Proper ((≡) ==> (=) ==> iff) covers.
Proof. intros s s' He o ? <-. unfold covers. by setoid_rewrite He. Qed.

Lemma covers_lookup s r qc : covers s (Some r) → qcHeap s !! r = Some qc → EncodeToString (qc_BlockHash qc) ∈ T.
Proof. intros Hc Hq. apply Hc. by apply qc_hash_lookup. Qed.

(** Loading the block a certificate names. *)
Lemma reads_load o s {B} (f : _ → M (HotStuffCore DB) B) :
  covers s o → (∀ r s', s' ≡ s → qc_block s o = match r with inr b => Some b | inl _ => None end → reads (f r) s') →
  store_ok s → reads (q ← deref o; r ← LoadBlock (qc_BlockHash q); f r) s.
Proof.
  intros Hc Hf Hs. apply reads_bind; [apply reads_deref|].
  intros qc s' (-> & r & -> & Hq)%deref_inv. pose proof (covers_lookup _ _ _ Hc Hq) as Hin.
  apply reads_bind; [by apply reads_LoadBlock|]. intros x s' Hl.
  destruct (LoadBlock_run (qc_BlockHash qc) s Hs) as (x' & s2 & Hl' & He & _ & Hst).
  rewrite Hl in Hl'. injection Hl' as <- <-. apply Hf; [done|]. by rewrite (qc_block_lookup _ _ _ Hq).
Qed.

Lemma reads_getJustifyBlock b s : covers s (Justify b) → reads (getJustifyBlock (Some b)) s.
Proof.
  intros Hc. unfold getJustifyBlock. destruct (Justify b) as [j|]; [|by apply reads_same].
  apply reads_bind; [apply reads_read_qc|]. intros qc s' [-> Hq]%read_qc_inv.
  apply reads_LoadBlock. by eapply covers_lookup.
Qed.

(** What [getJustifyBlock] returns. *)
Lemma getJustifyBlock_inv b s r s' :
  core_wf s → block_ok (length (qcHeap s)) b → getJustifyBlock (Some b) s = (Ok r, s') →
  s' ≡ s ∧ qc_block s (Justify b) = match r with inr b => Some b | inl _ => None end.
Proof.
  intros Hwf Hb Hr.
  destruct (wp_run (getJustifyBlock (Some b)) s (λ r s0, s0 = s ∧ ∃ x, r = Ok x
    ∧ qc_block s (Justify b) = match x with inr b => Some b | inl _ => None end)) as (s0 & He & -> & x & Hx & Hq).
  { apply wp_getJustifyBlock; [done..|]. intros x Hx. split; [done|]. by exists x. }
  rewrite Hr in He, Hx. simpl in He, Hx. injection Hx as ->. done.
Qed.

Lemma reads_UpdateHighestQC b o s : store_ok s → covers s (genericQC s) → reads (UpdateHighestQC env b o) s.
Proof.
  intros Hs Hc. unfold UpdateHighestQC. apply reads_bind; [apply reads_deref|].
  intros q s' (-> & _)%deref_inv. apply reads_bind; [apply reads_orPanic|].
  intros ok s' [_ ->]%orPanic_Ok_inv. destruct ok; [|by apply reads_same].
  apply reads_bind; [by apply reads_same|]. intros g s' Hg. injection Hg as <- <-.
  destruct (genericQC s) as [g|]; [|by apply reads_same].
  apply reads_load; [done| |done]. intros [e|hb] s' _ _; [by apply reads_same|].
  case_decide; [|by apply reads_same]. apply reads_bind; [by apply reads_same|]. intros. by apply reads_same.
Qed.

Lemma reads_updateLockedQC b o s :
  core_wf s → covers s (lockedQC s) → reads (updateLockedQC b o) s.
Proof.
  intros Hwf Hc. unfold updateLockedQC. destruct (wf_locked s Hwf) as (l & Hl & _).
  apply reads_bind; [by apply reads_same|]. intros x s' Hx. injection Hx as <- <-. rewrite Hl.
  apply reads_bind; [by apply reads_same|]. intros [] s' Hx. injection Hx as <-.
  apply reads_bind; [by apply reads_same|]. intros x s' Hx. injection Hx as <- <-.
  apply reads_load; [done| |apply Hwf]. intros [e|lb] s' _ _; [by apply reads_same|].
  case_decide; [|by apply reads_same]. apply reads_bind; [apply reads_deref|]. intros. by apply reads_same.
Qed.

(** The keys of [branch s n h], and the one where it breaks off, are in [T]. *)
Fixpoint covers_branch s (n : nat) (h : bytes) : Prop :=
  match n with
  | O => True
  | S n => EncodeToString h ∈ T ∧ ∀ b, stored s h = Some b → covers_branch s n (ParentHash b)
  end.

Lemma covers_branch_ext s s' n : ∀ h, (∀ h, stored s' h = stored s h) → covers_branch s n h → covers_branch s' n h.
Proof.
  induction n as [|n IH]; intros h He; [done|]. intros [Hh Hb]. split; [done|]. intros b. rewrite He. auto.
Qed.

Lemma reads_decide_loop n : ∀ h s, store_ok s → covers_branch s n h → reads (decide_loop n h) s.
Proof.
  induction n as [|n IH]; intros h s Hs Hc; [by apply reads_same|]. destruct Hc as [Hh Hc].
  cbn [decide_loop]. apply reads_bind; [by apply reads_LoadBlock|]. intros x s' Hl.
  destruct (LoadBlock_run h s Hs) as (x' & s2 & Hl' & He & Hs2 & Hst). rewrite Hl in Hl'. injection Hl' as <- <-.
  destruct x as [e|b]; [by apply reads_same|]. apply reads_bind; [apply reads_orFail|].
  intros nb s2 Hx. injection Hx as <- <-. apply reads_bind; [by apply reads_same|].
  intros [] s2 Hn. injection Hn as <-. apply IH; [done|].
  eapply covers_branch_ext; [|by apply Hc]. intros h'. exact (eqv_stored _ _ He h').
Qed.

Lemma reads_decide_phase b0 b1 s :
  core_wf s → covers s (execQC s) →
  (∀ eb, qc_block s (execQC s) = Some eb → covers_branch s (exec_gap s b0 eb) (GetBlockHash b0)) →
  reads (decide_phase b0 b1) s.
Proof.
  intros Hwf Hc Hbr. unfold decide_phase. destruct (wf_lookup _ _ (wf_exec s Hwf)) as (e & eq & He & Heq).
  apply reads_bind; [by apply reads_same|]. intros x s' Hx. injection Hx as <- <-. rewrite He in *.
  apply reads_assoc, reads_bind; [apply reads_deref|]. intros q s' (-> & r & [= <-] & Hq)%deref_inv.
  apply reads_assoc, reads_bind; [apply reads_LoadBlock; by eapply covers_lookup|].
  intros x s' Hl. destruct (LoadBlock_run (qc_BlockHash q) s (wf_store s Hwf)) as (x' & s2 & Hl' & Hes & Hs2 & Hst).
  rewrite Hl in Hl'. injection Hl' as <- <-. rewrite (qc_block_lookup _ _ _ Hq), Hst in Hbr.
  destruct x as [err|eb]; [by apply reads_same|].
  apply reads_assoc, reads_bind; [apply reads_orFail|]. intros nb s2 Hx. injection Hx as <- <-.
  apply reads_bind; [by apply reads_same|]. intros hh s2 Hx. injection Hx as <- <-.
  apply reads_bind; [by apply reads_same|]. intros [] s2 Hx. injection Hx as <-.
  apply reads_decide_loop; [done|]. eapply covers_branch_ext; [|by apply Hbr].
  intros h'. exact (eqv_stored _ _ Hes h').
Qed.

Lemma wp_ok {A} (m : M (HotStuffCore DB) A) s s1 a s' Φ :
  wp m s Φ → s1 ≡ s → m s1 = (Ok a, s') → ∃ s0, s' ≡ s0 ∧ Φ (Ok a) s0.
Proof. intros Hm He Hr. destruct (Hm s1 He) as (s0 & H1 & H2). rewrite Hr in H1, H2. by exists s0. Qed.

(** The blocks [update] follows from [b]: its three-chain, the highest, locked
    and executed blocks, and the branch it decides. *)
Definition update_covered s b : Prop :=
  covers s (Justify b) ∧ covers s (genericQC s) ∧ covers s (lockedQC s) ∧ covers s (execQC s)
  ∧ ∀ b2, qc_block s (Justify b) = Some b2 → covers s (Justify b2)
  ∧ ∀ b1, qc_block s (Justify b2) = Some b1 → covers s (Justify b1)
  ∧ ∀ b0 eb, qc_block s (Justify b1) = Some b0 → qc_block s (execQC s) = Some eb →
      covers_branch s (exec_gap s b0 eb) (GetBlockHash b0).

#[global] Instance covers_branch_proper : Proper ((≡) ==> (=) ==> (=) ==> iff) covers_branch.
Proof.
  intros s s' He n ? <- h ? <-. split; apply covers_branch_ext; intros h'; [symmetry|]; exact (eqv_stored _ _ He h').
Qed.

Lemma update_covered_eqv s s' b : s ≡ s' → update_covered s b ↔ update_covered s' b.
Proof.
  intros He. unfold update_covered.
  rewrite (genericQC_proper _ _ He), (lockedQC_proper _ _ He), (execQC_proper _ _ He).
  unfold exec_gap. by setoid_rewrite He.
Qed.

Lemma covers_same s t s' o : s' ≡ t → qcHeap t = qcHeap s → covers s o → covers s' o.
Proof. intros He Hh Ho h. rewrite He, (qc_hash_same s) by done. apply Ho. Qed.

Lemma stored_same s t s' h : s' ≡ t → blockCache t = blockCache s → stored s' h = stored s h.
Proof. intros He Hd. rewrite He. unfold stored. by rewrite Hd. Qed.

(** [update] from the lock on. *)
Definition lock_and_decide b1 b2 : M (HotStuffCore DB) unit :=
  _ ← updateLockedQC b1 (Justify b2);
  r0 ← getJustifyBlock (Some b1);
  match r0 with
  | inl _ => mret tt
  | inr b0 =>
      j2 ← deref (Justify b2);
      j1 ← deref (Justify b1);
      if decide (ParentHash b2 ≠ qc_BlockHash j2 ∨ ParentHash b1 ≠ qc_BlockHash j1) then mret tt
      else decide_phase b0 b1
  end.

Lemma reads_lock_and_decide b1 b2 s t s' :
  s' ≡ t → core_wf t → qcHeap t = qcHeap s → blockCache t = blockCache s →
  lockedQC t = lockedQC s → execQC t = execQC s →
  block_ok (length (qcHeap s)) b1 → ref_ok (length (qcHeap s)) (Justify b2) →
  covers s (lockedQC s) → covers s (execQC s) → covers s (Justify b1) →
  (∀ b0 eb, qc_block s (Justify b1) = Some b0 → qc_block s (execQC s) = Some eb →
     covers_branch s (exec_gap s b0 eb) (GetBlockHash b0)) →
  reads (lock_and_decide b1 b2) s'.
Proof.
  intros He Hwt Hh Hd Hlt Hxt Hb1 Hj2 Hl Hx Hj1 Hc. unfold lock_and_decide. apply reads_bind.
  { apply reads_updateLockedQC; [by eapply core_wf_eqv|].
    rewrite (lockedQC_proper _ _ He), Hlt. by eapply covers_same. }
  intros [] s4 Hul. rewrite <-Hh in Hj2, Hb1.
  destruct (wp_ok _ t _ _ _ _ (wp_updateLockedQC b1 (Justify b2) t Hwt Hj2) He Hul) as (t4 & He4 & _ & ->).
  destruct (adopt_lock_same b1 (Justify b2) t) as [Hh4 Hd4].
  assert (Hx4 : execQC (adopt_lock b1 (Justify b2) t) = execQC t) by (unfold adopt_lock; by destruct (above _ _)).
  assert (Hwt4 : core_wf (adopt_lock b1 (Justify b2) t)) by (by apply wf_adopt_lock).
  set (t4 := adopt_lock b1 (Justify b2) t) in *. rewrite Hh in Hh4. rewrite Hd in Hd4. rewrite Hxt in Hx4.
  apply reads_bind; [apply reads_getJustifyBlock; by eapply covers_same|].
  intros r0 s5 Hgj. apply getJustifyBlock_inv in Hgj as [He5 Hr0];
    [|by eapply core_wf_eqv|by rewrite He4, Hh4, <-Hh]. rewrite He4 in He5. rewrite He4, (qc_block_same s) in Hr0 by done.
  destruct r0 as [e|b0]; [by apply reads_same|].
  apply reads_bind; [apply reads_deref|]. intros j2 s6 (-> & _)%deref_inv.
  apply reads_bind; [apply reads_deref|]. intros j1 s6 (-> & _)%deref_inv.
  case_decide; [by apply reads_same|].
  assert (Hx5 : execQC s5 = execQC s) by (by rewrite (execQC_proper _ _ He5)).
  apply reads_decide_phase; rewrite ?Hx5; [by eapply core_wf_eqv|by eapply covers_same|].
  intros eb Heb. rewrite He5, (qc_block_same s) in Heb by done.
  eapply covers_branch_ext; [|by apply Hc]. intros h. by eapply stored_same.
Qed.

Lemma reads_update b s :
  core_wf s → block_ok (length (qcHeap s)) b → update_covered s b → reads (update env b) s.
Proof.
  intros Hwf Hb (Hj & Hg & Hl & Hx & Hc). unfold update.
  apply reads_bind; [by apply reads_getJustifyBlock|].
  intros r2 s1 [He1 Hr2]%getJustifyBlock_inv; [|done..].
  destruct r2 as [e|b2]; [by apply reads_same|]. destruct (Hc b2 Hr2) as [Hj2 Hc2].
  apply reads_bind; [apply reads_orFail|]. intros b2' s1' Ho. injection Ho as <- <-.
  assert (Hb2 : block_ok (length (qcHeap s)) b2) by (by eapply qc_block_ok).
  assert (Hrj : ref_ok (length (qcHeap s)) (Justify b)) by (by eapply qc_block_ref).
  apply reads_bind.
  { apply reads_UpdateHighestQC; [by rewrite He1; apply Hwf|]. by rewrite (genericQC_proper _ _ He1), He1. }
  intros [] s2 Hu. destruct (wp_ok _ s _ _ _ _ (wp_UpdateHighestQC env b2 (Justify b) s Hwf Hrj) He1 Hu)
    as (t2 & He2 & _ & ->).
  destruct (adopt_high_same env b2 (Justify b) s) as [Hh2 Hd2].
  assert (Hwt2 : core_wf (adopt_high env b2 (Justify b) s)) by (by apply wf_adopt_high).
  assert (Hf : lockedQC (adopt_high env b2 (Justify b) s) = lockedQC s
               ∧ execQC (adopt_high env b2 (Justify b) s) = execQC s)
    by (unfold adopt_high; by destruct (_ && _)).
  set (t2 := adopt_high env b2 (Justify b) s) in *. destruct Hf as [Hlt Hxt].
  apply reads_bind; [apply reads_getJustifyBlock; by eapply covers_same|].
  intros r1 s3 Hgj. apply getJustifyBlock_inv in Hgj as [He3 Hr1];
    [|by eapply core_wf_eqv|by rewrite He2, Hh2]. rewrite He2 in He3. rewrite He2, (qc_block_same s) in Hr1 by done.
  destruct r1 as [e|b1]; [by apply reads_same|]. destruct (Hc2 b1 Hr1) as [Hj1 Hc1].
  apply (reads_lock_and_decide b1 b2 s t2 s3); try done; [by eapply qc_block_ok|by eapply qc_block_ref].
Qed.

(** ** The voting rule and the handler *)

Fixpoint covers_walk s (n : nat) b : Prop :=
  match n with
  | O => True
  | S n => EncodeToString (ParentHash b) ∈ T ∧ ∀ p, stored s (ParentHash b) = Some p → covers_walk s n p
  end.

Lemma covers_walk_ext s s' n : ∀ b, (∀ h, stored s' h = stored s h) → covers_walk s n b → covers_walk s' n b.
Proof.
  induction n as [|n IH]; intros b He; [done|]. intros [Hh Hb]. split; [done|]. intros p. rewrite He. auto.
Qed.

Lemma reads_walk_parents n : ∀ b s, store_ok s → covers_walk s n b → reads (walk_parents n b) s.
Proof.
  induction n as [|n IH]; intros b s Hs Hc; [by apply reads_same|]. destruct Hc as [Hh Hc].
  cbn [walk_parents]. apply reads_bind; [by apply reads_LoadBlock|]. intros x s' Hl.
  destruct (LoadBlock_run (ParentHash b) s Hs) as (x' & s2 & Hl' & He & Hs2 & Hst).
  rewrite Hl in Hl'. injection Hl' as <- <-.
  destruct x as [e|p]; [by apply reads_same|]. apply reads_bind; [apply reads_orFail|].
  intros nb s2 Hx. injection Hx as <- <-. apply IH; [done|].
  eapply covers_walk_ext; [|by apply Hc]. intros h. exact (eqv_stored _ _ He h).
Qed.

(** The blocks the voting rule follows from [b]. *)
Definition rule_covered s b : Prop :=
  covers s (Justify b) ∧ covers s (lockedQC s)
  ∧ ∀ jb lb, qc_block s (Justify b) = Some jb → qc_block s (lockedQC s) = Some lb →
      ¬ (Height lb < Height jb)%Z → covers_walk s (Z.to_nat (wrap64 (Height b - Height lb))) b.

Lemma reads_vote_rule b s s' :
  s' ≡ s → core_wf s → block_ok (length (qcHeap s)) b → rule_covered s b → reads (vote_rule b) s'.
Proof.
  intros He Hwf Hb (Hj & Hl & Hw). unfold vote_rule.
  assert (Hwf' : core_wf s') by (by eapply core_wf_eqv).
  apply reads_bind; [by apply reads_same|]. intros vh s1 Hx. injection Hx as <- <-.
  case_decide; [|by apply reads_same].
  apply reads_bind; [apply reads_getJustifyBlock; by rewrite He|].
  intros rj s1 [He1 Hrj]%getJustifyBlock_inv; [|done|by rewrite He]. rewrite He in Hrj, He1.
  destruct rj as [e|jb]; [by apply reads_same|]. apply reads_bind; [apply reads_orFail|].
  intros jb' s1' Ho. injection Ho as <- <-.
  apply reads_bind; [by apply reads_same|]. intros l s1' Hx. injection Hx as <- <-.
  apply reads_load; [by rewrite (lockedQC_proper _ _ He1), He1| |by rewrite He1; apply Hwf].
  intros [e|lb] s2 He2 Hlb; [by apply reads_same|]. rewrite He1 in He2.
  rewrite (lockedQC_proper _ _ He1), He1 in Hlb.
  apply reads_bind; [apply reads_orFail|]. intros lb' s2' Ho. injection Ho as <- <-.
  case_decide as Hlt; [by apply reads_same|].
  apply reads_bind.
  { apply reads_walk_parents; [by rewrite He2; apply Hwf|].
    eapply covers_walk_ext; [|by eapply Hw]. intros h. exact (eqv_stored _ _ He2 h). }
  intros nb s3 _. apply reads_bind; [apply reads_deref|]. intros nq s4 (-> & _)%deref_inv.
  apply reads_bind; [apply reads_deref|]. intros lq s4 (-> & _)%deref_inv.
  case_decide; by apply reads_same.
Qed.

Lemma reads_acceptProposal ent prop b s s' :
  s' ≡ s → core_wf s → block_ok (length (qcHeap s)) b → update_covered s b →
  rule_covered (update_spec env b s).2 b → reads (acceptProposal env ent prop b) s'.
Proof.
  intros He Hwf Hb Hu Hr. unfold acceptProposal. apply reads_bind.
  { apply reads_update; [by eapply core_wf_eqv|by rewrite He|]. by apply (update_covered_eqv _ _ _ He). }
  intros [] s1 Hup. destruct (wp_ok _ s _ _ _ _ (wp_update env b s Hwf Hb) He Hup) as (t1 & He1 & _ & ->).
  pose proof (wf_update_spec env b s Hwf Hb) as Hwf1. pose proof (update_spec_heap env b s) as Hh1.
  apply reads_bind; [apply (reads_vote_rule b (update_spec env b s).2); [done..|by rewrite Hh1|done]|].
  intros [] s2 _. apply reads_bind; [apply reads_deref|]. intros q s3 (-> & _)%deref_inv.
  apply reads_bind; [|intros; by apply reads_same]. unfold voteProposal, createPartCert.
  apply reads_bind; [|intros; by apply reads_same]. apply reads_bind; [apply reads_orFail|].
  intros. by apply reads_same.
Qed.

End reads.
