(* ===== verification/ChainCore.v ===== *)
(** * The core on a certified chain

    What a core does with the next block of a chain in which each block is the
    child of the previous one and justified by a certificate for it: it accepts
    the block, votes for it and decides the block three below.  The invariant
    [chain_inv] says where the core stands after [n] blocks and that the blocks
    it still needs are among the recently used ones of the cache, whose capacity
    is thirty. *)

From stdpp Require Import base numbers fin_maps gmap sets strings list.
From Stdlib Require Import Strings.Byte.
From S2P Require Import Prelude GoMonad Encoding Types Database LRUCache Entity Core.
From S2P Require Import CoreLemmas CoreSafety CoreSpec CoreEffects CoreReads.

(** ** Recency under reads *)

Section recency.
Implicit Types (d : CoreDB) (v : Block QCRef) (T : gset string).

Lemma behind_weaken T T' k v l : T ⊆ T' → behind T k v l → behind T' k v l.
Proof. intros HT (p & q & -> & Hp). exists p, q. split; [done|]. intros x Hx. by apply HT, Hp. Qed.

Lemma behind_lookup T k v d : lru_inv d → behind T k v (abs d) → db_view d k = Some v.
Proof.
  intros Hi (p & q & Ha & _). etrans; [exact (LRU_view d k Hi)|]. apply lookup_Some; [apply Hi|].
  rewrite Ha. apply elem_of_app. right. left.
Qed.

(** Reading keys of [T] keeps a key within the keys of [T'] and [T]. *)
Lemma behind_touches T T' k v d d' :
  touches T d d' → lru_inv d → T ⊆ T' → behind T' k v (abs d) →
  behind T' k v (abs d') ∧ lru_inv d' ∧ capacity d' = capacity d.
Proof.
  intros (ks & Hks & ->). revert d. induction Hks as [|x ks Hx _ IH]; intros d Hi HT Hb; [done|].
  destruct (Get_spec d x Hi) as (_ & Ha & Hi'). cbn [foldl].
  destruct (IH (Get x d).2) as (Hb' & Hi2 & Hc); [done|done| |by rewrite Get_capacity in Hc].
  rewrite Ha. eapply behind_weaken; [|apply behind_touch; [apply Hi|exact Hb]]. set_solver.
Qed.

(** Writing another key, when [T] is smaller than the cache. *)
Lemma behind_written T k v k' v' d :
  lru_inv d → k' ≠ k → behind T k v (abs d) → (Z.of_nat (size ({[k']} ∪ T)) < capacity d)%Z →
  behind ({[k']} ∪ T) k v (abs (Put k' v' d).2).
Proof.
  intros Hi Hne Hb Hc. destruct (Put_spec d k' v' Hi) as (_ & -> & _).
  apply behind_put; [apply Hi|done|done|lia|]. apply remove_nodup, Hi.
Qed.

Lemma behind_new k v d : lru_inv d → (0 < capacity d)%Z → behind ∅ k v (abs (Put k v d).2).
Proof.
  intros Hi Hc. destruct (Put_spec d k v Hi) as (_ & -> & _). unfold Spec.put.
  destruct (Z.to_nat (capacity d)) as [|n] eqn:Hn; [lia|]. simpl. exists [], (take n (Spec.remove k (abs d))).
  split; [done|]. intros x Hx. by apply not_elem_of_nil in Hx.
Qed.

End recency.

(** ** The chain *)

(** The commands of the block of each height. *)
Class ChainCommands := chain_cmds : nat → bytes.

(** The hash and the commands of a decided block. *)
Definition decided (e : EventNotifier) : option (bytes * bytes) :=
  match e with DecideEvent b => Some (GetBlockHash b, Cmds b) | _ => None end.

Definition decided_hash (e : EventNotifier) : option bytes := fst <$> decided e.

Section chain.
Context {E : Type} (env : CoreEnv E) (hs : nat → bytes) {cm : ChainCommands}.
Implicit Types (s : HotStuffCore CoreDB) (b : Block QCRef).

Local Abbreviation key j := (EncodeToString (hs j)).

(** The stored block of height [j]. *)
Record held s (j : nat) b : Prop := {
  held_hash : GetBlockHash b = hs j;
  held_height : Height b = Z.of_nat j;
  held_cmds : (1 ≤ j)%nat → Cmds b = chain_cmds j;
  held_self : qc_hash s (SelfQc b) = Some (hs j);
  held_genesis : j = 0%nat → Justify b = None;
  held_link : (1 ≤ j)%nat → ParentHash b = hs (j - 1) ∧ qc_hash s (Justify b) = Some (hs (j - 1)) }.

(** The keys of the blocks of heights [a] to [n]. *)
Definition window (a n : nat) : gset string := list_to_set ((λ j, key j) <$> seq a (n + 1 - a)).

Lemma elem_of_window a n j : (a ≤ j ≤ n)%nat → key j ∈ window a n.
Proof.
  intros Hj. apply elem_of_list_to_set, list_elem_of_fmap. exists j. split; [done|].
  apply elem_of_seq. lia.
Qed.

Lemma window_subseteq a n a' n' : (a' ≤ a)%nat → (n ≤ n')%nat → window a n ⊆ window a' n'.
Proof.
  intros Ha Hn x. unfold window. rewrite !elem_of_list_to_set, !list_elem_of_fmap.
  intros (j & -> & Hj%elem_of_seq). exists j. split; [done|]. apply elem_of_seq. lia.
Qed.

Lemma window_size a n : (size (window a n) ≤ n + 1 - a)%nat.
Proof.
  unfold window. rewrite <-(length_seq (n + 1 - a) a) at 2. induction (seq a (n + 1 - a)) as [|j l IH]; [done|].
  cbn [fmap list_fmap list_to_set length]. rewrite size_union_alt, size_singleton.
  pose proof (subseteq_size (list_to_set ((λ j, key j) <$> l) ∖ {[key j]} : gset string)
    (list_to_set ((λ j, key j) <$> l)) ltac:(set_solver)). lia.
Qed.

(** What deciding the block of height [j] delivers. *)
Definition decision (j : nat) : bytes * bytes := (hs j, chain_cmds j).

(** The certificates and the vote height after block [n] of the chain.  The
    highest certificate is for block [n - 1], or for block [n] when this replica
    collected its votes. *)
Record progress s (n : nat) : Prop := {
  pr_generic : ∃ g, (n - 1 ≤ g ≤ n)%nat ∧ qc_hash s (genericQC s) = Some (hs g);
  pr_locked : qc_hash s (lockedQC s) = Some (hs (n - 2));
  pr_exec : qc_hash s (execQC s) = Some (hs (n - 3));
  pr_height : voteHeight s = Z.of_nat n;
  pr_decided : omap decided (notifyChan s) = decision <$> seq 1 (n - 3);
  pr_voted : omap event_vote (notifyChan s) = hs <$> seq 1 n }.

Lemma decided_hashes s n : progress s n → omap decided_hash (notifyChan s) = hs <$> seq 1 (n - 3).
Proof.
  intros [_ _ _ _ Pd _]. apply (f_equal (fmap fst)) in Pd. rewrite <-list_fmap_compose in Pd. etrans; [|exact Pd].
  unfold decided_hash. generalize (notifyChan s) as l. induction l as [|e l IH]; [done|].
  cbn [omap list_omap]. destruct (decided e); cbn [fmap option_fmap option_map list_fmap]; by rewrite IH.
Qed.

(** What [update] announces about block [b]: its justification when it becomes the
    highest certificate, and decisions. *)
Definition update_event b (e : EventNotifier) : Prop := e = HqcUpdateEvent (Justify b) ∨ is_decide e = true.

Lemma update_announces s b :
  ∃ l, notifyChan (update_spec env b s).2 = notifyChan s ++ l ∧ Forall (update_event b) l.
Proof.
  unfold update_spec. destruct (qc_block s (Justify b)) as [b2|]; [|exists []; by rewrite app_nil_r].
  assert (Hhigh : ∃ l, notifyChan (adopt_high env b2 (Justify b) s) = notifyChan s ++ l ∧ Forall (update_event b) l).
  { unfold adopt_high. destruct (_ && _); [|exists []; by rewrite app_nil_r].
    exists [HqcUpdateEvent (Justify b)]. split; [done|]. apply Forall_singleton. by left. }
  set (s1 := adopt_high _ _ _ _) in *. destruct Hhigh as (l1 & Hn1 & Hl1).
  destruct (qc_block s (Justify b2)) as [b1|]; [|by exists l1].
  assert (Hlock : notifyChan (adopt_lock b1 (Justify b2) s1) = notifyChan s1) by (unfold adopt_lock; by destruct (above _ _)).
  set (s2 := adopt_lock _ _ _) in *. rewrite Hn1 in Hlock.
  destruct (qc_block s (Justify b1)) as [b0|]; [|by exists l1].
  destruct (direct s b2 && direct s b1); [|by exists l1]. unfold commit.
  destruct (qc_block s2 (execQC s2)) as [eb|]; [|by exists l1].
  exists (l1 ++ (DecideEvent <$> branch s2 (exec_gap s2 b0 eb) (GetBlockHash b0))). split.
  - cbn [snd emit set_notifyChan notifyChan set_execQC]. rewrite Hlock. by rewrite app_assoc.
  - apply Forall_app_2; [done|]. apply Forall_fmap, Forall_true. intros x. by right.
Qed.

(** *** Accepting the next block *)

(** The state in which [b], the block of height [n + 1], is accepted. *)
Record ready s (n : nat) b : Prop := {
  rd_wf : core_wf s;
  rd_block : held s (S n) b;
  rd_verified : (1 ≤ n)%nat → verified env s (Justify b) = true;
  rd_stored j : (j ≤ n)%nat → (n ≤ j + 3)%nat → ∃ bj, stored s (hs j) = Some bj ∧ held s j bj;
  rd_progress : progress s n }.

Lemma qc_block_at s o h : qc_hash s o = Some h → qc_block s o = stored s h.
Proof. unfold qc_block. by intros ->. Qed.

Lemma adopt_high_ready s n b bn :
  ready s n b → held s n bn →
  let s1 := adopt_high env bn (Justify b) s in
  qc_hash s (genericQC s1) = Some (hs n) ∧ lockedQC s1 = lockedQC s ∧ execQC s1 = execQC s
  ∧ voteHeight s1 = voteHeight s ∧ omap decided (notifyChan s1) = omap decided (notifyChan s)
  ∧ omap event_vote (notifyChan s1) = omap event_vote (notifyChan s).
Proof.
  intros [Hwf Hb Hv Hst Hp] Hn. cbv zeta. unfold adopt_high.
  destruct (held_link _ _ _ Hb ltac:(lia)) as [_ Hj]. rewrite Nat.sub_succ, Nat.sub_0_r in Hj.
  destruct (pr_generic _ _ Hp) as (g & Hgn & Hgh). destruct (Hst g) as (gb & Hgb & Hgheld); [lia..|].
  rewrite (qc_block_at _ _ _ Hgh), Hgb. cbn [above].
  rewrite (held_height _ _ _ Hn), (held_height _ _ _ Hgheld).
  destruct (decide (n = g)%nat) as [<-|Hn0].
  - rewrite bool_decide_eq_false_2 by lia. rewrite andb_false_r. split_and!; done.
  - rewrite Hv by lia. rewrite bool_decide_eq_true_2 by lia. cbn [andb emit set_notifyChan set_genericQC
      genericQC lockedQC execQC voteHeight notifyChan].
    rewrite !omap_app. cbn [omap list_omap decided event_vote]. rewrite !app_nil_r. done.
Qed.

Lemma adopt_lock_ready s t n b bn b1 :
  ready s n b → held s n bn → held s (n - 1) b1 → (1 ≤ n)%nat →
  qcHeap t = qcHeap s → blockCache t = blockCache s → lockedQC t = lockedQC s →
  let s2 := adopt_lock b1 (Justify bn) t in
  qc_hash s (lockedQC s2) = Some (hs (n - 1)) ∧ genericQC s2 = genericQC t ∧ execQC s2 = execQC t
  ∧ voteHeight s2 = voteHeight t ∧ notifyChan s2 = notifyChan t.
Proof.
  intros Hr Hn Hm Hn1 Hq Hc Hl. cbv zeta. pose proof (pr_locked _ _ (rd_progress _ _ _ Hr)) as Pl.
  destruct (held_link _ _ _ Hn Hn1) as [_ Hjn].
  destruct (rd_stored _ _ _ Hr (n - 2)%nat) as (lb & Hlb & Hlh); [lia..|].
  unfold adopt_lock. rewrite (qc_block_same s), Hl, (qc_block_at _ _ _ Pl), Hlb by done.
  cbn [above]. rewrite (held_height _ _ _ Hm), (held_height _ _ _ Hlh). case_bool_decide; [done|].
  split_and!; try done. rewrite Hl, Pl. do 2 f_equal. lia.
Qed.

(** What [update] does with the next block of the chain. *)
Lemma ready_update s n b :
  ready s n b →
  let u := (update_spec env b s).2 in
  (update_spec env b s).1 = true
  ∧ qc_hash s (genericQC u) = Some (hs n) ∧ qc_hash s (lockedQC u) = Some (hs (n - 1))
  ∧ qc_hash s (execQC u) = Some (hs (n - 2)) ∧ voteHeight u = Z.of_nat n
  ∧ omap decided (notifyChan u) = decision <$> seq 1 (n - 2)
  ∧ omap event_vote (notifyChan u) = hs <$> seq 1 n.
Proof.
  intros Hr. pose proof Hr as [Hwf Hb Hv Hst Hp]. cbv zeta. unfold update_spec.
  destruct (held_link _ _ _ Hb ltac:(lia)) as [_ Hj]. rewrite Nat.sub_succ, Nat.sub_0_r in Hj.
  destruct (Hst n) as (bn & Hbn & Hn); [lia..|]. rewrite (qc_block_at _ _ _ Hj), Hbn.
  destruct (adopt_high_ready s n b bn Hr Hn) as (Hg1 & Hl1 & Hx1 & Hh1 & Hd1 & Hv1).
  destruct (adopt_high_same env bn (Justify b) s) as [Hq1 Hc1].
  set (s1 := adopt_high env bn (Justify b) s) in *. destruct Hp as [Pg Pl Px Ph Pd Pv].
  rewrite <-Hl1 in Pl. rewrite <-Hx1 in Px. rewrite <-Hh1 in Ph. rewrite <-Hd1 in Pd. rewrite <-Hv1 in Pv.
  destruct (decide (n = 0)%nat) as [->|Hn0].
  { rewrite (held_genesis _ _ _ Hn eq_refl). split_and!; done. }
  destruct (held_link _ _ _ Hn ltac:(lia)) as [Hpn Hjn].
  destruct (Hst (n - 1)%nat) as (b1 & Hb1 & Hm); [lia..|]. rewrite (qc_block_at _ _ _ Hjn), Hb1.
  destruct (Hst (n - 2)%nat) as (lb & Hlb & Hlh); [lia..|].
  pose proof (adopt_lock_ready s s1 n b bn b1 Hr Hn Hm ltac:(lia) Hq1 Hc1 Hl1) as Hlock.
  destruct (adopt_lock_same b1 (Justify bn) s1) as [Hq2 Hc2].
  set (s2 := adopt_lock b1 (Justify bn) s1) in *. destruct Hlock as (Pl2 & Hg2 & Hx2 & Hh2 & Hn2).
  rewrite <-Hg2 in Hg1. rewrite <-Hx2 in Px. rewrite <-Hh2 in Ph. rewrite <-Hn2 in Pd, Pv.
  rewrite Hq1 in Hq2. rewrite Hc1 in Hc2.
  destruct (decide (n = 1)%nat) as [->|Hn1].
  { rewrite (held_genesis _ _ _ Hm eq_refl). split_and!; done. }
  destruct (held_link _ _ _ Hm ltac:(lia)) as [Hpm Hjm].
  replace (n - 1 - 1)%nat with (n - 2)%nat in Hjm, Hpm by lia.
  rewrite (qc_block_at _ _ _ Hjm), Hlb. unfold direct. rewrite Hjn, Hjm, Hpn, Hpm.
  rewrite !bool_decide_eq_true_2 by done. cbn [andb]. unfold commit.
  destruct (Hst (n - 3)%nat) as (eb & Heb & Heh); [lia..|].
  rewrite (qc_block_same s), (qc_block_at _ _ _ Px), Heb by done. cbn [fst snd].
  unfold exec_gap. rewrite (held_height _ _ _ Hlh), (held_height _ _ _ Heh), (held_hash _ _ _ Hlh).
  assert (Hst2 : stored s2 (hs (n - 2)) = Some lb) by (unfold stored; by rewrite Hc2).
  cbn [emit set_notifyChan set_execQC genericQC lockedQC execQC voteHeight notifyChan].
  rewrite !omap_app, Pd, Pv. destruct (decide (n = 2)%nat) as [->|Hn2'].
  - cbn. split_and!; done.
  - replace (Z.of_nat (n - 2) - Z.of_nat (n - 3))%Z with 1%Z by lia.
    change (Z.to_nat (wrap64 1)) with 1%nat. cbn [branch]. rewrite Hst2. cbn [length fmap list_fmap omap list_omap
      decided event_vote]. rewrite (held_hash _ _ _ Hlh), (held_cmds _ _ _ Hlh), app_nil_r by lia.
    replace (n - 2)%nat with (S (n - 3)) at 4 by lia. rewrite seq_S, fmap_app.
    split_and!; try done. cbn [fmap list_fmap]. by replace (1 + (n - 3))%nat with (n - 2)%nat by lia.
Qed.

(** The voting rule passes. *)
Lemma ready_rule s n b :
  ready s n b → rule_outcome b (update_spec env b s).2 = Some true.
Proof.
  intros Hr. pose proof Hr as [Hwf Hb _ Hst Hp].
  destruct (ready_update s n b Hr) as (_ & _ & Hl & _ & Hh & _).
  pose proof (update_spec_heap env b s) as Hq. pose proof (update_spec_stored env b s) as Hs.
  set (u := (update_spec env b s).2) in *.
  destruct (held_link _ _ _ Hb ltac:(lia)) as [Hpb Hj]. rewrite Nat.sub_succ, Nat.sub_0_r in Hj, Hpb.
  rewrite <-(qc_hash_same s u) in Hj, Hl by done.
  destruct (Hst n) as (bn & Hbn & Hn); [lia..|]. destruct (Hst (n - 1)%nat) as (lb & Hlb & Hm); [lia..|].
  rewrite <-Hs in Hbn, Hlb. unfold rule_outcome.
  rewrite Hh, (held_height _ _ _ Hb), decide_True by lia.
  rewrite (qc_block_at _ _ _ Hj), (qc_block_at _ _ _ Hl), Hbn, Hlb. cbn [mbind option_bind].
  rewrite (held_height _ _ _ Hm), (held_height _ _ _ Hn). case_decide; [done|].
  assert (n = 0)%nat as -> by lia. change (Z.to_nat (wrap64 _)) with 1%nat. cbn [ancestor].
  rewrite Hpb, Hbn. cbn [mbind option_bind]. cbn in Hlb. rewrite Hlb in Hbn. injection Hbn as ->.
  by rewrite bool_decide_eq_true_2.
Qed.

(** *** The handler reads only the last five blocks *)

Lemma covers_at s (t : HotStuffCore CoreDB) n o j :
  qcHeap t = qcHeap s → qc_hash s o = Some (hs j) → (n - 3 ≤ j ≤ S n)%nat → covers (window (n - 3) (S n)) t o.
Proof. intros Ht Ho Hj h. rewrite (qc_hash_same s), Ho by done. intros [= <-]. by apply elem_of_window. Qed.

Lemma justify_covered s n j bj :
  held s j bj → (j ≤ n)%nat → (n ≤ j + 2)%nat → covers (window (n - 3) (S n)) s (Justify bj).
Proof.
  intros Hbj Hjn Hnj. destruct (decide (j = 0)%nat) as [->|].
  - rewrite (held_genesis _ _ _ Hbj eq_refl). by intros h.
  - apply (covers_at s s n _ (j - 1)); [done|apply (held_link _ _ _ Hbj); lia|lia].
Qed.

(** The block a recent block justifies is the one before it. *)
Lemma justify_held s n b j bj b' :
  ready s n b → held s j bj → (j ≤ n)%nat → (n ≤ j + 2)%nat → qc_block s (Justify bj) = Some b' →
  (1 ≤ j)%nat ∧ held s (j - 1) b'.
Proof.
  intros Hr Hbj Hjn Hnj Hb'. destruct (decide (j = 0)%nat) as [->|].
  - by rewrite (held_genesis _ _ _ Hbj eq_refl) in Hb'.
  - split; [lia|]. rewrite (qc_block_at _ _ _ (proj2 (held_link _ _ _ Hbj ltac:(lia)))) in Hb'.
    destruct (rd_stored _ _ _ Hr (j - 1)%nat) as (b'' & Hs & Hh); [lia..|]. congruence.
Qed.

Lemma ready_justify s n b :
  ready s n b → ParentHash b = hs n ∧ qc_hash s (Justify b) = Some (hs n)
  ∧ ∃ bn, stored s (hs n) = Some bn ∧ held s n bn.
Proof.
  intros Hr. destruct (held_link _ _ _ (rd_block _ _ _ Hr) ltac:(lia)) as [Hp Hj].
  rewrite Nat.sub_succ, Nat.sub_0_r in Hj, Hp. split_and!; [done|done|]. apply Hr; lia.
Qed.

Lemma ready_update_covered s n b : ready s n b → update_covered (window (n - 3) (S n)) s b.
Proof.
  intros Hr. pose proof (rd_progress _ _ _ Hr) as Hp.
  destruct (ready_justify s n b Hr) as (Hpb & Hj & bn & Hbn & Hn).
  destruct (pr_generic _ _ Hp) as (g & Hgn & Hgh).
  split_and!; [apply (covers_at s s n _ n)|apply (covers_at s s n _ g)
    |apply (covers_at s s n _ (n - 2)%nat)|apply (covers_at s s n _ (n - 3)%nat)|];
    try done; try apply Hp; try lia.
  intros b2 H2. rewrite (qc_block_at _ _ _ Hj), Hbn in H2. injection H2 as <-.
  split; [by apply (justify_covered s n n); [|lia..]|]. intros b1 H1.
  destruct (justify_held s n b n bn b1 Hr Hn) as [Hn1 H1h]; [lia..|done|].
  split; [by apply (justify_covered s n (n - 1)); [|lia..]|]. intros b0 eb H0 He.
  destruct (justify_held s n b (n - 1) b1 b0 Hr H1h) as [Hn2 H0h]; [lia..|done|].
  rewrite (qc_block_at _ _ _ (pr_exec _ _ Hp)) in He.
  destruct (rd_stored _ _ _ Hr (n - 3)%nat) as (eb' & Heb & Heh); [lia..|]. rewrite He in Heb. injection Heb as <-.
  unfold exec_gap. rewrite (held_height _ _ _ H0h), (held_height _ _ _ Heh), (held_hash _ _ _ H0h).
  assert (Hgap : (Z.of_nat (n - 1 - 1) - Z.of_nat (n - 3) = 0 ∨ Z.of_nat (n - 1 - 1) - Z.of_nat (n - 3) = 1)%Z) by lia.
  destruct Hgap as [-> | ->]; [done|]. change (Z.to_nat (wrap64 1)) with 1%nat.
  split; [apply elem_of_window; lia|done].
Qed.

Lemma ready_rule_covered s n b :
  ready s n b → rule_covered (window (n - 3) (S n)) (update_spec env b s).2 b.
Proof.
  intros Hr. destruct (ready_justify s n b Hr) as (Hpb & Hj & bn & Hbn & Hn).
  destruct (ready_update s n b Hr) as (_ & _ & Hl & _). pose proof (update_spec_heap env b s) as Hq.
  set (u := (update_spec env b s).2) in *.
  split_and!; [apply (covers_at s u n _ n)|apply (covers_at s u n _ (n - 1)%nat)|]; try done; try lia.
  intros jb lb Hjb Hlb Hge. rewrite (qc_block_at u _ (hs n)) in Hjb by (by rewrite (qc_hash_same s)).
  rewrite (qc_block_at u _ (hs (n - 1))) in Hlb by (by rewrite (qc_hash_same s)).
  unfold u in Hjb, Hlb. rewrite update_spec_stored in Hjb, Hlb.
  destruct (rd_stored _ _ _ Hr (n - 1)%nat) as (lb' & Hlb' & Hm); [lia..|]. rewrite Hlb in Hlb'. injection Hlb' as <-.
  rewrite Hbn in Hjb. injection Hjb as <-.
  rewrite (held_height _ _ _ Hm), (held_height _ _ _ Hn) in Hge. assert (n = 0)%nat as -> by lia.
  rewrite (held_height _ _ _ Hm), (held_height _ _ _ (rd_block _ _ _ Hr)). change (Z.to_nat (wrap64 _)) with 1%nat.
  split; [|done]. rewrite Hpb. apply elem_of_window. lia.
Qed.

(** *** The invariant *)

Record chain_inv s (n : nat) : Prop := {
  ci_wf : core_wf s;
  ci_capacity : capacity (blockCache s) = 30%Z;
  ci_recent j : (j ≤ n)%nat → (n ≤ j + 3)%nat →
    ∃ bj, behind (window (j - 4) n) (key j) bj (abs (blockCache s)) ∧ held s j bj;
  ci_progress : progress s n }.

Lemma wf_lru s : core_wf s → lru_inv (blockCache s).
Proof. intros Hwf. by destruct (wf_store s Hwf). Qed.

(** Certificates keep naming the same blocks. *)
Definition keeps_hashes s (t : HotStuffCore CoreDB) : Prop := ∀ o h, qc_hash s o = Some h → qc_hash t o = Some h.

Lemma heap_keeps s t : qcHeap t = qcHeap s → keeps_hashes s t.
Proof. intros Hq o h Ho. by rewrite (qc_hash_same s). Qed.

Lemma held_keeps s t j b : keeps_hashes s t → held s j b → held t j b.
Proof.
  intros Hk [? ? ? ? ? Hl]. constructor; try done; [by apply Hk|].
  intros Hj. destruct (Hl Hj). split; [done|by apply Hk].
Qed.

Lemma held_same s t j b : qcHeap t = qcHeap s → held s j b → held t j b.
Proof. intros Hq. by apply held_keeps, heap_keeps. Qed.

Lemma progress_eqv s t n : t ≡ s → progress s n → progress t n.
Proof.
  intros He []. constructor; rewrite ?(genericQC_proper _ _ He), ?(lockedQC_proper _ _ He), ?(execQC_proper _ _ He),
    ?(voteHeight_proper _ _ He), ?(notifyChan_proper _ _ He), ?(qc_hash_same s t) by (by rewrite He); done.
Qed.

(** Reading the last five blocks keeps the recent ones recent. *)
Lemma recent_reads s t n m :
  (n ≤ m ≤ S n)%nat → lru_inv (blockCache s) →
  touches (window (n - 3) m) (blockCache s) (blockCache t) → keeps_hashes s t →
  (∀ j, (j ≤ m)%nat → (m ≤ j + 3)%nat → ∃ bj, behind (window (j - 4) m) (key j) bj (abs (blockCache s)) ∧ held s j bj) →
  capacity (blockCache t) = capacity (blockCache s)
  ∧ ∀ j, (j ≤ m)%nat → (m ≤ j + 3)%nat → ∃ bj, behind (window (j - 4) m) (key j) bj (abs (blockCache t)) ∧ held t j bj.
Proof.
  intros Hm Hi Ht Hq Hrec.
  assert (Hstep : ∀ j bj, (j ≤ m)%nat → behind (window (j - 4) m) (key j) bj (abs (blockCache s)) →
    behind (window (j - 4) m) (key j) bj (abs (blockCache t))
    ∧ lru_inv (blockCache t) ∧ capacity (blockCache t) = capacity (blockCache s)).
  { intros j bj Hj. apply (behind_touches _ _ _ _ _ _ Ht Hi). apply window_subseteq; lia. }
  split.
  - destruct (Hrec m) as (bm & Hb & _); [lia..|]. by apply (Hstep m bm).
  - intros j Hj1 Hj2. destruct (Hrec j Hj1 Hj2) as (bj & Hb & Hh). exists bj.
    split; [by apply (Hstep j bj)|by eapply held_keeps].
Qed.

Lemma inv_reads s t n :
  chain_inv s n → t ≡ s → touches (window (n - 3) n) (blockCache s) (blockCache t) → chain_inv t n.
Proof.
  intros [Hwf Hc Hrec Hp] He Ht.
  destruct (recent_reads s t n n) as [Hct Hrt]; [lia|by apply wf_lru|done|by apply heap_keeps; rewrite He|done|].
  constructor; [by eapply core_wf_eqv|by rewrite Hct|done|by eapply progress_eqv].
Qed.

(** *** Storing the next block *)

Lemma store_recent s t n b :
  chain_inv s n → held s (S n) b → (∀ j, (j ≤ n)%nat → hs j ≠ hs (S n)) →
  blockCache t = (Put (key (S n)) b (blockCache s)).2 → qcHeap t = qcHeap s →
  ∀ j, (j ≤ S n)%nat → (S n ≤ j + 4)%nat →
    ∃ bj, behind (window (j - 4) (S n)) (key j) bj (abs (blockCache t)) ∧ held t j bj.
Proof.
  intros [Hwf Hc Hrec Hp] Hb Hne Hd Hq j Hj1 Hj2. rewrite Hd. pose proof (wf_lru s Hwf) as Hi.
  destruct (decide (j = S n)) as [->|].
  - exists b. split; [|by eapply held_same]. eapply behind_weaken; [|apply behind_new; [done|lia]]. set_solver.
  - destruct (Hrec j) as (bj & Hbj & Hh); [lia..|]. exists bj. split; [|by eapply held_same].
    assert (Hsub : {[key (S n)]} ∪ window (j - 4) n ⊆ window (j - 4) (S n)).
    { apply union_subseteq. split; [|apply window_subseteq; lia].
      apply singleton_subseteq_l. apply elem_of_window. lia. }
    eapply behind_weaken; [exact Hsub|]. apply behind_written; [done| |done|].
    + intros Heq%(inj EncodeToString). apply (Hne j); [lia|done].
    + pose proof (window_size (j - 4) (S n)). apply subseteq_size in Hsub. lia.
Qed.

(** A state in which the next block was accepted and voted for by [e]. *)
Lemma progress_next s n b e w :
  ready s n b → let u := (update_spec env b s).2 in
  event_vote e = Some (hs (S n)) → decided e = None →
  genericQC w = genericQC u → lockedQC w = lockedQC u → execQC w = execQC u →
  keeps_hashes s w →
  voteHeight w = Height b → notifyChan w = notifyChan u ++ [e] →
  progress w (S n) ∧ qc_hash w (genericQC w) = Some (hs n).
Proof.
  intros Hr u Hev Hde Hwg Hwl Hwx Hq Hh Hn.
  destruct (ready_update s n b Hr) as (_ & Hg & Hl & Hx & _ & Hd & Hv). fold u in Hg, Hl, Hx, Hd, Hv.
  assert (Hgen : qc_hash w (genericQC w) = Some (hs n)) by (rewrite Hwg; by apply Hq).
  split; [|done]. constructor.
  - exists n. split; [lia|done].
  - rewrite Hwl. by apply Hq.
  - rewrite Hwx. by apply Hq.
  - rewrite Hh. apply Hr.
  - rewrite Hn, omap_app, Hd. cbn [omap list_omap]. by rewrite Hde, app_nil_r.
  - rewrite Hn, omap_app, Hv, seq_S, fmap_app. cbn [omap list_omap]. by rewrite Hev.
Qed.

(** [accept_spec] of the next block. *)
Lemma ready_accept s n b ent prop sig :
  ready s n b → Sign env ent (hs (S n)) = inr sig →
  let t := (accept_spec env ent prop b s).2 in
  let vote := ReceiveProposalEvent prop (vote_for env (prop_ViewNumber prop) (hs (S n)) sig) in
  (accept_spec env ent prop b s).1 = true ∧ qcHeap t = qcHeap s ∧ voteSet t = voteSet s
  ∧ progress t (S n) ∧ qc_hash t (genericQC t) = Some (hs n)
  ∧ ∃ l, notifyChan t = notifyChan s ++ l ++ [vote] ∧ Forall (update_event b) l.
Proof.
  intros Hr Hsig t vote. destruct (ready_update s n b Hr) as (Hok & _).
  pose proof (ready_rule s n b Hr) as Hrule. pose proof (update_spec_heap env b s) as Hq.
  destruct (update_spec_frame env b s) as (_ & Hvs & _).
  assert (Ht : (accept_spec env ent prop b s) = (true, emit [vote] (set_voteHeight (Height b) (update_spec env b s).2))).
  { unfold accept_spec. rewrite Hok, Hrule, (held_self _ _ _ (rd_block _ _ _ Hr)), Hsig.
    unfold apply_rule. by rewrite Hrule, decide_True. }
  destruct (update_announces s b) as (l & Hl & Hev).
  unfold t. rewrite Ht. cbn [fst snd]. split_and!; [done..| | |].
  3: { exists l. split; [|done]. cbn [emit set_notifyChan notifyChan set_voteHeight]. by rewrite Hl, app_assoc. }
  all: eapply (progress_next s n b vote); try done; by apply heap_keeps.
Qed.

(** *** Receiving the next block *)

(** The state once the block is stored and the waiters were woken [c] times. *)
Definition stored_next s (n : nat) b (c : nat) : HotStuffCore CoreDB :=
  set_condGen c (set_blockCache (db_put (key (S n)) b (blockCache s)).2 s).

Lemma store_next s n b :
  chain_inv s n → held s (S n) b → block_ok (length (qcHeap s)) b →
  ((1 ≤ n)%nat → verified env s (Justify b) = true) → (∀ j, (j ≤ n)%nat → hs j ≠ hs (S n)) →
  StoreBlock b s = (Ok tt, stored_next s n b (condGen s))
  ∧ ∀ c, let t := stored_next s n b c in
    ready t n b ∧ stored t (hs (S n)) = Some b ∧ capacity (blockCache t) = 30%Z
    ∧ ∀ j, (j ≤ S n)%nat → (S n ≤ j + 4)%nat →
        ∃ bj, behind (window (j - 4) (S n)) (key j) bj (abs (blockCache t)) ∧ held t j bj.
Proof.
  intros Hinv Hb Hbok Hver Hne. pose proof Hinv as [Hwf Hc Hrec Hp].
  destruct (wf_lookup _ _ (proj1 Hbok)) as (r & qc & Hr & Hq).
  assert (Hhash : qc_BlockHash qc = hs (S n)).
  { pose proof (held_self _ _ _ Hb) as Hh. rewrite Hr, (qc_hash_lookup _ _ _ Hq) in Hh. congruence. }
  assert (Hstore : StoreBlock b s = (Ok tt, stored_next s n b (condGen s))).
  { unfold StoreBlock. rewrite Hr, (run_bind_Ok _ _ _ _ _ (deref_run r s qc Hq)), Hhash. done. }
  split; [done|]. intros c t.
  destruct (wf_store_block b s r qc Hwf Hbok Hr Hq) as (s1' & Hrun & Hwf1 & _).
  rewrite Hstore in Hrun. injection Hrun as <-.
  assert (Hwf2 : core_wf t) by (by apply (wf_set_cond c) in Hwf1).
  pose proof (store_recent s t n b Hinv Hb Hne eq_refl eq_refl) as Hrect.
  split_and!; [| | |done].
  - constructor; [done|by apply (held_same s)|done| |by destruct Hp].
    intros j Hj1 Hj2. destruct (Hrect j) as (bj & Hbj & Hh); [lia..|].
    exists bj. split; [|done]. eapply behind_lookup; [by apply wf_lru|done].
  - apply db_view_put_eq. apply (wf_store s Hwf).
  - etrans; [apply (Put_capacity (K:=string))|done].
Qed.

Lemma accept_spec_stored ent prop b s h : stored (accept_spec env ent prop b s).2 h = stored s h.
Proof.
  rewrite <-(update_spec_stored env b s h). unfold accept_spec, apply_rule.
  destruct ((update_spec env b s).1); [|done].
  case_decide; (destruct (rule_outcome _ _), (qc_hash s (SelfQc b)); [|done..]); by destruct (Sign _ _ _).
Qed.

(** The state after block [n + 1], stored as [b], was received and voted for in
    the event [e]. *)
Record received s (n : nat) b (e : EventNotifier) (t : HotStuffCore CoreDB) : Prop := {
  rc_inv : chain_inv t (S n);
  rc_generic : qc_hash t (genericQC t) = Some (hs n);
  rc_heap : qcHeap t = qcHeap s;
  rc_votes : voteSet t = voteSet s;
  rc_stored : stored t (hs (S n)) = Some b;
  rc_event : ∃ l, notifyChan t = notifyChan s ++ l ++ [e] ∧ Forall (update_event b) l }.

(** The vote for the next block. *)
Definition next_vote (prop : Proposal QCRef) (n : nat) (sig : bytes) : Vote :=
  vote_for env (prop_ViewNumber prop) (hs (S n)) sig.

(** Accepting the stored block keeps the invariant. *)
Lemma accept_next s n b ent prop sig t :
  ready s n b → block_ok (length (qcHeap s)) b → capacity (blockCache s) = 30%Z →
  stored s (hs (S n)) = Some b →
  (∀ j, (j ≤ S n)%nat → (S n ≤ j + 3)%nat →
     ∃ bj, behind (window (j - 4) (S n)) (key j) bj (abs (blockCache s)) ∧ held s j bj) →
  Sign env ent (hs (S n)) = inr sig → t ≡ s → touches (window (n - 3) (S n)) (blockCache s) (blockCache t) →
  ∃ t', acceptProposal env ent prop b t = (Ok tt, t')
    ∧ received s n b (ReceiveProposalEvent prop (next_vote prop n sig)) t'.
Proof.
  intros Hready Hbok Hc Hst Hrec Hsig He Ht. pose proof (rd_wf _ _ _ Hready) as Hwf.
  destruct (ready_accept s n b ent prop sig Hready Hsig) as (Hok & Hheap & Hvs & Hprog & Hgen & Hlast).
  destruct (wp_acceptProposal env ent prop b s Hwf Hbok t He) as (t0 & Ht0 & Hret & ->).
  rewrite Hok in Hret. cbn [returned] in Hret.
  pose proof (reads_acceptProposal env _ ent prop b s t He Hwf Hbok (ready_update_covered _ _ _ Hready)
    (ready_rule_covered _ _ _ Hready)) as Hreads. unfold reads in Hreads.
  pose proof (safe_acceptProposal env ent prop b t ltac:(by eapply core_wf_eqv) ltac:(by rewrite He)) as Hsafe.
  unfold safe in Hsafe. destruct (acceptProposal env ent prop b t) as [out t'] eqn:Hout.
  cbn [fst snd] in *. subst out. exists t'. split; [done|].
  assert (Hht : qcHeap t' = qcHeap s) by (by rewrite (qcHeap_proper _ _ Ht0), Hheap).
  destruct (recent_reads s t' n (S n)) as [Hct Hrt]; [lia|by apply wf_lru|by etrans|by apply heap_keeps|done|].
  constructor; [|by rewrite (genericQC_proper _ _ Ht0), Ht0|done|by rewrite (voteSet_proper _ _ Ht0)
    | |by rewrite (notifyChan_proper _ _ Ht0)].
  - constructor; [apply Hsafe|by rewrite Hct|done|by eapply progress_eqv].
  - rewrite Ht0. by rewrite (accept_spec_stored _ _ _ _ _).
Qed.

Lemma receive_next s n b ent prop sig :
  chain_inv s n → prop_Block prop = Some b → prop_ok (length (qcHeap s)) prop → held s (S n) b →
  ((1 ≤ n)%nat → verified env s (Justify b) = true) → (∀ j, (j ≤ n)%nat → hs j ≠ hs (S n)) →
  Sign env ent (hs (S n)) = inr sig →
  ∃ t, Core.OnReceiveProposal env ent prop s = (Ok tt, t)
    ∧ received s n b (ReceiveProposalEvent prop (next_vote prop n sig)) t.
Proof.
  intros Hinv Hpb (b' & Hb' & Hsq & Hj) Hb Hver Hne Hsig. rewrite Hpb in Hb'. injection Hb' as <-.
  assert (Hbok : block_ok (length (qcHeap s)) b) by (split; [done|by right]).
  destruct (wf_lookup _ _ Hsq) as (r & qc & Hr & Hq). destruct (wf_lookup _ _ Hj) as (jr & jq & Hjr & Hjq).
  destruct (store_next s n b Hinv Hb Hbok Hver Hne) as [Hstore Hnext].
  destruct (Hnext (S (condGen s))) as (Hready & Hst & Hcap & Hrec). set (s2 := stored_next s n b (S (condGen s))) in *.
  assert (Hjq' : qcHeap s2 !! jr = Some jq) by done.
  destruct (ready_justify _ _ _ Hready) as (_ & Hjh & bn & Hbn & _).
  rewrite Hjr, (qc_hash_lookup _ _ _ Hjq') in Hjh. injection Hjh as Hjh.
  unfold Core.OnReceiveProposal. rewrite Hpb, run_orPanic, Hr.
  rewrite (run_bind_Ok _ _ _ _ _ (deref_run r s qc Hq)), (run_bind_Ok _ _ _ _ _ Hstore).
  unfold cond_Broadcast. rewrite run_modify.
  change (set_condGen _ (stored_next s n b (condGen s))) with s2. rewrite Hjr.
  rewrite (run_bind_Ok _ _ _ _ _ (deref_run jr _ jq Hjq')), Hjh. unfold AsyncWaitBlock. rewrite bind_assoc.
  destruct (LoadBlock_found (hs n) s2 bn (wf_store s2 (rd_wf _ _ _ Hready)) Hbn) as (s3 & Hl & He & _).
  rewrite (run_bind_Ok _ _ _ _ _ Hl), (run_bind_Ok (mret (inr bn)) _ s3 (inr bn) s3 (run_ret _ _)).
  destruct (accept_next s2 n b ent prop sig s3) as (t & Ht & Hrc); try done.
  - intros j ? ?. apply Hrec; lia.
  - pose proof (reads_LoadBlock (window (n - 3) (S n)) (hs n) s2 ltac:(apply elem_of_window; lia)) as Hx.
    unfold reads in Hx. by rewrite Hl in Hx.
  - exists t. split; [done|]. by destruct Hrc.
Qed.

End chain.

