(* ===== verification/BlockTree.v ===== *)
(** * Trees of blocks

    The blocks of a chain as a tree of nodes named by hash: what a block's
    [ParentHash], [Height] and [Justify.BlockHash] say of it, and the branches
    they form.  No definition here translates code; [Network] reads the blocks
    of an execution as such a tree. *)

From stdpp Require Import base numbers relations list.
From S2P Require Import Prelude.

Record Node := MkNode { n_parent : bytes; n_height : Z; n_justify : bytes }.

#[global] Instance Node_eq_dec : EqDecision Node.
Proof. solve_decision. Defined.

Section tree.
Context (root : bytes) (tree : bytes → option Node).

Definition known (h : bytes) : Prop := is_Some (tree h).
Definition parent (h : bytes) : bytes := match tree h with Some n => n_parent n | None => h end.
Definition height (h : bytes) : Z := match tree h with Some n => n_height n | None => 0%Z end.
Definition justify (h : bytes) : bytes := match tree h with Some n => n_justify n | None => h end.

(** [h] is a child of [p]. *)
Definition child (p h : bytes) : Prop := known h ∧ h ≠ root ∧ parent h = p.

(** [extends a h]: block [a] is on the branch that ends in [h]. *)
Definition extends : relation bytes := rtc child.

(** Every block but the root has a known parent one below it, and is justified
    by a block of its own branch. *)
Record tree_wf : Prop := {
  tree_root : tree root = Some (MkNode [] 0 root);
  tree_height h : known h → (0 ≤ height h < 2 ^ 63)%Z;
  tree_parent h : known h → h ≠ root → known (parent h) ∧ height h = (height (parent h) + 1)%Z;
  tree_justify h : known h → h ≠ root → extends (justify h) (parent h) }.

(** [b0], [b1], [b2]: each the parent and the justification of the next. *)
Record tree_chain (b0 b1 b2 : bytes) : Prop := {
  chain_2 : child b1 b2;
  chain_j2 : justify b2 = b1;
  chain_1 : child b0 b1;
  chain_j1 : justify b1 = b0 }.

Context (Hwf : tree_wf).

Lemma root_known : known root.
Proof. unfold known. rewrite tree_root by done. eauto. Qed.

Lemma root_height : height root = 0%Z.
Proof. unfold height. by rewrite tree_root. Qed.

Lemma child_known p h : child p h → known p.
Proof. intros (Hh & Hr & <-). by apply tree_parent. Qed.

Lemma child_height p h : child p h → height h = (height p + 1)%Z.
Proof. intros (Hh & Hr & <-). by apply tree_parent. Qed.

Lemma extends_known a h : extends a h → known h → known a.
Proof. intros He. induction He as [|a b h Hab Hbh IH]; [done|]. intros Hh. eapply child_known. done. Qed.

Lemma extends_height a h : extends a h → (height a ≤ height h)%Z.
Proof. intros He. induction He as [|a b h Hab%child_height Hbh IH]; lia. Qed.

Lemma extends_same_height a h : extends a h → height a = height h → a = h.
Proof.
  intros He. destruct He as [|a b h Hab%child_height Hbh%extends_height]; [done|]. lia.
Qed.

Lemma height_zero h : known h → height h = 0%Z → h = root.
Proof.
  intros Hh H0. destruct (decide (h = root)) as [|Hr]; [done|].
  destruct (tree_parent Hwf h Hh Hr) as [Hp Heq]. pose proof (tree_height Hwf _ Hp). lia.
Qed.

Lemma root_extends h : known h → extends root h.
Proof.
  intros Hh. remember (Z.to_nat (height h)) as n eqn:Hn. revert h Hh Hn.
  induction n as [|n IH]; intros h Hh Hn.
  - pose proof (tree_height Hwf _ Hh). rewrite (height_zero h) by (done || lia). apply rtc_refl.
  - destruct (decide (h = root)) as [->|Hr]; [apply rtc_refl|].
    destruct (tree_parent Hwf h Hh Hr) as [Hp Heq]. pose proof (tree_height Hwf _ Hp).
    apply (rtc_r _ (parent h)); [|done]. apply IH; [done|lia].
Qed.

(** Two blocks of one branch are comparable. *)
Lemma extends_linear a b h :
  extends a h → extends b h → (height a ≤ height b)%Z → extends a b.
Proof.
  intros Ha Hb. revert a Ha. pattern h. revert h Hb. apply rtc_ind_r; [done|].
  intros x y Hbx Hxy IH a Ha Hle.
  apply rtc_inv_r in Ha as [<-|(z & Haz & Hzy)].
  - apply child_height in Hxy. apply extends_height in Hbx. lia.
  - destruct Hxy as (_ & _ & <-), Hzy as (_ & _ & <-). by apply IH.
Qed.

Lemma extends_total a b h : extends a h → extends b h → extends a b ∨ extends b a.
Proof.
  intros Ha Hb. destruct (decide (height a ≤ height b)%Z); [left|right];
    (eapply extends_linear; [done..|lia]).
Qed.

Lemma comparable_same_height a b : extends a b ∨ extends b a → height a = height b → a = b.
Proof. intros [Hab|Hab] Heq; [|symmetry; symmetry in Heq]; by eapply extends_same_height. Qed.

Lemma justify_extends h : known h → h ≠ root → extends (justify h) h.
Proof. intros Hh Hr. apply (rtc_r _ (parent h)); [by apply tree_justify|done]. Qed.

Lemma justify_known h : known h → h ≠ root → known (justify h).
Proof. intros Hh Hr. by apply (extends_known _ h), Hh; apply justify_extends. Qed.

Lemma justify_below h : known h → h ≠ root → (height (justify h) < height h)%Z.
Proof.
  intros Hh Hr. destruct (tree_parent Hwf h Hh Hr) as [_ ->].
  pose proof (extends_height _ _ (tree_justify Hwf h Hh Hr)). lia.
Qed.

Lemma justify_root : justify root = root.
Proof. unfold justify. by rewrite tree_root. Qed.

Lemma chain_heights b0 b1 b2 :
  tree_chain b0 b1 b2 → height b1 = (height b0 + 1)%Z ∧ height b2 = (height b0 + 2)%Z.
Proof. intros [H2%child_height _ H1%child_height _]. lia. Qed.

Lemma chain_known b0 b1 b2 : tree_chain b0 b1 b2 → known b0 ∧ known b1 ∧ known b2.
Proof.
  intros [H2 _ H1 _]. split_and!; [by eapply child_known|by eapply child_known|apply H2].
Qed.

Lemma chain_extends b0 b1 b2 : tree_chain b0 b1 b2 → extends b0 b1 ∧ extends b0 b2.
Proof. intros [H2 _ H1 _]. split; [by apply rtc_once|]. eapply rtc_l; [done|]. by apply rtc_once. Qed.

End tree.
