(* ===== verification/Network.v ===== *)
(** * A network of replicas

    Honest replicas run the core of [consensus/consensus.go] side by side; the
    other replicas are faulty and may send anything they can sign.  A step runs
    one entry point of one honest replica or delivers a certificate to it.  What
    is assumed of the environment is explicit in the step relation: signatures
    of honest replicas are not forged ([unforged]), and a step may be required
    to pass the checks of [checked], which the handlers leave out.  The blocks of
    an execution form branches from the genesis block ([linked]).

    This file holds the model and the invariant of a single replica. *)

From stdpp Require Import base numbers functions fin_maps gmap sets strings relations list.
From S2P Require Import Prelude GoMonad Encoding Types Database LRUCache Entity Core.
From S2P Require Import CoreLemmas CoreSafety CoreSpec CoreCert CoreProps CoreProposals CoreVotes.
From S2P Require Import CoreEffects BlockTree.

(** The root of every tree of blocks. *)
Definition root : bytes := GetBlockHash genesis.

(** ** The blocks of an execution *)

(** The fields [GetBlockHash] covers; the certificates of a block are not
    among them. *)
Definition same_content (x b : Block QCRef) : Prop :=
  ParentHash x = ParentHash b ∧ Height x = Height b ∧ Cmds x = Cmds b.

#[global] Instance same_content_dec x b : Decision (same_content x b).
Proof. unfold same_content. apply _. Defined.

Section blocks.
Context (U : list (Block QCRef)).

(** [b] is, up to its certificates, a block of [U]. *)
Definition among (b : Block QCRef) : Prop := Exists (λ x, same_content x b) U.

(** The genesis block, or a child, one higher, of a block of [U]. *)
Definition has_parent (b : Block QCRef) : Prop :=
  same_content genesis b
  ∨ Exists (λ p, ParentHash b = GetBlockHash p ∧ Height b = (Height p + 1)%Z) U.

(** Blocks on branches from the genesis block, numbered along their branch and
    without a SHA-256 collision between two of them.  Nothing is said of their
    certificates: the same block can come with different justifications. *)
Definition linked : Prop :=
  genesis ∈ U
  ∧ Forall (λ b, has_parent b ∧ (0 ≤ Height b < 2 ^ 63)%Z) U
  ∧ Forall (λ x, Forall (λ y, ¬ sha256_collides (block_preimage x) (block_preimage y)) U) U.

(** [h] names a block of [U] whose parent is [p]. *)
Definition parent_in (p h : bytes) : Prop := ∃ b, b ∈ U ∧ GetBlockHash b = h ∧ ParentHash b = p.

(** [a] is on the branch that ends in [h]. *)
Definition branch_in : relation bytes := rtc parent_in.

(** *** Read as a tree in which every block is justified by its parent *)

Definition node_of (b : Block QCRef) : Node :=
  MkNode (ParentHash b) (Height b) (if decide (GetBlockHash b = root) then root else ParentHash b).

Definition block_tree (h : bytes) : option Node :=
  node_of <$> head (filter (λ b, GetBlockHash b = h) U).

Lemma block_tree_elem h n : block_tree h = Some n → ∃ b, b ∈ U ∧ GetBlockHash b = h ∧ n = node_of b.
Proof.
  intros (b & Hb%head_Some_elem_of & ->)%fmap_Some. apply list_elem_of_filter in Hb as [Hh Hin]. eauto.
Qed.

Context (HU : linked).

Lemma linked_block b : b ∈ U → has_parent b ∧ (0 ≤ Height b < 2 ^ 63)%Z.
Proof. destruct HU as (_ & Hall & _). rewrite Forall_forall in Hall. auto. Qed.

Lemma same_preimage x y : x ∈ U → y ∈ U → GetBlockHash x = GetBlockHash y → block_preimage x = block_preimage y.
Proof.
  destruct HU as (_ & _ & Hc). intros Hx Hy Heq. rewrite Forall_forall in Hc. specialize (Hc x Hx).
  rewrite Forall_forall in Hc. specialize (Hc y Hy).
  destruct (decide (block_preimage x = block_preimage y)) as [|Hne]; [done|]. by destruct Hc.
Qed.

Lemma parent_length b : b ∈ U →
  (ParentHash b = [] ∧ Height b = 0%Z ∧ Cmds b = []) ∨ length (ParentHash b) = 32%nat.
Proof.
  intros [[(Hp & Hh & Hc)|Hp] _]%linked_block; [by left|right].
  apply Exists_exists in Hp as (p & _ & -> & _). apply Sha256.length_Sum256.
Qed.

(** Equal hashes name one block. *)
Lemma hash_content x y : x ∈ U → y ∈ U → GetBlockHash x = GetBlockHash y →
  ParentHash x = ParentHash y ∧ Height x = Height y.
Proof.
  intros Hx Hy Heq. pose proof (same_preimage x y Hx Hy Heq) as Hpre. unfold block_preimage in Hpre.
  assert (Hlen := f_equal length Hpre). unfold PutUint64 in Hlen. rewrite !length_app, !length_le_bytes in Hlen.
  assert (Hi : ∀ z, z ∈ U → is_int64 (Height z)) by (intros z [_ ?]%linked_block; unfold is_int64; lia).
  destruct (parent_length x Hx) as [(Px & Zx & Cx)|Lx], (parent_length y Hy) as [(Py & Zy & Cy)|Ly].
  - split; congruence.
  - rewrite Px, Cx in Hlen. simpl in Hlen. lia.
  - rewrite Py, Cy in Hlen. simpl in Hlen. lia.
  - apply preimage_split in Hpre as (-> & Hh & _); [|congruence|apply Z.mod_pos_bound; lia..].
    split; [done|]. apply wrapu64_inj; auto.
Qed.

Lemma block_tree_node b : b ∈ U → block_tree (GetBlockHash b) = Some (node_of b).
Proof.
  intros Hb. destruct (block_tree (GetBlockHash b)) as [n|] eqn:Hn.
  - destruct (block_tree_elem _ _ Hn) as (x & Hx & Heq & ->).
    destruct (hash_content x b Hx Hb Heq) as [Hp Hh]. unfold node_of. by rewrite Hp, Hh, Heq.
  - unfold block_tree in Hn. apply fmap_None, head_None in Hn.
    assert (Hin : b ∈ filter (λ x, GetBlockHash x = GetBlockHash b) U) by (by apply list_elem_of_filter).
    rewrite Hn in Hin. by apply not_elem_of_nil in Hin.
Qed.

Lemma among_elem b : among b → ∃ x, x ∈ U ∧ same_content x b ∧ GetBlockHash x = GetBlockHash b.
Proof.
  intros (x & Hx & Hc)%Exists_exists. exists x. split_and!; [done..|].
  destruct Hc as (Hp & Hh & Hcm). unfold GetBlockHash, block_preimage. by rewrite Hp, Hh, Hcm.
Qed.

(** A block of the execution other than the genesis block, in the tree. *)
Lemma among_node b :
  among b → GetBlockHash b ≠ root →
  block_tree (GetBlockHash b) = Some (MkNode (ParentHash b) (Height b) (ParentHash b)).
Proof.
  intros (x & Hx & (Hp & Hh & _) & Heq)%among_elem Hr. rewrite <-Heq, block_tree_node by done.
  unfold node_of. rewrite Heq, decide_False by done. by rewrite Hp, Hh.
Qed.

Lemma genesis_node : block_tree root = Some (MkNode [] 0 root).
Proof.
  unfold root. rewrite (block_tree_node genesis) by apply HU. unfold node_of.
  rewrite decide_True by reflexivity. reflexivity.
Qed.

Lemma block_tree_parent b :
  b ∈ U → GetBlockHash b ≠ root →
  ∃ p, p ∈ U ∧ ParentHash b = GetBlockHash p ∧ Height b = (Height p + 1)%Z.
Proof.
  intros Hb Hr. destruct (linked_block b Hb) as [[(Hp & Hh & Hc)|Hp] _].
  - destruct Hr. unfold root, GetBlockHash, block_preimage. by rewrite <-Hp, <-Hh, <-Hc.
  - by apply Exists_exists in Hp.
Qed.

Lemma block_tree_wf : tree_wf root block_tree.
Proof.
  assert (Hk : ∀ h, known block_tree h → ∃ b, b ∈ U ∧ GetBlockHash b = h).
  { intros h [n (b & ? & ? & _)%block_tree_elem]. eauto. }
  constructor; [exact genesis_node|..].
  - intros h (b & Hb & <-)%Hk. unfold height. rewrite block_tree_node by done. by apply linked_block.
  - intros h (b & Hb & <-)%Hk Hr. destruct (block_tree_parent b Hb Hr) as (p & Hp & Hpar & Hh).
    unfold parent, height, known. rewrite (block_tree_node b) by done. cbn [n_parent n_height node_of].
    rewrite Hpar, (block_tree_node p) by done. split; [by eexists|done].
  - intros h (b & Hb & <-)%Hk Hr. unfold justify, parent. rewrite (block_tree_node b) by done.
    cbn [n_parent n_justify node_of]. rewrite decide_False by done. apply rtc_refl.
Qed.

Lemma extends_branch a h : extends root block_tree a h → branch_in a h.
Proof.
  apply rtc_subrel. intros p k ([n Hn] & _ & Hp).
  destruct (block_tree_elem _ _ Hn) as (b & Hb & Hh & ->). exists b. split_and!; [done..|].
  unfold parent in Hp. by rewrite Hn in Hp.
Qed.

End blocks.

#[global] Instance among_dec U b : Decision (among U b).
Proof. unfold among. apply _. Defined.

#[global] Instance linked_dec U : Decision (linked U).
Proof. unfold linked, has_parent, sha256_collides. apply _. Defined.

Section replica.
Context {DB E : Type} `{DatabaseLaws DB string (Block QCRef)} (env : CoreEnv E).
Context (tree : bytes → option Node) (U : list (Block QCRef)).
Implicit Types (s : HotStuffCore DB) (b : Block QCRef).

Let q := GetQuorumSize (Metadata (replicas env)).

(** ** The checks *)

(** The block is stored under its own hash, is justified by its parent, and is
    not the genesis block again. *)
Definition named s b : Prop :=
  among U b ∧ GetBlockHash b ≠ root ∧ qc_hash s (SelfQc b) = Some (GetBlockHash b)
  ∧ qc_hash s (Justify b) = Some (ParentHash b).

(** The block's justification is signed by a quorum, or names the root. *)
Definition justified s b : Prop :=
  qc_hash s (Justify b) = Some root ∨ verified env s (Justify b) = true.

(** The block its justification names is stored, and that block's too. *)
Definition chain_stored s b : Prop :=
  match qc_block s (Justify b) with
  | Some jb => Justify jb = None ∨ is_Some (qc_block s (Justify jb))
  | None => False
  end.

(** The locked block is stored and below [b], or is named by [h]. *)
Definition lock_below s b (h : bytes) : Prop :=
  match qc_block s (lockedQC s) with
  | Some lb => (Height lb < Height b)%Z ∨ qc_hash s (lockedQC s) = Some h
  | None => False
  end.

Definition is_ok (r : res unit) : bool := match r with Ok _ => true | _ => false end.

(** A received block is named and justified, and the replica votes for it only
    if the voting rule raised its vote height and the blocks it locks on are
    stored.  A proposed block is named, extends the highest certificate, which
    is what [OnBeat] passes to [OnPropose], and is above the lock. *)
Definition checked s (c : core_call) : Prop :=
  let out := run_call env c s in
  match c with
  | CallReceiveProposal _ prop | CallWakeProposal _ prop =>
      match prop_Block prop with
      | None => True
      | Some b => named s b ∧ justified s b
          ∧ (is_ok out.1 = true → (voteHeight s < voteHeight out.2)%Z ∧ chain_stored out.2 b)
      end
  | CallPropose now _ _ parentHash cmds =>
      match stored s parentHash with
      | None => True
      | Some pb =>
          let nb := leaf env now parentHash cmds (wrap64 (Height pb + 1)) s in
          if decide (voteHeight s < Height nb)%Z then
            GetBlockHash nb ≠ root ∧ qc_hash s (genericQC s) = Some parentHash
            ∧ among U nb
            ∧ (is_ok out.1 = true → lock_below out.2 pb parentHash ∧ chain_stored out.2 nb)
          else True
      end
  | _ => True
  end.

#[global] Instance checked_dec s c : Decision (checked s c).
Proof.
  unfold checked, named, justified, chain_stored, lock_below. destruct c; try apply _.
  - destruct (stored s parentHash) as [pb|]; [|apply _]. cbv zeta. case_decide; [|apply _].
    destruct (qc_block _ (lockedQC _)), (qc_block _ (Justify _)); apply _.
  - destruct (prop_Block prop) as [b|]; [|apply _]. destruct (qc_block _ _); apply _.
  - destruct (prop_Block prop) as [b|]; [|apply _]. destruct (qc_block _ _); apply _.
Defined.

(** ** The invariant of a replica *)

(** A verified certificate for [h] exists in this replica's memory. *)
Definition has_cert s (h : bytes) : Prop :=
  ∃ r qc, qcHeap s !! r = Some qc ∧ qc_BlockHash qc = h
          ∧ VerifyQuorumCert (replicas env) (Some qc) = Some true.

Definition backed s (h : bytes) : Prop := h = root ∨ has_cert s h.

Lemma proven_has_cert s o h : proven env (qcHeap s) o → qc_hash s o = Some h → has_cert s h.
Proof.
  intros (r & qc & -> & Hq & Hv) Hh. rewrite (qc_hash_lookup _ _ _ Hq) in Hh. injection Hh as <-. by exists r, qc.
Qed.

(** The certificate [o] names [h], which is the root or a verified block. *)
Definition names s (o : option QCRef) (h : bytes) : Prop :=
  qc_hash s o = Some h ∧ (h = root ∨ proven env (qcHeap s) o).

Lemma names_backed s o h : names s o h → backed s h.
Proof. intros [Hh [->|Hp]]; [by left|right]. by eapply proven_has_cert. Qed.

(** A block stored under [k] is the block the tree has there. *)
Record in_tree s (k : bytes) b : Prop := {
  it_hash : GetBlockHash b = k;
  it_self : qc_hash s (SelfQc b) = Some k;
  it_node : (k = root ∧ Justify b = None ∧ Height b = 0%Z ∧ ParentHash b = [])
            ∨ ∃ jh, k ≠ root ∧ names s (Justify b) jh
                    ∧ tree k = Some (MkNode (ParentHash b) (Height b) jh) }.

Record local s : Prop := {
  loc_blocks k b : stored s k = Some b → in_tree s k b;
  loc_lock : ∃ lh, names s (lockedQC s) lh ∧ known tree lh;
  loc_generic : ∃ gh, names s (genericQC s) gh;
  loc_voted h : voted s h →
    known tree h ∧ h ≠ root ∧ (height tree h ≤ voteHeight s)%Z
    ∧ ∀ lh, qc_hash s (lockedQC s) = Some lh → (height tree (justify tree (justify tree h)) ≤ height tree lh)%Z;
  loc_unique h h' : voted s h → voted s h' → height tree h = height tree h' → h = h';
  loc_decided b : DecideEvent b ∈ notifyChan s →
    ∃ h0 h1 h2, tree_chain root tree h0 h1 h2 ∧ has_cert s h0 ∧ has_cert s h1 ∧ has_cert s h2
      ∧ extends root tree (GetBlockHash b) h0 ∧ height tree (GetBlockHash b) = Height b }.

Context (Htree : tree_wf root tree).
Context (Hamong : ∀ b, among U b → GetBlockHash b ≠ root →
  tree (GetBlockHash b) = Some (MkNode (ParentHash b) (Height b) (ParentHash b))).

(** *** Stability when certificates only gain signatures *)

Lemma qc_hash_mono s s' o h :
  heap_le q (qcHeap s) (qcHeap s') → qc_hash s o = Some h → qc_hash s' o = Some h.
Proof.
  intros Hle. unfold qc_hash. destruct o as [r|]; simpl; [|done].
  destruct (qcHeap s !! r) as [qc|] eqn:Hq; [|done].
  destruct (Hle r qc Hq) as (qc' & -> & _ & Hh & _). simpl. by rewrite Hh.
Qed.

Lemma names_mono s s' o h : heap_le q (qcHeap s) (qcHeap s') → names s o h → names s' o h.
Proof.
  intros Hle [Hh Hp]. split; [by eapply qc_hash_mono|].
  destruct Hp; [by left|right]. by eapply proven_mono.
Qed.

Lemma has_cert_mono s s' h : heap_le q (qcHeap s) (qcHeap s') → has_cert s h → has_cert s' h.
Proof.
  intros Hle (r & qc & Hq & Hh & Hv). destruct (Hle r qc Hq) as (qc' & Hq' & _ & _ & _ & Hf).
  rewrite (Hf (verify_full env qc Hv)) in *. by exists r, qc.
Qed.

Lemma in_tree_mono s s' k b : heap_le q (qcHeap s) (qcHeap s') → in_tree s k b → in_tree s' k b.
Proof.
  intros Hle [Hh Hs Hn]. constructor; [done|by eapply qc_hash_mono|].
  destruct Hn as [|(jh & ? & ? & ?)]; [by left|right]. exists jh. split_and!; [done| |done].
  by eapply names_mono.
Qed.

Lemma in_tree_known s k b : in_tree s k b → known tree k ∧ height tree k = Height b.
Proof.
  intros [_ _ [(-> & _ & -> & _)|(jh & _ & _ & Hk)]].
  - split; [by eapply root_known|by eapply root_height].
  - unfold known, height. rewrite Hk. eauto.
Qed.

(** Votes and decisions come with events. *)
Lemma voted_quiet s s' l h :
  notifyChan s' = notifyChan s ++ l → Forall (λ e, event_vote e = None) l → voted s' h → voted s h.
Proof.
  intros Hn Hl (e & Hin & Hv). rewrite Hn in Hin. apply elem_of_app in Hin as [Hin|Hin]; [by exists e|].
  rewrite Forall_forall in Hl. specialize (Hl e Hin). congruence.
Qed.

Lemma decide_quiet s s' l b :
  notifyChan s' = notifyChan s ++ l → Forall (λ e, is_decide e = false) l →
  DecideEvent b ∈ notifyChan s' → DecideEvent b ∈ notifyChan s.
Proof.
  intros Hn Hl Hin. rewrite Hn in Hin. apply elem_of_app in Hin as [Hin|Hin]; [done|].
  rewrite Forall_forall in Hl. by specialize (Hl _ Hin).
Qed.

Lemma quiet_split l : Forall quiet_event l →
  Forall (λ e, event_vote e = None) l ∧ Forall (λ e, is_decide e = false) l.
Proof. intros Hl. split; (eapply Forall_impl; [exact Hl|]); by intros e []. Qed.

Lemma local_quiet s s' : quiet env s s' → local s → local s'.
Proof.
  intros [Hst Hl Hh Hg Hle (l & Hn & [Hv Hd]%quiet_split)] [Lb Ll Lg Lv Lu Ld]. constructor.
  - intros k b Hk. rewrite Hst in Hk. eapply in_tree_mono; [done|auto].
  - destruct Ll as (lh & ? & ?). exists lh. rewrite Hl. split; [by eapply names_mono|done].
  - destruct Lg as (gh & Hgh). destruct Hg as [->|Hp].
    + exists gh. by eapply names_mono.
    + destruct Hp as (r & qc & Hr & Hq & Hok). exists (qc_BlockHash qc). split.
      * rewrite Hr. by apply qc_hash_lookup.
      * right. by exists r, qc.
  - intros h Hvh. apply (voted_quiet s s' l) in Hvh; [|done..].
    destruct (Lv h Hvh) as (? & ? & ? & Hlock). rewrite Hl, Hh. split_and!; [done..|].
    intros lh Hlh. destruct Ll as (lh' & [Hlh' _] & _). apply Hlock.
    pose proof (qc_hash_mono s s' _ _ Hle Hlh') as Heq. congruence.
  - intros h h' H1 H2. apply Lu; by eapply voted_quiet.
  - intros b Hb. apply (decide_quiet s s' l) in Hb; [|done..].
    destruct (Ld b Hb) as (h0 & h1 & h2 & ? & ? & ? & ? & ? & ?). exists h0, h1, h2.
    split_and!; [done|by eapply has_cert_mono..|done|done].
Qed.

Lemma local_eqv s s' : s ≡ s' → local s → local s'.
Proof. intros He. apply local_quiet. by apply quiet_eqv. Qed.

(** *** Branches of stored blocks are branches of the tree *)

Definition blocks_in_tree s : Prop := ∀ k b, stored s k = Some b → in_tree s k b.

Lemma no_block_nil s : blocks_in_tree s → stored s [] = None.
Proof.
  intros Hb. destruct (stored s []) as [b|] eqn:Hs; [|done].
  pose proof (it_hash _ _ _ (Hb _ _ Hs)) as Hh. unfold GetBlockHash in Hh.
  pose proof (Sha256.length_Sum256 (block_preimage b)) as Hlen. by rewrite Hh in Hlen.
Qed.

(** The parent of a stored block, when stored, is its parent in the tree. *)
Lemma stored_parent s k b p :
  blocks_in_tree s → in_tree s k b → stored s (ParentHash b) = Some p → child root tree (ParentHash b) k.
Proof.
  intros Hs [Hh _ [(-> & _ & _ & Hnil)|(jh & Hr & _ & Hk)]] Hp.
  - by rewrite Hnil, no_block_nil in Hp.
  - unfold child, known, parent. rewrite Hk. eauto.
Qed.

Lemma ancestor_extends s n : ∀ k b a,
  blocks_in_tree s → in_tree s k b → ancestor s n b = Some a →
  ∃ ka, in_tree s ka a ∧ extends root tree ka k.
Proof.
  induction n as [|n IH]; intros k b a Hs Hb Ha; simpl in Ha.
  { injection Ha as <-. exists k. split; [done|apply rtc_refl]. }
  destruct (stored s (ParentHash b)) as [p|] eqn:Hp; [|done]. simpl in Ha.
  destruct (IH _ _ _ Hs (Hs _ _ Hp) Ha) as (ka & Hka & He). exists ka. split; [done|].
  eapply rtc_r; [exact He|]. by eapply stored_parent.
Qed.

Lemma branch_extends s n x : ∀ h, blocks_in_tree s → x ∈ branch s n h →
  extends root tree (GetBlockHash x) h ∧ height tree (GetBlockHash x) = Height x.
Proof.
  induction n as [|n IH]; intros h Hs Hx; simpl in Hx; [by apply not_elem_of_nil in Hx|].
  destruct (stored s h) as [b|] eqn:Hb; [|by apply not_elem_of_nil in Hx].
  apply elem_of_cons in Hx as [->|Hx].
  { rewrite (it_hash _ _ _ (Hs _ _ Hb)). split; [apply rtc_refl|]. by apply (in_tree_known s), Hs. }
  destruct (IH (ParentHash b) Hs Hx) as [He Hh]. split; [|done]. eapply rtc_r; [exact He|].
  destruct n as [|n]; simpl in Hx; [by apply not_elem_of_nil in Hx|].
  destruct (stored s (ParentHash b)) as [p|] eqn:Hp; [|by apply not_elem_of_nil in Hx].
  by eapply stored_parent; [|apply Hs|].
Qed.

(** *** Storing a block, and events of the replica itself *)

(** States that differ in the block store, the condition variable and events
    that matter to no invariant. *)
Record same_but_store s s' : Prop := {
  sbs_heap : heap_le q (qcHeap s) (qcHeap s');
  sbs_locked : lockedQC s' = lockedQC s;
  sbs_generic : genericQC s' = genericQC s;
  sbs_height : voteHeight s' = voteHeight s;
  sbs_notify : notifyChan s' = notifyChan s }.

Lemma local_store s s' k b :
  same_but_store s s' → in_tree s' k b → stored s' k = Some b →
  (∀ k', k' ≠ k → stored s' k' = None ∨ stored s' k' = stored s k') →
  local s → local s'.
Proof.
  intros [Hle Hl Hg Hh Hn] Hb Hk Hothers [Lb Ll Lg Lv Lu Ld]. constructor.
  - intros k' b' Hk'. destruct (decide (k' = k)) as [->|Hne]; [by simplify_eq|].
    destruct (Hothers k' Hne) as [He|He]; [congruence|]. eapply in_tree_mono; [exact Hle|].
    apply Lb. congruence.
  - destruct Ll as (lh & ? & ?). exists lh. rewrite Hl. split; [by eapply names_mono|done].
  - destruct Lg as (gh & ?). exists gh. rewrite Hg. by eapply names_mono.
  - intros h Hvh. unfold voted in Hvh. rewrite Hn in Hvh. destruct (Lv h Hvh) as (? & ? & ? & Hlock).
    rewrite Hl, Hh. split_and!; [done..|]. intros lh Hlh. destruct Ll as (lh' & [Hlh' _] & _). apply Hlock.
    pose proof (qc_hash_mono s s' _ _ Hle Hlh') as Heq. congruence.
  - intros h h'. unfold voted. rewrite Hn. apply Lu.
  - intros x Hx. rewrite Hn in Hx. destruct (Ld x Hx) as (h0 & h1 & h2 & ? & ? & ? & ? & ? & ?).
    exists h0, h1, h2. split_and!; [done|by eapply has_cert_mono..|done|done].
Qed.

Lemma local_height s v : (voteHeight s ≤ v)%Z → local s → local (set_voteHeight v s).
Proof.
  intros Hv [Lb Ll Lg Lv Lu Ld]. constructor; try done.
  - intros k b Hk. destruct (Lb k b Hk). by constructor.
  - intros h Hh. destruct (Lv h Hh) as (? & ? & ? & ?). split_and!; [done|done|simpl; lia|done].
Qed.

(** Voting for [h]: above every earlier vote, within the vote height, with the
    lock where the vote requires it. *)
Lemma local_vote s e h :
  event_vote e = Some h → is_decide e = false → known tree h → h ≠ root →
  (∀ h', voted s h' → (height tree h' < height tree h)%Z) → (height tree h ≤ voteHeight s)%Z →
  (∀ lh, qc_hash s (lockedQC s) = Some lh → (height tree (justify tree (justify tree h)) ≤ height tree lh)%Z) →
  local s → local (emit [e] s).
Proof.
  intros He Hd Hk Hr Hlow Hvh Hlock [Lb Ll Lg Lv Lu Ld].
  assert (Hcases : ∀ h', voted (emit [e] s) h' → voted s h' ∨ h' = h).
  { intros h' (e' & [Hin|Hin%list_elem_of_singleton]%elem_of_app & Hv'); [left; by exists e'|right].
    subst. congruence. }
  constructor; try done.
  - intros k b Hkb. destruct (Lb k b Hkb). by constructor.
  - intros h' [Hv'| ->]%Hcases; [by apply Lv|]. done.
  - intros h1 h2 [H1| ->]%Hcases [H2| ->]%Hcases Heq; [by apply Lu| | |done].
    + specialize (Hlow _ H1). lia.
    + specialize (Hlow _ H2). lia.
  - intros x Hx. apply (decide_quiet s _ [e]) in Hx; [|done|by repeat constructor]. by apply Ld.
Qed.

(** *** [update] *)

Lemma qc_block_in_tree s o b :
  blocks_in_tree s → qc_block s o = Some b → ∃ h, qc_hash s o = Some h ∧ in_tree s h b.
Proof.
  unfold qc_block. intros Hs Hb. destruct (qc_hash s o) as [h|]; [|done]. exists h. split; [done|by apply Hs].
Qed.

(** A stored block whose justification is stored is not the root, and the tree
    has that justification. *)
Lemma justify_in_tree s k b jb :
  blocks_in_tree s → in_tree s k b → qc_block s (Justify b) = Some jb →
  ∃ jh, k ≠ root ∧ known tree k ∧ names s (Justify b) jh ∧ in_tree s jh jb
        ∧ justify tree k = jh ∧ parent tree k = ParentHash b.
Proof.
  intros Hs [_ _ [(_ & Hj & _)|(jh & Hr & Hn & Hk)]] Hjb; [by rewrite Hj in Hjb|].
  destruct (qc_block_in_tree s _ _ Hs Hjb) as (h & Hh & Hin). destruct Hn as [Hh' Hp].
  assert (h = jh) as -> by congruence. exists jh. unfold known, justify, parent. rewrite Hk.
  split_and!; eauto. by split.
Qed.

(** A certificate that names a stored block other than the root is verified. *)
Lemma names_cert s o h b jb :
  names s o h → in_tree s h b → qc_block s (Justify b) = Some jb → has_cert s h.
Proof.
  intros [Hh [->|Hp]] [_ _ Hn] Hjb; [|by eapply proven_has_cert].
  destruct Hn as [(_ & Hj & _)|(jh & Hr & _)]; [by rewrite Hj in Hjb|done].
Qed.

Lemma three_chain_tree s k b b2 b1 b0 :
  blocks_in_tree s → in_tree s k b → three_chain s b b2 b1 b0 → (0 < Height b0)%Z →
  ∃ h0 h1 h2, tree_chain root tree h0 h1 h2 ∧ has_cert s h0 ∧ has_cert s h1 ∧ has_cert s h2
    ∧ GetBlockHash b0 = h0.
Proof.
  intros Hs Hb (Hb2 & Hb1 & Hb0 & Hp2 & Hp1) Hpos.
  destruct (justify_in_tree s k b b2 Hs Hb Hb2) as (h2 & _ & _ & Hn2 & Hi2 & _ & _).
  destruct (justify_in_tree s h2 b2 b1 Hs Hi2 Hb1) as (h1 & Hr2 & Hk2 & Hn1 & Hi1 & Hj2 & Hpar2).
  destruct (justify_in_tree s h1 b1 b0 Hs Hi1 Hb0) as (h0 & Hr1 & Hk1 & Hn0 & Hi0 & Hj1 & Hpar1).
  assert (ParentHash b2 = h1) as Ep2 by (destruct Hn1; congruence).
  assert (ParentHash b1 = h0) as Ep1 by (destruct Hn0; congruence).
  exists h0, h1, h2. split_and!.
  - constructor; [by split_and!; [..|congruence]|done|by split_and!; [..|congruence]|done].
  - destruct Hn0 as [Hh0 [->|Hp]]; [|by eapply proven_has_cert].
    apply in_tree_known in Hi0 as [_ Hz]. rewrite (root_height _ _ Htree) in Hz. lia.
  - by eapply names_cert.
  - by eapply names_cert.
  - apply Hi0.
Qed.

Lemma stored_height s k b : in_tree s k b → (0 ≤ Height b < 2 ^ 63)%Z.
Proof. intros [Hk <-]%in_tree_known. by eapply tree_height. Qed.

Lemma update_lock s k b :
  local s → in_tree s k b →
  ∃ lh lh', names s (lockedQC s) lh ∧ names s (lockedQC (update_spec env b s).2) lh'
    ∧ known tree lh' ∧ (height tree lh ≤ height tree lh')%Z.
Proof.
  intros Hloc Hb. destruct (loc_lock s Hloc) as (lh & Hn & Hk). pose proof (loc_blocks s Hloc) as Hs.
  destruct (update_spec_lock env b s) as [->|(b2 & b1 & lb & Hb2 & Hb1 & Hlb & Hlt & ->)].
  { exists lh, lh. done. }
  destruct (justify_in_tree s k b b2 Hs Hb Hb2) as (h2 & _ & _ & _ & Hi2 & _).
  destruct (justify_in_tree s h2 b2 b1 Hs Hi2 Hb1) as (h1 & _ & _ & Hn1 & Hi1 & _).
  destruct (qc_block_in_tree s _ _ Hs Hlb) as (lh' & Hlh & Hil).
  assert (lh' = lh) as -> by (destruct Hn; congruence).
  apply in_tree_known in Hi1 as [Hk1 Hh1]. apply in_tree_known in Hil as [_ Hhl].
  exists lh, h1. split_and!; [done..|lia].
Qed.

Lemma update_decided s k b x :
  local s → in_tree s k b → DecideEvent x ∈ notifyChan (update_spec env b s).2 →
  DecideEvent x ∈ notifyChan s ∨
  ∃ h0 h1 h2, tree_chain root tree h0 h1 h2 ∧ has_cert s h0 ∧ has_cert s h1 ∧ has_cert s h2
    ∧ extends root tree (GetBlockHash x) h0 ∧ height tree (GetBlockHash x) = Height x.
Proof.
  intros Hloc Hb Hx. pose proof (loc_blocks s Hloc) as Hs.
  destruct (update_spec_decides env b s) as (l1 & l2 & Hn & [_ Hd]%quiet_split & Hl2).
  rewrite Hn in Hx. apply elem_of_app in Hx as [Hx|[Hx|Hx]%elem_of_app]; [by left| |].
  { rewrite Forall_forall in Hd. by specialize (Hd _ Hx). }
  right. apply list_elem_of_fmap in Hx as (x' & [= <-] & Hx).
  destruct Hl2 as [->|(b2 & b1 & b0 & eb & H3 & Heb & ->)]; [by apply not_elem_of_nil in Hx|].
  assert (Hpos : (0 < Height b0)%Z).
  { destruct (qc_block_in_tree s _ _ Hs Heb) as (eh & _ & Hie%stored_height).
    destruct H3 as (_ & _ & Hb0 & _). destruct (qc_block_in_tree s _ _ Hs Hb0) as (h & _ & Hi0%stored_height).
    destruct (branch_elem _ _ _ _ Hx) as (i & Hi & _). unfold exec_gap in Hi.
    rewrite wrap64_id in Hi by (unfold is_int64; lia). lia. }
  destruct (three_chain_tree s k b b2 b1 b0 Hs Hb H3 Hpos) as (h0 & h1 & h2 & Hc & H0' & H1' & H2' & Heq).
  destruct (branch_extends _ _ _ _ Hs Hx) as [He Hh]. rewrite Heq in He.
  exists h0, h1, h2. split_and!; done.
Qed.

Lemma update_voted s b h : voted (update_spec env b s).2 h → voted s h.
Proof.
  destruct (update_spec_decides env b s) as (l1 & l2 & Hn & [Hv _]%quiet_split & _).
  apply (voted_quiet _ _ _ _ Hn). apply Forall_app_2; [done|]. apply Forall_fmap, Forall_true. done.
Qed.

Lemma local_update s k b : local s → in_tree s k b → local (update_spec env b s).2.
Proof.
  intros Hloc Hb. destruct (it_node _ _ _ Hb) as [(_ & Hj & _)|(jh & _ & Hn & _)].
  { unfold update_spec, qc_block, qc_hash. by rewrite Hj. }
  destruct (update_lock s k b Hloc Hb) as (lh & lh' & Hl & Hl' & Hk' & Hle').
  destruct (update_spec_frame env b s) as (Hvh & _ & Hg).
  pose proof (update_voted s b) as Hvt. pose proof (update_decided s k b) as Hdec.
  pose proof (update_spec_stored env b s) as Hst.
  set (s' := (update_spec env b s).2) in *.
  assert (Hheap : qcHeap s' = qcHeap s) by apply update_spec_heap.
  assert (Hle : heap_le q (qcHeap s) (qcHeap s')) by (by rewrite Hheap).
  destruct Hloc as [Lb Ll Lg Lv Lu Ld]. constructor.
  - intros k' b' Hk. rewrite Hst in Hk. eapply in_tree_mono; [exact Hle|auto].
  - exists lh'. split; [by eapply names_mono|done].
  - apply elem_of_cons in Hg as [-> | ->%list_elem_of_singleton].
    + destruct Lg as (gh & ?). exists gh. by eapply names_mono.
    + exists jh. by eapply names_mono.
  - intros h Hvh'%Hvt. destruct (Lv h Hvh') as (? & ? & ? & Hlock). rewrite Hvh. split_and!; [done..|].
    intros l Hl2. assert (l = lh') as -> by (destruct Hl' as [Hl' _]; eapply qc_hash_mono in Hl'; [|exact Hle]; congruence).
    etrans; [|exact Hle']. apply Hlock. apply Hl.
  - intros h h' H1%Hvt H2%Hvt. by apply Lu.
  - intros x Hx. destruct (Hdec x) as [Hx'|(h0 & h1 & h2 & ? & ? & ? & ? & ? & ?)];
      [by constructor|done|done|destruct (Ld x Hx') as (h0 & h1 & h2 & ? & ? & ? & ? & ? & ?)|];
      exists h0, h1, h2; (split_and!; [done|by eapply has_cert_mono..|done|done]).
Qed.

(** After [update] the lock is at or above the block two justifications below
    the proposal, when those blocks and the lock are stored. *)
Lemma update_lock_target s k b lb lh :
  local s → in_tree s k b → chain_stored s b →
  qc_block s (lockedQC (update_spec env b s).2) = Some lb →
  qc_hash s (lockedQC (update_spec env b s).2) = Some lh →
  (height tree (justify tree (justify tree k)) ≤ height tree lh)%Z ∧ height tree lh = Height lb.
Proof.
  intros Hloc Hb Hc Hlb Hlh. pose proof (loc_blocks s Hloc) as Hs. unfold chain_stored in Hc.
  destruct (qc_block_in_tree s _ _ Hs Hlb) as (lh' & Hlh' & Hil).
  assert (lh' = lh) as -> by congruence. apply in_tree_known in Hil as [Hkl Hhl]. split; [|done].
  destruct (qc_block s (Justify b)) as [b2|] eqn:Hb2; [|done].
  destruct (justify_in_tree s k b b2 Hs Hb Hb2) as (h2 & _ & _ & _ & Hi2 & -> & _).
  destruct Hc as [Hnone|[b1 Hb1]].
  - destruct (it_node _ _ _ Hi2) as [(-> & _)|(jh & _ & [Hj _] & _)]; [|by rewrite Hnone in Hj].
    rewrite (justify_root _ _ Htree), (root_height _ _ Htree). pose proof (tree_height _ _ Htree lh Hkl). lia.
  - destruct (justify_in_tree s h2 b2 b1 Hs Hi2 Hb1) as (h1 & _ & _ & _ & Hi1 & -> & _).
    apply in_tree_known in Hi1 as [_ ->]. rewrite Hhl. exact (update_spec_lock_ge env b s b2 b1 lb Hb2 Hb1 Hlb).
Qed.

(** *** Votes obey the rule *)

(** A vote for [h] cast between [s] and [s'] is above every earlier one, and
    [h] extends the lock or is justified above it. *)
Definition fresh_vote s s' (h : bytes) : Prop :=
  (voteHeight s < height tree h)%Z
  ∧ ∃ lh, qc_hash s' (lockedQC s') = Some lh ∧ backed s lh ∧ known tree lh
      ∧ (extends root tree lh h
         ∨ (has_cert s (justify tree h) ∧ (height tree lh < height tree (justify tree h))%Z)).

Definition votes_fresh s s' : Prop := ∀ h, voted s' h → voted s h ∨ fresh_vote s s' h.

Lemma votes_quiet s s' : quiet env s s' → votes_fresh s s'.
Proof.
  intros [_ _ _ _ _ (l & Hn & [Hv _]%quiet_split)] h Hh. left. by eapply voted_quiet.
Qed.

(** Steps around the vote that keep votes, vote height and certificates. *)
Lemma votes_fresh_l s s0 s' :
  qcHeap s0 = qcHeap s → voteHeight s0 = voteHeight s → notifyChan s0 = notifyChan s →
  votes_fresh s0 s' → votes_fresh s s'.
Proof.
  intros Hh Hv Hn Hf h Hvh. destruct (Hf h Hvh) as [Hold|Hnew].
  - left. unfold voted in *. by rewrite <-Hn.
  - right. unfold fresh_vote, backed, has_cert in *. by rewrite <-Hh, <-Hv.
Qed.

Lemma votes_fresh_eqv s s0 s' : s0 ≡ s' → votes_fresh s s0 → votes_fresh s s'.
Proof.
  intros He Hf h Hvh. unfold voted, fresh_vote in *.
  rewrite <-(notifyChan_proper _ _ He) in Hvh. destruct (Hf h Hvh) as [Hold|(Hlt & lh & Hlh & Hrest)]; [by left|right].
  split; [done|]. exists lh. split; [|done]. unfold qc_hash in *. by rewrite <-(lockedQC_proper _ _ He), <-(qcHeap_proper _ _ He).
Qed.

Lemma in_tree_same s s' k b : qcHeap s' = qcHeap s → in_tree s k b → in_tree s' k b.
Proof. intros Hh. apply in_tree_mono. by rewrite Hh. Qed.

Lemma chain_stored_same s s' b :
  qcHeap s' = qcHeap s → (∀ h, stored s' h = stored s h) → chain_stored s' b → chain_stored s b.
Proof.
  intros Hh Hst. assert (Hq : ∀ o, qc_block s' o = qc_block s o).
  { intros o. unfold qc_block. rewrite (qc_hash_same s) by done.
    destruct (qc_hash s o); simpl; [apply Hst|done]. }
  unfold chain_stored. rewrite Hq. destruct (qc_block s (Justify b)); [|done]. by rewrite Hq.
Qed.

(** The rule, read in the tree. *)
Lemma rule_in_tree s k b lb lh :
  local s → in_tree s k b → qc_block s (lockedQC s) = Some lb → qc_hash s (lockedQC s) = Some lh →
  (∃ jb, qc_block s (Justify b) = Some jb ∧ (Height lb < Height jb)%Z) ∨ extends_lock s b lb →
  extends root tree lh k
  ∨ (has_cert s (justify tree k) ∧ (height tree lh < height tree (justify tree k))%Z).
Proof.
  intros Hloc Hb Hlb Hlh Hrule. pose proof (loc_blocks s Hloc) as Hs.
  destruct (qc_block_in_tree s _ _ Hs Hlb) as (lh' & Hlh' & Hil). assert (lh' = lh) as -> by congruence.
  pose proof (in_tree_known _ _ _ Hil) as [Hkl Hhl]. destruct Hrule as [(jb & Hjb & Hlt)|(a & Ha & Heq)].
  - right. destruct (justify_in_tree s k b jb Hs Hb Hjb) as (jh & _ & _ & Hn & Hij & -> & _).
    pose proof (in_tree_known _ _ _ Hij) as [_ Hhj].
    pose proof (tree_height _ _ Htree _ Hkl). split; [|lia].
    destruct Hn as [Hh [->|Hp]]; [rewrite (root_height _ _ Htree) in *; lia|by eapply proven_has_cert].
  - left. destruct (ancestor_extends s _ k b a Hs Hb Ha) as (ka & Hia & He).
    rewrite (it_self _ _ _ Hia), (it_self _ _ _ Hil) in Heq. injection Heq as ->. done.
Qed.

Lemma accept_local ent prop s k b :
  core_wf s → local s → in_tree s k b → k ≠ root →
  let out := accept_spec env ent prop b s in
  (out.1 = true → (voteHeight s < voteHeight out.2)%Z ∧ chain_stored out.2 b) →
  local out.2 ∧ votes_fresh s out.2.
Proof.
  intros Hwf Hloc Hb Hr out Hcheck. unfold out, accept_spec in *.
  pose proof (local_update s k b Hloc Hb) as Hloc2. pose proof (update_voted s b) as Hvt.
  pose proof (update_spec_heap env b s) as Hheap. pose proof (update_spec_stored env b s) as Hst.
  destruct (update_spec_frame env b s) as (Hvh & _). destruct ((update_spec env b s).1) eqn:Hu.
  2: { split; [done|]. intros h Hh. left. by apply Hvt. }
  set (s2 := (update_spec env b s).2) in *. rewrite (it_self _ _ _ Hb) in *.
  assert (Happ : local (apply_rule b s2) ∧ ∀ h, voted (apply_rule b s2) h → voted s h).
  { unfold apply_rule. case_decide as Hd; [|done]. apply rule_true in Hd as [Hlt _]. split; [|done].
    apply local_height; [lia|done]. }
  destruct Happ as [Hloc3 Hv3]. destruct (rule_outcome b s2) as [o|] eqn:Ho.
  2: { split; [done|]. intros h Hh. left. by apply Hv3. }
  destruct (Sign env ent k) as [e|sig]; [split; [done|]; intros h Hh; left; by apply Hv3|].
  simpl in Hcheck. destruct Hcheck as [Hrise Hc]; [done|].
  assert (Hd : rule_outcome b s2 = Some true).
  { destruct (decide (rule_outcome b s2 = Some true)) as [|Hd]; [done|].
    unfold apply_rule in Hrise. rewrite decide_False in Hrise by done. simpl in Hrise. lia. }
  assert (Happ : apply_rule b s2 = set_voteHeight (Height b) s2)
    by (unfold apply_rule; by rewrite decide_True).
  rewrite Happ in *. apply rule_true in Hd as (Hlow & jb & lb & Hjb & Hlb & Hrule).
  pose proof (in_tree_same s s2 k b Hheap Hb) as Hb2. pose proof (in_tree_known _ _ _ Hb) as [Hkk Hhk].
  destruct (update_lock s k b Hloc Hb) as (lh0 & lh & _ & Hn & Hkl & _). fold s2 in Hn.
  assert (Hlh2 : qc_hash s2 (lockedQC s2) = Some lh) by (rewrite (qc_hash_same s) by done; apply Hn).
  assert (Hlbs : qc_block s (lockedQC s2) = Some lb).
  { unfold qc_block in *. rewrite (qc_hash_same s s2) in Hlb by done.
    destruct (qc_hash s (lockedQC s2)); [|done]. simpl in *. by rewrite <-Hst. }
  destruct (update_lock_target s k b lb lh Hloc Hb) as [Htarget _]; [|done|apply Hn|].
  { by eapply (chain_stored_same s s2). }
  assert (Hvot : ∀ h', voted (set_voteHeight (Height b) s2) h' → (height tree h' < height tree k)%Z).
  { intros h' Hh'%Hv3. destruct (loc_voted s Hloc h' Hh') as (_ & _ & Hle & _). lia. }
  split.
  - apply (local_vote _ _ k); simpl; try done; [lia|]. intros l Hl. by assert (l = lh) as -> by (unfold qc_hash in *; simpl in *; congruence).
  - intros h (e' & [Hin|Hin%list_elem_of_singleton]%elem_of_app & Hev); [left; apply Hv3; by exists e'|].
    subst e'. simpl in Hev. injection Hev as <-. right. split; [lia|]. exists lh.
    split; [exact Hlh2|]. split; [by eapply names_backed|]. split; [done|].
    destruct (rule_in_tree s2 k b lb lh Hloc2 Hb2 Hlb Hlh2) as [He|[Hce Hl]]; [|by left|right].
    + destruct Hrule; [left; eauto|by right].
    + split; [|done]. destruct Hce as (r & qc & Hq & ?). rewrite Hheap in Hq. by exists r, qc.
Qed.

(** *** Received proposals *)

Lemma named_in_tree s b : named s b → justified s b → in_tree s (GetBlockHash b) b.
Proof.
  intros (Hu & Hr & Hs & Hjh) Hj. constructor; [done..|]. right.
  exists (ParentHash b). split_and!; [done| |by apply Hamong]. split; [done|].
  destruct Hj as [Hj|Hj]; [left; congruence|right]. by apply verified_proven.
Qed.

Lemma returned_ok r ok : returned r ok → is_ok r = ok.
Proof. destruct ok; [intros ->; done|intros [e ->]; done]. Qed.

(** The check on a call, moved to the specification of its outcome. *)
Lemma check_accept (out : res unit * HotStuffCore DB) (spec : bool * HotStuffCore DB) s s1 b :
  returned out.1 spec.1 → out.2 ≡ spec.2 → voteHeight s1 = voteHeight s →
  (is_ok out.1 = true → (voteHeight s < voteHeight out.2)%Z ∧ chain_stored out.2 b) →
  spec.1 = true → (voteHeight s1 < voteHeight spec.2)%Z ∧ chain_stored spec.2 b.
Proof.
  intros Hret He Hv Hc Hok. rewrite (returned_ok _ _ Hret) in Hc. destruct (Hc Hok) as [Hlt Hch].
  rewrite (voteHeight_proper _ _ He) in Hlt. split; [lia|].
  eapply chain_stored_same; [by rewrite <-He|intros h; by rewrite <-He|done].
Qed.

Lemma receive_local ent prop s :
  core_wf s → prop_ok (length (qcHeap s)) prop → local s → checked s (CallReceiveProposal ent prop) →
  let s' := (OnReceiveProposal env ent prop s).2 in local s' ∧ votes_fresh s s'.
Proof.
  intros Hwf Hp Hloc Hc s'. assert (Hp' := Hp). destruct Hp' as (b & Hb & _). simpl in Hc. rewrite Hb in Hc.
  destruct Hc as (Hname & Hjust & Hcheck). assert (Hr := Hname). destruct Hr as (_ & Hr & _).
  pose proof (named_in_tree s b Hname Hjust) as Hin.
  destruct (receive_run env ent prop b s Hwf Hp Hb) as (h & s1 & Hwf1 & Hh & Hst & Hothers & Hs1 & Hout).
  rewrite (it_self _ _ _ Hin) in Hh. injection Hh as <-.
  assert (Hheap : qcHeap s1 = qcHeap s) by (by rewrite Hs1).
  assert (Hvh : voteHeight s1 = voteHeight s) by (by rewrite Hs1).
  assert (Hn : notifyChan s1 = notifyChan s) by (by rewrite Hs1).
  pose proof (in_tree_same s s1 _ _ Hheap Hin) as Hin1.
  assert (Hloc1 : local s1).
  { eapply local_store; [|done..]. constructor; [by rewrite Hheap|by rewrite Hs1|by rewrite Hs1|done|done]. }
  case_decide.
  - destruct Hout as [Hret He]. destruct (accept_local ent prop s1 _ b Hwf1 Hloc1 Hin1 Hr) as [Hl Hv].
    { by eapply check_accept. }
    split; [by eapply local_eqv; [symmetry|]|]. eapply votes_fresh_l; [done..|].
    by eapply votes_fresh_eqv; [symmetry|].
  - destruct Hout as (jh & _ & _ & He). split; [by eapply local_eqv; [symmetry|]|].
    intros h Hvo. left. unfold voted, s' in *. rewrite (notifyChan_proper _ _ He), Hn in Hvo. done.
Qed.

Lemma wake_local ent prop s :
  core_wf s → prop_ok (length (qcHeap s)) prop → local s → checked s (CallWakeProposal ent prop) →
  let s' := (OnReceiveProposal_wake env ent prop s).2 in local s' ∧ votes_fresh s s'.
Proof.
  intros Hwf Hp Hloc Hc s'. assert (Hp' := Hp). destruct Hp' as (b & Hb & _). simpl in Hc. rewrite Hb in Hc.
  destruct Hc as (Hname & Hjust & Hcheck). assert (Hr := Hname). destruct Hr as (_ & Hr & _).
  pose proof (named_in_tree s b Hname Hjust) as Hin.
  pose proof (wake_run env ent prop b s Hwf Hp Hb) as Hout. cbv zeta in Hout. case_decide.
  - destruct Hout as [Hret He]. destruct (accept_local ent prop s _ b Hwf Hloc Hin Hr) as [Hl Hv].
    { by eapply check_accept. }
    split; [by eapply local_eqv; [symmetry|]|]. by eapply votes_fresh_eqv; [symmetry|].
  - destruct Hout as [_ He]. split; [by eapply local_eqv; [symmetry|]|].
    apply votes_quiet, quiet_eqv. by symmetry.
Qed.

(** *** The replica's own proposals *)

Context (clone_copies : ∀ qc, clone env qc = qc) (Hq : (0 < q)%Z).

(** Allocating a copy of a certificate and an empty one certifies nothing new. *)
Lemma has_cert_leaf s s1 g gq view h0 h :
  qcHeap s !! g = Some gq → qcHeap s1 = qcHeap s ++ [gq; MkQuorumCert view h0 (Some ∅)] →
  has_cert s1 h → has_cert s h.
Proof.
  intros Hg Hs1 (r & qc & Hr & Hh & Hv). rewrite Hs1 in Hr.
  apply lookup_app_Some in Hr as [Hr|[_ Hr]]; [by exists r, qc|].
  destruct (r - length (qcHeap s))%nat as [|[|n]]; simplify_eq/=.
  - by exists g, qc.
  - exfalso. apply verify_full in Hv. unfold q, len_signs, signs in *. simpl in Hv. rewrite map_size_empty in Hv. lia.
Qed.

Lemma chain_stored_back s s' k b :
  blocks_in_tree s → in_tree s k b → heap_le q (qcHeap s) (qcHeap s') →
  (∀ h, stored s' h = stored s h) → chain_stored s' b → chain_stored s b.
Proof.
  intros Hs Hb Hle Hst. unfold chain_stored.
  destruct (it_node _ _ _ Hb) as [(_ & -> & _)|(jh & _ & [Hjh _] & _)]; [done|].
  unfold qc_block. rewrite (qc_hash_mono s s' _ _ Hle Hjh), Hjh. simpl. rewrite Hst.
  destruct (stored s jh) as [jb|] eqn:Hjb; [|done]. intros [?|Hc]; [by left|].
  destruct (it_node _ _ _ (Hs _ _ Hjb)) as [(_ & ? & _)|(jh2 & _ & [Hjh2 _] & _)]; [by left|right].
  rewrite (qc_hash_mono s s' _ _ Hle Hjh2) in Hc. rewrite Hjh2. simpl in *. by rewrite Hst in Hc.
Qed.

(** [s1] is [s] with the new block [nb] stored under [h]. *)
Record leaf_ready s s1 (h : bytes) nb : Prop := {
  lr_local : local s1;
  lr_in_tree : in_tree s1 h nb;
  lr_height : voteHeight s1 = voteHeight s;
  lr_notify : notifyChan s1 = notifyChan s;
  lr_cert k : has_cert s1 k → has_cert s k }.

Lemma leaf_stored view now parentHash cmds s s1 g gq hgt :
  local s → genericQC s = Some g → qcHeap s !! g = Some gq → qc_hash s (genericQC s) = Some parentHash →
  let nb := leaf env now parentHash cmds hgt s in
  let h := GetBlockHash nb in
  h ≠ root → tree h = Some (MkNode parentHash hgt parentHash) →
  stored s1 h = Some nb → (∀ k, k ≠ h → stored s1 k = None ∨ stored s1 k = stored s k) →
  s1 = set_qcHeap (qcHeap s ++ [gq; MkQuorumCert view h (Some ∅)]) (set_blockCache (blockCache s1) s) →
  leaf_ready s s1 h nb.
Proof.
  intros Hloc Hg Hgq Hgh nb h Hr Hnode Hst Hothers Hs1.
  assert (Hheap : qcHeap s1 = qcHeap s ++ [gq; MkQuorumCert view h (Some ∅)]) by (by rewrite Hs1).
  assert (Hle1 : heap_le q (qcHeap s) (qcHeap s1)).
  { rewrite Hheap, cons_middle, app_assoc. etrans; apply heap_le_app. }
  destruct (loc_generic s Hloc) as (gh & Hh & Hpr). assert (gh = parentHash) as -> by congruence.
  assert (Hin : in_tree s1 h nb).
  { constructor; [done| |].
    - unfold qc_hash. cbn [SelfQc leaf nb mbind option_bind]. rewrite Hheap, lookup_app_r by lia.
      rewrite Nat.sub_succ_l, Nat.sub_diag by lia. done.
    - right. exists parentHash. split_and!; [done| |done].
      assert (Hl : qcHeap s1 !! length (qcHeap s) = Some gq) by (by rewrite Hheap, lookup_app_r, Nat.sub_diag by lia).
      rewrite Hg, (qc_hash_lookup _ _ _ Hgq) in Hh. injection Hh as <-. split; [by apply qc_hash_lookup|].
      destruct Hpr as [|(r & qc & Hr' & Hq' & Hv)]; [by left|right].
      exists (length (qcHeap s)), gq. split_and!; [done..|]. congruence. }
  constructor; [|done|by rewrite Hs1|by rewrite Hs1|intros k; by apply (has_cert_leaf s s1 g gq view h)].
  apply (local_store s s1 h nb); [|done..]. constructor; [done|by rewrite Hs1..].
Qed.

(** The vote of a proposer on its own block. *)
Lemma self_vote_local view s s1 v h pb parentHash nb :
  local s → leaf_ready s s1 h nb → GetBlockHash nb = h → h ≠ root → (voteHeight s < Height nb)%Z →
  quiet env (set_voteHeight (Height nb) (update_spec env nb s1).2) v →
  in_tree s parentHash pb → qc_hash s (genericQC s) = Some parentHash →
  tree h = Some (MkNode parentHash (Height nb) parentHash) →
  lock_below v pb parentHash → chain_stored v nb →
  let s' := emit [ProposeEvent (MkProposal view (Some nb))] v in
  local v → (∀ k, voted v k → voted s k) → local s' ∧ votes_fresh s s'.
Proof.
  intros Hloc [Hloc1 Hin Hh1 Hn1 Hcert] Hh Hr Hlow [Qst Ql Qh _ Qle _] Hpb Hgh Hnode Hbelow Hch s' Hlv Hvot.
  simpl in Ql, Qh, Qle. rewrite update_spec_heap in Qle.
  assert (Qst' : ∀ k, stored v k = stored s1 k) by (intros k; rewrite Qst; apply update_spec_stored).
  pose proof (in_tree_known _ _ _ Hin) as [Hkh Hhh]. pose proof (in_tree_known _ _ _ Hpb) as [Hkp Hhp].
  destruct (update_lock s1 h nb Hloc1 Hin) as (l0 & lh & _ & Hl & Hkl & _).
  assert (Hlh : qc_hash v (lockedQC v) = Some lh) by (rewrite Ql; eapply qc_hash_mono; [exact Qle|apply Hl]).
  apply (chain_stored_back s1 v h) in Hch; [|exact (loc_blocks s1 Hloc1)|done..].
  unfold lock_below, qc_block in Hbelow. rewrite Hlh in Hbelow. simpl in Hbelow. rewrite Qst' in Hbelow.
  destruct (stored s1 lh) as [lb|] eqn:Hlb; [|done].
  assert (Hlb1 : qc_block s1 (lockedQC (update_spec env nb s1).2) = Some lb)
    by (unfold qc_block; rewrite (proj1 Hl); exact Hlb).
  destruct (update_lock_target s1 h nb lb lh Hloc1 Hin Hch Hlb1 (proj1 Hl)) as [Htarget Hhl].
  split.
  - apply (local_vote _ _ h); simpl; [by f_equal|done|done|done| |lia| |done].
    + intros k Hk%Hvot. destruct (loc_voted s Hloc k Hk) as (_ & _ & Hle' & _). lia.
    + intros l Hl'. by assert (l = lh) as -> by congruence.
  - intros k (e & [Hin'|Hin'%list_elem_of_singleton]%elem_of_app & Hev); [left; apply Hvot; by exists e|].
    subst e. simpl in Hev. injection Hev as <-. rewrite Hh. right. split; [lia|]. exists lh.
    split; [exact Hlh|]. split; [destruct (names_backed s1 _ _ Hl); [by left|right; auto]|]. split; [done|].
    replace (justify tree h) with parentHash by (unfold justify; by rewrite Hnode).
    destruct Hbelow as [Hlt|Heq].
    + right. split; [|lia]. destruct (loc_generic s Hloc) as (gh & Hg).
      assert (gh = parentHash) as -> by (destruct Hg; congruence).
      destruct (names_backed s _ _ Hg) as [->|]; [|done].
      pose proof (tree_height _ _ Htree _ Hkl). rewrite (root_height _ _ Htree) in Hhp. lia.
    + left. injection Heq as <-. apply rtc_once. split_and!; [done|done|]. unfold parent. by rewrite Hnode.
Qed.

Lemma propose_local now ent view parentHash cmds s :
  core_wf s → local s → checked s (CallPropose now ent view parentHash cmds) →
  let s' := (OnPropose env now ent view parentHash cmds s).2 in local s' ∧ votes_fresh s s'.
Proof.
  intros Hwf Hloc Hc s'. destruct (wf_lookup _ _ (wf_generic s Hwf)) as (g & gq & Hg & Hgq).
  simpl in Hc. destruct (stored s parentHash) as [pb|] eqn:Hp.
  2: { destruct (OnPropose_no_parent env now ent view parentHash cmds s Hwf Hp) as [_ He].
       split; [by eapply local_eqv; [symmetry|]|]. apply votes_quiet, quiet_eqv. by symmetry. }
  set (nb := leaf env now parentHash cmds (wrap64 (Height pb + 1)) s) in *. cbv zeta in Hc.
  change (wrap64 (Height pb + 1)) with (Height nb) in Hc. case_decide as Hlt.
  2: { destruct (OnPropose_low env clone_copies now ent view parentHash cmds s g gq pb Hwf Hg Hgq Hp) as [_ He].
       { change (wrap64 (Height pb + 1)) with (Height nb). lia. }
       assert (Hqu : quiet env s s') by (etrans; [apply quiet_alloc|apply quiet_eqv; symmetry; exact He]).
       split; [by eapply local_quiet|by apply votes_quiet]. }
  destruct Hc as (Hr & Hgh & Hu & Hcheck). pose proof (Hamong nb Hu Hr) as Hnode.
  destruct (OnPropose_steps env clone_copies now ent view parentHash cmds s g gq pb Hwf Hg Hgq Hp Hlt)
    as (s1 & Hwf1 & Hst1 & Hothers & Hs1 & Hm). fold nb in Hst1, Hothers, Hs1, Hm.
  assert (Hready : leaf_ready s s1 (GetBlockHash nb) nb)
    by (by apply (leaf_stored view now parentHash cmds s s1 g gq)).
  pose proof (local_update s1 _ nb (lr_local _ _ _ _ Hready) (lr_in_tree _ _ _ _ Hready)) as Hloc2.
  destruct (update_spec_frame env nb s1) as (Hvh & _). rewrite (lr_height _ _ _ _ Hready) in Hvh.
  assert (Hvt : ∀ k, voted (update_spec env nb s1).2 k → voted s k).
  { intros k Hk%update_voted. unfold voted in *. by rewrite <-(lr_notify _ _ _ _ Hready). }
  assert (Hend : ∀ s0, s' ≡ s0 → local s0 → (∀ k, voted s0 k → voted s k) → local s' ∧ votes_fresh s s').
  { intros s0 He Hl Hv. split; [by eapply local_eqv; [symmetry|]|].
    eapply votes_fresh_eqv; [symmetry; exact He|]. intros k Hk. left. auto. }
  destruct ((update_spec env nb s1).1); [|destruct Hm as [_ He]; by eapply Hend].
  assert (Hloc3 : local (set_voteHeight (Height nb) (update_spec env nb s1).2)) by (apply local_height; [lia|done]).
  destruct (Sign env ent (GetBlockHash nb)) as [e|sig]; [destruct Hm as [_ He]; by eapply Hend|].
  destruct Hm as (s3 & Hwf3 & He3 & Hout).
  pose proof (vote_quiet env (vote_for env view (GetBlockHash nb) sig) s3 Hwf3 ltac:(by eexists)) as Hqu.
  destruct (OnProposalVote env _ s3) as [o v] eqn:Hov. simpl in Hqu.
  assert (Hqv : quiet env (set_voteHeight (Height nb) (update_spec env nb s1).2) v)
    by (etrans; [apply quiet_eqv; symmetry; exact He3|done]).
  assert (Hvv : ∀ k, voted v k → voted s k).
  { intros k Hk. destruct Hqv as [_ _ _ _ _ (l & Hn & [Hl _]%quiet_split)].
    apply (voted_quiet _ _ _ _ Hn Hl) in Hk. by apply Hvt. }
  pose proof (local_quiet _ _ Hqv Hloc3) as Hlv.
  unfold s'. rewrite Hout in Hcheck |- *. unfold mbind, M_bind in Hcheck |- *. rewrite Hov in Hcheck |- *.
  destruct o as [[]|e| |w]; try (split; [exact Hlv|]; intros k Hk; left; exact (Hvv k Hk)).
  destruct Hcheck as [Hbelow Hch]; [done|].
  eapply (self_vote_local view s s1 v _ pb parentHash nb); try done. by apply (loc_blocks s Hloc).
Qed.

(** *** Every call *)

(** A replica whose steps pass the checks keeps its invariant, and its new
    votes obey the rule. *)
Lemma call_local s c :
  core_wf s → call_ok (length (qcHeap s)) c → checked s c → local s →
  let s' := (run_call env c s).2 in local s' ∧ votes_fresh s s'.
Proof.
  intros Hwf Hok Hc Hloc s'.
  assert (Hquiet : quiet env s s' → local s' ∧ votes_fresh s s').
  { intros Hqu. split; [by eapply local_quiet|by apply votes_quiet]. }
  destruct c; simpl in *.
  - by apply propose_local.
  - by apply receive_local.
  - by apply wake_local.
  - by apply Hquiet, vote_quiet.
  - apply Hquiet, quiet_emit. by repeat constructor.
  - apply Hquiet. destruct (wp_run _ _ _ (wp_UpdateHighestQC env block qc s Hwf Hok)) as (s0 & He & _ & ->).
    etrans; [apply quiet_adopt_high|apply quiet_eqv; symmetry; exact He].
  - apply Hquiet. destruct (LoadBlock_run hash s (wf_store s Hwf)) as (x & s1 & Hl & He & _).
    unfold s', run_call. rewrite (run_bind_Ok _ _ _ _ _ Hl). apply quiet_eqv. by symmetry.
Qed.

Lemma unmarshal_local s qc :
  local s → let s' := set_qcHeap (qcHeap s ++ [qc]) s in local s' ∧ votes_fresh s s'.
Proof.
  intros Hloc s'. assert (Hqu : quiet env s s') by apply quiet_alloc.
  split; [by eapply local_quiet|by apply votes_quiet].
Qed.

End replica.

(** ** The network *)

Section network.
Context {DB E : Type} `{DatabaseLaws DB string (Block QCRef)}.
Context (envs : Z → CoreEnv E) (honest : gset Z).

(** A network is the cores of the replicas by id; those of faulty ones are idle. *)
Implicit Types (σ : Z → HotStuffCore DB).

(** What happens next: a call of an entry point of replica [i], or a
    certificate unmarshalled from a message it received. *)
Inductive action :=
| Call (i : Z) (c : core_call (E:=E))
| Deliver (i : Z) (qc : QuorumCert).

Definition actor (a : action) : Z := match a with Call i _ | Deliver i _ => i end.

Definition act (a : action) σ : Z → HotStuffCore DB :=
  match a with
  | Call i c => <[i := (run_call (envs i) c (σ i)).2]> σ
  | Deliver i qc => <[i := set_qcHeap (qcHeap (σ i) ++ [qc]) (σ i)]> σ
  end.

(** An honest replica's signature of [h] exists once it voted for [h]. *)
Definition may_sign σ (j : Z) (h : bytes) : Prop := j ∈ honest → voted (σ j) h.

(** A delivered signature of an honest replica is one it made. *)
Definition unforged σ (a : action) : Prop :=
  match a with
  | Call i (CallVote v) => vote_auth (envs i) (may_sign σ) v
  | Call _ _ => True
  | Deliver i qc => qc_auth (envs i) (may_sign σ) qc
  end.

(** Messages carry the pointers the handlers read without a test. *)
Definition well_formed σ (a : action) : Prop :=
  match a with
  | Call i c => call_ok (length (qcHeap (σ i))) c
  | Deliver _ qc => certs_ok (signs qc)
  end.

(** [P i s c]: what a step requires of a call [c] of replica [i] in state [s]. *)
Definition allowed (P : Z → HotStuffCore DB → core_call (E:=E) → Prop) σ (a : action) : Prop :=
  actor a ∈ honest ∧ well_formed σ a ∧ unforged σ a
  ∧ match a with Call i c => P i (σ i) c | Deliver _ _ => True end.

Inductive net_step (P : Z → HotStuffCore DB → core_call (E:=E) → Prop) : relation (Z → HotStuffCore DB) :=
| net_act a σ : allowed P σ a → net_step P σ (act a σ).

(** *** Running a network *)

#[global] Instance ref_ok_dec n r : Decision (ref_ok n r).
Proof.
  destruct r as [i|]; [|right; by intros (j & ? & _)].
  destruct (decide (i < n)%nat); [left; by exists i|right]. by intros (j & [= <-] & ?).
Defined.

#[global] Instance prop_ok_dec n p : Decision (prop_ok n p).
Proof.
  unfold prop_ok. destruct (prop_Block p) as [b|]; [|right; by intros (b & ? & _)].
  destruct (decide (ref_ok n (SelfQc b) ∧ ref_ok n (Justify b))); [left; by exists b|right].
  by intros (b' & [= <-] & ?).
Defined.

#[global] Instance call_ok_dec n (c : core_call (E:=E)) : Decision (call_ok n c).
Proof. destruct c; simpl; apply _. Defined.

#[global] Instance may_sign_dec σ j h : Decision (may_sign σ j h).
Proof. unfold may_sign. apply _. Defined.

#[global] Instance unforged_dec σ a : Decision (unforged σ a).
Proof.
  destruct a as [i c|i qc]; simpl.
  - destruct c; try apply _. unfold vote_auth.
    destruct (Replicas (replicas (envs i)) !! vote_Voter vote) as [info|]; [|by left].
    destruct (vote_Cert vote) as [c|]; [|by left].
    destruct (decide (accepts info (pc_Signature c) (vote_BlockHash vote) = true →
      may_sign σ (vote_Voter vote) (vote_BlockHash vote))) as [Hy|Hn].
    + left. intros info' c' [= <-] [= <-]. exact Hy.
    + right. intros Ha. apply Hn. by apply Ha.
  - refine (cast_if (decide (set_Forall (λ j, may_sign σ j (qc_BlockHash qc)) (signers (replicas (envs i)) qc)))); done.
Defined.

#[global] Instance well_formed_dec σ a : Decision (well_formed σ a).
Proof. destruct a; simpl; unfold certs_ok; apply _. Defined.

Section run.
Context (P : Z → HotStuffCore DB → core_call (E:=E) → Prop) `{∀ i s c, Decision (P i s c)}.

#[global] Instance allowed_dec σ a : Decision (allowed P σ a).
Proof. unfold allowed. destruct a; apply _. Defined.

Definition net_run (l : list action) σ : option (Z → HotStuffCore DB) :=
  foldl (λ o a, σ ← o; if decide (allowed P σ a) then Some (act a σ) else None) (Some σ) l.

Lemma net_run_none l : foldl (λ o a, σ ← o; if decide (allowed P σ a) then Some (act a σ) else None) None l = None.
Proof. by induction l. Qed.

Lemma net_run_steps l : ∀ σ σ', net_run l σ = Some σ' → rtc (net_step P) σ σ'.
Proof.
  induction l as [|a l IH]; intros σ σ' Hr; unfold net_run in Hr; simpl in Hr.
  { injection Hr as <-. apply rtc_refl. }
  destruct (decide (allowed P σ a)) as [Ha|_]; [|by rewrite net_run_none in Hr].
  eapply rtc_l; [by apply net_act|]. by apply IH.
Qed.

End run.
End network.
