(* ===== verification/Agreement.v ===== *)
(** * Agreement

    No two honest replicas decide conflicting blocks, in every execution of the
    network whose steps pass the checks of [Network.checked]; and, for the checks
    on the voting rule, the justification and the certificates, an execution
    without that check in which honest replicas decide conflicting blocks. *)

From stdpp Require Import base numbers functions fin_maps fin_map_dom gmap sets strings relations list.
From Stdlib Require Import Strings.Byte.
From S2P Require Import Prelude GoMonad Encoding Types Database LRUCache Entity Core.
From S2P Require Import CoreLemmas CoreSafety CoreSpec CoreCert CoreProps CoreProposals CoreVotes.
From S2P Require Import CoreEffects BlockTree Network.

Section agreement.
Context {DB E : Type} `{DatabaseLaws DB string (Block QCRef)}.
Context (envs : Z → CoreEnv E) (honest : gset Z) (rc : ReplicaConf) (U : list (Block QCRef)).
Local Abbreviation tree := (block_tree U).
Implicit Types (σ : Z → HotStuffCore DB).

(** Honest replicas share the configuration, and sign as themselves. *)
Record network_conf : Prop := {
  nc_conf i : i ∈ honest → replicas (envs i) = rc;
  nc_id i : i ∈ honest → id (envs i) = i;
  nc_clone i qc : i ∈ honest → clone (envs i) qc = qc;
  nc_sane : sane_metadata (Metadata rc);
  nc_registered : (Z.of_nat (size (dom (Replicas rc))) ≤ md_N (Metadata rc))%Z;
  nc_faults : (3 * md_F (Metadata rc) + 1 ≤ md_N (Metadata rc))%Z;
  nc_faulty : (Z.of_nat (size (dom (Replicas rc) ∖ honest)) ≤ md_F (Metadata rc))%Z }.

(** Every call passes the checks. *)
Definition all_checked (i : Z) (s : HotStuffCore DB) (c : core_call (E:=E)) : Prop :=
  checked (envs i) U s c.

Context (Hconf : network_conf) (HU : linked U).

Let Htree : tree_wf root tree := block_tree_wf U HU.

Local Abbreviation step := (net_step envs honest all_checked).

(** ** The invariant of the network *)

Definition net_inv σ : Prop :=
  ∀ i, i ∈ honest →
    core_wf (σ i) ∧ local (envs i) tree (σ i) ∧ auth (envs i) (may_sign honest σ) (σ i).

Lemma quorum_positive i : i ∈ honest → (0 < GetQuorumSize (Metadata (replicas (envs i))))%Z.
Proof.
  intros Hi. rewrite nc_conf, quorum_sane by (done || apply Hconf).
  pose proof (nc_faults Hconf). pose proof (nc_sane Hconf) as [? _]. lia.
Qed.

(** One replica moves, keeping what it had. *)
Lemma act_le a σ j :
  core_le (GetQuorumSize (Metadata (replicas (envs j)))) (σ j) (act envs a σ j).
Proof.
  destruct a as [i c|i qc]; simpl; (destruct (decide (i = j)) as [->|Hne];
    [rewrite fn_lookup_insert|by rewrite fn_lookup_insert_ne]).
  - apply run_call_evolves.
  - apply cs_alloc.
Qed.

Lemma act_voted a σ j h : voted (σ j) h → voted (act envs a σ j) h.
Proof.
  intros (e & Hin & Hv). exists e. split; [|done].
  eapply elem_of_prefix; [exact Hin|]. apply (le_notify _ _ _ (act_le a σ j)).
Qed.

Lemma local_keyed i s : local (envs i) tree s → keyed s.
Proof. intros Hl k b Hb. by eapply it_self, loc_blocks. Qed.

(** What a step does to the replica that moves. *)
Lemma act_local a σ :
  net_inv σ → allowed envs honest all_checked σ a →
  let i := actor a in
  core_wf (act envs a σ i) ∧ local (envs i) tree (act envs a σ i)
  ∧ votes_fresh (envs i) tree (σ i) (act envs a σ i)
  ∧ auth (envs i) (may_sign honest (act envs a σ)) (act envs a σ i).
Proof.
  intros Hinv (Hi & Hwfm & Hunf & Hchk) i. destruct (Hinv _ Hi) as (Hwf & Hloc & Hauth).
  assert (Hmono : auth (envs i) (may_sign honest (act envs a σ)) (σ i)).
  { eapply auth_mono; [|exact Hauth]. intros j h Hs Hj. by apply act_voted, Hs. }
  destruct a as [i' c|i' qc]; simpl in *; subst i; rewrite fn_lookup_insert.
  - destruct (call_local (envs i') tree U Htree (among_node U HU) (λ qc, nc_clone Hconf i' qc Hi) (quorum_positive i' Hi)
      (σ i') c Hwf Hwfm Hchk Hloc) as [Hl Hf].
    split_and!; [|done|done|].
    + eapply core_step_wf; [by intros; apply nc_clone|exact Hwf|]. by apply step_call.
    + eapply auth_mono; [|apply (call_auth (envs i') (λ qc, nc_clone Hconf i' qc Hi) (quorum_positive i' Hi)
        (may_sign honest (act envs (Call i' c) σ)) (σ i') c Hwf Hwfm (local_keyed i' _ Hloc) Hmono)].
      * intros j h [?|[-> Hv]]; [done|]. intros _. rewrite nc_id by done. simpl.
        by rewrite fn_lookup_insert.
      * destruct c; try done. intros info c Hin Hc Hacc Hj. by eapply act_voted, Hunf.
  - destruct (unmarshal_local (envs i') tree (σ i') qc Hloc) as [Hl Hf].
    split_and!; [by apply wf_alloc|done|done|].
    apply auth_alloc; [|done]. intros j Hj Hh. by apply (act_voted (Deliver i' qc)), Hunf.
Qed.

Lemma net_step_inv σ σ' : step σ σ' → net_inv σ → net_inv σ'.
Proof.
  intros [a σ0 Ha] Hinv j Hj. destruct (act_local a σ0 Hinv Ha) as (Hwf & Hloc & _ & Hauth).
  destruct (decide (j = actor a)) as [->|Hne]; [done|].
  destruct (Hinv j Hj) as (Hwf' & Hloc' & Hauth').
  assert (Heq : act envs a σ0 j = σ0 j) by (destruct a; simpl in *; by rewrite fn_lookup_insert_ne).
  rewrite Heq. split_and!; [done..|]. eapply auth_mono; [|exact Hauth']. intros k h Hs Hk. by apply act_voted, Hs.
Qed.

Lemma net_steps_inv σ σ' : rtc step σ σ' → net_inv σ → net_inv σ'.
Proof. intros Hs. induction Hs as [|σ1 σ2 σ3 H12 _ IH]; [done|]. eauto using net_step_inv. Qed.

(** New votes of a step obey the rule. *)
Lemma step_fresh σ σ' j :
  step σ σ' → net_inv σ → j ∈ honest → votes_fresh (envs j) tree (σ j) (σ' j).
Proof.
  intros [a σ0 Ha] Hinv Hj. destruct (act_local a σ0 Hinv Ha) as (_ & _ & Hf & _).
  destruct (decide (j = actor a)) as [->|Hne]; [done|].
  assert (Heq : act envs a σ0 j = σ0 j) by (destruct a; simpl in *; by rewrite fn_lookup_insert_ne).
  rewrite Heq. intros h Hh. by left.
Qed.

Lemma step_voted σ σ' j h : step σ σ' → voted (σ j) h → voted (σ' j) h.
Proof. intros [a σ0 _]. apply act_voted. Qed.

Lemma steps_voted σ σ' j h : rtc step σ σ' → voted (σ j) h → voted (σ' j) h.
Proof. intros Hs. induction Hs as [|σ1 σ2 σ3 H12 _ IH]; [done|]. eauto using step_voted. Qed.

(** Votes cast later are higher. *)
Lemma late_votes σ σ' j h :
  rtc step σ σ' → net_inv σ → j ∈ honest → voted (σ' j) h →
  voted (σ j) h ∨ (voteHeight (σ j) < height tree h)%Z.
Proof.
  intros Hs Hinv Hj Hv. induction Hs as [|σ1 σ2 σ3 H12 _ IH]; [by left|].
  destruct (IH (net_step_inv _ _ H12 Hinv) Hv) as [Hv2|Hlt].
  - destruct (step_fresh _ _ j H12 Hinv Hj h Hv2) as [|[Hlt _]]; [by left|by right].
  - right. destruct H12 as [a σ0 _]. pose proof (le_height _ _ _ (act_le a σ0 j)). lia.
Qed.

(** ** Quorums *)

(** An honest replica voted for both of two certified blocks. *)
Lemma certs_share σ1 σ2 i1 i2 h1 h2 :
  net_inv σ1 → net_inv σ2 → i1 ∈ honest → i2 ∈ honest →
  has_cert (envs i1) (σ1 i1) h1 → has_cert (envs i2) (σ2 i2) h2 →
  ∃ j, j ∈ honest ∧ voted (σ1 j) h1 ∧ voted (σ2 j) h2.
Proof.
  intros Hv1 Hv2 Hi1 Hi2 (r1 & qc1 & Hq1 & <- & Hc1) (r2 & qc2 & Hq2 & <- & Hc2).
  pose proof (auth_heap _ _ _ (proj2 (proj2 (Hv1 i1 Hi1))) _ _ Hq1) as Ha1.
  pose proof (auth_heap _ _ _ (proj2 (proj2 (Hv2 i2 Hi2))) _ _ Hq2) as Ha2.
  unfold qc_auth in *. rewrite nc_conf in * by done.
  destruct (quorum_share rc qc1 qc2 (dom (Replicas rc) ∖ honest)) as (j & Hj & Hs1 & Hs2); try done; try apply Hconf.
  assert (Hjh : j ∈ honest).
  { apply signers_registered in Hs1 as Hd. destruct (decide (j ∈ honest)); set_solver. }
  exists j. split_and!; [done|by apply Ha1|by apply Ha2].
Qed.

(** ** Safety *)

Section chain.
Context (σF : Z → HotStuffCore DB) (HF : net_inv σF).
Context (h0 h1 h2 : bytes) (Hchain : tree_chain root tree h0 h1 h2).

(** A hash certified at some honest replica. *)
Definition certified_at σ (h : bytes) : Prop := ∃ i, i ∈ honest ∧ has_cert (envs i) (σ i) h.

Context (Hc0 : certified_at σF h0) (Hc1 : certified_at σF h1) (Hc2 : certified_at σF h2).

(** Honest votes above the chain extend its first block. *)
Definition votes_extend σ : Prop :=
  ∀ j h, j ∈ honest → voted (σF j) h2 → voted (σ j) h → (height tree h2 < height tree h)%Z →
    extends root tree h0 h.

Lemma voted_unique j h h' :
  j ∈ honest → voted (σF j) h → voted (σF j) h' → height tree h = height tree h' → h = h'.
Proof. intros Hj. apply (loc_unique (envs j) tree (σF j)). by apply HF. Qed.

(** Certified blocks at or above the first block of the chain extend it. *)
Lemma certified_extend σ h :
  net_inv σ → rtc step σ σF → votes_extend σ → certified_at σ h →
  (height tree h0 ≤ height tree h)%Z → extends root tree h0 h.
Proof.
  intros Hinv Hs Hext (i & Hi & Hc) Hle.
  destruct (chain_heights root tree Htree _ _ _ Hchain) as [E1 E2].
  destruct (chain_extends root tree _ _ _ Hchain) as [X1 X2].
  assert (Hsame : ∀ k, certified_at σF k → height tree h = height tree k → h = k).
  { intros k (i' & Hi' & Hk) Heq.
    destruct (certs_share σ σF i i' h k) as (j & Hj & Hv & Hv'); [done..|].
    eapply voted_unique; [done|by eapply steps_voted|done|done]. }
  destruct (decide (height tree h = height tree h0)) as [|N0]; [by rewrite (Hsame h0); [apply rtc_refl|..]|].
  destruct (decide (height tree h = height tree h1)) as [|N1]; [by rewrite (Hsame h1)|].
  destruct (decide (height tree h = height tree h2)) as [|N2]; [by rewrite (Hsame h2)|].
  destruct Hc2 as (i2 & Hi2 & Hk2).
  destruct (certs_share σ σF i i2 h h2) as (j & Hj & Hv & Hv2); [done..|].
  apply (Hext j); [done..|lia].
Qed.

Lemma votes_extend_step σ σ' :
  net_inv σ → step σ σ' → rtc step σ' σF → votes_extend σ → votes_extend σ'.
Proof.
  intros Hinv Hst Hs Hext j h Hj Hj2 Hv Hlt.
  destruct (step_fresh _ _ j Hst Hinv Hj h Hv) as [Hold|(_ & lh & Hlh & Hb & Hk & Hrule)]; [by apply (Hext j)|].
  pose proof (net_step_inv _ _ Hst Hinv) as Hinv'. destruct (Hinv' j Hj) as (_ & Hloc' & _).
  assert (Hv2 : voted (σ' j) h2).
  { destruct (late_votes σ' σF j h2 Hs Hinv' Hj Hj2) as [|Hlow]; [done|].
    destruct (loc_voted _ _ _ Hloc' h Hv) as (_ & _ & Hle & _). lia. }
  destruct (loc_voted _ _ _ Hloc' h2 Hv2) as (_ & _ & _ & Hlock). specialize (Hlock lh Hlh).
  rewrite (chain_j2 _ _ _ _ _ Hchain), (chain_j1 _ _ _ _ _ Hchain) in Hlock.
  destruct (loc_voted _ _ _ Hloc' h Hv) as (Hkh & Hr & _).
  assert (Hrt : rtc step σ σF) by (by eapply rtc_l).
  assert (Hx : ∀ k, backed (envs j) (σ j) k → known tree k → (height tree h0 ≤ height tree k)%Z → extends root tree h0 k).
  { intros k [->|Hck] Hkk Hle.
    - rewrite (root_height _ _ Htree) in Hle. destruct (chain_known _ _ Htree _ _ _ Hchain) as [Hk0 _].
      pose proof (tree_height _ _ Htree _ Hk0). rewrite (height_zero _ _ Htree h0) by (done || lia). apply rtc_refl.
    - apply (certified_extend σ); [done..|by exists j|done]. }
  destruct Hrule as [He|[Hcj Hlj]].
  - etrans; [by apply (Hx lh)|exact He].
  - etrans; [apply (Hx (justify tree h)); [by right|by apply (justify_known root)|lia]|].
    by apply (justify_extends root).
Qed.

Lemma votes_extend_all σ0 :
  net_inv σ0 → (∀ j h, j ∈ honest → ¬ voted (σ0 j) h) → rtc step σ0 σF → votes_extend σF.
Proof.
  intros H0i Hnone Hs.
  assert (Hall : ∀ σ, rtc step σ0 σ → rtc step σ σF → votes_extend σ).
  { refine (rtc_ind_r _ σ0 _ _).
    - intros _ j h Hj _ Hv. by destruct (Hnone j h Hj).
    - intros σ σ' H0s Hst IH Hs'. apply (votes_extend_step σ); [by eapply net_steps_inv|done|done|].
      apply IH. by eapply rtc_l. }
  apply Hall; [done|apply rtc_refl].
Qed.

End chain.

(** Every certified block at or above the first block of a certified chain
    extends it. *)
Lemma chain_extended σ0 σ h0 h1 h2 k i j :
  net_inv σ0 → (∀ l h, l ∈ honest → ¬ voted (σ0 l) h) → rtc step σ0 σ →
  tree_chain root tree h0 h1 h2 → i ∈ honest → j ∈ honest →
  has_cert (envs i) (σ i) h0 → has_cert (envs i) (σ i) h1 → has_cert (envs i) (σ i) h2 →
  has_cert (envs j) (σ j) k → (height tree h0 ≤ height tree k)%Z → extends root tree h0 k.
Proof.
  intros Hi0 Hnone Hs Hc Hi Hj C0 C1 C2 Ck Hle. pose proof (net_steps_inv _ _ Hs Hi0) as Hinv.
  assert (Hat : ∀ h, has_cert (envs i) (σ i) h → certified_at σ h) by (intros h ?; by exists i).
  apply (certified_extend σ Hinv h0 h1 h2 Hc (Hat _ C0) (Hat _ C1) (Hat _ C2) σ);
    [done|apply rtc_refl| |by exists j|done].
  by apply (votes_extend_all σ Hinv h0 h1 h2 Hc (Hat _ C0) (Hat _ C1) (Hat _ C2) σ0).
Qed.

(** Two decided blocks lie on one branch. *)
Lemma decided_comparable σ0 σ i j b b' :
  net_inv σ0 → (∀ k h, k ∈ honest → ¬ voted (σ0 k) h) → rtc step σ0 σ →
  i ∈ honest → j ∈ honest →
  DecideEvent b ∈ notifyChan (σ i) → DecideEvent b' ∈ notifyChan (σ j) →
  (extends root tree (GetBlockHash b) (GetBlockHash b') ∨ extends root tree (GetBlockHash b') (GetBlockHash b))
  ∧ (Height b = Height b' → GetBlockHash b = GetBlockHash b').
Proof.
  intros Hi0 Hnone Hs Hi Hj Hb Hb'. pose proof (net_steps_inv _ _ Hs Hi0) as Hinv.
  destruct (loc_decided _ _ _ (proj1 (proj2 (Hinv i Hi))) b Hb) as (h0 & h1 & h2 & Hc & C0 & C1 & C2 & Hx & Hhb).
  destruct (loc_decided _ _ _ (proj1 (proj2 (Hinv j Hj))) b' Hb') as (k0 & k1 & k2 & Kc & K0 & K1 & K2 & Kx & Khb).
  enough (Hor : extends root tree (GetBlockHash b) (GetBlockHash b')
    ∨ extends root tree (GetBlockHash b') (GetBlockHash b)).
  { split; [done|]. intros Heq. eapply comparable_same_height; [exact Htree|done|congruence]. }
  destruct (decide (height tree h0 ≤ height tree k0)%Z) as [Hle|Hle].
  - apply (extends_total _ _ Htree _ _ k0); [|done]. etrans; [exact Hx|].
    by apply (chain_extended σ0 σ h0 h1 h2 k0 i j).
  - apply (extends_total _ _ Htree _ _ h0); [done|]. etrans; [exact Kx|].
    apply (chain_extended σ0 σ k0 k1 k2 h0 j i); done || lia.
Qed.

End agreement.

(** ** The initial network *)

Definition start : Z → HotStuffCore CoreDB := λ _, initCore.

Lemma initCore_key h b : stored initCore h = Some b → h = root.
Proof.
  unfold initCore, NewHotStuffCore, stored, root. cbv zeta. cbn [blockCache].
  generalize (GetBlockHash genesis). intros r Hb.
  assert (Hd : db_inv (NewLRUCache 30 : CoreDB)) by (split; [apply New_inv|done]).
  destruct (decide (h = r)) as [|Hne]; [done|].
  assert (Hne' : EncodeToString h ≠ EncodeToString r) by (by intros ?%(inj _)).
  match type of Hb with db_view (db_put _ ?g _).2 _ = _ =>
    destruct (db_view_put_ne (EncodeToString r) (EncodeToString h) g _ Hd Hne') as [He|He] end;
    rewrite He in Hb; discriminate Hb.
Qed.

Lemma initCore_heap : qcHeap initCore = [MkQuorumCert (-1) root (Some ∅)].
Proof. unfold root, initCore, NewHotStuffCore. cbv zeta. by generalize (GetBlockHash genesis). Qed.

Lemma initCore_fields :
  genericQC initCore = Some 0%nat ∧ lockedQC initCore = Some 0%nat ∧ notifyChan initCore = []
  ∧ voteSet initCore = ∅.
Proof. unfold initCore, NewHotStuffCore. cbv zeta. by generalize (GetBlockHash genesis). Qed.

Lemma initCore_local {E} (env : CoreEnv E) (tree : bytes → option Node) : tree_wf root tree → local env tree initCore.
Proof.
  intros Htree. destruct initCore_fields as (Hg & Hl & Hn & _).
  assert (Hroot : qc_hash initCore (Some 0%nat) = Some root).
  { unfold qc_hash. cbn [mbind option_bind]. by rewrite initCore_heap. }
  constructor.
  - intros k b Hb. assert (k = root) as -> by (by eapply initCore_key).
    rewrite (initCore_stored root b Hb). constructor; [reflexivity|exact Hroot|left].
    split; [reflexivity|]. split; [reflexivity|]. split; reflexivity.
  - exists root. rewrite Hl. split; [split; [exact Hroot|left; reflexivity]|by eapply root_known].
  - exists root. rewrite Hg. split; [exact Hroot|left; reflexivity].
  - intros h (e & Hin & _). rewrite Hn in Hin. destruct (not_elem_of_nil _ Hin).
  - intros h h' (e & Hin & _). rewrite Hn in Hin. destruct (not_elem_of_nil _ Hin).
  - intros b Hin. rewrite Hn in Hin. destruct (not_elem_of_nil _ Hin).
Qed.

Lemma start_inv {E} (envs : Z → CoreEnv E) honest U : linked U → net_inv envs honest U start.
Proof.
  intros HU i Hi. split; [apply initCore_wf|]. split; [by apply initCore_local, block_tree_wf|].
  destruct initCore_fields as (_ & _ & _ & Hv). unfold start. constructor.
  - intros r qc Hr. rewrite initCore_heap in Hr.
    apply list_lookup_singleton_Some in Hr as [_ <-]. apply qc_auth_empty.
  - intros k vs v Hk. rewrite Hv in Hk. by rewrite lookup_empty in Hk.
Qed.

Lemma start_no_votes k h : ¬ voted (start k) h.
Proof.
  destruct initCore_fields as (_ & _ & Hn & _). intros (e & Hin & _). unfold start in Hin.
  rewrite Hn in Hin. destruct (not_elem_of_nil _ Hin).
Qed.

(** C1 Agreement.  Take a network in which at most [F] of [N >= 3F + 1] replicas
    are faulty, honest replicas share the configuration and sign as themselves,
    no signature of an honest replica is forged, and the blocks of the execution
    are [linked]: each but the genesis block has a parent among them, one lower,
    and no two of them are a SHA-256 collision.  Take any execution, with
    handlers run one at a time, whose calls pass the checks of [checked], which
    the handlers leave out: a received block is named by its own hash; its
    justification names its parent - the hash does not cover it, so the same
    block can come with another one - and is signed by a quorum or names the
    genesis block; and the replica votes for it only when the voting rule raised
    its vote height and the blocks it has to lock on are stored; a proposed
    block extends the highest certificate and the lock.  Then any two blocks
    decided by honest replicas lie on one branch, and decided blocks of the same
    height are the same block. *)
Theorem agreement {E} (envs : Z → CoreEnv E) (honest : gset Z) rc U σ i j b b' :
  network_conf envs honest rc → linked U →
  rtc (net_step envs honest (all_checked envs U)) start σ →
  i ∈ honest → j ∈ honest →
  DecideEvent b ∈ notifyChan (σ i) → DecideEvent b' ∈ notifyChan (σ j) →
  (branch_in U (GetBlockHash b) (GetBlockHash b') ∨ branch_in U (GetBlockHash b') (GetBlockHash b))
  ∧ (Height b = Height b' → GetBlockHash b = GetBlockHash b').
Proof.
  intros Hconf HU Hs Hi Hj Hb Hb'.
  destruct (decided_comparable envs honest rc U Hconf HU start σ i j b b') as [Hor Hh];
    [exact (start_inv envs honest U HU)|intros k h _; apply start_no_votes|exact Hs|exact Hi|exact Hj|exact Hb|exact Hb'|].
  split; [|exact Hh]. destruct Hor as [Hx|Hx]; [left|right]; exact (extends_branch U _ _ Hx).
Qed.

(** ** Runs of four replicas, of which replica 3 is faulty *)

Module ToyNet.

Definition honest : gset Z := {[0%Z; 1%Z; 2%Z]}.

(** Two branches from the genesis block: [b1] to [b5] and [c1] to [c4]. *)
Definition h5 : bytes := Redelivery.h5.
Definition c1 : bytes := Fork.hc.
Definition c2 : bytes := GetBlockHash (ToyCore.block c1 [x79] 2 0 0).
Definition c3 : bytes := GetBlockHash (ToyCore.block c2 [x78] 3 0 0).
Definition c4 : bytes := GetBlockHash (ToyCore.block c3 [x77] 4 0 0).

(** A third branch, from [b1]: [d2] to [d8]. *)
Definition d2 : bytes := GetBlockHash (ToyCore.block ToyCore.h1 [x71] 2 0 0).
Definition d3 : bytes := GetBlockHash (ToyCore.block d2 [x71] 3 0 0).
Definition d4 : bytes := GetBlockHash (ToyCore.block d3 [x71] 4 0 0).
Definition d5 : bytes := GetBlockHash (ToyCore.block d4 [x71] 5 0 0).
Definition d6 : bytes := GetBlockHash (ToyCore.block d5 [x71] 6 0 0).
Definition d7 : bytes := GetBlockHash (ToyCore.block d6 [x71] 7 0 0).
Definition d8 : bytes := GetBlockHash (ToyCore.block d7 [x71] 8 0 0).

Definition blocks : list (Block QCRef) :=
  genesis :: ((λ '(p, c, h), ToyCore.block p c h 0 0) <$>
  [(root, [x61], 1); (ToyCore.h1, [x62], 2); (ToyCore.h2, [x63], 3); (ToyCore.h3, [x64], 4); (ToyCore.h4, [x65], 5);
   (root, [x7a], 1); (c1, [x79], 2); (c2, [x78], 3); (c3, [x77], 4);
   (ToyCore.h1, [x71], 2); (d2, [x71], 3); (d3, [x71], 4); (d4, [x71], 5); (d5, [x71], 6); (d6, [x71], 7);
   (d7, [x71], 8)]%Z).

Definition tree : bytes → option Node := block_tree blocks.

Lemma blocks_ok : linked blocks.
Proof. apply (bool_decide_unpack _). vm_compute. exact I. Qed.

Lemma conf_ok : network_conf ToyCore.env honest Toy.conf.
Proof. by constructor. Qed.

(** Replica [i], with [n] certificates in memory, receives a child of [parent]
    justified by a certificate of [signers] for [jh]. *)
Definition proposal_on (jh : bytes) (signers : list Z) (i : Z) (n : nat) (view : Z) (parent h cmds : bytes)
    : list (action (E:=unit)) :=
  [Deliver i (Toy.qc (view - 1) jh signers);
   Deliver i (Toy.qc view h []);
   Call i (CallReceiveProposal tt (MkProposal view (Some (ToyCore.block parent cmds view n (S n)))))].

(** ... for its parent. *)
Definition proposal (signers : list Z) (i : Z) (n : nat) (view : Z) (parent h cmds : bytes) :=
  proposal_on parent signers i n view parent h cmds.

(** All honest replicas receive [b1] to [b4]; replica 2 also [b5]. *)
Definition to_all (signers : list Z) (n : nat) (view : Z) (parent h cmds : bytes) :=
  flat_map (λ i, proposal signers i n view parent h cmds) [0; 1; 2]%Z.

Definition good : list (action (E:=unit)) :=
  to_all [] 1 1 root ToyCore.h1 [x61] ++ to_all [0; 1; 2]%Z 3 2 ToyCore.h1 ToyCore.h2 [x62]
  ++ to_all [0; 1; 3]%Z 5 3 ToyCore.h2 ToyCore.h3 [x63] ++ to_all [0; 2; 3]%Z 7 4 ToyCore.h3 ToyCore.h4 [x64]
  ++ proposal [1; 2; 3]%Z 2 9 5 ToyCore.h4 h5 [x65].

(** What is left of [checked] without the condition on the voting rule ... *)
Definition all_but_rule (i : Z) (s : HotStuffCore CoreDB) (c : core_call (E:=unit)) : Prop :=
  let out := run_call (ToyCore.env i) c s in
  match c with
  | CallReceiveProposal _ prop =>
      match prop_Block prop with
      | None => True
      | Some b => named blocks s b ∧ justified (ToyCore.env i) s b
                  ∧ (is_ok out.1 = true → chain_stored out.2 b)
      end
  | _ => checked (ToyCore.env i) blocks s c
  end.

(** ... and without the condition on justifications. *)
Definition all_but_certificates (i : Z) (s : HotStuffCore CoreDB) (c : core_call (E:=unit)) : Prop :=
  let out := run_call (ToyCore.env i) c s in
  match c with
  | CallReceiveProposal _ prop =>
      match prop_Block prop with
      | None => True
      | Some b => named blocks s b
                  ∧ (is_ok out.1 = true → (voteHeight s < voteHeight out.2)%Z ∧ chain_stored out.2 b)
      end
  | _ => checked (ToyCore.env i) blocks s c
  end.

(** The branch that ends in [h], at most [n] blocks below it. *)
Definition parents : list (bytes * bytes) := (λ b, (GetBlockHash b, ParentHash b)) <$> blocks.

Fixpoint climb (n : nat) (h : bytes) : list bytes :=
  h :: match n with O => [] | S n => (filter (λ p, p.1 = h) parents).*2 ≫= climb n end.

(** [checked] with a justification that names any ancestor of the block. *)
Definition all_but_parent (i : Z) (s : HotStuffCore CoreDB) (c : core_call (E:=unit)) : Prop :=
  let out := run_call (ToyCore.env i) c s in
  match c with
  | CallReceiveProposal _ prop =>
      match prop_Block prop with
      | None => True
      | Some b => among blocks b ∧ GetBlockHash b ≠ root ∧ qc_hash s (SelfQc b) = Some (GetBlockHash b)
                  ∧ qc_hash s (Justify b) ∈ Some <$> climb 8 (ParentHash b) ∧ justified (ToyCore.env i) s b
                  ∧ (is_ok out.1 = true → (voteHeight s < voteHeight out.2)%Z ∧ chain_stored out.2 b)
      end
  | _ => checked (ToyCore.env i) blocks s c
  end.

#[global] Instance all_but_parent_dec i s c : Decision (all_but_parent i s c).
Proof.
  unfold all_but_parent, justified, chain_stored. destruct c; try apply _.
  destruct (prop_Block prop) as [b|]; [|apply _]. destruct (qc_block _ _); apply _.
Defined.

#[global] Instance all_but_rule_dec i s c : Decision (all_but_rule i s c).
Proof.
  unfold all_but_rule, named, justified, chain_stored. destruct c; try apply _.
  destruct (prop_Block prop) as [b|]; [|apply _]. destruct (qc_block _ _); apply _.
Defined.

#[global] Instance all_but_certificates_dec i s c : Decision (all_but_certificates i s c).
Proof.
  unfold all_but_certificates, named, chain_stored. destruct c; try apply _.
  destruct (prop_Block prop) as [b|]; [|apply _]. destruct (qc_block _ _); apply _.
Defined.

(** Replica 1 is shown the first branch, replica 2 the second, replica 0 both. *)
Definition split : list (action (E:=unit)) :=
  let a := [0; 1; 3]%Z in let c := [0; 2; 3]%Z in
  proposal [] 0 1 1 root ToyCore.h1 [x61] ++ proposal [] 0 3 1 root c1 [x7a]
  ++ proposal [] 1 1 1 root ToyCore.h1 [x61] ++ proposal [] 2 1 1 root c1 [x7a]
  ++ proposal a 0 5 2 ToyCore.h1 ToyCore.h2 [x62] ++ proposal c 0 7 2 c1 c2 [x79]
  ++ proposal a 1 3 2 ToyCore.h1 ToyCore.h2 [x62] ++ proposal c 2 3 2 c1 c2 [x79]
  ++ proposal a 0 9 3 ToyCore.h2 ToyCore.h3 [x63] ++ proposal c 0 11 3 c2 c3 [x78]
  ++ proposal a 1 5 3 ToyCore.h2 ToyCore.h3 [x63] ++ proposal c 2 5 3 c2 c3 [x78]
  ++ proposal a 1 7 4 ToyCore.h3 ToyCore.h4 [x64] ++ proposal c 2 7 4 c3 c4 [x77].

(** [b3] and [b4] reach replica 1 with the certificates of their parents and
    replica 0 with that of [b1], under which it need not lock.  Replica 2 first
    gets [d2] to [d4], which wait for [b1], then [b1].  The branch of [d5] to
    [d8], justified by [b1], goes to replicas 0 and 2. *)
Definition evade : list (action (E:=unit)) :=
  let a := [0; 1; 3]%Z in let c := [0; 2; 3]%Z in let q := [x71] in
  proposal [] 0 1 1 root ToyCore.h1 [x61] ++ proposal [] 1 1 1 root ToyCore.h1 [x61]
  ++ proposal a 0 3 2 ToyCore.h1 ToyCore.h2 [x62] ++ proposal a 1 3 2 ToyCore.h1 ToyCore.h2 [x62]
  ++ proposal_on ToyCore.h1 a 0 5 3 ToyCore.h2 ToyCore.h3 [x63] ++ proposal a 1 5 3 ToyCore.h2 ToyCore.h3 [x63]
  ++ proposal_on ToyCore.h1 a 0 7 4 ToyCore.h3 ToyCore.h4 [x64] ++ proposal a 1 7 4 ToyCore.h3 ToyCore.h4 [x64]
  ++ proposal a 1 9 5 ToyCore.h4 h5 [x65]
  ++ proposal a 2 1 2 ToyCore.h1 d2 q ++ proposal_on ToyCore.h1 a 2 3 3 d2 d3 q
  ++ proposal_on ToyCore.h1 a 2 5 4 d3 d4 q ++ proposal [] 2 7 1 root ToyCore.h1 [x61]
  ++ proposal_on ToyCore.h1 a 0 9 5 d4 d5 q ++ proposal_on ToyCore.h1 a 2 9 5 d4 d5 q
  ++ proposal c 0 11 6 d5 d6 q ++ proposal c 2 11 6 d5 d6 q
  ++ proposal c 0 13 7 d6 d7 q ++ proposal c 2 13 7 d6 d7 q ++ proposal c 2 15 8 d7 d8 q.

(** Replica 1 is shown the first branch and replica 2 the second, with
    certificates that nobody signed. *)
Definition unsigned : list (action (E:=unit)) :=
  proposal [] 1 1 1 root ToyCore.h1 [x61] ++ proposal [] 2 1 1 root c1 [x7a]
  ++ proposal [] 1 3 2 ToyCore.h1 ToyCore.h2 [x62] ++ proposal [] 2 3 2 c1 c2 [x79]
  ++ proposal [] 1 5 3 ToyCore.h2 ToyCore.h3 [x63] ++ proposal [] 2 5 3 c2 c3 [x78]
  ++ proposal [] 1 7 4 ToyCore.h3 ToyCore.h4 [x64] ++ proposal [] 2 7 4 c3 c4 [x77].

(** The hashes of the blocks a replica decided. *)
Definition decisions (s : HotStuffCore CoreDB) : list bytes :=
  omap (λ e, match e with DecideEvent b => Some (GetBlockHash b) | _ => None end) (notifyChan s).

Definition decisions_after (P : Z → HotStuffCore CoreDB → core_call (E:=unit) → Prop)
    `{∀ i s c, Decision (P i s c)} (l : list (action (E:=unit))) : option (list bytes * list bytes) :=
  σ ← net_run ToyCore.env honest P l start; Some (decisions (σ 1%Z), decisions (σ 2%Z)).

Lemma decisions_reached P `{∀ i s c, Decision (P i s c)} l d1 d2 :
  decisions_after P l = Some (d1, d2) →
  ∃ σ, rtc (net_step ToyCore.env honest P) start σ ∧ decisions (σ 1%Z) = d1 ∧ decisions (σ 2%Z) = d2.
Proof.
  unfold decisions_after. destruct (net_run _ _ _ _ _) as [σ|] eqn:Hr; [|done].
  intros [= <- <-]. exists σ. split; [by eapply net_run_steps|done].
Qed.

Lemma decisions_elem s h : h ∈ decisions s → ∃ b, DecideEvent b ∈ notifyChan s ∧ GetBlockHash b = h.
Proof.
  unfold decisions. intros (e & Hin & He)%list_elem_of_omap. destruct e; try done. injection He as <-. eauto.
Qed.

End ToyNet.

Lemma agreement_witness :
  branch_in ToyNet.blocks ToyCore.h1 ToyCore.h2 ∨ branch_in ToyNet.blocks ToyCore.h2 ToyCore.h1.
Proof.
  destruct (ToyNet.decisions_reached (all_checked ToyCore.env ToyNet.blocks) ToyNet.good
    [ToyCore.h1] [ToyCore.h1; ToyCore.h2]) as (σ & Hs & H1 & H2); [ToyCore.by_vm|].
  destruct (ToyNet.decisions_elem (σ 1%Z) ToyCore.h1) as (b & Hb & <-); [rewrite H1; by left|].
  destruct (ToyNet.decisions_elem (σ 2%Z) ToyCore.h2) as (b' & Hb' & <-); [rewrite H2; right; by left|].
  apply (agreement ToyCore.env ToyNet.honest Toy.conf ToyNet.blocks σ 1 2 b b').
  - exact ToyNet.conf_ok.
  - exact ToyNet.blocks_ok.
  - exact Hs.
  - apply (bool_decide_unpack _). vm_compute. exact I.
  - apply (bool_decide_unpack _). vm_compute. exact I.
  - exact Hb.
  - exact Hb'.
Defined.

(** ** What breaks agreement *)

(** C2 One faulty replica of four splits the network.  The voting rule is not
    enforced: a replica votes for every proposal it can process.  So with every
    block named by its hash, every justification signed by a quorum, no
    signature forged and all blocks delivered in order, a faulty leader that
    shows two branches to different replicas gets both certified, and replicas
    1 and 2, both honest, decide different blocks of height 1. *)
Theorem equivocation_splits :
  ∃ σ, rtc (net_step ToyCore.env ToyNet.honest ToyNet.all_but_rule) start σ
    ∧ ToyNet.decisions (σ 1%Z) = [ToyCore.h1] ∧ ToyNet.decisions (σ 2%Z) = [ToyNet.c1]
    ∧ ToyCore.h1 ≠ ToyNet.c1
    ∧ height ToyNet.tree ToyCore.h1 = 1%Z ∧ height ToyNet.tree ToyNet.c1 = 1%Z.
Proof.
  destruct (ToyNet.decisions_reached ToyNet.all_but_rule ToyNet.split [ToyCore.h1] [ToyNet.c1])
    as (σ & Hs & H1 & H2); [ToyCore.by_vm|].
  exists σ. split; [exact Hs|]. split; [exact H1|]. split; [exact H2|].
  split; [vm_compute; discriminate|]. split; ToyCore.by_vm.
Qed.

(** Certificates are not required either: without a single signature, proposals
    that respect the voting rule make replicas 1 and 2 decide different blocks
    of height 1. *)
Theorem unsigned_splits :
  ∃ σ, rtc (net_step ToyCore.env ToyNet.honest ToyNet.all_but_certificates) start σ
    ∧ ToyNet.decisions (σ 1%Z) = [ToyCore.h1] ∧ ToyNet.decisions (σ 2%Z) = [ToyNet.c1]
    ∧ ToyCore.h1 ≠ ToyNet.c1.
Proof.
  destruct (ToyNet.decisions_reached ToyNet.all_but_certificates ToyNet.unsigned [ToyCore.h1] [ToyNet.c1])
    as (σ & Hs & H1 & H2); [ToyCore.by_vm|].
  exists σ. split; [exact Hs|]. split; [exact H1|]. split; [exact H2|]. vm_compute. discriminate.
Qed.

(** A block's justification is not covered by its hash.  With every block
    named by its hash and justified by a quorum's certificate for one of its
    ancestors, every vote cast by the rule with the blocks it locks on stored,
    and no signature forged, a faulty leader sends the same block to different
    replicas with certificates of different age: those that get the old one do
    not lock, later vote for another branch, and replicas 1 and 2, both honest,
    decide different blocks of height 2. *)
Theorem older_justify_splits :
  ∃ σ, rtc (net_step ToyCore.env ToyNet.honest ToyNet.all_but_parent) start σ
    ∧ ToyNet.decisions (σ 1%Z) = [ToyCore.h1; ToyCore.h2]
    ∧ ToyNet.decisions (σ 2%Z) = [ToyNet.d5; ToyNet.d4; ToyNet.d3; ToyNet.d2; ToyCore.h1]
    ∧ ToyCore.h2 ≠ ToyNet.d2
    ∧ height ToyNet.tree ToyCore.h2 = 2%Z ∧ height ToyNet.tree ToyNet.d2 = 2%Z.
Proof.
  destruct (ToyNet.decisions_reached ToyNet.all_but_parent ToyNet.evade [ToyCore.h1; ToyCore.h2]
    [ToyNet.d5; ToyNet.d4; ToyNet.d3; ToyNet.d2; ToyCore.h1]) as (σ & Hs & H1 & H2); [ToyCore.by_vm|].
  exists σ. split; [exact Hs|]. split; [exact H1|]. split; [exact H2|].
  split; [vm_compute; discriminate|]. split; ToyCore.by_vm.
Qed.

(** A vote does not wait for the block it has to lock on: replica 1, which never
    received [b1], parks on the proposal of [b2], then votes for [b3], whose
    chain of justifications is [b2], [b1], and stays locked on the genesis
    block. *)
Theorem vote_without_lock :
  let s2 := ToyCore.recv 2 ToyCore.h1 [0; 2; 3]%Z ToyCore.h2 (ToyCore.block ToyCore.h1 [x62] 2 1 2) initCore in
  let s3 := ToyCore.recv 3 ToyCore.h2 [0; 2; 3]%Z ToyCore.h3 (ToyCore.block ToyCore.h2 [x63] 3 3 4) s2 in
  votes_sent s2 = [] ∧ votes_sent s3 = [(1%Z, 3%Z, ToyCore.h3)] ∧ lockedQC s3 = Some 0%nat.
Proof. split; [ToyCore.by_vm|]. split; ToyCore.by_vm. Qed.

