(* ===== verification/WaitBlock.v ===== *)
(** * Waiting for a block ([AsyncWaitBlock] and [cond] of [consensus/consensus.go])

    [Core] runs a method in one step up to [cond.Wait].  Here one goroutine in
    [AsyncWaitBlock] and goroutines that store a block and call [cond.Broadcast]
    are interleaved between these calls: nothing holds [cond.L] from the check of
    the cache to [cond.Wait], nor around [StoreBlock] and [Broadcast].  A parked
    goroutine wakes on a [Broadcast] made after it entered [Wait]. *)

From stdpp Require Import base numbers fin_maps gmap sets strings list.
From S2P Require Import Prelude GoMonad Encoding Types Database LRUCache Entity Core CoreLemmas CoreSafety CoreProps.

Inductive goroutine :=
| WaitStart (hash : bytes)                          (* before LoadBlock *)
| WaitMissed (hash : bytes)                         (* no block; before cond.Wait *)
| WaitParked (hash : bytes) (gen : nat)             (* in cond.Wait *)
| WaitDone (r : go_error + Block QCRef)
| StoreStart (b : Block QCRef)                      (* before StoreBlock *)
| StoreDone                                         (* before cond.Broadcast *)
| Broadcasted
| Crashed.

Section wait.
Context {DB : Type} `{DatabaseLaws DB string (Block QCRef)}.

(** The next step of a goroutine, if it can take one. *)
Definition advance (g : goroutine) (s : HotStuffCore DB) : option (goroutine * HotStuffCore DB) :=
  match g with
  | WaitStart hash =>
      match AsyncWaitBlock hash s with
      | (Ok r, s') => Some (WaitDone r, s')
      | (Park _, s') => Some (WaitMissed hash, s')
      | (_, s') => Some (Crashed, s')
      end
  | WaitMissed hash => Some (WaitParked hash (condGen s), s)
  | WaitParked hash gen =>
      if decide (gen < condGen s) then
        match AsyncWaitBlock_wake hash s with
        | (Ok r, s') => Some (WaitDone r, s')
        | (_, s') => Some (Crashed, s')
        end
      else None
  | StoreStart b =>
      match StoreBlock b s with
      | (Ok _, s') => Some (StoreDone, s')
      | (_, s') => Some (Crashed, s')
      end
  | StoreDone =>
      match cond_Broadcast s with
      | (Ok _, s') => Some (Broadcasted, s')
      | (_, s') => Some (Crashed, s')
      end
  | WaitDone _ | Broadcasted | Crashed => None
  end.

(** Goroutine [i] takes a step; a schedule names who moves. *)
Definition advance_nth (i : nat) (x : HotStuffCore DB * list goroutine)
    : option (HotStuffCore DB * list goroutine) :=
  g ← x.2 !! i;
  '(g', s') ← advance g x.1;
  Some (s', <[i := g']> x.2).

Fixpoint schedule (l : list nat) (x : HotStuffCore DB * list goroutine)
    : option (HotStuffCore DB * list goroutine) :=
  match l with
  | [] => Some x
  | i :: l => x' ← advance_nth i x; schedule l x'
  end.

(** Nobody can move. *)
Definition quiescent (x : HotStuffCore DB * list goroutine) : Prop :=
  ∀ i, advance_nth i x = None.

(** ** One step at a time *)

Section steps.
Context (h : bytes) (b : Block QCRef) (r : QCRef) (qc : QuorumCert).
Context (heap : list QuorumCert) (Hb : SelfQc b = Some r) (Hr : heap !! r = Some qc) (Hqc : qc_BlockHash qc = h).

(** The cache holds [o] under [h], after [gen] calls of [Broadcast]. *)
Definition holds (o : option (Block QCRef)) (gen : nat) (s : HotStuffCore DB) : Prop :=
  store_ok s ∧ stored s h = o ∧ condGen s = gen ∧ qcHeap s = heap.

Lemma holds_eqv o gen s s' : s' ≡ s → store_ok s' → holds o gen s → holds o gen s'.
Proof.
  intros He Hok (_ & Hst & Hg & Hq). split; [done|].
  by rewrite (eqv_stored _ _ He), (eqv_cond _ _ He), (eqv_heap _ _ He).
Qed.

Lemma check_misses gen s : holds None gen s →
  ∃ s', advance (WaitStart h) s = Some (WaitMissed h, s') ∧ holds None gen s'.
Proof.
  intros Hs. pose proof Hs as (Hok & Hst & _). simpl. unfold AsyncWaitBlock.
  destruct (LoadBlock_missing h s Hok Hst) as (e & s' & Hl & He & Hok').
  rewrite (run_bind_Ok _ _ _ _ _ Hl). eauto using holds_eqv.
Qed.

Lemma check_hits gen s : holds (Some b) gen s →
  ∃ s', advance (WaitStart h) s = Some (WaitDone (inr b), s') ∧ holds (Some b) gen s'.
Proof.
  intros Hs. pose proof Hs as (Hok & Hst & _). simpl. unfold AsyncWaitBlock.
  destruct (LoadBlock_found h s b Hok Hst) as (s' & Hl & He & Hok').
  rewrite (run_bind_Ok _ _ _ _ _ Hl). eauto using holds_eqv.
Qed.

Lemma parks o gen s : holds o gen s →
  ∃ s', advance (WaitMissed h) s = Some (WaitParked h gen, s') ∧ holds o gen s'.
Proof. intros Hs. exists s. simpl. pose proof Hs as (_ & _ & -> & _). done. Qed.

Lemma sleeps o gen s : holds o gen s → advance (WaitParked h gen) s = None.
Proof. intros (_ & _ & <- & _). simpl. destruct (decide _); [lia|done]. Qed.

Lemma wakes gen s : holds (Some b) (S gen) s →
  ∃ s', advance (WaitParked h gen) s = Some (WaitDone (inr b), s') ∧ holds (Some b) (S gen) s'.
Proof.
  intros Hs. pose proof Hs as (Hok & Hst & Hg & _). simpl. destruct (decide _); [|lia].
  unfold AsyncWaitBlock_wake. destruct (LoadBlock_found h s b Hok Hst) as (s' & -> & He & Hok').
  eauto using holds_eqv.
Qed.

Lemma wakes_early gen s : holds None (S gen) s →
  ∃ e s', advance (WaitParked h gen) s = Some (WaitDone (inl e), s') ∧ holds None (S gen) s'.
Proof.
  intros Hs. pose proof Hs as (Hok & Hst & Hg & _). simpl. destruct (decide _); [|lia].
  unfold AsyncWaitBlock_wake. destruct (LoadBlock_missing h s Hok Hst) as (e & s' & -> & He & Hok').
  eauto using holds_eqv.
Qed.

Lemma stores o gen s : holds o gen s →
  ∃ s', advance (StoreStart b) s = Some (StoreDone, s') ∧ holds (Some b) gen s'.
Proof.
  intros (Hok & _ & Hg & Hq). assert (qcHeap s !! r = Some qc) as Hl by (by rewrite Hq).
  destruct (StoreBlock_run b s r qc Hok Hb Hl) as (s' & Hrun & Hok' & Hst & _ & Hs').
  simpl. rewrite Hrun. eexists. split; [done|]. rewrite Hqc in Hst. rewrite Hs' in *. done.
Qed.

(** Another block is stored: the expected one does not appear. *)
Lemma stores_other gen s b' r' qc' :
  SelfQc b' = Some r' → heap !! r' = Some qc' → qc_BlockHash qc' ≠ h → holds None gen s →
  ∃ s', advance (StoreStart b') s = Some (StoreDone, s') ∧ holds None gen s'.
Proof.
  intros Hb' Hq' Hne (Hok & Hst & Hg & Hq). rewrite <- Hq in Hq'.
  destruct (StoreBlock_run b' s r' qc' Hok Hb' Hq') as (s' & Hrun & Hok' & _ & Hoth & Hs').
  simpl. rewrite Hrun. eexists. split; [done|]. rewrite Hs' in *.
  split_and!; try done. destruct (Hoth h) as [Hn | Hn]; [done|exact Hn|by rewrite Hn].
Qed.

Lemma broadcasts o gen s : holds o gen s →
  ∃ s', advance StoreDone s = Some (Broadcasted, s') ∧ holds o (S gen) s'.
Proof. intros (Hok & Hst & <- & Hq). simpl. eexists. split; [done|]. done. Qed.

(** *** The waiter, goroutine 0, and one storer, goroutine 1 *)

Lemma schedule_cons i l s gs g g' s' x :
  gs !! i = Some g → advance g s = Some (g', s') → schedule l (s', <[i := g']> gs) = x →
  schedule (i :: l) (s, gs) = x.
Proof. intros Hg Ha Hx. simpl. unfold advance_nth. simpl. rewrite Hg. simpl. rewrite Ha. exact Hx. Qed.

Lemma quiescent_pair s g0 g1 :
  quiescent (s, [g0; g1]) ↔ advance g0 s = None ∧ advance g1 s = None.
Proof.
  unfold quiescent, advance_nth. split.
  - intros Hq. pose proof (Hq 0) as H0'. pose proof (Hq 1) as H1'. simpl in *.
    destruct (advance g0 s) as [[]|], (advance g1 s) as [[]|]; done.
  - intros [H0' H1'] [|[|i]]; simpl; rewrite ?H0', ?H1'; done.
Qed.

(** A schedule of two goroutines begins with one of them. *)
Lemma schedule_pair l s g0 g1 x :
  schedule l (s, [g0; g1]) = Some x →
  (l = [] ∧ x = (s, [g0; g1])) ∨
  (∃ l' g' s', l = 0 :: l' ∧ advance g0 s = Some (g', s') ∧ schedule l' (s', [g'; g1]) = Some x) ∨
  (∃ l' g' s', l = 1 :: l' ∧ advance g1 s = Some (g', s') ∧ schedule l' (s', [g0; g']) = Some x).
Proof.
  destruct l as [|[|[|i]] l]; simpl; unfold advance_nth; simpl; [naive_solver| | |done].
  - destruct (advance g0 s) as [[g' s']|]; [|done]. naive_solver.
  - destruct (advance g1 s) as [[g' s']|]; [|done]. naive_solver.
Qed.

(** The facts about the goroutine that moved. *)
Ltac resolve_with Ha lem :=
  let s1 := fresh "s" in let Hs1 := fresh "Hs" in let Hr := fresh "Hr" in
  destruct lem as (s1 & Hr & Hs1); rewrite Hr in Ha; clear Hr; injection Ha as <- <-.

Ltac resolve_step :=
  match goal with
  | Ha : advance (WaitDone _) _ = Some _ |- _ => discriminate Ha
  | Ha : advance Broadcasted _ = Some _ |- _ => discriminate Ha
  | Ha : advance (WaitParked h ?g) ?s = Some _, Hs : holds _ ?g ?s |- _ =>
      rewrite (sleeps _ _ _ Hs) in Ha; discriminate Ha
  | Ha : advance ?g ?s = Some _, Hs : holds ?o ?gen ?s |- _ =>
      lazymatch g with
      | WaitStart _ =>
          lazymatch o with
          | None => resolve_with Ha (check_misses _ _ Hs)
          | Some _ => resolve_with Ha (check_hits _ _ Hs)
          end
      | WaitMissed _ => resolve_with Ha (parks _ _ _ Hs)
      | WaitParked _ _ => resolve_with Ha (wakes _ _ Hs)
      | StoreStart _ => resolve_with Ha (stores _ _ _ Hs)
      | StoreDone => resolve_with Ha (broadcasts _ _ _ Hs)
      end; clear Hs
  end.

Ltac explore :=
  match goal with
  | Hx : schedule ?l (?s, [?g0; ?g1]) = Some ?x |- _ =>
      let Ha := fresh "Ha" in
      apply schedule_pair in Hx as [[-> ->] | [(? & ? & ? & -> & Ha & Hx) | (? & ? & ? & -> & Ha & Hx)]];
      [| resolve_step; explore | resolve_step; explore ]
  end.

(** Every schedule of the pair that runs to its end. *)
Lemma pair_outcome l s x gen :
  holds None gen s → schedule l (s, [WaitStart h; StoreStart b]) = Some x → quiescent x →
  ∃ s', holds (Some b) (S gen) s' ∧
    ((l ≠ [0; 1; 1; 0] ∧ x = (s', [WaitDone (inr b); Broadcasted])) ∨
     (l = [0; 1; 1; 0] ∧ x = (s', [WaitParked h (S gen); Broadcasted]))).
Proof.
  intros Hs Hx Hq. explore.
  all: try (eexists; split; [eassumption|]; first [left; split; [discriminate|reflexivity] | right; split; reflexivity]).
  all: exfalso; apply quiescent_pair in Hq as [Hq0 Hq1]; first
    [ discriminate
    | match goal with Hh : holds _ _ _ |- _ => first
        [ destruct (check_misses _ _ Hh) as (? & Hr' & _); congruence
        | destruct (check_hits _ _ Hh) as (? & Hr' & _); congruence
        | destruct (stores _ _ _ Hh) as (? & Hr' & _); congruence
        | destruct (wakes _ _ Hh) as (? & Hr' & _); congruence ] end ].
Qed.

Lemma lost_schedule s gen :
  holds None gen s → ∃ x, schedule [0; 1; 1; 0] (s, [WaitStart h; StoreStart b]) = Some x ∧ quiescent x.
Proof.
  intros Hs. destruct (check_misses _ _ Hs) as (s1 & H1 & Hs1), (stores _ _ _ Hs1) as (s2 & H2 & Hs2),
    (broadcasts _ _ _ Hs2) as (s3 & H3 & Hs3), (parks _ _ _ Hs3) as (s4 & H4 & Hs4).
  exists (s4, [WaitParked h (S gen); Broadcasted]). split.
  - eapply schedule_cons; [done|exact H1|]. eapply schedule_cons; [done|exact H2|].
    eapply schedule_cons; [done|exact H3|]. by eapply schedule_cons; [done|exact H4|].
  - apply quiescent_pair. split; [by eapply sleeps|done].
Qed.

End steps.

(** ** The condition variable is used without its lock *)

(** C32 lost_wakeup_iff: one goroutine waits for a block with [AsyncWaitBlock] and
    another stores it and calls [cond.Broadcast].  In every interleaving that runs
    until neither can move, the waiter returns the block, except in one: check
    the cache, store, [Broadcast], [Wait].  Then the waiter sleeps although the
    block is in the cache and no further wake-up is pending. *)
Theorem lost_wakeup_iff s h b r qc :
  store_ok s → stored s h = None → SelfQc b = Some r → qcHeap s !! r = Some qc → qc_BlockHash qc = h →
  (∃ x, schedule [0; 1; 1; 0] (s, [WaitStart h; StoreStart b]) = Some x ∧ quiescent x) ∧
  ∀ l x, schedule l (s, [WaitStart h; StoreStart b]) = Some x → quiescent x →
    stored x.1 h = Some b ∧
    x.2 = if decide (l = [0; 1; 1; 0]) then [WaitParked h (condGen x.1); Broadcasted]
          else [WaitDone (inr b); Broadcasted].
Proof.
  intros Hok Hst Hb Hq Hh. assert (Hs : holds h (qcHeap s) None (condGen s) s) by done. split.
  - by eapply lost_schedule.
  - intros l x Hx Hqu.
    destruct (pair_outcome h b r qc (qcHeap s) Hb Hq Hh l s x _ Hs Hx Hqu) as (s' & (_ & Hst' & Hg' & _) & Hcase).
    destruct Hcase as [[Hl ->] | [-> ->]]; (split; [exact Hst'|]); simpl.
    + by rewrite decide_False.
    + by rewrite Hg'.
Qed.

(** early_wakeup: a [Broadcast] for any other block ends the wait: the waiter
    returns an error, and the block it expects can arrive right after.  [Wait] is
    not called again. *)
Theorem early_wakeup s h b r qc b' r' qc' :
  store_ok s → stored s h = None →
  SelfQc b = Some r → qcHeap s !! r = Some qc → qc_BlockHash qc = h →
  SelfQc b' = Some r' → qcHeap s !! r' = Some qc' → qc_BlockHash qc' ≠ h →
  ∃ e s', schedule [0; 0; 1; 1; 0; 2; 2] (s, [WaitStart h; StoreStart b'; StoreStart b])
          = Some (s', [WaitDone (inl e); Broadcasted; Broadcasted]) ∧ stored s' h = Some b.
Proof.
  intros Hok Hst Hb Hq Hh Hb' Hq' Hne. assert (Hs : holds h (qcHeap s) None (condGen s) s) by done.
  destruct (check_misses _ _ _ _ Hs) as (s1 & H1 & Hs1), (parks _ _ _ _ _ Hs1) as (s2 & H2 & Hs2).
  destruct (stores_other _ _ _ _ _ _ _ Hb' Hq' Hne Hs2) as (s3 & H3 & Hs3).
  destruct (broadcasts _ _ _ _ _ Hs3) as (s4 & H4 & Hs4).
  destruct (wakes_early _ _ _ _ Hs4) as (e & s5 & H5 & Hs5).
  destruct (stores _ _ _ _ _ Hb Hq Hh _ _ _ Hs5) as (s6 & H6 & Hs6).
  destruct (broadcasts _ _ _ _ _ Hs6) as (s7 & H7 & _ & Hs7 & _).
  exists e, s7. split; [|done].
  eapply schedule_cons; [done|exact H1|]. eapply schedule_cons; [done|exact H2|].
  eapply schedule_cons; [done|exact H3|]. eapply schedule_cons; [done|exact H4|].
  eapply schedule_cons; [done|exact H5|]. eapply schedule_cons; [done|exact H6|].
  by eapply schedule_cons; [done|exact H7|].
Qed.

End wait.

(** ** Witnesses: the first blocks of a run, before they are stored *)

Module ToyWait.
Import ToyCore.

Definition start : HotStuffCore CoreDB :=
  receive [Toy.qc 0 ghash []; Toy.qc 1 h1 []; Toy.qc 1 h1 []; Toy.qc 2 h2 []] initCore.

Lemma start_ok : store_ok start.
Proof. exact (wf_store _ initCore_wf). Qed.

Lemma lost_wakeup_iff_witness :
  ∃ x gen, schedule [0; 1; 1; 0] (start, [WaitStart h1; StoreStart b1]) = Some x ∧ quiescent x ∧
       x.2 = [WaitParked h1 gen; Broadcasted] ∧ stored x.1 h1 = Some b1.
Proof.
  destruct (lost_wakeup_iff start h1 b1 2 (Toy.qc 1 h1 [])) as [(x & Hx & Hq) Hall];
    [exact start_ok|by_vm|reflexivity|by_vm|reflexivity|].
  destruct (Hall _ _ Hx Hq) as [Hst Hg]. exists x, (condGen x.1). exact (conj Hx (conj Hq (conj Hg Hst))).
Defined.

(** The wait for the first block ends when the second arrives before it. *)
Lemma early_wakeup_witness :
  ∃ e s', schedule [0; 0; 1; 1; 0; 2; 2] (start, [WaitStart h1; StoreStart b2; StoreStart b1])
          = Some (s', [WaitDone (inl e); Broadcasted; Broadcasted]) ∧ stored s' h1 = Some b1.
Proof.
  apply (early_wakeup start h1 b1 2 (Toy.qc 1 h1 []) b2 4 (Toy.qc 2 h2 []));
    [exact start_ok|by_vm|reflexivity|by_vm|reflexivity|reflexivity|by_vm|].
  intros Heq; vm_compute in Heq; discriminate Heq.
Defined.

End ToyWait.
