(* ===== verification/Pacemaker.v ===== *)
(** * The round-robin pacemaker ([pacemaker/roundrobin.go], [api/hotstuff.go])

    [RoundRobinPM] over any implementation of the [api.HotStuff] interface,
    given as the operational class [HotStuff].  The pacemaker's own state is
    the current view, the new-view messages received per view, the buffered
    commands, whether the view timer is armed, the commands handed to
    [decideExec], and the goroutines it started ([go r.OnBeat()] and the like),
    which run as separate steps ([run_task]).

    [proto.Marshal] of a new-view message, the iteration order of Go maps and
    the depth to which a goroutine's stack lets a function recurse are
    parameters.  The recursions of [OnNextSyncView] and [OnReceiveProposal] carry
    that depth as fuel; [Ok None] is running out of it, which kills the process
    ([unwound]).  [PacemakerProps] shows when they do.

    An entry point runs to its end before the next one starts.  The source runs
    each in a goroutine and tests and sets [curView] in two steps; [ViewRace]
    models the interleavings of those steps. *)

From stdpp Require Import base numbers fin_maps gmap sets strings list.
From S2P Require Import Prelude GoMonad Types Entity.

(** [api.HotStuff].  [T] is what a call takes from outside: the clock and the
    signer's randomness.  [hs_read] reads a certificate through a pointer. *)
Class HotStuff (HS T : Type) := {
  hs_OnPropose : T → Z → bytes → bytes → M HS unit;
  hs_OnProposalVote : Vote → M HS unit;
  hs_UpdateHighestQC : Block QCRef → option QCRef → M HS unit;
  hs_GetHighQC : M HS (option QCRef);
  hs_read : option QCRef → M HS QuorumCert;
  hs_AsyncWaitBlock : bytes → M HS (go_error + Block QCRef);
  hs_AsyncWaitBlock_wake : bytes → M HS (go_error + Block QCRef);
  hs_Sign : HS → T → bytes → go_error + bytes;
  hs_GetConnectStatus : HS → Z → bool;
  hs_Unicast : Message QCRef → Z → M HS unit;
  hs_Broadcast : Message QCRef → M HS unit }.

(** Goroutines the pacemaker starts. *)
Inductive Task :=
| TaskBeat
| TaskNextSyncView
| TaskUnicast (m : Message QCRef) (dest : Z)
| TaskBroadcast (m : Message QCRef).

Record RoundRobinPM (HS : Type) := MkPM {
  hotstuff : HS;
  curView : Z;
  views : gmap Z (gmap Z (NewView QCRef));
  submitC : list bytes;
  timerArmed : bool;
  executed : list bytes;
  spawned : list Task }.
Arguments MkPM {HS}.
Arguments hotstuff {HS}.
Arguments curView {HS}.
Arguments views {HS}.
Arguments submitC {HS}.
Arguments timerArmed {HS}.
Arguments executed {HS}.
Arguments spawned {HS}.

Section setters.
Context {HS : Type}.
Implicit Types (p : RoundRobinPM HS).

Definition set_hotstuff h p : RoundRobinPM HS :=
  MkPM h (curView p) (views p) (submitC p) (timerArmed p) (executed p) (spawned p).
Definition set_curView v p : RoundRobinPM HS :=
  MkPM (hotstuff p) v (views p) (submitC p) (timerArmed p) (executed p) (spawned p).
Definition set_views m p : RoundRobinPM HS :=
  MkPM (hotstuff p) (curView p) m (submitC p) (timerArmed p) (executed p) (spawned p).
Definition set_submitC l p : RoundRobinPM HS :=
  MkPM (hotstuff p) (curView p) (views p) l (timerArmed p) (executed p) (spawned p).
Definition set_timer t p : RoundRobinPM HS :=
  MkPM (hotstuff p) (curView p) (views p) (submitC p) t (executed p) (spawned p).
Definition set_executed l p : RoundRobinPM HS :=
  MkPM (hotstuff p) (curView p) (views p) (submitC p) (timerArmed p) l (spawned p).
Definition set_spawned l p : RoundRobinPM HS :=
  MkPM (hotstuff p) (curView p) (views p) (submitC p) (timerArmed p) (executed p) l.

End setters.

(** The fields that do not change, [proto.Marshal], the order in which a [range]
    visits the new-view messages of a view, and the depth of recursion at which
    a goroutine overflows its stack. *)
Record PMConf := MkPMConf {
  replicaId : Z;
  metadata : ConfigMetadata;
  marshal : NewView QuorumCert → go_error + bytes;
  range_order : gmap Z (NewView QCRef) → list (Z * NewView QCRef);
  stack_depth : nat }.

(** [NewRoundRobinPM]: the channel [submitC] has room for 100 commands. *)
Definition NewRoundRobinPM {HS} (hs : HS) : RoundRobinPM HS := MkPM hs 0 ∅ [] false [] [].
Definition submit_capacity : nat := 100.

Section pacemaker.
Context {HS T : Type} `{HotStuff HS T} (conf : PMConf).

Local Abbreviation P := (M (RoundRobinPM HS)).

Definition lift {A} (m : M HS A) : P A := λ p,
  let '(r, h) := m (hotstuff p) in (r, set_hotstuff h p).

Definition go (t : Task) : P unit := modify (λ p, set_spawned (spawned p ++ [t]) p).
Definition storeView (v : Z) : P unit := modify (set_curView v).
Definition addView : P unit := modify (λ p, set_curView (wrap64 (curView p + 1)) p).
Definition stopNewViewTimer : P unit := modify (set_timer false).
Definition startNewViewTimer : P unit := _ ← stopNewViewTimer; modify (set_timer true).

(** [Submit]: waits when the channel is full.  [doneC] is never closed. *)
Definition Submit (cmds : bytes) : P unit :=
  c ← gets submitC;
  if decide (length c < submit_capacity)%nat then modify (set_submitC (c ++ [cmds]))
  else park WaitChan.

(** [%] truncates towards zero; division by zero panics. *)
Definition GetLeader (view : Z) : P Z :=
  if decide (md_N (metadata conf) = 0)%Z then panic
  else mret (Z.rem (wrap64 (view + 1)) (md_N (metadata conf))).

Definition GetCurLeader (viewNumber : Z) : P Z :=
  if decide (md_N (metadata conf) = 0)%Z then panic
  else mret (Z.rem viewNumber (md_N (metadata conf))).

Definition GetConnectStatus (id : Z) : P bool := gets (λ p, hs_GetConnectStatus (hotstuff p) id).

(** [OnBeat]: takes one command, forwards it or proposes it. *)
Definition OnBeat (t : T) : P unit :=
  c ← gets submitC;
  match c with
  | [] => park WaitChan
  | s :: c =>
      _ ← modify (set_submitC c);
      cv ← gets curView;
      leader ← GetCurLeader cv;
      if decide (leader ≠ replicaId conf) then
        _ ← go (TaskUnicast (MkMessage "" (Some (Message_Forward (MkForward s)))) leader);
        startNewViewTimer
      else
        cv ← gets curView;
        h ← lift hs_GetHighQC;
        q ← lift (hs_read h);
        _ ← try (lift (hs_OnPropose t cv (qc_BlockHash q) s));
        mret tt
  end.

Definition UpdateQcHigh (viewNumber : Z) (qc : option QCRef) : P unit :=
  cv ← gets curView;
  if decide (cv < viewNumber)%Z then storeView viewNumber else mret tt.

Definition createSignedViewChange (t : T) : P (Message QCRef) :=
  cv ← gets curView;
  h ← lift hs_GetHighQC;
  q ← match h with
      | None => mret None
      | Some _ => q ← lift (hs_read h); mret (Some q)
      end;
  data ← orFail (marshal conf (MkNewView cv q));
  hs ← gets hotstuff;
  sig ← orFail (hs_Sign hs t data);
  mret (MkMessage "" (Some (Message_ViewChange (MkViewChange data sig)))).

(** The loop of [addNewViewMsg] that selects [highView]. *)
Definition select_high (l : list (NewView QCRef)) : option (NewView QCRef) :=
  foldl (λ hv v, match hv with
                 | None => Some v
                 | Some h => if decide (nv_ViewNumber h < nv_ViewNumber v)%Z then Some v else Some h
                 end) None l.

Definition addNewViewMsg (id : Z) (newView : NewView QCRef) : P (option (NewView QCRef)) :=
  let q := GetQuorumSize (metadata conf) in
  let put m := modify (λ p, set_views (<[nv_ViewNumber newView := m]> (views p)) p) in
  vs ← gets views;
  match vs !! nv_ViewNumber newView with
  | Some m =>
      if decide (q ≤ Z.of_nat (size m))%Z then mret None
      else
        match m !! id with
        | Some view =>
            old ← lift (hs_read (nv_GenericQc view));
            new ← lift (hs_read (nv_GenericQc newView));
            _ ← when (bool_decide (qc_ViewNumber new < qc_ViewNumber old)%Z) (put (<[id := newView]> m));
            mret None
        | None =>
            let m' := <[id := newView]> m in
            _ ← put m';
            if decide (Z.of_nat (size m') = q)%Z then mret (select_high (range_order conf m').*2)
            else mret None
        end
  | None =>
      _ ← put {[id := newView]};
      if decide (q = 1)%Z then mret (Some newView) else mret None
  end.

(** [OnReceiveNewView] once the certified block is there. *)
Definition processNewView (t : T) (id : Z) (newView : NewView QCRef)
    (r : go_error + Block QCRef) : P unit :=
  match r with
  | inl _ => mret tt
  | inr block =>
      g ← lift (hs_read (nv_GenericQc newView));
      h ← lift hs_GetHighQC;
      hq ← lift (hs_read h);
      cv ← gets curView;
      if decide (qc_ViewNumber hq < qc_ViewNumber g)%Z then
        _ ← lift (hs_UpdateHighestQC block (nv_GenericQc newView));
        _ ← UpdateQcHigh (nv_ViewNumber newView) (nv_GenericQc newView);
        c ← gets submitC;
        if decide (0 < length c)%nat then go TaskBeat else go TaskNextSyncView
      else if decide (cv < nv_ViewNumber newView)%Z then
        _ ← stopNewViewTimer;
        _ ← storeView (nv_ViewNumber newView);
        m ← try (createSignedViewChange t);
        match m with
        | inl _ => mret tt
        | inr viewMsg => _ ← go (TaskBroadcast viewMsg); startNewViewTimer
        end
      else
        hv ← addNewViewMsg id newView;
        match hv with
        | None => mret tt
        | Some highView =>
            _ ← lift (hs_UpdateHighestQC block (nv_GenericQc newView));
            _ ← UpdateQcHigh (nv_ViewNumber highView) (nv_GenericQc highView);
            c ← gets submitC;
            if decide (0 < length c)%nat then _ ← stopNewViewTimer; go TaskBeat
            else startNewViewTimer
        end
  end.

Definition OnReceiveNewView (t : T) (id : Z) (newView : NewView QCRef) : P unit :=
  cv ← gets curView;
  if decide (nv_ViewNumber newView < cv)%Z then mret tt
  else
    g ← lift (hs_read (nv_GenericQc newView));
    h ← lift hs_GetHighQC;
    _ ← lift (hs_read h);
    r ← lift (hs_AsyncWaitBlock (qc_BlockHash g));
    processNewView t id newView r.

(** [OnReceiveNewView] resumed after the wait for the block. *)
Definition OnReceiveNewView_wake (t : T) (id : Z) (newView : NewView QCRef) : P unit :=
  g ← lift (hs_read (nv_GenericQc newView));
  r ← lift (hs_AsyncWaitBlock_wake (qc_BlockHash g));
  processNewView t id newView r.

Definition clearViews : P unit :=
  modify (λ p, set_views (filter (λ e, ¬ (e.1 < curView p)%Z) (views p)) p).

(** The end of [OnNextSyncView], in a view whose leader is this replica or is
    connected. *)
Definition enterView (t : T) (leader : Z) : P unit :=
  if decide (leader ≠ replicaId conf) then
    _ ← startNewViewTimer;
    m ← try (createSignedViewChange t);
    match m with
    | inl _ => mret tt
    | inr viewMsg => _ ← try (lift (hs_Unicast viewMsg leader)); clearViews
    end
  else
    c ← gets submitC;
    _ ← (if decide (0 < length c)%nat then
           cv ← gets curView;
           h ← lift hs_GetHighQC;
           OnReceiveNewView t (replicaId conf) (MkNewView cv h)
         else startNewViewTimer);
    clearViews.

(** [OnNextSyncView] resumed after [OnReceiveNewView], called in [enterView] with
    this replica's own message, waited for the block. *)
Definition enterView_wake (t : T) (newView : NewView QCRef) : P unit :=
  _ ← OnReceiveNewView_wake t (replicaId conf) newView;
  clearViews.

Fixpoint OnNextSyncView (fuel : nat) (t : T) : P (option unit) :=
  match fuel with
  | O => mret None
  | S fuel =>
      cv ← gets curView;
      leader ← GetLeader cv;
      _ ← addView;
      connected ← GetConnectStatus leader;
      if decide (leader ≠ replicaId conf) then
        if connected : bool then _ ← enterView t leader; mret (Some tt)
        else OnNextSyncView fuel t
      else _ ← enterView t leader; mret (Some tt)
  end.

Definition OnProposeEvent (proposal : Proposal QCRef) : P unit :=
  cv ← gets curView;
  leader ← GetLeader cv;
  proposal ← (if decide (leader ≠ replicaId conf) then
                _ ← startNewViewTimer;
                cv ← gets curView;
                leader ← GetLeader cv;
                connected ← GetConnectStatus leader;
                if connected : bool then mret proposal
                else _ ← addView; cv ← gets curView; mret (set_ViewNumber cv proposal)
              else mret proposal);
  go (TaskBroadcast (MkMessage "" (Some (Message_Proposal proposal)))).

(** The end of [OnReceiveProposal]: hand the vote to the leader of the view
    after [pv]. *)
Definition deliverVote (pv : Z) (vote : Vote) : P unit :=
  leader ← GetLeader pv;
  _ ← (if decide (leader ≠ replicaId conf) then
         try (lift (hs_Unicast (MkMessage "" (Some (Message_Vote vote))) leader))
       else try (lift (hs_OnProposalVote vote)));
  mret tt.

(** [OnReceiveProposal] writes [proposal.ViewNumber]; [pv] is its value, and the
    value it leaves is returned. *)
Fixpoint OnReceiveProposal (fuel : nat) (pv : Z) (vote : Vote) : P (option Z) :=
  match fuel with
  | O => mret None
  | S fuel =>
      cv ← gets curView;
      _ ← (if decide (cv < pv)%Z then storeView pv else mret tt);
      cv ← gets curView;
      leader ← GetLeader cv;
      r ← (if decide (leader ≠ replicaId conf) then
             connected ← GetConnectStatus leader;
             if connected : bool then mret (Some pv)
             else
               _ ← addView;
               cv ← gets curView;
               OnReceiveProposal fuel cv vote
           else _ ← stopNewViewTimer; mret (Some pv));
      match r with
      | None => mret None
      | Some pv => _ ← deliverVote pv vote; mret (Some pv)
      end
  end.

Definition OnQcFinishEvent (qc : option QCRef) : P unit :=
  q ← lift (hs_read qc);
  cv ← gets curView;
  _ ← (if decide (cv < qc_ViewNumber q)%Z then storeView (qc_ViewNumber q) else mret tt);
  cv ← gets curView;
  leader ← GetLeader cv;
  if decide (leader = replicaId conf) then
    _ ← addView;
    cv ← gets curView;
    _ ← GetLeader cv;
    c ← gets submitC;
    if decide (0 < length c)%nat then go TaskBeat else go TaskNextSyncView
  else go TaskNextSyncView.

Definition DoDecide (block : Block QCRef) : P unit :=
  modify (λ p, set_executed (executed p ++ [Cmds block]) p).

(** The hops that suffice while views are far from the largest [int64]. *)
Definition hops : nat := Z.to_nat (md_N (metadata conf)).

(** A recursion that overflows the stack kills the process. *)
Definition unwound {A} (m : P (option A)) : P unit :=
  r ← m; match r with Some _ => mret tt | None => panic end.

(** A goroutine the pacemaker started. *)
Definition run_task (t : T) (task : Task) : P unit :=
  match task with
  | TaskBeat => OnBeat t
  | TaskNextSyncView => unwound (OnNextSyncView (stack_depth conf) t)
  | TaskUnicast m dest => _ ← try (lift (hs_Unicast m dest)); mret tt
  | TaskBroadcast m => _ ← try (lift (hs_Broadcast m)); mret tt
  end.

(** [Run] starts the replica's loop and one [OnBeat], then waits for the timer. *)
Definition Run : P unit := go TaskBeat.

(** ** The pacemaker's entry points *)

Inductive pm_event :=
| EvRun
| EvSubmit (cmds : bytes)
| EvTask (t : T) (task : Task)
| EvTimer (t : T)
| EvPropose (p : Proposal QCRef)
| EvReceiveProposal (pv : Z) (vote : Vote)
| EvNewView (t : T) (id : Z) (nv : NewView QCRef)
| EvNewViewWake (t : T) (id : Z) (nv : NewView QCRef)
| EvNextSyncWake (t : T) (nv : NewView QCRef)
| EvQcFinish (qc : option QCRef)
| EvUpdateQcHigh (view : Z) (qc : option QCRef)
| EvDecide (b : Block QCRef).

(** [Run] answers the timer by starting [OnNextSyncView]. *)
Definition run_event (e : pm_event) : P unit :=
  match e with
  | EvRun => Run
  | EvSubmit cmds => Submit cmds
  | EvTask t task => run_task t task
  | EvTimer t => run_task t TaskNextSyncView
  | EvPropose p => OnProposeEvent p
  | EvReceiveProposal pv vote => unwound (OnReceiveProposal (stack_depth conf) pv vote)
  | EvNewView t id nv => OnReceiveNewView t id nv
  | EvNewViewWake t id nv => OnReceiveNewView_wake t id nv
  | EvNextSyncWake t nv => enterView_wake t nv
  | EvQcFinish qc => OnQcFinishEvent qc
  | EvUpdateQcHigh v qc => UpdateQcHigh v qc
  | EvDecide b => DoDecide b
  end.

End pacemaker.
Arguments pm_event : clear implicits.
