(* ===== verification/PacemakerProps.v ===== *)
(** * Properties of the pacemaker

    Leaders rotate, view changes terminate within [N] hops while views are far
    from the largest [int64], and overflow the stack exactly when no view within
    its depth stops them; handlers run one at a time move views forward, and a
    new-view quorum fires once. *)

From stdpp Require Import base numbers fin_maps gmap sets strings list.
From S2P Require Import Prelude GoMonad Types Entity Pacemaker.

(** The least number with a decidable property. *)
Lemma least_below (Q : nat → Prop) `{∀ n, Decision (Q n)} n :
  (∃ k, (k < n)%nat ∧ Q k ∧ ∀ j, (j < k)%nat → ¬ Q j) ∨ (∀ j, (j < n)%nat → ¬ Q j).
Proof.
  induction n as [|n [(k & Hk & HQ & Hmin)|Hno]]; [right; lia|left; exists k; split_and!; [lia|done|done]|].
  destruct (decide (Q n)) as [HQ|HQ]; [left; exists n; split_and!; [lia|done|done]|right].
  intros j Hj. destruct (decide (j = n)) as [->|]; [done|]. apply Hno. lia.
Qed.

Lemma least_nat (Q : nat → Prop) `{∀ n, Decision (Q n)} n :
  Q n → ∃ k, (k ≤ n)%nat ∧ Q k ∧ ∀ j, (j < k)%nat → ¬ Q j.
Proof.
  intros Hn. destruct (least_below Q (S n)) as [(k & Hk & HQ & Hmin)|Hno].
  - exists k. split_and!; [lia|done|done].
  - exfalso. apply (Hno n); [lia|done].
Qed.

Section leaders.
Context {HS T : Type} `{HotStuff HS T} (conf : PMConf).
Implicit Types (p : RoundRobinPM HS).

Let N := md_N (metadata conf).

Definition leader_of (view : Z) : Z := Z.rem (wrap64 (view + 1)) N.

Lemma GetLeader_run view p : N ≠ 0%Z → GetLeader conf view p = (Ok (leader_of view), p).
Proof. intros HN. unfold GetLeader. by rewrite decide_False. Qed.

Lemma leader_mod view : (0 < N)%Z → (0 ≤ view)%Z → (view + 1 < 2 ^ 63)%Z →
  leader_of view = ((view + 1) `mod` N)%Z.
Proof.
  intros HN Hv Hb. unfold leader_of. rewrite wrap64_id by (unfold is_int64; lia).
  apply Z.rem_mod_nonneg; lia.
Qed.

(** Within [N] views every replica is leader. *)
Lemma leader_turn view i :
  (0 ≤ i < N)%Z → (0 ≤ view)%Z → (view + N < 2 ^ 63)%Z →
  ∃ k : nat, (Z.of_nat k < N)%Z ∧ leader_of (view + Z.of_nat k) = i.
Proof.
  intros Hi Hv Hb. pose proof (Z.mod_pos_bound (i - (view + 1)) N ltac:(lia)) as Hm.
  exists (Z.to_nat ((i - (view + 1)) `mod` N)%Z). rewrite Z2Nat.id by lia. split; [lia|].
  rewrite leader_mod by lia.
  replace (view + (i - (view + 1)) `mod` N + 1)%Z with (view + 1 + (i - (view + 1)) `mod` N)%Z by lia.
  rewrite Zplus_mod_idemp_r. replace (view + 1 + (i - (view + 1)))%Z with i by lia.
  by apply Z.mod_small.
Qed.

(** Round robin: [GetLeader v] is [GetCurLeader (v + 1)], a replica index,
    and over [N] consecutive views every replica is leader exactly once. *)
Theorem leader_rotation view i p :
  (0 ≤ i < N)%Z → (0 ≤ view)%Z → (view + N < 2 ^ 63)%Z →
  GetLeader conf view p = GetCurLeader conf (view + 1) p
  ∧ ∃ k : nat, (Z.of_nat k < N)%Z ∧ GetLeader conf (view + Z.of_nat k) p = (Ok i, p)
      ∧ ∀ k' : nat, (Z.of_nat k' < N)%Z → GetLeader conf (view + Z.of_nat k') p = (Ok i, p) → k' = k.
Proof.
  intros Hi Hv Hb. split.
  { unfold GetLeader, GetCurLeader. by rewrite wrap64_id by (unfold is_int64; lia). }
  destruct (leader_turn view i Hi Hv Hb) as (k & Hk & Hl). exists k.
  rewrite GetLeader_run, Hl by lia. split_and!; [done|done|].
  intros k' Hk'. rewrite GetLeader_run by lia. intros Heq. injection Heq as Heq.
  rewrite <-Hl in Heq. rewrite !leader_mod in Heq by lia.
  assert (Hd : ((Z.of_nat k' - Z.of_nat k) `mod` N = 0)%Z).
  { replace (Z.of_nat k' - Z.of_nat k)%Z with ((view + Z.of_nat k' + 1) - (view + Z.of_nat k + 1))%Z by lia.
    rewrite Zminus_mod, Heq, Z.sub_diag. apply Z.mod_0_l. lia. }
  apply Z.mod_divide in Hd; [|lia]. destruct Hd as [c Hc]. assert (c = 0)%Z by nia. lia.
Qed.

(** ** View changes terminate *)

(** A view at which skipping disconnected leaders stops. *)
Definition stops p (view : Z) : Prop :=
  leader_of view = replicaId conf ∨ hs_GetConnectStatus (hotstuff p) (leader_of view) = true.

#[global] Instance stops_dec p view : Decision (stops p view).
Proof. unfold stops. apply _. Defined.

Lemma first_stop p :
  (0 ≤ replicaId conf < N)%Z → (0 ≤ curView p)%Z → (curView p + N < 2 ^ 63)%Z →
  ∃ k : nat, (Z.of_nat k < N)%Z ∧ stops p (curView p + Z.of_nat k)
    ∧ ∀ j : nat, (j < k)%nat → ¬ stops p (curView p + Z.of_nat j).
Proof.
  intros Hi Hv Hb. destruct (leader_turn (curView p) (replicaId conf) Hi Hv Hb) as (n & Hn & Hl).
  destruct (least_nat (λ k, stops p (curView p + Z.of_nat k)) n) as (k & Hk & Hs & Hmin); [by left|].
  exists k. split_and!; [lia|done|done].
Qed.

Lemma addView_run {A} (k : unit → M (RoundRobinPM HS) A) p :
  (0 ≤ curView p)%Z → (curView p + 1 < 2 ^ 63)%Z →
  (addView ≫= k) p = k tt (set_curView (curView p + 1) p).
Proof.
  intros Hv Hb. unfold addView. rewrite run_modify, wrap64_id by (unfold is_int64; lia). done.
Qed.

Lemma next_sync_skips (t : T) k : ∀ fuel p,
  (k < fuel)%nat → N ≠ 0%Z → (0 ≤ curView p)%Z → (curView p + Z.of_nat k + 1 < 2 ^ 63)%Z →
  stops p (curView p + Z.of_nat k) → (∀ j, (j < k)%nat → ¬ stops p (curView p + Z.of_nat j)) →
  OnNextSyncView conf fuel t p
  = (_ ← enterView conf t (leader_of (curView p + Z.of_nat k)); mret (Some tt))
      (set_curView (curView p + Z.of_nat k + 1) p).
Proof.
  induction k as [|k IH]; intros [|fuel] p Hf HN Hv Hb Hs Hmin; try lia; cbn [OnNextSyncView].
  - rewrite run_gets. rewrite (run_bind_Ok _ _ _ _ _ (GetLeader_run _ _ HN)), addView_run by lia.
    unfold GetConnectStatus. rewrite run_gets. rewrite Z.add_0_r in *. cbn [set_curView hotstuff].
    destruct Hs as [Hs|Hs]; [by rewrite decide_False by (rewrite Hs; auto)|].
    case_decide; [by rewrite Hs|done].
  - rewrite run_gets. rewrite (run_bind_Ok _ _ _ _ _ (GetLeader_run _ _ HN)), addView_run by lia.
    unfold GetConnectStatus. rewrite run_gets. cbn [set_curView hotstuff].
    assert (Hn : ¬ stops p (curView p)) by (rewrite <-(Z.add_0_r (curView p)); apply (Hmin 0%nat); lia).
    rewrite decide_True by (intros Heq; apply Hn; by left).
    destruct (hs_GetConnectStatus (hotstuff p) (leader_of (curView p))) eqn:Hc;
      [exfalso; apply Hn; by right|].
    set (p1 := set_curView (curView p + 1) p).
    assert (Hshift : ∀ j : nat, (curView p1 + Z.of_nat j = curView p + Z.of_nat (S j))%Z)
      by (intros j; unfold p1; simpl; lia).
    rewrite (IH fuel p1); rewrite ?Hshift; try done; try (unfold p1; simpl; lia).
    intros j Hj. rewrite Hshift. apply Hmin. lia.
Qed.

(** C19 A view change terminates.  This replica's id is in [0, N), and the
    current view is not negative and [N] short of the largest [int64].  Then,
    whatever replicas are connected, the recursion of [OnNextSyncView] ends after
    at most [N] hops, in the first later view whose leader is this replica or is
    connected, and runs the end of the function there, every skipped view's
    leader being another, disconnected replica.  (Beyond that bound it need not:
    [huge_view_overflows].) *)
Theorem OnNextSyncView_terminates (t : T) p fuel :
  (0 ≤ replicaId conf < N)%Z → (0 ≤ curView p)%Z → (curView p + N < 2 ^ 63)%Z →
  (hops conf ≤ fuel)%nat →
  ∃ k : nat, (Z.of_nat k < N)%Z
    ∧ stops p (curView p + Z.of_nat k)
    ∧ (∀ j : nat, (j < k)%nat → ¬ stops p (curView p + Z.of_nat j))
    ∧ OnNextSyncView conf fuel t p
      = (_ ← enterView conf t (leader_of (curView p + Z.of_nat k)); mret (Some tt))
          (set_curView (curView p + Z.of_nat k + 1) p).
Proof.
  intros Hi Hv Hb Hf. destruct (first_stop p Hi Hv Hb) as (k & Hk & Hs & Hmin).
  exists k. split_and!; [done..|]. unfold hops in Hf. fold N in Hf.
  apply next_sync_skips; [lia|lia|lia|lia|done|done].
Qed.

(** ** Delivery of the vote *)

(** [m] run [n] times. *)
Fixpoint times (n : nat) (m : M (RoundRobinPM HS) unit) : M (RoundRobinPM HS) unit :=
  match n with
  | O => mret tt
  | S n => _ ← times n m; m
  end.

(** The view [OnReceiveProposal] starts from. *)
Definition start_view p (pv : Z) : Z := if decide (curView p < pv)%Z then pv else curView p.

(** The state in which it delivers the vote, having settled in [view]. *)
Definition settled view p : RoundRobinPM HS :=
  if decide (leader_of view = replicaId conf)
  then set_timer false (set_curView view p) else set_curView view p.

Lemma start_view_run {A} (k : unit → M (RoundRobinPM HS) A) p pv :
  ((if decide (curView p < pv)%Z then storeView pv else mret tt) ≫= k) p
  = k tt (set_curView (start_view p pv) p).
Proof. unfold start_view. case_decide; [done|]. by destruct p. Qed.

Lemma receive_proposal_skips vote k : ∀ fuel pv p,
  let v0 := start_view p pv in
  (k < fuel)%nat → N ≠ 0%Z → (0 ≤ v0)%Z → (v0 + Z.of_nat k + 1 < 2 ^ 63)%Z →
  stops p (v0 + Z.of_nat k) → (∀ j, (j < k)%nat → ¬ stops p (v0 + Z.of_nat j)) →
  let pv' := if decide (k = 0)%nat then pv else (v0 + Z.of_nat k)%Z in
  OnReceiveProposal conf fuel pv vote p
  = (_ ← times (S k) (deliverVote conf pv' vote); mret (Some pv')) (settled (v0 + Z.of_nat k) p).
Proof.
  induction k as [|k IH]; intros [|fuel] pv p v0 Hf HN Hv Hb Hs Hmin pv'; try lia;
    cbn [OnReceiveProposal]; rewrite run_gets, start_view_run; fold v0; rewrite run_gets;
    cbn [set_curView curView]; rewrite (run_bind_Ok _ _ _ _ _ (GetLeader_run _ _ HN)).
  - rewrite Z.add_0_r in *. unfold settled, GetConnectStatus, stopNewViewTimer. destruct Hs as [Hs|Hs].
    + rewrite (decide_False (P:=leader_of v0 ≠ _)), (decide_True (P:=leader_of v0 = _)) by (rewrite ?Hs; auto).
      done.
    + destruct (decide (leader_of v0 = replicaId conf)) as [Heq|Hne].
      * rewrite decide_False by auto. done.
      * rewrite decide_True by done. rewrite bind_assoc, run_gets. cbn [set_curView hotstuff].
        by rewrite Hs.
  - assert (Hn : ¬ stops p v0) by (rewrite <-(Z.add_0_r v0); apply (Hmin 0%nat); lia).
    rewrite decide_True by (intros Heq; apply Hn; by left).
    unfold GetConnectStatus. rewrite bind_assoc, run_gets. cbn [set_curView hotstuff].
    destruct (hs_GetConnectStatus (hotstuff p) (leader_of v0)) eqn:Hc; [exfalso; apply Hn; by right|].
    rewrite bind_assoc, addView_run by (cbn [set_curView curView]; lia).
    rewrite bind_assoc, run_gets. cbn [set_curView curView].
    set (p1 := set_curView (v0 + 1) (set_curView v0 p)).
    assert (Hv1 : start_view p1 (v0 + 1) = (v0 + 1)%Z) by (unfold start_view, p1; simpl; by rewrite decide_False by lia).
    assert (Hshift : ∀ j : nat, (v0 + 1 + Z.of_nat j = v0 + Z.of_nat (S j))%Z) by lia.
    specialize (IH fuel (v0 + 1)%Z p1). rewrite Hv1 in IH. cbv zeta in IH. rewrite Hshift in IH.
    match type of IH with _ → _ → _ → _ → _ → _ → ?a = (_ ← times _ (deliverVote _ ?x _); _) _ =>
      replace x with pv' in IH by (unfold pv'; rewrite (decide_False (P:=S k = 0%nat)) by done; case_decide; lia)
    end.
    unfold mbind at 1, M_bind at 1. rewrite IH; [|lia|done|lia|lia|done|].
    2: { intros j Hj. rewrite Hshift. apply Hmin. lia. }
    change (settled (v0 + Z.of_nat (S k)) p1) with (settled (v0 + Z.of_nat (S k)) p).
    cbn [times]. unfold mbind, M_bind.
    destruct (times k _ _) as [[] q]; try done. by destruct (deliverVote conf pv' vote q) as [[] ?].
Qed.

(** C20 How often, and for which view, the vote on a received proposal is
    delivered.  Let [v0] be the larger of the current view and the proposal's
    view, not negative and [N] short of the largest [int64], and this replica's
    id in [0, N).  [OnReceiveProposal] ends after at most [N] hops.  If the
    leader after [v0] is this replica or is connected, it delivers the vote once,
    to the leader of the view after the proposal's own, which for a late
    proposal is not the leader after [v0].  If it skips [k > 0] disconnected
    leaders, it settles in view [v0 + k] and delivers the same vote [k + 1]
    times, each time to the leader after [v0 + k]: the recursion returns into
    the delivery of every enclosing call. *)
Theorem OnReceiveProposal_delivers vote pv p fuel :
  let v0 := start_view p pv in
  (0 ≤ replicaId conf < N)%Z → (0 ≤ v0)%Z → (v0 + N < 2 ^ 63)%Z → (hops conf ≤ fuel)%nat →
  ∃ k : nat, (Z.of_nat k < N)%Z ∧ stops p (v0 + Z.of_nat k)
    ∧ (∀ j : nat, (j < k)%nat → ¬ stops p (v0 + Z.of_nat j))
    ∧ let pv' := if decide (k = 0)%nat then pv else (v0 + Z.of_nat k)%Z in
      OnReceiveProposal conf fuel pv vote p
      = (_ ← times (S k) (deliverVote conf pv' vote); mret (Some pv')) (settled (v0 + Z.of_nat k) p).
Proof.
  intros v0 Hi Hv Hb Hf. destruct (first_stop (set_curView v0 p) Hi Hv Hb) as (k & Hk & Hs & Hmin).
  exists k. split_and!; [done..|]. unfold hops in Hf. fold N in Hf.
  apply receive_proposal_skips; [lia|lia|done|fold v0; lia|done|done].
Qed.

(** ** When the recursions overflow the stack *)

Lemma leader_of_wrap a b : leader_of (wrap64 a + b) = leader_of (a + b).
Proof.
  unfold leader_of. rewrite <-(Z.add_assoc (wrap64 a)), wrap64_add_l, <-Z.add_assoc. done.
Qed.

Lemma stops_wrap p p' a b :
  hotstuff p' = hotstuff p → stops p' (wrap64 a + b) ↔ stops p (a + b).
Proof. intros Hh. unfold stops. by rewrite leader_of_wrap, Hh. Qed.

Lemma stops_shift p p' a fuel :
  hotstuff p' = hotstuff p →
  (∀ j, (j < fuel)%nat → ¬ stops p' (wrap64 (a + 1) + Z.of_nat j)) →
  ¬ stops p a → ∀ j, (j < S fuel)%nat → ¬ stops p (a + Z.of_nat j).
Proof.
  intros Hh Hrest H0 [|j] Hj; [by rewrite Z.add_0_r|].
  rewrite Nat2Z.inj_succ, <-Z.add_1_l, Z.add_assoc, <-(stops_wrap p p') by done. apply Hrest. lia.
Qed.

Lemma stops_unshift p p' a fuel :
  hotstuff p' = hotstuff p → (∀ j, (j < S fuel)%nat → ¬ stops p (a + Z.of_nat j)) →
  ∀ j, (j < fuel)%nat → ¬ stops p' (wrap64 (a + 1) + Z.of_nat j).
Proof.
  intros Hh Hall j Hj. rewrite (stops_wrap p) by done. rewrite <-Z.add_assoc, Z.add_1_l, <-Nat2Z.inj_succ.
  apply Hall. lia.
Qed.

Lemma bind_not_none {A B} (m : M (RoundRobinPM HS) A) (f : A → B) p :
  ((x ← m; mret (Some (f x))) p).1 ≠ Ok None.
Proof. unfold mbind, M_bind. by destruct (m p) as [[] ?]. Qed.

(** [OnNextSyncView] runs out of [fuel] exactly when none of the next [fuel]
    views stops. *)
Lemma next_sync_none (t : T) fuel : ∀ p, N ≠ 0%Z →
  (OnNextSyncView conf fuel t p).1 = Ok None ↔ ∀ j, (j < fuel)%nat → ¬ stops p (curView p + Z.of_nat j).
Proof.
  induction fuel as [|fuel IH]; intros p HN; cbn [OnNextSyncView]; [split; [lia|done]|].
  rewrite run_gets, (run_bind_Ok _ _ _ _ _ (GetLeader_run _ _ HN)). unfold addView. rewrite run_modify.
  unfold GetConnectStatus. rewrite run_gets. cbn [set_curView hotstuff].
  set (p1 := set_curView _ p).
  assert (Hstop : stops p (curView p) → ¬ ∀ j, (j < S fuel)%nat → ¬ stops p (curView p + Z.of_nat j)).
  { intros Hs Hall. apply (Hall 0%nat); [lia|]. by rewrite Z.add_0_r. }
  case_decide as Hl; [destruct (hs_GetConnectStatus (hotstuff p) (leader_of (curView p))) eqn:Hc|].
  - split; [by intros Hn%bind_not_none|]. intros Hall. by destruct (Hstop (or_intror Hc)).
  - rewrite (IH p1 HN). split; [|by apply stops_unshift].
    intros Hrest. apply (stops_shift p p1); [done..|]. intros [|]; congruence.
  - split; [by intros Hn%bind_not_none|]. intros Hall. destruct (Hstop); [|done]. left.
    destruct (decide (leader_of (curView p) = replicaId conf)); [done|by destruct Hl].
Qed.

(** So does [OnReceiveProposal]. *)
Lemma receive_proposal_none vote fuel : ∀ pv p, N ≠ 0%Z →
  (OnReceiveProposal conf fuel pv vote p).1 = Ok None
  ↔ ∀ j, (j < fuel)%nat → ¬ stops p (start_view p pv + Z.of_nat j).
Proof.
  induction fuel as [|fuel IH]; intros pv p HN; cbn [OnReceiveProposal]; [split; [lia|done]|].
  rewrite run_gets, start_view_run. set (v0 := start_view p pv). rewrite run_gets.
  cbn [set_curView curView]. rewrite (run_bind_Ok _ _ _ _ _ (GetLeader_run _ _ HN)).
  assert (Hstop : stops p v0 → ¬ ∀ j, (j < S fuel)%nat → ¬ stops p (v0 + Z.of_nat j)).
  { intros Hs Hall. apply (Hall 0%nat); [lia|]. by rewrite Z.add_0_r. }
  unfold GetConnectStatus, stopNewViewTimer.
  case_decide as Hl; [rewrite bind_assoc, run_gets; cbn [set_curView hotstuff];
    destruct (hs_GetConnectStatus (hotstuff p) (leader_of v0)) eqn:Hc|].
  - split; [by intros Hn%(bind_not_none _ (λ _, pv))|]. intros Hall. by destruct (Hstop (or_intror Hc)).
  - unfold addView. rewrite bind_assoc, run_modify, bind_assoc, run_gets. cbn [set_curView curView hotstuff].
    set (p1 := set_curView (wrap64 (v0 + 1)) (set_curView v0 p)). set (w := wrap64 (v0 + 1)) in *.
    assert (Hw : start_view p1 w = w) by (unfold start_view, p1; simpl; by case_decide).
    specialize (IH w p1 HN). rewrite Hw in IH.
    assert (Hiff : (∀ j, (j < fuel)%nat → ¬ stops p1 (w + Z.of_nat j))
                   ↔ ∀ j, (j < S fuel)%nat → ¬ stops p (v0 + Z.of_nat j)).
    { split; [|by apply stops_unshift]. intros Hrest. apply (stops_shift p p1); [done..|]. intros [|]; congruence. }
    rewrite <-Hiff, <-IH. unfold mbind at 1, M_bind at 1.
    destruct (OnReceiveProposal conf fuel w vote p1) as [[[pv'|]|e| |x] q]; simpl; try done.
    split; [by intros Hn%(bind_not_none _ (λ _, pv'))|done].
  - rewrite bind_assoc, run_modify. split; [by intros Hn%(bind_not_none _ (λ _, pv))|].
    intros Hall. destruct (Hstop); [|done]. left.
    destruct (decide (leader_of v0 = replicaId conf)); [done|by destruct Hl].
Qed.

Lemma unwound_panic {A} (m : M (RoundRobinPM HS) (option A)) p :
  (unwound m p).1 = Panic ↔ (m p).1 = Ok None ∨ (m p).1 = Panic.
Proof. unfold unwound, mbind, M_bind. destruct (m p) as [[[]|e| |w] ?]; simpl; naive_solver. Qed.

(** One message can kill the process.  A replica other than 0 that is not
    connected to replica 0, and to no negative id, is handed the vote on a
    proposal of view 2^63 - 1: the next view wraps to a negative number, whose
    leader is 0 or negative, so no view stops the recursion, which overflows
    the stack whatever its depth up to 2^63 calls. *)
Theorem huge_view_overflows vote p :
  (0 < replicaId conf < N)%Z → (curView p < 2 ^ 63)%Z → (Z.of_nat (stack_depth conf) ≤ 2 ^ 63)%Z →
  (∀ i, (i ≤ 0)%Z → hs_GetConnectStatus (hotstuff p) i = false) →
  (run_event conf (EvReceiveProposal (T:=T) (2 ^ 63 - 1) vote) p).1 = Panic.
Proof.
  intros Hi Hcv Hd Hno. cbn [run_event]. apply unwound_panic. left.
  apply receive_proposal_none; [lia|]. intros j Hj.
  assert (start_view p (2 ^ 63 - 1) = (2 ^ 63 - 1)%Z) as -> by (unfold start_view; case_decide; lia).
  assert (Hw : wrap64 (2 ^ 63 - 1 + Z.of_nat j + 1) = (Z.of_nat j - 2 ^ 63)%Z).
  { unfold wrap64. replace (2 ^ 63 - 1 + Z.of_nat j + 1 + 2 ^ 63)%Z with (Z.of_nat j + 1 * 2 ^ 64)%Z by lia.
    rewrite Z.mod_add by lia. rewrite Z.mod_small by lia. done. }
  assert (Hl : (leader_of (2 ^ 63 - 1 + Z.of_nat j) ≤ 0)%Z).
  { unfold leader_of. rewrite Hw. apply Z.rem_nonpos; lia. }
  intros [Hs|Hs]; [lia|]. by rewrite Hno in Hs.
Qed.

End leaders.

(** ** Views only move forward *)

Section monotone.
Context {HS T : Type} `{HotStuff HS T} (conf : PMConf).
Implicit Types (p : RoundRobinPM HS).

Let N := md_N (metadata conf).

Definition view_le p p' : Prop := (curView p ≤ curView p')%Z.

#[global] Instance view_le_preorder : PreOrder view_le.
Proof. split; unfold view_le; [intros p; lia|intros p1 p2 p3; lia]. Qed.

Lemma lift_evolves {A} (m : M HS A) : evolves view_le (lift m).
Proof. intros p. unfold lift. destruct (m (hotstuff p)) as [r h]. unfold view_le. simpl. lia. Qed.

Lemma go_evolves task : evolves view_le (go (HS:=HS) task).
Proof. apply evolves_modify. intros p. unfold view_le. simpl. lia. Qed.

Lemma stop_evolves : evolves view_le (stopNewViewTimer (HS:=HS)).
Proof. apply evolves_modify. intros p. unfold view_le. simpl. lia. Qed.

Lemma start_evolves : evolves view_le (startNewViewTimer (HS:=HS)).
Proof.
  apply evolves_bind; [apply _|apply stop_evolves|]. intros _.
  apply evolves_modify. intros p. unfold view_le. simpl. lia.
Qed.

Lemma set_views_evolves f : evolves view_le (modify (λ p, set_views (f p) p)).
Proof. apply evolves_modify. intros p. unfold view_le. simpl. lia. Qed.

Lemma set_submitC_evolves c : evolves view_le (modify (set_submitC (HS:=HS) c)).
Proof. apply evolves_modify. intros p. unfold view_le. simpl. lia. Qed.

Hint Resolve lift_evolves go_evolves stop_evolves start_evolves set_views_evolves
  set_submitC_evolves : evolves.

Lemma GetLeader_evolves view : evolves view_le (GetLeader (HS:=HS) conf view).
Proof. unfold GetLeader. evolve. Qed.
Lemma GetCurLeader_evolves view : evolves view_le (GetCurLeader (HS:=HS) conf view).
Proof. unfold GetCurLeader. evolve. Qed.
Lemma status_evolves i : evolves view_le (GetConnectStatus (HS:=HS) (T:=T) i).
Proof. unfold GetConnectStatus. evolve. Qed.
Hint Resolve GetLeader_evolves GetCurLeader_evolves status_evolves : evolves.

(** A guarded store of a larger view. *)
Lemma guarded_store v : evolves_if view_le (λ p, (curView p < v)%Z) (storeView (HS:=HS) v).
Proof. intros p Hlt. unfold view_le. simpl. lia. Qed.

Lemma UpdateQcHigh_evolves v qc : evolves view_le (UpdateQcHigh (HS:=HS) v qc).
Proof.
  unfold UpdateQcHigh. apply evolves_gets_bind. intros p.
  case_decide; [by apply guarded_store|apply view_le_preorder].
Qed.

Lemma createSigned_evolves t : evolves view_le (createSignedViewChange (HS:=HS) (T:=T) conf t).
Proof. unfold createSignedViewChange. evolve. Qed.

Lemma addNewViewMsg_evolves id nv : evolves view_le (addNewViewMsg (HS:=HS) (T:=T) conf id nv).
Proof. unfold addNewViewMsg. cbv zeta. evolve. Qed.

Hint Resolve UpdateQcHigh_evolves createSigned_evolves addNewViewMsg_evolves : evolves.

Lemma processNewView_evolves t id nv r : evolves view_le (processNewView (HS:=HS) (T:=T) conf t id nv r).
Proof.
  unfold processNewView. destruct r as [e|block]; [evolve|].
  apply evolves_bind; [apply _|apply lift_evolves|]. intros g.
  apply evolves_bind; [apply _|apply lift_evolves|]. intros h.
  apply evolves_bind; [apply _|apply lift_evolves|]. intros hq.
  apply evolves_gets_bind. intros p. case_decide.
  { match goal with |- view_le _ ((?m) p).2 => enough (evolves view_le m) as He by apply He end. evolve. }
  case_decide as Hlt.
  2: { match goal with |- view_le _ ((?m) p).2 => enough (evolves view_le m) as He by apply He end. evolve. }
  unfold stopNewViewTimer at 1. rewrite run_modify. unfold storeView. rewrite run_modify.
  etrans; [|match goal with |- view_le _ ((?m) ?q).2 => enough (evolves view_le m) as He by apply He end; evolve].
  unfold view_le. simpl. lia.
Qed.
Hint Resolve processNewView_evolves : evolves.

Lemma OnReceiveNewView_evolves t id nv : evolves view_le (OnReceiveNewView (HS:=HS) (T:=T) conf t id nv).
Proof. unfold OnReceiveNewView. evolve. Qed.
Hint Resolve OnReceiveNewView_evolves : evolves.

Lemma enterView_evolves t leader : evolves view_le (enterView (HS:=HS) (T:=T) conf t leader).
Proof. unfold enterView, clearViews. evolve. Qed.

Lemma deliverVote_evolves pv vote : evolves view_le (deliverVote (HS:=HS) (T:=T) conf pv vote).
Proof. unfold deliverVote. evolve. Qed.

Lemma times_evolves n m : evolves view_le m → evolves view_le (times (HS:=HS) n m).
Proof. intros Hm. induction n as [|n IH]; simpl; evolve. Qed.

Lemma OnBeat_evolves t : evolves view_le (OnBeat (HS:=HS) (T:=T) conf t).
Proof. unfold OnBeat. evolve. Qed.

Lemma OnReceiveNewView_wake_evolves t id nv :
  evolves view_le (OnReceiveNewView_wake (HS:=HS) (T:=T) conf t id nv).
Proof. unfold OnReceiveNewView_wake. evolve. Qed.
Hint Resolve OnReceiveNewView_wake_evolves : evolves.

(** The views involved are far from the largest [int64]. *)
Definition headroom (e : pm_event T) p : Prop :=
  (hops conf ≤ stack_depth conf)%nat ∧ (0 ≤ replicaId conf < N)%Z ∧ (0 ≤ curView p)%Z ∧ (curView p + N < 2 ^ 63)%Z
  ∧ match e with
    | EvReceiveProposal pv _ => (pv + N < 2 ^ 63)%Z
    | EvQcFinish qc => ∀ q h, hs_read qc (hotstuff p) = (Ok q, h) → (qc_ViewNumber q + 1 < 2 ^ 63)%Z
    | _ => True
    end.

Lemma next_sync_forward t p :
  (hops conf ≤ stack_depth conf)%nat → (0 ≤ replicaId conf < N)%Z → (0 ≤ curView p)%Z → (curView p + N < 2 ^ 63)%Z →
  view_le p (OnNextSyncView conf (stack_depth conf) t p).2.
Proof.
  unfold hops. fold N. intros Hst Hi Hv Hb. destruct (first_stop conf p Hi Hv Hb) as (k & Hk & Hs & Hmin).
  rewrite (next_sync_skips conf t k) by (done || lia).
  etrans; [|match goal with |- view_le _ ((?m) ?q).2 => enough (evolves view_le m) as He by apply He end].
  - unfold view_le. simpl. lia.
  - pose proof (enterView_evolves t). evolve.
Qed.

Lemma receive_proposal_forward vote pv p :
  (hops conf ≤ stack_depth conf)%nat → (0 ≤ replicaId conf < N)%Z → (0 ≤ curView p)%Z → (curView p + N < 2 ^ 63)%Z → (pv + N < 2 ^ 63)%Z →
  view_le p (OnReceiveProposal conf (stack_depth conf) pv vote p).2.
Proof.
  unfold hops. fold N. intros Hst Hi Hv Hb Hpv. set (v0 := start_view p pv).
  assert (Hv0 : (curView p ≤ v0)%Z ∧ (0 ≤ v0)%Z ∧ (v0 + N < 2 ^ 63)%Z)
    by (unfold v0, start_view; case_decide; lia).
  destruct (first_stop conf (set_curView v0 p) Hi) as (k & Hk & Hs & Hmin); [simpl; fold N; lia..|].
  simpl in Hs, Hmin.
  rewrite (receive_proposal_skips conf vote k) by (done || fold v0; lia). fold v0.
  etrans; [|match goal with |- view_le _ ((?m) ?q).2 => enough (evolves view_le m) as He by apply He end].
  - unfold view_le, settled. case_decide; simpl; lia.
  - match goal with |- context [times (S k) (deliverVote _ ?x _)] =>
      pose proof (times_evolves (S k) _ (deliverVote_evolves x vote)) end. evolve.
Qed.

Lemma addView_forward {A} (k : unit → M (RoundRobinPM HS) A) p :
  (0 ≤ curView p)%Z → (curView p + 1 < 2 ^ 63)%Z → (∀ u, evolves view_le (k u)) →
  view_le p ((addView ≫= k) p).2.
Proof.
  intros Hv Hb Hk. rewrite addView_run by done. etrans; [|apply Hk]. unfold view_le. simpl. lia.
Qed.

Lemma propose_event_forward (prop : Proposal QCRef) p :
  N ≠ 0%Z → (0 ≤ curView p)%Z → (curView p + 1 < 2 ^ 63)%Z →
  view_le p (OnProposeEvent (T:=T) conf prop p).2.
Proof.
  intros HN Hv Hb. unfold OnProposeEvent. rewrite run_gets.
  rewrite (run_bind_Ok _ _ _ _ _ (GetLeader_run conf _ _ HN)). case_decide.
  2: { match goal with |- view_le _ ((?m) ?q).2 => enough (evolves view_le m) as He by apply He end. evolve. }
  unfold startNewViewTimer, stopNewViewTimer. rewrite !bind_assoc, run_modify, run_modify.
  rewrite bind_assoc, run_gets, bind_assoc, (run_bind_Ok _ _ _ _ _ (GetLeader_run conf _ _ HN)).
  unfold GetConnectStatus. rewrite bind_assoc, run_gets.
  set (p1 := set_timer true (set_timer false p)). change (view_le p) with (view_le p1).
  destruct (hs_GetConnectStatus _ _).
  - match goal with |- view_le _ ((?m) ?q).2 => enough (evolves view_le m) as He by apply He end. evolve.
  - rewrite bind_assoc. apply addView_forward; [done..|]. intros _. evolve.
Qed.

Lemma qc_finish_forward qc p :
  N ≠ 0%Z → (0 ≤ curView p)%Z → (curView p + 1 < 2 ^ 63)%Z →
  (∀ q h, hs_read qc (hotstuff p) = (Ok q, h) → (qc_ViewNumber q + 1 < 2 ^ 63)%Z) →
  view_le p (OnQcFinishEvent (T:=T) conf qc p).2.
Proof.
  intros HN Hv Hb Hq. unfold OnQcFinishEvent. unfold mbind at 1, M_bind at 1, lift.
  destruct (hs_read qc (hotstuff p)) as [[q|e| |w] h] eqn:Hr; try (unfold view_le; simpl; lia).
  specialize (Hq q h eq_refl). rewrite run_gets.
  rewrite (start_view_run _ (set_hotstuff h p)).
  set (v0 := start_view (set_hotstuff h p) (qc_ViewNumber q)).
  assert (Hv0 : (curView p ≤ v0 ∧ v0 + 1 < 2 ^ 63)%Z)
    by (unfold v0, start_view; simpl; case_decide; lia).
  set (p1 := set_curView v0 (set_hotstuff h p)).
  assert (Hp1 : view_le p p1) by (unfold view_le, p1; simpl; lia). etrans; [exact Hp1|].
  rewrite run_gets, (run_bind_Ok _ _ _ _ _ (GetLeader_run conf _ _ HN)). case_decide.
  - apply addView_forward; [unfold p1; simpl; lia..|]. intros _. evolve.
  - match goal with |- view_le _ ((?m) ?q).2 => enough (evolves view_le m) as He by apply He end. evolve.
Qed.

Lemma unwound_forward {A} (m : M (RoundRobinPM HS) (option A)) p :
  view_le p (m p).2 → view_le p (unwound m p).2.
Proof. unfold unwound, mbind, M_bind. by destruct (m p) as [[[]| | |] ?]. Qed.

(** Run one at a time, the entry points and the goroutines of the pacemaker move
    the current view forward, as long as the views involved are [N] short of the
    largest [int64] and the stack allows [N] calls.  [ViewRace] has what happens
    when they interleave. *)
Lemma view_forward (e : pm_event T) p :
  headroom e p → (curView p ≤ curView (run_event conf e p).2)%Z.
Proof.
  intros (Hst & Hi & Hv & Hb & He). change (view_le p (run_event conf e p).2).
  pose proof (OnReceiveNewView_wake_evolves) as Hwake.
  assert (Hsync : ∀ t, view_le p (unwound (OnNextSyncView conf (stack_depth conf) t) p).2).
  { intros t. by apply unwound_forward, next_sync_forward. }
  destruct e; cbn [run_event].
  - apply go_evolves.
  - unfold Submit. apply evolves_gets_bind. intros q. case_decide; unfold view_le; simpl; lia.
  - destruct task; cbn [run_task]; [apply OnBeat_evolves|apply Hsync|..].
    + match goal with |- view_le _ ((?m) ?q).2 => enough (evolves view_le m) as Hm by apply Hm end. evolve.
    + match goal with |- view_le _ ((?m) ?q).2 => enough (evolves view_le m) as Hm by apply Hm end. evolve.
  - apply Hsync.
  - apply propose_event_forward; lia.
  - by apply unwound_forward, receive_proposal_forward.
  - apply OnReceiveNewView_evolves.
  - apply Hwake.
  - match goal with |- view_le _ ((?m) ?q).2 => enough (evolves view_le m) as Hm by apply Hm end.
    unfold enterView_wake, clearViews. evolve.
  - apply qc_finish_forward; [lia|lia|lia|done].
  - apply UpdateQcHigh_evolves.
  - unfold view_le. simpl. lia.
Qed.

End monotone.

(** ** New-view quorums *)

Section new_views.
Context {HS T : Type} `{HotStuff HS T} (conf : PMConf).
Implicit Types (p : RoundRobinPM HS) (nv : NewView QCRef).

Let q := GetQuorumSize (metadata conf).

(** A [range] over a map visits each entry once, in some order. *)
Hypothesis range_visits : ∀ m, range_order conf m ≡ₚ map_to_list m.

(** The new-view messages recorded for a view. *)
Definition bucket p (v : Z) : gmap Z (NewView QCRef) := default ∅ (views p !! v).

(** Messages are recorded under the view they name. *)
Definition views_ok p : Prop := ∀ v i nv, bucket p v !! i = Some nv → nv_ViewNumber nv = v.

Lemma select_high_elem l : ∀ x, select_high l = Some x → x ∈ l.
Proof.
  unfold select_high.
  enough (∀ a x, foldl (λ hv v, match hv with
    | None => Some v
    | Some h => if decide (nv_ViewNumber h < nv_ViewNumber v)%Z then Some v else Some h
    end) a l = Some x → x ∈ l ∨ a = Some x) as He.
  { intros x Hx. destruct (He None x Hx); [done|discriminate]. }
  induction l as [|y l IH]; intros a x Hx; simpl in Hx; [by right|].
  apply IH in Hx as [Hx|Hx]; [left; by right|].
  destruct a as [h|]; [|left; injection Hx as ->; left].
  case_decide; [left; injection Hx as ->; left|by right].
Qed.

Lemma select_high_head l v x :
  Forall (λ nv, nv_ViewNumber nv = v) (x :: l) → select_high (x :: l) = Some x.
Proof.
  intros [Hx Hl]%Forall_cons. unfold select_high. simpl. induction Hl as [|y l Hy _ IH]; simpl; [done|].
  rewrite decide_False by lia. done.
Qed.

(** The message of a new sender, while the view is short of a quorum. *)
Lemma select_range m i nv v :
  (∀ j x, <[i := nv]> m !! j = Some x → nv_ViewNumber x = v) →
  ∃ x, select_high (range_order conf (<[i := nv]> m)).*2 = Some x
    ∧ nv_ViewNumber x = v ∧ ∃ j, <[i := nv]> m !! j = Some x.
Proof.
  intros Hrec. set (m' := <[i := nv]> m) in *.
  assert (Hin : ∀ y, y ∈ (range_order conf m').*2 → ∃ j, m' !! j = Some y).
  { intros y ([j z] & -> & Hz)%list_elem_of_fmap. rewrite range_visits in Hz.
    apply elem_of_map_to_list in Hz. simpl. eauto. }
  destruct ((range_order conf m').*2) as [|x l] eqn:Hr.
  { exfalso. assert (Hl := Permutation_length (range_visits m')).
    rewrite <-(length_fmap snd), Hr, length_map_to_list in Hl.
    assert (Hi : m' !! i = Some nv) by apply lookup_insert_eq.
    symmetry in Hl. apply map_size_empty_iff in Hl. rewrite Hl, lookup_empty in Hi. done. }
  exists x. destruct (Hin x ltac:(left)) as [j Hj]. split; [|split; [by eapply Hrec|eauto]].
  apply (select_high_head _ v), Forall_forall. intros y Hy. destruct (Hin y Hy) as [j' Hj'].
  by eapply Hrec.
Qed.

Lemma add_counted id nv p :
  let v := nv_ViewNumber nv in
  let m := bucket p v in
  (∀ i x, m !! i = Some x → nv_ViewNumber x = v) →
  (1 ≤ q)%Z → (Z.of_nat (size m) < q)%Z → m !! id = None →
  ∃ hv, addNewViewMsg conf id nv p = (Ok hv, set_views (<[v := <[id := nv]> m]> (views p)) p)
    ∧ (is_Some hv ↔ (Z.of_nat (size m) + 1 = q)%Z)
    ∧ ∀ x, hv = Some x → nv_ViewNumber x = v ∧ ∃ i, <[id := nv]> m !! i = Some x.
Proof.
  intros v m Hok Hq Hlt Hid. unfold addNewViewMsg. cbv zeta. rewrite run_gets.
  change (GetQuorumSize (metadata conf)) with q. fold v.
  assert (Hrec : ∀ i x, <[id := nv]> m !! i = Some x → nv_ViewNumber x = v).
  { intros i x [[_ <-]|[_ Hx]]%lookup_insert_Some; [done|by eapply Hok]. }
  destruct (views p !! v) as [m'|] eqn:Hm.
  - assert (m = m') as <- by (unfold m, bucket; by rewrite Hm).
    rewrite decide_False by lia. rewrite Hid, run_modify.
    rewrite (map_size_insert_None _ _ _ Hid). case_decide as Hqq.
    + destruct (select_range m id nv v Hrec) as (x & Hx & Hv & Hj). exists (Some x). rewrite Hx.
      split; [done|]. split; [split; [lia|by eexists]|]. by intros y [= <-].
    + exists None. split; [done|]. split; [|done]. split; [by intros [? ?]|lia].
  - assert (m = ∅) as Hm0 by (unfold m, bucket; by rewrite Hm).
    rewrite run_modify, Hm0, insert_empty, map_size_empty. case_decide as Hq1.
    + exists (Some nv). split; [done|]. split; [split; [lia|by eexists]|].
      intros x [= <-]. split; [done|]. exists id. apply lookup_singleton_eq.
    + exists None. split; [done|]. split; [|done]. split; [by intros [? ?]|lia].
Qed.

(** A view with its quorum, or a sender already counted. *)
Lemma add_ignored id nv p :
  let m := bucket p (nv_ViewNumber nv) in
  (1 ≤ q)%Z → ((q ≤ Z.of_nat (size m))%Z ∨ is_Some (m !! id)) →
  (∀ x, (addNewViewMsg conf id nv p).1 ≠ Ok (Some x))
  ∧ ∀ v', dom (bucket (addNewViewMsg conf id nv p).2 v') = dom (bucket p v').
Proof.
  intros m Hq Hold. unfold addNewViewMsg. cbv zeta. rewrite run_gets.
  change (GetQuorumSize (metadata conf)) with q. set (v := nv_ViewNumber nv) in *.
  destruct (views p !! v) as [m'|] eqn:Hm.
  2: { exfalso. unfold m, bucket in Hold. rewrite Hm in Hold. simpl in Hold.
       rewrite map_size_empty, lookup_empty in Hold. destruct Hold as [|[? ?]]; [lia|done]. }
  assert (m = m') as <- by (unfold m, bucket; by rewrite Hm).
  case_decide; [done|]. destruct Hold as [|[old Hid]]; [lia|]. rewrite Hid.
  unfold mbind, M_bind, lift.
  destruct (hs_read (nv_GenericQc old) (hotstuff p)) as [[o|e| |w] h1]; simpl; try done.
  destruct (hs_read (nv_GenericQc nv) h1) as [[n|e| |w] h2]; simpl; try done.
  unfold when. case_bool_decide; simpl; [|done]. split; [done|].
  intros v'. unfold bucket. simpl. destruct (decide (v = v')) as [<-|Hne].
  - rewrite lookup_insert_eq, Hm. simpl. rewrite dom_insert_L. apply elem_of_dom_2 in Hid. set_solver.
  - by rewrite lookup_insert_ne.
Qed.

(** [addNewViewMsg] on every branch: the message of a new sender is recorded
    while the view is short of a quorum, and the call reports a view exactly
    when it is the one that completes the quorum; the reported message is one
    recorded for that view.  Once the view has its quorum, or for a sender
    already counted, nothing is reported and no sender is added or removed. *)
Theorem addNewViewMsg_outcome id nv p :
  views_ok p → (1 ≤ q)%Z →
  let v := nv_ViewNumber nv in
  let m := bucket p v in
  let out := addNewViewMsg conf id nv p in
  if decide ((Z.of_nat (size m) < q)%Z ∧ m !! id = None) then
    ∃ hv, out = (Ok hv, set_views (<[v := <[id := nv]> m]> (views p)) p)
      ∧ (is_Some hv ↔ (Z.of_nat (size m) + 1 = q)%Z)
      ∧ ∀ x, hv = Some x → nv_ViewNumber x = v ∧ ∃ i, <[id := nv]> m !! i = Some x
  else (∀ x, out.1 ≠ Ok (Some x)) ∧ ∀ v', dom (bucket out.2 v') = dom (bucket p v').
Proof.
  intros Hok Hq v m out. case_decide as Hnew.
  - destruct Hnew. apply add_counted; [|done..]. intros i x. apply Hok.
  - apply add_ignored; [done|]. fold v m. destruct (m !! id) eqn:Hid; [right; by eexists|left].
    destruct (decide (Z.of_nat (size m) < q)%Z); [|lia]. exfalso. by apply Hnew.
Qed.

(** The outcomes of a sequence of calls. *)
Fixpoint add_run (l : list (Z * NewView QCRef)) p : list (res (option (NewView QCRef))) :=
  match l with
  | [] => []
  | (i, nv) :: l =>
      let '(r, p') := addNewViewMsg conf i nv p in r :: add_run l p'
  end.

Lemma add_run_fires v l : ∀ p,
  (1 ≤ q)%Z → NoDup l.*1 → Forall (λ nv, nv_ViewNumber nv = v) l.*2 →
  (∀ i, i ∈ l.*1 → bucket p v !! i = None) →
  (∀ i x, bucket p v !! i = Some x → nv_ViewNumber x = v) →
  ∀ i r, add_run l p !! i = Some r →
    (∃ x, r = Ok (Some x)) ↔ (Z.of_nat (size (bucket p v)) + Z.of_nat i + 1 = q)%Z.
Proof.
  induction l as [|[a nv] l IH]; intros p Hq Hnd Hv Hfresh Hok i r Hr; [done|].
  cbn [add_run] in Hr. apply NoDup_cons in Hnd as [Ha Hnd]. apply Forall_cons in Hv as [Hva Hv].
  simpl in Hva. assert (Hfa : bucket p v !! a = None) by (apply Hfresh; left).
  destruct (decide (Z.of_nat (size (bucket p v)) < q)%Z) as [Hlt|Hge].
  - destruct (add_counted a nv p) as (hv & Hrun & Hiff & _); rewrite ?Hva; [done..|].
    rewrite Hva in Hrun, Hiff. rewrite Hrun in Hr. destruct i as [|i]; simpl in Hr.
    + injection Hr as <-. rewrite Z.add_0_r, <-Hiff. split; [intros [x [= ->]]; by eexists|intros [x ->]; eauto].
    + set (p' := set_views _ p) in Hr.
      assert (Hb : bucket p' v = <[a := nv]> (bucket p v)) by (unfold bucket at 1, p'; simpl; by rewrite lookup_insert_eq).
      rewrite (IH p' Hq Hnd Hv); [..|done]; rewrite Hb.
      * rewrite map_size_insert_None by done. lia.
      * intros j Hj. rewrite lookup_insert_ne by (intros <-; done). apply Hfresh. by right.
      * intros j x [[_ <-]|[_ Hx]]%lookup_insert_Some; [done|by eapply Hok].
  - assert (Hrun : addNewViewMsg conf a nv p = (Ok None, p)).
    { unfold addNewViewMsg. cbv zeta. rewrite run_gets, Hva. unfold bucket in Hge.
      destruct (views p !! v) as [m|]; simpl in Hge; [by rewrite decide_True by (fold q; lia)|].
      rewrite map_size_empty in Hge. lia. }
    rewrite Hrun in Hr. destruct i as [|i]; simpl in Hr.
    + injection Hr as <-. split; [intros [x [=]]|lia].
    + rewrite (IH p Hq Hnd Hv); [lia|..|done|done]. intros j Hj. apply Hfresh. by right.
Qed.

(** C22 A new-view quorum fires once: when the replicas' new-view messages for a
    view arrive one after the other, the [N - F]-th is reported and no other,
    whatever the iteration order of Go maps. *)
Theorem new_view_quorum_once v l p :
  (1 ≤ q)%Z → NoDup l.*1 → Forall (λ nv, nv_ViewNumber nv = v) l.*2 → views p !! v = None →
  ∀ i r, add_run l p !! i = Some r → (∃ x, r = Ok (Some x)) ↔ (Z.of_nat i + 1 = q)%Z.
Proof.
  intros Hq Hnd Hv Hempty i r Hr.
  assert (Hb : bucket p v = ∅) by (unfold bucket; by rewrite Hempty).
  rewrite (add_run_fires v l p Hq Hnd Hv); [|by rewrite Hb..|exact Hr].
  by rewrite Hb, map_size_empty.
Qed.

End new_views.

(** ** Witnesses: a replica whose consensus core does nothing, with a list of
    connected peers *)

Module ToyPM.

Definition hs : HotStuff (list Z) unit := {|
  hs_OnPropose _ _ _ _ := mret tt;
  hs_OnProposalVote _ := mret tt;
  hs_UpdateHighestQC _ _ := mret tt;
  hs_GetHighQC := mret (Some 0%nat);
  hs_read _ := mret (MkQuorumCert 3 [] None);
  hs_AsyncWaitBlock h := park (WaitBlock h);
  hs_AsyncWaitBlock_wake _ := mret (inl ErrEmptyBlock);
  hs_Sign _ _ d := inr d;
  hs_GetConnectStatus l i := bool_decide (i ∈ l);
  hs_Unicast _ _ := mret tt;
  hs_Broadcast _ := mret tt |}.
#[export] Existing Instance hs.

(** Replica 0 of four, connected to replica 3 only, in view 0. *)
Definition conf : PMConf :=
  MkPMConf 0 (MkConfigMetadata 4 1 3) (λ _, inr []) map_to_list 1000.
Definition pm : RoundRobinPM (list Z) := NewRoundRobinPM [3%Z].

Definition vote : Vote := MkVote 0 0 [] (Toy.cert 0 []).
Definition nv (view : Z) : NewView QCRef := MkNewView view (Some 0%nat).

Lemma conf_id : (0 ≤ replicaId conf < md_N (metadata conf))%Z.
Proof. simpl. lia. Qed.

End ToyPM.

Section witnesses.
Import ToyPM.

Lemma leader_rotation_witness :
  GetLeader conf 5 pm = GetCurLeader conf (5 + 1) pm
  ∧ ∃ k : nat, (Z.of_nat k < 4)%Z ∧ GetLeader conf (5 + Z.of_nat k) pm = (Ok 3%Z, pm)
      ∧ ∀ k' : nat, (Z.of_nat k' < 4)%Z → GetLeader conf (5 + Z.of_nat k') pm = (Ok 3%Z, pm) → k' = k.
Proof. apply (leader_rotation conf 5 3 pm); simpl; lia. Defined.

(** Leaders 1 and 2 are skipped. *)
Lemma OnNextSyncView_terminates_witness :
  ∃ k : nat, (Z.of_nat k < 4)%Z
    ∧ stops conf pm (curView pm + Z.of_nat k)
    ∧ (∀ j : nat, (j < k)%nat → ¬ stops conf pm (curView pm + Z.of_nat j))
    ∧ OnNextSyncView conf 4 tt pm
      = (_ ← enterView conf tt (leader_of conf (curView pm + Z.of_nat k)); mret (Some tt))
          (set_curView (curView pm + Z.of_nat k + 1) pm).
Proof.
  apply (OnNextSyncView_terminates conf tt pm 4).
  - apply conf_id.
  - simpl; lia.
  - simpl; lia.
  - vm_compute. lia.
Defined.

Lemma OnReceiveProposal_delivers_witness :
  let v0 := start_view pm 1 in
  ∃ k : nat, (Z.of_nat k < 4)%Z ∧ stops conf pm (v0 + Z.of_nat k)
    ∧ (∀ j : nat, (j < k)%nat → ¬ stops conf pm (v0 + Z.of_nat j))
    ∧ let pv' := if decide (k = 0)%nat then 1%Z else (v0 + Z.of_nat k)%Z in
      OnReceiveProposal conf 4 1 vote pm
      = (_ ← times (S k) (deliverVote conf pv' vote); mret (Some pv')) (settled conf (v0 + Z.of_nat k) pm).
Proof.
  apply (OnReceiveProposal_delivers conf vote 1 pm 4).
  - apply conf_id.
  - vm_compute. discriminate.
  - vm_compute. reflexivity.
  - vm_compute. lia.
Defined.

(** Replica 1 of four, connected to replicas 2 and 3. *)
Lemma huge_view_overflows_witness :
  (run_event (MkPMConf 1 (MkConfigMetadata 4 1 3) (λ _, inr []) map_to_list 1000)
     (EvReceiveProposal (T:=unit) (2 ^ 63 - 1) vote) (NewRoundRobinPM [2%Z; 3%Z])).1 = Panic.
Proof.
  apply huge_view_overflows.
  - simpl; lia.
  - simpl; lia.
  - vm_compute. discriminate.
  - intros i Hi. simpl. apply bool_decide_eq_false_2. intros [->|[->|[]%not_elem_of_nil]%elem_of_cons]%elem_of_cons; lia.
Defined.

Lemma addNewViewMsg_outcome_witness :
  ∃ hv, addNewViewMsg conf 2 (nv 0) pm
        = (Ok hv, set_views (<[0%Z := <[2%Z := nv 0]> ∅]> (views pm)) pm)
    ∧ (is_Some hv ↔ (Z.of_nat (size (bucket pm 0)) + 1 = GetQuorumSize (metadata conf))%Z)
    ∧ ∀ x, hv = Some x → nv_ViewNumber x = 0%Z ∧ ∃ i, <[2%Z := nv 0]> (bucket pm 0) !! i = Some x.
Proof.
  pose proof (addNewViewMsg_outcome conf (λ m, reflexivity _) 2 (nv 0) pm) as Ho.
  cbv zeta in Ho. rewrite decide_True in Ho by (split; [vm_compute; reflexivity|reflexivity]).
  apply Ho; [|vm_compute; discriminate]. intros v i x Hx. discriminate Hx.
Defined.

(** Replicas 1, 2, 3 announce view 0: the third message completes the quorum. *)
Lemma new_view_quorum_once_witness :
  ∃ x, add_run conf [(1%Z, nv 0); (2%Z, nv 0); (3%Z, nv 0)] pm !! 2%nat = Some (Ok (Some x)).
Proof.
  destruct (add_run conf [(1%Z, nv 0); (2%Z, nv 0); (3%Z, nv 0)] pm !! 2%nat) as [r|] eqn:E;
    [|vm_compute in E; discriminate].
  assert (Hq : (∃ x, r = Ok (Some x)) ↔ (Z.of_nat 2 + 1 = 3)%Z).
  { refine (new_view_quorum_once conf (λ m, reflexivity _) 0
              [(1%Z, nv 0); (2%Z, nv 0); (3%Z, nv 0)] pm _ _ _ _ 2%nat r E).
    - vm_compute. discriminate.
    - apply (bool_decide_unpack _). vm_compute. exact I.
    - repeat constructor.
    - reflexivity. }
  destruct (proj2 Hq (reflexivity _)) as [x ->]. by exists x.
Defined.

End witnesses.
