(* ===== verification/ViewRace.v ===== *)
(** * Races on the view and on the vote height

    [Pacemaker] and [Core] run a handler in one step.  The source runs handlers
    in goroutines, and moves the current view by a test and a later store: [if v >
    atomic.LoadInt64(&r.curView) { atomic.StoreInt64(&r.curView, v) }] in
    [OnReceiveProposal], [OnQcFinishEvent] and [UpdateQcHigh]
    ([pacemaker/roundrobin.go], lines 159, 316 and 333).  Each access is atomic,
    the pair is not.  The vote height of [consensus/consensus.go] is moved the
    same way (lines 156 to 178).  Here goroutines that do so interleave between
    the test and the store. *)

From stdpp Require Import base numbers fin_maps gmap sets strings relations list.
From S2P Require Import Prelude GoMonad Types Database Entity Core CoreLemmas CoreSafety CoreSpec CoreProposals.
From S2P Require Import Pacemaker PacemakerProps.

(** Where a goroutine that wants to raise the cell to [v] is. *)
Inductive raiser :=
| Testing (v : Z)      (* before the test *)
| Storing (v : Z)      (* the test held; before the store *)
| Stored.              (* past the statement *)

Section cell.
Context {St : Type} (get : St → Z) (set : Z → St → St).
Hypothesis get_set : ∀ v s, get (set v s) = v.

(** The next access of a goroutine to the cell. *)
Definition raise (g : raiser) (s : St) : option (raiser * St) :=
  match g with
  | Testing v => Some (if decide (get s < v)%Z then Storing v else Stored, s)
  | Storing v => Some (Stored, set v s)
  | Stored => None
  end.

(** One of the goroutines moves. *)
Inductive raise_step : relation (St * list raiser) :=
| raise_one l g r g' s s' : raise g s = Some (g', s') → raise_step (s, l ++ g :: r) (s', l ++ g' :: r).

(** All of them have passed the statement. *)
Definition settles (vs : list Z) (s s' : St) : Prop :=
  rtc raise_step (s, Testing <$> vs) (s', replicate (length vs) Stored).

(** One goroutine from the test to the store, undisturbed. *)
Definition raise_alone (v : Z) (s : St) : St := if decide (get s < v)%Z then set v s else s.

Lemma raise_alone_settles v s : settles [v] s (raise_alone v s).
Proof.
  unfold settles, raise_alone. cbn [fmap list_fmap length replicate].
  eapply rtc_l; [apply (raise_one [] (Testing v) []); reflexivity|]. case_decide; [|apply rtc_refl].
  apply rtc_once. by apply (raise_one [] (Storing v) []).
Qed.

Lemma raise_alone_max v s : get (raise_alone v s) = Z.max (get s) v.
Proof. unfold raise_alone. case_decide; rewrite ?get_set; lia. Qed.

Lemma serial_max vs : ∀ s, get (foldl (λ s v, raise_alone v s) s vs) = foldl Z.max (get s) vs.
Proof. induction vs as [|v vs IH]; intros s; simpl; [done|]. by rewrite IH, raise_alone_max. Qed.

(** ** What the cell may hold *)

Section outcomes.
Context (vs : list Z) (s0 : St).

(** What is known of a goroutine while the cell is [c]. *)
Definition may_be (c : Z) (v : Z) (g : raiser) : Prop :=
  match g with
  | Testing w => w = v
  | Storing w => w = v ∧ (get s0 < v)%Z
  | Stored => (v ≤ get s0)%Z ∨ (get s0 < c)%Z
  end.

Definition race_inv (x : St * list raiser) : Prop :=
  (get x.1 = get s0 ∨ (get x.1 ∈ vs ∧ (get s0 < get x.1)%Z)) ∧ Forall2 (may_be (get x.1)) vs x.2.

Lemma may_be_raised c c' v g : (get s0 < c')%Z → may_be c v g → may_be c' v g.
Proof. intros Hc. destruct g; simpl; [done..|by right]. Qed.

Lemma race_step_inv x y : raise_step x y → race_inv x → race_inv y.
Proof.
  intros [l g r g' s s' Hr] [Hc Hf]. cbn [fst snd] in Hc, Hf. unfold race_inv. cbn [fst snd].
  apply Forall2_app_inv_r in Hf as (vl & vr' & Hl & Hgr & Hvs).
  apply Forall2_cons_inv_r in Hgr as (v & vr & Hg & Hr' & ->). rewrite Hvs in *.
  destruct g as [w|w|]; simpl in Hr; [..|done]; injection Hr as <- <-; simpl in Hg.
  - subst w. split; [exact Hc|]. apply Forall2_app; [done|]. constructor; [|done].
    assert (Hc' : (get s0 ≤ get s)%Z) by (destruct Hc as [->|[_ ?]]; lia).
    case_decide; simpl; [split; [done|lia]|]. destruct Hc as [Hc|[_ Hc]]; [left; lia|by right].
  - destruct Hg as [-> Hlt]. rewrite get_set. split.
    { right. split; [|done]. apply elem_of_app. right. left. }
    apply Forall2_app; [|constructor];
      [eapply Forall2_impl; [done|intros ? ?; by apply may_be_raised]|by right|
       eapply Forall2_impl; [done|intros ? ?; by apply may_be_raised]].
Qed.

Lemma race_inv_start : race_inv (s0, Testing <$> vs).
Proof. split; [by left|]. simpl. apply Forall2_fmap_r, Forall_Forall2_diag, Forall_true. done. Qed.

(** The goroutines [l] do what is left, in order. *)
Lemma flush_rest a l : ∀ b s,
  Forall (λ g, ∀ v, g ≠ Testing v) l →
  ∃ s', rtc raise_step (s, a ++ l ++ b) (s', a ++ replicate (length l) Stored ++ b).
Proof.
  revert a. induction l as [|g l IH]; intros a b s Hl; [by exists s|].
  apply Forall_cons in Hl as [Hg Hl]. simpl.
  assert (Hrest : ∀ s1, ∃ s', rtc raise_step (s1, a ++ Stored :: l ++ b) (s', a ++ Stored :: replicate (length l) Stored ++ b)).
  { intros s1. destruct (IH (a ++ [Stored]) b s1 Hl) as [s' Hs']. exists s'. by rewrite <-!app_assoc in Hs'. }
  destruct g as [v|v|]; [by destruct (Hg v)| |apply Hrest].
  destruct (Hrest (set v s)) as [s' Hs']. exists s'. eapply rtc_l; [|exact Hs']. by apply raise_one.
Qed.

(** All of them test first. *)
Definition tested (v : Z) : raiser := if decide (get s0 < v)%Z then Storing v else Stored.

Lemma test_all a ws : rtc raise_step (s0, a ++ (Testing <$> ws)) (s0, a ++ (tested <$> ws)).
Proof.
  revert a. induction ws as [|w ws IH]; intros a; [apply rtc_refl|]. rewrite !fmap_cons.
  eapply rtc_l; [by apply (raise_one a (Testing w) _ (tested w) s0 s0)|].
  specialize (IH (a ++ [tested w])). by rewrite <-!app_assoc in IH.
Qed.

Lemma tested_tests ws : Forall (λ g, ∀ v, g ≠ Testing v) (tested <$> ws).
Proof. apply Forall_fmap, Forall_true. intros w v. simpl. unfold tested. by case_decide. Qed.

End outcomes.

(** Interleaved, the cell can end at any of the values above the one it had, and
    at no other; it keeps its value only when none is above it. *)
Lemma race_outcomes vs s w :
  (∃ s', settles vs s s' ∧ get s' = w)
  ↔ (w ∈ vs ∧ (get s < w)%Z) ∨ (w = get s ∧ Forall (λ v, (v ≤ get s)%Z) vs).
Proof.
  split.
  - intros (s' & Hs & <-). assert (Hinv : race_inv vs s (s', replicate (length vs) Stored)).
    { revert Hs. unfold settles. generalize (race_inv_start vs s). intros H0 Hs.
      induction Hs as [x|x y z Hxy _ IH]; [done|]. apply IH. by eapply race_step_inv. }
    destruct Hinv as [[Heq|[Hin Hlt]] Hf]; [right|by left]. simpl in *. split; [done|].
    rewrite Heq in Hf. clear -Hf. induction vs as [|v vs IH]; [done|].
    simpl in Hf. apply Forall2_cons in Hf as [Hv Hf]. constructor; [|by apply IH]. destruct Hv; simpl in *; lia.
  - intros [[Hin Hlt]|[-> Hall]].
    + apply list_elem_of_split in Hin as (l & r & ->). unfold settles.
      destruct (flush_rest [] (tested s <$> l) (Storing w :: (tested s <$> r)) s (tested_tests s l)) as [s1 H1].
      destruct (flush_rest (replicate (length (tested s <$> l)) Stored ++ [Storing w]) (tested s <$> r) [] s1 (tested_tests s r)) as [s2 H2].
      exists (set w s2). split; [|apply get_set].
      etrans; [apply (test_all s [])|]. cbn [app]. rewrite fmap_app, fmap_cons.
      assert (tested s w = Storing w) as -> by (unfold tested; by rewrite decide_True).
      etrans; [exact H1|]. rewrite <-!app_assoc, !app_nil_r in H2. etrans; [exact H2|].
      rewrite length_app, replicate_add. cbn [length replicate]. rewrite !length_fmap.
      apply rtc_once. by apply raise_one.
    + exists s. split; [|done]. unfold settles. etrans; [apply (test_all s [])|]. cbn [app].
      replace (tested s <$> vs) with (replicate (length vs) Stored); [apply rtc_refl|].
      induction Hall as [|v vs Hv Hall IH]; [done|]. cbn [length replicate]. rewrite fmap_cons, <-IH.
      unfold tested. by rewrite decide_False by lia.
Qed.

End cell.

(** ** The current view *)

Section view.
Context {HS T : Type} `{HotStuff HS T}.
Implicit Types (p : RoundRobinPM HS).

(** Undisturbed, it is what the handlers do. *)
Lemma UpdateQcHigh_alone v qc p : UpdateQcHigh v qc p = (Ok tt, raise_alone curView set_curView v p).
Proof. unfold UpdateQcHigh, raise_alone. rewrite run_gets. by case_decide. Qed.

Lemma start_view_alone p pv : set_curView (start_view p pv) p = raise_alone curView set_curView pv p.
Proof. unfold start_view, raise_alone. case_decide; [done|]. by destruct p. Qed.

(** C21 The current view can go back.  Goroutines announce the views [vs] to the
    pacemaker, each by the guarded store of [UpdateQcHigh].  Run one after the
    other they leave the largest of [vs] and the current view.  Interleaved
    between test and store they can leave any announced view above the one the
    replica was in, however many higher ones have been stored meanwhile, and
    nothing else; the view is unchanged exactly when none is above it. *)
Theorem view_race vs p :
  curView (foldl (λ p v, (UpdateQcHigh v None p).2) p vs) = foldl Z.max (curView p) vs
  ∧ ∀ w, (∃ p', settles curView set_curView vs p p' ∧ curView p' = w)
      ↔ (w ∈ vs ∧ (curView p < w)%Z) ∨ (w = curView p ∧ Forall (λ v, (v ≤ curView p)%Z) vs).
Proof.
  split; [|intros w; by apply race_outcomes].
  rewrite <-(serial_max curView set_curView) by done. f_equal. revert p.
  induction vs as [|v vs IH]; intros p; [done|]. simpl. by rewrite UpdateQcHigh_alone, IH.
Qed.

End view.

(** ** The vote height *)

Section height.
Context {DB : Type} `{DatabaseLaws DB string (Block QCRef)}.
Implicit Types (s : HotStuffCore DB) (b : Block QCRef).

(** The conditions of the voting rule other than the height. *)
Definition safe_to_vote s b : Prop :=
  ∃ jb lb, qc_block s (Justify b) = Some jb ∧ qc_block s (lockedQC s) = Some lb
    ∧ ((Height lb < Height jb)%Z ∨ extends_lock s b lb).

(** Undisturbed, a block that meets them raises the vote height as the rule does. *)
Lemma vote_rule_alone b s :
  core_wf s → block_ok (length (qcHeap s)) b → safe_to_vote s b →
  (vote_rule b s).2 ≡ raise_alone voteHeight set_voteHeight (Height b) s.
Proof.
  intros Hwf Hb Hsafe. destruct (wp_run _ _ _ (wp_vote_rule b s Hwf Hb)) as (s0 & He & _ & ->). rewrite He.
  unfold apply_rule, raise_alone. case_decide as Hr; case_decide as Hh; try done.
  - apply rule_true in Hr as [? _]. lia.
  - destruct Hr. apply rule_true. by split.
Qed.

(** The vote height can go back.  Proposals of the blocks [bs], all of which meet
    the other conditions of the voting rule, are received at the same time:
    between the test of the vote height and its store their handlers can leave
    it at the height of any of them above the old one, below that of blocks
    already voted for. *)
Theorem height_race bs s w :
  core_wf s → Forall (λ b, block_ok (length (qcHeap s)) b ∧ safe_to_vote s b) bs →
  (∀ b, b ∈ bs → (vote_rule b s).2 ≡ raise_alone voteHeight set_voteHeight (Height b) s)
  ∧ ((∃ s', settles voteHeight set_voteHeight (Height <$> bs) s s' ∧ voteHeight s' = w)
     ↔ (w ∈ Height <$> bs ∧ (voteHeight s < w)%Z)
       ∨ (w = voteHeight s ∧ Forall (λ v, (v ≤ voteHeight s)%Z) (Height <$> bs))).
Proof.
  intros Hwf Hall. split; [|by apply race_outcomes].
  intros b Hb. rewrite Forall_forall in Hall. destruct (Hall b Hb). by apply vote_rule_alone.
Qed.

End height.
