(* ===== verification/PacemakerLive.v ===== *)
(** * The leader's progress ([OnQcFinishEvent] and [OnBeat] of
    [pacemaker/roundrobin.go])

    What a replica does with a completed certificate and with a queued command,
    on every branch, and the step that keeps the protocol moving: the leader of
    the view after a completed certificate enters that view and proposes its first
    queued command on the highest certificate. *)

From stdpp Require Import base numbers fin_maps gmap sets strings list.
From S2P Require Import Prelude GoMonad Types Entity Pacemaker PacemakerProps.

Section progress.
Context {HS T : Type} `{HotStuff HS T} (conf : PMConf).
Implicit Types (p : RoundRobinPM HS).

Local Abbreviation N := (md_N (metadata conf)).

(** [m] only reads, and returns [a]. *)
Definition reads {A} (m : M HS A) (h : HS) (a : A) : Prop := m h = (Ok a, h).

Lemma lift_reads {A B} (m : M HS A) (k : A → M (RoundRobinPM HS) B) a p :
  reads m (hotstuff p) a → (lift m ≫= k) p = k a p.
Proof. intros Hm. unfold mbind, M_bind, lift. rewrite Hm. by destruct p. Qed.

Lemma GetLeader_bind {B} view (k : Z → M (RoundRobinPM HS) B) p :
  N ≠ 0%Z → (GetLeader conf view ≫= k) p = k (leader_of conf view) p.
Proof. intros HN. by rewrite (run_bind_Ok _ _ _ _ _ (GetLeader_run conf view p HN)). Qed.

(** The state in which a view has been entered and a goroutine started. *)
Definition entered (view : Z) (task : Task) p : RoundRobinPM HS :=
  set_spawned (spawned p ++ [task]) (set_curView view p).

Lemma set_curView_id p : set_curView (curView p) p = p.
Proof. by destruct p. Qed.

(** [OnQcFinishEvent] on every branch: catch up with the certificate's view; the
    leader of the next view enters it and starts on its queue, or on another view
    change when the queue is empty; the others change view. *)
Lemma OnQcFinishEvent_run qc q p :
  N ≠ 0%Z → reads (hs_read qc) (hotstuff p) q →
  let view := Z.max (curView p) (qc_ViewNumber q) in
  OnQcFinishEvent conf qc p
  = (Ok tt,
     if decide (leader_of conf view = replicaId conf) then
       entered (wrap64 (view + 1)) (if decide (submitC p = []) then TaskNextSyncView else TaskBeat) p
     else entered view TaskNextSyncView p).
Proof.
  intros HN Hq view. unfold OnQcFinishEvent. rewrite (lift_reads _ _ q) by done. rewrite run_gets.
  set (k := λ _ : unit, _). set (p1 := set_curView view p).
  assert (((if decide (curView p < qc_ViewNumber q)%Z then storeView (qc_ViewNumber q) else mret tt) ≫= k) p
          = k tt p1) as ->.
  { unfold p1, view. case_decide as Hlt.
    - rewrite Z.max_r by lia. done.
    - rewrite Z.max_l by lia. by rewrite set_curView_id. }
  unfold k. rewrite run_gets, GetLeader_bind by done. change (curView p1) with view.
  case_decide as Hl; [|done]. unfold addView. rewrite run_modify, run_gets, GetLeader_bind by done.
  rewrite run_gets. assert (∀ v, submitC (set_curView v p1) = submitC p) as Hc by done.
  rewrite Hc. destruct (submitC p) as [|s c]; done.
Qed.

(** [OnBeat] by the leader: the first command is proposed on the highest
    certificate. *)
Lemma OnBeat_leader t s c h hq p :
  N ≠ 0%Z → submitC p = s :: c → Z.rem (curView p) N = replicaId conf →
  reads hs_GetHighQC (hotstuff p) h → reads (hs_read h) (hotstuff p) hq →
  OnBeat conf t p
  = (_ ← try (lift (hs_OnPropose t (curView p) (qc_BlockHash hq) s)); mret tt) (set_submitC c p).
Proof.
  intros HN Hs Hl Hh Hhq. unfold OnBeat. rewrite run_gets, Hs, run_modify, run_gets.
  unfold GetCurLeader. rewrite decide_False by done. rewrite (run_bind_Ok _ _ _ _ _ (run_ret _ _)).
  cbn [curView set_submitC]. rewrite decide_False by (intros Hne; apply Hne; exact Hl).
  rewrite run_gets, (lift_reads _ _ h), (lift_reads _ _ hq) by done. done.
Qed.

(** C18 leader_proposes: when the certificate of a block is complete, the replica that
    leads the following view and has a command queued enters that view and
    proposes the command there, as a child of the block its highest certificate
    names: [OnQcFinishEvent] starts [OnBeat], and [OnBeat] calls [OnPropose]; the
    command leaves the queue and nothing else of the pacemaker changes. *)
Theorem leader_proposes t qc q s c h hq p :
  N ≠ 0%Z → reads (hs_read qc) (hotstuff p) q →
  reads hs_GetHighQC (hotstuff p) h → reads (hs_read h) (hotstuff p) hq →
  let view := Z.max (curView p) (qc_ViewNumber q) in
  leader_of conf view = replicaId conf → submitC p = s :: c →
  let next := wrap64 (view + 1) in
  let p1 := (OnQcFinishEvent conf qc p).2 in
  curView p1 = next ∧ spawned p1 = spawned p ++ [TaskBeat] ∧
  run_task conf t TaskBeat p1
  = (_ ← try (lift (hs_OnPropose t next (qc_BlockHash hq) s)); mret tt)
      (MkPM (hotstuff p) next (views p) c (timerArmed p) (executed p) (spawned p ++ [TaskBeat])).
Proof.
  intros HN Hq Hh Hhq view Hl Hs next p1. unfold p1. rewrite (OnQcFinishEvent_run qc q p HN Hq). fold view.
  rewrite decide_True by done. rewrite decide_False by (by rewrite Hs). split_and!; [done|done|].
  simpl. fold next. erewrite OnBeat_leader; [|done|done|exact Hl|done|done]. done.
Qed.

End progress.

(** ** Witness: replica 0 of four completes a certificate of view 3 *)

Module ToyLive.
Import ToyPM.

Definition busy : RoundRobinPM (list Z) := set_submitC [[]] pm.

Lemma leader_proposes_witness :
  let p1 := (OnQcFinishEvent conf (Some 0%nat) busy).2 in
  leader_of conf 3 = replicaId conf ∧ curView p1 = 4%Z ∧ spawned p1 = [TaskBeat].
Proof.
  destruct (leader_proposes conf tt (Some 0%nat) (MkQuorumCert 3 [] None) [] [] (Some 0%nat)
    (MkQuorumCert 3 [] None) busy) as (Hv & Hs & _); try reflexivity; try discriminate.
  split; [reflexivity|]. split; [exact Hv|exact Hs].
Defined.

End ToyLive.
