(* ===== verification/Transport.v ===== *)
(** * The broadcast server ([transport/abserver.go], [api/transport.go])

    [abServer] keeps one outgoing stream per connected replica.  A stream is
    the queue of messages handed to it; [Handshake] registers it, and a failed
    [Send] removes whatever stream is registered for that replica.  The gRPC
    context is given by the metadata and peer it carries. *)

From stdpp Require Import base numbers fin_maps gmap sets strings list.
From Stdlib Require Import Ascii.
From S2P Require Import Prelude GoMonad.

Section abserver.
Context {Msg : Type}.

Record abServer := MkABServer { sendChan : gmap Z (list Msg) }.

Definition NewABServer : abServer := MkABServer ∅.

(** [Handshake] up to its loop: a new stream replaces the old one. *)
Definition Handshake (src : Z) (a : abServer) : abServer := MkABServer (<[src := []]> (sendChan a)).

(** A [Send] error in the loop of [Handshake]. *)
Definition Handshake_send_failed (src : Z) (a : abServer) : abServer :=
  MkABServer (delete src (sendChan a)).

Definition Broadcast (msg : option Msg) : M abServer unit :=
  match msg with
  | None => fail ErrNilMessage
  | Some m => modify (λ a, MkABServer ((λ q, q ++ [m]) <$> sendChan a))
  end.

Definition Unicast (msg : option Msg) (dest : Z) : M abServer unit :=
  match msg with
  | None => fail ErrNilMessage
  | Some m =>
      chans ← gets sendChan;
      match chans !! dest with
      | None => fail (ErrInvalidReplica dest)
      | Some q => modify (λ a, MkABServer (<[dest := q ++ [m]]> (sendChan a)))
      end
  end.

(** What a replica has been sent, [None] when it is not connected. *)
Definition stream (a : abServer) (i : Z) : option (list Msg) := sendChan a !! i.

(** Message delivery: a unicast appends the message to the destination's
    stream and touches no other, and fails exactly when the destination has no
    stream; a broadcast appends it to every stream; a nil message is refused. *)
Theorem transport_delivers (msg : Msg) (dest i : Z) (a : abServer) :
  (if decide (is_Some (stream a dest)) then (Unicast (Some msg) dest a).1 = Ok tt
   else Unicast (Some msg) dest a = (Fail (ErrInvalidReplica dest), a))
  ∧ stream (Unicast (Some msg) dest a).2 i
    = (if decide (i = dest) then (λ q, q ++ [msg]) <$> stream a i else stream a i)
  ∧ stream (Broadcast (Some msg) a).2 i = (λ q, q ++ [msg]) <$> stream a i
  ∧ Unicast None dest a = (Fail ErrNilMessage, a) ∧ Broadcast None a = (Fail ErrNilMessage, a).
Proof.
  unfold Unicast. rewrite run_gets. unfold stream. split_and!; try done.
  - destruct (sendChan a !! dest) as [q|]; [by rewrite decide_True by eauto|].
    by rewrite decide_False by (by intros [? ?]).
  - destruct (sendChan a !! dest) as [q|] eqn:Hd; simpl; case_decide as Hi; subst.
    + by rewrite lookup_insert_eq, Hd.
    + by rewrite lookup_insert_ne.
    + by rewrite Hd.
    + done.
  - simpl. apply lookup_fmap.
Qed.

(** A stale connection's failure removes the new one: after a replica has
    reconnected, an error on the stream of its old connection deletes the
    stream of the new connection, and messages to the replica are refused. *)
Theorem stale_failure_disconnects (msg : Msg) (src : Z) (a : abServer) :
  let reconnected := Handshake src (Handshake src a) in
  (Unicast (Some msg) src reconnected).1 = Ok tt
  ∧ (Unicast (Some msg) src (Handshake_send_failed src reconnected)).1 = Fail (ErrInvalidReplica src).
Proof.
  unfold Unicast. rewrite !run_gets. simpl. split.
  - by rewrite lookup_insert_eq.
  - by rewrite lookup_delete_eq.
Qed.

End abserver.
Arguments abServer : clear implicits.

(** ** The remote replica's id *)

Definition digit (c : ascii) : option Z :=
  let n := Z.of_nat (nat_of_ascii c) in
  if decide (48 ≤ n ≤ 57)%Z then Some (n - 48)%Z else None.

Fixpoint digits (acc : Z) (s : string) : option Z :=
  match s with
  | EmptyString => Some acc
  | String c s => match digit c with
                  | Some d => digits (acc * 10 + d)%Z s
                  | None => None
                  end
  end.

(** The value [strconv.Atoi] returns, whatever its error: 0 on a syntax error,
    the nearest [int64] when out of range. *)
Definition Atoi (s : string) : Z :=
  let '(neg, body) := match s with
                      | String "+" s' => (false, s')
                      | String "-" s' => (true, s')
                      | _ => (false, s)
                      end in
  match body with
  | EmptyString => 0
  | _ => match digits 0 body with
         | None => 0
         | Some n => if neg : bool then Z.max (- 2 ^ 63) (- n) else Z.min (2 ^ 63 - 1) n
         end
  end%Z.

(** [extractRemoteAddress]: [None] is the panic of [value[0]] on an empty list;
    [peer] is the context's peer with its address, if it has one. *)
Definition extractRemoteAddress (md : option (gmap string (list string)))
    (peer : option (option string)) : option (string * Z) :=
  replicaId ← match md ≫= lookup "replicaid" with
              | None => Some 0%Z
              | Some value => Atoi <$> head value
              end;
  match peer with
  | None => Some (EmptyString, 0%Z)
  | Some address => Some (default EmptyString address, replicaId)
  end.

Example extract_replica :
  extractRemoteAddress (Some {["replicaid" := ["3"]]}) (Some (Some "127.0.0.1:8001"))
  = Some ("127.0.0.1:8001", 3%Z)
  ∧ Atoi "-12" = (-12)%Z ∧ Atoi "x1" = 0%Z ∧ Atoi "99999999999999999999" = (2 ^ 63 - 1)%Z.
Proof. vm_compute. done. Qed.
