(* ===== verification/TransportConc.v ===== *)
(** * The broadcast server's goroutines ([transport/abserver.go])

    [Transport] runs each method of [abServer] in one step.  Here the goroutines
    are interleaved at their blocking points: the reader-writer lock
    [sendLock], the unbuffered channel of each stream, and [srv.Send].  A thread
    is a caller of [Broadcast] or [Unicast], or a [Handshake] handler; a step
    is one acquisition of the lock with what is done under it, one exchange on
    a channel, or one completed [Send].  Go's [sync.RWMutex] admits no new
    reader while a writer waits. *)

From stdpp Require Import base numbers fin_maps gmap sets strings list relations.
From S2P Require Import Prelude GoMonad.

Section conc.
Context {Msg : Type}.

Inductive thread :=
| BcastStart (m : Msg)                       (* Broadcast, before RLock *)
| UniStart (m : Msg) (dest : Z)              (* Unicast, before RLock *)
| Sending (m : Msg) (todo : list nat)        (* holds RLock; channels still to send on *)
| SendDone
| HandStart (src : Z)                        (* Handshake, before Lock *)
| HandLocking (src : Z)                      (* Handshake, waiting in Lock *)
| HandRecv (src : Z) (c : nat)               (* range ch *)
| HandSend (src : Z) (c : nat) (m : Msg)     (* in srv.Send *)
| HandFailed (src : Z) (c : nat)             (* Send failed, waiting in Lock *)
| HandExit.

(** [chans] is [sendChan]; channels are numbered; [waiting] are the threads
    blocked in [Lock], [readers] those that hold the read lock. *)
Record conc := MkConc {
  chans : gmap Z nat;
  closed : gset nat;
  readers : gset nat;
  waiting : gset nat;
  threads : gmap nat thread }.

Definition NewConc : conc := MkConc ∅ ∅ ∅ ∅ ∅.

Definition set_thread (i : nat) (t : thread) (s : conc) : conc :=
  MkConc (chans s) (closed s) (readers s) (waiting s) (<[i := t]> (threads s)).
Definition set_readers (r : gset nat) (s : conc) : conc :=
  MkConc (chans s) (closed s) r (waiting s) (threads s).
Definition set_waiting (w : gset nat) (s : conc) : conc :=
  MkConc (chans s) (closed s) (readers s) w (threads s).
Definition set_chans (m : gmap Z nat) (s : conc) : conc :=
  MkConc m (closed s) (readers s) (waiting s) (threads s).
Definition set_closed (c : gset nat) (s : conc) : conc :=
  MkConc (chans s) c (readers s) (waiting s) (threads s).

(** The channel a handler reads from. *)
Definition chan_of (t : thread) : option nat :=
  match t with
  | HandRecv _ c | HandSend _ c _ | HandFailed _ c => Some c
  | _ => None
  end.

(** A channel no handler and no closed stream has used. *)
Definition unused (c : nat) (s : conc) : Prop :=
  (c ∉ closed s) ∧ (∀ i t, threads s !! i = Some t → chan_of t ≠ Some c).

(** The channel [close]d when a replica connects again. *)
Definition closing (src : Z) (s : conc) : gset nat :=
  match chans s !! src with Some c => {[c]} | None => ∅ end.

Inductive step : relation conc :=
(** a new goroutine *)
| step_spawn i t s :
    threads s !! i = None →
    (∃ m, t = BcastStart m) ∨ (∃ m d, t = UniStart m d) ∨ (∃ src, t = HandStart src) →
    step s (set_thread i t s)
(** Broadcast: RLock, then the streams in some order *)
| step_bcast i m todo s :
    threads s !! i = Some (BcastStart m) → waiting s = ∅ → todo ≡ₚ (map_to_list (chans s)).*2 →
    step s (set_thread i (Sending m todo) (set_readers ({[i]} ∪ readers s) s))
(** Unicast: RLock, then the destination's stream or an error *)
| step_uni i m d s :
    threads s !! i = Some (UniStart m d) → waiting s = ∅ →
    step s (match chans s !! d with
            | Some c => set_thread i (Sending m [c]) (set_readers ({[i]} ∪ readers s) s)
            | None => set_thread i SendDone s
            end)
(** ch <- msg meets range ch *)
| step_exchange i h m c todo src s :
    threads s !! i = Some (Sending m (c :: todo)) → threads s !! h = Some (HandRecv src c) →
    step s (set_thread h (HandSend src c m) (set_thread i (Sending m todo) s))
(** RUnlock *)
| step_runlock i m s :
    threads s !! i = Some (Sending m []) →
    step s (set_thread i SendDone (set_readers (readers s ∖ {[i]}) s))
(** srv.Send returns nil *)
| step_sent h src c m s :
    threads s !! h = Some (HandSend src c m) → step s (set_thread h (HandRecv src c) s)
(** srv.Send returns an error *)
| step_failed h src c m s :
    threads s !! h = Some (HandSend src c m) →
    step s (set_thread h (HandFailed src c) (set_waiting ({[h]} ∪ waiting s) s))
(** Lock; delete(a.sendChan, src); Unlock *)
| step_delete h src c s :
    threads s !! h = Some (HandFailed src c) → readers s = ∅ →
    step s (set_thread h (HandRecv src c)
              (set_waiting (waiting s ∖ {[h]}) (set_chans (delete src (chans s)) s)))
(** Handshake calls Lock *)
| step_lock h src s :
    threads s !! h = Some (HandStart src) →
    step s (set_thread h (HandLocking src) (set_waiting ({[h]} ∪ waiting s) s))
(** Lock; close the old stream; register the new one; Unlock *)
| step_register h src c s :
    threads s !! h = Some (HandLocking src) → readers s = ∅ → unused c s →
    step s (set_thread h (HandRecv src c)
              (set_waiting (waiting s ∖ {[h]})
                 (set_chans (<[src := c]> (chans s)) (set_closed (closing src s ∪ closed s) s))))
(** the stream was closed *)
| step_exit h src c s :
    threads s !! h = Some (HandRecv src c) → c ∈ closed s → step s (set_thread h HandExit s).

(** ** Invariants *)

(** The channel has a handler that has not ended. *)
Definition live (s : conc) (c : nat) : Prop :=
  (c ∉ closed s) ∧ ∃ h t, threads s !! h = Some t ∧ chan_of t = Some c.

Record conc_inv (s : conc) : Prop := {
  inv_owner i j t u c : threads s !! i = Some t → threads s !! j = Some u →
    chan_of t = Some c → chan_of u = Some c → i = j;
  inv_chans src c : chans s !! src = Some c → live s c;
  inv_inj src src' c : chans s !! src = Some c → chans s !! src' = Some c → src = src';
  inv_sending i m todo : threads s !! i = Some (Sending m todo) →
    i ∈ readers s ∧ ∀ c, c ∈ todo → live s c;
  inv_failed h src c : threads s !! h = Some (HandFailed src c) → h ∈ waiting s }.

(** A thread moves on without leaving the channel it reads from. *)
Lemma live_insert s s' i t c :
  threads s' = <[i := t]> (threads s) →
  (∀ t0, threads s !! i = Some t0 → chan_of t0 = Some c → chan_of t = Some c) →
  live s c → (c ∉ closed s') → live s' c.
Proof.
  intros Hth Hk [_ (h & u & Hh & Hu)] Hcl. split; [done|]. rewrite Hth.
  destruct (decide (h = i)) as [-> | Hne].
  - exists i, t. rewrite lookup_insert_eq. eauto.
  - exists h, u. by rewrite lookup_insert_ne.
Qed.

Lemma inv_thread s i mt t r w :
  threads s !! i = mt → chan_of t = mt ≫= chan_of →
  (∀ m todo, t = Sending m todo → i ∈ r ∧ ∀ c, c ∈ todo → live s c) →
  (∀ src c, t = HandFailed src c → i ∈ w) →
  (∀ j, j ≠ i → (j ∈ readers s → j ∈ r) ∧ (j ∈ waiting s → j ∈ w)) →
  conc_inv s → conc_inv (MkConc (chans s) (closed s) r w (<[i := t]> (threads s))).
Proof.
  intros Hi Hc Hsend Hfail Hrw [Ho Hch Hinj Hs Hf].
  assert (Hlive : ∀ c, live s c → live (MkConc (chans s) (closed s) r w (<[i := t]> (threads s))) c).
  { intros c Hl. eapply live_insert; [done| |exact Hl|apply Hl].
    intros t0 Ht0 Hc0. rewrite Hc, <- Hi, Ht0. done. }
  assert (Hown : ∀ a u c, <[i := t]> (threads s) !! a = Some u → chan_of u = Some c →
            ∃ u', threads s !! a = Some u' ∧ chan_of u' = Some c).
  { intros a u c Ha Hu. rewrite lookup_insert_Some in Ha. destruct Ha as [[<- <-] | [_ Ha]]; [|eauto].
    rewrite Hc in Hu. destruct mt as [t0|]; [|done]. eauto. }
  split; simpl.
  - intros a b u v c Ha Hb Hu Hv.
    destruct (Hown _ _ _ Ha Hu) as (? & ? & ?), (Hown _ _ _ Hb Hv) as (? & ? & ?). eauto.
  - eauto.
  - eauto.
  - intros j m todo Hj. rewrite lookup_insert_Some in Hj.
    destruct Hj as [[<- ->] | [Hne Hj]].
    + destruct (Hsend _ _ eq_refl); eauto.
    + destruct (Hs _ _ _ Hj). split; [apply Hrw|]; eauto.
  - intros h src c Hh. rewrite lookup_insert_Some in Hh.
    destruct Hh as [[<- ->] | [Hne Hh]]; [eauto|]. apply Hrw; eauto.
Qed.

Lemma inv_chans_shrink s m : m ⊆ chans s → conc_inv s → conc_inv (set_chans m s).
Proof.
  intros Hm [Ho Hch Hinj Hs Hf]. split; simpl; eauto using lookup_weaken.
Qed.

(** A handler registers an unused channel while nobody sends. *)
Lemma inv_register s h src c :
  threads s !! h = Some (HandLocking src) → readers s = ∅ → unused c s → conc_inv s →
  conc_inv (set_thread h (HandRecv src c)
              (set_waiting (waiting s ∖ {[h]})
                 (set_chans (<[src := c]> (chans s)) (set_closed (closing src s ∪ closed s) s)))).
Proof.
  intros Hh Hr [Hcl Huse] [Ho Hch Hinj Hs Hf].
  assert (Hnc : ∀ src' c', chans s !! src' = Some c' → c' ≠ c).
  { intros src' c' Hl ->. destruct (Hch _ _ Hl) as [_ (h' & t & Ht & Hc)]. by eapply Huse. }
  split; simpl.
  - intros a b u v d Ha Hb Hu Hv. rewrite lookup_insert_Some in Ha. rewrite lookup_insert_Some in Hb.
    destruct Ha as [[<- <-] | [_ Ha]], Hb as [[<- <-] | [_ Hb]]; simpl in *; simplify_eq;
      eauto; exfalso; eapply Huse; eauto.
  - intros src' d Hd. rewrite lookup_insert_Some in Hd. destruct Hd as [[<- <-] | [Hne Hd]].
    + split; simpl.
      * intros [Hin|Hin]%elem_of_union; [|done]. unfold closing in Hin.
        destruct (chans s !! src) as [c0|] eqn:E; [|set_solver].
        apply elem_of_singleton in Hin as <-. by eapply Hnc.
      * exists h, (HandRecv src c). by rewrite lookup_insert_eq.
    + eapply (live_insert s); [done| |by eauto|].
      * intros t0 Ht0 Hc0. rewrite Hh in Ht0. by injection Ht0 as <-.
      * simpl. intros [Hin|Hin]%elem_of_union; [|by destruct (Hch _ _ Hd)]. unfold closing in Hin.
        destruct (chans s !! src) as [c0|] eqn:E; [|set_solver].
        apply elem_of_singleton in Hin as ->. by apply Hne, (Hinj _ _ c0).
  - intros a b d Ha Hb. rewrite lookup_insert_Some in Ha. rewrite lookup_insert_Some in Hb.
    destruct Ha as [[<- <-] | [_ Ha]], Hb as [[<- Hb] | [_ Hb]]; simplify_eq; eauto;
      exfalso; eapply Hnc; eauto.
  - intros i m todo Hi. rewrite lookup_insert_Some in Hi. destruct Hi as [[_ [=]] | [_ Hi]].
    destruct (Hs _ _ _ Hi) as [Hin _]. rewrite Hr in Hin. set_solver.
  - intros j src' d Hj. rewrite lookup_insert_Some in Hj. destruct Hj as [[_ [=]] | [Hne Hj]].
    apply Hf in Hj. set_solver.
Qed.

Lemma inv_exit s h src c :
  threads s !! h = Some (HandRecv src c) → c ∈ closed s → conc_inv s → conc_inv (set_thread h HandExit s).
Proof.
  intros Hh Hc [Ho Hch Hinj Hs Hf].
  assert (Hlive : ∀ d, live s d → live (set_thread h HandExit s) d).
  { intros d Hd. eapply (live_insert s); [done| |done|apply Hd].
    intros t0 Ht0 Hd0. rewrite Hh in Ht0. injection Ht0 as <-. injection Hd0 as <-. by destruct Hd. }
  split; simpl; eauto.
  - intros a b u v d Ha Hb Hu Hv. rewrite lookup_insert_Some in Ha. rewrite lookup_insert_Some in Hb.
    destruct Ha as [[<- <-] | [_ Ha]], Hb as [[<- <-] | [_ Hb]]; eauto; done.
  - intros i m todo Hi. rewrite lookup_insert_Some in Hi. destruct Hi as [[_ [=]] | [_ Hi]].
    destruct (Hs _ _ _ Hi). eauto.
  - intros j src' d Hj. rewrite lookup_insert_Some in Hj. destruct Hj as [[_ [=]] | [_ Hj]]. eauto.
Qed.

Ltac member_tac :=
  intros; simplify_eq; simpl; rewrite ?elem_of_union, ?elem_of_difference, ?elem_of_singleton; intuition congruence.
Ltac thread_tac s :=
  eapply (inv_thread s); [eassumption|done|try done|try done; member_tac|simpl; member_tac|try done].

Lemma step_inv s s' : step s s' → conc_inv s → conc_inv s'.
Proof.
  intros Hst Hinv. pose proof Hinv as [Ho Hch Hinj Hs Hf].
  destruct Hst as [i t s Hi Ht|i m todo s Hi Hw Hp|i m d s Hi Hw|i h m c todo src s Hi Hh|i m s Hi
                  |h src c m s Hh|h src c m s Hh|h src c s Hh Hr|h src s Hh|h src c s Hh Hr Hu|h src c s Hh Hc].
  - destruct Ht as [[m ->] | [(m & d & ->) | [src ->]]]; thread_tac s.
  - thread_tac s. intros m' todo' [= <- <-]. split; [set_solver|]. intros c Hc. rewrite Hp in Hc.
    apply list_elem_of_fmap in Hc as ([src c'] & -> & Hc). apply elem_of_map_to_list in Hc. by eapply Hch.
  - destruct (chans s !! d) as [c|] eqn:E; thread_tac s.
    intros m' todo' [= <- <-]. split; [set_solver|]. intros c' ->%list_elem_of_singleton. eauto.
  - assert (conc_inv (set_thread i (Sending m todo) s)) as Hinv'.
    { thread_tac s. intros m' todo' [= <- <-]. destruct (Hs _ _ _ Hi). split; [done|]. set_solver. }
    assert (i ≠ h) by congruence.
    assert (threads (set_thread i (Sending m todo) s) !! h = Some (HandRecv src c)) as Hh'.
    { simpl. by rewrite lookup_insert_ne. }
    thread_tac (set_thread i (Sending m todo) s).
  - thread_tac s.
  - thread_tac s.
  - thread_tac s.
  - assert (conc_inv (set_chans (delete src (chans s)) s)) as Hinv'.
    { apply inv_chans_shrink; [apply delete_subseteq|done]. }
    assert (threads (set_chans (delete src (chans s)) s) !! h = Some (HandFailed src c)) as Hh' by done.
    thread_tac (set_chans (delete src (chans s)) s).
  - thread_tac s.
  - by apply inv_register.
  - by eapply inv_exit.
Qed.

Definition reachable (s : conc) : Prop := rtc step NewConc s.

Lemma reachable_inv s : reachable s → conc_inv s.
Proof.
  intros Hr. unfold reachable in Hr. remember NewConc as s0 eqn:E.
  assert (conc_inv s0) as H0.
  { subst. split; simpl; intros *; rewrite ?lookup_empty; try done; set_solver. }
  clear E. induction Hr; eauto using step_inv.
Qed.

(** ** No panic on a channel *)

(** C30 streams_safe: however the goroutines interleave, no sender ever reaches a
    closed channel and no registered channel is closed twice (both would panic),
    every registered stream has exactly one handler, and two replicas never
    share a stream. *)
Theorem streams_safe s :
  reachable s →
  (∀ i m todo c, threads s !! i = Some (Sending m todo) → c ∈ todo → c ∉ closed s) ∧
  (∀ src c, chans s !! src = Some c →
     (c ∉ closed s) ∧ (exists! h, chan_of <$> threads s !! h = Some (Some c)) ∧
     ∀ src', chans s !! src' = Some c → src' = src).
Proof.
  intros Hr. destruct (reachable_inv _ Hr) as [Ho Hch Hinj Hs Hf]. split.
  - intros i m todo c Hi Hc. destruct (Hs _ _ _ Hi) as [_ Hl]. by apply Hl.
  - intros src c Hc. destruct (Hch _ _ Hc) as [Hcl (h & t & Ht & Hct)]. split_and!; eauto.
    exists h. split; [by rewrite Ht, <- Hct|]. intros h' Hh'.
    apply fmap_Some in Hh' as (t' & Ht' & Hc'). by eapply Ho.
Qed.

(** ** A failed send freezes the server *)

(** What a goroutine may still become. *)
Definition held_up (t t' : thread) : Prop :=
  match t with
  | BcastStart _ | UniStart _ _ | HandFailed _ _ => t' = t
  | HandStart src | HandLocking src => t' = HandStart src ∨ t' = HandLocking src
  | _ => True
  end.

Definition frozen (i h c : nat) (m : Msg) (s : conc) : Prop :=
  conc_inv s ∧ (∃ todo, threads s !! i = Some (Sending m todo) ∧ c ∈ todo) ∧
  ∃ src, threads s !! h = Some (HandFailed src c).

Lemma frozen_lock i h c m s : frozen i h c m s → readers s ≠ ∅ ∧ waiting s ≠ ∅ ∧ i ≠ h.
Proof.
  intros ([_ _ _ Hs Hf] & (todo & Hi & _) & src & Hh). apply Hs in Hi as Hri. apply Hf in Hh as Hwh.
  split_and!; [set_solver..|congruence].
Qed.

(** The channel's only handler is the one that waits for the lock. *)
Lemma frozen_handler i h c m s j src :
  frozen i h c m s → threads s !! j = Some (HandRecv src c) → False.
Proof.
  intros ([Ho _ _ _ _] & _ & src' & Hh) Hj.
  assert (j = h) as -> by (eapply Ho; eauto; done). congruence.
Qed.

Ltac insert_tac :=
  repeat (rewrite ?lookup_insert_eq; rewrite ?lookup_insert_ne by congruence; simpl).

(** What a step must leave as it is. *)
Definition stays_frozen (i h c : nat) (m : Msg) (s s' : conc) : Prop :=
  frozen i h c m s' ∧ chans s' = chans s ∧
  ∀ j t, threads s !! j = Some t → ∃ t', threads s' !! j = Some t' ∧ held_up t t'.

Lemma held_up_refl t : held_up t t.
Proof. destruct t; simpl; auto. Qed.

Lemma held_up_trans t1 t2 t3 : held_up t1 t2 → held_up t2 t3 → held_up t1 t3.
Proof. destruct t1; simpl; auto; intros ?; naive_solver. Qed.

(** A thread other than the pair moves. *)
Lemma frozen_update i h c m s k mu u' r w :
  frozen i h c m s → threads s !! k = mu → (∀ u, mu = Some u → held_up u u') → k ≠ i → k ≠ h →
  conc_inv (MkConc (chans s) (closed s) r w (<[k := u']> (threads s))) →
  stays_frozen i h c m s (MkConc (chans s) (closed s) r w (<[k := u']> (threads s))).
Proof.
  intros (_ & (todo & Hi & Hc) & src & Hh) Hk Hu Hki Hkh Hinv. split_and!; [|done|].
  - split; [done|]. simpl. split; [exists todo|exists src]; by rewrite lookup_insert_ne.
  - intros j t Hj. simpl. destruct (decide (j = k)) as [-> | Hne].
    + exists u'. rewrite lookup_insert_eq. split; [done|]. apply Hu. congruence.
    + exists t. rewrite lookup_insert_ne by done. eauto using held_up_refl.
Qed.

Lemma frozen_exchange i h c m s k h' m' c' todo' src' :
  frozen i h c m s → c' ≠ c → threads s !! k = Some (Sending m' (c' :: todo')) →
  threads s !! h' = Some (HandRecv src' c') →
  conc_inv (set_thread h' (HandSend src' c' m') (set_thread k (Sending m' todo') s)) →
  stays_frozen i h c m s (set_thread h' (HandSend src' c' m') (set_thread k (Sending m' todo') s)).
Proof.
  intros (_ & (todo & Hi & Hc) & src & Hh) Hcc Hk Hh' Hinv. split_and!; [|done|].
  - split; [done|]. simpl. split; [|exists src; by rewrite !lookup_insert_ne by congruence].
    rewrite lookup_insert_ne by congruence. destruct (decide (k = i)) as [-> | Hki].
    + exists todo'. rewrite lookup_insert_eq. simplify_eq. split; [done|].
      apply elem_of_cons in Hc as [-> | Hc]; done.
    + exists todo. by rewrite lookup_insert_ne.
  - intros j u Hj. simpl. rewrite !lookup_insert. repeat case_decide; simplify_eq;
      (eexists; split; [done|]; first [done | apply held_up_refl]).
Qed.

Lemma frozen_step i h c m s s' : frozen i h c m s → step s s' → stays_frozen i h c m s s'.
Proof.
  intros Hfr Hst. pose proof (step_inv _ _ Hst (proj1 Hfr)) as Hinv'.
  pose proof (frozen_lock _ _ _ _ _ Hfr) as (Hr & Hw & Hih).
  pose proof Hfr as (_ & (todo & Hi & Hc) & src & Hh).
  destruct Hst as [k t s Hk Ht|k m' todo' s Hk|k m' d s Hk|k h' m' c' todo' src' s Hk Hh'|k m' s Hk
                  |k src' c' m' s Hk|k src' c' m' s Hk|k src' c' s Hk|k src' s Hk|k src' c' s Hk|k src' c' s Hk];
    try done; try (eapply (frozen_update i h c m s k); try done; try congruence; naive_solver).
  - eapply frozen_exchange; try done. intros ->. by eapply frozen_handler.
  - eapply (frozen_update i h c m s k); try done; [naive_solver| |congruence]. intros ->. simplify_eq. set_solver.
Qed.

Lemma frozen_forever i h c m s s' : frozen i h c m s → rtc step s s' → stays_frozen i h c m s s'.
Proof.
  intros Hfr Hst. induction Hst as [s|s s1 s' H1 _ IH].
  - split_and!; eauto using held_up_refl.
  - destruct (frozen_step _ _ _ _ _ _ Hfr H1) as (Hfr1 & Hc1 & Ht1).
    destruct (IH Hfr1) as (Hfr' & Hc' & Ht'). split_and!; [done|congruence|].
    intros j t Hj. destruct (Ht1 _ _ Hj) as (t1 & Hj1 & Hh1), (Ht' _ _ Hj1) as (t' & Hj' & Hh').
    eauto using held_up_trans.
Qed.

(** failed_send_deadlocks: once the [Send] to a replica has failed while a
    [Broadcast] or [Unicast] that holds the read lock still has that replica's
    stream ahead of it, the two wait for each other for ever: the sender stays
    inside the call, the stream stays registered, the stream table never changes
    again, no [Broadcast] or [Unicast] that has not begun gets the lock and no
    [Handshake] registers its stream, whatever else the program does. *)
Theorem failed_send_deadlocks s i h m todo src c :
  reachable s → threads s !! i = Some (Sending m todo) → c ∈ todo →
  threads s !! h = Some (HandFailed src c) →
  ∀ s', rtc step s s' →
    (∃ todo', threads s' !! i = Some (Sending m todo') ∧ c ∈ todo') ∧
    threads s' !! h = Some (HandFailed src c) ∧ chans s' = chans s ∧
    ∀ j t, threads s !! j = Some t → ∃ t', threads s' !! j = Some t' ∧ held_up t t'.
Proof.
  intros Hr Hi Hc Hh s' Hst.
  assert (Hfr : frozen i h c m s) by (split; [by apply reachable_inv|eauto]).
  destruct (frozen_forever _ _ _ _ _ _ Hfr Hst) as ((_ & Hsend & _) & Hch & Ht).
  split_and!; eauto. destruct (Ht _ _ Hh) as (t' & ? & ->). done.
Qed.

(** ** Otherwise the sender can finish *)

(** The handlers of the channels ahead have not failed. *)
Definition clear_ahead (s : conc) (todo : list nat) : Prop :=
  ∀ h src c, c ∈ todo → threads s !! h ≠ Some (HandFailed src c).

Lemma clear_ahead_update s k t todo :
  (∀ src c, t ≠ HandFailed src c) → clear_ahead s todo → clear_ahead (set_thread k t s) todo.
Proof.
  intros Ht Hcl h src c Hc Hh. simpl in Hh. rewrite lookup_insert_Some in Hh.
  destruct Hh as [[_ Hh] | [_ Hh]]; [by eapply Ht|by eapply Hcl].
Qed.

(** One channel: the handler returns to [range ch] if need be, and takes the message. *)
Lemma deliver_one s i m c todo :
  conc_inv s → threads s !! i = Some (Sending m (c :: todo)) → clear_ahead s (c :: todo) →
  ∃ s', rtc step s s' ∧ threads s' !! i = Some (Sending m todo) ∧ clear_ahead s' todo.
Proof.
  intros Hinv Hi Hcl. destruct (inv_sending _ Hinv _ _ _ Hi) as [_ Hlive].
  destruct (Hlive c) as [_ (h & t & Ht & Hct)]; [set_solver|].
  assert (clear_ahead s todo) as Hcl' by (intros h' src' c' Hc'; apply Hcl; set_solver).
  assert (i ≠ h) by (intros ->; simplify_eq; done).
  destruct t as [| | | | | |src c'|src c' m'|src c'|]; simpl in Hct; try done; injection Hct as ->.
  - eexists. split; [apply rtc_once; by eapply (step_exchange i h)|]. simpl.
    rewrite lookup_insert_ne, lookup_insert_eq by done. split; [done|].
    by repeat apply clear_ahead_update.
  - eexists. split.
    + eapply rtc_l; [by eapply (step_sent h)|]. apply rtc_once. eapply (step_exchange i h); simpl.
      * by rewrite lookup_insert_ne.
      * by rewrite lookup_insert_eq.
    + simpl. rewrite lookup_insert_ne, lookup_insert_eq by done. split; [done|].
      by repeat apply clear_ahead_update.
  - exfalso. eapply Hcl; [|exact Ht]. set_solver.
Qed.

Lemma rtc_inv s s' : rtc step s s' → conc_inv s → conc_inv s'.
Proof. induction 1; eauto using step_inv. Qed.

Lemma deliver_all s i m todo :
  conc_inv s → threads s !! i = Some (Sending m todo) → clear_ahead s todo →
  ∃ s', rtc step s s' ∧ threads s' !! i = Some SendDone.
Proof.
  revert s. induction todo as [|c todo IH]; intros s Hinv Hi Hcl.
  - eexists. split; [apply rtc_once; by eapply (step_runlock i)|]. simpl. by rewrite lookup_insert_eq.
  - destruct (deliver_one _ _ _ _ _ Hinv Hi Hcl) as (s1 & Hs1 & Hi1 & Hcl1).
    destruct (IH s1) as (s2 & Hs2 & Hi2); eauto using rtc_inv.
    exists s2. split; [by etrans|done].
Qed.

(** C31 broadcast_completes_iff: a [Broadcast] or [Unicast] that holds the lock can
    still run to its end if and only if no stream it has yet to serve has a handler
    whose [Send] failed: there is no other way for it to block. *)
Theorem broadcast_completes_iff s i m todo :
  reachable s → threads s !! i = Some (Sending m todo) →
  (∃ s', rtc step s s' ∧ threads s' !! i = Some SendDone) ↔
  (∀ h src c, c ∈ todo → threads s !! h ≠ Some (HandFailed src c)).
Proof.
  intros Hr Hi. apply reachable_inv in Hr as Hinv. split.
  - intros (s' & Hst & Hdone) h src c Hc Hh.
    assert (Hfr : frozen i h c m s) by (split; eauto).
    destruct (frozen_forever _ _ _ _ _ _ Hfr Hst) as ((_ & (todo' & Hi' & _) & _) & _). congruence.
  - intros Hcl. by eapply deliver_all.
Qed.

End conc.
Arguments thread : clear implicits.
Arguments conc : clear implicits.

(** ** Witnesses: two broadcasts and one replica *)

Module TwoBroadcasts.

(** Goroutine 0 is the handler of replica 7; goroutines 1 and 2 broadcast.  The
    first message is taken; its [Send] fails while the second broadcast waits. *)
Definition connected : conc bool := MkConc {[7%Z := 0]} ∅ ∅ ∅ {[0 := HandRecv 7 0]}.
Definition stuck : conc bool :=
  MkConc {[7%Z := 0]} ∅ {[2]} {[0]}
    (<[0 := HandFailed 7 0]> (<[1 := SendDone]> {[2 := Sending false [0]]})).

Lemma connected_reachable : reachable connected.
Proof.
  eapply rtc_l; [apply (step_spawn 0 (HandStart 7)); [done|eauto]|].
  eapply rtc_l; [by apply (step_lock 0 7)|].
  eapply rtc_l; [apply (step_register 0 7 0); [done|done|]|].
  { split; [set_solver|]. intros i t Hi. simpl in Hi. rewrite lookup_insert_Some in Hi.
    destruct Hi as [[_ <-] | [_ Hi]]; [done|]. rewrite lookup_insert_Some in Hi. naive_solver. }
  vm_compute; apply rtc_refl.
Qed.

Lemma stuck_reachable : reachable stuck.
Proof.
  unfold reachable; etrans; [exact connected_reachable|].
  eapply rtc_l; [apply (step_spawn 1 (BcastStart true)); [done|eauto]|].
  eapply rtc_l; [apply (step_spawn 2 (BcastStart false)); [done|eauto]|].
  eapply rtc_l; [by apply (step_bcast 1 true [0])|].
  eapply rtc_l; [by apply (step_exchange 1 0 true 0 [] 7)|].
  eapply rtc_l; [by apply (step_runlock 1 true)|].
  eapply rtc_l; [by apply (step_bcast 2 false [0])|].
  eapply rtc_l; [by apply (step_failed 0 7 0 true)|].
  vm_compute; apply rtc_refl.
Qed.

Lemma streams_safe_witness :
  reachable stuck ∧ (0 ∉ closed stuck) ∧ exists! h, chan_of <$> threads stuck !! h = Some (Some 0).
Proof.
  split; [exact stuck_reachable|]. destruct (streams_safe stuck stuck_reachable) as [Hs Hc].
  split; [by apply (Hs 2 false [0]); [|left]|]. by destruct (Hc 7%Z 0) as (_ & Hh & _).
Defined.

(** The second broadcast never returns. *)
Lemma failed_send_deadlocks_witness :
  reachable stuck ∧ ¬ ∃ s', rtc step stuck s' ∧ threads s' !! 2 = Some SendDone.
Proof.
  split; [exact stuck_reachable|]. intros (s' & Hst & Hd).
  destruct (failed_send_deadlocks stuck 2 0 false [0] 7 0 stuck_reachable eq_refl
              (list_elem_of_here _ _) eq_refl s' Hst) as ((todo' & Hi & _) & _). congruence.
Defined.

Definition under_way : conc bool :=
  set_thread 1 (Sending true [0]) (set_readers {[1]} (set_thread 1 (BcastStart true) connected)).

Lemma under_way_reachable : reachable under_way.
Proof.
  unfold reachable; etrans; [exact connected_reachable|].
  eapply rtc_l; [apply (step_spawn 1 (BcastStart true)); [done|eauto]|].
  eapply rtc_l; [by apply (step_bcast 1 true [0])|].
  vm_compute; apply rtc_refl.
Qed.

(** The first broadcast can. *)
Lemma broadcast_completes_iff_witness :
  reachable under_way ∧ ∃ s', rtc step under_way s' ∧ threads s' !! 1 = Some SendDone.
Proof.
  split; [exact under_way_reachable|].
  apply (broadcast_completes_iff under_way 1 true [0] under_way_reachable eq_refl).
  intros h src c _. unfold under_way, set_thread, set_readers, connected. simpl.
  rewrite !lookup_insert, ?lookup_singleton. repeat case_decide; congruence.
Defined.

End TwoBroadcasts.
