(* ===== verification/Grpc.v ===== *)
(** * gRPC connections ([transport/client.go], [transport/server.go])

    The construction of clients and servers: TLS options, dial and server
    options, the listening socket.  gRPC itself ([DialContext], [Serve]) and the
    X.509 functions of Go's library are parameters; the network keeps the
    addresses that are being listened on. *)

From stdpp Require Import base numbers fin_maps gmap sets strings list.
From Stdlib Require Import Strings.Byte.
From S2P Require Import Prelude GoMonad.

(** ** Constants (durations in nanoseconds) *)

Definition Second : Z := 1000000000.
Definition Minute : Z := 60 * Second.
Definition MaxRecvMsgSize : Z := 100 * 1024 * 1024.
Definition MaxSendMsgSize : Z := 100 * 1024 * 1024.
Definition DefaultConnectionTimeout : Z := Second * 3.
Definition ServerMinInterval : Z := 1 * Minute.

(** ** TLS *)

Record TLSOptions := MkTLSOptions {
  Certificate : option bytes;
  Key : option bytes;
  ServerRootCAs : list bytes;
  ClientRootCAs : list bytes;
  UseTLS : bool;
  RequireClientCert : bool }.

Inductive tls_version := VersionTLS10 | VersionTLS11 | VersionTLS12 | VersionTLS13.

Inductive cipher_suite :=
| TLS_ECDHE_RSA_WITH_AES_128_GCM_SHA256
| TLS_ECDHE_RSA_WITH_AES_256_GCM_SHA384
| TLS_ECDHE_ECDSA_WITH_AES_128_GCM_SHA256
| TLS_ECDHE_ECDSA_WITH_AES_256_GCM_SHA384
| TLS_RSA_WITH_AES_128_GCM_SHA256
| TLS_RSA_WITH_AES_256_GCM_SHA384.

Inductive client_auth := NoClientCert | RequestClientCert | RequireAndVerifyClientCert.

(** The fields of [tls.Config] the code sets; [CipherSuites] empty is Go's
    default list, [None] for a pool the system's roots. *)
Record tls_Config (Cert Pool : Type) := MkConfig {
  MinVersion : tls_version;
  CipherSuites : list cipher_suite;
  SessionTicketsDisabled : bool;
  Certificates : list Cert;
  ClientAuth : client_auth;
  ClientCAs : option Pool;
  RootCAs : option Pool }.
Arguments MkConfig {Cert Pool}.
Arguments MinVersion {Cert Pool}.
Arguments CipherSuites {Cert Pool}.
Arguments SessionTicketsDisabled {Cert Pool}.
Arguments Certificates {Cert Pool}.
Arguments ClientAuth {Cert Pool}.
Arguments ClientCAs {Cert Pool}.
Arguments RootCAs {Cert Pool}.

(** [tls.X509KeyPair], [x509.NewCertPool], [AppendCertsFromPEM]. *)
Record X509 (Cert Pool : Type) := MkX509 {
  X509KeyPair : bytes → bytes → go_error + Cert;
  NewCertPool : Pool;
  AppendCertsFromPEM : bytes → Pool → bool * Pool }.
Arguments MkX509 {Cert Pool}.
Arguments X509KeyPair {Cert Pool}.
Arguments NewCertPool {Cert Pool}.
Arguments AppendCertsFromPEM {Cert Pool}.

Section grpc.
Context {Cert Pool : Type} (x509 : X509 Cert Pool).
Local Abbreviation Config := (tls_Config Cert Pool).

(** The loop over root certificates: stops at the first that is not accepted. *)
Fixpoint add_roots (roots : list bytes) (pool : Pool) : option Pool :=
  match roots with
  | [] => Some pool
  | certBytes :: roots =>
      match AppendCertsFromPEM x509 certBytes pool with
      | (true, pool) => add_roots roots pool
      | (false, _) => None
      end
  end.

(** [if len(roots) > 0 { ... }]. *)
Definition root_pool (roots : list bytes) : option (option Pool) :=
  match roots with
  | [] => Some None
  | _ => Some <$> add_roots roots (NewCertPool x509)
  end.

(** The key pair, both parts of which must be given. *)
Definition key_pair (opts : TLSOptions) : go_error + Cert :=
  match Key opts, Certificate opts with
  | Some key, Some cert =>
      match X509KeyPair x509 cert key with inl _ => inl ErrKeyPair | inr c => inr c end
  | _, _ => inl ErrNeedKeyAndCert
  end.

(** [inr None] is the nil configuration: no TLS. *)
Definition parseTLSOptionsForClient (opts : option TLSOptions) : go_error + option Config :=
  match opts with
  | None => inr None
  | Some o =>
      if negb (UseTLS o) then inr None
      else match root_pool (ServerRootCAs o) with
           | None => inl ErrServerRoot
           | Some roots =>
               if RequireClientCert o then
                 match key_pair o with
                 | inl e => inl e
                 | inr c => inr (Some (MkConfig VersionTLS12 [] false [c] NoClientCert None roots))
                 end
               else inr (Some (MkConfig VersionTLS12 [] false [] NoClientCert None roots))
           end
  end.

Definition server_suites : list cipher_suite :=
  [TLS_ECDHE_RSA_WITH_AES_128_GCM_SHA256; TLS_ECDHE_RSA_WITH_AES_256_GCM_SHA384;
   TLS_ECDHE_ECDSA_WITH_AES_128_GCM_SHA256; TLS_ECDHE_ECDSA_WITH_AES_256_GCM_SHA384;
   TLS_RSA_WITH_AES_128_GCM_SHA256; TLS_RSA_WITH_AES_256_GCM_SHA384].

Definition parseTLSOptionsForServer (opts : option TLSOptions) : go_error + option Config :=
  match opts with
  | None => inr None
  | Some o =>
      if negb (UseTLS o) then inr None
      else match key_pair o with
           | inl e => inl e
           | inr c =>
               if RequireClientCert o then
                 match root_pool (ClientRootCAs o) with
                 | None => inl ErrClientRoot
                 | Some roots =>
                     inr (Some (MkConfig VersionTLS12 server_suites true [c]
                                  RequireAndVerifyClientCert roots None))
                 end
               else inr (Some (MkConfig VersionTLS12 server_suites true [c] RequestClientCert None None))
           end
  end.

(** ** The client *)

Inductive DialOption :=
| WithKeepaliveParams (time timeout : Z) (permitWithoutStream : bool)
| WithBlock
| FailOnNonTempDialError (b : bool)
| WithDefaultCallOptions (maxRecv maxSend : Z)
| WithTransportCredentials (c : Config)
| WithInsecure.

Record GrpcClient := MkGrpcClient {
  tlsConfig : option Config;
  dialOpts : list DialOption;
  timeout : Z }.

Definition NewGrpcClient (opts : option TLSOptions) : go_error + GrpcClient :=
  match parseTLSOptionsForClient opts with
  | inl e => inl e
  | inr cfg =>
      inr (MkGrpcClient cfg
             [WithKeepaliveParams (1 * Minute) (20 * Second) true; WithBlock;
              FailOnNonTempDialError true; WithDefaultCallOptions MaxRecvMsgSize MaxSendMsgSize]
             DefaultConnectionTimeout)
  end.

(** The options [NewConnection] dials with. *)
Definition connection_opts (client : GrpcClient) : list DialOption :=
  dialOpts client ++
  [match tlsConfig client with Some c => WithTransportCredentials c | None => WithInsecure end].

(** [NewConnection]; [dial] is [grpc.DialContext] with a timeout. *)
Definition NewConnection {S Conn} (dial : Z → string → list DialOption → M S Conn)
    (client : GrpcClient) (address : string) : M S Conn :=
  r ← try (dial (timeout client) address (connection_opts client));
  match r with
  | inl _ => fail (ErrDial address)
  | inr conn => mret conn
  end.

(** ** The server *)

Inductive ServerOption :=
| Creds (c : Config)
| KeepaliveParams (time timeout : Z)
| ServerMaxSendMsgSize (n : Z)
| ServerMaxRecvMsgSize (n : Z)
| ConnectionTimeout (t : Z)
| KeepaliveEnforcementPolicy (minTime : Z) (permitWithoutStream : bool).

(** The field [address] of the source, [listen.Addr().String()], is a function of
    the listener ([Address]). *)
Record GrpcServer := MkGrpcServer {
  listener : option string;
  grpc_server : option (list ServerOption) }.

(** The network: the addresses listened on. *)
Record Net := MkNet { bound : gset string }.

(** [net.Listen("tcp", address)]: fails on an address in use, and where
    [refused] says so. *)
Definition Listen (refused : string → bool) (addr : string) : M Net string :=
  b ← gets bound;
  if decide (addr ∈ b ∨ refused addr = true) then fail (ErrListen addr)
  else _ ← modify (λ n, MkNet ({[addr]} ∪ bound n)); mret addr.

Definition server_options (cfg : option Config) : list ServerOption :=
  match cfg with Some c => [Creds c] | None => [] end ++
  [KeepaliveParams (1 * Minute) (20 * Second); ServerMaxSendMsgSize MaxSendMsgSize;
   ServerMaxRecvMsgSize MaxRecvMsgSize; ConnectionTimeout DefaultConnectionTimeout;
   KeepaliveEnforcementPolicy ServerMinInterval true].

Definition NewGrpcServer (refused : string → bool) (addr : string) (opts : option TLSOptions)
    : M Net GrpcServer :=
  if decide (addr = EmptyString) then fail ErrMissingAddress
  else
    listen ← Listen refused addr;
    cfg ← orFail (parseTLSOptionsForServer opts);
    mret (MkGrpcServer (Some listen) (Some (server_options cfg))).

(** [addr_string] is [Addr().String()] of the listener on an address: the
    address itself when it is an IP address and a port other than 0. *)
Definition Address (addr_string : string → string) (s : GrpcServer) : string :=
  from_option addr_string EmptyString (listener s).

(** [Start] returns the error of [serve], which runs until the server stops. *)
Definition Start {S} (serve : list ServerOption → string → M S unit) (s : GrpcServer) : M S unit :=
  match listener s, grpc_server s with
  | None, _ => fail ErrNilListener
  | _, None => fail ErrNilServer
  | Some l, Some srv => serve srv l
  end.

Definition Stop {S} (stop : list ServerOption → M S unit) (s : GrpcServer) : M S unit :=
  match grpc_server s with Some srv => stop srv | None => mret tt end.

(** ** Properties *)

Section tls.
(** The certificates of a pool and of a PEM file. *)
Context (pool_certs : Pool → gset bytes) (pem_certs : bytes → gset bytes).
(** A new pool is empty; [AppendCertsFromPEM] adds the certificates it finds. *)
Hypothesis new_pool : pool_certs (NewCertPool x509) = ∅.
Hypothesis append_pool : ∀ pem p p', AppendCertsFromPEM x509 pem p = (true, p') →
  pool_certs p' = pool_certs p ∪ pem_certs pem.

(** The pool for the given roots: exactly their certificates; without roots nil,
    for which [crypto/tls] uses the host's. *)
Definition trusts (roots : list bytes) (pool : option Pool) : Prop :=
  match roots with
  | [] => pool = None
  | _ => ∃ p, pool = Some p ∧ pool_certs p = ⋃ (pem_certs <$> roots)
  end.

(** The certificate made of the given certificate and key. *)
Definition presents (o : TLSOptions) (certs : list Cert) : Prop :=
  ∃ key crt c, Key o = Some key ∧ Certificate o = Some crt ∧ X509KeyPair x509 crt key = inr c ∧ certs = [c].

Lemma add_roots_certs roots : ∀ p p', add_roots roots p = Some p' →
  pool_certs p' = pool_certs p ∪ ⋃ (pem_certs <$> roots).
Proof.
  induction roots as [|r roots IH]; intros p p' Hp; cbn [add_roots] in Hp.
  { injection Hp as <-. cbn. by rewrite union_empty_r_L. }
  destruct (AppendCertsFromPEM x509 r p) as [[] p1] eqn:Ha; [|done].
  rewrite (IH p1 p' Hp), (append_pool _ _ _ Ha), fmap_cons. cbn [union_list foldr]. by rewrite union_assoc_L.
Qed.

Lemma root_pool_trusts roots pool : root_pool roots = Some pool → trusts roots pool.
Proof.
  unfold root_pool, trusts. intros Hp. destruct roots as [|r rs]; [by injection Hp as <-|].
  apply fmap_Some in Hp as (p & Hp & ->). exists p. split; [done|].
  by rewrite (add_roots_certs _ _ _ Hp), new_pool, union_empty_l_L.
Qed.

Lemma key_pair_presents o c : key_pair o = inr c → presents o [c].
Proof.
  unfold key_pair, presents. destruct (Key o) as [key|], (Certificate o) as [crt|]; try done.
  destruct (X509KeyPair x509 crt key) as [|c'] eqn:Hk; [done|]. intros [= <-]. eauto 7.
Qed.

(** C36 TLS is never downgraded.  When TLS is asked for, a client that is built
    dials with transport credentials of TLS 1.2 or later and never in the clear;
    it trusts exactly the certificates of the given server roots, or the host's
    when none are given; and, when a client certificate is required, it presents
    the one made of the given certificate and key.  A server that is built
    listens on the address it was given and presents the certificate made of the
    given certificate and key; when client certificates are required it verifies
    them against exactly the certificates of the given client roots, or the
    host's when none are given, and otherwise it only requests them. *)
Theorem tls_never_downgraded o :
  UseTLS o = true →
  (∀ c, NewGrpcClient (Some o) = inr c →
     (WithInsecure ∉ connection_opts c)
     ∧ ∃ cfg, connection_opts c = dialOpts c ++ [WithTransportCredentials cfg]
         ∧ MinVersion cfg = VersionTLS12 ∧ trusts (ServerRootCAs o) (RootCAs cfg)
         ∧ (RequireClientCert o = true → presents o (Certificates cfg)))
  ∧ (∀ refused addr net s net', NewGrpcServer refused addr (Some o) net = (Ok s, net') →
     ∃ cfg, grpc_server s = Some (server_options (Some cfg)) ∧ listener s = Some addr
       ∧ MinVersion cfg = VersionTLS12 ∧ presents o (Certificates cfg)
       ∧ (if RequireClientCert o then ClientAuth cfg = RequireAndVerifyClientCert
                                      ∧ trusts (ClientRootCAs o) (ClientCAs cfg)
          else ClientAuth cfg = RequestClientCert)).
Proof.
  intros Htls. split.
  - intros c. unfold NewGrpcClient, parseTLSOptionsForClient. rewrite Htls. simpl negb. cbn iota.
    destruct (root_pool (ServerRootCAs o)) as [roots|] eqn:Hr; [|done]. apply root_pool_trusts in Hr.
    destruct (RequireClientCert o); [destruct (key_pair o) as [e|crt] eqn:Hk; [done|apply key_pair_presents in Hk]|];
      intros [= <-]; (split; [intros Hin; unfold connection_opts in Hin; simpl in Hin;
        repeat (apply elem_of_cons in Hin as [Hin|Hin]; [done|]); by apply not_elem_of_nil in Hin|]);
      eexists; (split; [done|]); (split; [done|]); (split; [done|]); eauto; done.
  - intros refused addr net s net'. unfold NewGrpcServer. case_decide; [done|].
    intros Hs. minv Hs as (l & n1 & Hl & Hs). minv Hs as (cfg & n2 & Hc & Hs). injection Hs as <- <-.
    apply orFail_Ok_inv in Hc as [Hc ->].
    assert (Hla : l = addr).
    { unfold Listen in Hl. rewrite run_gets in Hl. destruct (decide _) in Hl; [done|]. by injection Hl. }
    subst l. unfold parseTLSOptionsForServer in Hc. rewrite Htls in Hc. simpl negb in Hc. cbn iota in Hc.
    destruct (key_pair o) as [e|crt] eqn:Hk; [done|]. apply key_pair_presents in Hk.
    destruct (RequireClientCert o); [destruct (root_pool (ClientRootCAs o)) as [roots|] eqn:Hr; [|done];
      apply root_pool_trusts in Hr|]; injection Hc as <-; eexists; split_and!; done.
Qed.

End tls.

(** Clients and servers fit together: the client pings no more often than the
    server permits and never without its permission, and no message the client
    may send exceeds what the server accepts, nor the other way round. *)
Theorem client_server_compatible opts opts' c refused addr net s net' :
  NewGrpcClient opts = inr c → NewGrpcServer refused addr opts' net = (Ok s, net') →
  ∃ srv, grpc_server s = Some srv
    ∧ (∀ time tmo pws, WithKeepaliveParams time tmo pws ∈ connection_opts c →
         ∃ minTime permit, KeepaliveEnforcementPolicy minTime permit ∈ srv
           ∧ (minTime ≤ time)%Z ∧ implb pws permit = true)
    ∧ (∀ recv send, WithDefaultCallOptions recv send ∈ connection_opts c →
         ∃ srecv ssend, ServerMaxRecvMsgSize srecv ∈ srv ∧ ServerMaxSendMsgSize ssend ∈ srv
           ∧ (send ≤ srecv)%Z ∧ (ssend ≤ recv)%Z).
Proof.
  intros Hc Hs. unfold NewGrpcClient in Hc. destruct (parseTLSOptionsForClient opts) as [|ccfg]; [done|].
  injection Hc as <-. unfold NewGrpcServer in Hs. case_decide; [done|].
  minv Hs as (l & n1 & _ & Hs). minv Hs as (cfg & n2 & _ & Hs). injection Hs as <- <-.
  eexists. split; [done|]. unfold connection_opts, server_options. simpl. split.
  - intros time tmo pws Hin. exists ServerMinInterval, true.
    assert (Htime : time = (1 * Minute)%Z).
    { repeat (apply elem_of_cons in Hin as [Hin|Hin]; [by destruct ccfg; simplify_eq|]).
      by apply not_elem_of_nil in Hin. }
    subst. split; [apply elem_of_app; right; set_solver|]. split; [unfold ServerMinInterval; lia|].
    by destruct pws.
  - intros recv send Hin. exists MaxRecvMsgSize, MaxSendMsgSize.
    assert (Heq : recv = MaxRecvMsgSize ∧ send = MaxSendMsgSize).
    { repeat (apply elem_of_cons in Hin as [Hin|Hin]; [by destruct ccfg; simplify_eq|]).
      by apply not_elem_of_nil in Hin. }
    destruct Heq as [-> ->]. split_and!; [apply elem_of_app; right; set_solver..|done|done].
Qed.

(** A server that cannot be built keeps its port: the address is bound before
    the TLS options are read, so when they are refused the error is returned
    with the socket still open, and no later attempt on that address succeeds. *)
Theorem failed_server_keeps_port refused addr opts e net :
  addr ≠ EmptyString → addr ∉ bound net → refused addr = false →
  parseTLSOptionsForServer opts = inl e →
  let out := NewGrpcServer refused addr opts net in
  out.1 = Fail e ∧ ∀ opts', NewGrpcServer refused addr opts' out.2 = (Fail (ErrListen addr), out.2).
Proof.
  intros Ha Hb Hr He out.
  assert (Ho : out = (Fail e, MkNet ({[addr]} ∪ bound net))).
  { unfold out, NewGrpcServer. rewrite decide_False by done. unfold Listen. rewrite bind_assoc, run_gets.
    rewrite decide_False by (intros [?|?]; [done|congruence]). rewrite bind_assoc, run_modify, He. done. }
  rewrite Ho. split; [done|]. intros opts'. unfold NewGrpcServer. rewrite decide_False by done.
  unfold Listen. rewrite bind_assoc, run_gets. rewrite decide_True by set_solver. done.
Qed.

End grpc.

(** ** Witnesses: certificates are bytes, a pool is a list of them *)

Module ToyTLS.

Definition x509 : X509 bytes (list bytes) :=
  MkX509 (λ cert key, if decide (cert = key) then inr cert else inl ErrKeyPair) []
    (λ c p, (bool_decide (c ≠ []), p ++ [c])).

Lemma append_pool pem p p' :
  AppendCertsFromPEM x509 pem p = (true, p') → list_to_set p' = (list_to_set p ∪ {[pem]} : gset bytes).
Proof. simpl. intros [= _ <-]. rewrite list_to_set_app_L. cbn. by rewrite union_empty_r_L. Qed.

Definition opts : TLSOptions := MkTLSOptions (Some [x61]) (Some [x61]) [[x62]] [[x63]] true true.
Definition bad : TLSOptions := MkTLSOptions (Some [x61]) None [] [] true false.
Definition net : Net := MkNet ∅.

End ToyTLS.

(** A client with one server root, and a server that verifies its clients. *)
Lemma tls_never_downgraded_witness :
  (∃ c cfg, NewGrpcClient ToyTLS.x509 (Some ToyTLS.opts) = inr c
     ∧ connection_opts c = dialOpts c ++ [WithTransportCredentials cfg]
     ∧ ∃ p, RootCAs cfg = Some p ∧ (list_to_set p : gset bytes) = ⋃ [{[ [x62] ]}])
  ∧ ∃ s net', NewGrpcServer ToyTLS.x509 (λ _, false) "127.0.0.1:8000" (Some ToyTLS.opts) ToyTLS.net = (Ok s, net')
    ∧ ∃ cfg, grpc_server s = Some (server_options (Some cfg)) ∧ ClientAuth cfg = RequireAndVerifyClientCert.
Proof.
  destruct (tls_never_downgraded ToyTLS.x509 list_to_set (λ c, {[c]}) eq_refl ToyTLS.append_pool ToyTLS.opts eq_refl)
    as [Hc Hs]. split.
  - destruct (Hc _ eq_refl) as (_ & cfg & Ho & _ & Ht & _). eexists _, cfg. split; [reflexivity|]. split; [exact Ho|exact Ht].
  - eexists _, _. split; [reflexivity|].
    destruct (Hs (λ _, false) "127.0.0.1:8000" ToyTLS.net _ _ eq_refl) as (cfg & Hg & _ & _ & _ & Ha & _).
    exists cfg. split; [exact Hg|exact Ha].
Defined.

Lemma client_server_compatible_witness :
  ∃ c s net', NewGrpcClient ToyTLS.x509 None = inr c
    ∧ NewGrpcServer ToyTLS.x509 (λ _, false) "127.0.0.1:8000" None ToyTLS.net = (Ok s, net')
    ∧ ∃ srv, grpc_server s = Some srv.
Proof.
  eexists _, _, _. split; [reflexivity|]. split; [reflexivity|].
  destruct (client_server_compatible ToyTLS.x509 None None _ (λ _, false) "127.0.0.1:8000" ToyTLS.net _ _
    eq_refl eq_refl) as (srv & Hsrv & _).
  exists srv. exact Hsrv.
Defined.

Lemma failed_server_keeps_port_witness :
  let out := NewGrpcServer ToyTLS.x509 (λ _, false) "127.0.0.1:8000" (Some ToyTLS.bad) ToyTLS.net in
  out.1 = Fail ErrNeedKeyAndCert
  ∧ NewGrpcServer ToyTLS.x509 (λ _, false) "127.0.0.1:8000" (Some ToyTLS.opts) out.2
    = (Fail (ErrListen "127.0.0.1:8000"), out.2).
Proof.
  intros out.
  destruct (failed_server_keeps_port ToyTLS.x509 (λ _, false) "127.0.0.1:8000" (Some ToyTLS.bad)
    ErrNeedKeyAndCert ToyTLS.net) as [Ho Hn].
  - discriminate.
  - simpl. set_solver.
  - reflexivity.
  - reflexivity.
  - split; [exact Ho|exact (Hn (Some ToyTLS.opts))].
Defined.
