(* ===== verification/AbClient.v ===== *)
(** * The broadcast client ([transport/abclient.go], [api/transport.go])

    A replica connects to another one with [NewBroadcastClient], which dials and
    opens the [Handshake] stream; its own id travels as a decimal string in the
    metadata, and the server reads it back with [extractRemoteAddress]. *)

From stdpp Require Import base numbers fin_maps gmap sets strings pretty list.
From Stdlib Require Import Ascii.
From S2P Require Import Prelude GoMonad Grpc Transport.

(** [metadata.Pairs("replicaid", strconv.Itoa(int(replicaId)))]. *)
Definition handshake_metadata (replicaId : Z) : gmap string (list string) :=
  {["replicaid" := [pretty replicaId]]}.

Record abClient (Stream : Type) := MkAbClient { client : Stream }.
Arguments MkAbClient {Stream}.
Arguments client {Stream}.

Section abclient.
Context {Cert Pool Conn Stream Msg S : Type} (x509 : X509 Cert Pool).
Context (dial : Z → string → list (DialOption (Cert:=Cert) (Pool:=Pool)) → M S Conn).
(** The generated stub [pb.NewConsensusClient(conn).Handshake]. *)
Context (handshake : Conn → gmap string (list string) → M S Stream).
Context (recv : Stream → M S Msg) (closeSend : Stream → M S unit).

Definition NewBroadcastClient (address : string) (replicaId : Z) (opts : option TLSOptions)
    : M S (abClient Stream) :=
  c ← orFail (NewGrpcClient x509 opts);
  r ← try (NewConnection dial c address);
  match r with
  | inl _ => fail (ErrDial address)
  | inr conn =>
      bc ← handshake conn (handshake_metadata replicaId);
      mret (MkAbClient bc)
  end.

Definition Recv (a : abClient Stream) : M S Msg := recv (client a).
Definition abClient_Close (a : abClient Stream) : M S unit := closeSend (client a).

(** A client that exists was dialled with its options and announced its id. *)
Lemma NewBroadcastClient_inv address replicaId opts s a s' :
  NewBroadcastClient address replicaId opts s = (Ok a, s') →
  ∃ c conn s1, NewGrpcClient x509 opts = inr c
    ∧ dial (timeout c) address (connection_opts c) s = (Ok conn, s1)
    ∧ handshake conn (handshake_metadata replicaId) s1 = (Ok (client a), s').
Proof.
  unfold NewBroadcastClient. intros Hn. minv Hn as (c & s0 & Hc & Hn).
  apply orFail_Ok_inv in Hc as [Hc ->]. minv Hn as (r & s1 & Hr & Hn).
  destruct r as [e|conn]; [done|]. minv Hn as (bc & s2 & Hb & Hn). injection Hn as <- <-.
  exists c, conn, s1. split; [done|]. split; [|done].
  unfold try in Hr. destruct (NewConnection dial c address s) as [[x|e| |w] sx] eqn:E; simplify_eq.
  unfold NewConnection in E. minv E as (y & s3 & Hy & E). destruct y as [e|conn']; [done|].
  injection E as <- <-. unfold try in Hy.
  destruct (dial _ _ _ s) as [[x|e| |w] sy]; by simplify_eq.
Qed.

End abclient.

(** ** Decimal ids *)

Lemma digit_pretty x : (x < 10)%N → digit (pretty_N_char x) = Some (Z.of_N x).
Proof.
  intros Hx. assert (Hc : (x = 0 ∨ x = 1 ∨ x = 2 ∨ x = 3 ∨ x = 4 ∨ x = 5 ∨ x = 6 ∨ x = 7
    ∨ x = 8 ∨ x = 9)%N) by lia.
  repeat destruct Hc as [->|Hc]; [vm_compute; reflexivity..|]. by rewrite Hc.
Qed.

Lemma digits_pretty x s : digits 0 (pretty_N_go x s) = digits (Z.of_N x) s.
Proof.
  revert s. induction (N.lt_wf_0 x) as [x _ IH]; intros s.
  destruct (decide (x = 0)%N) as [->|Hx]; [by rewrite pretty_N_go_0|].
  rewrite pretty_N_go_step by lia. rewrite IH by (apply N.div_lt; lia).
  cbn [digits]. rewrite digit_pretty by (apply N.mod_lt; lia). f_equal.
  rewrite (N.div_mod x 10) at 3 by lia. rewrite N2Z.inj_add, N2Z.inj_mul. lia.
Qed.

Lemma pretty_starts_digit x s :
  (0 < x)%N → ∃ c rest, pretty_N_go x s = String c rest ∧ is_Some (digit c).
Proof.
  revert s. induction (N.lt_wf_0 x) as [x _ IH]; intros s Hx.
  rewrite pretty_N_go_step by done. destruct (decide (x < 10)%N) as [Hlt|Hge].
  - rewrite N.div_small by done. rewrite pretty_N_go_0. eexists _, _. split; [done|].
    rewrite N.mod_small by done. rewrite digit_pretty by done. by eexists.
  - apply IH; [by apply N.div_lt|]. apply N.div_str_pos. lia.
Qed.

(** The sign test of [Atoi] does not fire on a digit. *)
Lemma Atoi_digit c rest :
  is_Some (digit c) →
  Atoi (String c rest) = match digits 0 (String c rest) with
                         | Some n => Z.min (2 ^ 63 - 1) n
                         | None => 0%Z
                         end.
Proof.
  intros [d Hd]. unfold Atoi.
  destruct (decide (c = "+"%char)) as [->|Hp]; [by vm_compute in Hd|].
  destruct (decide (c = "-"%char)) as [->|Hm]; [by vm_compute in Hd|].
  destruct c as [[] [] [] [] [] [] [] []]; try done; by (destruct (digits 0 _)).
Qed.

Lemma Atoi_pretty z : is_int64 z → Atoi (pretty z) = z.
Proof.
  unfold is_int64. intros Hz. destruct z as [|p|p]; [done|..].
  - change (pretty (Z.pos p)) with (pretty_N_go (N.pos p) "").
    destruct (pretty_starts_digit (N.pos p) "" ltac:(lia)) as (c & rest & Hs & Hc).
    rewrite Hs, Atoi_digit, <-Hs, digits_pretty by done. simpl. lia.
  - change (pretty (Z.neg p)) with (String "-" (pretty_N_go (N.pos p) "")).
    destruct (pretty_starts_digit (N.pos p) "" ltac:(lia)) as (c & rest & Hs & Hc).
    unfold Atoi. rewrite Hs, <-Hs, digits_pretty. simpl digits. cbv beta iota. lia.
Qed.

(** C37 The server learns who connects: the id a replica announces when it opens
    a stream is the id under which the server registers the stream, for every
    id of 64 bits. *)
Theorem handshake_identifies (replicaId : Z) (peer : string) :
  is_int64 replicaId →
  extractRemoteAddress (Some (handshake_metadata replicaId)) (Some (Some peer))
  = Some (peer, replicaId).
Proof.
  intros Hi. unfold extractRemoteAddress, handshake_metadata. cbn [mbind option_bind].
  rewrite lookup_singleton_eq. cbn [head fmap option_fmap option_map]. by rewrite Atoi_pretty.
Qed.

Lemma handshake_identifies_witness :
  extractRemoteAddress (Some (handshake_metadata (- 2 ^ 63))) (Some (Some "127.0.0.1:8001"))
  = Some ("127.0.0.1:8001", (- 2 ^ 63)%Z).
Proof. apply handshake_identifies. split; [reflexivity|reflexivity]. Defined.
