(* ===== verification/Base.v ===== *)
(** * The replica ([consensus/hotstuff.go], [consensus/connection.go],
    [consensus/events.go])

    [HotStuffBase] joins the core, the node manager and the write-ahead log, and
    implements [api.HotStuff] for the pacemaker; a replica is a pacemaker over
    a [HotStuffBase].  Message handlers and event dispatch run on the replica.

    Messages on the wire carry certificates by value; receiving one allocates
    its certificates in the heap.  [proto.Marshal]/[proto.Unmarshal] and the
    write-ahead log are parameters. *)

From stdpp Require Import base numbers fin_maps gmap sets strings list.
From S2P Require Import Prelude GoMonad Types Database Entity Core Pacemaker Transport Grpc.

(** ** Node manager *)

Record NodeInfo := MkNodeInfo {
  node_Id : Z;
  Addr : string;
  TlsOpts : option TLSOptions;
  Connected : bool }.

Definition set_Connected (c : bool) (n : NodeInfo) : NodeInfo :=
  MkNodeInfo (node_Id n) (Addr n) (TlsOpts n) c.

(** [Srv] is the gRPC server, [Bc] the broadcast server. *)
Record NodeManager (Srv Bc : Type) := MkNodeManager {
  Self : option NodeInfo;
  mgr_Nodes : gmap Z NodeInfo;
  mgr_grpc : option Srv;
  mgr_server : option Bc }.
Arguments MkNodeManager {Srv Bc}.
Arguments Self {Srv Bc}.
Arguments mgr_Nodes {Srv Bc}.
Arguments mgr_grpc {Srv Bc}.
Arguments mgr_server {Srv Bc}.

Section manager.
Context {Cert Pool Bc : Type} (x509 : X509 Cert Pool) (refused : string → bool) (newServer : Bc).
Local Abbreviation Mgr := (NodeManager (GrpcServer (Cert:=Cert) (Pool:=Pool)) Bc).

(** The loop of [NewNodeManager]: this replica's own entry starts the servers
    and is marked connected; a server that cannot be built panics. *)
Fixpoint add_nodes (self : Z) (nodes : list NodeInfo) (mgr : Mgr) : M Net Mgr :=
  match nodes with
  | [] => mret mgr
  | node :: nodes =>
      if decide (node_Id node = self) then
        r ← try (NewGrpcServer x509 refused (Addr node) (TlsOpts node));
        match r with
        | inl _ => panic
        | inr grpcServer =>
            let node := set_Connected true node in
            add_nodes self nodes
              (MkNodeManager (Some node) (<[node_Id node := node]> (mgr_Nodes mgr))
                 (Some grpcServer) (Some newServer))
        end
      else add_nodes self nodes
             (MkNodeManager (Self mgr) (<[node_Id node := node]> (mgr_Nodes mgr))
                (mgr_grpc mgr) (mgr_server mgr))
  end.

Definition NewNodeManager (self : Z) (nodes : list NodeInfo) : M Net Mgr :=
  add_nodes self nodes (MkNodeManager None ∅ None None).

(** [StartServer]: [n.Self] is read first, and a server that stops panics. *)
Definition StartServer {S} (serve : list (ServerOption (Cert:=Cert) (Pool:=Pool)) → string → M S unit)
    (mgr : Mgr) : M S unit :=
  _ ← orPanic (Self mgr);
  g ← orPanic (mgr_grpc mgr);
  r ← try (Start serve g);
  match r with inl _ => panic | inr _ => mret tt end.

(** The nodes [ConnectWorkers] starts a goroutine for. *)
Definition worker_nodes {S} (mgr : Mgr) : M S (list NodeInfo) :=
  if decide (mgr_Nodes mgr = ∅) then mret []
  else
    self ← orPanic (Self mgr);
    mret (filter (λ n, node_Id n ≠ node_Id self) (map_to_list (mgr_Nodes mgr)).*2).

End manager.

Definition NodeStatus (nodes : gmap Z NodeInfo) (i : Z) : bool :=
  match nodes !! i with Some n => Connected n | None => false end.

(** The goroutine of [ConnectWorkers] for one node: what happens to it, and the
    node's [Connected] flag and the messages queued. *)
Inductive worker_event {Msg : Type} :=
| DialFailed
| DialOk
| Received (m : Msg)
| StreamBroke.
Arguments worker_event : clear implicits.

Inductive phase := Dialing | Streaming.

Record Worker (Msg : Type) := MkWorker {
  w_phase : phase;
  w_node : NodeInfo;
  w_queue : list (Z * Msg) }.
Arguments MkWorker {Msg}.
Arguments w_phase {Msg}.
Arguments w_node {Msg}.
Arguments w_queue {Msg}.

(** The start of a worker's loop. *)
Definition ConnectWorker {Msg} (n : NodeInfo) : Worker Msg := MkWorker Dialing (set_Connected false n) [].

(** [None]: the event cannot happen in this phase. *)
Definition worker_step {Msg} (e : worker_event Msg) (w : Worker Msg) : option (Worker Msg) :=
  match w_phase w, e with
  | Dialing, DialFailed => Some (MkWorker Dialing (set_Connected false (w_node w)) (w_queue w))
  | Dialing, DialOk => Some (MkWorker Streaming (set_Connected true (w_node w)) (w_queue w))
  | Streaming, Received m => Some (MkWorker Streaming (w_node w) (w_queue w ++ [(node_Id (w_node w), m)]))
  | Streaming, StreamBroke => Some (MkWorker Dialing (set_Connected false (w_node w)) (w_queue w))
  | _, _ => None
  end.

(** ** State *)

Record HotStuffBase (DB W : Type) := MkBase {
  core : HotStuffCore DB;
  Nodes : gmap Z NodeInfo;
  server : abServer (Message QCRef);
  wal : W }.
Arguments MkBase {DB W}.
Arguments core {DB W}.
Arguments Nodes {DB W}.
Arguments server {DB W}.
Arguments wal {DB W}.

(** [NewHotStuffBase]: [None] is the nil returned when there are no nodes.
    Registering the service reads the gRPC server, which is nil when this
    replica is not among the nodes. *)
Definition NewHotStuffBase {Cert Pool W} (x509 : X509 Cert Pool) (refused : string → bool)
    (self : Z) (nodes : list NodeInfo) (w : W) : M Net (option (HotStuffBase CoreDB W)) :=
  if decide (length nodes = 0%nat) then mret None
  else
    mgr ← NewNodeManager x509 refused NewABServer self nodes;
    _ ← orPanic (mgr_grpc mgr);
    a ← orPanic (mgr_server mgr);
    mret (Some (MkBase initCore (mgr_Nodes mgr) a w)).

(** A call's clock reading and randomness. *)
Record Tick (E : Type) := MkTick { now : Z; ent : E }.
Arguments MkTick {E}.
Arguments now {E}.
Arguments ent {E}.

Record BaseEnv (E W : Type) := MkBaseEnv {
  core_env : CoreEnv E;
  pm_conf : PMConf;
  marshalProposal : Proposal QuorumCert → bytes;
  unmarshalNewView : bytes → go_error + NewView QuorumCert;
  wal_save : HardState → Z → bytes → M W unit }.
Arguments MkBaseEnv {E W}.
Arguments core_env {E W}.
Arguments pm_conf {E W}.
Arguments marshalProposal {E W}.
Arguments unmarshalNewView {E W}.
Arguments wal_save {E W}.

Section base.
Context {DB E W : Type} `{Database DB string (Block QCRef)} (env : BaseEnv E W).

Local Abbreviation Base := (HotStuffBase DB W).
Local Abbreviation Replica := (RoundRobinPM (HotStuffBase DB W)).
Local Abbreviation R := (M (RoundRobinPM (HotStuffBase DB W))).

Definition liftCore {A} (m : M (HotStuffCore DB) A) : M Base A := λ b,
  let '(r, c) := m (core b) in (r, MkBase c (Nodes b) (server b) (wal b)).

Definition liftServer {A} (m : M (abServer (Message QCRef)) A) : M Base A := λ b,
  let '(r, a) := m (server b) in (r, MkBase (core b) (Nodes b) a (wal b)).

Definition liftWal {A} (m : M W A) : M Base A := λ b,
  let '(r, w) := m (wal b) in (r, MkBase (core b) (Nodes b) (server b) w).

(** [HotStuffBase] as the pacemaker's [api.HotStuff]. *)
#[global] Instance base_HotStuff : HotStuff Base (Tick E) := {|
  hs_OnPropose t v p c := liftCore (OnPropose (core_env env) (now t) (ent t) v p c);
  hs_OnProposalVote vote := liftCore (OnProposalVote (core_env env) vote);
  hs_UpdateHighestQC b qc := liftCore (UpdateHighestQC (core_env env) b qc);
  hs_GetHighQC := liftCore GetHighQC;
  hs_read o := liftCore (deref o);
  hs_AsyncWaitBlock h := liftCore (AsyncWaitBlock h);
  hs_AsyncWaitBlock_wake h := liftCore (AsyncWaitBlock_wake h);
  hs_Sign _ t d := Sign (core_env env) (ent t) d;
  hs_GetConnectStatus b i := NodeStatus (Nodes b) i;
  hs_Unicast m dest := liftServer (Unicast (Some m) dest);
  hs_Broadcast m := liftServer (Broadcast (Some m)) |}.

(** ** Messages on the wire *)

(** Decoding makes an empty map nil. *)
Definition decode_qc (qc : QuorumCert) : QuorumCert :=
  if decide (signs qc = ∅) then MkQuorumCert (qc_ViewNumber qc) (qc_BlockHash qc) None else qc.

Definition import_qc (o : option QuorumCert) : M (HotStuffCore DB) (option QCRef) :=
  match o with
  | None => mret None
  | Some qc => r ← alloc_qc (decode_qc qc); mret (Some r)
  end.

Definition import_block (b : Block QuorumCert) : M (HotStuffCore DB) (Block QCRef) :=
  j ← import_qc (Justify b);
  sq ← import_qc (SelfQc b);
  mret (MkBlock (ParentHash b) (Cmds b) (Proposer b) (Height b) (Timestamp b) j sq).

Definition import_proposal (p : Proposal QuorumCert) : M (HotStuffCore DB) (Proposal QCRef) :=
  match prop_Block p with
  | None => mret (MkProposal (prop_ViewNumber p) None)
  | Some b => b ← import_block b; mret (MkProposal (prop_ViewNumber p) (Some b))
  end.

(** The values [proto.Marshal] reads through the pointers of a proposal. *)
Definition export_qc (o : option QCRef) : M (HotStuffCore DB) (option QuorumCert) :=
  match o with
  | None => mret None
  | Some _ => qc ← deref o; mret (Some qc)
  end.

Definition export_proposal (p : Proposal QCRef) : M (HotStuffCore DB) (Proposal QuorumCert) :=
  match prop_Block p with
  | None => mret (MkProposal (prop_ViewNumber p) None)
  | Some b =>
      j ← export_qc (Justify b);
      sq ← export_qc (SelfQc b);
      mret (MkProposal (prop_ViewNumber p)
        (Some (MkBlock (ParentHash b) (Cmds b) (Proposer b) (Height b) (Timestamp b) j sq)))
  end.

(** ** Message handlers *)

(** [logger.Fatal] only logs, so a failed save does not stop the handler. *)
Definition handleProposal (t : Tick E) (proposal : Proposal QCRef) : R unit :=
  match prop_Block proposal with
  | None => mret tt
  | Some b =>
      wire ← lift (liftCore (export_proposal proposal));
      e ← lift (liftCore (gets execQC));
      eqc ← lift (liftCore (deref e));
      r ← lift (liftCore (LoadBlock (qc_BlockHash eqc)));
      block ← orPanic (match r with inr block => Some block | inl _ => None end);
      _ ← try (lift (liftWal (wal_save env (MkHardState (wrapu64 (Height block)) [] [] [])
                 (wrapu64 (Height b)) (marshalProposal env wire))));
      _ ← try (lift (liftCore (Core.OnReceiveProposal (core_env env) (ent t) proposal)));
      mret tt
  end.

Definition handleViewChange (id : Z) (vc : ViewChange) : R unit :=
  if VerifyIdentity (replicas (core_env env)) id (vc_Signature vc) (vc_Data vc) then
    match unmarshalNewView env (vc_Data vc) with
    | inl _ => mret tt
    | inr newView =>
        match nv_GenericQc newView with
        | None => mret tt
        | Some _ =>
            qc ← lift (liftCore (import_qc (nv_GenericQc newView)));
            _ ← try (lift (liftCore (OnNewView id (MkNewView (nv_ViewNumber newView) qc))));
            mret tt
        end
    end
  else mret tt.

Definition handleVote (id : Z) (vote : Vote) : R unit :=
  match vote_Cert vote with
  | None => mret tt
  | Some cert =>
      if decide (vote_BlockHash vote = []) then mret tt
      else if VerifyIdentity (replicas (core_env env)) id (pc_Signature cert) (vote_BlockHash vote) then
        if decide (id ≠ vote_Voter vote) then mret tt
        else
          leader ← GetLeader (pm_conf env) (vote_ViewNumber vote);
          if decide (leader ≠ Core.id (core_env env)) then mret tt
          else
            _ ← try (lift (liftCore (OnProposalVote (core_env env) vote)));
            mret tt
      else mret tt
  end.

Definition handleForward (msg : Forward) : R unit := _ ← try (Submit (fwd_Data msg)); mret tt.

Definition handleMessage (t : Tick E) (src : Z) (msg : Message QuorumCert) : R unit :=
  match msg_Type msg with
  | Some (Message_Proposal p) => p ← lift (liftCore (import_proposal p)); handleProposal t p
  | Some (Message_ViewChange vc) => handleViewChange src vc
  | Some (Message_Vote v) => handleVote src v
  | Some (Message_Forward f) => handleForward f
  | None => mret tt
  end.

(** [HotStuffBase.Submit]: the response and the error. *)
Definition SubmitRequest_handler (req : SubmitRequest) : R (SubmitResponse * option go_error) :=
  if decide (sreq_Cmds req = []) then
    mret (MkSubmitResponse BAD_REQUEST "", Some ErrEmptyRequest)
  else
    r ← try (Submit (sreq_Cmds req));
    match r with
    | inl e => mret (MkSubmitResponse SERVICE_UNAVAILABLE "", Some e)
    | inr _ => mret (MkSubmitResponse SUCCESS "", None)
    end.

(** ** Events: [ExecuteEvent] of each notifier *)

Definition ExecuteEvent (t : Tick E) (n : EventNotifier) : R unit :=
  match n with
  | ProposeEvent p => OnProposeEvent (pm_conf env) p
  | ReceiveProposalEvent p v =>
      unwound (Pacemaker.OnReceiveProposal (pm_conf env) (stack_depth (pm_conf env)) (prop_ViewNumber p) v)
  | ReceiveNewViewEvent i view => OnReceiveNewView (pm_conf env) t i view
  | QcFinishEvent _ qc => OnQcFinishEvent (pm_conf env) qc
  | HqcUpdateEvent qc => q ← lift (hs_read qc); UpdateQcHigh (qc_ViewNumber q) qc
  | DecideEvent b => DoDecide b
  end.

(** [ReceiveNewViewEvent], [OnNextSyncView] and proposals whose handler waited for
    a block. *)
Definition ResumeNewView (t : Tick E) (i : Z) (view : NewView QCRef) : R unit :=
  OnReceiveNewView_wake (pm_conf env) t i view.
Definition ResumeNextSync (t : Tick E) (view : NewView QCRef) : R unit :=
  enterView_wake (pm_conf env) t view.
Definition ResumeProposal (t : Tick E) (proposal : Proposal QCRef) : R unit :=
  _ ← try (lift (liftCore (OnReceiveProposal_wake (core_env env) (ent t) proposal))); mret tt.

(** ** The replica's steps: the loop of [Start] takes a message from the queue
    or an event from the notifier and runs each in its own goroutine, so pending
    events run in any order; the start by [Run], timers, client requests and the goroutines of the
    pacemaker are further steps, and so is a change of the connections. *)

Inductive input :=
| InRun
| InMessage (t : Tick E) (src : Z) (msg : Message QuorumCert)
| InEvent (t : Tick E) (n : EventNotifier)
| InResumeView (t : Tick E) (i : Z) (view : NewView QCRef)
| InResumeSync (t : Tick E) (view : NewView QCRef)
| InResumeProposal (t : Tick E) (p : Proposal QCRef)
| InTask (t : Tick E) (task : Task)
| InTimer (t : Tick E)
| InSubmit (req : SubmitRequest)
| InNodes (nodes : gmap Z NodeInfo)
| InServer (a : abServer (Message QCRef)).

Definition run_input (i : input) : R unit :=
  match i with
  | InRun => Run
  | InMessage t src msg => handleMessage t src msg
  | InEvent t n => ExecuteEvent t n
  | InResumeView t i view => ResumeNewView t i view
  | InResumeSync t view => ResumeNextSync t view
  | InResumeProposal t p => ResumeProposal t p
  | InTask t task => run_task (pm_conf env) t task
  | InTimer t => run_task (pm_conf env) t TaskNextSyncView
  | InSubmit req => _ ← SubmitRequest_handler req; mret tt
  | InNodes nodes =>
      modify (λ p, set_hotstuff (let b := hotstuff p in MkBase (core b) nodes (server b) (wal b)) p)
  | InServer a =>
      modify (λ p, set_hotstuff (let b := hotstuff p in MkBase (core b) (Nodes b) a (wal b)) p)
  end.

(** An event runs once it was sent on [notifyChan], a goroutine once started. *)
Definition enabled (i : input) (p : Replica) : Prop :=
  match i with
  | InEvent _ n => n ∈ notifyChan (core (hotstuff p))
  | InTask _ task => task ∈ spawned p
  | _ => True
  end.

Inductive replica_step : relation Replica :=
| step_input i p : enabled i p → replica_step p (run_input i p).2.

End base.
