(* ===== verification/Replica.v ===== *)
(** * Properties of the replica

    What the consensus core promises the pacemaker, stated against the
    [api.HotStuff] interface ([HotStuffStable]) and discharged by
    [HotStuffBase]; so the core's invariants hold in every state a whole replica
    reaches.  Then the message handlers of [consensus/hotstuff.go]. *)

From stdpp Require Import base numbers fin_maps gmap sets strings list.
From Stdlib Require Import Strings.Byte.
From S2P Require Import Prelude GoMonad Encoding Types Database LRUCache Entity Core.
From S2P Require Import CoreLemmas CoreSafety CoreSpec CoreCert CoreProps.
From S2P Require Import Pacemaker PacemakerProps Transport Grpc Base.

(** ** The interface: every call moves the implementation along [R] *)

Class HotStuffStable (HS T : Type) `{HotStuff HS T} (R : relation HS) : Prop := {
  st_preorder :: PreOrder R;
  st_OnPropose t v p c : evolves R (hs_OnPropose t v p c);
  st_OnProposalVote vote : evolves R (hs_OnProposalVote vote);
  st_UpdateHighestQC b qc : evolves R (hs_UpdateHighestQC b qc);
  st_GetHighQC : evolves R hs_GetHighQC;
  st_read o : evolves R (hs_read o);
  st_AsyncWaitBlock h : evolves R (hs_AsyncWaitBlock h);
  st_AsyncWaitBlock_wake h : evolves R (hs_AsyncWaitBlock_wake h);
  st_Unicast m d : evolves R (hs_Unicast m d);
  st_Broadcast m : evolves R (hs_Broadcast m) }.

Section frame.
Context {HS T : Type} `{HotStuff HS T} (R : relation HS) `{!HotStuffStable HS T R} (conf : PMConf).

(** The pacemaker's states related through the implementation they hold. *)
Definition via : relation (RoundRobinPM HS) := λ p p', R (hotstuff p) (hotstuff p').

#[global] Instance via_preorder : PreOrder via.
Proof.
  split; unfold via; [intros p; apply st_preorder|intros p1 p2 p3 H12 H23; by etrans].
Qed.

Lemma lift_via {A} (m : M HS A) : evolves R m → evolves via (lift m).
Proof. intros Hm p. specialize (Hm (hotstuff p)). unfold lift, via. by destruct (m (hotstuff p)). Qed.

Lemma modify_via (f : RoundRobinPM HS → RoundRobinPM HS) :
  (∀ p, hotstuff (f p) = hotstuff p) → evolves via (modify f).
Proof. intros Hf. apply evolves_modify. intros p. unfold via. rewrite Hf. apply st_preorder. Qed.

Hint Extern 3 (evolves via (modify _)) => apply modify_via; intros; reflexivity : evolves.
Hint Resolve lift_via st_OnPropose st_OnProposalVote st_UpdateHighestQC st_GetHighQC st_read
  st_AsyncWaitBlock st_AsyncWaitBlock_wake st_Unicast st_Broadcast : evolves.

Ltac frame := unfold GetLeader, GetCurLeader, GetConnectStatus, go, storeView, addView,
  startNewViewTimer, stopNewViewTimer, clearViews; evolve.

Lemma Submit_via c : evolves via (Submit (HS:=HS) c).
Proof. unfold Submit. frame. Qed.

Lemma OnBeat_via t : evolves via (OnBeat (HS:=HS) (T:=T) conf t).
Proof. unfold OnBeat. frame. Qed.

Lemma UpdateQcHigh_via v qc : evolves via (UpdateQcHigh (HS:=HS) v qc).
Proof. unfold UpdateQcHigh. frame. Qed.

Lemma createSigned_via t : evolves via (createSignedViewChange (HS:=HS) (T:=T) conf t).
Proof. unfold createSignedViewChange. frame. Qed.

Lemma addNewViewMsg_via i nv : evolves via (addNewViewMsg (HS:=HS) (T:=T) conf i nv).
Proof. unfold addNewViewMsg. cbv zeta. frame. Qed.
Hint Resolve Submit_via OnBeat_via UpdateQcHigh_via createSigned_via addNewViewMsg_via : evolves.

Lemma processNewView_via t i nv r : evolves via (processNewView (HS:=HS) (T:=T) conf t i nv r).
Proof. unfold processNewView. frame. Qed.
Hint Resolve processNewView_via : evolves.

Lemma OnReceiveNewView_via t i nv : evolves via (OnReceiveNewView (HS:=HS) (T:=T) conf t i nv).
Proof. unfold OnReceiveNewView. frame. Qed.
Hint Resolve OnReceiveNewView_via : evolves.

Lemma OnReceiveNewView_wake_via t i nv :
  evolves via (OnReceiveNewView_wake (HS:=HS) (T:=T) conf t i nv).
Proof. unfold OnReceiveNewView_wake. frame. Qed.

Lemma enterView_via t l : evolves via (enterView (HS:=HS) (T:=T) conf t l).
Proof. unfold enterView. frame. Qed.
Lemma enterView_wake_via t nv : evolves via (enterView_wake (HS:=HS) (T:=T) conf t nv).
Proof. pose proof OnReceiveNewView_wake_via. unfold enterView_wake. frame. Qed.
Hint Resolve enterView_via enterView_wake_via : evolves.

Lemma unwound_via {A} (m : M (RoundRobinPM HS) (option A)) : evolves via m → evolves via (unwound m).
Proof. intros Hm. unfold unwound. frame. Qed.
Hint Resolve unwound_via : evolves.

Lemma Run_via : evolves via (Run (HS:=HS)).
Proof. unfold Run. frame. Qed.

Lemma OnNextSyncView_via fuel t : evolves via (OnNextSyncView (HS:=HS) (T:=T) conf fuel t).
Proof. induction fuel as [|fuel IH]; cbn [OnNextSyncView]; frame. Qed.

Lemma deliverVote_via pv vote : evolves via (deliverVote (HS:=HS) (T:=T) conf pv vote).
Proof. unfold deliverVote. frame. Qed.
Hint Resolve OnNextSyncView_via deliverVote_via : evolves.

Lemma OnReceiveProposal_via fuel vote : ∀ pv,
  evolves via (Pacemaker.OnReceiveProposal (HS:=HS) (T:=T) conf fuel pv vote).
Proof. induction fuel as [|fuel IH]; intros pv; cbn [Pacemaker.OnReceiveProposal]; frame. Qed.

Lemma OnProposeEvent_via p : evolves via (OnProposeEvent (HS:=HS) (T:=T) conf p).
Proof. unfold OnProposeEvent. frame. Qed.

Lemma OnQcFinishEvent_via qc : evolves via (OnQcFinishEvent (HS:=HS) (T:=T) conf qc).
Proof. unfold OnQcFinishEvent. frame. Qed.

Lemma DoDecide_via b : evolves via (DoDecide (HS:=HS) b).
Proof. unfold DoDecide. frame. Qed.

Lemma run_task_via t task : evolves via (run_task (HS:=HS) (T:=T) conf t task).
Proof. unfold run_task. frame. Qed.

End frame.

(** ** [HotStuffBase] implements the interface *)

Section implementation.
Context {DB E W : Type} `{DatabaseLaws DB string (Block QCRef)} (env : BaseEnv E W).
Context (Rc : relation (HotStuffCore DB)) `{!CoreStable Rc}.
Hypothesis call_evolves : ∀ c, evolves Rc (run_call (core_env env) c).

#[local] Hint Extern 0 (HotStuff _ _) => exact (base_HotStuff env) : typeclass_instances.

Definition on_core : relation (HotStuffBase DB W) := λ b b', Rc (core b) (core b').

#[local] Instance on_core_preorder : PreOrder on_core.
Proof.
  split; unfold on_core; [intros b; apply cs_preorder|intros b1 b2 b3 H12 H23; by etrans].
Qed.

Lemma liftCore_evolves {A} (m : M (HotStuffCore DB) A) :
  evolves Rc m → evolves on_core (liftCore m).
Proof. intros Hm b. specialize (Hm (core b)). unfold liftCore, on_core. by destruct (m (core b)). Qed.

Lemma liftServer_evolves {A} (m : M (abServer (Message QCRef)) A) : evolves on_core (liftServer m).
Proof.
  intros b. unfold liftServer, on_core. destruct (m (server b)). apply cs_preorder.
Qed.

Lemma liftWal_evolves {A} (m : M W A) : evolves on_core (liftWal m).
Proof. intros b. unfold liftWal, on_core. destruct (m (wal b)). apply cs_preorder. Qed.

Lemma wake_evolves h : evolves Rc (AsyncWaitBlock_wake (DB:=DB) h).
Proof. unfold AsyncWaitBlock_wake. evolve. Qed.

#[local] Instance base_stable :
  HotStuffStable (HotStuffBase DB W) (Tick E) (H:=base_HotStuff env) on_core.
Proof.
  split; intros; simpl; try apply liftServer_evolves; try apply liftCore_evolves.
  - apply _.
  - apply (call_evolves (CallPropose (now t) (ent t) v p c)).
  - apply (call_evolves (CallVote vote)).
  - apply (call_evolves (CallUpdateHighestQC b qc)).
  - unfold GetHighQC. evolve.
  - evolve.
  - evolve.
  - apply wake_evolves.
Qed.

Lemma import_qc_evolves o : evolves Rc (import_qc (DB:=DB) o).
Proof. unfold import_qc. evolve. Qed.
Hint Resolve import_qc_evolves : evolves.

Lemma import_proposal_evolves p : evolves Rc (import_proposal (DB:=DB) p).
Proof. unfold import_proposal, import_block. evolve. Qed.

Lemma export_proposal_evolves p : evolves Rc (export_proposal (DB:=DB) p).
Proof. unfold export_proposal, export_qc. evolve. Qed.

Let Rp := via on_core.

#[local] Instance Rp_preorder : PreOrder Rp.
Proof. apply (via_preorder (T:=Tick E) on_core). Qed.

Lemma core_via {A} (m : M (HotStuffCore DB) A) : evolves Rc m → evolves Rp (lift (liftCore m)).
Proof. intros Hm. apply lift_via, liftCore_evolves, Hm. Qed.

Lemma wal_via {A} (m : M W A) : evolves Rp (lift (liftWal m)).
Proof. apply lift_via, liftWal_evolves. Qed.

Lemma gets_via {A} (g : HotStuffCore DB → A) : evolves Rp (lift (liftCore (gets g))).
Proof. apply core_via. evolve. Qed.

Hint Resolve core_via wal_via gets_via import_proposal_evolves export_proposal_evolves : evolves.

Lemma handleProposal_via t p : evolves Rp (handleProposal env t p).
Proof.
  pose proof (λ e p, call_evolves (CallReceiveProposal e p)) as Hrp. simpl in Hrp.
  unfold handleProposal. evolve.
Qed.

Lemma handleMessage_via t src msg : evolves Rp (handleMessage env t src msg).
Proof.
  pose proof handleProposal_via as Hp. pose proof (λ v, call_evolves (CallVote v)) as Hv.
  pose proof (λ i v, call_evolves (CallNewView i v)) as Hn. simpl in Hv, Hn.
  pose proof (Submit_via (T:=Tick E) on_core) as Hs. fold Rp in Hs.
  unfold handleMessage, handleViewChange, handleVote, handleForward, GetLeader. evolve.
Qed.

Lemma ExecuteEvent_via t n : evolves Rp (ExecuteEvent (DB:=DB) env t n).
Proof.
  destruct n; simpl.
  - apply OnProposeEvent_via; apply _.
  - apply (unwound_via (T:=Tick E)); [apply _|]. apply OnReceiveProposal_via; apply _.
  - apply OnReceiveNewView_via; apply _.
  - apply OnQcFinishEvent_via; apply _.
  - apply evolves_bind; [apply _|apply core_via; evolve|]. intros. apply (UpdateQcHigh_via (T:=Tick E)); apply _.
  - apply (DoDecide_via (T:=Tick E)); apply _.
Qed.

Lemma run_input_via i : evolves Rp (run_input (DB:=DB) env i).
Proof.
  pose proof (λ e p, call_evolves (CallWakeProposal e p)) as Hw. simpl in Hw.
  pose proof (Submit_via (T:=Tick E) on_core) as Hs. fold Rp in Hs.
  destruct i; simpl.
  - apply (Run_via (T:=Tick E)); apply _.
  - apply handleMessage_via.
  - apply ExecuteEvent_via.
  - apply OnReceiveNewView_wake_via; apply _.
  - apply enterView_wake_via; apply _.
  - unfold ResumeProposal. evolve.
  - apply run_task_via; apply _.
  - apply (run_task_via on_core (pm_conf env) t TaskNextSyncView); apply _.
  - unfold SubmitRequest_handler. evolve.
  - apply evolves_modify. intros p. unfold Rp, via, on_core. simpl. apply cs_preorder.
  - apply evolves_modify. intros p. unfold Rp, via, on_core. simpl. apply cs_preorder.
Qed.

Lemma replica_steps_core p p' :
  rtc (replica_step env) p p' → Rc (core (hotstuff p)) (core (hotstuff p')).
Proof.
  intros Hs. induction Hs as [p|p1 p2 p3 H12 _ IH]; [apply cs_preorder|].
  etrans; [|exact IH]. destruct H12 as [i p _]. apply run_input_via.
Qed.

End implementation.

(** ** A whole replica *)

Lemma NewHotStuffBase_core {Cert Pool W} (x509 : X509 Cert Pool) refused self nodes (w : W) net b net' :
  NewHotStuffBase x509 refused self nodes w net = (Ok (Some b), net') → core b = initCore.
Proof.
  unfold NewHotStuffBase. case_decide; [done|]. intros Hr. minv Hr as (mgr & n1 & _ & Hr).
  minv Hr as (g & n2 & _ & Hr). minv Hr as (a & n3 & _ & Hr). by injection Hr as <- _.
Qed.

(** C9 Certificates of a whole replica.  In every state a replica reaches from
    [NewHotStuffBase], through any messages, whatever they carry, events run in
    any order, timeouts, client requests, connection changes and goroutines of
    the pacemaker, each handler running to its end or to where it waits: the
    highest certificate is the genesis one or is signed by [N - F] distinct
    registered replicas; so is every certificate announced to the pacemaker as
    the highest ([HqcUpdateEvent]); and every certificate announced as finished
    ([QcFinishEvent]) holds at least [N - F] signatures, which need not verify,
    since a received block brings its own. *)
Theorem replica_certified {Cert Pool E W} (x509 : X509 Cert Pool) (env : BaseEnv E W)
    refused self nodes w net b net' p :
  sane_metadata (Metadata (replicas (core_env env))) →
  NewHotStuffBase x509 refused self nodes w net = (Ok (Some b), net') →
  rtc (replica_step env) (NewRoundRobinPM b) p →
  let c := core (hotstuff p) in
  let md := Metadata (replicas (core_env env)) in
  let backed o := ∃ r qc, o = Some r ∧ qcHeap c !! r = Some qc
    ∧ (md_N md - md_F md ≤ Z.of_nat (size (signers (replicas (core_env env)) qc)))%Z in
  (genericQC c = Some 0%nat ∨ backed (genericQC c))
  ∧ (∀ o, HqcUpdateEvent o ∈ notifyChan c → backed o)
  ∧ (∀ pr o, QcFinishEvent pr o ∈ notifyChan c →
       ∃ r qc, o = Some r ∧ qcHeap c !! r = Some qc ∧ (md_N md - md_F md ≤ len_signs qc)%Z).
Proof.
  intros Hsane Hb Hs c md backed.
  assert (Hc : certified (core_env env) c).
  { apply NewHotStuffBase_core in Hb.
    apply (replica_steps_core env (keeps_certified (core_env env)) (call_keeps_certified _) _ _ Hs).
    unfold NewRoundRobinPM. cbn [hotstuff]. rewrite Hb. apply certified_init. }
  assert (Hpb : ∀ o, proven (core_env env) (qcHeap c) o → backed o).
  { intros o (r & qc & -> & Hq & Hv). exists r, qc. split_and!; [done..|].
    by apply VerifyQuorumCert_true. }
  split_and!.
  - destruct (cert_generic _ _ Hc); [by left|right; by apply Hpb].
  - intros o Ho. by apply Hpb, (cert_hqc _ _ Hc).
  - intros pr o Ho. unfold md. rewrite <-quorum_sane by done. by apply (cert_finish _ _ Hc pr).
Qed.

(** ** Message handlers *)

Section handlers.
Context {DB E W : Type} `{DatabaseLaws DB string (Block QCRef)} (env : BaseEnv E W).
Local Abbreviation Replica := (RoundRobinPM (HotStuffBase DB W)).
Implicit Types (p : RoundRobinPM (HotStuffBase DB W)).

(** C23 Votes are authenticated: a received vote is counted exactly when it names
    a block, carries a signature of that block's hash that verifies under the
    key of the replica it came from, claims that replica as voter, and this
    replica leads the view after the vote's; any other vote leaves the replica
    unchanged. *)
Theorem handleVote_authenticates (src : Z) (vote : Vote) p :
  md_N (metadata (pm_conf env)) ≠ 0%Z →
  let authentic := vote_BlockHash vote ≠ [] ∧ vote_Voter vote = src
    ∧ leader_of (pm_conf env) (vote_ViewNumber vote) = id (core_env env)
    ∧ ∃ cert info, vote_Cert vote = Some cert
        ∧ Replicas (replicas (core_env env)) !! src = Some info
        ∧ Verify info (pc_Signature cert) (vote_BlockHash vote) = inr true in
  (authentic ∧ handleVote env src vote p
     = (_ ← try (lift (liftCore (OnProposalVote (core_env env) vote))); mret tt) p)
  ∨ (¬ authentic ∧ handleVote env src vote p = (Ok tt, p)).
Proof.
  intros HN authentic. unfold handleVote.
  destruct (vote_Cert vote) as [cert|] eqn:Hc.
  2: { right. split; [|done]. intros (_ & _ & _ & cert & info & Hc' & _). congruence. }
  case_decide as Hh; [right; split; [by intros [? _]|done]|].
  destruct (VerifyIdentity _ src _ _) eqn:Hv.
  2: { right. split; [|done]. intros (_ & _ & _ & cert' & info & Hc' & Hi & Hok).
       simplify_eq. unfold VerifyIdentity in Hv. by rewrite Hi, Hok in Hv. }
  case_decide as Hid; [right; split; [by intros (_ & ? & _)|done]|].
  rewrite (run_bind_Ok _ _ _ _ _ (GetLeader_run _ _ _ HN)).
  case_decide as Hl; [right; split; [by intros (_ & _ & ? & _)|done]|].
  left. split; [|done]. unfold VerifyIdentity in Hv.
  destruct (Replicas _ !! src) as [info|] eqn:Hi; [|done].
  destruct (Verify info _ _) as [e|ok] eqn:Hok; [done|]. subst ok.
  split; [done|]. split; [destruct (decide (src = vote_Voter vote)); naive_solver|].
  split; [destruct (decide (leader_of (pm_conf env) (vote_ViewNumber vote) = id (core_env env))); naive_solver|].
  by exists cert, info.
Qed.

(** Client requests: an empty command is refused with [BAD_REQUEST] and not
    queued; otherwise the command is appended to the pacemaker's queue and
    acknowledged, or the call waits while the queue holds 100 commands. *)
Theorem Submit_outcome (req : SubmitRequest) p :
  let out := SubmitRequest_handler req p in
  if decide (sreq_Cmds req = []) then
    out = (Ok (MkSubmitResponse BAD_REQUEST "", Some ErrEmptyRequest), p)
  else if decide (length (submitC p) < 100)%nat then
    out = (Ok (MkSubmitResponse SUCCESS "", None), set_submitC (submitC p ++ [sreq_Cmds req]) p)
  else out = (Park WaitChan, p).
Proof.
  intros out. unfold out, SubmitRequest_handler. case_decide; [done|]. unfold Submit, submit_capacity.
  destruct (decide (length (submitC p) < 100)%nat) as [Hlt|Hlt].
  - unfold mbind at 1, M_bind at 1, try. rewrite run_gets, decide_True by done. done.
  - unfold mbind at 1, M_bind at 1, try. rewrite run_gets, decide_False by done. done.
Qed.

End handlers.

(** ** View changes end to end *)

(** What a replica signs in its current view: the marshalled view and highest
    certificate. *)
Lemma createSigned_run {DB E W} `{DatabaseLaws DB string (Block QCRef)} (env : BaseEnv E W) t
    (p p1 : RoundRobinPM (HotStuffBase DB W)) g qc msg :
  genericQC (core (hotstuff p)) = Some g → qcHeap (core (hotstuff p)) !! g = Some qc →
  createSignedViewChange (H:=base_HotStuff env) (pm_conf env) t p = (Ok msg, p1) →
  ∃ d sig, marshal (pm_conf env) (MkNewView (curView p) (Some qc)) = inr d
    ∧ Sign (core_env env) (ent t) d = inr sig ∧ msg = MkMessage "" (Some (Message_ViewChange (MkViewChange d sig))).
Proof.
  intros Hg Hq Hc. unfold createSignedViewChange in Hc.
  rewrite run_gets in Hc. minv Hc as (h & p2 & Hh & Hc).
  unfold lift in Hh. simpl in Hh. rewrite Hg in Hh. injection Hh as <- <-.
  minv Hc as (o & p3 & Ho & Hc). minv Ho as (qc' & p4 & Hd & Ho).
  injection Ho as <- <-. unfold lift in Hd. simpl in Hd. unfold liftCore in Hd. simpl in Hd.
  rewrite (deref_run g (core (hotstuff p)) qc Hq) in Hd. injection Hd as <- <-.
  minv Hc as (d & p5 & Hd & Hc). apply orFail_Ok_inv in Hd as [Hd ->].
  rewrite run_gets in Hc. minv Hc as (sig & p6 & Hs & Hc). apply orFail_Ok_inv in Hs as [Hs ->].
  injection Hc as <- _. eauto.
Qed.

Section roundtrip.
Context {DB1 DB2 E W : Type} `{DatabaseLaws DB1 string (Block QCRef)} `{DatabaseLaws DB2 string (Block QCRef)}.
Context (sender receiver : BaseEnv E W).

(** C24 A view change survives the network: the message replica [i] signs in its
    current view is accepted by any replica that knows [i]'s key, and reaches
    that replica's pacemaker as a new-view event from [i] with the same view
    number and certificate; nothing else of the receiver changes. *)
Theorem view_change_roundtrip (i : Z) (t t' : Tick E)
    (p p1 : RoundRobinPM (HotStuffBase DB1 W)) (q : RoundRobinPM (HotStuffBase DB2 W)) g qc msg info :
  genericQC (core (hotstuff p)) = Some g → qcHeap (core (hotstuff p)) !! g = Some qc →
  (∀ d, marshal (pm_conf sender) (MkNewView (curView p) (Some qc)) = inr d →
        unmarshalNewView receiver d = inr (MkNewView (curView p) (Some qc))) →
  Replicas (replicas (core_env receiver)) !! i = Some info →
  (∀ e d sig, Sign (core_env sender) e d = inr sig → Verify info sig d = inr true) →
  createSignedViewChange (H:=base_HotStuff sender) (pm_conf sender) t p = (Ok msg, p1) →
  ∃ vc, msg = MkMessage "" (Some (Message_ViewChange vc)) ∧
    let c := core (hotstuff q) in
    handleMessage receiver t' i (MkMessage "" (Some (Message_ViewChange vc))) q
    = (Ok tt, set_hotstuff
        (MkBase (set_notifyChan (notifyChan c ++
                   [ReceiveNewViewEvent i (MkNewView (curView p) (Some (length (qcHeap c))))])
                  (set_qcHeap (qcHeap c ++ [decode_qc qc]) c))
           (Nodes (hotstuff q)) (server (hotstuff q)) (wal (hotstuff q))) q).
Proof.
  intros Hg Hq Hm Hi Hsig Hc. destruct (createSigned_run sender t p p1 g qc msg Hg Hq Hc) as (d & sig & Hd & Hs & ->).
  eexists. split; [done|]. unfold handleMessage, handleViewChange. simpl. unfold VerifyIdentity.
  rewrite Hi, (Hsig _ _ _ Hs), (Hm d Hd). done.
Qed.

End roundtrip.

(** ** What a handler does not check *)

(** A proposal without certificates crashes the replica: when the block of a
    proposal carries no [SelfQc], [handleProposal] dereferences nil, whatever
    the sender. *)
Theorem uncertified_proposal_crashes {DB E W} `{DatabaseLaws DB string (Block QCRef)}
    (env : BaseEnv E W) (t : Tick E) (src : Z) (b : Block QuorumCert) view
    (p : RoundRobinPM (HotStuffBase DB W)) :
  core_wf (core (hotstuff p)) →
  (∀ hs i d w, ∃ r w', wal_save env hs i d w = (r, w') ∧ (r = Ok tt ∨ ∃ e, r = Fail e)) →
  SelfQc b = None → Justify b = None →
  (handleMessage env t src (MkMessage "" (Some (Message_Proposal (MkProposal view (Some b))))) p).1 = Panic.
Proof.
  intros Hwf Hwal Hsq Hj. unfold handleMessage. simpl. unfold import_proposal, import_block. simpl.
  rewrite Hsq, Hj. unfold handleProposal, lift, liftCore, liftWal, try, mbind, M_bind. simpl.
  destruct (wf_lookup _ _ (wf_exec _ Hwf)) as (x & xq & Hx & Hxq). rewrite Hx.
  rewrite (deref_run x (core (hotstuff p)) xq Hxq). simpl.
  destruct (LoadBlock_run (qc_BlockHash xq) _ (wf_store _ Hwf)) as (r & s' & Hl & _). rewrite Hl.
  destruct r as [e|eb]; simpl; [done|].
  match goal with |- context [wal_save env ?a ?b ?c ?w] =>
    destruct (Hwal a b c w) as (r & w' & -> & [-> | [e ->]]) end; done.
Qed.

(** ** Connections *)

(** A node is reported connected exactly while its stream is open: after any
    sequence of dials, messages and failures, [Connected] is true iff the
    worker is receiving, and every queued message carries the node's id. *)
Theorem worker_connected {Msg} (n : NodeInfo) (es : list (worker_event Msg)) w :
  foldl (λ o e, o ≫= worker_step e) (Some (ConnectWorker n)) es = Some w →
  (Connected (w_node w) = true ↔ w_phase w = Streaming)
  ∧ node_Id (w_node w) = node_Id n ∧ Forall (λ x, x.1 = node_Id n) (w_queue w)
  ∧ (w_queue w).*2 = omap (λ e, match e with Received m => Some m | _ => None end) es.
Proof.
  revert w. induction es as [|e es IH] using rev_ind; intros w Hw.
  { injection Hw as <-. done. }
  rewrite foldl_snoc in Hw. destruct (foldl _ _ es) as [w0|]; [|done]. simpl in Hw.
  destruct (IH w0 eq_refl) as (Hc & Hid & Hq & Hm). rewrite omap_app, <-Hm. unfold worker_step in Hw.
  destruct (w_phase w0) eqn:Hp, e; simplify_eq; simpl; rewrite ?app_nil_r; split_and!; try done.
  - apply Forall_app_2; [done|]. by constructor.
  - by rewrite fmap_app.
Qed.

(** ** Witnesses: replica 1 of four *)

Module ToyBase.

Definition nodes : list NodeInfo :=
  [MkNodeInfo 0 "a" None false; MkNodeInfo 1 "b" None false;
   MkNodeInfo 2 "c" None true; MkNodeInfo 3 "d" None true].

Definition table (i : Z) : gmap Z NodeInfo :=
  list_to_map ((λ n, (node_Id n, if decide (node_Id n = i) then set_Connected true n else n)) <$> nodes).

Definition conf (i : Z) : PMConf :=
  MkPMConf i (MkConfigMetadata 4 1 3) (λ _, inr [x6e]) map_to_list 1000.

(** New-view messages of this configuration all encode the genesis certificate. *)
Definition genesis_view : NewView QuorumCert :=
  MkNewView 0 (Some (MkQuorumCert (-1) ToyCore.ghash (Some ∅))).

Definition env (i : Z) : BaseEnv unit unit :=
  MkBaseEnv (ToyCore.env i) (conf i) (λ _, []) (λ _, inr genesis_view) (λ _ _ _, mret tt).

Definition base (i : Z) : HotStuffBase CoreDB unit := MkBase initCore (table i) NewABServer tt.
Definition replica (i : Z) : RoundRobinPM (HotStuffBase CoreDB unit) := NewRoundRobinPM (base i).

Definition tick : Tick unit := MkTick 7 tt.

(** Replica 1 with [b1] received, and the vote of replica 2 for it in view 0,
    whose next leader is replica 1. *)
Definition vote (i : Z) : Vote := MkVote 0 i ToyCore.h1 (Toy.cert i ToyCore.h1).

End ToyBase.

(** Replica 1 receives [b1] and [b2]; the certificate of [b1] becomes the highest. *)
Lemma replica_certified_witness :
  let send v b := InMessage ToyBase.tick 0 (MkMessage "" (Some (Message_Proposal (MkProposal v (Some b))))) in
  let b1 := MkBlock ToyCore.ghash [x61] 0 1 0 (Some (Toy.qc 0 ToyCore.ghash [])) (Some (Toy.qc 1 ToyCore.h1 [])) in
  let b2 := MkBlock ToyCore.h1 [x62] 0 2 0 (Some (Toy.qc 1 ToyCore.h1 [0; 2; 3]%Z)) (Some (Toy.qc 2 ToyCore.h2 [])) in
  let p1 := (run_input (ToyBase.env 1) (send 1%Z b1) (ToyBase.replica 1)).2 in
  let c := core (hotstuff (run_input (ToyBase.env 1) (send 2%Z b2) p1).2) in
  HqcUpdateEvent (Some 3%nat) ∈ notifyChan c
  ∧ ∃ r qc, Some 3%nat = Some r ∧ qcHeap c !! r = Some qc ∧ (4 - 1 ≤ Z.of_nat (size (signers Toy.conf qc)))%Z.
Proof.
  intros send b1 b2 p1 c.
  assert (Hin : HqcUpdateEvent (Some 3%nat) ∈ notifyChan c) by (apply (list_elem_of_lookup_2 _ 1); ToyCore.by_vm).
  split; [exact Hin|].
  apply (replica_certified ToyTLS.x509 (ToyBase.env 1) (λ _, false) 1 ToyBase.nodes tt ToyTLS.net
    (ToyBase.base 1) (MkNet {["b"]}) (run_input (ToyBase.env 1) (send 2%Z b2) p1).2).
  - split; simpl; lia.
  - vm_compute. reflexivity.
  - apply (rtc_l _ _ p1).
    + apply (step_input (ToyBase.env 1) (send 1%Z b1) (ToyBase.replica 1)). exact I.
    + apply rtc_once. apply (step_input (ToyBase.env 1) (send 2%Z b2) p1). exact I.
  - exact Hin.
Defined.

Lemma handleVote_authenticates_witness :
  handleVote (ToyBase.env 1) 2 (ToyBase.vote 3) (ToyBase.replica 1) = (Ok tt, ToyBase.replica 1).
Proof.
  destruct (handleVote_authenticates (ToyBase.env 1) 2 (ToyBase.vote 3) (ToyBase.replica 1))
    as [[Ha _]|[_ Hr]].
  - discriminate.
  - destruct Ha as (_ & Ha & _). discriminate Ha.
  - exact Hr.
Defined.

Lemma view_change_roundtrip_witness :
  ∃ vc, MkMessage (Q:=QCRef) "" (Some (Message_ViewChange (MkViewChange [x6e] (Toy.sign 2 [x6e]))))
        = MkMessage "" (Some (Message_ViewChange vc)) ∧
    let q := ToyBase.replica 1 in
    let c := core (hotstuff q) in
    handleMessage (ToyBase.env 1) ToyBase.tick 2 (MkMessage "" (Some (Message_ViewChange vc))) q
    = (Ok tt, set_hotstuff
        (MkBase (set_notifyChan (notifyChan c ++
                   [ReceiveNewViewEvent 2 (MkNewView 0 (Some (length (qcHeap c))))])
                  (set_qcHeap (qcHeap c ++ [decode_qc (MkQuorumCert (-1) ToyCore.ghash (Some ∅))]) c))
           (Nodes (hotstuff q)) (server (hotstuff q)) (wal (hotstuff q))) q).
Proof.
  apply (view_change_roundtrip (ToyBase.env 2) (ToyBase.env 1) 2 ToyBase.tick ToyBase.tick
    (ToyBase.replica 2) (ToyBase.replica 2) (ToyBase.replica 1) 0%nat _ _ (Toy.info 2)).
  - reflexivity.
  - reflexivity.
  - reflexivity.
  - reflexivity.
  - intros e d sig Hs. injection Hs as <-. simpl. by rewrite bool_decide_eq_true_2.
  - reflexivity.
Defined.

Lemma uncertified_proposal_crashes_witness :
  (handleMessage (ToyBase.env 1) ToyBase.tick 3
     (MkMessage "" (Some (Message_Proposal (MkProposal 1
        (Some (MkBlock ToyCore.ghash [x61] 3 1 0 None None)))))) (ToyBase.replica 1)).1 = Panic.
Proof.
  apply (uncertified_proposal_crashes (ToyBase.env 1)).
  - apply initCore_wf.
  - intros hs i d w. exists (Ok tt), w. split; [reflexivity|]. left. reflexivity.
  - reflexivity.
  - reflexivity.
Defined.

Lemma worker_connected_witness :
  let es := [DialFailed; DialOk; Received 7%nat; StreamBroke] in
  (false = true ↔ Dialing = Streaming) ∧ [7%nat] = omap (λ e, match e with Received m => Some m | _ => None end) es.
Proof.
  intros es.
  destruct (worker_connected (MkNodeInfo 2 "c" None false) es
    (MkWorker Dialing (MkNodeInfo 2 "c" None false) [(2%Z, 7%nat)])) as (Hc & _ & _ & Hm).
  - reflexivity.
  - split; [exact Hc|exact Hm].
Defined.
