(* ===== verification/ReplicaSafety.v ===== *)
(** * Panic freedom of a whole replica

    What the pacemaker needs of the consensus core so as not to panic, as an
    interface ([HotStuffSafe]): certificate pointers stay readable, and a call
    whose pointers are readable does not panic.  The pacemaker is proved panic
    free against it; [HotStuffBase] discharges it; and the message handlers and
    events of [consensus/hotstuff.go] are composed, which leaves two ways to die
    for well-formed input: [handleProposal] reads the last executed block, and
    the block cache may have evicted it; and the recursions over disconnected
    leaders may overflow the stack. *)

From stdpp Require Import base numbers fin_maps gmap sets strings list.
From Stdlib Require Import Strings.Byte.
From S2P Require Import Prelude GoMonad Encoding Types Database LRUCache Entity Core.
From S2P Require Import CoreLemmas CoreSafety CoreSpec CoreCert CoreProps.
From S2P Require Import Pacemaker PacemakerProps Transport Grpc Base Replica.

(** ** The interface *)

(** [hs_refs] counts the certificates in memory; a pointer is readable when it
    points to one of them ([ref_ok]). *)
Class HotStuffInv (HS : Type) := { hs_ok : HS → Prop; hs_refs : HS → nat }.

Definition hs_at `{HotStuffInv HS} (k : nat) (h : HS) : Prop := hs_ok h ∧ (k ≤ hs_refs h)%nat.

Class HotStuffSafe (HS T : Type) `{HotStuff HS T, HotStuffInv HS} : Prop := {
  sf_OnPropose k t v p c : sound (hs_at k) (hs_OnPropose t v p c);
  sf_OnProposalVote k vote : is_Some (vote_Cert vote) → sound (hs_at k) (hs_OnProposalVote vote);
  sf_UpdateHighestQC k b qc : ref_ok k qc → sound (hs_at k) (hs_UpdateHighestQC b qc);
  sf_GetHighQC h : hs_ok h → ∃ o, hs_GetHighQC h = (Ok o, h) ∧ ref_ok (hs_refs h) o;
  sf_read k o : ref_ok k o → sound (hs_at k) (hs_read o);
  sf_AsyncWaitBlock k h : sound (hs_at k) (hs_AsyncWaitBlock h);
  sf_AsyncWaitBlock_wake k h : sound (hs_at k) (hs_AsyncWaitBlock_wake h);
  sf_Unicast k m d : sound (hs_at k) (hs_Unicast m d);
  sf_Broadcast k m : sound (hs_at k) (hs_Broadcast m) }.

(** ** The pacemaker against the interface *)

Section pacemaker.
Context {HS T : Type} `{HotStuffSafe HS T} (conf : PMConf).
Implicit Types (p : RoundRobinPM HS).

Hypothesis replicas_exist : md_N (metadata conf) ≠ 0%Z.

(** The certificates of the new-view messages it keeps are readable. *)
Definition views_ok (n : nat) (vs : gmap Z (gmap Z (NewView QCRef))) : Prop :=
  ∀ v m i nv, vs !! v = Some m → m !! i = Some nv → ref_ok n (nv_GenericQc nv).

Definition pm_at (k : nat) p : Prop := hs_at k (hotstuff p) ∧ views_ok (hs_refs (hotstuff p)) (views p).

Lemma views_ok_mono n n' vs : (n ≤ n')%nat → views_ok n vs → views_ok n' vs.
Proof. intros Hle Hv v m i nv Hm Hi. eapply ref_ok_mono; eauto. Qed.

(** With at least the certificates the state has now. *)
Lemma pm_at_now k p : pm_at k p → pm_at (hs_refs (hotstuff p)) p.
Proof. intros [[? ?] ?]. done. Qed.

Lemma pm_at_mono k k' p : (k' ≤ k)%nat → pm_at k p → pm_at k' p.
Proof. intros Hle [[? ?] ?]. split; [split; [done|lia]|done]. Qed.

(** A method that is sound for the certificates the state has. *)
Lemma sound_now {A} (m : M (RoundRobinPM HS) A) k p :
  pm_at k p → sound (pm_at (hs_refs (hotstuff p))) m → sound_at (pm_at k) m p.
Proof.
  intros Hp Hm. destruct (Hm p (pm_at_now k p Hp)) as [Hn Hi]. split; [done|].
  eapply pm_at_mono; [|exact Hi]. apply Hp.
Qed.

Lemma sound_lift {A} (m : M HS A) k : (∀ k', (k ≤ k')%nat → sound (hs_at k') m) → sound (pm_at k) (lift m).
Proof.
  intros Hm p [[Hok Hk] Hv]. destruct (Hm _ Hk (hotstuff p)) as [Hn [Hok' Hk']]; [done|].
  unfold sound_at, lift. destruct (m (hotstuff p)) as [r h]; simpl in *. split; [done|].
  unfold pm_at, hs_at. simpl. split; [split; [done|lia]|]. by eapply views_ok_mono.
Qed.

Lemma sound_set (f : RoundRobinPM HS → RoundRobinPM HS) k :
  (∀ p, hotstuff (f p) = hotstuff p) → (∀ p, views (f p) = views p) → sound (pm_at k) (modify f).
Proof. intros Hh Hv. apply sound_modify. intros p [Hk Hvs]. split; by rewrite ?Hh, ?Hv. Qed.

Lemma ref_ok_le k k' o : (k ≤ k')%nat → ref_ok k o → ref_ok k' o.
Proof. apply ref_ok_mono. Qed.

Hint Extern 3 (sound _ (modify _)) => apply sound_set; intros; reflexivity : sound.
Hint Extern 2 (sound _ (lift _)) => apply sound_lift; intros ? ? : sound.
Hint Resolve sf_OnPropose sf_OnProposalVote sf_UpdateHighestQC sf_read sf_AsyncWaitBlock
  sf_AsyncWaitBlock_wake sf_Unicast sf_Broadcast ref_ok_le : sound.

Lemma sound_GetLeader k v : sound (pm_at k) (GetLeader (HS:=HS) conf v).
Proof. unfold GetLeader. rewrite decide_False by done. apply sound_ret. Qed.

Lemma sound_GetCurLeader k v : sound (pm_at k) (GetCurLeader (HS:=HS) conf v).
Proof. unfold GetCurLeader. rewrite decide_False by done. apply sound_ret. Qed.
Hint Resolve sound_GetLeader sound_GetCurLeader : sound.

(** The highest certificate is never nil, so what follows may read it. *)
Lemma sound_high {B} (f : option QCRef → M (RoundRobinPM HS) B) k :
  (∀ k' o, (k ≤ k')%nat → ref_ok k' o → sound (pm_at k') (f o)) →
  sound (pm_at k) (lift hs_GetHighQC ≫= f).
Proof.
  intros Hf p Hp. destruct (sf_GetHighQC (hotstuff p)) as (o & Ho & Hr); [apply Hp|].
  apply sound_at_bind.
  - unfold sound_at, lift. rewrite Ho. split; [done|]. by destruct p.
  - intros a p' Hrun Hp'. unfold lift in Hrun. rewrite Ho in Hrun. injection Hrun as <- <-.
    apply sound_now; [done|]. simpl. apply Hf; [apply Hp|done].
Qed.

Ltac pm_sound := unfold GetConnectStatus, go, storeView, addView, startNewViewTimer, stopNewViewTimer; sounds.

Lemma sound_Submit k c : sound (pm_at k) (Submit (HS:=HS) c).
Proof. unfold Submit. pm_sound. Qed.

Lemma sound_OnBeat k t : sound (pm_at k) (OnBeat (HS:=HS) (T:=T) conf t).
Proof.
  unfold OnBeat. apply sound_bind; [pm_sound|]. intros [|s c]; [pm_sound|].
  do 3 (apply sound_bind; [pm_sound|intros ?]). case_decide; [pm_sound|].
  apply sound_bind; [pm_sound|]. intros cv. apply sound_high. intros k' o Hk Ho. pm_sound.
Qed.

Lemma sound_UpdateQcHigh k v qc : sound (pm_at k) (UpdateQcHigh (HS:=HS) v qc).
Proof. unfold UpdateQcHigh. pm_sound. Qed.

Lemma sound_createSigned k t : sound (pm_at k) (createSignedViewChange (HS:=HS) (T:=T) conf t).
Proof.
  unfold createSignedViewChange. apply sound_bind; [pm_sound|]. intros cv. apply sound_high.
  intros k' o Hk Ho. apply sound_bind; [destruct o; pm_sound|]. intros q. pm_sound.
Qed.

Hint Resolve sound_Submit sound_OnBeat sound_UpdateQcHigh sound_createSigned : sound.

(** Keeping a message whose certificate is readable. *)
Lemma sound_put k v i nv (m : gmap Z (NewView QCRef)) p :
  pm_at k p → ref_ok k (nv_GenericQc nv) →
  (∀ j nv', m !! j = Some nv' → ref_ok (hs_refs (hotstuff p)) (nv_GenericQc nv')) →
  sound_at (pm_at k) (modify (λ p, set_views (<[v := <[i := nv]> m]> (views p)) p)) p.
Proof.
  intros [Hk Hv] Hr Hm. split; [done|]. split; [done|]. simpl. intros v' m' j nv' Hl Hj.
  rewrite lookup_insert_Some in Hl. destruct Hl as [[_ <-] | [_ Hl]]; [|by eapply Hv].
  rewrite lookup_insert_Some in Hj. destruct Hj as [[_ <-] | [_ Hj]]; [|by eapply Hm].
  eapply ref_ok_mono; [|exact Hr]. apply Hk.
Qed.

Lemma sound_addNewViewMsg k i nv :
  ref_ok k (nv_GenericQc nv) → sound (pm_at k) (addNewViewMsg (HS:=HS) (T:=T) conf i nv).
Proof.
  intros Hr. unfold addNewViewMsg. cbv zeta. apply sound_gets_bind. intros p Hp. pose proof Hp as [Hk Hv].
  destruct (views p !! nv_ViewNumber nv) as [m|] eqn:Em.
  - assert (∀ j nv', m !! j = Some nv' → ref_ok (hs_refs (hotstuff p)) (nv_GenericQc nv')) as Hm by eauto.
    case_decide; [by apply sound_ret|]. destruct (m !! i) as [view|] eqn:Ei.
    + apply sound_now; [done|]. assert (ref_ok (hs_refs (hotstuff p)) (nv_GenericQc nv)) as Hr'.
      { eapply ref_ok_mono; [|exact Hr]. apply Hk. }
      apply sound_bind; [eauto with sound|]. intros old. apply sound_bind; [eauto with sound|]. intros new.
      apply sound_bind; [|intros; apply sound_ret]. apply sound_when. intros p' Hp'. apply sound_put; [done|done|].
      intros j nv' Hj. eapply ref_ok_mono; [|by eapply Hm]. apply Hp'.
    + apply sound_at_bind; [by apply sound_put|]. intros _ p' _ Hp'. case_decide; by apply sound_ret.
  - apply sound_at_bind; [|intros _ p' _ Hp'; case_decide; by apply sound_ret].
    rewrite <- insert_empty. apply sound_put; [done|done|]. intros j nv'. by rewrite lookup_empty.
Qed.
Hint Resolve sound_addNewViewMsg : sound.

Lemma sound_processNewView k t i nv r :
  ref_ok k (nv_GenericQc nv) → sound (pm_at k) (processNewView (HS:=HS) (T:=T) conf t i nv r).
Proof.
  intros Hr. unfold processNewView. destruct r as [e|block]; [pm_sound|].
  apply sound_bind; [pm_sound|]. intros g. apply sound_high. intros k' o Hk Ho.
  assert (ref_ok k' (nv_GenericQc nv)) as Hr' by (by eapply ref_ok_mono).
  apply sound_bind; [pm_sound|]. intros hq. pm_sound.
Qed.
Hint Resolve sound_processNewView : sound.

Lemma sound_OnReceiveNewView k t i nv :
  ref_ok k (nv_GenericQc nv) → sound (pm_at k) (OnReceiveNewView (HS:=HS) (T:=T) conf t i nv).
Proof.
  intros Hr. unfold OnReceiveNewView. apply sound_bind; [pm_sound|]. intros cv.
  case_decide; [pm_sound|]. apply sound_bind; [pm_sound|]. intros g. apply sound_high. intros k' o Hk Ho.
  assert (ref_ok k' (nv_GenericQc nv)) as Hr' by (by eapply ref_ok_mono). pm_sound.
Qed.
Hint Resolve sound_OnReceiveNewView : sound.

Lemma sound_OnReceiveNewView_wake k t i nv :
  ref_ok k (nv_GenericQc nv) → sound (pm_at k) (OnReceiveNewView_wake (HS:=HS) (T:=T) conf t i nv).
Proof. intros Hr. unfold OnReceiveNewView_wake. pm_sound. Qed.

Lemma sound_clearViews k : sound (pm_at k) (clearViews (HS:=HS)).
Proof.
  apply sound_modify. intros p [Hk Hv]. split; [done|]. simpl. intros v m i nv Hm Hi.
  apply map_lookup_filter_Some in Hm as [Hm _]. by eapply Hv.
Qed.
Hint Resolve sound_clearViews : sound.

Lemma sound_enterView k t l : sound (pm_at k) (enterView (HS:=HS) (T:=T) conf t l).
Proof.
  unfold enterView. case_decide; [pm_sound|]. apply sound_bind; [pm_sound|]. intros c.
  apply sound_bind; [|intros; pm_sound]. case_decide; [|pm_sound].
  apply sound_bind; [pm_sound|]. intros cv. intros p Hp.
  assert (sound (pm_at k) (h ← lift hs_GetHighQC; OnReceiveNewView conf t (replicaId conf) (MkNewView cv h))) as Hs.
  { apply sound_high. intros k' o Hk Ho. by apply sound_OnReceiveNewView. }
  by apply Hs.
Qed.
Hint Resolve sound_enterView : sound.

Lemma sound_OnNextSyncView k fuel t : sound (pm_at k) (OnNextSyncView (HS:=HS) (T:=T) conf fuel t).
Proof. induction fuel as [|fuel IH]; cbn [OnNextSyncView]; pm_sound. Qed.

Lemma sound_deliverVote k pv vote :
  is_Some (vote_Cert vote) → sound (pm_at k) (deliverVote (HS:=HS) (T:=T) conf pv vote).
Proof. intros Hv. unfold deliverVote. pm_sound. Qed.
Hint Resolve sound_OnNextSyncView sound_deliverVote : sound.

Lemma sound_OnReceiveProposal k fuel vote : is_Some (vote_Cert vote) →
  ∀ pv, sound (pm_at k) (Pacemaker.OnReceiveProposal (HS:=HS) (T:=T) conf fuel pv vote).
Proof. intros Hv. induction fuel as [|fuel IH]; intros pv; cbn [Pacemaker.OnReceiveProposal]; pm_sound. Qed.

Lemma sound_OnProposeEvent k prop : sound (pm_at k) (OnProposeEvent (HS:=HS) (T:=T) conf prop).
Proof. unfold OnProposeEvent. pm_sound. Qed.

Lemma sound_OnQcFinishEvent k qc :
  ref_ok k qc → sound (pm_at k) (OnQcFinishEvent (HS:=HS) (T:=T) conf qc).
Proof. intros Hr. unfold OnQcFinishEvent. pm_sound. Qed.

Lemma sound_DoDecide k b : sound (pm_at k) (DoDecide (HS:=HS) b).
Proof. unfold DoDecide. pm_sound. Qed.

Lemma sound_enterView_wake k t nv :
  ref_ok k (nv_GenericQc nv) → sound (pm_at k) (enterView_wake (HS:=HS) (T:=T) conf t nv).
Proof.
  intros Hr. unfold enterView_wake. apply sound_bind; [by apply sound_OnReceiveNewView_wake|].
  intros _. apply sound_clearViews.
Qed.

(** A recursion that is sound panics only when it overflows the stack. *)
Lemma sound_unwound {A} k (m : M (RoundRobinPM HS) (option A)) p :
  pm_at k p → sound (pm_at k) m → (m p).1 ≠ Ok None → sound_at (pm_at k) (unwound m) p.
Proof.
  intros Hp Hm Hn. destruct (Hm p Hp) as [Hnp Hat]. unfold sound_at, unwound, mbind, M_bind in *.
  by destruct (m p) as [[[]|e| |w] ?].
Qed.

(** The view from which an event or a goroutine recurses over leaders. *)
Definition skips_from (e : pm_event T) p : option Z :=
  match e with
  | EvTask _ TaskNextSyncView | EvTimer _ => Some (curView p)
  | EvReceiveProposal pv _ => Some (start_view p pv)
  | _ => None
  end.

(** No leader within the depth of the stack is this replica or connected. *)
Definition overflows (e : pm_event T) p : Prop :=
  match skips_from e p with
  | Some v => ∀ j, (j < stack_depth conf)%nat → ¬ stops conf p (v + Z.of_nat j)
  | None => False
  end.

#[global] Instance overflows_dec e p : Decision (overflows e p).
Proof.
  unfold overflows. destruct (skips_from e p) as [v|]; [|apply _].
  refine (cast_if (decide (Forall (λ j, ¬ stops conf p (v + Z.of_nat j)) (seq 0 (stack_depth conf)))));
    rewrite Forall_forall in *; setoid_rewrite elem_of_seq in f || setoid_rewrite elem_of_seq in n.
  - intros j Hj. apply f. lia.
  - intros Hall. apply n. intros j Hj. apply Hall. lia.
Defined.

(** The certificates an event carries. *)
Definition pm_event_ok (k : nat) (e : pm_event T) : Prop :=
  match e with
  | EvReceiveProposal _ vote => is_Some (vote_Cert vote)
  | EvNewView _ _ nv | EvNewViewWake _ _ nv | EvNextSyncWake _ nv => ref_ok k (nv_GenericQc nv)
  | EvQcFinish qc => ref_ok k qc
  | _ => True
  end.

(** An event of the pacemaker panics exactly when its recursion overflows. *)
Lemma run_event_exact e k p :
  pm_at k p → pm_event_ok k e →
  (overflows e p → (run_event conf e p).1 = Panic)
  ∧ (¬ overflows e p → sound_at (pm_at k) (run_event conf e) p).
Proof.
  intros Hp He.
  assert (Hsync : ∀ t, (overflows (EvTimer t) p → (run_event conf (EvTimer t) p).1 = Panic)
    ∧ (¬ overflows (EvTimer t) p → sound_at (pm_at k) (run_event conf (EvTimer t)) p)).
  { intros t. unfold overflows. cbn [run_event run_task skips_from].
    rewrite <-(next_sync_none conf t) by done. split; [intros Hn; apply unwound_panic; by left|].
    intros Hn. apply sound_unwound; [done|apply sound_OnNextSyncView|done]. }
  assert (Hnone : ∀ m : M (RoundRobinPM HS) unit, sound (pm_at k) m → skips_from e p = None →
    (overflows e p → (m p).1 = Panic) ∧ (¬ overflows e p → sound_at (pm_at k) m p)).
  { intros m Hm Hs. unfold overflows. rewrite Hs. split; [done|]. intros _. by apply Hm. }
  destruct e; cbn [run_event] in *; try (apply Hnone; [|done]).
  - unfold Run. pm_sound.
  - apply sound_Submit.
  - destruct task; cbn [run_task]; try (apply Hnone; [|done]); [apply sound_OnBeat|exact (Hsync t)|pm_sound..].
  - exact (Hsync t).
  - apply sound_OnProposeEvent.
  - unfold overflows. cbn [skips_from]. rewrite <-(receive_proposal_none conf vote) by done.
    split; [intros Hn; apply unwound_panic; by left|].
    intros Hn. apply sound_unwound; [done|by apply sound_OnReceiveProposal|done].
  - by apply sound_OnReceiveNewView.
  - by apply sound_OnReceiveNewView_wake.
  - by apply sound_enterView_wake.
  - by apply sound_OnQcFinishEvent.
  - apply sound_UpdateQcHigh.
  - apply sound_DoDecide.
Qed.

End pacemaker.

(** ** [HotStuffBase] discharges the interface *)

Section implementation.
Context {DB E W : Type} `{DatabaseLaws DB string (Block QCRef)} (env : BaseEnv E W).
Hypothesis clone_copies : ∀ qc, clone (core_env env) qc = qc.

#[local] Hint Extern 0 (HotStuff _ _) => exact (base_HotStuff env) : typeclass_instances.

#[local] Instance base_inv : HotStuffInv (HotStuffBase DB W) :=
  {| hs_ok b := core_wf (core b); hs_refs b := length (qcHeap (core b)) |}.

Lemma safe_sound {A} (m : M (HotStuffCore DB) A) s Q :
  safe m s Q → (m s).1 ≠ Panic ∧ core_wf (m s).2 ∧ (length (qcHeap s) ≤ length (qcHeap (m s).2))%nat.
Proof. unfold safe. destruct (m s) as [[] ?]; simpl; naive_solver. Qed.

Lemma sound_liftCore {A} (m : M (HotStuffCore DB) A) k :
  (∀ s, core_wf s → (k ≤ length (qcHeap s))%nat → ∃ Q, safe m s Q) → sound (hs_at k) (liftCore (W:=W) m).
Proof.
  intros Hm b [Hok Hk]. simpl in Hok, Hk. destruct (Hm _ Hok Hk) as [Q Hs].
  destruct (safe_sound m _ Q Hs) as (Hn & Hw & Hl).
  unfold sound_at, liftCore, hs_at. destruct (m (core b)) as [r s]. simpl in *. split_and!; [done|done|lia].
Qed.

Lemma sound_liftServer {A} (m : M (abServer (Message QCRef)) A) k :
  (∀ a, (m a).1 ≠ Panic) → sound (hs_at k) (liftServer (DB:=DB) (W:=W) m).
Proof.
  intros Hm b [Hok Hk]. specialize (Hm (server b)). unfold sound_at, liftServer, hs_at.
  by destruct (m (server b)).
Qed.

Lemma safe_AsyncWaitBlock h s : core_wf s → safe (AsyncWaitBlock h) s (λ _ _, True).
Proof.
  intros Hwf. unfold AsyncWaitBlock. eapply safe_bind; [by apply (safe_LoadBlock h s (λ _ _, True))|].
  intros [e|b] s' Hwf' _ _; [|by apply safe_ret]. unfold safe. simpl. done.
Qed.

#[local] Instance base_safe : HotStuffSafe (HotStuffBase DB W) (Tick E) (H:=base_HotStuff env).
Proof.
  split; simpl; intros; try apply sound_liftServer; try (apply sound_liftCore; intros s Hwf Hk; eexists).
  - by apply safe_OnPropose.
  - by apply safe_OnProposalVote.
  - apply safe_UpdateHighestQC; [done|]. by eapply ref_ok_mono.
  - exists (genericQC (core h)). split; [by destruct h|apply wf_generic; done].
  - apply (safe_deref _ _ (λ _ _, True)); [done| |done]. by eapply ref_ok_mono.
  - by apply safe_AsyncWaitBlock.
  - by apply (safe_LoadBlock _ s (λ _ _, True)).
  - intros a. unfold Unicast. rewrite run_gets. by destruct (sendChan a !! d).
  - done.
Qed.

(** ** Handlers and events *)

Hypothesis replicas_exist : md_N (metadata (pm_conf env)) ≠ 0%Z.
Hypothesis wal_returns : ∀ hs i d w, (wal_save env hs i d w).1 ≠ Panic.

Local Abbreviation Replica := (RoundRobinPM (HotStuffBase DB W)).
Implicit Types (p : RoundRobinPM (HotStuffBase DB W)).

(** The cache no longer holds the block [execQC] names. *)
Definition evicted p : Prop := qc_block (core (hotstuff p)) (execQC (core (hotstuff p))) = None.

(** Messages as [proto.Unmarshal] delivers them from a correct sender: the
    certificates of a block are set, and no map value is nil. *)
Definition cert_set (o : option QuorumCert) : Prop := ∃ qc, o = Some qc ∧ certs_ok (signs qc).

Definition message_ok (msg : Message QuorumCert) : Prop :=
  match msg_Type msg with
  | Some (Message_Proposal pr) => ∀ b, prop_Block pr = Some b → cert_set (Justify b) ∧ cert_set (SelfQc b)
  | Some (Message_ViewChange vc) =>
      ∀ nv qc, unmarshalNewView env (vc_Data vc) = inr nv → nv_GenericQc nv = Some qc → certs_ok (signs qc)
  | _ => True
  end.

Definition input_ok (i : input (E:=E)) p : Prop :=
  match i with
  | InMessage _ _ msg => message_ok msg
  | InEvent _ n => n ∈ notifyChan (core (hotstuff p))
  | InResumeView _ _ view | InResumeSync _ view => ref_ok (length (qcHeap (core (hotstuff p)))) (nv_GenericQc view)
  | InResumeProposal _ pr => prop_ok (length (qcHeap (core (hotstuff p)))) pr
  | _ => True
  end.

Lemma signs_decode qc : signs (decode_qc qc) = signs qc.
Proof. unfold decode_qc. case_decide as Hs; [|done]. unfold signs at 1. simpl. by rewrite Hs. Qed.

(** Receiving the certificate of a message. *)
Lemma import_qc_run o (s : HotStuffCore DB) :
  core_wf s → cert_set o → ∃ qc, import_qc o s = (Ok (Some (length (qcHeap s))), set_qcHeap (qcHeap s ++ [qc]) s)
    ∧ core_wf (set_qcHeap (qcHeap s ++ [qc]) s).
Proof.
  intros Hwf (qc & -> & Hc). exists (decode_qc qc). split; [done|]. apply wf_alloc; [done|]. by rewrite signs_decode.
Qed.

Lemma import_block_run b (s : HotStuffCore DB) :
  core_wf s → cert_set (Justify b) → cert_set (SelfQc b) →
  ∃ qc1 qc2, let s' := set_qcHeap (qcHeap s ++ [qc1; qc2]) s in
    import_block b s
    = (Ok (MkBlock (ParentHash b) (Cmds b) (Proposer b) (Height b) (Timestamp b)
             (Some (length (qcHeap s))) (Some (S (length (qcHeap s))))), s') ∧ core_wf s'.
Proof.
  intros Hwf Hj Hs. destruct (import_qc_run _ s Hwf Hj) as (qc1 & H1 & Hwf1).
  destruct (import_qc_run _ _ Hwf1 Hs) as (qc2 & H2 & Hwf2). exists qc1, qc2. cbv zeta.
  unfold import_block. rewrite (run_bind_Ok _ _ _ _ _ H1), (run_bind_Ok _ _ _ _ _ H2). simpl in *.
  rewrite length_app, <- app_assoc in *. simpl in *. rewrite Nat.add_1_r. done.
Qed.

Local Abbreviation at_ := (pm_at (HS:=HotStuffBase DB W)).

Lemma lift_pure {A} (m : M (HotStuffCore DB) A) a p :
  m (core (hotstuff p)) = (Ok a, core (hotstuff p)) → lift (liftCore m) p = (Ok a, p).
Proof. intros Hm. unfold lift, liftCore. rewrite Hm. by destruct p as [[]]. Qed.

Lemma export_qc_run o (s : HotStuffCore DB) :
  ref_ok (length (qcHeap s)) o → ∃ w, export_qc o s = (Ok w, s).
Proof.
  intros (r & -> & Hlt). apply lookup_lt_is_Some in Hlt as [qc Hq]. exists (Some qc).
  unfold export_qc. by rewrite (run_bind_Ok _ _ _ _ _ (deref_run r s qc Hq)).
Qed.

Lemma export_proposal_run pr b (s : HotStuffCore DB) :
  prop_Block pr = Some b → ref_ok (length (qcHeap s)) (Justify b) → ref_ok (length (qcHeap s)) (SelfQc b) →
  ∃ w, export_proposal pr s = (Ok w, s).
Proof.
  intros Hb Hj Hs. unfold export_proposal. rewrite Hb.
  destruct (export_qc_run _ s Hj) as [wj Hwj], (export_qc_run _ s Hs) as [ws Hws].
  rewrite (run_bind_Ok _ _ _ _ _ Hwj), (run_bind_Ok _ _ _ _ _ Hws). eauto.
Qed.

Lemma sound_core {A} (m : M (HotStuffCore DB) A) k :
  (∀ s, core_wf s → (k ≤ length (qcHeap s))%nat → ∃ Q, safe m s Q) → sound (at_ k) (lift (liftCore m)).
Proof.
  intros Hm. apply sound_lift. intros k' Hk. apply sound_liftCore.
  intros s Hwf Hs. apply Hm; [done|lia].
Qed.

Lemma sound_wal {A} (m : M W A) k : (∀ w, (m w).1 ≠ Panic) → sound (at_ k) (lift (liftWal m)).
Proof.
  intros Hm. apply sound_lift. intros k' _ b Hb. specialize (Hm (wal b)).
  unfold sound_at, liftWal, hs_at in *. by destruct (m (wal b)).
Qed.

(** [handleProposal] panics exactly when the executed block was evicted. *)
Lemma handleProposal_exact t pr b k p :
  at_ k p → prop_Block pr = Some b → ref_ok k (Justify b) → ref_ok k (SelfQc b) →
  (evicted p → (handleProposal env t pr p).1 = Panic) ∧
  (¬ evicted p → sound_at (at_ k) (handleProposal env t pr) p).
Proof.
  intros Hp Hb Hj Hs. pose proof Hp as [[Hwf Hk] Hv]. simpl in Hwf, Hk.
  destruct (export_proposal_run pr b (core (hotstuff p)) Hb) as [w Hw]; [by eapply ref_ok_mono..|].
  destruct (wf_lookup _ _ (wf_exec _ Hwf)) as (x & xq & Hx & Hxq).
  destruct (LoadBlock_run (qc_BlockHash xq) _ (wf_store _ Hwf)) as (r & s' & Hl & He & Hok & Hst).
  assert (evicted p ↔ stored (core (hotstuff p)) (qc_BlockHash xq) = None) as Hev.
  { unfold evicted. by rewrite Hx, (qc_block_lookup _ _ _ Hxq). }
  unfold handleProposal, sound_at. rewrite Hb.
  rewrite (run_bind_Ok _ _ _ _ _ (lift_pure _ _ _ Hw)).
  rewrite (run_bind_Ok _ _ _ _ _ (lift_pure (gets execQC) _ p eq_refl)), Hx.
  rewrite (run_bind_Ok _ _ _ _ _ (lift_pure _ _ _ (deref_run x _ xq Hxq))).
  set (p' := set_hotstuff (MkBase s' (Nodes (hotstuff p)) (server (hotstuff p)) (wal (hotstuff p))) p).
  assert (lift (liftCore (LoadBlock (qc_BlockHash xq))) p = (Ok r, p')) as Hl'.
  { unfold lift, liftCore. by rewrite Hl. }
  rewrite (run_bind_Ok _ _ _ _ _ Hl'). rewrite Hev, Hst. destruct r as [e|eb]; [split; [done|by intros []]|].
  split; [done|intros _]. rewrite run_orPanic.
  assert (Hp' : at_ k p').
  { unfold p', pm_at, hs_at. simpl. rewrite (eqv_heap _ _ He). split; [|done].
    split; [by eapply core_wf_eqv|done]. }
  match goal with |- ((?m) p').1 ≠ _ ∧ _ => change (sound_at (at_ k) m p') end.
  revert p' Hp' Hl'. intros p' Hp' _. revert p' Hp'. apply sound_bind; [apply sound_try, sound_wal; auto|].
  intros _. apply sound_bind; [|intros; apply sound_ret]. apply sound_try, sound_core.
  intros s Hwf2 Hk2. eexists. apply safe_OnReceiveProposal; [done|].
  exists b. split; [done|]. split; by eapply ref_ok_mono.
Qed.

(** The state after the certificates of a message were unmarshalled. *)
Definition with_heap (h : list QuorumCert) p : RoundRobinPM (HotStuffBase DB W) :=
  set_hotstuff (MkBase (set_qcHeap h (core (hotstuff p))) (Nodes (hotstuff p)) (server (hotstuff p)) (wal (hotstuff p))) p.

Lemma with_heap_at l p :
  at_ 0 p → core_wf (set_qcHeap (qcHeap (core (hotstuff p)) ++ l) (core (hotstuff p))) →
  at_ (length (qcHeap (core (hotstuff p)) ++ l)) (with_heap (qcHeap (core (hotstuff p)) ++ l) p).
Proof.
  intros [_ Hv] Hwf. unfold pm_at, hs_at. simpl. split; [done|]. eapply views_ok_mono; [|exact Hv].
  simpl. rewrite length_app. lia.
Qed.

Lemma with_heap_evicted l p :
  core_wf (core (hotstuff p)) →
  evicted (with_heap (qcHeap (core (hotstuff p)) ++ l) p) ↔ evicted p.
Proof.
  intros Hwf. destruct (wf_lookup _ _ (wf_exec _ Hwf)) as (x & xq & Hx & Hxq). unfold evicted. simpl.
  rewrite Hx, (qc_block_lookup _ _ _ Hxq).
  rewrite (qc_block_lookup (set_qcHeap _ _) x xq); [done|]. simpl. by apply lookup_app_l_Some.
Qed.

Lemma proposal_exact t pr p :
  at_ 0 p → (∀ b, prop_Block pr = Some b → cert_set (Justify b) ∧ cert_set (SelfQc b)) →
  let run := (pr' ← lift (liftCore (import_proposal pr)); handleProposal env t pr') in
  (is_Some (prop_Block pr) ∧ evicted p → (run p).1 = Panic) ∧
  (¬ (is_Some (prop_Block pr) ∧ evicted p) → sound_at (at_ 0) run p).
Proof.
  intros Hp Hcs run. unfold run. pose proof Hp as [[Hwf _] _]. simpl in Hwf.
  destruct (prop_Block pr) as [b|] eqn:Hb.
  - destruct (Hcs b eq_refl) as [Hj Hs].
    destruct (import_block_run b (core (hotstuff p)) Hwf Hj Hs) as (qc1 & qc2 & Hrun & Hwf').
    set (l := [qc1; qc2]) in *. set (nb := MkBlock _ _ _ _ _ _ _) in Hrun.
    assert (lift (liftCore (import_proposal pr)) p
      = (Ok (MkProposal (prop_ViewNumber pr) (Some nb)), with_heap (qcHeap (core (hotstuff p)) ++ l) p)) as Hi.
    { unfold lift, liftCore, import_proposal. rewrite Hb. by rewrite (run_bind_Ok _ _ _ _ _ Hrun). }
    unfold sound_at. rewrite (run_bind_Ok _ _ _ _ _ Hi). pose proof (with_heap_at l p Hp Hwf') as Hat.
    destruct (handleProposal_exact t (MkProposal (prop_ViewNumber pr) (Some nb)) nb _ _ Hat eq_refl) as [Hpanic Hsound].
    { exists (length (qcHeap (core (hotstuff p)))). split; [done|]. rewrite length_app. unfold l. simpl. lia. }
    { exists (S (length (qcHeap (core (hotstuff p))))). split; [done|]. rewrite length_app. unfold l. simpl. lia. }
    rewrite with_heap_evicted in Hpanic, Hsound by done. split; [intros [_ He]; by apply Hpanic|].
    intros Hne. destruct Hsound as [Hn Hat']; [intros He; apply Hne; eauto|].
    split; [done|]. eapply pm_at_mono; [|exact Hat']. lia.
  - split; [by intros [[? ?] _]|]. intros _. unfold sound_at.
    assert (lift (liftCore (import_proposal pr)) p = (Ok (MkProposal (prop_ViewNumber pr) None), p)) as Hi.
    { apply lift_pure. unfold import_proposal. by rewrite Hb. }
    rewrite (run_bind_Ok _ _ _ _ _ Hi). done.
Qed.

Lemma sound_at_handleViewChange src vc p :
  at_ 0 p →
  (∀ nv qc, unmarshalNewView env (vc_Data vc) = inr nv → nv_GenericQc nv = Some qc → certs_ok (signs qc)) →
  sound_at (at_ 0) (handleViewChange env src vc) p.
Proof.
  intros Hp Hcs. unfold handleViewChange. pose proof Hp as [[Hwf _] _]. simpl in Hwf.
  destruct (VerifyIdentity _ _ _ _); [|by apply sound_ret].
  destruct (unmarshalNewView env (vc_Data vc)) as [e|nv] eqn:Hu; [by apply sound_ret|].
  destruct (nv_GenericQc nv) as [qc|] eqn:Hg; [|by apply sound_ret].
  assert (cert_set (Some qc)) as Hset by (exists qc; split; [done|by eapply Hcs]).
  destruct (import_qc_run (Some qc) _ Hwf Hset) as (qc' & Hrun & Hwf').
  assert (lift (liftCore (import_qc (Some qc))) p
    = (Ok (Some (length (qcHeap (core (hotstuff p))))), with_heap (qcHeap (core (hotstuff p)) ++ [qc']) p)) as Hi.
  { unfold lift, liftCore. by rewrite Hrun. }
  unfold sound_at. rewrite (run_bind_Ok _ _ _ _ _ Hi).
  pose proof (with_heap_at _ p Hp Hwf') as Hat.
  match goal with |- ((?m) ?p').1 ≠ _ ∧ _ =>
    assert (sound_at (at_ (length (qcHeap (core (hotstuff p)) ++ [qc']))) m p') as [Hn Hk] end.
  { revert Hat. generalize (with_heap (qcHeap (core (hotstuff p)) ++ [qc']) p). intros p' Hat.
    revert p' Hat. apply sound_bind; [|intros; apply sound_ret]. apply sound_try, sound_core.
    intros s Hs Hle. exists (λ _ _, True). apply safe_notify; [done| |done]. simpl.
    eexists. split; [done|]. rewrite length_app in Hle. simpl in Hle. lia. }
  split; [done|]. eapply pm_at_mono; [|exact Hk]. lia.
Qed.

Lemma sound_handleVote k src vote : sound (at_ k) (handleVote env src vote).
Proof.
  unfold handleVote. destruct (vote_Cert vote) as [cert|] eqn:Hc; [|apply sound_ret].
  case_decide; [apply sound_ret|]. destruct (VerifyIdentity _ _ _ _); [|apply sound_ret].
  case_decide; [apply sound_ret|]. apply sound_bind; [by apply sound_GetLeader|]. intros leader.
  case_decide; [apply sound_ret|]. apply sound_bind; [|intros; apply sound_ret]. apply sound_try, sound_core.
  intros s Hs _. eexists. apply safe_OnProposalVote; [done|]. by rewrite Hc.
Qed.

(** The pacemaker's part of an input. *)
Definition pm_part (i : input (E:=E)) : option (pm_event (Tick E)) :=
  match i with
  | InRun => Some EvRun
  | InEvent t (ProposeEvent pr) => Some (EvPropose pr)
  | InEvent t (ReceiveProposalEvent pr v) => Some (EvReceiveProposal (prop_ViewNumber pr) v)
  | InEvent t (ReceiveNewViewEvent j view) => Some (EvNewView t j view)
  | InEvent t (QcFinishEvent _ qc) => Some (EvQcFinish qc)
  | InEvent t (DecideEvent b) => Some (EvDecide b)
  | InResumeView t j view => Some (EvNewViewWake t j view)
  | InResumeSync t view => Some (EvNextSyncWake t view)
  | InTask t task => Some (EvTask t task)
  | InTimer t => Some (EvTimer t)
  | _ => None
  end.

Lemma pm_part_run i e p : pm_part i = Some e → run_input env i p = run_event (pm_conf env) e p.
Proof. destruct i as [| |? []| | | | | | | |]; intros He; simplify_eq/=; done. Qed.

Lemma pm_part_ok i e p :
  core_wf (core (hotstuff p)) → input_ok i p → pm_part i = Some e →
  pm_event_ok (length (qcHeap (core (hotstuff p)))) e.
Proof.
  intros Hwf Hi He.
  destruct i as [| |t n| | | | | | | |]; simpl in *; simplify_eq; try done.
  apply (wf_events _ Hwf) in Hi. by destruct n; simplify_eq/=.
Qed.

(** The stack overflows in the input's recursion. *)
Definition overflow (i : input (E:=E)) p : Prop :=
  match pm_part i with Some e => overflows (pm_conf env) e p | None => False end.

#[global] Instance overflow_dec i p : Decision (overflow i p).
Proof. unfold overflow. destruct (pm_part i); apply _. Defined.

(** The block of a proposal message. *)
Definition proposed (i : input (E:=E)) : option (Block QuorumCert) :=
  match i with
  | InMessage _ _ msg =>
      match msg_Type msg with Some (Message_Proposal pr) => prop_Block pr | _ => None end
  | _ => None
  end.

Lemma sound_SubmitRequest k req : sound (at_ k) (SubmitRequest_handler (DB:=DB) (W:=W) req).
Proof.
  unfold SubmitRequest_handler. case_decide; [apply sound_ret|].
  apply sound_bind; [apply sound_try, sound_Submit|]. intros [e|[]]; apply sound_ret.
Qed.

Lemma handleMessage_exact t src msg p :
  at_ 0 p → message_ok msg →
  let proposal := is_Some (proposed (InMessage t src msg)) in
  (proposal ∧ evicted p → (handleMessage env t src msg p).1 = Panic) ∧
  (¬ (proposal ∧ evicted p) → sound_at (at_ 0) (handleMessage env t src msg) p).
Proof.
  unfold handleMessage, message_ok. simpl. destruct (msg_Type msg) as [[]|]; intros Hp Hm.
  - split; [by intros [[? ?] _]|]. intros _. by apply sound_at_handleViewChange.
  - by apply proposal_exact.
  - split; [by intros [[? ?] _]|]. intros _. by apply sound_handleVote.
  - split; [by intros [[? ?] _]|]. intros _. revert p Hp. unfold handleForward.
    apply sound_bind; [apply sound_try, sound_Submit|intros; apply sound_ret].
  - split; [by intros [[? ?] _]|]. intros _. by apply sound_ret.
Qed.

(** The two ways to die. *)
Definition dies (i : input (E:=E)) p : Prop := (is_Some (proposed i) ∧ evicted p) ∨ overflow i p.

#[global] Instance dies_dec i p : Decision (dies i p).
Proof. unfold dies, evicted. apply _. Defined.

Lemma run_input_exact i p :
  at_ 0 p → input_ok i p →
  (dies i p → (run_input env i p).1 = Panic) ∧ (¬ dies i p → sound_at (at_ 0) (run_input env i) p).
Proof.
  intros Hp Hi. unfold dies, overflow. destruct (pm_part i) as [e|] eqn:Hpart.
  - assert (Hnp : ¬ (is_Some (proposed i) ∧ evicted p)) by (intros [[b Hb] _]; by destruct i).
    destruct (run_event_exact (pm_conf env) replicas_exist e (length (qcHeap (core (hotstuff p)))) p) as [Hd Hs].
    { exact (pm_at_now 0 p Hp). }
    { eapply pm_part_ok; [apply Hp|done..]. }
    unfold sound_at. rewrite (pm_part_run i e p Hpart). split; [intros [|]; [done|by apply Hd]|].
    intros Hno. destruct (Hs ltac:(tauto)) as [Hn Hat]. split; [done|]. eapply pm_at_mono; [|exact Hat]. lia.
  - destruct i as [|t src msg|t n|t j view|t view|t pr|t task|t|req|nodes|a]; simpl in Hpart; try done.
    + destruct (handleMessage_exact t src msg p Hp Hi) as [Hd Hs]. simpl in Hd, Hs |- *.
      split; [intros [|]; [by apply Hd|done]|]. intros Hno. apply Hs. tauto.
    + destruct n; try done. split; [by intros [[[? ?] _]|]|]. intros _.
      apply sound_now; [done|]. simpl. apply sound_bind; [|intros; apply sound_UpdateQcHigh].
      apply sound_core. intros s Hs Hk. exists (λ _ _, True). apply safe_deref; [done| |done].
      apply (wf_events _ (proj1 (proj1 Hp))) in Hi. by eapply ref_ok_mono.
    + split; [by intros [[[? ?] _]|]|]. intros _. apply sound_now; [done|].
      apply sound_bind; [|intros; apply sound_ret]. apply sound_try, sound_core.
      intros s Hs Hk. eexists. apply safe_OnReceiveProposal_wake; [done|].
      destruct Hi as (b & Hb & Hsq & Hj). exists b. split; [done|]. split; by eapply ref_ok_mono.
    + split; [by intros [[[? ?] _]|]|]. intros _. revert p Hp Hi. intros p Hp _. revert p Hp.
      apply sound_bind; [apply sound_SubmitRequest|intros; apply sound_ret].
    + split; [by intros [[[? ?] _]|]|]. intros _. by destruct Hp.
    + split; [by intros [[[? ?] _]|]|]. intros _. by destruct Hp.
Qed.

(** A replica runs as long as no goroutine of it panics. *)
Inductive live_step : relation (RoundRobinPM (HotStuffBase DB W)) :=
| live_input i p : input_ok i p → (run_input env i p).1 ≠ Panic → live_step p (run_input env i p).2.

Lemma live_steps_at p p' : rtc live_step p p' → at_ 0 p → at_ 0 p'.
Proof.
  induction 1 as [|p1 p2 p3 [i p Hi Hn] _ IH]; [done|]. intros Hp. apply IH.
  destruct (run_input_exact i p Hp Hi) as [Hpanic Hsound]. apply Hsound. intros Hev. by apply Hn, Hpanic.
Qed.

End implementation.

(** C8 replica_panics_iff: a replica built by [NewHotStuffBase] is fed messages whose
    certificates are set, its own events in any order, wake-ups, timers, client
    requests and connection changes, one at a time.  In every state it reaches,
    the next input makes it panic if and only if either that input is a proposal
    with a block and the cache has evicted the block [execQC] names; or it is
    [OnNextSyncView], or the event of a received proposal, and none of the next
    [stack_depth] views, from the current view or from the proposal's if that is
    larger, has a leader that is this replica or connected, so that the recursion
    overflows the stack.  No other handler, event or goroutine ever panics. *)
Theorem replica_panics_iff {Cert Pool E W} (x509 : X509 Cert Pool) (env : BaseEnv E W)
    refused self nodes w net b net' p i :
  (∀ qc, clone (core_env env) qc = qc) → md_N (metadata (pm_conf env)) ≠ 0%Z →
  (∀ hs i d w, (wal_save env hs i d w).1 ≠ Panic) →
  NewHotStuffBase x509 refused self nodes w net = (Ok (Some b), net') →
  rtc (live_step env) (NewRoundRobinPM b) p → input_ok env i p →
  (run_input env i p).1 = Panic ↔
  (is_Some (proposed i) ∧ qc_block (core (hotstuff p)) (execQC (core (hotstuff p))) = None)
  ∨ overflow env i p.
Proof.
  intros Hclone HN Hwal Hb Hs Hi. apply NewHotStuffBase_core in Hb.
  assert (pm_at (H0:=base_inv) 0 (NewRoundRobinPM b)) as H0.
  { split; [split; [|simpl; lia]|intros v m j nv; simpl; by rewrite lookup_empty]. simpl. rewrite Hb. apply initCore_wf. }
  pose proof (live_steps_at env Hclone HN Hwal _ _ Hs H0) as Hp.
  destruct (run_input_exact env Hclone HN Hwal i p Hp Hi) as [Hpanic Hsound].
  split; [|apply Hpanic]. intros Hrun. destruct (decide (dies env i p)) as [|Hd]; [done|]. by destruct (Hsound Hd).
Qed.

(** ** Witness: the first proposal a replica receives has the largest view *)

Module ToyReplica.

Definition first : Block QuorumCert :=
  MkBlock ToyCore.ghash [x61] 0 1 0 (Some (Toy.qc 0 ToyCore.ghash [])) (Some (Toy.qc 1 ToyCore.h1 [])).

Definition proposal : input (E:=unit) :=
  InMessage ToyBase.tick 3 (MkMessage "" (Some (Message_Proposal (MkProposal (2 ^ 63 - 1) (Some first))))).

(** The replica is not connected to replica 0. *)
Definition received : RoundRobinPM (HotStuffBase CoreDB unit) :=
  (run_input (ToyBase.env 1) proposal (ToyBase.replica 1)).2.

(** The event of the proposal, with the replica's vote. *)
Definition event : EventNotifier :=
  ReceiveProposalEvent (MkProposal (2 ^ 63 - 1) (Some (ToyCore.block ToyCore.ghash [x61] 1 1 2)))
    (MkVote (2 ^ 63 - 1) 1 ToyCore.h1 (Toy.cert 1 ToyCore.h1)).

(** It crosses the largest view and overflows a stack of 1000 calls. *)
Lemma replica_panics_iff_witness :
  (run_input (ToyBase.env 1) proposal (ToyBase.replica 1)).1 = Ok tt
  ∧ (run_input (ToyBase.env 1) (InEvent ToyBase.tick event) received).1 = Panic.
Proof.
  split; [ToyCore.by_vm|].
  apply (replica_panics_iff ToyTLS.x509 (ToyBase.env 1) (λ _, false) 1 ToyBase.nodes tt ToyTLS.net
    (ToyBase.base 1) (MkNet {["b"]}) received (InEvent ToyBase.tick event)).
  - reflexivity.
  - discriminate.
  - discriminate.
  - vm_compute. reflexivity.
  - apply rtc_once. apply (live_input (ToyBase.env 1) proposal (ToyBase.replica 1)).
    + intros b [= <-]. split; (eexists; split; [reflexivity|apply ToyCore.certs_ok_qc]).
    + vm_compute. discriminate.
  - apply (list_elem_of_lookup_2 _ 0). ToyCore.by_vm.
  - right. apply (bool_decide_unpack _). vm_compute. exact I.
Defined.

End ToyReplica.
