(* ===== verification/Chain.v ===== *)
(** * A certified chain is decided

    A replica that receives the blocks of a chain in order - each block the
    child of the previous one and justified by a certificate for it - votes for
    every block and decides every block three below the last one, in order and
    once, however long the chain is: the cache of thirty blocks always still
    holds the four blocks the handler needs. *)

From stdpp Require Import base numbers fin_maps gmap sets strings list.
From Stdlib Require Import Strings.Byte.
From S2P Require Import Prelude GoMonad Encoding Types Database LRUCache Entity Core.
From S2P Require Import CoreLemmas CoreSafety CoreSpec CoreProps CoreProposals CoreEffects CoreReads ChainCore.
From S2P Require Import Pacemaker Transport Grpc Base Replica ReplicaSafety.

(** ** Receiving a certified block *)

Lemma decode_hash qc : qc_BlockHash (decode_qc qc) = qc_BlockHash qc.
Proof. unfold decode_qc. by case_decide. Qed.

Lemma decode_verifies rc qc : VerifyQuorumCert rc (Some (decode_qc qc)) = VerifyQuorumCert rc (Some qc).
Proof. unfold VerifyQuorumCert, len_signs. by rewrite signs_decode, decode_hash. Qed.

Lemma qc_hash_prefix (s : HotStuffCore CoreDB) qs o h :
  qc_hash s o = Some h → qc_hash (set_qcHeap (qcHeap s ++ qs) s) o = Some h.
Proof.
  destruct o as [r|]; [|done]. unfold qc_hash. cbn [mbind option_bind]. intros Hr.
  destruct (qcHeap s !! r) as [q|] eqn:Hl; [|done]. cbn [qcHeap set_qcHeap].
  by rewrite (lookup_app_l_Some _ _ _ _ Hl).
Qed.

Section receiving.
Context {E : Type} (env : CoreEnv E) (hs : nat → bytes) {cm : ChainCommands}.
Implicit Types (s : HotStuffCore CoreDB).

(** A proposal of block [n + 1] on the wire: a child of block [n], justified by
    the certificate [jq] for it, which verifies unless it is the root's. *)
Definition certified_block (n : nat) (p : Proposal QuorumCert) (b : Block QuorumCert) (jq sq : QuorumCert) : Prop :=
  prop_Block p = Some b ∧ GetBlockHash b = hs (S n)
  ∧ ParentHash b = hs n ∧ Height b = Z.of_nat (S n)
  ∧ (Justify b = Some jq ∧ qc_BlockHash jq = hs n ∧ certs_ok (signs jq)
     ∧ ((1 ≤ n)%nat → VerifyQuorumCert (replicas env) (Some jq) = Some true))
  ∧ (SelfQc b = Some sq ∧ qc_BlockHash sq = hs (S n) ∧ certs_ok (signs sq)).

(** The block as it is in memory once its certificates are decoded. *)
Definition imported (b : Block QuorumCert) s : Block QCRef :=
  MkBlock (ParentHash b) (Cmds b) (Proposer b) (Height b) (Timestamp b)
    (Some (length (qcHeap s))) (Some (S (length (qcHeap s)))).

Lemma import_next n p b jq sq s :
  certified_block n p b jq sq → Cmds b = chain_cmds (S n) → core_wf s →
  let s0 := set_qcHeap (qcHeap s ++ [decode_qc jq; decode_qc sq]) s in
  import_proposal p s = (Ok (MkProposal (prop_ViewNumber p) (Some (imported b s))), s0)
  ∧ core_wf s0 ∧ held hs s0 (S n) (imported b s)
  ∧ ((1 ≤ n)%nat → verified env s0 (Justify (imported b s)) = true)
  ∧ ref_ok (length (qcHeap s0)) (SelfQc (imported b s)) ∧ ref_ok (length (qcHeap s0)) (Justify (imported b s))
  ∧ qcHeap s0 !! S (length (qcHeap s)) = Some (decode_qc sq).
Proof.
  intros (Hb & Hbh & Hpar & Hh & (Hj & Hjh & Hjc & Hver) & (Hs & Hsh & Hsc)) Hcmds Hwf s0.
  assert (H1 : qcHeap s0 !! length (qcHeap s) = Some (decode_qc jq))
    by apply list_lookup_middle, eq_refl.
  assert (H2 : qcHeap s0 !! S (length (qcHeap s)) = Some (decode_qc sq))
    by (unfold s0; simpl; rewrite lookup_app_r, Nat.sub_succ_l, Nat.sub_diag by lia; done).
  split.
  { assert (Hi : ∀ qc (s : HotStuffCore CoreDB), import_qc (Some qc) s
      = (Ok (Some (length (qcHeap s))), set_qcHeap (qcHeap s ++ [decode_qc qc]) s)) by done.
    unfold import_proposal, import_block. rewrite Hb, Hj, Hs.
    unfold mbind, M_bind. rewrite !Hi. cbn [mret M_ret qcHeap set_qcHeap].
    rewrite length_app, <-app_assoc, Nat.add_1_r. done. }
  split_and!.
  - unfold s0. replace [decode_qc jq; decode_qc sq] with ([decode_qc jq] ++ [decode_qc sq]) by done.
    rewrite app_assoc. apply (wf_alloc _ (set_qcHeap (qcHeap s ++ [decode_qc jq]) s)); [apply wf_alloc; [done|]|];
      by rewrite signs_decode.
  - constructor; cbn [imported SelfQc Justify ParentHash Height Cmds]; [exact Hbh|done|done| |done|].
    + rewrite (qc_hash_lookup _ _ _ H2). by rewrite decode_hash, Hsh.
    + intros _. rewrite (qc_hash_lookup _ _ _ H1), decode_hash, Hjh, Hpar, Nat.sub_succ, Nat.sub_0_r. done.
  - intros Hn. cbn [imported Justify]. rewrite (verified_lookup _ _ _ _ H1), decode_verifies.
    apply bool_decide_eq_true_2. by apply Hver.
  - exists (S (length (qcHeap s))). split; [done|]. simpl. rewrite length_app. simpl. lia.
  - exists (length (qcHeap s)). split; [done|]. simpl. rewrite length_app. simpl. lia.
  - done.
Qed.

Lemma inv_prefix s qs n :
  core_wf (set_qcHeap (qcHeap s ++ qs) s) → chain_inv hs s n → chain_inv hs (set_qcHeap (qcHeap s ++ qs) s) n.
Proof.
  intros Hwf' [Hwf Hc Hrec [(g & Hg & Pg) Pl Px Ph Pd Pv]].
  constructor; [done|done| |constructor; try done; try by apply qc_hash_prefix].
  - intros j Hj1 Hj2. destruct (Hrec j Hj1 Hj2) as (bj & Hb & Hh). exists bj. split; [done|].
    eapply held_keeps; [|exact Hh]. intros o h. apply qc_hash_prefix.
  - exists g. split; [done|by apply qc_hash_prefix].
Qed.

(** The initial core has received no block. *)
Lemma init_inv : hs 0%nat = GetBlockHash genesis → chain_inv hs initCore 0.
Proof.
  intros Hroot. pose proof initCore_wf as Hwf. revert Hwf. unfold initCore, NewHotStuffCore. cbv zeta.
  rewrite <-Hroot. intros Hwf.
  constructor; [exact Hwf|reflexivity| |constructor; try reflexivity].
  - intros j Hj _. assert (j = 0)%nat as -> by lia.
    exists (set_SelfQc (Q:=QCRef) (Some 0%nat) genesis). split.
    + eapply behind_weaken; [|apply (behind_new _ _ (NewLRUCache 30)); [apply New_inv|reflexivity]].
      apply empty_subseteq.
    + constructor; [symmetry; exact Hroot|reflexivity|lia|reflexivity|reflexivity|lia].
  - exists 0%nat. split; [lia|reflexivity].
Qed.

End receiving.

(** ** A replica that receives the chain *)

Section replica.
Context {E W : Type} (env : BaseEnv E W) (chain : nat → Proposal QuorumCert).
(** A save to the write-ahead log returns. *)
Hypothesis wal_returns : ∀ hs i d w,
  match (wal_save env hs i d w).1 with Ok _ | Fail _ => True | _ => False end.

(** The hash of the block of height [k]; the genesis block is the root. *)
Definition hash_at (k : nat) : bytes :=
  match k with
  | O => GetBlockHash genesis
  | S _ => match prop_Block (chain k) with Some b => GetBlockHash b | None => [] end
  end.

#[local] Instance chain_commands : ChainCommands := λ k,
  match prop_Block (chain k) with Some b => Cmds b | None => [] end.

(** Proposal [k + 1] is a child of the block of height [k], justified by a
    certificate for it, which verifies unless it is the one for the root. *)
Definition link (k : nat) : Prop :=
  ∃ b jq sq, certified_block (core_env env) hash_at k (chain (S k)) b jq sq.

(** The messages of the first [n] proposals, handled in order. *)
Fixpoint receive_chain (ticks : nat → Tick E) (senders : nat → Z) (n : nat)
    : M (RoundRobinPM (HotStuffBase CoreDB W)) unit :=
  match n with
  | O => mret tt
  | S n =>
      _ ← receive_chain ticks senders n;
      handleMessage env (ticks (S n)) (senders (S n))
        (MkMessage "" (Some (Message_Proposal (chain (S n)))))
  end.

Definition with_core (s : HotStuffCore CoreDB) (w : W) (p : RoundRobinPM (HotStuffBase CoreDB W))
    : RoundRobinPM (HotStuffBase CoreDB W) :=
  set_hotstuff (MkBase s (Nodes (hotstuff p)) (server (hotstuff p)) w) p.

Lemma lift_core {A} (m : M (HotStuffCore CoreDB) A) a s' p :
  m (core (hotstuff p)) = (Ok a, s') → lift (liftCore m) p = (Ok a, with_core s' (wal (hotstuff p)) p).
Proof. intros Hm. unfold lift, liftCore. by rewrite Hm. Qed.

Lemma save_run hs i d p :
  ∃ r w, try (lift (liftWal (wal_save env hs i d))) p = (Ok r, with_core (core (hotstuff p)) w p).
Proof.
  pose proof (wal_returns hs i d (wal (hotstuff p))) as Hw. unfold try, lift, liftWal.
  destruct (wal_save env hs i d (wal (hotstuff p))) as [[x|e| |y] w]; [eexists _, w; reflexivity..|done|done].
Qed.

(** The handler of the next block's proposal returns, and what it does to the core. *)
Lemma handle_certified hs {cm : ChainCommands} n t src tag pr wb jq sq p sig :
  let s := core (hotstuff p) in
  chain_inv hs s n → certified_block (core_env env) hs n pr wb jq sq → Cmds wb = chain_cmds (S n) → (∀ j, (j ≤ n)%nat → hs j ≠ hs (S n)) →
  Sign (core_env env) (ent t) (hs (S n)) = inr sig →
  let b := imported wb s in
  let pr' := MkProposal (prop_ViewNumber pr) (Some b) in
  ∃ s' w, handleMessage env t src (MkMessage tag (Some (Message_Proposal pr))) p = (Ok tt, with_core s' w p)
    ∧ received hs (set_qcHeap (qcHeap s ++ [decode_qc jq; decode_qc sq]) s) n b
        (ReceiveProposalEvent pr' (next_vote (core_env env) hs pr' n sig)) s'.
Proof.
  intros s Hinv Hcb Hcmds Hne Hsig b pr'. unfold handleMessage. cbn [msg_Type].
  destruct (import_next (core_env env) hs n _ wb jq sq _ Hcb Hcmds (ci_wf _ _ _ Hinv))
    as (Himp & Hwf & Hb & Hver & Hsq & Hj & _).
  rewrite (run_bind_Ok _ _ _ _ _ (lift_core _ _ _ _ Himp)). fold b pr' in Himp |- *. fold b in Hb, Hver, Hsq, Hj.
  apply (inv_prefix hs _ [decode_qc jq; decode_qc sq] _ Hwf) in Hinv. set (s0 := set_qcHeap _ _) in *.
  set (p0 := with_core s0 _ p). unfold handleProposal. cbn [prop_Block pr'].
  destruct (export_proposal_run pr' b s0 eq_refl Hj Hsq) as [wire Hwire].
  rewrite (run_bind_Ok _ _ _ _ _ (lift_pure _ _ p0 Hwire)).
  rewrite (run_bind_Ok _ _ _ _ _ (lift_pure (gets execQC) _ p0 eq_refl)).
  destruct (wf_lookup _ _ (wf_exec _ Hwf)) as (x & xq & Hx & Hxq). cbn [core hotstuff p0 with_core set_hotstuff].
  rewrite Hx. rewrite (run_bind_Ok _ _ _ _ _ (lift_pure _ _ p0 (deref_run x s0 xq Hxq))).
  assert (Hxh : qc_BlockHash xq = hs (n - 3)).
  { pose proof (pr_exec _ _ _ (ci_progress _ _ _ Hinv)) as He. rewrite Hx, (qc_hash_lookup _ _ _ Hxq) in He. congruence. }
  destruct (ci_recent _ _ _ Hinv (n - 3)%nat) as (eb & Heb & _); [lia..|].
  apply behind_lookup in Heb; [|by apply wf_lru].
  destruct (LoadBlock_found (hs (n - 3)) s0 eb (wf_store s0 Hwf) Heb) as (s1 & Hl & He1 & _).
  rewrite Hxh, (run_bind_Ok _ _ _ _ _ (lift_core _ _ _ p0 Hl)). rewrite run_orPanic.
  match goal with |- context [wal_save env ?a ?i ?d] =>
    destruct (save_run a i d (with_core s1 (wal (hotstuff p0)) p0)) as (r & w & Hsave) end.
  rewrite (run_bind_Ok _ _ _ _ _ Hsave).
  assert (Hinv1 : chain_inv hs s1 n).
  { apply (inv_reads _ s0); [done..|].
    pose proof (reads_LoadBlock (window hs (n - 3) n) (hs (n - 3)) s0
      ltac:(apply elem_of_window; lia)) as Hr. unfold reads in Hr. by rewrite Hl in Hr. }
  assert (Hq1 : qcHeap s1 = qcHeap s0) by (by rewrite He1).
  destruct (receive_next (core_env env) hs s1 n b (ent t) pr' sig Hinv1 eq_refl) as (s2 & Hrun & []); try done.
  - exists b. rewrite Hq1. done.
  - by apply (held_same _ s0).
  - intros Hn. unfold verified. rewrite Hq1. by apply Hver.
  - match goal with |- context [try (lift (liftCore ?m))] => set (recv := m) end.
    set (p1 := with_core _ w _). assert (Htry : try (lift (liftCore recv)) p1 = (Ok (inr tt), with_core s2 w p1)).
    { unfold try. by rewrite (lift_core recv tt s2 p1 Hrun). }
    exists s2, w. rewrite (run_bind_Ok _ _ _ _ _ Htry). split; [done|].
    constructor; try done; [by rewrite rc_heap|by rewrite rc_votes, (voteSet_proper _ _ He1)|].
    by rewrite (notifyChan_proper _ _ He1) in rc_event.
Qed.

(** The handler of the next proposal keeps the invariant. *)
Lemma handle_next n t src p sig :
  chain_inv hash_at (core (hotstuff p)) n → link n → (∀ j, (j ≤ n)%nat → hash_at j ≠ hash_at (S n)) →
  Sign (core_env env) (ent t) (hash_at (S n)) = inr sig →
  ∃ p', handleMessage env t src (MkMessage "" (Some (Message_Proposal (chain (S n))))) p = (Ok tt, p')
    ∧ chain_inv hash_at (core (hotstuff p')) (S n)
    ∧ qc_hash (core (hotstuff p')) (genericQC (core (hotstuff p'))) = Some (hash_at n).
Proof.
  intros Hinv (wb & jq & sq & Hcb) Hne Hsig.
  destruct (handle_certified hash_at n t src "" _ wb jq sq p sig Hinv Hcb) as (s' & w & Hrun & []);
    [unfold chain_cmds, chain_commands; destruct Hcb as [-> _]; done|done|done|].
  exists (with_core s' w p). done.
Qed.

Lemma chain_received ticks senders n p :
  core (hotstuff p) = initCore → (∀ k, (k < n)%nat → link k) →
  (∀ i j, (i < j ≤ n)%nat → hash_at i ≠ hash_at j) →
  (∀ k, (1 ≤ k ≤ n)%nat → ∃ sig, Sign (core_env env) (ent (ticks k)) (hash_at k) = inr sig) →
  ∃ p', receive_chain ticks senders n p = (Ok tt, p') ∧ chain_inv hash_at (core (hotstuff p')) n
    ∧ qc_hash (core (hotstuff p')) (genericQC (core (hotstuff p'))) = Some (hash_at (n - 1)).
Proof.
  intros Hp. induction n as [|n IH]; intros Hlink Hne Hsig.
  { exists p. split; [done|]. rewrite Hp. pose proof (init_inv hash_at eq_refl) as Hinv. split; [exact Hinv|].
    destruct (pr_generic _ _ _ (ci_progress _ _ _ Hinv)) as (g & Hg & Hh).
    assert (g = 0)%nat as -> by lia. exact Hh. }
  destruct IH as (p1 & Hrun & Hinv & _); [auto with lia..|].
  destruct (Hsig (S n)) as [sig Hs]; [lia|].
  destruct (handle_next n (ticks (S n)) (senders (S n)) p1 sig Hinv) as (p2 & Hh & Hinv2 & Hg2);
    [auto with lia|intros j Hj; apply Hne; lia|done|].
  exists p2. rewrite Nat.sub_succ, Nat.sub_0_r. split; [|done]. cbn [receive_chain].
  by rewrite (run_bind_Ok _ _ _ _ _ Hrun).
Qed.

(** C4 A certified chain is decided.  A replica that starts in its initial state
    and receives, in order and from whatever senders, [n] proposals of which
    each is the child of the previous one and justified by a certificate for it
    that verifies, handles all of them without an error, a wait or a crash,
    for every [n]: it has voted for the [n] blocks in order, has decided the
    first [n - 3] of them in order and exactly once, is locked on block [n - 2],
    and its highest certificate is the one for block [n - 1]. *)
Theorem chain_decided ticks senders n p :
  core (hotstuff p) = initCore → (∀ k, (k < n)%nat → link k) →
  (∀ i j, (i < j ≤ n)%nat → hash_at i ≠ hash_at j) →
  (∀ k, (1 ≤ k ≤ n)%nat → ∃ sig, Sign (core_env env) (ent (ticks k)) (hash_at k) = inr sig) →
  ∃ p', receive_chain ticks senders n p = (Ok tt, p')
    ∧ let s := core (hotstuff p') in
      omap event_vote (notifyChan s) = hash_at <$> seq 1 n
      ∧ omap decided_hash (notifyChan s) = hash_at <$> seq 1 (n - 3)
      ∧ voteHeight s = Z.of_nat n
      ∧ qc_hash s (lockedQC s) = Some (hash_at (n - 2))
      ∧ qc_hash s (genericQC s) = Some (hash_at (n - 1)).
Proof.
  intros Hp Hlink Hne Hsig.
  destruct (chain_received ticks senders n p Hp Hlink Hne Hsig) as (p' & Hrun & Hinv & Hgen).
  exists p'. split; [done|]. pose proof (decided_hashes _ _ _ (ci_progress _ _ _ Hinv)) as Hd.
  destruct (ci_progress _ _ _ Hinv). by split_and!.
Qed.

End replica.

(** ** Witness: five blocks with certificates of replicas 0, 1 and 2 *)

Module ToyChain.

Definition hashes : list bytes :=
  [ToyCore.ghash; ToyCore.h1; ToyCore.h2; ToyCore.h3; ToyCore.h4; Redelivery.h5].

Definition hash (k : nat) : bytes := nth k hashes [].

Definition signers (k : nat) : list Z := if decide (k = 0)%nat then [] else [0; 1; 2]%Z.

Definition chain (k : nat) : Proposal QuorumCert :=
  MkProposal (Z.of_nat k)
    (Some (MkBlock (hash (k - 1)) [byte_of_Z (96 + Z.of_nat k)] 0 (Z.of_nat k) 0
       (Some (Toy.qc (Z.of_nat k - 1) (hash (k - 1)) (signers (k - 1))))
       (Some (Toy.qc (Z.of_nat k) (hash k) [])))).

Lemma hash_at_chain : hash_at chain <$> seq 0 6 = hashes.
Proof. vm_compute. reflexivity. Qed.

Lemma hash_at_hash k : (k ≤ 5)%nat → hash_at chain k = hash k.
Proof.
  intros Hk. pose proof (f_equal (.!! k) hash_at_chain) as Hh. cbv beta in Hh.
  rewrite list_lookup_fmap, lookup_seq_lt in Hh by lia. unfold hash. symmetry in Hh.
  by rewrite (nth_lookup_Some _ _ _ _ Hh).
Qed.

Lemma hashes_distinct : NoDup hashes.
Proof. apply (bool_decide_unpack _). vm_compute. exact I. Qed.

Lemma distinct i j : (i < j ≤ 5)%nat → hash_at chain i ≠ hash_at chain j.
Proof.
  intros Hij Heq. assert (i = j); [|lia].
  apply (NoDup_lookup _ i j (hash_at chain j) hashes_distinct);
    rewrite <-hash_at_chain, list_lookup_fmap, lookup_seq_lt by lia; cbn [fmap option_fmap option_map Nat.add].
  - by rewrite Heq.
  - done.
Qed.

Lemma linked k : (k < 5)%nat → link (ToyBase.env 1) chain k.
Proof.
  intros Hk. unfold link. do 3 eexists. split; [reflexivity|]. split; [reflexivity|]. rewrite !hash_at_hash by lia.
  rewrite Nat.sub_succ, Nat.sub_0_r. split; [reflexivity|]. split; [reflexivity|].
  split; split; [reflexivity| |reflexivity|].
  - split; [reflexivity|]. split; [apply ToyCore.certs_ok_qc|]. intros Hk1.
    destruct k as [|[|[|[|[|k]]]]]; try lia; vm_compute; reflexivity.
  - split; [reflexivity|apply ToyCore.certs_ok_qc].
Qed.

End ToyChain.

Lemma chain_decided_witness :
  ∃ p', receive_chain (ToyBase.env 1) ToyChain.chain (λ _, ToyBase.tick) (λ _, 0%Z) 5 (ToyBase.replica 1) = (Ok tt, p')
    ∧ omap decided_hash (notifyChan (core (hotstuff p'))) = [ToyCore.h1; ToyCore.h2].
Proof.
  destruct (chain_decided (ToyBase.env 1) ToyChain.chain (λ _ _ _ _, I) (λ _, ToyBase.tick) (λ _, 0%Z) 5
    (ToyBase.replica 1)) as (p' & Hrun & _ & Hd & _).
  - reflexivity.
  - exact ToyChain.linked.
  - exact ToyChain.distinct.
  - intros k _. eexists. reflexivity.
  - exists p'. split; [exact Hrun|]. rewrite Hd. vm_compute. reflexivity.
Defined.
