(* ===== verification/Rounds.v ===== *)
(** * A cluster that runs in rounds

    Replicas that deliver each other's messages in order: in round [k] the leader
    proposes block [k], the other replicas receive the proposal and vote, and the
    leader of the next round collects the votes into the certificate its own
    proposal carries.  Everything passed on is what the code sent: the proposal
    is the one in the leader's [ProposeEvent], the votes are those in the
    receivers' [ReceiveProposalEvent]s. *)

From stdpp Require Import base numbers fin_maps fin_map_dom gmap sets strings list.
From Stdlib Require Import Strings.Byte.
From S2P Require Import Prelude GoMonad Encoding Types Database LRUCache Entity Core.
From S2P Require Import CoreLemmas CoreSafety CoreSpec CoreProps CoreProposals CoreVotes.
From S2P Require Import CoreEffects CoreReads ChainCore Pacemaker Transport Grpc Base ReplicaSafety Chain.

(** The state after a call that returned. *)
Definition returns {S A} (out : res A * S) : option S :=
  match out.1 with Ok _ => Some out.2 | _ => None end.

(** ** Counting a vote *)

Section votes.
Context {E : Type} (env : CoreEnv E) (hs : nat → bytes) {cm : ChainCommands}.
Implicit Types (s t : HotStuffCore CoreDB).

Let q := GetQuorumSize (Metadata (replicas env)).

(** Recording a vote does not change what a certificate is for. *)
Lemma record_hash r qc m s o : qcHeap s !! r = Some qc → qc_hash (record_vote r qc m s) o = qc_hash s o.
Proof.
  intros Hq. destruct o as [g|]; [|done]. unfold qc_hash, record_vote.
  cbn [qcHeap set_voteSet set_qcHeap mbind option_bind]. destruct (decide (g = r)) as [->|Hne].
  - rewrite list_lookup_insert_eq by (by eapply lookup_lt_Some). by rewrite Hq.
  - by rewrite list_lookup_insert_ne.
Qed.

(** The blocks the vote handler reads. *)
Lemma reads_OnProposalVote T vote s b r qc :
  core_wf s → stored s (vote_BlockHash vote) = Some b → SelfQc b = Some r → qcHeap s !! r = Some qc →
  EncodeToString (vote_BlockHash vote) ∈ T → covers T s (genericQC s) → reads T (OnProposalVote env vote) s.
Proof.
  intros Hwf Hst Hr Hq Hh Hc. unfold OnProposalVote. apply reads_bind; [by apply reads_LoadBlock|].
  intros x s1 Hl. destruct (LoadBlock_found _ s b (wf_store s Hwf) Hst) as (s1' & Hl' & He & Hok).
  rewrite Hl in Hl'. injection Hl' as -> <-.
  apply reads_bind; [apply reads_orPanic|]. intros r' s2 [Hr' ->]%orPanic_Ok_inv.
  rewrite Hr in Hr'. injection Hr' as <-.
  apply reads_bind; [apply reads_read_qc|]. intros qc' s2 [-> Hq']%read_qc_inv.
  rewrite He, Hq in Hq'. injection Hq' as <-.
  case_decide; [by apply reads_same|]. case_decide; [by apply reads_same|].
  unfold reads. rewrite (record_vote_run _ _ _ _ _ _ Hr) by (by rewrite He).
  set (s2 := record_vote _ _ _ s1). change (blockCache s1) with (blockCache s2). revert s2.
  match goal with |- let s2 := _ in touches T _ (blockCache (?m _).2) => intros s2; change (reads T m s2) end.
  apply reads_bind; [apply reads_read_qc|]. intros qc2 s3 [-> _]%read_qc_inv.
  case_decide; [by apply reads_same|]. apply reads_bind; [|intros; by apply reads_same].
  apply reads_UpdateHighestQC; [exact Hok|]. change (genericQC s2) with (genericQC s1).
  rewrite (genericQC_proper _ _ He). intros h Hg. apply Hc.
  unfold s2 in Hg. rewrite record_hash, (qc_hash_same s) in Hg by (by rewrite He). exact Hg.
Qed.

(** A step that reads recent blocks only and keeps what the certificates name. *)
Lemma inv_step s t n :
  chain_inv hs s n → core_wf t → touches (window hs (n - 3) n) (blockCache s) (blockCache t) →
  keeps_hashes s t → progress hs t n → chain_inv hs t n.
Proof.
  intros [Hwf Hc Hrec _] Hwft Ht Hk Hp.
  destruct (recent_reads hs s t n n) as [Hct Hrt]; [lia|by apply wf_lru|done..|].
  constructor; [done|by rewrite Hct|done|done].
Qed.

(** The block of a height the invariant covers. *)
Lemma inv_held s n j b :
  chain_inv hs s n → (j ≤ n)%nat → (n ≤ j + 3)%nat → stored s (hs j) = Some b → held hs s j b.
Proof.
  intros Hinv Hj1 Hj2 Hb. destruct (ci_recent _ _ _ Hinv j Hj1 Hj2) as (bj & Hbj & Hh).
  apply behind_lookup in Hbj; [|by apply wf_lru, Hinv]. unfold stored in Hb. rewrite Hbj in Hb.
  by injection Hb as <-.
Qed.

Lemma inv_stored s n j :
  chain_inv hs s n → (j ≤ n)%nat → (n ≤ j + 3)%nat → ∃ b, stored s (hs j) = Some b ∧ held hs s j b.
Proof.
  intros Hinv Hj1 Hj2. destruct (ci_recent _ _ _ Hinv j Hj1 Hj2) as (bj & Hbj & Hh). exists bj.
  split; [|done]. by eapply behind_lookup; [apply wf_lru, Hinv|].
Qed.

(** Certificates that keep their meaning and silent events keep the progress. *)
Lemma progress_kept s t n g l :
  progress hs s n → keeps_hashes s t → (n - 1 ≤ g ≤ n)%nat → qc_hash t (genericQC t) = Some (hs g) →
  lockedQC t = lockedQC s → execQC t = execQC s → voteHeight t = voteHeight s →
  notifyChan t = notifyChan s ++ l → omap decided l = [] → omap event_vote l = [] → progress hs t n.
Proof.
  intros [_ Pl Px Ph Pd Pv] Hk Hg Hgen Hl Hx Hh Hn Hld Hlv.
  constructor; rewrite ?Hl, ?Hx, ?Hh, ?Hn, ?omap_app, ?Hld, ?Hlv, ?app_nil_r; [by exists g|by apply Hk..|done|done|done].
Qed.

(** The events that announce the complete certificate [r] of block [b]. *)
Definition finished (b : Block QCRef) (r : QCRef) : list EventNotifier :=
  [HqcUpdateEvent (Some r); QcFinishEvent (Proposer b) (Some r)].

(** The certificate of block [n + 1], of view [n], has been signed by [X], all of
    whom it verifies; with a quorum it has become the highest one and has been
    announced, after the events [es]. *)
Record tallied s (n : nat) (b : Block QCRef) (r : QCRef) (X : gset Z) (es : list EventNotifier) : Prop := {
  tl_inv : chain_inv hs s (S n);
  tl_stored : stored s (hs (S n)) = Some b;
  tl_self : SelfQc b = Some r;
  tl_votes : voteSet s = ∅;
  tl_cert : ∃ qc, qcHeap s !! r = Some qc ∧ qc_BlockHash qc = hs (S n) ∧ qc_ViewNumber qc = Z.of_nat n
    ∧ (∀ i c, signs qc !! i = Some c → verify_entry (replicas env) (hs (S n)) (i, c) = Some true)
    ∧ dom (signs qc) ⊆ X
    ∧ if decide (q ≤ len_signs qc)%Z
      then genericQC s = Some r ∧ notifyChan s = es ++ finished b r
      else dom (signs qc) = X ∧ qc_hash s (genericQC s) = Some (hs n) ∧ notifyChan s = es }.

(** Votes for the block carry a signature that verifies. *)
Definition good_vote (n : nat) (v : Vote) : Prop :=
  vote_BlockHash v = hs (S n) ∧ is_Some (vote_Cert v) ∧ authentic env (hs (S n)) v.

(** The highest certificate after the vote that completes the certificate. *)
Lemma finish_adopts s n b gb r qc :
  Height b = Z.of_nat (S n) → stored s (hs n) = Some gb → Height gb = Z.of_nat n →
  SelfQc b = Some r → qcHeap s !! r = Some qc →
  VerifyQuorumCert (replicas env) (Some qc) = Some true → qc_hash s (genericQC s) = Some (hs n) →
  adopt_high env b (SelfQc b) s = emit [HqcUpdateEvent (Some r)] (set_genericQC (Some r) s).
Proof.
  intros Hb Hgb Hgh Hr Hq Hv Hg. unfold adopt_high. rewrite Hr, (verified_lookup _ _ _ _ Hq).
  rewrite bool_decide_eq_true_2, (qc_block_at _ _ _ Hg), Hgb by done. cbn [above].
  by rewrite Hb, Hgh, bool_decide_eq_true_2 by lia.
Qed.

(** The state after a counted vote, before it is announced. *)
Lemma tallied_record s n b r X es v qc :
  tallied s n b r X es → good_vote n v → qcHeap s !! r = Some qc → qc_BlockHash qc = hs (S n) →
  let m := <[vote_Voter v := vote_Cert v]> (signs qc) in
  let s2 := record_vote r qc m s in
  voteSet s2 = ∅ ∧ qcHeap s2 !! r = Some (set_signs m qc) ∧ core_wf s2 ∧ new_signs v s qc = m.
Proof.
  intros [Hinv Hst Hr Hvs _] (_ & Hc & _) Hq Hh m s2. pose proof (ci_wf _ _ _ Hinv) as Hwf.
  assert (Hnew : new_signs v s qc = m) by (unfold new_signs; by rewrite Hvs, lookup_empty).
  split_and!; [| | |done].
  - unfold s2, record_vote. cbn [voteSet set_voteSet]. by rewrite Hvs, delete_empty.
  - unfold s2, record_vote. cbn [qcHeap set_voteSet set_qcHeap]. rewrite Hvs, lookup_empty. cbn [default add_votes].
    apply list_lookup_insert_eq. by eapply lookup_lt_Some.
  - apply wf_record_vote; [done..|]. apply map_Forall_insert_2; [done|]. by eapply (wf_certs s Hwf).
Qed.

(** The invariant after a vote, whichever way it was handled. *)
Lemma vote_inv s n b r X es v u g l :
  tallied s n b r X es → good_vote n v → let out := OnProposalVote env v s in
  out.2 ≡ u → keeps_hashes s u → (n ≤ g ≤ S n)%nat → qc_hash u (genericQC u) = Some (hs g) →
  lockedQC u = lockedQC s → execQC u = execQC s → voteHeight u = voteHeight s →
  notifyChan u = notifyChan s ++ l → omap decided l = [] → omap event_vote l = [] →
  chain_inv hs out.2 (S n).
Proof.
  intros Ht (Hvh & Hvc & _) out He Hk Hg Hgen Hl Hx Hh Hn Hld Hlv. pose proof Ht as [Hinv Hst Hr _ (qc & Hq & _)].
  pose proof (ci_wf _ _ _ Hinv) as Hwf. rewrite <-Hvh in Hst.
  apply (inv_step s); [done| | | |].
  - apply (safe_no_panic _ _ _ (safe_OnProposalVote env v s Hwf Hvc)).
  - apply (reads_OnProposalVote _ v s b r qc); [done..| |].
    + rewrite Hvh. apply elem_of_window. lia.
    + intros h Hgh. destruct (pr_generic _ _ _ (ci_progress _ _ _ Hinv)) as (g' & Hg' & Hgh').
      rewrite Hgh in Hgh'. injection Hgh' as ->. apply elem_of_window. lia.
  - intros o h Ho. rewrite (qc_hash_same u) by (by rewrite He). by apply Hk.
  - eapply progress_eqv; [exact He|]. apply (progress_kept s u (S n) g l); try done; [apply Hinv|lia].
Qed.

Lemma record_eqv r qc m s t : t ≡ s → record_vote r qc m t ≡ record_vote r qc m s.
Proof. intros He. unfold record_vote. by rewrite (voteSet_proper _ _ He), (qcHeap_proper _ _ He), He. Qed.

(** A state in which the vote was handled, up to the cache. *)
Lemma tallied_as s n b r X X' es v u g l qc :
  tallied s n b r X es → good_vote n v → (OnProposalVote env v s).2 ≡ u → keeps_hashes s u →
  (∀ h, stored u h = stored s h) → voteSet u = ∅ → qcHeap u !! r = Some qc → qc_BlockHash qc = hs (S n) →
  qc_ViewNumber qc = Z.of_nat n → (∀ i c, signs qc !! i = Some c → verify_entry (replicas env) (hs (S n)) (i, c) = Some true) →
  dom (signs qc) ⊆ X' →
  (if decide (q ≤ len_signs qc)%Z
   then genericQC u = Some r ∧ notifyChan u = es ++ finished b r ∧ g = S n
   else dom (signs qc) = X' ∧ qc_hash u (genericQC u) = Some (hs n) ∧ notifyChan u = es ∧ g = n) →
  lockedQC u = lockedQC s → execQC u = execQC s → voteHeight u = voteHeight s →
  notifyChan u = notifyChan s ++ l → omap decided l = [] → omap event_vote l = [] →
  tallied (OnProposalVote env v s).2 n b r X' es.
Proof.
  intros Ht Hv He Hk Hstu Hvs Hq Hh Hview Hver Hsub Hgen Hl Hx Hvh Hn Hld Hlv. pose proof Ht as [_ Hst Hr _ _].
  assert (Hg : (n ≤ g ≤ S n)%nat ∧ qc_hash u (genericQC u) = Some (hs g)).
  { case_decide; [destruct Hgen as (-> & _ & ->)|destruct Hgen as (_ & ? & _ & ->); split; [lia|done]].
    split; [lia|]. by rewrite (qc_hash_lookup _ _ _ Hq), Hh. }
  destruct Hg as [Hg Hgh]. constructor; [eapply (vote_inv s n b r X es v u g l); eassumption|by rewrite He, Hstu|done|by rewrite (voteSet_proper _ _ He)|].
  exists qc. rewrite (qcHeap_proper _ _ He). split_and!; [done..|].
  rewrite (genericQC_proper _ _ He), (notifyChan_proper _ _ He), (qc_hash_same u) by (by rewrite He).
  case_decide; tauto.
Qed.

(** The vote of a replica that has not voted yet is counted, or is surplus. *)
Lemma count_next s n b r X es v :
  sane_metadata (Metadata (replicas env)) → tallied s n b r X es → good_vote n v → vote_Voter v ∉ X →
  (OnProposalVote env v s).1 = Ok tt ∧ tallied (OnProposalVote env v s).2 n b r ({[vote_Voter v]} ∪ X) es.
Proof.
  intros Hsane Ht Hv Hnew. pose proof Ht as [Hinv Hst Hr Hvs (qc & Hq & Hh & Hview & Hver & Hsub & Hgen)].
  pose proof (ci_wf _ _ _ Hinv) as Hwf. pose proof (wf_store s Hwf) as Hs. pose proof Hv as (Hvh & Hvc & Hva).
  assert (Hst' : stored s (vote_BlockHash v) = Some b) by (by rewrite Hvh).
  pose proof (tallied_as s n b r X ({[vote_Voter v]} ∪ X) es v) as Has.
  case_decide as Hfull.
  { destruct (OnProposalVote_full env v s b r qc Hs Hst' Hr Hq Hfull) as (t & Ho & He). rewrite Ho in Has |- *.
    split; [done|]. apply (Has s (S n) [] qc); try done;
      [by apply heap_keeps|set_solver|by rewrite decide_True by done; destruct Hgen|by rewrite app_nil_r]. }
  destruct Hgen as (Hdom & Hgen & Hes). rewrite <-Hdom in Hnew. apply not_elem_of_dom in Hnew.
  destruct (tallied_record s n b r X es v qc Ht Hv Hq Hh) as (Hvs2 & Hq2 & Hwf2 & Hns).
  destruct (OnProposalVote_counted env v s b r qc Hs Hst' Hr Hq) as (s1 & He1 & _ & Ho);
    [unfold q in Hfull; lia|done|]. cbv zeta in Ho. rewrite Hns in Ho. rewrite Ho in Has |- *.
  pose proof (record_eqv r qc (<[vote_Voter v := vote_Cert v]> (signs qc)) s s1 He1) as He2.
  set (m := <[_ := _]> (signs qc)) in *. set (s2 := record_vote r qc m s) in *. set (s2' := record_vote r qc m s1) in *.
  assert (Hk2 : keeps_hashes s s2) by (intros o h; unfold s2; by rewrite record_hash).
  assert (Hver2 : ∀ i c, m !! i = Some c → verify_entry (replicas env) (hs (S n)) (i, c) = Some true).
  { intros i c [[<- <-]|[_ Hc]]%lookup_insert_Some; [exact Hva|by apply Hver]. }
  assert (Hdom2 : dom m = {[vote_Voter v]} ∪ X) by (unfold m; by rewrite dom_insert_L, Hdom).
  assert (Hlen : len_signs (set_signs m qc) = Z.of_nat (size m)) by done.
  case_decide as Hlt.
  { split; [done|]. apply (Has s2 n [] (set_signs m qc)); try done; [cbn [signs]; by rewrite <-Hdom2| |by rewrite app_nil_r].
    rewrite decide_False by (rewrite Hlen; unfold q; lia). split_and!; [done|by apply Hk2|done|done]. }
  assert (Hq2' : qcHeap s2' !! r = Some (set_signs m qc)) by (by rewrite (qcHeap_proper _ _ He2)).
  destruct (finish_run env b r s2') as [Hok He3]; [by eapply core_wf_eqv|done|by eapply lookup_lt_Some|].
  split; [done|]. pose proof (adopt_high_proper env b (SelfQc b) _ _ He2) as He4.
  destruct (inv_stored s (S n) n Hinv) as (gb & Hgb & Hgh); [lia..|].
  rewrite (finish_adopts s2 n b gb r (set_signs m qc)) in He4; try done.
  - rewrite He4, emit_emit in He3. eapply (Has _ (S n) _ (set_signs m qc)); try done; [cbn [signs]; by rewrite <-Hdom2| |reflexivity..].
    rewrite decide_True by (rewrite Hlen; unfold q; lia). split_and!; [done| |done].
    rewrite Hr. cbn [emit notifyChan set_notifyChan set_genericQC]. change (notifyChan s2) with (notifyChan s). by rewrite Hes.
  - exact (held_height _ _ _ _ (inv_held _ _ _ _ Hinv (le_n _) ltac:(lia) Hst)).
  - apply Hgh.
  - apply authentic_verifies; [done| |rewrite Hlen; lia]. cbn [set_signs qc_BlockHash]. by rewrite Hh.
  - by apply Hk2.
Qed.

(** With a quorum of signers the certificate is the highest one, and verifies. *)
Lemma tallied_quorum s n b r X es :
  sane_metadata (Metadata (replicas env)) → tallied s n b r X es → (q ≤ Z.of_nat (size X))%Z →
  ∃ qc, genericQC s = Some r ∧ qcHeap s !! r = Some qc ∧ qc_BlockHash qc = hs (S n)
    ∧ qc_ViewNumber qc = Z.of_nat n ∧ VerifyQuorumCert (replicas env) (Some qc) = Some true
    ∧ notifyChan s = es ++ finished b r.
Proof.
  intros Hsane [_ _ _ _ (qc & Hq & Hh & Hview & Hver & _ & Hgen)] HX. exists qc.
  assert (Hfull : (q ≤ len_signs qc)%Z).
  { case_decide; [done|]. destruct Hgen as [<- _]. by rewrite size_dom in HX. }
  rewrite decide_True in Hgen by done. destruct Hgen. split_and!; try done.
  apply authentic_verifies; [done|by rewrite Hh|done].
Qed.

(** Without a quorum of signers nothing has been announced. *)
Lemma tallied_few s n b r X es :
  tallied s n b r X es → (Z.of_nat (size X) < q)%Z → notifyChan s = es.
Proof.
  intros [_ _ _ _ (qc & _ & _ & _ & _ & Hsub & Hgen)] HX.
  rewrite decide_False in Hgen; [by destruct Hgen as (_ & _ & ?)|].
  apply subseteq_size in Hsub. unfold len_signs. rewrite <-size_dom. lia.
Qed.

End votes.

(** ** Proposing the next block *)

Section proposing.
Context {E : Type} (env : CoreEnv E) (hs : nat → bytes) {cm : ChainCommands}.
Hypothesis clone_copies : ∀ qc, clone env qc = qc.
Implicit Types (s t : HotStuffCore CoreDB).

Let q := GetQuorumSize (Metadata (replicas env)).

(** The replica may propose block [n + 1]: its highest certificate, [gq] at
    [g], is for block [n] and verifies unless it is the root's. *)
Record leading s (n : nat) (g : QCRef) (gq : QuorumCert) : Prop := {
  ld_inv : chain_inv hs s n;
  ld_votes : voteSet s = ∅;
  ld_generic : genericQC s = Some g;
  ld_cert : qcHeap s !! g = Some gq;
  ld_hash : qc_BlockHash gq = hs n;
  ld_view : (qc_ViewNumber gq ≤ Z.of_nat (pred n))%Z;
  ld_verified : (1 ≤ n)%nat → VerifyQuorumCert (replicas env) (Some gq) = Some true }.

(** The block it creates and the certificates behind it. *)
Lemma propose_start s s0 n g gq now view cmds :
  leading s n g gq → s0 = set_blockCache (blockCache s0) s → chain_inv hs s0 n →
  let nb := leaf env now (hs n) cmds (Z.of_nat (S n)) s in
  hs (S n) = GetBlockHash nb → cmds = chain_cmds (S n) →
  let s1 := set_qcHeap (leaf_heap env now view (hs n) cmds (Z.of_nat (S n)) gq s) s0 in
  chain_inv hs s1 n ∧ held hs s1 (S n) nb ∧ block_ok (length (qcHeap s1)) nb
  ∧ ((1 ≤ n)%nat → verified env s1 (Justify nb) = true)
  ∧ qcHeap s1 !! length (qcHeap s) = Some gq
  ∧ qcHeap s1 !! S (length (qcHeap s)) = Some (MkQuorumCert view (hs (S n)) (Some ∅)).
Proof.
  intros Hl Hs0 Hinv nb Hnb Hcmds s1. assert (Hq0 : qcHeap s0 = qcHeap s) by (by rewrite Hs0).
  assert (Hs1 : s1 = set_qcHeap (qcHeap s0 ++ [gq; MkQuorumCert view (hs (S n)) (Some ∅)]) s0)
    by (unfold s1, leaf_heap; rewrite Hnb, Hq0; reflexivity).
  clearbody s1. subst s1. set (s1 := set_qcHeap _ s0).
  assert (Hj : qcHeap s1 !! length (qcHeap s) = Some gq) by (unfold s1; rewrite <-Hq0; by apply list_lookup_middle).
  assert (Hself : qcHeap s1 !! S (length (qcHeap s)) = Some (MkQuorumCert view (hs (S n)) (Some ∅))).
  { unfold s1. cbn [qcHeap set_qcHeap]. rewrite <-Hq0, lookup_app_r, Nat.sub_succ_l, Nat.sub_diag by lia. done. }
  assert (Hwf : core_wf s1).
  { unfold s1. rewrite cons_middle, app_assoc.
    apply (wf_alloc _ (set_qcHeap (qcHeap s0 ++ [gq]) s0)); [apply wf_alloc; [apply Hinv|]|apply certs_ok_empty].
    eapply (wf_certs s (ci_wf _ _ _ (ld_inv _ _ _ _ Hl))), Hl. }
  split_and!; [by apply inv_prefix| | | |done|done].
  - constructor; cbn [nb leaf SelfQc Justify ParentHash]; [done|done|done|by rewrite (qc_hash_lookup _ _ _ Hself)|done|].
    intros _. rewrite Nat.sub_succ, Nat.sub_0_r, (qc_hash_lookup _ _ _ Hj). by rewrite (ld_hash _ _ _ _ Hl).
  - apply lookup_lt_Some in Hj, Hself. split; [by eexists|right; by eexists].
  - intros Hn. cbn [nb leaf Justify]. rewrite (verified_lookup _ _ _ _ Hj). apply bool_decide_eq_true_2. by apply Hl.
Qed.

(** The proposer's own vote, cast on the certificate it just created. *)
Definition own_vote (view : Z) (n : nat) (sig : bytes) : Vote := vote_for env view (hs (S n)) sig.

Definition own_cert (view : Z) (n : nat) (sig : bytes) : QuorumCert :=
  MkQuorumCert view (hs (S n)) (Some {[id env := Some (MkPartCert (id env) sig)]}).

Lemma own_cert_signs view n sig : signs (own_cert view n sig) = {[id env := Some (MkPartCert (id env) sig)]}.
Proof. done. Qed.

Lemma own_cert_len view n sig : len_signs (own_cert view n sig) = 1%Z.
Proof. unfold len_signs. by rewrite own_cert_signs, map_size_singleton. Qed.

Lemma own_vote_run s n b r view sig :
  core_wf s → stored s (hs (S n)) = Some b → SelfQc b = Some r →
  qcHeap s !! r = Some (MkQuorumCert view (hs (S n)) (Some ∅)) → voteSet s = ∅ → (2 ≤ q)%Z →
  ∃ t, OnProposalVote env (own_vote view n sig) s = (Ok tt, t) ∧ core_wf t ∧ voteSet t = ∅
    ∧ qcHeap t = <[r := own_cert view n sig]> (qcHeap s) ∧ (∀ h, stored t h = stored s h) ∧ keeps_hashes s t
    ∧ genericQC t = genericQC s ∧ lockedQC t = lockedQC s ∧ execQC t = execQC s ∧ voteHeight t = voteHeight s
    ∧ notifyChan t = notifyChan s.
Proof.
  intros Hwf Hb Hr Hq Hvs Hqs. set (v := own_vote view n sig).
  destruct (OnProposalVote_counted env v s b r _ (wf_store s Hwf) Hb Hr Hq) as (s1 & He & _ & Ho);
    [change (0 < q)%Z; lia|done|]. cbv zeta in Ho.
  pose proof (safe_no_panic _ _ _ (safe_OnProposalVote env v s Hwf ltac:(by eexists))) as [_ Hwft].
  assert (Hns : new_signs v s (MkQuorumCert view (hs (S n)) (Some ∅)) = {[id env := Some (MkPartCert (id env) sig)]}).
  { unfold new_signs. by rewrite Hvs, lookup_empty. }
  rewrite Hns, map_size_singleton, decide_True in Ho by (fold q; lia). rewrite Ho in Hwft |- *.
  eexists. split; [reflexivity|]. cbn [snd] in Hwft. split; [exact Hwft|].
  match type of Hwft with core_wf ?t => assert (Hk : keeps_hashes s t) end.
  { intros o h Hoh. rewrite record_hash by (by rewrite (qcHeap_proper _ _ He)).
    by rewrite (qc_hash_same s) by (by rewrite (qcHeap_proper _ _ He)). }
  revert Hk. unfold record_vote. cbn [voteSet set_voteSet set_qcHeap qcHeap genericQC lockedQC execQC voteHeight notifyChan].
  rewrite (voteSet_proper _ _ He), (qcHeap_proper _ _ He), Hvs, lookup_empty, delete_empty.
  rewrite (genericQC_proper _ _ He), (lockedQC_proper _ _ He), (execQC_proper _ _ He), (voteHeight_proper _ _ He),
    (notifyChan_proper _ _ He).
  intros Hk. split_and!; try done. intros h. change (stored s1 h = stored s h). by rewrite He.
Qed.

(** The event in which the block is sent. *)
Definition sent (view : Z) (nb : Block QCRef) : EventNotifier := ProposeEvent (MkProposal view (Some nb)).

(** [propose_leaf] once the block is stored. *)
Lemma propose_ready s n nb r ent view sig :
  view = Z.of_nat n → ready env hs s n nb → block_ok (length (qcHeap s)) nb → capacity (blockCache s) = 30%Z →
  stored s (hs (S n)) = Some nb →
  (∀ j, (j ≤ S n)%nat → (S n ≤ j + 3)%nat →
     ∃ bj, behind (window hs (j - 4) (S n)) (EncodeToString (hs j)) bj (abs (blockCache s)) ∧ held hs s j bj) →
  voteSet s = ∅ → SelfQc nb = Some r → qcHeap s !! r = Some (MkQuorumCert view (hs (S n)) (Some ∅)) →
  Sign env ent (hs (S n)) = inr sig →
  verify_entry (replicas env) (hs (S n)) (id env, Some (MkPartCert (id env) sig)) = Some true → (2 ≤ q)%Z →
  ∃ t, (_ ← update env nb; _ ← setVoteHeight (Height nb); vote ← voteProposal env ent view (Height nb) (hs (S n));
        _ ← OnProposalVote env vote; notify (sent view nb)) s = (Ok tt, t)
    ∧ tallied env hs t n nb r {[id env]} (notifyChan t)
    ∧ (∃ l, notifyChan t = notifyChan s ++ l ++ [sent view nb] ∧ Forall (update_event nb) l)
    ∧ qcHeap t = <[r := own_cert view n sig]> (qcHeap s).
Proof.
  intros Hview Hrd Hbok Hc Hst Hrec Hvs Hr Hq Hsig Hver Hqs. pose proof (rd_wf _ _ _ _ _ Hrd) as Hwf.
  destruct (update_run env nb s Hwf Hbok) as [Hret He]. destruct (ready_update env hs s n nb Hrd) as (Hok & Hgu & _).
  pose proof (reads_update env _ nb s Hwf Hbok (ready_update_covered env hs s n nb Hrd)) as Hreads.
  pose proof (wf_update_spec env nb s Hwf Hbok) as Hwfu. rewrite Hok in Hret. cbn [returned] in Hret.
  unfold reads in Hreads. destruct (update env nb s) as [o s3] eqn:Hu. cbn [fst snd] in *. subst o.
  rewrite (run_bind_Ok _ _ _ _ _ Hu). unfold setVoteHeight. rewrite run_modify.
  set (s4 := set_voteHeight (Height nb) s3). unfold voteProposal, createPartCert.
  rewrite !bind_assoc, Hsig, run_orFail, !(run_bind_Ok (mret _) _ _ _ _ (run_ret _ _)).
  fold (vote_for env view (hs (S n)) sig). change (vote_for env view (hs (S n)) sig) with (own_vote view n sig).
  pose proof (update_spec_heap env nb s) as Hhu. set (u := (update_spec env nb s).2) in *.
  destruct (update_spec_frame env nb s) as (_ & Hvsu & _). fold u in Hvsu.
  assert (He4 : s4 ≡ set_voteHeight (Height nb) u) by (unfold s4; by rewrite He).
  assert (Hwf4 : core_wf s4) by (eapply core_wf_eqv; [symmetry; exact He4|by apply wf_set_height]).
  assert (Hq4 : qcHeap s4 = qcHeap s) by (by rewrite (qcHeap_proper _ _ He4)).
  assert (Hst4 : ∀ h, stored s4 h = stored s h) by (intros h; rewrite He4; apply update_spec_stored).
  destruct (own_vote_run s4 n nb r view sig) as (t & Ht & Hwft & Hvst & Hqt & Hstt & Hkt & Hgt & Hlt & Hxt & Hht & Hnt);
    [done|by rewrite Hst4|done|by rewrite Hq4|by rewrite (voteSet_proper _ _ He4), <-Hvs|done|].
  rewrite (run_bind_Ok _ _ _ _ _ Ht). eexists. split; [reflexivity|].
  set (w := set_notifyChan _ t). assert (Hwfw : core_wf w) by (by apply wf_notify).
  assert (Hkw : keeps_hashes s w) by (intros o h Hoh; apply Hkt; by rewrite (qc_hash_same s)).
  assert (Htouch : touches (window hs (n - 3) (S n)) (blockCache s) (blockCache w)).
  { etrans; [exact Hreads|].
    pose proof (reads_OnProposalVote env (window hs (n - 3) (S n)) (own_vote view n sig) s4 nb r
      (MkQuorumCert view (hs (S n)) (Some ∅))) as Hx. unfold reads in Hx. rewrite Ht in Hx. apply Hx; try done.
    - by rewrite Hst4.
    - by rewrite Hq4.
    - apply elem_of_window. lia.
    - intros h. rewrite (qc_hash_same s), (genericQC_proper _ _ He4) by done. cbn [genericQC set_voteHeight].
      rewrite Hgu. intros [= <-]. apply elem_of_window. lia. }
  destruct (progress_next env hs s n nb (sent view nb) w Hrd) as [Hpw Hgw]; try done.
  { cbn. f_equal. apply Hrd. }
  { etrans; [exact Hgt|]. by rewrite (genericQC_proper _ _ He4). }
  { etrans; [exact Hlt|]. by rewrite (lockedQC_proper _ _ He4). }
  { etrans; [exact Hxt|]. by rewrite (execQC_proper _ _ He4). }
  { cbn [w notifyChan set_notifyChan]. f_equal. etrans; [exact Hnt|]. by rewrite (notifyChan_proper _ _ He4). }
  destruct (recent_reads hs s w n (S n)) as [Hcw Hrw]; [lia|by apply wf_lru|done..|].
  split; [|split; [|by rewrite <-Hq4, <-Hqt]].
  2: { destruct (update_announces env s nb) as (l & Hl & Hev). exists l. split; [|done].
    cbn [w notifyChan set_notifyChan]. rewrite Hnt, (notifyChan_proper _ _ He4). cbn [set_voteHeight notifyChan].
    fold u in Hl. by rewrite Hl, app_assoc. }
  constructor; [constructor; [done|by rewrite Hcw|done|done]|etrans; [apply Hstt|by rewrite Hst4]|done|done|].
  exists (own_cert view n sig). change (qcHeap w) with (qcHeap t). rewrite Hqt, decide_False by (rewrite own_cert_len; lia).
  split_and!; [apply list_lookup_insert_eq; rewrite Hq4; by eapply lookup_lt_Some|done|done| | | |done|done].
  - intros i c. rewrite own_cert_signs. intros [<- <-]%lookup_singleton_Some. exact Hver.
  - rewrite own_cert_signs. by rewrite dom_singleton_L.
  - rewrite own_cert_signs. apply dom_singleton_L.
Qed.

(** [OnPropose] on the highest certificate. *)
Lemma propose_next s n g gq now ent view cmds sig :
  leading s n g gq → view = Z.of_nat n → is_int64 (Z.of_nat (S n)) → (2 ≤ q)%Z →
  let nb := leaf env now (hs n) cmds (Z.of_nat (S n)) s in
  hs (S n) = GetBlockHash nb → cmds = chain_cmds (S n) → (∀ j, (j ≤ n)%nat → hs j ≠ hs (S n)) → Sign env ent (hs (S n)) = inr sig →
  verify_entry (replicas env) (hs (S n)) (id env, Some (MkPartCert (id env) sig)) = Some true →
  ∃ t, OnPropose env now ent view (hs n) cmds s = (Ok tt, t)
    ∧ tallied env hs t n nb (S (length (qcHeap s))) {[id env]} (notifyChan t)
    ∧ (∃ l, notifyChan t = notifyChan s ++ l ++ [sent view nb] ∧ Forall (update_event nb) l)
    ∧ qcHeap t !! length (qcHeap s) = Some gq ∧ qcHeap t !! S (length (qcHeap s)) = Some (own_cert view n sig).
Proof.
  intros Hl Hview Hn Hqs nb Hnb Hcmds Hne Hsig Hver. pose proof Hl as [Hinv Hvs Hg Hgq Hgh _ Hgv].
  pose proof (ci_wf _ _ _ Hinv) as Hwf. destruct (inv_stored hs s n n Hinv) as (pb & Hpb & Hph); [lia..|].
  assert (Hheight : wrap64 (Height pb + 1) = Z.of_nat (S n)).
  { rewrite (held_height _ _ _ _ Hph), wrap64_id; [lia|]. unfold is_int64 in *. lia. }
  destruct (OnPropose_leaf env clone_copies now ent view (hs n) cmds pb s g gq (wf_store s Hwf) Hpb Hg Hgq)
    as (s0 & He0 & Hs0 & Hload & ->).
  { rewrite Hheight, (pr_height _ _ _ (ci_progress _ _ _ Hinv)). lia. }
  rewrite Hheight. fold nb. rewrite <-Hnb.
  assert (Hinv0 : chain_inv hs s0 n).
  { apply (inv_reads hs s); [done..|].
    pose proof (reads_LoadBlock (window hs (n - 3) n) (hs n) s ltac:(apply elem_of_window; lia)) as Hx.
    unfold reads in Hx. by rewrite Hload in Hx. }
  destruct (propose_start s s0 n g gq now view cmds Hl Hs0 Hinv0 Hnb Hcmds) as (Hinv1 & Hb & Hbok & Hjv & Hj & Hself).
  fold nb in Hb, Hbok, Hjv. set (s1 := set_qcHeap _ s0) in *.
  destruct (store_next env hs s1 n nb Hinv1 Hb Hbok Hjv Hne) as [Hstore Hnext].
  destruct (Hnext (condGen s1)) as (Hrd & Hst & Hcap & Hrec). unfold propose_leaf.
  rewrite (run_bind_Ok _ _ _ _ _ Hstore). set (s2 := stored_next hs s1 n nb (condGen s1)) in *.
  destruct (propose_ready s2 n nb (S (length (qcHeap s))) ent view sig) as (t & Ht & Htl & Hevs & Hqt); try done.
  - intros j ? ?. apply Hrec; lia.
  - etrans; [|exact Hvs]. unfold s2, s1. cbn. by rewrite Hs0.
  - exists t. rewrite Hqt, list_lookup_insert_ne by lia. split_and!; [done|done| |done|].
    + destruct Hevs as (l & Hev & Hupd). exists l. split; [|done]. rewrite Hev. f_equal. unfold s2, s1. cbn. by rewrite Hs0.
    + apply list_lookup_insert_eq. by eapply lookup_lt_Some.
Qed.

End proposing.

(** ** Receiving the proposal *)

(** The receiver stores the block with the certificate its proposer signed. *)
Lemma received_tallied {E} (env : CoreEnv E) hs {cm : ChainCommands} s n b r sq e l t :
  received hs s n b e t → SelfQc b = Some r → qcHeap s !! r = Some (decode_qc sq) → voteSet s = ∅ →
  qc_BlockHash sq = hs (S n) → qc_ViewNumber sq = Z.of_nat n → dom (signs sq) = {[l]} →
  (∀ i c, signs sq !! i = Some c → verify_entry (replicas env) (hs (S n)) (i, c) = Some true) →
  (2 ≤ GetQuorumSize (Metadata (replicas env)))%Z → tallied env hs t n b r {[l]} (notifyChan t).
Proof.
  intros [Hinv Hg Hheap Hvs Hst _] Hr Hq Hs Hh Hview Hdom Hver Hqs.
  constructor; [done|done|done|by rewrite Hvs|]. exists (decode_qc sq). rewrite Hheap, decode_hash, signs_decode.
  split_and!; [done|done|by unfold decode_qc; case_decide|done|by rewrite Hdom|]. rewrite decide_False; [done|].
  unfold len_signs. rewrite signs_decode, <-size_dom, Hdom, size_singleton. lia.
Qed.
