(* ===== verification/Live.v ===== *)
(** * The steps of a round, one replica at a time

    What each step of a replica ([run_input]) does when the protocol runs
    undisturbed: the first [OnBeat] of a replica that does not lead and the
    command it forwards, the leader's [OnBeat], the event and the broadcast of its
    proposal, a receiver's message and event, the client's request, a vote that
    arrives, and the certificate that is complete.  Each lemma gives the state the
    step ends in. *)

From stdpp Require Import base numbers fin_maps fin_map_dom gmap sets strings list.
From Stdlib Require Import Strings.Byte.
From S2P Require Import Prelude GoMonad Encoding Types Database LRUCache Entity Core.
From S2P Require Import CoreLemmas CoreSafety CoreSpec CoreProps CoreProposals CoreVotes CoreEffects CoreReads.
From S2P Require Import ChainCore Pacemaker PacemakerProps PacemakerLive Transport Grpc Base ReplicaSafety Chain Rounds.

Section steps.
Context {E W : Type} (rc : ReplicaConf) (env : BaseEnv E W) (i : Z).
Implicit Types (p : RoundRobinPM (HotStuffBase CoreDB W)).

Let N := md_N (Metadata rc).

#[local] Hint Extern 0 (HotStuff _ _) => exact (base_HotStuff env) : typeclass_instances.

(** A replica of the cluster that runs the code: its id and configuration, a
    log whose [Save] returns, a signer whose signatures verify, a stack with room
    for one call of [OnReceiveProposal]. *)
Record correct : Prop := {
  co_id : id (core_env env) = i;
  co_conf : replicas (core_env env) = rc;
  co_clone : ∀ qc, clone (core_env env) qc = qc;
  co_sign : ∀ e d, ∃ sig, Sign (core_env env) e d = inr sig
              ∧ verify_entry rc d (i, Some (MkPartCert i sig)) = Some true;
  co_replica : replicaId (pm_conf env) = i;
  co_metadata : metadata (pm_conf env) = Metadata rc;
  co_wal : ∀ hs k d w, match (wal_save env hs k d w).1 with Ok _ | Fail _ => True | _ => False end;
  co_stack : (0 < stack_depth (pm_conf env))%nat }.

Hypothesis Hco : correct.
Hypothesis HN : (2 ≤ N)%Z.

(** [GetCurLeader] of view [n]; [GetLeader] is the leader of the view after it. *)
Definition leader (n : nat) : Z := Z.rem (Z.of_nat n) N.

Lemma leader_next n : is_int64 (Z.of_nat (S n)) → leader_of (pm_conf env) (Z.of_nat n) = leader (S n).
Proof.
  intros Hn. unfold leader_of, leader. rewrite (co_metadata Hco). fold N.
  by replace (wrap64 (Z.of_nat n + 1)) with (Z.of_nat (S n)) by (rewrite wrap64_id; [lia|unfold is_int64 in *; lia]).
Qed.

Lemma N_conf : md_N (metadata (pm_conf env)) ≠ 0%Z.
Proof. rewrite (co_metadata Hco). fold N. lia. Qed.

(** A replica whose broadcast server is [a]. *)
Definition with_server (a : abServer (Message QCRef)) p : RoundRobinPM (HotStuffBase CoreDB W) :=
  set_hotstuff (MkBase (core (hotstuff p)) (Nodes (hotstuff p)) a (wal (hotstuff p))) p.

(** ** The start *)

(** [OnBeat] of a replica that does not lead forwards the command to the leader. *)
Lemma forward_run n t c cs p :
  leader n ≠ i → curView p = Z.of_nat n → submitC p = c :: cs →
  run_input env (InTask t TaskBeat) p
  = (Ok tt, set_timer true (set_spawned (spawned p ++ [TaskUnicast (MkMessage "" (Some (Message_Forward (MkForward c)))) (leader n)])
      (set_submitC cs p))).
Proof.
  intros Hl Hv Hc. cbn [run_input run_task]. unfold OnBeat. rewrite run_gets, Hc, run_modify, run_gets.
  cbn [curView set_submitC]. unfold GetCurLeader. rewrite decide_False by apply N_conf.
  rewrite (run_bind_Ok (mret _) _ _ _ _ (run_ret _ _)), Hv, (co_metadata Hco), (co_replica Hco).
  rewrite decide_True by exact Hl. done.
Qed.

(** The goroutine that sends it. *)
Lemma unicast_run t m dest q p :
  sendChan (server (hotstuff p)) !! dest = Some q →
  run_input env (InTask t (TaskUnicast m dest)) p
  = (Ok tt, with_server (MkABServer (<[dest := q ++ [m]]> (sendChan (server (hotstuff p))))) p).
Proof.
  intros Hq. cbn [run_input run_task]. unfold mbind, M_bind, try, lift. cbn [hs_Unicast base_HotStuff]. unfold liftServer, Unicast.
  rewrite run_gets, Hq. done.
Qed.

Lemma Submit_run c p :
  (length (submitC p) < submit_capacity)%nat → Submit c p = (Ok tt, set_submitC (submitC p ++ [c]) p).
Proof. intros Hroom. unfold Submit. rewrite run_gets, decide_True by done. done. Qed.

(** A forwarded command is queued. *)
Lemma forward_arrives t src tag c p :
  (length (submitC p) < submit_capacity)%nat →
  run_input env (InMessage t src (MkMessage tag (Some (Message_Forward (MkForward c))))) p
  = (Ok tt, set_submitC (submitC p ++ [c]) p).
Proof.
  intros Hroom. cbn [run_input handleMessage msg_Type]. unfold handleForward, mbind, M_bind, try. cbn [fwd_Data].
  by rewrite Submit_run.
Qed.

(** ** The leader *)

(** [OnBeat] takes the queued command and proposes it. *)
Lemma beat_run n t c cs g gq s p :
  leader n = i → curView p = Z.of_nat n → submitC p = c :: cs →
  genericQC (core (hotstuff p)) = Some g → qcHeap (core (hotstuff p)) !! g = Some gq →
  OnPropose (core_env env) (now t) (ent t) (Z.of_nat n) (qc_BlockHash gq) c (core (hotstuff p)) = (Ok tt, s) →
  run_input env (InTask t TaskBeat) p = (Ok tt, with_core s (wal (hotstuff p)) (set_submitC cs p)).
Proof.
  intros Hl Hv Hc Hg Hq Hrun. cbn [run_input run_task].
  rewrite (OnBeat_leader (pm_conf env) t c cs (Some g) gq p N_conf Hc).
  - rewrite Hv. cbn [hs_OnPropose base_HotStuff]. unfold mbind, M_bind, try.
    by rewrite (lift_core _ tt s (set_submitC cs p) Hrun).
  - rewrite Hv, (co_metadata Hco), (co_replica Hco). exact Hl.
  - unfold PacemakerLive.reads. cbn. unfold liftCore, GetHighQC. cbn. rewrite Hg. by destruct (hotstuff p).
  - unfold PacemakerLive.reads. cbn [hs_read base_HotStuff]. unfold liftCore.
    rewrite (deref_run g _ gq Hq). by destruct (hotstuff p).
Qed.

(** The event of the proposal starts its broadcast. *)
Lemma propose_event_run n t pr p :
  is_int64 (Z.of_nat (S n)) → leader (S n) ≠ i → curView p = Z.of_nat n →
  NodeStatus (Nodes (hotstuff p)) (leader (S n)) = true →
  run_input env (InEvent t (ProposeEvent pr)) p
  = (Ok tt, set_spawned (spawned p ++ [TaskBroadcast (MkMessage "" (Some (Message_Proposal pr)))]) (set_timer true p)).
Proof.
  intros Hn Hl Hv Hc. cbn [run_input ExecuteEvent]. unfold OnProposeEvent.
  rewrite run_gets, GetLeader_bind, Hv, leader_next, (co_replica Hco) by (done || apply N_conf).
  rewrite decide_True by done. unfold startNewViewTimer, stopNewViewTimer.
  rewrite !bind_assoc, run_modify, run_modify, !bind_assoc, run_gets, bind_assoc, GetLeader_bind by apply N_conf.
  cbn [curView set_timer]. rewrite Hv, leader_next by done. unfold GetConnectStatus. rewrite !bind_assoc, run_gets.
  cbn [hotstuff set_timer hs_GetConnectStatus base_HotStuff]. rewrite Hc. done.
Qed.

(** The broadcast puts the message on every stream. *)
Lemma broadcast_run t m p :
  run_input env (InTask t (TaskBroadcast m)) p
  = (Ok tt, with_server (MkABServer ((λ q, q ++ [m]) <$> sendChan (server (hotstuff p)))) p).
Proof. done. Qed.

(** ** The receivers *)

(** The event of a received proposal delivers the vote once, when the next
    leader is this replica or is connected. *)
Lemma receive_event_run n t pr v p :
  is_int64 (Z.of_nat (S n)) → (curView p ≤ Z.of_nat n)%Z → prop_ViewNumber pr = Z.of_nat n →
  NodeStatus (Nodes (hotstuff p)) (leader (S n)) = true ∨ leader (S n) = i →
  let q := set_curView (Z.of_nat n) p in
  run_input env (InEvent t (ReceiveProposalEvent pr v)) p
  = deliverVote (pm_conf env) (Z.of_nat n) v (if decide (leader (S n) = i) then set_timer false q else q).
Proof.
  intros Hn Hv Hpv Hc q. cbn [run_input ExecuteEvent]. rewrite Hpv.
  assert (Hv0 : start_view p (Z.of_nat n) = Z.of_nat n) by (unfold start_view; case_decide; lia).
  pose proof (receive_proposal_skips (pm_conf env) v 0 (stack_depth (pm_conf env)) (Z.of_nat n) p) as Hrun.
  cbv zeta in Hrun. rewrite Hv0, Z.add_0_r, decide_True in Hrun by done.
  unfold unwound. unfold mbind at 1, M_bind at 1. rewrite Hrun; [|apply Hco|apply N_conf|lia| | |intros j; lia].
  - unfold settled. rewrite leader_next, (co_replica Hco) by done. fold q. cbn [times].
    unfold mbind, M_bind. cbn [mret M_ret].
    by destruct (deliverVote (pm_conf env) _ v _) as [[[]| | |] ?].
  - unfold is_int64 in Hn. lia.
  - unfold stops. rewrite leader_next, (co_replica Hco) by done. destruct Hc as [Hc|Hc]; [right|left]; done.
Qed.

(** The vote of a receiver that does not lead the next view is sent to its leader. *)
Lemma vote_sent n t pr v q p :
  is_int64 (Z.of_nat (S n)) → leader (S n) ≠ i → (curView p ≤ Z.of_nat n)%Z → prop_ViewNumber pr = Z.of_nat n →
  NodeStatus (Nodes (hotstuff p)) (leader (S n)) = true → sendChan (server (hotstuff p)) !! leader (S n) = Some q →
  run_input env (InEvent t (ReceiveProposalEvent pr v)) p
  = (Ok tt, with_server (MkABServer (<[leader (S n) := q ++ [MkMessage "" (Some (Message_Vote v))]]>
      (sendChan (server (hotstuff p))))) (set_curView (Z.of_nat n) p)).
Proof.
  intros Hn Hl Hv Hpv Hc Hq. rewrite (receive_event_run n) by auto. rewrite decide_False by done.
  unfold deliverVote. rewrite GetLeader_bind, leader_next, (co_replica Hco) by (done || apply N_conf).
  rewrite decide_True by done. unfold mbind at 1, M_bind at 1, try, lift. cbn [hs_Unicast base_HotStuff]. unfold liftServer.
  cbn [set_curView hotstuff]. unfold Unicast. rewrite run_gets, Hq. done.
Qed.

(** The next leader counts its own vote. *)
Lemma vote_kept n t pr v s p :
  is_int64 (Z.of_nat (S n)) → leader (S n) = i → (curView p ≤ Z.of_nat n)%Z → prop_ViewNumber pr = Z.of_nat n →
  OnProposalVote (core_env env) v (core (hotstuff p)) = (Ok tt, s) →
  run_input env (InEvent t (ReceiveProposalEvent pr v)) p
  = (Ok tt, with_core s (wal (hotstuff p)) (set_timer false (set_curView (Z.of_nat n) p))).
Proof.
  intros Hn Hl Hv Hpv Hrun. rewrite (receive_event_run n) by auto. rewrite decide_True by done.
  unfold deliverVote. rewrite GetLeader_bind, leader_next, (co_replica Hco) by (done || apply N_conf).
  rewrite decide_False by (intros Hne; by apply Hne). unfold mbind at 1, M_bind at 1, try. cbn [hs_OnProposalVote base_HotStuff].
  by rewrite (lift_core _ tt s (set_timer false (set_curView (Z.of_nat n) p)) Hrun).
Qed.

(** ** The next leader *)

(** A client's command is queued. *)
Lemma submit_run chain c p :
  c ≠ [] → (length (submitC p) < submit_capacity)%nat →
  run_input env (InSubmit (MkSubmitRequest chain c)) p = (Ok tt, set_submitC (submitC p ++ [c]) p).
Proof.
  intros Hc Hroom. cbn [run_input]. unfold SubmitRequest_handler. cbn [sreq_Cmds]. rewrite decide_False by done.
  unfold mbind, M_bind, try. by rewrite Submit_run.
Qed.

(** A vote that arrives is counted. *)
Lemma vote_arrives n t src tag v c s p :
  is_int64 (Z.of_nat (S n)) → leader (S n) = i → vote_ViewNumber v = Z.of_nat n → vote_Voter v = src →
  vote_BlockHash v ≠ [] → vote_Cert v = Some c →
  verify_entry rc (vote_BlockHash v) (src, Some c) = Some true →
  OnProposalVote (core_env env) v (core (hotstuff p)) = (Ok tt, s) →
  run_input env (InMessage t src (MkMessage tag (Some (Message_Vote v)))) p = (Ok tt, with_core s (wal (hotstuff p)) p).
Proof.
  intros Hn Hl Hv Hsrc Hh Hc Hver Hrun. cbn [run_input handleMessage msg_Type]. unfold handleVote. rewrite Hc.
  rewrite decide_False by done. apply verify_entry_true in Hver as (info & c' & Hinfo & [= <-] & Hacc).
  assert (VerifyIdentity rc src (pc_Signature c) (vote_BlockHash v) = true) as Hid.
  { unfold VerifyIdentity. rewrite Hinfo. revert Hacc. unfold accepts. by destruct (Verify _ _ _). }
  rewrite (co_conf Hco), Hid, decide_False by (intros Hne; apply Hne; by rewrite Hsrc).
  rewrite GetLeader_bind, Hv, leader_next, (co_id Hco), decide_False by (done || apply N_conf || by intros Hne; apply Hne).
  unfold mbind at 1, M_bind at 1, try. by rewrite (lift_core _ tt s p Hrun).
Qed.

(** The complete certificate: the leader enters the next view. *)
Lemma finish_event_run n t pid r qc p :
  is_int64 (Z.of_nat (S n)) → leader (S n) = i → curView p = Z.of_nat n → submitC p ≠ [] →
  qcHeap (core (hotstuff p)) !! r = Some qc → qc_ViewNumber qc = Z.of_nat n →
  run_input env (InEvent t (QcFinishEvent pid (Some r))) p
  = (Ok tt, set_spawned (spawned p ++ [TaskBeat]) (set_curView (Z.of_nat (S n)) p)).
Proof.
  intros Hn Hl Hv Hc Hq Hqv. cbn [run_input ExecuteEvent].
  rewrite (OnQcFinishEvent_run (pm_conf env) (Some r) qc p N_conf).
  - rewrite Hv, Hqv, Z.max_id, leader_next, (co_replica Hco), decide_True by done.
    rewrite decide_False by done. unfold entered. do 3 f_equal.
    rewrite wrap64_id; [lia|unfold is_int64 in *; lia].
  - unfold PacemakerLive.reads. cbn [hs_read base_HotStuff]. unfold liftCore.
    rewrite (deref_run r _ qc Hq). by destruct (hotstuff p).
Qed.

(** ** Events that change nothing but what was executed *)

(** A decision, or a certificate of a view that is not later than the current one. *)
Definition silent p (e : EventNotifier) : Prop :=
  match e with
  | HqcUpdateEvent o => ∃ r qc, o = Some r ∧ qcHeap (core (hotstuff p)) !! r = Some qc ∧ (qc_ViewNumber qc ≤ curView p)%Z
  | DecideEvent _ => True
  | _ => False
  end.

Lemma silent_run t e p :
  silent p e →
  run_input env (InEvent t e) p = (Ok tt, set_executed (executed p ++ (snd <$> omap decided [e])) p).
Proof.
  destruct e as [| | | |o|b]; cbn [silent]; try done.
  intros (r & qc & -> & Hq & Hv). cbn [run_input ExecuteEvent]. unfold mbind at 1, M_bind at 1.
  cbn [hs_read base_HotStuff]. rewrite (lift_core (deref (Some r)) qc (core (hotstuff p)) p (deref_run r _ qc Hq)).
  assert (Hp : with_core (core (hotstuff p)) (wal (hotstuff p)) p = p) by (by destruct p as [[]]). rewrite Hp.
  unfold UpdateQcHigh. rewrite run_gets, decide_False by lia. cbn. rewrite app_nil_r. by destruct p.
Qed.

End steps.
