(* ===== verification/Cluster.v ===== *)
(** * A cluster decides its blocks

    [N] whole replicas - core, pacemaker, broadcast server - from their start, in
    the rounds the protocol has when nobody fails, every message arrives and no
    view timer fires.  [Run] starts an [OnBeat] at every replica.  A client sends
    each replica a first command; the replicas that do not lead view 0 forward
    theirs to its leader, which queues them, and the leader's own [OnBeat] is left
    to propose.  In round [n] the replica [n mod N], in view [n], takes the oldest
    command of its queue and proposes block [n + 1] on its highest certificate;
    the others receive what it broadcast and vote; clients submit commands to
    whatever replicas they like; the votes arrive at the leader of view [n + 1];
    the certificate is complete and that leader enters its view.

    Every step runs the code ([run_input]).  A replica's events and goroutines are
    run once each, in the order in which they were sent and started, and a message
    is taken off the stream it was put on and delivered once: [node] counts the
    events and goroutines that were run. *)

From stdpp Require Import base numbers fin_maps fin_map_dom gmap functions sets strings list.
From Stdlib Require Import Strings.Byte.
From S2P Require Import Prelude GoMonad Encoding Types Database LRUCache Entity Core.
From S2P Require Import CoreLemmas CoreSafety CoreSpec CoreProps CoreProposals CoreVotes CoreEffects CoreReads.
From S2P Require Import ChainCore Pacemaker Transport Grpc Base Replica Chain Rounds Live.

(** The message as [proto.Marshal] reads it. *)
Definition wire (m : Message QCRef) : M (HotStuffCore CoreDB) (Message QuorumCert) :=
  let out ty := MkMessage (msg_ChainId m) ty in
  match msg_Type m with
  | Some (Message_Proposal p) => w ← export_proposal p; mret (out (Some (Message_Proposal w)))
  | Some (Message_ViewChange vc) => mret (out (Some (Message_ViewChange vc)))
  | Some (Message_Vote v) => mret (out (Some (Message_Vote v)))
  | Some (Message_Forward f) => mret (out (Some (Message_Forward f)))
  | None => mret (out None)
  end.

(** A replica, and how many of its events and goroutines have been run. *)
Record node (W : Type) := MkNode {
  state : RoundRobinPM (HotStuffBase CoreDB W);
  events_run : nat;
  tasks_run : nat }.
Arguments MkNode {W}.
Arguments state {W}.
Arguments events_run {W}.
Arguments tasks_run {W}.

(** The loop of [Handshake] takes the oldest message off the stream to [dst] and
    sends it. *)
Definition take_message {W} (dst : Z) (ν : node W) : option (Message QuorumCert * node W) :=
  queue ← stream (server (hotstuff (state ν))) dst;
  m ← head queue;
  match wire m (core (hotstuff (state ν))) with
  | (Ok w, _) =>
      Some (w, MkNode (with_server (MkABServer (<[dst := tail queue]> (sendChan (server (hotstuff (state ν)))))) (state ν))
                 (events_run ν) (tasks_run ν))
  | _ => None
  end.

(** The commands of a list of requests that go to replica [i]. *)
Definition sent_to (l : list (Z * bytes)) (i : Z) : list bytes := (filter (λ x, x.1 = i) l).*2.

Section cluster.
Context {E W : Type} (rc : ReplicaConf) (envs : Z → BaseEnv E W).
(** The clock and the randomness of each replica in each round, the first command
    of each replica, the clients' requests before each round, and the order in
    which a round's messages arrive. *)
Context (ticks : nat → Z → Tick E) (first : Z → bytes) (requests : nat → list (Z * bytes)) (order : nat → list Z).

Local Abbreviation replica := (RoundRobinPM (HotStuffBase CoreDB W)).
Local Abbreviation cluster := (Z → node W).
Local Abbreviation leader := (leader rc).

Let N := md_N (Metadata rc).
Let q := GetQuorumSize (Metadata rc).

Definition ids : list Z := seqZ 0 N.

(** ** The rounds *)

(** A step of replica [i] that returns. *)
Definition step (i : Z) (x : input) (ν : node W) : option (node W) :=
  p ← returns (run_input (envs i) x (state ν)); Some (MkNode p (events_run ν) (tasks_run ν)).

(** The oldest goroutine, the oldest event that has not been run. *)
Definition next_task (n : nat) (i : Z) (ν : node W) : option (node W) :=
  task ← spawned (state ν) !! tasks_run ν;
  step i (InTask (ticks n i) task) (MkNode (state ν) (events_run ν) (S (tasks_run ν))).

Definition next_event (n : nat) (i : Z) (ν : node W) : option (node W) :=
  e ← notifyChan (core (hotstuff (state ν))) !! events_run ν;
  step i (InEvent (ticks n i) e) (MkNode (state ν) (S (events_run ν)) (tasks_run ν)).

Fixpoint next_events (n : nat) (i : Z) (k : nat) (ν : node W) : option (node W) :=
  match k with
  | O => Some ν
  | S k => ν ← next_event n i ν; next_events n i k ν
  end.

(** All events that have been sent. *)
Definition settle (n : nat) (i : Z) (ν : node W) : option (node W) :=
  next_events n i (length (notifyChan (core (hotstuff (state ν)))) - events_run ν) ν.

(** Replica [i] of the cluster does [f]. *)
Definition on (i : Z) (f : node W → option (node W)) (σ : cluster) : option cluster :=
  ν ← f (σ i); Some (<[i := ν]> σ).

(** The oldest message from [src] arrives at [dst]. *)
Definition deliver (n : nat) (src dst : Z) (σ : cluster) : option cluster :=
  '(m, ν) ← take_message dst (σ src);
  on dst (step dst (InMessage (ticks n dst) src m)) (<[src := ν]> σ).

(** The replicas [rs] receive what [l] broadcast. *)
Fixpoint receive_all (n : nat) (l : Z) (rs : list Z) (σ : cluster) : option cluster :=
  match rs with
  | [] => Some σ
  | j :: rs => σ ← deliver n l j σ; σ ← on j (settle n j) σ; receive_all n l rs σ
  end.

(** Replica [next] receives what the replicas [rs] sent it. *)
Fixpoint collect_all (n : nat) (next : Z) (rs : list Z) (σ : cluster) : option cluster :=
  match rs with
  | [] => Some σ
  | j :: rs => σ ← deliver n j next σ; collect_all n next rs σ
  end.

Fixpoint request_all (l : list (Z * bytes)) (σ : cluster) : option cluster :=
  match l with
  | [] => Some σ
  | (i, c) :: l => σ ← on i (step i (InSubmit (MkSubmitRequest "" c))) σ; request_all l σ
  end.

Definition round (n : nat) (σ : cluster) : option cluster :=
  let l := leader n in
  let next := leader (S n) in
  σ ← on l (next_task n l) σ;
  σ ← on l (settle n l) σ;
  σ ← on l (next_task n l) σ;
  σ ← receive_all n l (order n) σ;
  σ ← request_all (requests (S n)) σ;
  σ ← collect_all n next (filter (.≠ next) (order n)) σ;
  on next (settle n next) σ.

(** [Run] at every replica. *)
Fixpoint run_all (rs : list Z) (σ : cluster) : option cluster :=
  match rs with
  | [] => Some σ
  | i :: rs => σ ← on i (step i InRun) σ; run_all rs σ
  end.

(** The replicas [rs] get their first command; their [OnBeat] forwards it to the
    leader of view 0. *)
Fixpoint forward_all (rs : list Z) (σ : cluster) : option cluster :=
  match rs with
  | [] => Some σ
  | i :: rs =>
      σ ← on i (step i (InSubmit (MkSubmitRequest "" (first i)))) σ;
      σ ← on i (next_task 0 i) σ;
      σ ← on i (next_task 0 i) σ;
      σ ← deliver 0 i (leader 0) σ;
      forward_all rs σ
  end.

Fixpoint rounds (n : nat) (σ : cluster) : option cluster :=
  match n with
  | O => σ ← run_all ids σ; σ ← forward_all (order 0) σ; request_all (requests 0) σ
  | S n => σ ← rounds n σ; round n σ
  end.

(** ** The commands proposed *)

(** The commands queued at replica [i] before round [n]. *)
Fixpoint queue (n : nat) (i : Z) : list bytes :=
  match n with
  | O => (if decide (i = leader 0) then first <$> order 0 else []) ++ sent_to (requests 0) i
  | S n => (if decide (i = leader n) then tail (queue n i) else queue n i) ++ sent_to (requests (S n)) i
  end.

Definition cmds (n : nat) : bytes := default [] (head (queue n (leader n))).

(** The block of height [n + 1] is made in round [n]. *)
Fixpoint block_hash (k : nat) : bytes :=
  match k with
  | O => GetBlockHash genesis
  | S n => GetBlockHash (MkBlock (Q:=QCRef) (block_hash n) (cmds n) (leader n) (Z.of_nat (S n))
             (now (ticks n (leader n))) None None)
  end.

#[local] Instance cluster_commands : ChainCommands := λ k, cmds (Nat.pred k).

(** ** What is assumed *)

Hypothesis sane : sane_metadata (Metadata rc).
Hypothesis quorum_two : (2 ≤ q)%Z.
Hypothesis all_correct : ∀ i, i ∈ ids → correct rc (envs i) i.
Hypothesis orders : ∀ n, order n ≡ₚ filter (.≠ leader n) ids.
Hypothesis first_commands : ∀ i, i ∈ ids → first i ≠ [].

(** The clients send commands to replicas; the leader has one to propose, and no
    queue holds more than the channel does. *)
Record served (n : nat) : Prop := {
  sv_requests x : x ∈ requests n → x.1 ∈ ids ∧ x.2 ≠ [];
  sv_supply : queue n (leader n) ≠ [];
  sv_room i : i ∈ ids → (length (queue n i) ≤ submit_capacity)%nat }.

(** Connected to every replica, with a stream to each of the others on which the
    messages [ms] are waiting. *)
Record wired (i : Z) (ms : Z → list (Message QCRef)) (p : replica) : Prop := {
  wi_nodes j : j ∈ ids → NodeStatus (Nodes (hotstuff p)) j = true;
  wi_streams j : sendChan (server (hotstuff p)) !! j = if decide (j ∈ ids ∧ j ≠ i) then Some (ms j) else None }.

Local Abbreviation quiet := (λ _ : Z, [] : list (Message QCRef)).

(** A replica that has been built and connected, and has done nothing. *)
Record fresh (i : Z) (ν : node W) : Prop := {
  fr_wired : wired i quiet (state ν);
  fr_core : core (hotstuff (state ν)) = initCore;
  fr_view : curView (state ν) = 0%Z;
  fr_queue : submitC (state ν) = [];
  fr_executed : executed (state ν) = [];
  fr_events : events_run ν = 0%nat;
  fr_tasks : tasks_run ν = 0%nat ∧ spawned (state ν) = [] }.

(** ** Leaders and receivers *)

Lemma N_bounds : (2 ≤ q ≤ N)%Z.
Proof. split; [done|]. unfold q. rewrite quorum_sane by done. destruct sane as [? _]. unfold N. lia. Qed.

Lemma leader_in k : leader k ∈ ids.
Proof.
  pose proof N_bounds. apply elem_of_seqZ. unfold Live.leader. fold N. rewrite Z.rem_mod_nonneg by lia.
  pose proof (Z.mod_pos_bound (Z.of_nat k) N). lia.
Qed.

Lemma leaders_differ k : leader (S k) ≠ leader k.
Proof.
  pose proof N_bounds. unfold Live.leader. fold N. rewrite !Z.rem_mod_nonneg by lia. intros Heq.
  assert (Hd : ((Z.of_nat (S k) - Z.of_nat k) mod N = 0)%Z) by (rewrite Zminus_mod, Heq, Z.sub_diag; by apply Z.mod_0_l; lia).
  replace (Z.of_nat (S k) - Z.of_nat k)%Z with 1%Z in Hd by lia. rewrite Z.mod_small in Hd by lia. done.
Qed.

Lemma elem_of_order k i : i ∈ order k ↔ i ≠ leader k ∧ i ∈ ids.
Proof. rewrite orders. by rewrite list_elem_of_filter. Qed.

Lemma order_NoDup k : NoDup (order k).
Proof. rewrite orders. apply NoDup_filter, NoDup_seqZ. Qed.

(** The leader, the next leader and the other receivers are all replicas. *)
Lemma everyone k :
  size ({[leader (S k)]} ∪ {[leader k]} ∪ list_to_set (filter (.≠ leader (S k)) (order k)) : gset Z) = Z.to_nat N.
Proof.
  replace ({[leader (S k)]} ∪ {[leader k]} ∪ list_to_set (filter (.≠ leader (S k)) (order k)) : gset Z)
    with (list_to_set ids : gset Z).
  - rewrite size_list_to_set by apply NoDup_seqZ. apply length_seqZ.
  - apply set_eq. intros i.
    rewrite !elem_of_union, !elem_of_singleton, !elem_of_list_to_set, list_elem_of_filter, elem_of_order.
    pose proof (leader_in k). pose proof (leader_in (S k)).
    destruct (decide (i = leader k)), (decide (i = leader (S k))); naive_solver.
Qed.

Lemma queue_head n : served n → queue n (leader n) = cmds n :: tail (queue n (leader n)).
Proof. intros [_ Hs _]. unfold cmds. by destruct (queue n (leader n)). Qed.

Lemma stream_to i ms p j : wired i ms p → j ∈ ids → j ≠ i → sendChan (server (hotstuff p)) !! j = Some (ms j).
Proof. intros [_ Hs] Hj Hji. by rewrite Hs, decide_True. Qed.

(** ** Single steps of a node *)

Local Abbreviation hs := block_hash.
Local Abbreviation core_of ν := (core (hotstuff (state ν))).
Local Abbreviation cenv i := (core_env (envs i)).

Lemma step_run i x ν p :
  run_input (envs i) x (state ν) = (Ok tt, p) → step i x ν = Some (MkNode p (events_run ν) (tasks_run ν)).
Proof. intros Hrun. unfold step, returns. by rewrite Hrun. Qed.

(** The goroutines [ts] have not been run. *)
Definition pending (ts : list Task) (ν : node W) : Prop :=
  ∃ ran, spawned (state ν) = ran ++ ts ∧ tasks_run ν = length ran.

Lemma next_task_run n i ν task ts p :
  pending (task :: ts) ν → run_input (envs i) (InTask (ticks n i) task) (state ν) = (Ok tt, p) →
  next_task n i ν = Some (MkNode p (events_run ν) (S (tasks_run ν))).
Proof.
  intros (ran & Hs & Hr) Hrun. unfold next_task. rewrite Hs, list_lookup_middle by done.
  by apply (step_run _ _ (MkNode _ _ _)).
Qed.

(** The goroutines left after the oldest one has run and started [new]. *)
Lemma pending_next ts task new ν p m :
  pending (task :: ts) ν → spawned p = spawned (state ν) ++ new →
  pending (ts ++ new) (MkNode p m (S (tasks_run ν))).
Proof.
  intros (ran & Hs & Hr) Hp. exists (ran ++ [task]). cbn [state tasks_run]. rewrite Hp, Hs, Hr, length_app. cbn [length].
  split; [by rewrite <-!app_assoc|lia].
Qed.

(** ... after a step that was not one of them. *)
Lemma pending_more ts new ν p m :
  pending ts ν → spawned p = spawned (state ν) ++ new → pending (ts ++ new) (MkNode p m (tasks_run ν)).
Proof. intros (ran & Hs & Hr) Hp. exists ran. cbn [state tasks_run]. by rewrite Hp, Hs, app_assoc. Qed.

(** The replica has run the events [es]. *)
Record handled (es : list EventNotifier) (ν : node W) : Prop := {
  hd_run : events_run ν = length es;
  hd_executed : executed (state ν) = snd <$> omap decided es }.

Lemma next_event_run n i ν es e rest p :
  notifyChan (core_of ν) = es ++ e :: rest → events_run ν = length es →
  run_input (envs i) (InEvent (ticks n i) e) (state ν) = (Ok tt, p) →
  next_event n i ν = Some (MkNode p (S (events_run ν)) (tasks_run ν)).
Proof.
  intros Hn He Hrun. unfold next_event. rewrite Hn, He, list_lookup_middle by done. cbn [mbind option_bind].
  by rewrite (step_run _ _ (MkNode (state ν) _ _) p Hrun).
Qed.

Lemma silent_events n i l : ∀ ν es rest,
  notifyChan (core_of ν) = es ++ l ++ rest → handled es ν → Forall (silent (state ν)) l →
  next_events n i (length l) ν
  = Some (MkNode (set_executed (snd <$> omap decided (es ++ l)) (state ν)) (length (es ++ l)) (tasks_run ν)).
Proof.
  induction l as [|e l IH]; intros ν es rest Hn [He Hx] Hl.
  { cbn [length next_events]. rewrite app_nil_r, <-Hx, <-He. by destruct ν as [[] ? ?]. }
  apply Forall_cons in Hl as [Hse Hl]. cbn [length next_events].
  rewrite (next_event_run n i ν es e (l ++ rest) _ Hn He ltac:(by apply silent_run)). cbn [mbind option_bind].
  rewrite (IH _ (es ++ [e]) rest).
  - by rewrite <-!app_assoc.
  - cbn [state hotstuff set_executed]. by rewrite Hn, <-!app_assoc.
  - constructor; cbn [state events_run executed set_executed]; [rewrite He, length_app; cbn; lia|].
    by rewrite Hx, omap_app, fmap_app.
  - exact Hl.
Qed.

Lemma next_events_app n i k k' : ∀ ν, next_events n i (k + k') ν = next_events n i k ν ≫= next_events n i k'.
Proof.
  induction k as [|k IH]; intros ν; [done|]. cbn [Nat.add next_events].
  destruct (next_event n i ν) as [ν'|]; [|done]. exact (IH ν').
Qed.

(** Running the events of a step: silent ones, then the one it is about. *)
Lemma settle_run n i ν es l e p :
  notifyChan (core_of ν) = es ++ l ++ [e] → handled es ν → Forall (silent (state ν)) l →
  run_input (envs i) (InEvent (ticks n i) e) (set_executed (snd <$> omap decided (es ++ l)) (state ν)) = (Ok tt, p) →
  settle n i ν = Some (MkNode p (length (es ++ l ++ [e])) (tasks_run ν)).
Proof.
  intros Hn Hh Hl Hrun. unfold settle. rewrite Hn, (hd_run _ _ Hh), !length_app. cbn [length].
  replace (length es + (length l + 1) - length es)%nat with (length l + 1)%nat by lia.
  rewrite next_events_app, (silent_events n i l ν es [e] Hn Hh Hl). cbn [mbind option_bind next_events].
  rewrite (next_event_run n i _ (es ++ l) e [] p); [|cbn [state hotstuff set_executed]; by rewrite Hn, app_assoc|done|exact Hrun].
  cbn [mbind option_bind events_run tasks_run]. rewrite length_app. do 2 f_equal. lia.
Qed.

(** The events [update] sends are silent. *)
Lemma updates_silent (p : replica) b l r qc :
  Justify b = Some r → qcHeap (core (hotstuff p)) !! r = Some qc → (qc_ViewNumber qc ≤ curView p)%Z →
  Forall (update_event b) l → Forall (silent p) l.
Proof.
  intros Hj Hq Hv Hl. eapply Forall_impl; [exact Hl|]. intros e [-> |Hd]; [by exists r, qc|by destruct e].
Qed.

(** They are steps of the replica. *)
Lemma step_step i x ν ν' : step i x ν = Some ν' → enabled x (state ν) → replica_step (envs i) (state ν) (state ν').
Proof.
  unfold step, returns. intros Ha Hx. destruct (run_input (envs i) x (state ν)) as [[] p] eqn:Hrun; try done.
  injection Ha as <-. cbn [state]. replace p with (run_input (envs i) x (state ν)).2 by (by rewrite Hrun).
  by constructor.
Qed.

Lemma next_task_step n i ν ν' : next_task n i ν = Some ν' → replica_step (envs i) (state ν) (state ν').
Proof.
  unfold next_task. destruct (spawned (state ν) !! tasks_run ν) as [task|] eqn:Hl; [|done].
  intros Ha. eapply (step_step _ _ (MkNode _ _ _)); [exact Ha|]. by eapply list_elem_of_lookup_2.
Qed.

Lemma next_event_step n i ν ν' : next_event n i ν = Some ν' → replica_step (envs i) (state ν) (state ν').
Proof.
  unfold next_event. destruct (notifyChan _ !! events_run ν) as [e|] eqn:Hl; [|done].
  intros Ha. eapply (step_step _ _ (MkNode _ _ _)); [exact Ha|]. by eapply list_elem_of_lookup_2.
Qed.

(** Taking a message off a stream. *)
Lemma take_run i ms j m w ms' ν :
  wired i ms (state ν) → j ∈ ids → j ≠ i → ms j = [m] → (wire m (core_of ν)).1 = Ok w →
  ms' j = [] → (∀ k, k ≠ j → ms' k = ms k) →
  ∃ p, take_message j ν = Some (w, MkNode p (events_run ν) (tasks_run ν)) ∧ wired i ms' p
    ∧ ∃ a, p = with_server a (state ν).
Proof.
  intros Hw Hj Hji Hm Hwire Hj' Hk'. unfold take_message, stream. rewrite (stream_to i ms _ j Hw Hj Hji), Hm.
  cbn [mbind option_bind head tail]. destruct (wire m (core_of ν)) as [o s]. cbn [fst] in Hwire. subst o.
  eexists. split_and!; [reflexivity| |by eexists]. destruct Hw as [Hn Hs]. constructor; [exact Hn|].
  intros k. cbn. destruct (decide (k = j)) as [->|Hk].
  - by rewrite lookup_insert_eq, decide_True, Hj'.
  - rewrite lookup_insert_ne by done. rewrite Hs. case_decide; [|done]. by rewrite Hk'.
Qed.

(** ** Where a replica stands *)

(** Waiting for block [n + 1], with every event and goroutine run. *)
Record waiting (n : nat) (i : Z) (ν : node W) : Prop := {
  wt_wired : wired i quiet (state ν);
  wt_queue : submitC (state ν) = queue n i;
  wt_view : curView (state ν) = Z.of_nat (pred n);
  wt_inv : chain_inv hs (core_of ν) n;
  wt_votes : voteSet (core_of ν) = ∅;
  wt_handled : handled (notifyChan (core_of ν)) ν;
  wt_pending : pending [] ν }.

(** About to propose block [n + 1]: only its [OnBeat] is left to run. *)
Record starting (n : nat) (i : Z) (ν : node W) : Prop := {
  sg_wired : wired i quiet (state ν);
  sg_queue : submitC (state ν) = queue n i;
  sg_view : curView (state ν) = Z.of_nat n;
  sg_leading : ∃ g gq, leading (cenv i) hs (core_of ν) n g gq;
  sg_handled : handled (notifyChan (core_of ν)) ν;
  sg_pending : pending [TaskBeat] ν }.

(** In view [n], with block [n + 1] stored and signed by [X], the commands [cs]
    queued and the messages [ms] on its streams. *)
Record voting (n : nat) (i : Z) (ms : Z → list (Message QCRef)) (cs : list bytes) (X : gset Z) (ν : node W) : Prop := {
  vo_wired : wired i ms (state ν);
  vo_queue : submitC (state ν) = cs;
  vo_view : curView (state ν) = Z.of_nat n;
  vo_block : ∃ b r es, tallied (cenv i) hs (core_of ν) n b r X es ∧ handled es ν;
  vo_pending : pending [] ν }.

(** ** The leader's part of a round *)

(** Proposal [n + 1] on the wire, signed by its leader. *)
Record announced (n : nat) (pr : Proposal QuorumCert) : Prop := {
  an_view : prop_ViewNumber pr = Z.of_nat n;
  an_block : ∃ b jq sq, (∀ i, i ∈ ids → certified_block (cenv i) hs n pr b jq sq) ∧ Cmds b = cmds n
    ∧ (qc_ViewNumber jq ≤ Z.of_nat (pred n))%Z
    ∧ dom (signs sq) = {[leader n]} ∧ qc_ViewNumber sq = Z.of_nat n
    ∧ ∀ i c, signs sq !! i = Some c → verify_entry rc (hs (S n)) (i, c) = Some true }.

(** The block of the round, whatever certificates it points to. *)
Lemma hash_next {Q} n (j sq : option Q) :
  GetBlockHash (MkBlock (hs n) (cmds n) (leader n) (Z.of_nat (S n)) (now (ticks n (leader n))) j sq) = hs (S n).
Proof. cbn [block_hash]. unfold GetBlockHash. f_equal. Qed.

(** What the core of the leader sends. *)
Lemma propose_announced n s g gq :
  let l := leader n in
  let t := ticks n l in
  leading (cenv l) hs s n g gq → is_int64 (Z.of_nat (S n)) → (∀ j, (j ≤ n)%nat → hs j ≠ hs (S n)) →
  ∃ s' pr w b r, OnPropose (cenv l) (now t) (ent t) (Z.of_nat n) (qc_BlockHash gq) (cmds n) s = (Ok tt, s')
    ∧ (∃ es, notifyChan s' = notifyChan s ++ es ++ [ProposeEvent pr] ∧ Forall (update_event b) es)
    ∧ (∃ jr, Justify b = Some jr ∧ qcHeap s' !! jr = Some gq)
    ∧ export_proposal pr s' = (Ok w, s')
    ∧ announced n w ∧ tallied (cenv l) hs s' n b r {[l]} (notifyChan s').
Proof.
  intros l t Hl Hn Hne. destruct (all_correct l (leader_in _)) as [Hid Hconf Hclone Hsign _ _ _ _].
  destruct (Hsign (ent t) (hs (S n))) as (sig & Hsig & Hver). rewrite (ld_hash _ _ _ _ _ _ Hl).
  destruct (propose_next (cenv l) hs Hclone s n g gq (now t) (ent t) (Z.of_nat n) (cmds n) sig)
    as (s' & Hrun & Ht & Hevs & Hj & Hself); [exact Hl|done|exact Hn|by rewrite Hconf| |done|exact Hne|exact Hsig| |].
  { unfold leaf. rewrite Hid. exact (eq_sym (hash_next n _ _)). }
  { rewrite Hconf, Hid. exact Hver. }
  set (nb := leaf _ _ _ _ _ _) in *. rewrite Hid in Ht. set (sq := own_cert (cenv l) hs (Z.of_nat n) n sig) in *.
  pose (wb := MkBlock (hs n) (cmds n) l (Z.of_nat (S n)) (now t) (Some gq) (Some sq)).
  exists s', (MkProposal (Z.of_nat n) (Some nb)), (MkProposal (Z.of_nat n) (Some wb)), nb, (S (length (qcHeap s))).
  split_and!; [exact Hrun|exact Hevs|by exists (length (qcHeap s))| | |exact Ht].
  - unfold export_proposal, export_qc. cbn [prop_Block nb leaf Justify SelfQc]. rewrite !bind_assoc.
    rewrite (run_bind_Ok _ _ _ _ _ (deref_run _ s' _ Hj)), (run_bind_Ok (mret _) _ _ _ _ (run_ret _ _)), !bind_assoc.
    rewrite (run_bind_Ok _ _ _ _ _ (deref_run _ s' _ Hself)), (run_bind_Ok (mret _) _ _ _ _ (run_ret _ _)).
    cbn. by rewrite Hid.
  - split; [done|]. exists wb, gq, sq. unfold sq at 2 4. rewrite own_cert_signs, Hid. split_and!.
    + intros i Hi. unfold certified_block. rewrite (co_conf _ _ _ (all_correct i Hi)), <-Hconf.
      split; [reflexivity|]. split; [exact (hash_next n _ _)|]. split_and!; try reflexivity; [apply Hl| |apply Hl|].
      * eapply (wf_certs _ (ci_wf _ _ _ (ld_inv _ _ _ _ _ _ Hl))), Hl.
      * unfold sq. rewrite own_cert_signs. by apply map_Forall_singleton.
    + reflexivity.
    + apply Hl.
    + apply dom_singleton_L.
    + done.
    + by intros i c [<- <-]%lookup_singleton_Some.
Qed.

Definition proposal_message (pr : Proposal QCRef) : Message QCRef := MkMessage "" (Some (Message_Proposal pr)).

(** The leader's three steps: [OnBeat], the events of its proposal, the broadcast. *)
Lemma lead_run n ν :
  let l := leader n in
  starting n l ν → served n → is_int64 (Z.of_nat (S n)) → (∀ j, (j ≤ n)%nat → hs j ≠ hs (S n)) →
  ∃ ν1 ν2 ν3 pr w, next_task n l ν = Some ν1 ∧ settle n l ν1 = Some ν2 ∧ next_task n l ν2 = Some ν3
    ∧ announced n w ∧ export_proposal pr (core_of ν3) = (Ok w, core_of ν3)
    ∧ voting n l (λ _, [proposal_message pr]) (tail (queue n l)) {[l]} ν3.
Proof.
  intros l [Hw Hqueue Hview (g & gq & Hl) Hh Hp] Hsv Hn Hne. pose proof (all_correct l (leader_in _)) as Hco.
  pose proof N_bounds as HN. assert (HN2 : (2 ≤ md_N (Metadata rc))%Z) by (fold N; lia). set (t := ticks n l).
  destruct (propose_announced n (core_of ν) g gq Hl Hn Hne)
    as (s & pr & w & b & r & Hrun & (es & Hes & Hupd) & (jr & Hj & Hjq) & Hexp & Han & Ht).
  pose proof (queue_head n Hsv) as Hhead. fold l in Hhead. rewrite Hhead in Hqueue.
  pose proof (beat_run rc (envs l) l Hco HN2 n t (cmds n) _ g gq s (state ν) eq_refl Hview Hqueue
    (ld_generic _ _ _ _ _ _ Hl) (ld_cert _ _ _ _ _ _ Hl) Hrun) as H1. set (p1 := with_core s _ _) in H1.
  pose proof (next_task_run n l ν TaskBeat [] p1 Hp H1) as T1. set (ν1 := MkNode p1 _ _) in T1.
  set (p1' := set_executed (snd <$> omap decided (notifyChan (core_of ν) ++ es)) p1).
  pose proof (propose_event_run rc (envs l) l Hco HN2 n t pr p1' Hn (leaders_differ n) Hview (wi_nodes _ _ _ Hw _ (leader_in _))) as H2.
  fold (proposal_message pr) in H2. set (p2 := set_spawned _ _) in H2.
  assert (T2 : settle n l ν1 = Some (MkNode p2 (length (notifyChan (core_of ν) ++ es ++ [ProposeEvent pr])) (tasks_run ν1))).
  { apply settle_run; [exact Hes| | |exact H2].
    - destruct Hh as [Hr Hx]. constructor; [exact Hr|exact Hx].
    - apply (updates_silent p1 b es jr gq); [done|exact Hjq| |done].
      change (qc_ViewNumber gq ≤ curView (state ν))%Z. rewrite Hview. pose proof (ld_view _ _ _ _ _ _ Hl). lia. }
  set (ν2 := MkNode p2 _ _) in T2.
  assert (Hp2 : pending [TaskBroadcast (proposal_message pr)] ν2).
  { pose proof (pending_next [] TaskBeat [] ν p1 (events_run ν1) Hp ltac:(by rewrite app_nil_r)) as Hp1.
    apply (pending_more [] [TaskBroadcast (proposal_message pr)] ν1 p2 (events_run ν2) Hp1). reflexivity. }
  pose proof (broadcast_run (envs l) t (proposal_message pr) p2) as H3. set (p3 := with_server _ _) in H3.
  pose proof (next_task_run n l ν2 _ [] p3 Hp2 H3) as T3. set (ν3 := MkNode p3 _ _) in T3.
  exists ν1, ν2, ν3, pr, w. split_and!; [exact T1|exact T2|exact T3|exact Han|exact Hexp|].
  constructor; [|reflexivity|exact Hview| |].
  - destruct Hw as [Hnodes Hs]. constructor; [exact Hnodes|]. intros j. cbn. rewrite lookup_fmap, Hs. by case_decide.
  - exists b, r, (notifyChan s). split; [exact Ht|]. constructor; [cbn; by rewrite Hes|]. cbn. rewrite Hes, !omap_app. cbn.
    by rewrite app_nil_r.
  - pose proof (pending_next [] _ [] ν2 p3 (events_run ν3) Hp2 ltac:(by rewrite app_nil_r)) as Hp3. exact Hp3.
Qed.

(** ** The receivers' part of a round *)

(** A vote of replica [j] for block [n + 1]. *)
Definition cast (n : nat) (j : Z) (v : Vote) : Prop :=
  vote_ViewNumber v = Z.of_nat n ∧ vote_Voter v = j ∧ ∀ i, i ∈ ids → good_vote (cenv i) hs n v.

Lemma receive_core n j t pr p :
  j ∈ ids → chain_inv hs (core (hotstuff p)) n → voteSet (core (hotstuff p)) = ∅ → curView p = Z.of_nat (pred n) →
  announced n pr → (∀ k, (k ≤ n)%nat → hs k ≠ hs (S n)) →
  ∃ s w pr' v, run_input (envs j) (InMessage t (leader n) (MkMessage "" (Some (Message_Proposal pr)))) p
      = (Ok tt, with_core s w p)
    ∧ (∃ es, notifyChan s = notifyChan (core (hotstuff p)) ++ es ++ [ReceiveProposalEvent pr' v]
         ∧ Forall (silent (with_core s w p)) es)
    ∧ prop_ViewNumber pr' = Z.of_nat n ∧ cast n j v
    ∧ ∃ b r, tallied (cenv j) hs s n b r {[leader n]} (notifyChan s).
Proof.
  intros Hj Hinv Hvs Hcv [Hview (b & jq & sq & Hcb & Hcmds & Hjv & Hdom & Hsv & Hver)] Hne.
  destruct (all_correct j Hj) as [Hid Hconf _ Hsign _ _ Hwal _]. destruct (Hsign (ent t) (hs (S n))) as (sig & Hsig & Hok).
  destruct (handle_certified (envs j) Hwal hs n t (leader n) "" pr b jq sq p sig Hinv (Hcb j Hj) Hcmds Hne Hsig) as (s & w & Hrun & Hrc).
  set (pr' := MkProposal (prop_ViewNumber pr) (Some (imported b (core (hotstuff p))))) in Hrc.
  exists s, w, pr', (next_vote (cenv j) hs pr' n sig). split_and!; [exact Hrun| |exact Hview| |].
  - destruct (rc_event _ _ _ _ _ _ Hrc) as (es & Hes & Hupd). exists es. split; [exact Hes|].
    apply (updates_silent (with_core s w p) (imported b (core (hotstuff p))) es (length (qcHeap (core (hotstuff p)))) (decode_qc jq) eq_refl); [| |exact Hupd].
    + cbn [core hotstuff with_core set_hotstuff]. rewrite (rc_heap _ _ _ _ _ _ Hrc). by apply list_lookup_middle.
    + change (qc_ViewNumber (decode_qc jq) ≤ curView p)%Z. rewrite Hcv. unfold decode_qc. by case_decide.
  - split_and!; [exact Hview|exact Hid|]. intros i Hi. split_and!; [done|by eexists|].
    unfold authentic. rewrite (co_conf _ _ _ (all_correct i Hi)). cbn. rewrite Hid. exact Hok.
  - pose proof (Hcb j Hj) as (_ & _ & _ & _ & _ & _ & Hsh & _). do 2 eexists. eapply received_tallied; [exact Hrc|reflexivity| |done..| |].
    + cbn [qcHeap set_qcHeap]. by rewrite lookup_app_r, Nat.sub_succ_l, Nat.sub_diag by lia.
    + by rewrite Hconf.
    + by rewrite Hconf.
Qed.

(** The message to [dst] only. *)
Definition only_to (dst : Z) (m : Message QCRef) (j : Z) : list (Message QCRef) := if decide (j = dst) then [m] else [].
Definition vote_message (v : Vote) : Message QCRef := MkMessage "" (Some (Message_Vote v)).

(** Replica [j] has voted: its vote is counted, or on its way to the next leader. *)
Definition voted (n : nat) (j : Z) (cs : list bytes) (ν : node W) : Prop :=
  if decide (j = leader (S n)) then voting n j quiet cs ({[j]} ∪ {[leader n]}) ν
  else ∃ v, voting n j (only_to (leader (S n)) (vote_message v)) cs {[leader n]} ν ∧ cast n j v.

(** A receiver's two steps: the proposal, and the events in which it votes. *)
Lemma receiver_run n j pr ν :
  let t := ticks n j in
  j ∈ ids → j ≠ leader n → waiting n j ν → announced n pr → is_int64 (Z.of_nat (S n)) →
  (∀ k, (k ≤ n)%nat → hs k ≠ hs (S n)) →
  ∃ ν1 ν2, step j (InMessage t (leader n) (MkMessage "" (Some (Message_Proposal pr)))) ν = Some ν1
    ∧ settle n j ν1 = Some ν2 ∧ voted n j (queue n j) ν2.
Proof.
  intros t Hj Hjl [Hw Hqueue Hcv Hinv Hvs Hh Hp] Han Hn Hne. pose proof (all_correct j Hj) as Hco. pose proof N_bounds as HN.
  assert (HN2 : (2 ≤ md_N (Metadata rc))%Z) by (fold N; lia).
  destruct (receive_core n j t pr (state ν) Hj Hinv Hvs Hcv Han Hne)
    as (s & w & pr' & v & H1 & (es & Hes & Hsil) & Hpv & Hcast & b & r & Ht).
  pose proof (step_run j _ ν _ H1) as T1. set (ν1 := MkNode (with_core s w (state ν)) _ _) in T1. exists ν1.
  set (p1 := set_executed (snd <$> omap decided (notifyChan (core_of ν) ++ es)) (state ν1)).
  assert (Hview : (curView p1 ≤ Z.of_nat n)%Z) by (change (curView (state ν) ≤ Z.of_nat n)%Z; lia).
  assert (Hset : ∀ p2, run_input (envs j) (InEvent t (ReceiveProposalEvent pr' v)) p1 = (Ok tt, p2) →
    settle n j ν1 = Some (MkNode p2 (length (notifyChan s)) (tasks_run ν))).
  { intros p2 H2. rewrite Hes. apply (settle_run n j ν1); [exact Hes| |exact Hsil|exact H2].
    destruct Hh as [Hr Hx]. constructor; [exact Hr|exact Hx]. }
  assert (Hx1 : executed p1 = snd <$> omap decided (notifyChan s)).
  { cbn. rewrite Hes, !omap_app. cbn. by rewrite app_nil_r. }
  unfold voted. destruct (decide (j = leader (S n))) as [Hnext|Hnext].
  - destruct (count_next (cenv j) hs s n b r {[leader n]} (notifyChan s) v) as [Hok Ht'];
      [by rewrite (co_conf _ _ _ Hco)|done|by apply Hcast|destruct Hcast as (_ & -> & _); by apply not_elem_of_singleton|].
    destruct (OnProposalVote (cenv j) v s) as [o s'] eqn:Hv. cbn [fst snd] in Hok, Ht'. subst o.
    pose proof (vote_kept rc (envs j) j Hco HN2 n t pr' v s' p1 Hn (eq_sym Hnext) Hview Hpv Hv) as H2.
    eexists. split; [exact T1|]. split; [exact (Hset _ H2)|]. constructor; [by destruct Hw|exact Hqueue|done| |exact Hp].
    exists b, r, (notifyChan s). split; [|constructor; [done|exact Hx1]].
    destruct Hcast as (_ & <- & _). exact Ht'.
  - pose proof (stream_to j quiet (state ν) (leader (S n)) Hw (leader_in _) (not_eq_sym Hnext)) as Hms.
    pose proof (vote_sent rc (envs j) j Hco HN2 n t pr' v [] p1 Hn (not_eq_sym Hnext) Hview Hpv
      (wi_nodes _ _ _ Hw _ (leader_in _)) Hms) as H2.
    eexists. split; [exact T1|]. split; [exact (Hset _ H2)|]. exists v. split; [|exact Hcast].
    constructor; [|exact Hqueue|done| |exact Hp].
    + destruct Hw as [Hnodes Hs]. constructor; [exact Hnodes|]. intros k. cbn. unfold only_to.
      destruct (decide (k = leader (S n))) as [->|Hk].
      * rewrite lookup_insert_eq, decide_True; [done|]. split; [apply leader_in|by apply not_eq_sym].
      * rewrite lookup_insert_ne by done. apply Hs.
    + exists b, r, (notifyChan s). split; [exact Ht|]. constructor; [done|exact Hx1].
Qed.

(** ** A round *)

Lemma on_run i f σ ν : f (σ i) = Some ν → on i f σ = Some (<[i := ν]> σ).
Proof. intros Hf. unfold on. by rewrite Hf. Qed.

Lemma deliver_run n src dst σ m ν ν' :
  dst ≠ src → take_message dst (σ src) = Some (m, ν) → step dst (InMessage (ticks n dst) src m) (σ dst) = Some ν' →
  deliver n src dst σ = Some (<[dst := ν']> (<[src := ν]> σ)).
Proof.
  intros Hne Ht Hs. unfold deliver. rewrite Ht. cbn [mbind option_bind]. apply on_run. by rewrite fn_lookup_insert_ne.
Qed.

(** [σ'] differs from [σ] at the replicas [rs] only. *)
Definition only (rs : list Z) (σ σ' : cluster) : Prop := ∀ i, i ∉ rs → σ' i = σ i.

Lemma wired_ext i ms ms' p : (∀ j, j ∈ ids → j ≠ i → ms' j = ms j) → wired i ms p → wired i ms' p.
Proof.
  intros He [Hn Hs]. constructor; [exact Hn|]. intros j. rewrite Hs. case_decide as Hj; [|done].
  by rewrite He by tauto.
Qed.

Lemma voting_ext n i ms ms' cs X ν :
  (∀ j, j ∈ ids → j ≠ i → ms' j = ms j) → voting n i ms cs X ν → voting n i ms' cs X ν.
Proof. intros He []. constructor; [by eapply wired_ext|done..]. Qed.

Lemma voting_take n i ms ms' cs X j m w ν :
  voting n i ms cs X ν → j ∈ ids → j ≠ i → ms j = [m] → (wire m (core_of ν)).1 = Ok w →
  ms' j = [] → (∀ k, k ≠ j → ms' k = ms k) →
  ∃ ν', take_message j ν = Some (w, ν') ∧ voting n i ms' cs X ν' ∧ core_of ν' = core_of ν.
Proof.
  intros [Hw Hq Hv (b & r & es & Ht & Hh) Hp] Hj Hji Hm Hwire Hj' Hk'.
  destruct (take_run i ms j m w ms' ν Hw Hj Hji Hm Hwire Hj' Hk') as (p & Htake & Hw' & a & ->).
  eexists. split; [exact Htake|]. split; [|done]. constructor; [exact Hw'|exact Hq|exact Hv| |exact Hp].
  exists b, r, es. split; [exact Ht|]. destruct Hh. by constructor.
Qed.

(** The messages of a broadcast that the replicas [rs] have not received. *)
Definition left_for (rs : list Z) (m : Message QCRef) (j : Z) : list (Message QCRef) := if decide (j ∈ rs) then [m] else [].

Lemma receive_all_run n pr w cs rs : ∀ σ,
  let l := leader n in
  announced n w → is_int64 (Z.of_nat (S n)) → (∀ k, (k ≤ n)%nat → hs k ≠ hs (S n)) → NoDup rs →
  voting n l (left_for rs (proposal_message pr)) cs {[l]} (σ l) →
  export_proposal pr (core_of (σ l)) = (Ok w, core_of (σ l)) →
  (∀ j, j ∈ rs → j ∈ ids ∧ j ≠ l ∧ waiting n j (σ j)) →
  ∃ σ', receive_all n l rs σ = Some σ' ∧ only (l :: rs) σ σ' ∧ voting n l quiet cs {[l]} (σ' l)
    ∧ ∀ j, j ∈ rs → voted n j (queue n j) (σ' j).
Proof.
  induction rs as [|j rs IH]; intros σ l Han Hn Hne Hnd Hl Hexp Hrs.
  { exists σ. split_and!; [done|done|exact Hl|]. by intros j Hj%not_elem_of_nil. }
  apply NoDup_cons in Hnd as [Hj Hnd]. destruct (Hrs j) as (Hid & Hjl & Hw); [left|].
  destruct (voting_take n l _ (left_for rs (proposal_message pr)) cs {[l]} j (proposal_message pr)
    (MkMessage "" (Some (Message_Proposal w))) (σ l) Hl Hid Hjl) as (νl & Htake & Hl' & Hcl).
  { unfold left_for. rewrite decide_True; [done|left]. }
  { cbn [wire proposal_message msg_Type]. by rewrite (run_bind_Ok _ _ _ _ _ Hexp). }
  { unfold left_for. by rewrite decide_False. }
  { intros k Hk. unfold left_for. destruct (decide (k ∈ rs)); [by rewrite decide_True by (by right)|].
    rewrite decide_False; [done|]. by intros [->|?]%elem_of_cons. }
  destruct (receiver_run n j w (σ j) Hid Hjl Hw Han Hn Hne) as (ν1 & ν2 & H1 & H2 & Hv).
  pose proof (deliver_run n l j σ _ νl ν1 Hjl Htake H1) as Hd.
  set (σ1 := <[j := ν1]> (<[l := νl]> σ)) in Hd.
  assert (Hσ2 : on j (settle n j) σ1 = Some (<[j := ν2]> σ1)) by (apply on_run; unfold σ1; by rewrite fn_lookup_insert).
  assert (Hsl : (<[j := ν2]> σ1) l = νl) by (unfold σ1; by rewrite !fn_lookup_insert_ne, fn_lookup_insert by done).
  destruct (IH (<[j := ν2]> σ1) Han Hn Hne Hnd) as (σ' & Hrun & Honly & Hvl & Hall).
  { fold l. by rewrite Hsl. } { fold l. rewrite Hsl, Hcl. exact Hexp. }
  { intros k Hk. destruct (Hrs k) as (Hki & Hkl & Hkw); [by right|]. split_and!; [done|done|].
    unfold σ1. by rewrite !fn_lookup_insert_ne by (try done; by intros ->). }
  exists σ'. split_and!; [|..|].
  - cbn [receive_all]. fold l. rewrite Hd. cbn [mbind option_bind]. rewrite Hσ2. exact Hrun.
  - intros i [Hil [Hij Hi]%not_elem_of_cons]%not_elem_of_cons. rewrite Honly by (by rewrite not_elem_of_cons).
    unfold σ1. by rewrite !fn_lookup_insert_ne by done.
  - exact Hvl.
  - intros i [->|Hi]%elem_of_cons; [|by apply Hall].
    rewrite Honly by (by rewrite not_elem_of_cons). by rewrite fn_lookup_insert.
Qed.

(** *** The clients' requests *)

Definition queued (cs : list bytes) (ν : node W) : node W :=
  MkNode (set_submitC (submitC (state ν) ++ cs) (state ν)) (events_run ν) (tasks_run ν).

Lemma sent_to_cons i c l k : sent_to ((i, c) :: l) k = (if decide (i = k) then [c] else []) ++ sent_to l k.
Proof. unfold sent_to. cbn [filter list_filter]. destruct (decide (i = k)); [by rewrite decide_True|by rewrite decide_False]. Qed.

Lemma request_all_run l : ∀ σ,
  (∀ x, x ∈ l → x.1 ∈ ids ∧ x.2 ≠ []) →
  (∀ i, i ∈ ids → (length (submitC (state (σ i)) ++ sent_to l i) ≤ submit_capacity)%nat) →
  ∃ σ', request_all l σ = Some σ' ∧ ∀ i, σ' i = queued (sent_to l i) (σ i).
Proof.
  induction l as [|[i c] l IH]; intros σ Hreq Hroom.
  { exists σ. split; [done|]. intros i. unfold queued, sent_to. cbn. rewrite app_nil_r. by destruct (σ i) as [[] ? ?]. }
  destruct (Hreq (i, c)) as [Hi Hc]; [left|]. cbn [fst snd] in Hi, Hc.
  assert (Hq : (length (submitC (state (σ i))) < submit_capacity)%nat).
  { pose proof (Hroom i Hi) as Hr. rewrite sent_to_cons, decide_True, !length_app in Hr by done. cbn [length] in Hr. lia. }
  pose proof (step_run i _ (σ i) _ (submit_run (envs i) "" c (state (σ i)) Hc Hq)) as Hs.
  assert (Hq1 : ∀ k, state ((<[i := queued [c] (σ i)]> σ) k) = set_submitC (submitC (state (σ k)) ++ if decide (i = k) then [c] else []) (state (σ k))).
  { intros k. destruct (decide (i = k)) as [<-|Hk]; [by rewrite fn_lookup_insert|].
    rewrite fn_lookup_insert_ne, app_nil_r by done. by destruct (state (σ k)). }
  destruct (IH (<[i := queued [c] (σ i)]> σ)) as (σ' & Hrun & Hσ').
  { intros x Hx. apply Hreq. by right. }
  { intros k Hk. rewrite Hq1. cbn [submitC set_submitC]. rewrite <-app_assoc, <-sent_to_cons. by apply Hroom. }
  exists σ'. split.
  - cbn [request_all]. rewrite (on_run i _ σ _ Hs). exact Hrun.
  - intros k. rewrite Hσ', sent_to_cons. unfold queued at 1. rewrite Hq1. unfold queued. cbn [submitC set_submitC].
    rewrite <-app_assoc. destruct (decide (i = k)) as [<-|Hk]; [by rewrite fn_lookup_insert|by rewrite fn_lookup_insert_ne].
Qed.

Lemma voting_queued n i ms cs X cs' ν : voting n i ms cs X ν → voting n i ms (cs ++ cs') X (queued cs' ν).
Proof.
  intros [[Hn Hs] Hq Hv (b & r & es & Ht & [Hr Hx]) Hp].
  constructor; [by constructor|cbn; by rewrite Hq|exact Hv| |exact Hp]. exists b, r, es. split; [exact Ht|by constructor].
Qed.

Lemma voted_queued n j cs cs' ν : voted n j cs ν → voted n j (cs ++ cs') (queued cs' ν).
Proof.
  unfold voted. case_decide; [apply voting_queued|]. intros (v & Hv & Hc). exists v. split; [by apply voting_queued|done].
Qed.

(** *** The next leader collects the votes *)

Lemma hash_nonempty n : hs n ≠ [].
Proof.
  destruct n; cbn [block_hash]; unfold GetBlockHash; intros Hh;
    [pose proof (Sha256.length_Sum256 (block_preimage genesis)) as Hl; by rewrite Hh in Hl|].
  match type of Hh with Sha256.Sum256 ?x = _ => pose proof (Sha256.length_Sum256 x) as Hl end. by rewrite Hh in Hl.
Qed.

Lemma collect_run n j v cs X ν :
  let next := leader (S n) in
  is_int64 (Z.of_nat (S n)) → cast n j v → j ∉ X → voting n next quiet cs X ν →
  ∃ ν', step next (InMessage (ticks n next) j (MkMessage "" (Some (Message_Vote v)))) ν = Some ν'
    ∧ voting n next quiet cs ({[j]} ∪ X) ν'.
Proof.
  intros next Hn (Hvn & Hvj & Hgood) Hj [[Hnodes Hstreams] Hqueue Hview (b & r & es & Ht & [Hr Hx]) Hp].
  pose proof (all_correct next (leader_in _)) as Hco. pose proof N_bounds as HN.
  assert (HN2 : (2 ≤ md_N (Metadata rc))%Z) by (fold N; lia).
  pose proof (Hgood next (leader_in _)) as Hv. pose proof Hv as (Hvh & [c Hc] & Hva). rewrite <-Hvj in Hj.
  destruct (count_next (cenv next) hs (core_of ν) n b r X es v) as [Hok Ht']; [by rewrite (co_conf _ _ _ Hco)|done..|].
  destruct (OnProposalVote (cenv next) v (core_of ν)) as [o s'] eqn:Hrun. cbn [fst snd] in Hok, Ht'. subst o.
  eexists. split.
  - apply step_run. apply (vote_arrives rc (envs next) next Hco HN2 n _ j "" v c s' (state ν) Hn eq_refl Hvn Hvj); [|done| |exact Hrun].
    + rewrite Hvh. apply hash_nonempty.
    + rewrite Hvh. unfold authentic in Hva. by rewrite (co_conf _ _ _ Hco), Hc, Hvj in Hva.
  - constructor; [by constructor|exact Hqueue|exact Hview| |exact Hp]. exists b, r, es. rewrite Hvj in Ht'.
    split; [exact Ht'|by constructor].
Qed.

Lemma collect_all_run n (cs : Z → list bytes) rs : ∀ X σ,
  let next := leader (S n) in
  is_int64 (Z.of_nat (S n)) → NoDup rs → voting n next quiet (cs next) X (σ next) →
  (∀ j, j ∈ rs → j ≠ next ∧ (j ∉ X) ∧ voted n j (cs j) (σ j)) →
  ∃ σ', collect_all n next rs σ = Some σ' ∧ only (next :: rs) σ σ'
    ∧ voting n next quiet (cs next) (X ∪ list_to_set rs) (σ' next)
    ∧ ∀ j, j ∈ rs → voting n j quiet (cs j) {[leader n]} (σ' j).
Proof.
  induction rs as [|j rs IH]; intros X σ next Hn Hnd Hc Hrs.
  { exists σ. cbn [collect_all list_to_set]. rewrite union_empty_r_L. split_and!; [done..|]. by intros j Hj%not_elem_of_nil. }
  apply NoDup_cons in Hnd as [Hj Hnd]. destruct (Hrs j) as (Hjn & HjX & Hv); [left|].
  unfold voted in Hv. fold next in Hv. rewrite decide_False in Hv by done. destruct Hv as (v & Hv & Hcast).
  destruct (voting_take n j _ quiet (cs j) {[leader n]} next (vote_message v)
    (MkMessage "" (Some (Message_Vote v))) (σ j) Hv (leader_in _) (not_eq_sym Hjn)) as (νj & Htake & Hvj & _);
    [unfold only_to; by rewrite decide_True|done|done|intros k Hk; unfold only_to; by rewrite decide_False|].
  destruct (collect_run n j v (cs next) X (σ next) Hn Hcast HjX Hc) as (ν' & Hrun & Hc').
  pose proof (deliver_run n j next σ _ νj ν' (not_eq_sym Hjn) Htake Hrun) as Hd. set (σ1 := <[next := ν']> _) in Hd.
  destruct (IH ({[j]} ∪ X) σ1 Hn Hnd) as (σ' & Hrun' & Honly & Hc'' & Hall).
  { unfold σ1. fold next. by rewrite fn_lookup_insert. }
  { intros k Hk. destruct (Hrs k) as (Hkn & HkX & Hkv); [by right|]. fold next. split_and!; [done| |].
    - rewrite not_elem_of_union, not_elem_of_singleton. split; [by intros ->|done].
    - unfold σ1. by rewrite !fn_lookup_insert_ne by (try done; by intros ->). }
  exists σ'. split_and!.
  - cbn [collect_all]. fold next in Hd. rewrite Hd. exact Hrun'.
  - intros i [Hin [Hij Hi]%not_elem_of_cons]%not_elem_of_cons. rewrite Honly by (by rewrite not_elem_of_cons).
    unfold σ1. by rewrite !fn_lookup_insert_ne by done.
  - cbn [list_to_set]. replace (X ∪ ({[j]} ∪ list_to_set rs)) with ({[j]} ∪ X ∪ list_to_set rs) by set_solver. exact Hc''.
  - intros i [->|Hi]%elem_of_cons; [|by apply Hall].
    rewrite Honly by (by rewrite not_elem_of_cons). unfold σ1. by rewrite fn_lookup_insert_ne, fn_lookup_insert by done.
Qed.

(** With the votes of all replicas the next leader enters its view. *)
Lemma finish_round n X ν :
  let next := leader (S n) in
  is_int64 (Z.of_nat (S n)) → served (S n) → voting n next quiet (queue (S n) next) X ν → (q ≤ Z.of_nat (size X))%Z →
  ∃ ν', settle n next ν = Some ν' ∧ starting (S n) next ν'.
Proof.
  intros next Hn Hsv [[Hnodes Hstreams] Hqueue Hview (b & r & es & Ht & Hh) Hp] HX.
  pose proof (all_correct next (leader_in _)) as Hco. pose proof N_bounds as HN.
  assert (HN2 : (2 ≤ md_N (Metadata rc))%Z) by (fold N; lia).
  destruct (tallied_quorum (cenv next) hs (core_of ν) n b r X es) as (qc & Hg & Hq & Hbh & Hqv & Hver & Hes);
    [by rewrite (co_conf _ _ _ Hco)|done|by rewrite (co_conf _ _ _ Hco)|].
  set (p1 := set_executed (snd <$> omap decided (es ++ [HqcUpdateEvent (Some r)])) (state ν)).
  pose proof (finish_event_run rc (envs next) next Hco HN2 n (ticks n next) (Proposer b) r qc p1 Hn eq_refl Hview) as H1.
  eexists. split.
  - apply (settle_run n next ν es [HqcUpdateEvent (Some r)] (QcFinishEvent (Proposer b) (Some r))); [exact Hes|exact Hh| |].
    + apply Forall_singleton. exists r, qc. split_and!; [done|done|]. rewrite Hqv, Hview. done.
    + apply H1; [|exact Hq|exact Hqv]. change (submitC (state ν) ≠ []). rewrite Hqueue. apply Hsv.
  - constructor; [by constructor|exact Hqueue|reflexivity| | |].
    + exists r, qc. cbn. destruct Ht. constructor; try done. rewrite Hqv. done.
    + constructor; cbn; [by rewrite Hes|]. rewrite Hes. unfold finished. rewrite !omap_app. done.
    + apply (pending_more [] [TaskBeat] ν _ _ Hp). reflexivity.
Qed.

(** *** The whole round *)

(** Between rounds: the leader may propose, the others wait. *)
Definition synced (n : nat) (σ : cluster) : Prop :=
  starting n (leader n) (σ (leader n)) ∧ ∀ i, i ∈ ids → i ≠ leader n → waiting n i (σ i).

Lemma voting_waiting n i ν : i ∈ ids → voting n i quiet (queue (S n) i) {[leader n]} ν → waiting (S n) i ν.
Proof.
  intros Hi [Hw Hq Hv (b & r & es & Ht & Hh) Hp]. pose proof N_bounds.
  assert (Hes : notifyChan (core_of ν) = es).
  { eapply tallied_few; [exact Ht|]. rewrite (co_conf _ _ _ (all_correct i Hi)), size_singleton. fold q. lia. }
  destruct Ht. constructor; try done. by rewrite Hes.
Qed.

Lemma voted_queue n j cs ν : voted n j cs ν → submitC (state ν) = cs.
Proof. unfold voted. case_decide; [by intros []|]. by intros (v & [] & _). Qed.

Lemma lead_all n σ :
  let l := leader n in
  synced n σ → served n → is_int64 (Z.of_nat (S n)) → (∀ k, (k ≤ n)%nat → hs k ≠ hs (S n)) →
  ∃ σ1 σ2 σ3 pr w, on l (next_task n l) σ = Some σ1 ∧ on l (settle n l) σ1 = Some σ2 ∧ on l (next_task n l) σ2 = Some σ3
    ∧ only [l] σ σ3 ∧ announced n w ∧ export_proposal pr (core_of (σ3 l)) = (Ok w, core_of (σ3 l))
    ∧ voting n l (left_for (order n) (proposal_message pr)) (tail (queue n l)) {[l]} (σ3 l).
Proof.
  intros l [Hs _] Hsv Hn Hne. destruct (lead_run n (σ l) Hs Hsv Hn Hne) as (ν1 & ν2 & ν3 & pr & w & H1 & H2 & H3 & Han & Hexp & Hv).
  exists (<[l := ν1]> σ), (<[l := ν2]> (<[l := ν1]> σ)), (<[l := ν3]> (<[l := ν2]> (<[l := ν1]> σ))), pr, w.
  rewrite fn_lookup_insert. split_and!; [by apply on_run|apply on_run; by rewrite fn_lookup_insert
    |apply on_run; by rewrite fn_lookup_insert| |done|done|].
  - intros i Hi%not_elem_of_cons. by rewrite !fn_lookup_insert_ne by (intros ->; by destruct Hi).
  - eapply voting_ext; [|exact Hv]. intros j Hj Hjl. unfold left_for. rewrite decide_True; [done|]. by apply elem_of_order.
Qed.

Lemma round_run n σ :
  synced n σ → served n → served (S n) → is_int64 (Z.of_nat (S n)) → (∀ k, (k ≤ n)%nat → hs k ≠ hs (S n)) →
  ∃ σ', round n σ = Some σ' ∧ synced (S n) σ'.
Proof.
  intros Hsync Hsv Hsv' Hn Hne. set (l := leader n). set (next := leader (S n)).
  destruct (lead_all n σ Hsync Hsv Hn Hne) as (σ1 & σ2 & σ3 & pr & w & H1 & H2 & H3 & Ho3 & Han & Hexp & Hv3).
  fold l in H1, H2, H3, Ho3, Hexp, Hv3.
  destruct (receive_all_run n pr w (tail (queue n l)) (order n) σ3 Han Hn Hne (order_NoDup n) Hv3 Hexp)
    as (σ4 & H4 & Ho4 & Hl4 & Hv4).
  { intros j [Hjl Hj]%elem_of_order. split_and!; [done|done|].
    rewrite Ho3 by (by rewrite list_elem_of_singleton). by apply Hsync. }
  fold l in H4, Hl4. assert (Hnext : next ∈ order n) by (apply elem_of_order; split; [apply leaders_differ|apply leader_in]).
  assert (Hqueue : ∀ i, i ∈ ids → submitC (state (σ4 i)) ++ sent_to (requests (S n)) i = queue (S n) i).
  { intros i Hi. cbn [queue]. case_decide as Hil; [change (i = l) in Hil; rewrite Hil; by rewrite (vo_queue _ _ _ _ _ _ Hl4)|].
    by rewrite (voted_queue n i _ _ (Hv4 i (proj2 (elem_of_order n i) (conj Hil Hi)))). }
  destruct (request_all_run (requests (S n)) σ4) as (σ5 & H5 & Hσ5); [apply Hsv'| |].
  { intros i Hi. rewrite Hqueue by done. by apply Hsv'. }
  assert (Hl5 : voting n l quiet (queue (S n) l) {[l]} (σ5 l)).
  { rewrite Hσ5. cbn [queue]. rewrite decide_True by done. by apply voting_queued. }
  assert (Hv5 : ∀ j, j ∈ order n → voted n j (queue (S n) j) (σ5 j)).
  { intros j Hj. rewrite Hσ5. cbn [queue]. rewrite decide_False by (by apply elem_of_order in Hj as [? _]).
    by apply voted_queued, Hv4. }
  destruct (collect_all_run n (queue (S n)) (filter (.≠ next) (order n)) ({[next]} ∪ {[l]}) σ5) as (σ6 & H6 & Ho6 & Hc6 & Hv6).
  { done. } { apply NoDup_filter, order_NoDup. }
  { pose proof (Hv5 next Hnext) as Hv. unfold voted in Hv. by rewrite decide_True in Hv by done. }
  { intros j [Hjn Hj]%list_elem_of_filter. split_and!; [done| |by apply Hv5].
    apply elem_of_order in Hj as [Hjl _]. rewrite not_elem_of_union, !not_elem_of_singleton. done. }
  fold next in H6, Ho6, Hc6. destruct (finish_round n _ (σ6 next) Hn Hsv' Hc6) as (ν & H7 & Hs7).
  { unfold next, l. rewrite everyone. pose proof N_bounds. lia. }
  exists (<[next := ν]> σ6). split.
  - unfold round. fold l next. rewrite H1. cbn [mbind option_bind]. rewrite H2. cbn [mbind option_bind]. rewrite H3.
    cbn [mbind option_bind]. rewrite H4. cbn [mbind option_bind]. rewrite H5. cbn [mbind option_bind]. rewrite H6.
    cbn [mbind option_bind]. by apply on_run.
  - split; [fold next; by rewrite fn_lookup_insert|]. fold next. intros i Hi Hin. rewrite fn_lookup_insert_ne by done.
    apply (voting_waiting n i _ Hi). destruct (decide (i = l)) as [->|Hil].
    + rewrite Ho6; [exact Hl5|]. rewrite not_elem_of_cons, list_elem_of_filter, elem_of_order. tauto.
    + apply Hv6, list_elem_of_filter. split; [done|by apply elem_of_order].
Qed.

(** ** The start *)

(** A replica in view 0 with the commands [cs] queued, the messages [ms] on its
    streams and the goroutines [ts] left to run. *)
Record booted (i : Z) (ms : Z → list (Message QCRef)) (cs : list bytes) (ts : list Task) (ν : node W) : Prop := {
  bo_wired : wired i ms (state ν);
  bo_core : core_of ν = initCore;
  bo_view : curView (state ν) = 0%Z;
  bo_queue : submitC (state ν) = cs;
  bo_executed : executed (state ν) = [];
  bo_events : events_run ν = 0%nat;
  bo_pending : pending ts ν }.

Lemma run_all_run rs : ∀ σ,
  NoDup rs → (∀ i, i ∈ rs → fresh i (σ i)) →
  ∃ σ', run_all rs σ = Some σ' ∧ only rs σ σ' ∧ ∀ i, i ∈ rs → booted i quiet [] [TaskBeat] (σ' i).
Proof.
  induction rs as [|i rs IH]; intros σ Hnd Hall.
  { exists σ. split_and!; [done|done|]. by intros i Hi%not_elem_of_nil. }
  apply NoDup_cons in Hnd as [Hi Hnd]. destruct (Hall i) as [[Hn Hs] Hc Hv Hq Hx He [Ht Hsp]]; [left|].
  pose proof (step_run i InRun (σ i) (set_spawned (spawned (state (σ i)) ++ [TaskBeat]) (state (σ i))) eq_refl) as Hrun.
  set (ν := MkNode _ _ _) in Hrun. destruct (IH (<[i := ν]> σ) Hnd) as (σ' & Hrun' & Honly & Hall').
  { intros k Hk. rewrite fn_lookup_insert_ne by (by intros ->). apply Hall. by right. }
  exists σ'. split_and!.
  - cbn [run_all]. rewrite (on_run i _ σ ν Hrun). exact Hrun'.
  - intros k [Hk Hk']%not_elem_of_cons. rewrite Honly, fn_lookup_insert_ne by done. done.
  - intros k [->|Hk]%elem_of_cons; [|by apply Hall']. rewrite Honly, fn_lookup_insert by done.
    constructor; [by constructor|done..|]. exists []. cbn. by rewrite Hsp, Ht.
Qed.

(** A replica that does not lead view 0 forwards its first command. *)
Lemma forward_node i ν :
  let l := leader 0 in
  let m := MkMessage "" (Some (Message_Forward (MkForward (first i)))) in
  i ∈ ids → i ≠ l → booted i quiet [] [TaskBeat] ν →
  ∃ ν1 ν2 ν3, step i (InSubmit (MkSubmitRequest "" (first i))) ν = Some ν1 ∧ next_task 0 i ν1 = Some ν2
    ∧ next_task 0 i ν2 = Some ν3 ∧ booted i (only_to l m) [] [] ν3.
Proof.
  intros l m Hi Hil [Hw Hc Hv Hq Hx He Hp]. pose proof (all_correct i Hi) as Hco. pose proof N_bounds as HN.
  assert (HN2 : (2 ≤ md_N (Metadata rc))%Z) by (fold N; lia).
  pose proof (submit_run (envs i) "" (first i) (state ν) (first_commands i Hi)) as H1. rewrite Hq in H1.
  specialize (H1 ltac:(cbn; unfold submit_capacity; lia)). pose proof (step_run i _ ν _ H1) as T1. set (ν1 := MkNode _ _ _) in T1.
  pose proof (forward_run rc (envs i) i Hco HN2 0 (ticks 0 i) (first i) [] (state ν1) (not_eq_sym Hil) Hv eq_refl) as H2.
  fold l m in H2. pose proof (next_task_run 0 i ν1 TaskBeat [] _ Hp H2) as T2. set (ν2 := MkNode _ _ _) in T2.
  pose proof (pending_next [] TaskBeat [TaskUnicast m l] ν1 (state ν2) (events_run ν2) Hp eq_refl) as Hp2.
  pose proof (stream_to i quiet (state ν) l Hw (leader_in 0) (not_eq_sym Hil)) as Hstr.
  pose proof (unicast_run (envs i) (ticks 0 i) m l [] (state ν2) Hstr) as H3.
  pose proof (next_task_run 0 i ν2 _ [] _ Hp2 H3) as T3. set (ν3 := MkNode _ _ _) in T3.
  exists ν1, ν2, ν3. split_and!; [exact T1|exact T2|exact T3|]. constructor; [|done..|].
  - destruct Hw as [Hn Hs]. constructor; [exact Hn|]. intros k. cbn. unfold only_to. destruct (decide (k = l)) as [->|Hk].
    + rewrite lookup_insert_eq, decide_True; [done|]. split; [apply leader_in|by apply not_eq_sym].
    + rewrite lookup_insert_ne by done. apply Hs.
  - apply (pending_next [] _ [] ν2 _ _ Hp2). by rewrite app_nil_r.
Qed.

Lemma booted_take i ms ms' cs ts j m w ν :
  booted i ms cs ts ν → j ∈ ids → j ≠ i → ms j = [m] → (wire m (core_of ν)).1 = Ok w →
  ms' j = [] → (∀ k, k ≠ j → ms' k = ms k) → ∃ ν', take_message j ν = Some (w, ν') ∧ booted i ms' cs ts ν'.
Proof.
  intros [Hw Hc Hv Hq Hx He Hp] Hj Hji Hm Hwire Hj' Hk'.
  destruct (take_run i ms j m w ms' ν Hw Hj Hji Hm Hwire Hj' Hk') as (p & Htake & Hw' & a & ->).
  eexists. split; [exact Htake|]. by constructor.
Qed.

Lemma forward_all_run rs : ∀ cs σ,
  let l := leader 0 in
  NoDup rs → booted l quiet cs [TaskBeat] (σ l) → (length (cs ++ (first <$> rs)) ≤ submit_capacity)%nat →
  (∀ i, i ∈ rs → i ∈ ids ∧ i ≠ l ∧ booted i quiet [] [TaskBeat] (σ i)) →
  ∃ σ', forward_all rs σ = Some σ' ∧ only (l :: rs) σ σ'
    ∧ booted l quiet (cs ++ (first <$> rs)) [TaskBeat] (σ' l) ∧ ∀ i, i ∈ rs → booted i quiet [] [] (σ' i).
Proof.
  induction rs as [|i rs IH]; intros cs σ l Hnd Hl Hroom Hrs.
  { exists σ. cbn [fmap list_fmap]. rewrite app_nil_r. split_and!; [done..|]. by intros i Hi%not_elem_of_nil. }
  apply NoDup_cons in Hnd as [Hi Hnd]. destruct (Hrs i) as (Hid & Hil & Hb); [left|].
  destruct (forward_node i (σ i) Hid Hil Hb) as (ν1 & ν2 & ν3 & H1 & H2 & H3 & Hb3). fold l in Hb3.
  destruct (booted_take i _ quiet [] [] l (MkMessage "" (Some (Message_Forward (MkForward (first i)))))
    (MkMessage "" (Some (Message_Forward (MkForward (first i))))) ν3 Hb3
    (leader_in 0) (not_eq_sym Hil)) as (νi & Htake & Hbi);
    [unfold only_to; by rewrite decide_True|done|done|intros k Hk; unfold only_to; by rewrite decide_False|].
  assert (Hq : (length cs < submit_capacity)%nat) by (rewrite length_app in Hroom; cbn [fmap list_fmap length] in Hroom; lia).
  destruct Hl as [Hw Hc Hv Hqu Hx He Hp]. rewrite <-Hqu in Hq.
  pose proof (step_run l _ (σ l) _ (forward_arrives (envs l) (ticks 0 l) i "" (first i) (state (σ l)) Hq)) as H4.
  set (νl := MkNode _ _ _) in H4. set (σ3 := <[i := ν3]> (<[i := ν2]> (<[i := ν1]> σ))).
  assert (Hd : deliver 0 i l σ3 = Some (<[l := νl]> (<[i := νi]> σ3))).
  { eapply (deliver_run 0 i l σ3); [by apply not_eq_sym|unfold σ3; rewrite fn_lookup_insert; exact Htake|]. unfold σ3.
    by rewrite !fn_lookup_insert_ne by done. }
  set (σ4 := <[l := νl]> _) in Hd. destruct (IH (cs ++ [first i]) σ4 Hnd) as (σ' & Hrun & Honly & Hl' & Hall).
  { unfold σ4. fold l. rewrite fn_lookup_insert. destruct Hw. constructor; [by constructor|exact Hc|exact Hv|cbn; by rewrite Hqu|exact Hx|exact He|exact Hp]. }
  { by rewrite <-app_assoc. }
  { intros k Hk. destruct (Hrs k) as (Hki & Hkl & Hkb); [by right|]. split_and!; [done|done|].
    unfold σ4, σ3. by rewrite !fn_lookup_insert_ne by (try done; by intros ->). }
  exists σ'. split_and!.
  - cbn [forward_all]. rewrite (on_run i _ σ ν1 H1). cbn [mbind option_bind].
    rewrite (on_run i _ (<[i := ν1]> σ) ν2) by (by rewrite fn_lookup_insert). cbn [mbind option_bind].
    rewrite (on_run i _ (<[i := ν2]> (<[i := ν1]> σ)) ν3) by (by rewrite fn_lookup_insert). cbn [mbind option_bind].
    fold σ3 l. rewrite Hd. exact Hrun.
  - intros k [Hkl [Hki Hk]%not_elem_of_cons]%not_elem_of_cons. rewrite Honly by (by rewrite not_elem_of_cons).
    unfold σ4, σ3. by rewrite !fn_lookup_insert_ne by done.
  - fold l in Hl'. by rewrite <-app_assoc in Hl'.
  - intros k [->|Hk]%elem_of_cons; [|by apply Hall]. rewrite Honly by (by rewrite not_elem_of_cons).
    unfold σ4. by rewrite fn_lookup_insert_ne, fn_lookup_insert by done.
Qed.

Lemma booted_queued i ms cs ts cs' ν : booted i ms cs ts ν → booted i ms (cs ++ cs') ts (queued cs' ν).
Proof. intros [[Hn Hs] Hc Hv Hq Hx He Hp]. constructor; [by constructor|exact Hc|exact Hv|cbn; by rewrite Hq|exact Hx|exact He|exact Hp]. Qed.

Lemma booted_handled i ms cs ts ν : booted i ms cs ts ν → handled (notifyChan (core_of ν)) ν.
Proof. intros [_ Hc _ _ Hx He _]. rewrite Hc. by constructor. Qed.

Lemma start_synced σ : (∀ i, i ∈ ids → fresh i (σ i)) → served 0 → ∃ σ', rounds 0 σ = Some σ' ∧ synced 0 σ'.
Proof.
  intros Hall Hsv. set (l := leader 0). destruct (run_all_run ids σ (NoDup_seqZ _ _) Hall) as (σ1 & H1 & _ & Hb1).
  destruct (forward_all_run (order 0) [] σ1 (order_NoDup 0)) as (σ2 & H2 & _ & Hl2 & Hb2).
  { apply Hb1, leader_in. }
  { pose proof (sv_room 0 Hsv l (leader_in 0)) as Hr. cbn [queue] in Hr. rewrite decide_True, length_app in Hr by done. cbn [app]. lia. }
  { intros i [Hil Hi]%elem_of_order. split_and!; [done|done|by apply Hb1]. }
  fold l in Hl2. cbn [app] in Hl2.
  assert (Hqueue : ∀ i, i ∈ ids → booted i quiet (if decide (i = l) then first <$> order 0 else [])
      (if decide (i = l) then [TaskBeat] else []) (σ2 i)).
  { intros i Hi. case_decide as Hil; [by rewrite Hil|]. by apply Hb2, elem_of_order. }
  destruct (request_all_run (requests 0) σ2) as (σ3 & H3 & Hσ3); [apply Hsv| |].
  { intros i Hi. rewrite (bo_queue _ _ _ _ _ (Hqueue i Hi)). by apply (sv_room 0 Hsv). }
  exists σ3. split; [cbn [rounds]; rewrite H1; cbn [mbind option_bind]; rewrite H2; exact H3|].
  assert (Hb : ∀ i, i ∈ ids → booted i quiet (queue 0 i) (if decide (i = l) then [TaskBeat] else []) (σ3 i)).
  { intros i Hi. rewrite Hσ3. apply booted_queued, (Hqueue i Hi). }
  pose proof (init_inv hs eq_refl) as Hinv. split; fold l.
  - pose proof (Hb l (leader_in 0)) as Hbl. rewrite (decide_True (P:=l = l)) in Hbl by done.
    pose proof (booted_handled _ _ _ _ _ Hbl) as Hh. destruct Hbl as [Hw Hc Hv Hq Hx He Hp].
    constructor; [done..| |done|done]. exists 0%nat, (MkQuorumCert (-1) (hs 0%nat) (Some ∅)). rewrite Hc.
    constructor; try reflexivity; [exact Hinv|cbn; lia|lia].
  - intros i Hi Hil. pose proof (Hb i Hi) as Hbi. rewrite decide_False in Hbi by done.
    pose proof (booted_handled _ _ _ _ _ Hbi) as Hh. destruct Hbi as [Hw Hc Hv Hq Hx He Hp].
    constructor; [done|done|done|rewrite Hc; exact Hinv|by rewrite Hc|exact Hh|exact Hp].
Qed.

Lemma rounds_synced n σ :
  (∀ i, i ∈ ids → fresh i (σ i)) → (∀ k, (k ≤ n)%nat → served k) → is_int64 (Z.of_nat n) →
  (∀ i j, (i < j ≤ n)%nat → hs i ≠ hs j) → ∃ σ', rounds n σ = Some σ' ∧ synced n σ'.
Proof.
  intros Hall. induction n as [|n IH]; intros Hsv Hn Hne; [by apply start_synced; [|apply Hsv]|].
  destruct IH as (σ' & Hrun & Hs); [auto with lia|unfold is_int64 in *; lia|auto with lia|].
  destruct (round_run n σ' Hs) as (σ'' & Hr & Hs'); [apply Hsv; lia|apply Hsv; lia|done|intros j Hj; apply Hne; lia|].
  exists σ''. cbn [rounds]. by rewrite Hrun.
Qed.

(** What is left of a replica's events, goroutines and messages. *)
Definition unhandled (ν : node W) : list EventNotifier := drop (events_run ν) (notifyChan (core (hotstuff (state ν)))).
Definition unstarted (ν : node W) : list Task := drop (tasks_run ν) (spawned (state ν)).
Definition in_transit (i : Z) (ν : node W) : list (Message QCRef) :=
  j ← filter (.≠ i) ids; default [] (stream (server (hotstuff (state ν))) j).

Lemma pending_unstarted ts ν : pending ts ν → unstarted ν = ts.
Proof. intros (ran & Hs & Hr). unfold unstarted. rewrite Hs, Hr. apply drop_app_length. Qed.

Lemma quiet_in_transit i ν : wired i quiet (state ν) → in_transit i ν = [].
Proof.
  intros Hw. unfold in_transit, stream. assert (Hall : ∀ j, j ∈ filter (.≠ i) ids → default [] (sendChan (server (hotstuff (state ν))) !! j) = []).
  { intros j [Hji Hj]%list_elem_of_filter. by rewrite (stream_to i quiet _ j Hw Hj Hji). }
  induction (filter (.≠ i) ids) as [|j l IH]; [done|]. cbn [mbind list_bind]. rewrite Hall by left.
  apply IH. intros k Hk. apply Hall. by right.
Qed.

(** What a replica between two rounds has done. *)
Lemma rest_outcome n ν :
  chain_inv hs (core_of ν) n → handled (notifyChan (core_of ν)) ν →
  executed (state ν) = cmds <$> seq 0 (n - 3) ∧ unhandled ν = [].
Proof.
  intros Hinv [Hr Hx]. split.
  - rewrite Hx, (pr_decided _ _ _ (ci_progress _ _ _ Hinv)), <-list_fmap_compose, <-fmap_S_seq, <-list_fmap_compose. done.
  - unfold unhandled. by rewrite Hr, drop_all.
Qed.

(** C3 The cluster decides and executes.  [N] replicas that have been built and
    connected and whose code runs as written, from [Run] on: every event and every
    goroutine is run once, in the order of its replica, every message is delivered
    once, in whatever order those of a round arrive, handlers run one at a time,
    clients submit what they like as long as the leader of each view has a command
    when it enters the view and no queue overflows, and no view timer fires.  Then the start and every round complete: no handler
    fails, waits or crashes.  The first [OnBeat] of the other replicas forwards
    their first command to the leader of view 0; in each round the leader proposes
    the oldest command of its queue, every replica votes for the block, and the
    certificate of the votes takes the next leader to the next view.  After [n]
    rounds, for every [n], every replica has voted for the same [n] blocks in
    order, has decided the first [n - 3] of them in order and exactly once and has
    executed their commands; nothing is left to run or to deliver but the [OnBeat]
    of replica [n mod N], which leads view [n] with the certificate for the last
    block. *)
Theorem cluster_decides n σ :
  (∀ i, i ∈ ids → fresh i (σ i)) → (∀ k, (k ≤ n)%nat → served k) → is_int64 (Z.of_nat n) →
  (∀ i j, (i < j ≤ n)%nat → block_hash i ≠ block_hash j) →
  ∃ σ', rounds n σ = Some σ'
    ∧ (∀ i, i ∈ ids → let p := state (σ' i) in let s := core (hotstuff p) in
        omap event_vote (notifyChan s) = block_hash <$> seq 1 n
        ∧ omap decided_hash (notifyChan s) = block_hash <$> seq 1 (n - 3)
        ∧ voteHeight s = Z.of_nat n
        ∧ executed p = cmds <$> seq 0 (n - 3)
        ∧ submitC p = queue n i
        ∧ unhandled (σ' i) = [] ∧ in_transit i (σ' i) = []
        ∧ unstarted (σ' i) = if decide (i = leader n) then [TaskBeat] else [])
    ∧ let p := state (σ' (leader n)) in
      curView p = Z.of_nat n ∧ qc_hash (core (hotstuff p)) (genericQC (core (hotstuff p))) = Some (block_hash n).
Proof.
  intros Hall Hsv Hn Hne. destruct (rounds_synced n σ Hall Hsv Hn Hne) as (σ' & Hrun & [Hl Hw]).
  exists σ'. split; [done|]. destruct Hl as [Hwl Hql Hvl (g & gq & [Hinv _ Hg Hq Hh _ _]) Hhl Hpl].
  split; [|cbv zeta; by rewrite Hg, (qc_hash_lookup _ _ _ Hq), Hh].
  intros i Hi p s. assert (Hi' : wired i quiet p ∧ submitC p = queue n i ∧ chain_inv hs s n ∧ handled (notifyChan s) (σ' i)
    ∧ pending (if decide (i = leader n) then [TaskBeat] else []) (σ' i)).
  { unfold s, p. case_decide as Hil; [by rewrite Hil|]. by destruct (Hw i Hi Hil). }
  destruct Hi' as (Hwi & Hqi & Hci & Hhi & Hpi). destruct (rest_outcome n (σ' i) Hci Hhi) as [Hex Hun].
  pose proof (decided_hashes _ _ _ (ci_progress _ _ _ Hci)) as Hd. destruct (ci_progress _ _ _ Hci).
  split_and!; [done..|by apply quiet_in_transit|by apply pending_unstarted].
Qed.

End cluster.

(** ** Witness: four replicas, five rounds, messages in descending order; clients
    submit one command per round, to the leader of the next one *)

Module ToyCluster.

Definition first (i : Z) : bytes := [byte_of_Z (65 + i)].
Definition requests (n : nat) : list (Z * bytes) :=
  match n with O => [] | S _ => [(leader Toy.conf n, [byte_of_Z (97 + Z.of_nat n)])] end.
Definition order (n : nat) : list Z := reverse (filter (.≠ leader Toy.conf n) (ids Toy.conf)).
Definition ticks (n : nat) (i : Z) : Tick unit := MkTick (Z.of_nat n) tt.
Local Abbreviation hash := (block_hash Toy.conf ticks first requests order).

Definition nodes : gmap Z NodeInfo :=
  list_to_map ((λ i, (i, MkNodeInfo i "" None true)) <$> ids Toy.conf).
Definition streams (i : Z) : abServer (Message QCRef) :=
  MkABServer (list_to_map ((λ j, (j, [])) <$> filter (.≠ i) (ids Toy.conf))).
Definition replica (i : Z) : node unit := MkNode (NewRoundRobinPM (MkBase initCore nodes (streams i) tt)) 0 0.

Lemma ids_cases i : i ∈ ids Toy.conf → (i = 0 ∨ i = 1 ∨ i = 2 ∨ i = 3)%Z.
Proof. intros Hi. apply elem_of_seqZ in Hi. cbn in Hi. lia. Qed.

Lemma replica_correct i : i ∈ ids Toy.conf → correct Toy.conf (ToyBase.env i) i.
Proof.
  intros Hi%ids_cases. constructor; [reflexivity..| |reflexivity|reflexivity|exact (λ _ _ _ _, I)|].
  - intros e d. exists (Toy.sign i d).
    split; [reflexivity|]. assert (Hinfo : Replicas Toy.conf !! i = Some (Toy.info i))
      by (destruct Hi as [-> | [-> | [-> | ->]]]; reflexivity).
    apply verify_entry_true. do 2 eexists. split; [exact Hinfo|]. split; [reflexivity|].
    by apply bool_decide_eq_true_2.
  - vm_compute. lia.
Qed.

Lemma replica_fresh i : i ∈ ids Toy.conf → fresh Toy.conf i (replica i).
Proof.
  intros Hi. constructor; [|reflexivity..|done]. constructor.
  - intros j Hj%ids_cases. destruct Hj as [-> | [-> | [-> | ->]]]; reflexivity.
  - intros j. cbn [replica state NewRoundRobinPM hotstuff server streams sendChan]. case_decide as Hj.
    + destruct Hj as [Hj Hji]. apply ids_cases in Hi, Hj.
      destruct Hi as [-> | [-> | [-> | ->]]], Hj as [-> | [-> | [-> | ->]]]; try done; reflexivity.
    + apply not_elem_of_list_to_map_1. rewrite <-list_fmap_compose. intros (k & -> & Hk)%list_elem_of_fmap.
      apply list_elem_of_filter in Hk as [? ?]. by apply Hj.
Qed.

Definition hashes : list bytes := hash <$> seq 0 6.

Lemma hashes_nodup : NoDup hashes.
Proof. apply (bool_decide_unpack _). vm_compute. exact I. Qed.

Lemma hash_distinct i j : (i < j ≤ 5)%nat → hash i ≠ hash j.
Proof.
  intros Hij Heq. assert (i = j); [|lia]. apply (NoDup_lookup _ i j (hash j) hashes_nodup);
    unfold hashes; rewrite list_lookup_fmap, lookup_seq_lt by lia; cbn [fmap option_fmap option_map Nat.add].
  - exact (f_equal Some Heq).
  - reflexivity.
Qed.

Lemma toy_served k : (k ≤ 5)%nat → served Toy.conf first requests order k.
Proof.
  intros Hk. constructor.
  - intros x Hx. destruct k as [|k]; [by apply not_elem_of_nil in Hx|]. apply list_elem_of_singleton in Hx as ->.
    split; [|discriminate]. apply (leader_in Toy.conf); [split; simpl; lia|vm_compute; discriminate].
  - destruct k as [|[|[|[|[|[|k]]]]]]; try lia; vm_compute; discriminate.
  - intros i Hi%ids_cases. destruct k as [|[|[|[|[|[|k]]]]]]; try lia;
      destruct Hi as [-> | [-> | [-> | ->]]]; apply Nat.leb_le; vm_compute; reflexivity.
Qed.

Lemma cluster_decides_witness :
  ∃ σ, rounds Toy.conf ToyBase.env ticks first requests order 5 replica = Some σ
    ∧ ∀ i, i ∈ ids Toy.conf → executed (state (σ i)) = [[x44]; [x62]] ∧ unhandled (σ i) = [].
Proof.
  destruct (cluster_decides Toy.conf ToyBase.env ticks first requests order) with (n := 5%nat) (σ := replica)
    as (σ & Hrun & Hall & _).
  - split; simpl; lia.
  - vm_compute. discriminate.
  - apply replica_correct.
  - intros n. apply reverse_Permutation.
  - intros i _. discriminate.
  - apply replica_fresh.
  - apply toy_served.
  - split; simpl; lia.
  - apply hash_distinct.
  - exists σ. split; [exact Hrun|]. intros i Hi. destruct (Hall i Hi) as (_ & _ & _ & Hex & _ & Hun & _).
    split; [|exact Hun]. rewrite Hex. vm_compute. reflexivity.
Defined.

End ToyCluster.
