(* ===== verification/Crypto.v ===== *)
(** * Signatures ([common/crypto/ecdsa.go])

    [Sign] and [Verify] around the ECDSA primitives, which with the ASN.1 codec
    are parameters: the primitives' correctness, the symmetry of ECDSA
    verification in [s] and [N - s], and the codec's round trip are named
    hypotheses.  Both functions insist on the lower of the two values of [s]. *)

From stdpp Require Import base numbers fin_maps gmap sets strings list.
From Stdlib Require Import Strings.Byte.
From S2P Require Import Prelude GoMonad.

(** The curves of [crypto/elliptic], and any other. *)
Inductive Curve := P224 | P256 | P384 | P521 | OtherCurve (n : Z).

#[global] Instance Curve_eq_dec : EqDecision Curve.
Proof. solve_decision. Defined.

(** [Params().N], the order of the base point. *)
Definition order (c : Curve) : Z :=
  match c with
  | P224 => 26959946667150639794667015087019625940457807714424391721682722368061
  | P256 => 115792089210356248762697446949407573529996955224135760342422259061068512044369
  | P384 => 39402006196394479212279040100143613805079739270465446667946905279627659399113263569398956308152294913554433653942643
  | P521 => 6864797660130609714981900799081393217269435300143305409394463459185543183397655394245057746333217197532963996371363321113864768612440380340372808892707005449
  | OtherCurve n => n
  end%Z.

(** [curveHalfOrders]: [None] when the curve has no entry. *)
Definition curveHalfOrders (c : Curve) : option Z :=
  match c with OtherCurve _ => None | _ => Some (Z.shiftr (order c) 1) end.

Section ecdsa.
(** Private keys, public keys, randomness; [ECDSASignature] is a pair of
    [big.Int] pointers. *)
Context {Key Pub Rand : Type}.
Context (public : Key → Pub) (curve : Pub → Curve).
Context (ecdsa_Sign : Rand → Key → bytes → go_error + (Z * Z)).
Context (ecdsa_Verify : Pub → bytes → Z → Z → bool).
Context (asn1_Marshal : option Z * option Z → go_error + bytes).
Context (asn1_Unmarshal : bytes → go_error + (option Z * option Z)).

Definition GetCurveHalfOrdersAt (c : Curve) : option Z := curveHalfOrders c.

(** IsLow checks that s is a low-S. *)
Definition isLowS (k : Pub) (s : Z) : go_error + bool :=
  match curveHalfOrders (curve k) with
  | None => inl ErrVerify
  | Some halfOrder => inr (bool_decide (s ≤ halfOrder)%Z)
  end.

Definition toLowS (k : Pub) (s : Z) : go_error + (Z * bool) :=
  match isLowS k s with
  | inl e => inl e
  | inr true => inr (s, false)
  | inr false => inr (order (curve k) - s, true)%Z
  end.

Definition MarshalECDSASignature (r s : Z) : go_error + bytes := asn1_Marshal (Some r, Some s).

Definition UnmarshalECDSASignature (raw : bytes) : go_error + (Z * Z) :=
  match asn1_Unmarshal raw with
  | inl e => inl e
  | inr (None, _) => inl ErrVerify
  | inr (_, None) => inl ErrVerify
  | inr (Some r, Some s) =>
      if decide (r ≤ 0)%Z then inl ErrVerify
      else if decide (s ≤ 0)%Z then inl ErrVerify
      else inr (r, s)
  end.

Definition Sign (rnd : Rand) (k : Key) (digest : bytes) : go_error + bytes :=
  match ecdsa_Sign rnd k digest with
  | inl e => inl e
  | inr (r, s) =>
      match toLowS (public k) s with
      | inl e => inl e
      | inr (s, _) => MarshalECDSASignature r s
      end
  end.

Definition Verify (k : Pub) (signature digest : bytes) : go_error + bool :=
  match UnmarshalECDSASignature signature with
  | inl _ => inl ErrVerify
  | inr (r, s) =>
      match isLowS k s with
      | inl e => inl e
      | inr false => inl ErrVerify
      | inr true => inr (ecdsa_Verify k digest r s)
      end
  end.

(** [ECDSASigner] and [ECDSAVerifier]: the key is a pointer, nil panics. *)
Definition ECDSASigner_Sign {S} (rnd : Rand) (pri : option Key) (digest : bytes) : M S bytes :=
  k ← orPanic pri; orFail (Sign rnd k digest).
Definition ECDSAVerifier_Verify {S} (pub : option Pub) (signature digest : bytes) : M S bool :=
  k ← orPanic pub; orFail (Verify k signature digest).

(** ** What the code relies on *)

(** [crypto/ecdsa]: a signature lies in [1, N-1] and verifies. *)
Hypothesis ecdsa_correct : ∀ rnd k d r s,
  ecdsa_Sign rnd k d = inr (r, s) →
  (0 < r)%Z ∧ (0 < s < order (curve (public k)))%Z ∧ ecdsa_Verify (public k) d r s = true.
(** ECDSA accepts [(r, N - s)] wherever it accepts [(r, s)]. *)
Hypothesis ecdsa_symmetric : ∀ k d r s,
  ecdsa_Verify k d r s = true → ecdsa_Verify k d r (order (curve k) - s) = true.
(** [encoding/asn1] decodes what it encoded. *)
Hypothesis asn1_roundtrip : ∀ x raw, asn1_Marshal x = inr raw → asn1_Unmarshal raw = inr x.

Lemma half_order c h :
  curveHalfOrders c = Some h → (order c = 2 * h + 1)%Z ∧ (0 < h)%Z.
Proof. destruct c; simpl; intros [= <-]; vm_compute; done. Qed.

Lemma toLowS_low k s s' b :
  (0 < s < order (curve k))%Z → toLowS k s = inr (s', b) →
  isLowS k s' = inr true ∧ (0 < s')%Z ∧ (s' = s ∨ s' = (order (curve k) - s)%Z).
Proof.
  unfold toLowS, isLowS. intros Hs. destruct (curveHalfOrders (curve k)) as [h|] eqn:Hh; [|done].
  destruct (half_order _ _ Hh) as [Ho Hpos]. case_bool_decide as Hle; intros [= <- _].
  - rewrite bool_decide_eq_true_2 by done. split_and!; [done|lia|by left].
  - rewrite bool_decide_eq_true_2 by lia. split_and!; [done|lia|by right].
Qed.

Lemma Sign_verifies rnd k d sig :
  Sign rnd k d = inr sig → Verify (public k) sig d = inr true.
Proof.
  unfold Sign, Verify, UnmarshalECDSASignature, MarshalECDSASignature.
  destruct (ecdsa_Sign rnd k d) as [e|[r s]] eqn:Hs; [done|].
  destruct (ecdsa_correct _ _ _ _ _ Hs) as (Hr & Hrange & Hv).
  destruct (toLowS (public k) s) as [e|[s' b]] eqn:Hl; [done|]. intros Hm.
  destruct (toLowS_low _ _ _ _ Hrange Hl) as (Hlow & Hpos & Hs').
  rewrite (asn1_roundtrip _ _ Hm), !decide_False by lia. rewrite Hlow. f_equal.
  destruct Hs' as [-> | ->]; [done|]. by apply ecdsa_symmetric.
Qed.

(** C34 Signing round trip: every signature [Sign] produces is accepted by
    [Verify] for the same digest under the signer's public key. *)
Theorem Sign_Verify_roundtrip rnd k d sig :
  Sign rnd k d = inr sig → Verify (public k) sig d = inr true.
Proof. apply Sign_verifies. Qed.

(** Signatures are not malleable: of the two signatures [(r, s)] and
    [(r, N - s)] that plain ECDSA accepts together, [Verify] accepts at most
    one. *)
Theorem Verify_not_malleable k sig sig' d r s :
  asn1_Unmarshal sig = inr (Some r, Some s) →
  asn1_Unmarshal sig' = inr (Some r, Some (order (curve k) - s)%Z) →
  Verify k sig d = inr true → Verify k sig' d ≠ inr true.
Proof.
  intros H1 H2. unfold Verify, UnmarshalECDSASignature, isLowS. rewrite H1, H2.
  repeat (case_decide; [done|]). destruct (curveHalfOrders (curve k)) as [h|] eqn:Hh; [|done].
  destruct (half_order _ _ Hh) as [Ho Hpos]. repeat case_bool_decide; try done. lia.
Qed.

End ecdsa.

(** ** Key files *)

(** The dynamic type of a parsed key. *)
Inductive PrivKey (Key : Type) := RSAKey | ECDSAKey (k : Key) | OtherKey.
Arguments RSAKey {Key}.
Arguments ECDSAKey {Key}.
Arguments OtherKey {Key}.

Section parse.
Context {Key : Type} (pem_Decode : bytes → option bytes).
Context (ParsePKCS1 ParsePKCS8 ParseEC : bytes → option (PrivKey Key)).

Definition ParsePrivateKey (pemBytes : bytes) : option (PrivKey Key) :=
  match pem_Decode pemBytes with
  | None => None
  | Some der =>
      match ParsePKCS1 der with
      | Some key => Some key
      | None =>
          match ParsePKCS8 der with
          | Some (ECDSAKey k) => Some (ECDSAKey k)
          | Some _ => None
          | None => ParseEC der
          end
      end
  end.

(** Which keys a PEM file yields: any key in PKCS#1 form (an RSA key) is
    returned as it is; in PKCS#8 form only ECDSA keys are accepted; otherwise
    the SEC 1 form decides. *)
Theorem ParsePrivateKey_outcome pemBytes key :
  ParsePrivateKey pemBytes = Some key ↔
  ∃ der, pem_Decode pemBytes = Some der
    ∧ (ParsePKCS1 der = Some key
       ∨ (ParsePKCS1 der = None ∧ ∃ k, ParsePKCS8 der = Some (ECDSAKey k) ∧ key = ECDSAKey k)
       ∨ (ParsePKCS1 der = None ∧ ParsePKCS8 der = None ∧ ParseEC der = Some key)).
Proof.
  unfold ParsePrivateKey. destruct (pem_Decode pemBytes) as [der|]; [|naive_solver].
  split.
  - intros Hk. exists der. split; [done|].
    destruct (ParsePKCS1 der); [left; congruence|right].
    destruct (ParsePKCS8 der) as [[]|]; naive_solver.
  - intros (der' & [= <-] & [-> | [(-> & k & -> & ->)|(-> & -> & Hk)]]); done.
Qed.

End parse.

(** ** Witnesses: a toy scheme on P-256 in which [s] must be 5 or [N - 5] *)

Module ToyECDSA.

Definition curve (_ : unit) : Curve := P256.
Definition sign (high : bool) (_ : unit) (_ : bytes) : go_error + (Z * Z) :=
  inr (1, if high then order P256 - 5 else 5)%Z.
Definition verify (_ : unit) (_ : bytes) (r s : Z) : bool :=
  bool_decide (s = 5 ∨ s = order P256 - 5)%Z.
(** Encodings of the two signatures, and of nothing else. *)
Definition marshal (x : option Z * option Z) : go_error + bytes :=
  if decide (x = (Some 1, Some 5))%Z then inr [x61]
  else if decide (x = (Some 1, Some (order P256 - 5)))%Z then inr [x62] else inl ErrMarshal.
Definition unmarshal (raw : bytes) : go_error + (option Z * option Z) :=
  if decide (raw = [x61]) then inr (Some 1, Some 5)%Z
  else if decide (raw = [x62]) then inr (Some 1, Some (order P256 - 5))%Z else inl ErrMarshal.

Lemma marshal_roundtrip x raw : marshal x = inr raw → unmarshal raw = inr x.
Proof.
  unfold marshal. repeat case_decide; intros Hm; try done; injection Hm as <-; by subst.
Qed.

Lemma verify_symmetric k d r s : verify k d r s = true → verify k d r (order (curve k) - s) = true.
Proof.
  unfold verify, curve. generalize (order P256). intros n. rewrite !bool_decide_eq_true. lia.
Qed.

Lemma sign_correct rnd k d r s :
  sign rnd k d = inr (r, s) → (0 < r)%Z ∧ (0 < s < order (curve k))%Z ∧ verify k d r s = true.
Proof. destruct rnd; intros [= <- <-]; vm_compute; done. Qed.

End ToyECDSA.

(** A high [s] is lowered and the result accepted. *)
Lemma Sign_Verify_roundtrip_witness :
  Verify ToyECDSA.curve ToyECDSA.verify ToyECDSA.unmarshal tt [x61] [x00] = inr true.
Proof.
  apply (Sign_Verify_roundtrip (λ _, tt) ToyECDSA.curve ToyECDSA.sign ToyECDSA.verify
    ToyECDSA.marshal ToyECDSA.unmarshal ToyECDSA.sign_correct ToyECDSA.verify_symmetric
    ToyECDSA.marshal_roundtrip true tt [x00] [x61]).
  vm_compute. reflexivity.
Defined.

Lemma Verify_not_malleable_witness :
  Verify ToyECDSA.curve ToyECDSA.verify ToyECDSA.unmarshal tt [x62] [x00] ≠ inr true.
Proof.
  apply (Verify_not_malleable ToyECDSA.curve ToyECDSA.verify ToyECDSA.unmarshal tt [x61] [x62] [x00] 1 5).
  - reflexivity.
  - reflexivity.
  - vm_compute. reflexivity.
Defined.
