(* ===== verification/Authenticity.v ===== *)
(** * What signatures cover

    Votes and view changes are signed with the same key and without a tag
    ([consensus.go], [createPartCert]; [roundrobin.go], [createSignedViewChange]),
    and [crypto.Sign] is given the message itself rather than its digest.  Two
    consequences: signed view changes verify as votes, and a signature covers
    only the first 32 bytes of a view change. *)

From stdpp Require Import base numbers fin_maps fin_map_dom gmap sets strings list.
From Stdlib Require Import Strings.Byte.
From S2P Require Import Prelude GoMonad Encoding Types Database Entity Core CoreSafety CoreSpec CoreProps.
From S2P Require Import Pacemaker Base Replica Crypto.

Section votes.
Context (rc : ReplicaConf).

(** The certificate for [d] made of the signatures of view-change messages. *)
Definition certificate_of (view : Z) (d : bytes) (vcs : gmap Z ViewChange) : QuorumCert :=
  MkQuorumCert view d (Some (map_imap (λ i vc, Some (Some (MkPartCert i (vc_Signature vc)))) vcs)).

Lemma certificate_signs view d vcs i :
  signs (certificate_of view d vcs) !! i = (λ vc, Some (MkPartCert i (vc_Signature vc))) <$> vcs !! i.
Proof. unfold certificate_of, signs. simpl. rewrite map_lookup_imap. by destruct (vcs !! i). Qed.

Lemma identity_accepts i sig d :
  VerifyIdentity rc i sig d = true ↔ ∃ info, Replicas rc !! i = Some info ∧ accepts info sig d = true.
Proof.
  unfold VerifyIdentity, accepts. destruct (Replicas rc !! i) as [info|]; [|naive_solver].
  split; [eauto|]. intros (info' & [= <-] & Ha). done.
Qed.

Lemma certificate_signers view d vcs :
  (∀ i vc, vcs !! i = Some vc → VerifyIdentity rc i (vc_Signature vc) d = true) →
  signers rc (certificate_of view d vcs) = dom vcs.
Proof.
  intros Hall. apply set_eq. intros i. rewrite elem_of_signers, elem_of_dom. setoid_rewrite certificate_signs.
  change (qc_BlockHash (certificate_of view d vcs)) with d. split.
  - intros (info & c & _ & Hs & _). destruct (vcs !! i); [eauto|done].
  - intros [vc Hvc]. destruct (proj1 (identity_accepts _ _ _) (Hall i vc Hvc)) as (info & Hi & Ha).
    rewrite Hvc. simpl. eauto.
Qed.

(** [N - F] accepted signatures of [d] certify it. *)
Lemma signatures_certify view d vcs :
  sane_metadata (Metadata rc) →
  (∀ i vc, vcs !! i = Some vc → VerifyIdentity rc i (vc_Signature vc) d = true) →
  (md_N (Metadata rc) - md_F (Metadata rc) ≤ Z.of_nat (size vcs))%Z →
  VerifyQuorumCert rc (Some (certificate_of view d vcs)) = Some true.
Proof.
  intros Hsane Hall Hsize. rewrite VerifyQuorumCert_spec; [|done|].
  - rewrite certificate_signers, size_dom, bool_decide_eq_true_2; done.
  - intros i pc Hpc _. rewrite certificate_signs in Hpc. destruct (vcs !! i); [|done].
    injection Hpc as <-. eauto.
Qed.

End votes.

(** *** The view changes replicas sign *)

Section view_changes.
Context {DB E W : Type} `{DatabaseLaws DB string (Block QCRef)} (rc : ReplicaConf).
Context (envs : Z → BaseEnv E W) (ps : Z → RoundRobinPM (HotStuffBase DB W)) (ts : Z → Tick E).

(** Replica [i], in view [v] with [qc] as its highest certificate, which it
    marshals to [d], runs [createSignedViewChange], which returns [vc]. *)
Record announces (v : Z) (qc : QuorumCert) (d : bytes) (i : Z) (vc : ViewChange) : Prop := {
  av_view : curView (ps i) = v;
  av_high : ∃ g, genericQC (core (hotstuff (ps i))) = Some g ∧ qcHeap (core (hotstuff (ps i))) !! g = Some qc;
  av_marshal : marshal (pm_conf (envs i)) (MkNewView v (Some qc)) = inr d;
  av_run : (createSignedViewChange (H:=base_HotStuff (envs i)) (pm_conf (envs i)) (ts i) (ps i)).1
           = Ok (MkMessage "" (Some (Message_ViewChange vc))) }.

(** C25 View changes verify as votes.  When [N - F] replicas, whose signatures
    verify under the keys of the configuration, are in one view with the same
    highest certificate, and their runs of [createSignedViewChange] marshal it to
    the same bytes [d], the signatures of the messages they send form a quorum
    certificate that [VerifyQuorumCert] accepts for a block of hash [d], although
    nobody voted for one. *)
Theorem view_changes_certify view v qc d (vcs : gmap Z ViewChange) :
  sane_metadata (Metadata rc) →
  (∀ i e m sig, Core.Sign (core_env (envs i)) e m = inr sig → i ∈ dom vcs → VerifyIdentity rc i sig m = true) →
  (∀ i vc, vcs !! i = Some vc → announces v qc d i vc) →
  (md_N (Metadata rc) - md_F (Metadata rc) ≤ Z.of_nat (size vcs))%Z →
  VerifyQuorumCert rc (Some (certificate_of view d vcs)) = Some true.
Proof.
  intros Hsane Hsign Hall Hsize. apply signatures_certify; [done| |done].
  intros i vc Hvc. destruct (Hall i vc Hvc) as [Hv (g & Hg & Hq) Hm Hrun].
  destruct (createSignedViewChange (H:=base_HotStuff (envs i)) (pm_conf (envs i)) (ts i) (ps i)) as [o p1] eqn:Hc.
  simpl in Hrun. subst o. destruct (createSigned_run (envs i) _ _ _ g qc _ Hg Hq Hc) as (d' & sig & Hd & Hs & Heq).
  rewrite Hv, Hm in Hd. injection Hd as <-. injection Heq as ->.
  eapply Hsign; [exact Hs|]. by eapply elem_of_dom_2.
Qed.

End view_changes.

(** ** Truncation *)

Section truncation.
Context {Pub E W DB : Type} `{DatabaseLaws DB string (Block QCRef)}.
Context (curve : Pub → Curve) (ecdsa_Verify : Pub → bytes → Z → Z → bool).
Context (asn1_Unmarshal : bytes → go_error + (option Z * option Z)).

(** [crypto/ecdsa] truncates a hash longer than the bit-length of the curve's
    order to that length: 32 bytes on P-256. *)
Hypothesis ecdsa_truncates : ∀ k d r s,
  curve k = P256 → ecdsa_Verify k d r s = ecdsa_Verify k (take 32 d) r s.

Lemma Verify_truncates k sig d d' :
  curve k = P256 → take 32 d = take 32 d' →
  Crypto.Verify curve ecdsa_Verify asn1_Unmarshal k sig d = Crypto.Verify curve ecdsa_Verify asn1_Unmarshal k sig d'.
Proof.
  intros Hk Hd. unfold Crypto.Verify. destruct (UnmarshalECDSASignature _ sig) as [e|[r s]]; [done|].
  destruct (isLowS curve k s) as [e|[]]; [done| |done].
  by rewrite (ecdsa_truncates k d), Hd, <-(ecdsa_truncates k d').
Qed.

(** C26 A view change can be altered after it was signed: with the verifier of
    [common/crypto] and P-256 keys, a replica that accepts a view change of
    replica [i] accepts every other one with the same signature whose data
    agrees on the first 32 bytes, and passes the certificate it decodes to the
    pacemaker as coming from [i]. *)
Theorem view_change_altered (env : BaseEnv E W) t i k vc data' nv qc (p : RoundRobinPM (HotStuffBase DB W)) :
  Replicas (replicas (core_env env)) !! i
    = Some (MkReplicaInfo (Crypto.Verify curve ecdsa_Verify asn1_Unmarshal k)) →
  curve k = P256 → VerifyIdentity (replicas (core_env env)) i (vc_Signature vc) (vc_Data vc) = true →
  take 32 data' = take 32 (vc_Data vc) →
  unmarshalNewView env data' = inr nv → nv_GenericQc nv = Some qc →
  let altered := MkMessage "" (Some (Message_ViewChange (MkViewChange data' (vc_Signature vc)))) in
  let c := core (hotstuff p) in
  handleMessage env t i altered p
  = (Ok tt, set_hotstuff
      (MkBase (set_notifyChan (notifyChan c ++
                 [ReceiveNewViewEvent i (MkNewView (nv_ViewNumber nv) (Some (length (qcHeap c))))])
                (set_qcHeap (qcHeap c ++ [decode_qc qc]) c))
         (Nodes (hotstuff p)) (server (hotstuff p)) (wal (hotstuff p))) p).
Proof.
  intros Hi Hk Hv Hd Hu Hq altered c. unfold altered, handleMessage, handleViewChange. simpl.
  unfold VerifyIdentity in *. rewrite Hi in *. simpl in *.
  rewrite (Verify_truncates k _ data' (vc_Data vc) Hk Hd), Hv, Hu, Hq. done.
Qed.

End truncation.

(** ** Witnesses *)

Module ToyAuth.

(** The view changes replicas 0, 1 and 2 send when they time out in view 0. *)
Definition data : bytes := [x6e].
Definition vc (i : Z) : ViewChange := MkViewChange data (Toy.sign i data).
Definition vcs : gmap Z ViewChange := {[0%Z := vc 0; 1%Z := vc 1; 2%Z := vc 2]}.

(** A scheme on P-256 whose signature 5 is good for digests that start with 32
    bytes [x6e]. *)
Definition prefix : bytes := replicate 32 x6e.
Definition verify (_ : unit) (d : bytes) (r s : Z) : bool := bool_decide (take 32 d = prefix ∧ s = 5%Z).
Lemma verify_truncates k d r s :
  ToyECDSA.curve k = P256 → verify k d r s = verify k (take 32 d) r s.
Proof. intros _. unfold verify. by rewrite firstn_firstn. Qed.
Definition rc : ReplicaConf :=
  MkReplicaConf (MkConfigMetadata 4 1 3)
    {[2%Z := MkReplicaInfo (Crypto.Verify ToyECDSA.curve verify ToyECDSA.unmarshal tt)]}.
Definition env : BaseEnv unit unit :=
  MkBaseEnv (MkCoreEnv 1 (λ _ d, inr d) rc (λ qc, qc)) (ToyBase.conf 1) (λ _, [])
    (λ _, inr ToyBase.genesis_view) (λ _ _ _, mret tt).

End ToyAuth.

Lemma view_changes_certify_witness :
  VerifyQuorumCert Toy.conf (Some (certificate_of 1 ToyAuth.data ToyAuth.vcs)) = Some true.
Proof.
  apply (view_changes_certify Toy.conf ToyBase.env ToyBase.replica (λ _, ToyBase.tick) 1 0
    (MkQuorumCert (-1) ToyCore.ghash (Some ∅)) ToyAuth.data ToyAuth.vcs).
  - split; simpl; lia.
  - intros i e m sig Hs Hi. injection Hs as <-. apply elem_of_dom in Hi as [vc Hvc]. unfold ToyAuth.vcs in Hvc.
    assert (Hinfo : Replicas Toy.conf !! i = Some (Toy.info i)).
    { repeat (apply lookup_insert_Some in Hvc as [[<- _]|[_ Hvc]]; [reflexivity|]).
      apply lookup_singleton_Some in Hvc as [<- _]. reflexivity. }
    unfold VerifyIdentity. rewrite Hinfo. cbn. by rewrite bool_decide_eq_true_2.
  - intros i vc Hvc. unfold ToyAuth.vcs in Hvc.
    repeat (apply lookup_insert_Some in Hvc as [[<- <-]|[_ Hvc]];
      [split; [reflexivity|exists 0%nat; split; ToyCore.by_vm|reflexivity|ToyCore.by_vm]|]).
    apply lookup_singleton_Some in Hvc as [<- <-].
    split; [reflexivity|exists 0%nat; split; ToyCore.by_vm|reflexivity|ToyCore.by_vm].
  - vm_compute. discriminate.
Defined.

Lemma view_change_altered_witness :
  let p := ToyBase.replica 1 in
  let c := core (hotstuff p) in
  handleMessage ToyAuth.env ToyBase.tick 2
    (MkMessage "" (Some (Message_ViewChange (MkViewChange (ToyAuth.prefix ++ [x62]) [x61])))) p
  = (Ok tt, set_hotstuff
      (MkBase (set_notifyChan (notifyChan c ++
                 [ReceiveNewViewEvent 2 (MkNewView 0 (Some (length (qcHeap c))))])
                (set_qcHeap (qcHeap c ++ [decode_qc (MkQuorumCert (-1) ToyCore.ghash (Some ∅))]) c))
         (Nodes (hotstuff p)) (server (hotstuff p)) (wal (hotstuff p))) p).
Proof.
  apply (view_change_altered ToyECDSA.curve ToyAuth.verify ToyECDSA.unmarshal
    ToyAuth.verify_truncates
    ToyAuth.env ToyBase.tick 2 tt (MkViewChange (ToyAuth.prefix ++ [x61]) [x61])
    (ToyAuth.prefix ++ [x62]) ToyBase.genesis_view (MkQuorumCert (-1) ToyCore.ghash (Some ∅))).
  - reflexivity.
  - reflexivity.
  - vm_compute. reflexivity.
  - vm_compute. reflexivity.
  - reflexivity.
  - reflexivity.
Defined.

(** A certificate nobody voted for is adopted: shown a block that claims the
    data of the view changes as its hash, and a block justified by the
    certificate made of them, replica 1 takes that certificate as its highest
    and sends it to the pacemaker. *)
Theorem view_changes_adopted :
  let qc := certificate_of 1 ToyAuth.data ToyAuth.vcs in
  let x := ToyCore.block ToyCore.ghash [x61] 1 1 2 in
  let y := ToyCore.block ToyAuth.data [x62] 2 3 4 in
  let s1 := ToyCore.recv 1 ToyCore.ghash [] ToyAuth.data x initCore in
  let s2 := ToyCore.receive [qc; Toy.qc 2 (GetBlockHash y) []] s1 in
  let s3 := (run_call (ToyCore.env 1) (ToyCore.prop 2 y) s2).2 in
  genericQC s3 = Some 3%nat ∧ qcHeap s3 !! 3%nat = Some qc
  ∧ HqcUpdateEvent (Some 3%nat) ∈ notifyChan s3.
Proof.
  split; [ToyCore.by_vm|]. split; [ToyCore.by_vm|]. apply (list_elem_of_lookup_2 _ 1). ToyCore.by_vm.
Qed.
