(* ===== verification/Leveldb.v ===== *)
(** * Named databases over one store ([common/db/leveldb])

    A handle prefixes its keys with the database name and a separator, and calls
    the wrapper [DB] around one LevelDB.  The LevelDB engine is a parameter
    ([LevelDB]) whose documented behaviour, that of an ordered map, is the class
    of laws [LevelLaws]; any call may report an I/O error.  An error and its
    [errors.Wrapf] are not told apart.  Opening and closing, the table of handles
    and the file lock are in [LevelProvider]. *)

From stdpp Require Import base numbers fin_maps gmap sets strings list.
From Stdlib Require Import Strings.Byte.
From S2P Require Import Prelude GoMonad.

(** ** Keys *)

Definition dbNameKeySep : byte := x00.
Definition lastKeyIndicator : byte := x01.

Definition constructLevelKey (dbName key : bytes) : bytes := dbName ++ [dbNameKeySep] ++ key.

(** [bytes.SplitN(levelKey, sep, 2)[1]]: what follows the first separator, a
    panic ([None]) if there is none. *)
Fixpoint retrieveAppKey (levelKey : bytes) : option bytes :=
  match levelKey with
  | [] => None
  | b :: rest => if decide (b = dbNameKeySep) then Some rest else retrieveAppKey rest
  end.

(** [bytes.Compare(a, b) < 0]. *)
Fixpoint bytes_lt (a b : bytes) : bool :=
  match a, b with
  | [], [] => false
  | [], _ :: _ => true
  | _ :: _, [] => false
  | x :: a, y :: b =>
      if decide (byte_to_Z x < byte_to_Z y)%Z then true
      else if decide (x = y) then bytes_lt a b else false
  end.

Definition bytes_le (a b : bytes) : bool := negb (bytes_lt b a).

(** ** The engine *)

(** [opt.WriteOptions]: whether a write is flushed to disk before it returns. *)
Record WriteOptions := MkWriteOptions { Sync : bool }.
Definition writeOptsNoSync : WriteOptions := MkWriteOptions false.
Definition writeOptsSync : WriteOptions := MkWriteOptions true.

Class LevelDB (L : Type) := {
  l_get : bytes → L → go_error + bytes;
  l_put : WriteOptions → bytes → bytes → L → option go_error * L;
  l_delete : WriteOptions → bytes → L → option go_error * L;
  l_write : WriteOptions → list (bytes * option bytes) → L → option go_error * L;
  l_range : bytes → bytes → L → list (bytes * bytes) }.

Definition apply_op (m : gmap bytes bytes) (op : bytes * option bytes) : gmap bytes bytes :=
  match op.2 with Some v => <[op.1 := v]> m | None => delete op.1 m end.

(** The store holds a map.  A read that returns a value or reports that the key
    is missing is right about it; it may also fail otherwise.  A write that
    reports no error applies its operations in order; one that reports an error
    may have applied all of them or none, since writes are atomic.  A range is
    the entries from the start key, inclusive, to the limit, exclusive. *)
Class LevelLaws (L : Type) `{LevelDB L} := {
  l_view : L → gmap bytes bytes;
  l_get_found k v l : l_get k l = inr v → l_view l !! k = Some v;
  l_get_missing k l : l_get k l = inl (ErrKeyNotFound "") → l_view l !! k = None;
  l_put_ok wo k v l : (l_put wo k v l).1 = None → l_view (l_put wo k v l).2 = <[k := v]> (l_view l);
  l_put_atomic wo k v l :
    l_view (l_put wo k v l).2 = l_view l ∨ l_view (l_put wo k v l).2 = <[k := v]> (l_view l);
  l_delete_ok wo k l : (l_delete wo k l).1 = None → l_view (l_delete wo k l).2 = delete k (l_view l);
  l_delete_atomic wo k l :
    l_view (l_delete wo k l).2 = l_view l ∨ l_view (l_delete wo k l).2 = delete k (l_view l);
  l_write_ok wo ops l : (l_write wo ops l).1 = None → l_view (l_write wo ops l).2 = foldl apply_op (l_view l) ops;
  l_write_atomic wo ops l :
    l_view (l_write wo ops l).2 = l_view l ∨ l_view (l_write wo ops l).2 = foldl apply_op (l_view l) ops;
  l_range_elem s e l k v : (k, v) ∈ l_range s e l
    ↔ l_view l !! k = Some v ∧ bytes_le s k = true ∧ bytes_lt k e = true }.

(** ** Batches *)

(** A batch: [Some None] marks a deletion. *)
Abbreviation UpdateBatch := (gmap bytes (option bytes)).

Definition NewUpdateBatch : UpdateBatch := ∅.
(** [None] is the panic on a nil value. *)
Definition batch_Put (key : bytes) (value : option bytes) (batch : UpdateBatch) : option UpdateBatch :=
  match value with None => None | Some v => Some (<[key := Some v]> batch) end.
Definition batch_Delete (key : bytes) (batch : UpdateBatch) : UpdateBatch := <[key := None]> batch.
Definition batch_Len (batch : UpdateBatch) : nat := size batch.

Section handles.
Context {L : Type} `{LevelLaws L}.

(** ** The wrapper [DB] *)

Definition DB_Get (key : bytes) (l : L) : go_error + bytes := l_get key l.
Definition DB_Put (key value : bytes) (l : L) : option go_error * L := l_put writeOptsSync key value l.
Definition DB_Delete (key : bytes) (l : L) : option go_error * L := l_delete writeOptsSync key l.
Definition DB_GetIterator (startKey endKey : bytes) (l : L) : list (bytes * bytes) :=
  l_range startKey endKey l.
Definition DB_WriteBatch (batch : list (bytes * option bytes)) (sync : bool) (l : L)
    : option go_error * L :=
  let wo := if sync then writeOptsSync else writeOptsNoSync in
  l_write wo batch l.

(** ** Handles

    [DBHandle.Get], [Put], [Delete], [WriteBatch], [GetIterator] of the handle
    for [name]; the order in which a batch is visited is immaterial. *)
Definition Get (name key : bytes) (l : L) : go_error + bytes := DB_Get (constructLevelKey name key) l.
Definition Put (name key value : bytes) (l : L) : option go_error * L :=
  DB_Put (constructLevelKey name key) value l.
Definition Delete (name key : bytes) (l : L) : option go_error * L :=
  DB_Delete (constructLevelKey name key) l.

Definition level_batch (name : bytes) (batch : UpdateBatch) : list (bytes * option bytes) :=
  (λ e, (constructLevelKey name e.1, e.2)) <$> map_to_list batch.

Definition WriteBatch (name : bytes) (batch : UpdateBatch) (sync : bool) (l : L) : option go_error * L :=
  if decide (batch_Len batch = 0)%nat then (None, l) else DB_WriteBatch (level_batch name batch) sync l.

(** A nil key reads as empty; a nil end key ends at the next name. *)
Definition GetIterator (name : bytes) (startKey endKey : option bytes) (l : L) : list (bytes * bytes) :=
  let sKey := constructLevelKey name (default [] startKey) in
  let eKey := match endKey with
              | Some k => constructLevelKey name k
              | None => name ++ [lastKeyIndicator]
              end in
  DB_GetIterator sKey eKey l.

(** [Iterator.Key] of each entry. *)
Definition iterator_keys (it : list (bytes * bytes)) : list (option bytes) :=
  (λ e, retrieveAppKey e.1) <$> it.

(** ** Lemmas on keys *)

(** A name that can be told from the key that follows it. *)
Definition name_ok (name : bytes) : Prop := dbNameKeySep ∉ name.

Lemma retrieve_construct name key : name_ok name → retrieveAppKey (constructLevelKey name key) = Some key.
Proof.
  unfold name_ok, constructLevelKey. induction name as [|b name IH]; intros Hn; simpl; [done|].
  apply not_elem_of_cons in Hn as [Hb Hn]. rewrite decide_False by auto. by apply IH.
Qed.

Lemma construct_inj name name' key key' :
  name_ok name → name_ok name' →
  constructLevelKey name key = constructLevelKey name' key' → name = name' ∧ key = key'.
Proof.
  intros Hn Hn' Heq. assert (Hk : key = key').
  { pose proof (retrieve_construct name key Hn) as H1. rewrite Heq, retrieve_construct in H1 by done.
    by injection H1 as ->. }
  subst. unfold constructLevelKey in Heq. rewrite !app_assoc in Heq.
  apply app_inv_tail in Heq. by apply app_inj_tail in Heq as [-> _].
Qed.

Lemma bytes_lt_app p a b : bytes_lt (p ++ a) (p ++ b) = bytes_lt a b.
Proof. induction p as [|x p IH]; simpl; [done|]. by rewrite decide_False, decide_True by (done || lia). Qed.

Lemma bytes_le_app p a b : bytes_le (p ++ a) (p ++ b) = bytes_le a b.
Proof. unfold bytes_le. by rewrite bytes_lt_app. Qed.

Lemma byte_zero x : ¬ (byte_to_Z x < byte_to_Z lastKeyIndicator)%Z ∨ x = dbNameKeySep.
Proof.
  destruct (decide (x = dbNameKeySep)) as [Hx|Hx]; [by right|left].
  intros Hlt. apply Hx. apply (inj byte_to_Z). pose proof (byte_to_Z_range x).
  change (byte_to_Z lastKeyIndicator) with 1%Z in Hlt. change (byte_to_Z dbNameKeySep) with 0%Z. lia.
Qed.

(** The keys between [name 00] and [name 01] are those that extend [name 00]. *)
Lemma in_name_range name k :
  bytes_le (name ++ [dbNameKeySep]) k = true → bytes_lt k (name ++ [lastKeyIndicator]) = true →
  ∃ key, k = constructLevelKey name key.
Proof.
  unfold bytes_le, constructLevelKey. revert k. induction name as [|x name IH]; intros [|y k] Hs He; simpl in *.
  - done.
  - destruct (byte_zero y) as [Hy|Hy]; [|exists k; by rewrite Hy].
    rewrite decide_False in He by done. case_decide; [by destruct k|done].
  - done.
  - destruct (decide (byte_to_Z y < byte_to_Z x)%Z) as [Hlt|Hge]; [done|].
    destruct (decide (y = x)) as [->|Hne]; [|done].
    destruct (IH k Hs He) as [key ->]. by exists key.
Qed.

Lemma in_name_range_2 name key :
  bytes_le (name ++ [dbNameKeySep]) (constructLevelKey name key) = true
  ∧ bytes_lt (constructLevelKey name key) (name ++ [lastKeyIndicator]) = true.
Proof. unfold constructLevelKey. rewrite bytes_le_app, bytes_lt_app. by destruct key. Qed.

Lemma bytes_le_nil k : bytes_le [] k = true.
Proof. by destruct k. Qed.

Lemma bytes_lt_trans a : ∀ b c, bytes_lt a b = true → bytes_lt b c = true → bytes_lt a c = true.
Proof.
  induction a as [|x a IH]; intros [|y b] [|z c]; simpl; try done.
  repeat case_decide; subst; try done; try lia; eauto.
Qed.

Lemma bytes_lt_total a : ∀ b, bytes_lt a b = true ∨ a = b ∨ bytes_lt b a = true.
Proof.
  induction a as [|x a IH]; intros [|y b]; simpl; [by right; left|by left|by right; right|].
  assert (Heq : byte_to_Z x = byte_to_Z y → x = y) by apply (inj byte_to_Z).
  destruct (IH b) as [? | [-> | ?]]; repeat case_decide; subst; try congruence; auto;
    (exfalso; assert (x = y) by (apply Heq; lia); congruence).
Qed.

Lemma bytes_le_lt_trans a b c : bytes_le a b = true → bytes_lt b c = true → bytes_lt a c = true.
Proof.
  unfold bytes_le. rewrite negb_true_iff. intros Hab Hbc.
  destruct (bytes_lt_total a b) as [Hlt|[->|Hlt]]; [by eapply bytes_lt_trans|done|congruence].
Qed.

Lemma bytes_le_trans a b c : bytes_le a b = true → bytes_le b c = true → bytes_le a c = true.
Proof.
  unfold bytes_le. rewrite !negb_true_iff. intros Hab Hbc. apply not_true_iff_false. intros Hca.
  destruct (bytes_lt_total a b) as [Hlt|[->|Hlt]]; [|congruence..].
  rewrite (bytes_lt_trans c a b) in Hbc by done. done.
Qed.

(** The entries of the handle [name]. *)
Definition contents (name : bytes) (l : L) (key : bytes) : option bytes :=
  l_view l !! constructLevelKey name key.

(** ** Properties *)

(** What a read says of the key, if it says something: its value, or that it
    is missing. *)
Definition answer (r : go_error + bytes) : option (option bytes) :=
  match r with
  | inr v => Some (Some v)
  | inl e => if decide (e = ErrKeyNotFound "") then Some None else None
  end.

Lemma Get_answer name key l a : answer (Get name key l) = Some a → contents name l key = a.
Proof.
  unfold contents, answer. destruct (Get name key l) as [e|v] eqn:Hg.
  - case_decide as He; [|done]. subst e. intros [= <-]. by apply l_get_missing.
  - intros [= <-]. by apply l_get_found.
Qed.

Lemma construct_ne name name' key key' :
  name_ok name → name_ok name' → ¬ (name' = name ∧ key' = key) →
  constructLevelKey name key ≠ constructLevelKey name' key'.
Proof. intros Hn Hn' Hne Heq. apply construct_inj in Heq as [-> ->]; [|done..]. by apply Hne. Qed.

(** C35 Named databases do not interfere.  For names without the byte 0x00, which
    separates name and key: after a [Put] or [Delete] that reports no error, a
    read of that key through the same handle that says something says the value
    put, or that the key is missing; and after any [Put] or [Delete], whether or
    not it reports an error, a read of any other key through that handle, or of
    any key through a handle with another name, that says something says what
    the key held before.  (A read may also fail and say nothing; names with 0x00
    do collide, [zero_names_collide].) *)
Theorem handles_isolated name name' key key' v l :
  name_ok name → name_ok name' →
  let same := name' = name ∧ key' = key in
  (∀ a, answer (Get name' key' (Put name key v l).2) = Some a →
     (same → (Put name key v l).1 = None → a = Some v) ∧ (¬ same → a = contents name' l key'))
  ∧ (∀ a, answer (Get name' key' (Delete name key l).2) = Some a →
     (same → (Delete name key l).1 = None → a = None) ∧ (¬ same → a = contents name' l key')).
Proof.
  intros Hn Hn' same. unfold same. split; intros a <-%Get_answer; unfold contents; (split; [intros [-> ->] Hok|intros Hne]).
  - unfold Put, DB_Put in *. rewrite (l_put_ok _ _ _ _ Hok). apply lookup_insert_eq.
  - pose proof (construct_ne name name' key key' Hn Hn' Hne).
    destruct (l_put_atomic writeOptsSync (constructLevelKey name key) v l) as [He|He]; unfold Put, DB_Put; rewrite He;
      [done|by rewrite lookup_insert_ne].
  - unfold Delete, DB_Delete in *. rewrite (l_delete_ok _ _ _ Hok). apply lookup_delete_eq.
  - pose proof (construct_ne name name' key key' Hn Hn' Hne).
    destruct (l_delete_atomic writeOptsSync (constructLevelKey name key) l) as [He|He]; unfold Delete, DB_Delete; rewrite He;
      [done|by rewrite lookup_delete_ne].
Qed.

(** Names with the separator collide: what is put under the key [b 00 c] of the
    database [a] is what the database [a 00 b] holds under [c]. *)
Theorem zero_names_collide (a b c v : bytes) l :
  (Put a (b ++ [dbNameKeySep] ++ c) v l).1 = None →
  contents (a ++ [dbNameKeySep] ++ b) (Put a (b ++ [dbNameKeySep] ++ c) v l).2 c = Some v.
Proof.
  intros Hok. unfold contents, Put, DB_Put in *. rewrite (l_put_ok _ _ _ _ Hok).
  unfold constructLevelKey. rewrite <-!app_assoc. apply lookup_insert_eq.
Qed.

Lemma foldl_ops_notin m ops k : k ∉ ops.*1 → foldl apply_op m ops !! k = m !! k.
Proof.
  revert m. induction ops as [|[k' o] ops IH]; intros m Hk; simpl; [done|].
  apply not_elem_of_cons in Hk as [Hne Hk]. rewrite IH by done. unfold apply_op. simpl in *.
  destruct o; [by rewrite lookup_insert_ne by auto|by rewrite lookup_delete_ne by auto].
Qed.

Lemma foldl_ops m ops k o :
  NoDup ops.*1 → (k, o) ∈ ops → foldl apply_op m ops !! k = o.
Proof.
  revert m. induction ops as [|[k' o'] ops IH]; intros m Hnd Hin; [by apply not_elem_of_nil in Hin|].
  simpl in Hnd. apply NoDup_cons in Hnd as [Hni Hnd]. simpl.
  apply elem_of_cons in Hin as [Heq|Hin]; [|by apply IH].
  injection Heq as -> ->. rewrite foldl_ops_notin by done. unfold apply_op. simpl.
  destruct o'; [apply lookup_insert_eq|apply lookup_delete_eq].
Qed.

Lemma level_batch_nodup name batch : name_ok name → NoDup (level_batch name batch).*1.
Proof.
  intros Hn. assert (Hk : (level_batch name batch).*1 = constructLevelKey name <$> (map_to_list batch).*1).
  { unfold level_batch. by rewrite <-!list_fmap_compose. }
  rewrite Hk. apply NoDup_fmap_2; [|apply NoDup_fst_map_to_list].
  intros k1 k2 Heq. by apply (construct_inj name name) in Heq as [_ ->].
Qed.

(** The entries of the handle after a batch. *)
Lemma level_batch_contents (name key : bytes) (batch : UpdateBatch) (m : gmap bytes bytes) :
  name_ok name →
  foldl apply_op m (level_batch name batch) !! constructLevelKey name key
  = match batch !! key with Some o => o | None => m !! constructLevelKey name key end.
Proof.
  intros Hn. destruct (batch !! key) as [o|] eqn:Hb.
  - apply foldl_ops; [by apply level_batch_nodup|]. apply list_elem_of_fmap.
    exists (key, o). split; [done|]. by apply elem_of_map_to_list.
  - apply foldl_ops_notin. intros Hin. apply list_elem_of_fmap in Hin as ([k o] & Hk & Hin).
    apply list_elem_of_fmap in Hin as ([k' o'] & Heq & Hin). injection Heq as -> ->. simpl in Hk.
    apply (construct_inj name name) in Hk as [_ <-]; [|done..].
    apply elem_of_map_to_list in Hin. congruence.
Qed.

(** Batches are atomic: a batch without error leaves every key it puts with
    its value, every key it deletes absent, and every other key of the handle
    as it was; one that reports an error has done that, or nothing. *)
Theorem WriteBatch_atomic name batch sync l :
  name_ok name →
  let after key := match batch !! key with Some o => o | None => contents name l key end in
  let out := WriteBatch name batch sync l in
  (out.1 = None → ∀ key, contents name out.2 key = after key)
  ∧ ((∀ key, contents name out.2 key = contents name l key) ∨ ∀ key, contents name out.2 key = after key).
Proof.
  intros Hn after out. unfold out, after, WriteBatch. case_decide as Hlen.
  { apply map_size_empty_iff in Hlen. subst batch. split; [intros _ key; by rewrite lookup_empty|by left]. }
  unfold contents, DB_WriteBatch. split.
  - intros Hok key. rewrite (l_write_ok _ _ _ Hok). by apply level_batch_contents.
  - destruct (l_write_atomic (if sync then writeOptsSync else writeOptsNoSync) (level_batch name batch) l) as [He|He];
      [left|right]; intros key; rewrite He; [done|]. by apply level_batch_contents.
Qed.

(** Iterators see one database: an iterator of a handle returns exactly the
    handle's entries from the start key, inclusive, to the end key, exclusive,
    a nil bound being no bound; no entry of another database, and each under
    its own key. *)
Theorem GetIterator_range name startKey endKey l key v :
  name_ok name →
  (∃ k, (k, v) ∈ GetIterator name startKey endKey l ∧ retrieveAppKey k = Some key)
  ↔ contents name l key = Some v ∧ bytes_le (default [] startKey) key = true
    ∧ match endKey with Some e => bytes_lt key e = true | None => True end.
Proof.
  intros Hn. unfold GetIterator, DB_GetIterator, contents.
  assert (Hlo : ∀ s, bytes_le (constructLevelKey name s) (constructLevelKey name key) = bytes_le s key).
  { intros s. unfold constructLevelKey. by rewrite !bytes_le_app. }
  assert (Hhi : ∀ e, bytes_lt (constructLevelKey name key) (constructLevelKey name e) = bytes_lt key e).
  { intros e. unfold constructLevelKey. by rewrite !bytes_lt_app. }
  assert (Hmin : ∀ s, bytes_le (name ++ [dbNameKeySep]) (constructLevelKey name s) = true)
    by (intros s; apply in_name_range_2).
  split.
  - intros (k & Hin & Hk). apply l_range_elem in Hin as (Hv & Hs & He).
    assert (Hk' : k = constructLevelKey name key); [|subst; split_and!; [done|by rewrite <-Hlo|]].
    + destruct (in_name_range name k) as [key' ->].
      * by eapply bytes_le_trans.
      * destruct endKey as [e|]; [|done]. eapply bytes_lt_trans; [exact He|apply in_name_range_2].
      * rewrite retrieve_construct in Hk by done. by injection Hk as ->.
    + destruct endKey; [by rewrite <-Hhi|done].
  - intros (Hv & Hs & He). exists (constructLevelKey name key).
    rewrite retrieve_construct, l_range_elem, Hlo by done. split_and!; [done..| |done].
    destruct endKey; [by rewrite Hhi|apply in_name_range_2].
Qed.

End handles.

(** ** Witnesses: a map as engine *)

Module ToyLevel.

Definition range (s e : bytes) (m : gmap bytes bytes) : list (bytes * bytes) :=
  filter (λ kv, bytes_le s kv.1 = true ∧ bytes_lt kv.1 e = true) (map_to_list m).

#[export] Instance engine : LevelDB (gmap bytes bytes) := {|
  l_get k m := match m !! k with Some v => inr v | None => inl (ErrKeyNotFound "") end;
  l_put _ k v m := (None, <[k := v]> m);
  l_delete _ k m := (None, delete k m);
  l_write _ ops m := (None, foldl apply_op m ops);
  l_range := range |}.

#[export, refine] Instance laws : LevelLaws (gmap bytes bytes) := {| l_view m := m |}.
Proof.
  - intros k v m Hg. simpl in Hg. destruct (m !! k); [|done]. by injection Hg as ->.
  - intros k m Hg. simpl in Hg. by destruct (m !! k).
  - done.
  - by right.
  - done.
  - by right.
  - done.
  - by right.
  - intros s e m k v. simpl. unfold range. rewrite list_elem_of_filter, elem_of_map_to_list. simpl. tauto.
Defined.

Definition store : gmap bytes bytes :=
  {[constructLevelKey [x61] [x31] := [x0a]; constructLevelKey [x61; x62] [x31] := [x0b]]}.

Lemma name_a : name_ok [x61].
Proof. apply (bool_decide_unpack _). vm_compute. done. Qed.
Lemma name_ab : name_ok [x61; x62].
Proof. apply (bool_decide_unpack _). vm_compute. done. Qed.

End ToyLevel.
Import ToyLevel.

Lemma handles_isolated_witness :
  answer (Get [x61; x62] [x31] (Put [x61] [x31] [x0c] ToyLevel.store).2) = Some (Some [x0b])
  ∧ Some [x0b] = contents [x61; x62] ToyLevel.store [x31].
Proof.
  split; [vm_compute; reflexivity|].
  apply (handles_isolated [x61] [x61; x62] [x31] [x31] [x0c] ToyLevel.store ToyLevel.name_a ToyLevel.name_ab).
  - vm_compute. reflexivity.
  - intros [Hx _]. discriminate Hx.
Defined.

Lemma WriteBatch_atomic_witness :
  contents [x61] (WriteBatch [x61] {[[x31] := None; [x32] := Some [x0d]]} true ToyLevel.store).2 [x31] = None.
Proof.
  rewrite (proj1 (WriteBatch_atomic [x61] {[[x31] := None; [x32] := Some [x0d]]} true ToyLevel.store ToyLevel.name_a)).
  - vm_compute. reflexivity.
  - reflexivity.
Defined.

Lemma GetIterator_range_witness :
  ∃ k, (k, [x0a]) ∈ GetIterator [x61] None None ToyLevel.store ∧ retrieveAppKey k = Some [x31].
Proof.
  apply (GetIterator_range [x61] None None ToyLevel.store [x31] [x0a] ToyLevel.name_a).
  split; [vm_compute; reflexivity|]. split; [reflexivity|exact I].
Defined.
