(* ===== verification/LevelProvider.v ===== *)
(** * Opening databases ([common/db/leveldb/leveldb.go], [provider.go])

    The life cycle of the wrapper [DB], the provider's table of handles, and
    [FileLock], which uses an open LevelDB as a lock.  [leveldb.OpenFile] and
    [Close] are a parameter ([LevelDisk]); its documented behaviour is that an
    open database holds the lock of its directory until it is closed, and that
    opening a directory whose lock is held fails with [EAGAIN]. *)

From stdpp Require Import base numbers fin_maps gmap sets strings list.
From S2P Require Import Prelude GoMonad Filesystem Logging.

Record World (D : Type) := MkWorld { w_fs : FS; w_disk : D }.
Arguments MkWorld {D}.
Arguments w_fs {D}.
Arguments w_disk {D}.

(** Open databases are named by handles; the flag is [ErrorIfMissing]. *)
Class LevelDisk (D : Type) := {
  OpenFile : string → bool → World D → (go_error + nat) * World D;
  CloseFile : nat → World D → option go_error * World D }.

Class LevelDiskLaws (D : Type) `{LevelDisk D} := {
  (** The open database that holds a directory's lock. *)
  holder : D → cpath → option nat;
  open_law path missing w :
    match OpenFile path missing w with
    | (inr h, w') =>
        holder (w_disk w) (clean path) = None ∧ (∀ q, holder (w_disk w) q ≠ Some h)
        ∧ ∀ q, holder (w_disk w') q = if decide (q = clean path) then Some h else holder (w_disk w) q
    | (inl e, w') =>
        (∀ q, holder (w_disk w') q = holder (w_disk w) q)
        ∧ (is_Some (holder (w_disk w) (clean path)) → e = EAGAIN)
    end;
  close_law h w :
    match CloseFile h w with
    | (None, w') => ∀ q, holder (w_disk w') q
        = if decide (holder (w_disk w) q = Some h) then None else holder (w_disk w) q
    | (Some _, w') => ∀ q, holder (w_disk w') q = holder (w_disk w) q
    end }.

Section leveldb.
Context {D : Type} `{LevelDiskLaws D} (env : FSEnv).

(** An object and the world it acts on. *)
Definition on_world {O A : Type} (m : M FS A) : M (O * World D) A := λ ow,
  let '(r, fs) := m (w_fs ow.2) in (r, (ow.1, MkWorld fs (w_disk ow.2))).

Definition open_file {O : Type} (path : string) (missing : bool) : M (O * World D) (go_error + nat) := λ ow,
  let '(r, w) := OpenFile path missing ow.2 in (Ok r, (ow.1, w)).

Definition close_file {O : Type} (h : nat) : M (O * World D) (option go_error) := λ ow,
  let '(r, w) := CloseFile h ow.2 in (Ok r, (ow.1, w)).

Definition set_obj {O : Type} (f : O → O) : M (O * World D) unit := modify (λ ow, (f ow.1, ow.2)).

(** ** The wrapper *)

Inductive dbState := closed | opened.

Record DB := MkDB { DBPath : string; db : option nat; state : dbState }.

Definition set_db (h : option nat) (d : DB) : DB := MkDB (DBPath d) h (state d).
Definition set_state (st : dbState) (d : DB) : DB := MkDB (DBPath d) (db d) st.

Definition CreateDB {S : Type} (exe : go_error + string) : M S DB :=
  cur ← GetCurrentPath exe;
  mret (MkDB (Join [cur; "dbdata"]) None closed).

Definition Open : M (DB * World D) unit :=
  d ← gets fst;
  match state d with
  | opened => mret tt
  | closed =>
      r ← try (on_world (CreateDirIfMissing env (DBPath d)));
      match r with
      | inl _ => panic
      | inr dirEmpty =>
          h ← open_file (DBPath d) (negb dirEmpty);
          match h with
          | inl _ => _ ← set_obj (set_db None); panic
          | inr h => _ ← set_obj (set_db (Some h)); set_obj (set_state opened)
          end
      end
  end.

(** A failure to close is logged, and the database counts as closed. *)
Definition Close : M (DB * World D) unit :=
  d ← gets fst;
  match state d with
  | closed => mret tt
  | opened =>
      h ← orPanic (db d);
      _ ← close_file h;
      set_obj (set_state closed)
  end.

(** ** The provider *)

(** Handles are pointers; [handles] is what they point to: a database name. *)
Record Provider := MkProvider { p_db : DB; dbHandles : gmap string nat; handles : list string }.

Definition NewProvider (exe : go_error + string) : M (World D) Provider := λ w,
  match CreateDB exe w with
  | (Ok d, w) =>
      match Open (d, w) with
      | (Ok _, (d, w)) => (Ok (MkProvider d ∅ []), w)
      | (Fail e, (_, w)) => (Fail e, w)
      | (Panic, (_, w)) => (Panic, w)
      | (Park x, (_, w)) => (Park x, w)
      end
  | (Fail e, w) => (Fail e, w)
  | (Panic, w) => (Panic, w)
  | (Park x, w) => (Park x, w)
  end.

Definition GetDBHandle (dbName : string) : M Provider nat :=
  t ← gets dbHandles;
  match t !! dbName with
  | Some dbHandle => mret dbHandle
  | None =>
      hs ← gets handles;
      _ ← modify (λ p, MkProvider (p_db p) (<[dbName := length hs]> (dbHandles p)) (hs ++ [dbName]));
      mret (length hs)
  end.

(** [DBHandle.Close] closes the database all handles share. *)
Definition handle_Close : M (Provider * World D) unit := λ pw,
  let '(r, (d, w)) := Close (p_db pw.1, pw.2) in
  (r, (MkProvider d (dbHandles pw.1) (handles pw.1), w)).

(** ** The file lock *)

Record FileLock := MkFileLock { fl_db : option nat; filePath : string }.

Definition NewFileLock (path : string) : FileLock := MkFileLock None path.

Definition set_fl (h : option nat) (f : FileLock) : FileLock := MkFileLock h (filePath f).

Definition Lock : M (FileLock * World D) unit :=
  f ← gets fst;
  r ← try (on_world (CreateDirIfMissing env (filePath f)));
  match r with
  | inl _ => panic
  | inr dirEmpty =>
      h ← open_file (filePath f) (negb dirEmpty);
      match h with
      | inr h => set_obj (set_fl (Some h))
      | inl e =>
          _ ← set_obj (set_fl None);
          if decide (e = EAGAIN) then fail (ErrLockHeld (filePath f)) else panic
      end
  end.

Definition Unlock : M (FileLock * World D) unit :=
  f ← gets fst;
  match fl_db f with
  | None => mret tt
  | Some h =>
      e ← close_file h;
      match e with
      | Some _ => mret tt
      | None => set_obj (set_fl None)
      end
  end.

(** ** Lemmas *)

Lemma mkdirs_no_park r rest : ∀ pre fs x fs', mkdirs env r pre rest fs ≠ (Park x, fs').
Proof.
  induction rest as [|y rest IH]; intros pre fs x fs'; [done|].
  cbn [mkdirs]. unfold get_st. unfold mbind at 1, M_bind at 1.
  destruct (node_at fs _) as [[|]|]; [apply IH|done|].
  destruct (mkdir_denied env _); [done|]. rewrite run_modify. apply IH.
Qed.

Lemma CreateDir_no_park path fs x fs' : CreateDirIfMissing env path fs ≠ (Park x, fs').
Proof.
  unfold CreateDirIfMissing, MkdirAll, try. cbv zeta. unfold mbind at 1, M_bind at 1.
  destruct (mkdirs env _ _ _ fs) as [[u|e| |y] fs1] eqn:E; try done.
  - unfold DirEmpty, get_st. unfold mbind, M_bind. destruct (node_at fs1 _) as [n|]; [|done].
    destruct (open_denied env _); [done|]. destruct (close_fails env); [done|]. by destruct n.
  - by apply mkdirs_no_park in E.
Qed.

(** Making a directory does not touch the locks. *)
Lemma try_CreateDir {O : Type} path (o : O) (w : World D) :
  ∃ w1, w_disk w1 = w_disk w
    ∧ (try (on_world (CreateDirIfMissing env path)) (o, w) = (Panic, (o, w1))
       ∨ ∃ r, try (on_world (CreateDirIfMissing env path)) (o, w) = (Ok r, (o, w1))).
Proof.
  pose proof (CreateDir_no_park path (w_fs w)) as Hp. unfold try, on_world. cbn [fst snd].
  destruct (CreateDirIfMissing env path (w_fs w)) as [[b|e| |x] fs]; [..|by destruct (Hp x fs)];
    exists (MkWorld fs (w_disk w)); eauto.
Qed.

Definition same_locks (w w' : World D) : Prop := ∀ q, holder (w_disk w') q = holder (w_disk w) q.

Lemma Lock_cases f w :
  match Lock (f, w) with
  | (Ok _, (f', w')) =>
      ∃ h, f' = set_fl (Some h) f ∧ holder (w_disk w) (clean (filePath f)) = None
        ∧ (∀ q, holder (w_disk w) q ≠ Some h)
        ∧ ∀ q, holder (w_disk w') q
               = if decide (q = clean (filePath f)) then Some h else holder (w_disk w) q
  | (Fail e, (f', w')) => e = ErrLockHeld (filePath f) ∧ f' = set_fl None f ∧ same_locks w w'
  | (Panic, (f', w')) => (f' = f ∨ f' = set_fl None f) ∧ same_locks w w'
      ∧ (f' = set_fl None f → f' ≠ f → holder (w_disk w) (clean (filePath f)) = None)
  | (Park _, _) => False
  end.
Proof.
  unfold Lock. rewrite run_gets. cbn [fst].
  destruct (try_CreateDir (filePath f) f w) as (w1 & Hd & [Hr | [r Hr]]);
    unfold mbind at 1, M_bind at 1; rewrite Hr.
  { split; [by left|]. split; [intros q; by rewrite Hd|]. done. }
  assert (Hs : same_locks w w1) by (intros q; by rewrite Hd).
  destruct r as [e|b]; [split; [by left|done]|].
  unfold open_file. unfold mbind, M_bind. cbn [fst snd].
  pose proof (open_law (filePath f) (negb b) w1) as Ho.
  destruct (OpenFile (filePath f) (negb b) w1) as [[e|h] w2]; simpl.
  - destruct Ho as [Hq He]. assert (Hs2 : same_locks w w2) by (intros q; by rewrite Hq, Hs).
    case_decide as Hag; simpl; [done|]. split; [by right|]. split; [done|].
    intros _ _. apply eq_None_not_Some. intros Hh. apply Hag, He. by rewrite Hs.
  - destruct Ho as (Hn & Hf & Hq). exists h. split; [done|]. split; [by rewrite <-Hs|].
    split; [intros q; rewrite <-Hs; apply Hf|]. intros q. rewrite Hq, Hs. done.
Qed.

Lemma Unlock_cases f w :
  match Unlock (f, w) with
  | (Ok _, (f', w')) =>
      (f' = f ∧ same_locks w w')
      ∨ ∃ h, fl_db f = Some h ∧ f' = set_fl None f
          ∧ ∀ q, holder (w_disk w') q
                 = if decide (holder (w_disk w) q = Some h) then None else holder (w_disk w) q
  | _ => False
  end.
Proof.
  unfold Unlock. rewrite run_gets. cbn [fst]. destruct (fl_db f) as [h|] eqn:Hf; [|by left].
  unfold close_file. unfold mbind, M_bind. cbn [fst snd]. pose proof (close_law h w) as Hc.
  destruct (CloseFile h w) as [[e|] w']; simpl; [by left|]. right. by exists h.
Qed.

(** ** Lock objects used concurrently *)

(** Any number of lock objects, in this process or others, used in any order. *)
Abbreviation locks := (gmap nat FileLock * World D)%type.

Inductive lock_step : relation locks :=
| step_Lock i f ls w r f' w' :
    ls !! i = Some f → Lock (f, w) = (r, (f', w')) → lock_step (ls, w) (<[i := f']> ls, w')
| step_Unlock i f ls w r f' w' :
    ls !! i = Some f → Unlock (f, w) = (r, (f', w')) → lock_step (ls, w) (<[i := f']> ls, w').

Definition holds (s : locks) (i : nat) (p : cpath) : Prop :=
  ∃ f, s.1 !! i = Some f ∧ clean (filePath f) = p ∧ is_Some (fl_db f).

Record lock_inv (s : locks) : Prop := {
  inv_holder i f h : s.1 !! i = Some f → fl_db f = Some h →
    holder (w_disk s.2) (clean (filePath f)) = Some h;
  inv_handle q q' h : holder (w_disk s.2) q = Some h → holder (w_disk s.2) q' = Some h → q = q';
  inv_unique i j p : holds s i p → holds s j p → i = j }.

Lemma holds_insert ls w i f j p :
  holds (<[i := f]> ls, w) j p →
  (j = i ∧ clean (filePath f) = p ∧ is_Some (fl_db f)) ∨ (j ≠ i ∧ ∀ w', holds (ls, w') j p).
Proof.
  intros (g & Hg & Hp & Hd). simpl in Hg. destruct (decide (j = i)) as [->|Hne].
  - rewrite lookup_insert_eq in Hg. injection Hg as <-. by left.
  - rewrite lookup_insert_ne in Hg by done. right. split; [done|]. intros w'. by exists g.
Qed.

(** The object [i] changes to [f'], which holds nothing it did not hold; the
    other objects' locks are as before. *)
Lemma lock_inv_change ls w i f f' w' :
  lock_inv (ls, w) → ls !! i = Some f → filePath f' = filePath f →
  (∀ h, fl_db f' = Some h → fl_db f = Some h) →
  same_locks w w' → lock_inv (<[i := f']> ls, w').
Proof.
  intros [Hh Hi Hu] Hf Hp Hd Hs. split; simpl in *.
  - intros j g h Hg Hgh. rewrite Hs. destruct (decide (j = i)) as [->|Hne].
    + rewrite lookup_insert_eq in Hg. injection Hg as <-. rewrite Hp. by apply (Hh i f), Hd.
    + rewrite lookup_insert_ne in Hg by done. by apply (Hh j).
  - intros q q' h. rewrite !Hs. apply Hi.
  - assert (Hold : ∀ j p, holds (<[i := f']> ls, w') j p → holds (ls, w) j p).
    { intros j p [(-> & <- & h & Hdb)|[_ Hj]]%holds_insert; [|apply Hj].
      exists f. rewrite Hp. split; [done|]. split; [done|]. exists h. by apply Hd. }
    intros j k p Hj Hk. by apply (Hu j k p); apply Hold.
Qed.

Lemma lock_step_inv s s' : lock_inv s → lock_step s s' → lock_inv s'.
Proof.
  intros Hinv Hstep. destruct Hstep as [i f ls w r f' w' Hf Hr|i f ls w r f' w' Hf Hr].
  - pose proof (Lock_cases f w) as Hc. rewrite Hr in Hc. destruct r as [u|e| |x]; [| | |done].
    + destruct Hc as (h & -> & Hfree & Hfresh & Hw). destruct Hinv as [Hh Hi Hu]. simpl in *.
      assert (Hnone : ∀ j g h', ls !! j = Some g → fl_db g = Some h' →
                clean (filePath g) ≠ clean (filePath f)).
      { intros j g h' Hg Hgh Heq. specialize (Hh j g h' Hg Hgh). rewrite Heq in Hh. congruence. }
      split; simpl.
      * intros j g h' Hg Hgh. rewrite Hw. destruct (decide (j = i)) as [->|Hne].
        -- rewrite lookup_insert_eq in Hg. injection Hg as <-. injection Hgh as <-.
           by rewrite decide_True.
        -- rewrite lookup_insert_ne in Hg by done. rewrite decide_False by (by eapply Hnone). by apply (Hh j).
      * intros q q' h'. rewrite !Hw. repeat case_decide; subst; try done; try apply Hi;
          intros Ha Hb; simplify_eq; by destruct (Hfresh _ ltac:(eassumption)).
      * intros j k p [(-> & <- & _)|[Hj Hj']]%holds_insert [(-> & Hp & _)|[Hk Hk']]%holds_insert; try done.
        -- destruct (Hk' w) as (g & Hg & Hp & h' & Hd). by destruct (Hnone k g h' Hg Hd).
        -- subst. destruct (Hj' w) as (g & Hg & Hp & h' & Hd). by destruct (Hnone j g h' Hg Hd).
        -- by apply (Hu j k p).
    + destruct Hc as (_ & -> & Hs). eapply lock_inv_change; try done.
    + destruct Hc as ([-> | ->] & Hs & _); (eapply lock_inv_change; try done).
  - pose proof (Unlock_cases f w) as Hc. rewrite Hr in Hc. destruct r as [u|e| |x]; try done.
    destruct Hc as [[-> Hs] | (h & Hfh & -> & Hw)]; [by eapply lock_inv_change|].
    destruct Hinv as [Hh Hi Hu]. simpl in *. pose proof (Hh i f h Hf Hfh) as Hown.
    split; simpl.
    + intros j g h' Hg Hgh. rewrite Hw. destruct (decide (j = i)) as [->|Hne].
      * rewrite lookup_insert_eq in Hg. injection Hg as <-. done.
      * rewrite lookup_insert_ne in Hg by done. pose proof (Hh j g h' Hg Hgh) as Hj.
        rewrite decide_False; [done|]. intros Heq. apply Hne.
        assert (clean (filePath g) = clean (filePath f)) as Hp by (by eapply Hi).
        apply (Hu j i (clean (filePath f))); [exists g|exists f]; eauto.
    + intros q q' h'. rewrite !Hw. repeat case_decide; try done. apply Hi.
    + intros j k p [(-> & _ & Hd)|[Hj Hj']]%holds_insert [(-> & _ & Hd')|[Hk Hk']]%holds_insert; try done.
      * by destruct Hd.
      * by destruct Hd'.
      * by apply (Hu j k p).
Qed.

(** Mutual exclusion: whatever lock objects are made and however their
    [Lock] and [Unlock] calls are interleaved, no two objects ever hold the
    lock of one directory, and an object that holds it keeps every other
    object's [Lock] from succeeding. *)
Theorem FileLock_exclusive (paths : gmap nat string) (w : World D) s :
  (∀ q q' h, holder (w_disk w) q = Some h → holder (w_disk w) q' = Some h → q = q') →
  rtc lock_step (NewFileLock <$> paths, w) s →
  (∀ i j p, holds s i p → holds s j p → i = j)
  ∧ ∀ i j f p, holds s i p → s.1 !! j = Some f → clean (filePath f) = p →
      ∃ f' w', Lock (f, s.2) = (Fail (ErrLockHeld (filePath f)), (f', w'))
               ∨ Lock (f, s.2) = (Panic, (f', w')).
Proof.
  intros Hinj Hs.
  assert (Hinv : lock_inv s).
  { assert (Hinit : lock_inv (NewFileLock <$> paths, w)).
    { split; simpl; [| |].
      - intros i f h Hf Hd. rewrite lookup_fmap in Hf. destruct (paths !! i); [|done].
        injection Hf as <-. done.
      - done.
      - intros i j p (f & Hf & _ & h & Hd). simpl in Hf. rewrite lookup_fmap in Hf.
        destruct (paths !! i); [|done]. injection Hf as <-. done. }
    induction Hs as [|s1 s2 s3 H12 _ IH]; [done|]. apply IH. by eapply lock_step_inv. }
  split; [apply Hinv|]. intros i j f p (g & Hg & Hp & h & Hd) Hf Hpf.
  pose proof (inv_holder s Hinv i g h Hg Hd) as Hh. rewrite Hp, <-Hpf in Hh.
  pose proof (Lock_cases f s.2) as Hc. destruct (Lock (f, s.2)) as [[u|e| |x] [f' w']]; [..|done].
  - destruct Hc as (h' & _ & Hn & _). congruence.
  - destruct Hc as (-> & _). eauto.
  - eauto.
Qed.

(** Locking twice loses the lock: when an object that holds the lock calls
    [Lock] again, the failed attempt overwrites its database pointer with nil,
    [Unlock] then does nothing, and no object can ever take the lock again. *)
Theorem relock_leaks f w h e f' w' :
  fl_db f = Some h → holder (w_disk w) (clean (filePath f)) = Some h →
  Lock (f, w) = (Fail e, (f', w')) →
  e = ErrLockHeld (filePath f) ∧ Unlock (f', w') = (Ok tt, (f', w'))
  ∧ ∀ g u s, clean (filePath g) = clean (filePath f) → Lock (g, w') ≠ (Ok u, s).
Proof.
  intros Hf Hh Hl. pose proof (Lock_cases f w) as Hc. rewrite Hl in Hc.
  destruct Hc as (-> & -> & Hs). split; [done|]. split; [done|]. intros g u s Hg Hlg.
  pose proof (Lock_cases g w') as Hc. rewrite Hlg in Hc. destruct s as [g' w''].
  destruct Hc as (h' & _ & Hn & _). rewrite Hg, Hs in Hn. congruence.
Qed.

(** ** The life cycle of a database *)

(** [Open] of a closed database. *)
Lemma Open_cases d w :
  state d = closed →
  match Open (d, w) with
  | (Ok _, (d', w')) =>
      ∃ h, d' = MkDB (DBPath d) (Some h) opened ∧ holder (w_disk w) (clean (DBPath d)) = None
        ∧ (∀ q, holder (w_disk w) q ≠ Some h)
        ∧ ∀ q, holder (w_disk w') q
               = if decide (q = clean (DBPath d)) then Some h else holder (w_disk w) q
  | (Panic, (d', w')) => state d' = closed ∧ same_locks w w'
  | _ => False
  end.
Proof.
  intros Hst. unfold Open. rewrite run_gets. cbn [fst]. rewrite Hst.
  destruct (try_CreateDir (DBPath d) d w) as (w1 & Hd & [Hr | [r Hr]]);
    unfold mbind at 1, M_bind at 1; rewrite Hr.
  { split; [done|]. intros q. by rewrite Hd. }
  assert (Hs : same_locks w w1) by (intros q; by rewrite Hd).
  destruct r as [e|b]; [done|]. unfold open_file. unfold mbind, M_bind. cbn [fst snd].
  pose proof (open_law (DBPath d) (negb b) w1) as Ho.
  destruct (OpenFile (DBPath d) (negb b) w1) as [[e|h] w2]; simpl.
  - destruct Ho as [Hq _]. split; [done|]. intros q. by rewrite Hq, Hs.
  - destruct Ho as (Hn & Hf & Hq). exists h. split; [done|]. split; [by rewrite <-Hs|].
    split; [intros q; rewrite <-Hs; apply Hf|]. intros q. rewrite Hq, Hs. done.
Qed.

(** Opening and closing: a closed database that [Open] returns for is open
    and alone holds its directory's lock; [Open] of an open database and
    [Close] of a closed one change nothing; [Close] always leaves the database
    closed, and if the engine closed without error every lock is as it was
    before [Open]. *)
Theorem Open_Close_roundtrip d w d1 w1 :
  state d = closed → Open (d, w) = (Ok tt, (d1, w1)) →
  state d1 = opened ∧ is_Some (holder (w_disk w1) (clean (DBPath d)))
  ∧ Open (d1, w1) = (Ok tt, (d1, w1)) ∧ Close (d, w) = (Ok tt, (d, w))
  ∧ ∃ d2 w2, Close (d1, w1) = (Ok tt, (d2, w2)) ∧ state d2 = closed ∧ DBPath d2 = DBPath d
      ∧ ((∃ h, db d1 = Some h ∧ (CloseFile h w1).1 = None) → same_locks w w2).
Proof.
  intros Hst Ho. pose proof (Open_cases d w Hst) as Hc. rewrite Ho in Hc.
  destruct Hc as (h & -> & Hfree & Hfresh & Hw). split; [done|].
  split; [rewrite Hw, decide_True by done; by eexists|]. split; [done|].
  split; [unfold Close; rewrite run_gets; cbn [fst]; by rewrite Hst|].
  unfold Close. rewrite run_gets. cbn [fst state db]. rewrite run_orPanic.
  unfold close_file. unfold mbind, M_bind. cbn [fst snd].
  pose proof (close_law h w1) as Hc. destruct (CloseFile h w1) as [[e|] w2] eqn:Hcl; simpl.
  - eexists _, _. split; [done|]. split; [done|]. split; [done|].
    intros (h' & [= <-] & Hn). rewrite Hcl in Hn. done.
  - eexists _, _. split; [done|]. split; [done|]. split; [done|]. intros _ q. rewrite Hc, Hw.
    repeat case_decide; subst; congruence.
Qed.

End leveldb.

(** ** The provider's handles *)

Inductive handle_step : relation Provider :=
| step_handle n p : handle_step p (GetDBHandle n p).2.

Definition table_ok (p : Provider) : Prop := ∀ n i, dbHandles p !! n = Some i → handles p !! i = Some n.

Lemma GetDBHandle_run n p :
  table_ok p →
  ∃ h p', GetDBHandle n p = (Ok h, p') ∧ table_ok p' ∧ dbHandles p' !! n = Some h
    ∧ dbHandles p ⊆ dbHandles p' ∧ p_db p' = p_db p ∧ (dbHandles p !! n = Some h → p' = p).
Proof.
  intros Ht. unfold GetDBHandle. rewrite run_gets. destruct (dbHandles p !! n) as [h|] eqn:Hn.
  { exists h, p. done. }
  rewrite run_gets, run_modify. eexists _, _. split; [done|]. simpl. split_and!; try done.
  - intros n' i. simpl. destruct (decide (n' = n)) as [->|Hne].
    + rewrite lookup_insert_eq. intros [= <-]. by rewrite lookup_app_r, Nat.sub_diag.
    + rewrite lookup_insert_ne by done. intros Hi%Ht. by apply lookup_app_l_Some.
  - apply lookup_insert_eq.
  - by apply insert_subseteq.
Qed.

(** One handle per name: once [GetDBHandle] returned a handle for a name, it
    returns the same handle for that name ever after and changes nothing,
    whatever other handles are requested in between, and it returns that handle
    for no other name. *)
Theorem GetDBHandle_stable p n h p1 p2 :
  table_ok p → GetDBHandle n p = (Ok h, p1) → rtc handle_step p1 p2 →
  GetDBHandle n p2 = (Ok h, p2) ∧ handles p2 !! h = Some n
  ∧ ∀ n' p3, GetDBHandle n' p2 = (Ok h, p3) → n' = n.
Proof.
  intros Ht Hg Hs. destruct (GetDBHandle_run n p Ht) as (h0 & p0 & Hr & Ht1 & Hn1 & _).
  rewrite Hg in Hr. injection Hr as <- <-.
  assert (Hinv : table_ok p2 ∧ dbHandles p2 !! n = Some h).
  { clear Hg. induction Hs as [|a b c Hab _ IH]; [done|]. destruct Hab as [m a].
    destruct (GetDBHandle_run m a Ht1) as (hm & am & Hm & Htm & _ & Hsub & _).
    rewrite Hm in IH. apply IH; [by eapply lookup_weaken|exact Htm]. }
  destruct Hinv as [Ht2 Hn2]. split; [|split; [by apply Ht2|]].
  - destruct (GetDBHandle_run n p2 Ht2) as (h' & p' & Hr & _ & Hn' & Hsub & _ & Hp).
    assert (h' = h) as -> by (eapply lookup_weaken in Hn2; [|exact Hsub]; congruence).
    by rewrite Hr, Hp.
  - intros n' p3 Hg'. destruct (GetDBHandle_run n' p2 Ht2) as (h' & p' & Hr & Ht' & Hn' & Hsub & _).
    rewrite Hg' in Hr. injection Hr as <- <-.
    assert (Hn3 : dbHandles p3 !! n = Some h) by (by eapply lookup_weaken).
    apply Ht' in Hn', Hn3. congruence.
Qed.

(** ** Witnesses: a disk that only keeps its locks *)

Module ToyDisk.

Definition Disk : Type := gmap cpath nat.

Definition next (m : Disk) : nat := fresh (map_to_list m).*2.

#[export] Instance disk : LevelDisk Disk := {|
  OpenFile path _ w :=
    match w_disk w !! clean path with
    | Some _ => (inl EAGAIN, w)
    | None => (inr (next (w_disk w)),
               MkWorld (w_fs w) (<[clean path := next (w_disk w)]> (w_disk w)))
    end;
  CloseFile h w := (None, MkWorld (w_fs w) (filter (λ kv, kv.2 ≠ h) (w_disk w))) |}.

#[export, refine] Instance laws : LevelDiskLaws Disk := {| holder m q := m !! q |}.
Proof.
  - intros path missing [fs m]. simpl. destruct (m !! clean path) as [h|] eqn:Hm; [done|]. simpl.
    split; [done|]. split.
    + intros q Hq. apply (infinite_is_fresh (map_to_list m).*2).
      apply list_elem_of_fmap. exists (q, next m). split; [done|]. by apply elem_of_map_to_list.
    + intros q. destruct (decide (q = clean path)) as [->|Hq];
        [apply lookup_insert_eq|by apply lookup_insert_ne].
  - intros h [fs m] q. simpl. destruct (decide (m !! q = Some h)) as [Hq|Hq].
    + apply map_lookup_filter_None. right. intros x Hx Hne. apply Hne. cbn [snd]. change (m !! q = Some x) in Hx. congruence.
    + destruct (m !! q) as [x|] eqn:Hx.
      * apply map_lookup_filter_Some. split; [done|]. simpl. congruence.
      * apply map_lookup_filter_None. by left.
Defined.

Definition env : FSEnv := MkFSEnv (λ _, false) (λ _, false) false.

Definition w0 : World Disk := MkWorld ∅ ∅.
Definition path : string := "/tmp/lock".

(** Object 0 has taken the lock. *)
Definition f1 : FileLock := (Lock env (NewFileLock path, w0)).2.1.
Definition w1 : World Disk := (Lock env (NewFileLock path, w0)).2.2.

Definition two : gmap nat string := {[0%nat := path; 1%nat := path]}.
Definition s1 : gmap nat FileLock * World Disk := (<[0%nat := f1]> (NewFileLock <$> two), w1).

Lemma locked_reachable : rtc (lock_step env) (NewFileLock <$> two, w0) s1.
Proof.
  apply rtc_once. eapply (step_Lock env 0%nat (NewFileLock path)); [by vm_compute|]. reflexivity.
Qed.

End ToyDisk.
Import ToyDisk.

Lemma FileLock_exclusive_witness :
  ∃ f' w', Lock ToyDisk.env (NewFileLock ToyDisk.path, ToyDisk.w1)
           = (Fail (ErrLockHeld ToyDisk.path), (f', w'))
         ∨ Lock ToyDisk.env (NewFileLock ToyDisk.path, ToyDisk.w1) = (Panic, (f', w')).
Proof.
  destruct (FileLock_exclusive ToyDisk.env ToyDisk.two ToyDisk.w0 ToyDisk.s1) as [_ Hl].
  - intros q q' h Hq. change ((∅ : gmap cpath nat) !! q = Some h) in Hq.
    rewrite lookup_empty in Hq. discriminate.
  - exact ToyDisk.locked_reachable.
  - apply (Hl 0%nat 1%nat (NewFileLock ToyDisk.path) (clean ToyDisk.path)).
    + exists ToyDisk.f1. split; [vm_compute; reflexivity|]. split; [vm_compute; reflexivity|].
      exists 0%nat. vm_compute. reflexivity.
    + vm_compute. reflexivity.
    + reflexivity.
Defined.

Lemma relock_leaks_witness :
  let out := Lock ToyDisk.env (ToyDisk.f1, ToyDisk.w1) in
  out.1 = Fail (ErrLockHeld ToyDisk.path) ∧ Unlock out.2 = (Ok tt, out.2).
Proof.
  intros out.
  assert (Hout : out = (Fail (ErrLockHeld ToyDisk.path), out.2)) by (vm_compute; reflexivity).
  split; [exact (f_equal fst Hout)|].
  destruct (relock_leaks ToyDisk.env ToyDisk.f1 ToyDisk.w1 0%nat (ErrLockHeld ToyDisk.path) out.2.1 out.2.2)
    as (_ & Hu & _).
  - vm_compute. reflexivity.
  - vm_compute. reflexivity.
  - rewrite <-surjective_pairing. exact Hout.
  - rewrite <-surjective_pairing in Hu. exact Hu.
Defined.

Lemma Open_Close_roundtrip_witness :
  let d := MkDB "/opt/dbdata" None closed in
  let o := Open ToyDisk.env (d, ToyDisk.w0) in
  state o.2.1 = opened ∧ Open ToyDisk.env o.2 = (Ok tt, o.2).
Proof.
  intros d o. assert (Ho : o = (Ok tt, (o.2.1, o.2.2))) by (vm_compute; reflexivity).
  destruct (Open_Close_roundtrip ToyDisk.env d ToyDisk.w0 o.2.1 o.2.2) as (Hs & _ & Ho2 & _).
  - reflexivity.
  - exact Ho.
  - split; [exact Hs|]. rewrite <-surjective_pairing in Ho2. exact Ho2.
Defined.

Lemma GetDBHandle_stable_witness :
  let p := MkProvider (MkDB "/opt/dbdata" None closed) ∅ [] in
  let p1 := (GetDBHandle "a" p).2 in
  let p2 := (GetDBHandle "b" p1).2 in
  GetDBHandle "a" p2 = (Ok 0%nat, p2) ∧ handles p2 !! 0%nat = Some "a".
Proof.
  intros p p1 p2. destruct (GetDBHandle_stable p "a" 0%nat p1 p2) as (Hg & Hh & _).
  - intros n i Hn. change ((∅ : gmap string nat) !! n = Some i) in Hn. rewrite lookup_empty in Hn. discriminate.
  - reflexivity.
  - apply rtc_once, (step_handle "b" p1).
  - split; [exact Hg|exact Hh].
Defined.
