(* ===== verification/Wal.v ===== *)
(** * Start-up of the write-ahead log ([consensus/wal.go])

    [startNode] makes the directories, opens the log at the last snapshot and
    replays its entries into memory.  The wal library is a parameter
    ([WalLib]); what the replica asks of its in-memory storage is kept as the
    sequence of calls.  [hs.logger.Fatalf] only logs ([Logging]), so the code
    goes on with whatever the failed call returned; [log.Fatalf] of Go's own
    library ends the process, which is modelled as a panic. *)

From stdpp Require Import base numbers fin_maps gmap sets strings list.
From S2P Require Import Prelude GoMonad Types Filesystem Logging.

Record Entry := MkEntry { Index : Z; Data : bytes }.
Record ShotData := MkShotData { snap_Index : Z }.

(** [X] is the library's state, [WAL] a log it opened; nil is [None].  A call
    that returns several values with an error keeps them all.  [hs.Load] is a
    method of one of the library's types embedded in [hsWAL], whose values are
    not set when [loadSnapshot] runs, so it may panic. *)
Record WalLib (X WAL : Type) := MkWalLib {
  snap_Load : M X (option ShotData * option go_error);
  wal_Exist : string → X → bool;
  wal_Create : string → X → option go_error * X;
  wal_Open : string → Z → X → (option WAL * option go_error) * X;
  ReadAll : option WAL → M X (HardState * list Entry * option go_error) }.
Arguments MkWalLib {X WAL}.
Arguments snap_Load {X WAL}.
Arguments wal_Exist {X WAL}.
Arguments wal_Create {X WAL}.
Arguments wal_Open {X WAL}.
Arguments ReadAll {X WAL}.

(** The calls made on [walcache.MemoryStorage]. *)
Inductive mem_call :=
| ApplySnapshot (s : ShotData) (ents : list Entry)
| SetHardState (st : HardState)
| Append (ents : list Entry).

Record hsWAL (WAL : Type) := MkHsWAL {
  wal_id : Z;
  waldir : string;
  snapdir : string;
  lastIndex : Z;
  mem : option (list mem_call);
  storage : option (option WAL) }.
Arguments MkHsWAL {WAL}.
Arguments wal_id {WAL}.
Arguments waldir {WAL}.
Arguments snapdir {WAL}.
Arguments lastIndex {WAL}.
Arguments mem {WAL}.
Arguments storage {WAL}.

(** The log, the file system, the library and what was logged. *)
Record WalSt (X WAL : Type) := MkWalSt {
  hs : hsWAL WAL;
  ws_fs : FS;
  ws_lib : X;
  ws_out : Output }.
Arguments MkWalSt {X WAL}.
Arguments hs {X WAL}.
Arguments ws_fs {X WAL}.
Arguments ws_lib {X WAL}.
Arguments ws_out {X WAL}.

Section wal.
Context {X WAL : Type} (lib : WalLib X WAL) (env : FSEnv).
(** etcd's [fileutil.Exist]. *)
Context (Exist : string → FS → bool).
Context (Sprintf : string → list value → string) (logger : DefaultLogger).
Local Abbreviation W := (M (WalSt X WAL)).

Definition set_mem (m : option (list mem_call)) : W unit := modify (λ s,
  let h := hs s in
  MkWalSt (MkHsWAL (wal_id h) (waldir h) (snapdir h) (lastIndex h) m (storage h)) (ws_fs s) (ws_lib s) (ws_out s)).
Definition set_lastIndex (i : Z) : W unit := modify (λ s,
  let h := hs s in
  MkWalSt (MkHsWAL (wal_id h) (waldir h) (snapdir h) i (mem h) (storage h)) (ws_fs s) (ws_lib s) (ws_out s)).
Definition set_storage (w : option WAL) : W unit := modify (λ s,
  let h := hs s in
  MkWalSt (MkHsWAL (wal_id h) (waldir h) (snapdir h) (lastIndex h) (mem h) (Some w)) (ws_fs s) (ws_lib s) (ws_out s)).

Definition on_files {A} (m : M FS A) : W A := λ s,
  let '(r, fs) := m (ws_fs s) in (r, MkWalSt (hs s) fs (ws_lib s) (ws_out s)).
Definition on_lib {A} (m : M X A) : W A := λ s,
  let '(r, x) := m (ws_lib s) in (r, MkWalSt (hs s) (ws_fs s) x (ws_out s)).
Definition on_log (m : M Output unit) : W unit := λ s,
  let '(r, o) := m (ws_out s) in (r, MkWalSt (hs s) (ws_fs s) (ws_lib s) o).

Definition fatalf (format : string) : W unit := on_log (Fatalf Sprintf logger format [VOther 0]).
Definition debugf (format : string) (n : Z) : W unit := on_log (Debugf Sprintf logger format [VOther (Z.to_nat n)]).

(** [if err != nil { hs.logger.Fatalf(...) }]. *)
Definition check (e : option go_error) (format : string) : W unit :=
  match e with Some _ => fatalf format | None => mret tt end.

(** A call on the in-memory storage, which exists since [replayWAL] made it. *)
Definition call (c : mem_call) : W unit :=
  m ← gets (λ s, mem (hs s));
  m ← orPanic m;
  set_mem (Some (m ++ [c])).

Definition loadSnapshot : W (option ShotData) :=
  r ← on_lib (snap_Load lib);
  _ ← (if decide (r.2 = None ∨ r.2 = Some ErrNoSnapshot) then mret tt
       else fatalf "error loading snapshot (%v)");
  mret r.1.

Definition openWAL (snapshot : option ShotData) : W (option WAL) :=
  h ← gets hs;
  ex ← gets (λ s, wal_Exist lib (waldir h) (ws_lib s));
  _ ← (if ex : bool then mret tt
       else
         d ← try (on_files (Mkdir env (clean (waldir h))));
         _ ← check (match d with inl e => Some e | inr _ => None end) "cannot create dir for wal (%v)";
         e ← on_lib (λ x, let '(e, x) := wal_Create lib (waldir h) x in (Ok e, x));
         match e with Some _ => panic | None => mret tt end);
  let index := match snapshot with Some s => snap_Index s | None => 0%Z end in
  _ ← debugf "loading WAL at  index %d" index;
  r ← on_lib (λ x, let '(r, x) := wal_Open lib (waldir h) index x in (Ok r, x));
  _ ← check r.2 "error loading wal (%v)";
  mret r.1.

Definition replayWAL : W (option WAL) :=
  h ← gets hs;
  _ ← debugf "replaying WAL of member %d" (wal_id h);
  snapshot ← loadSnapshot;
  w ← openWAL snapshot;
  r ← on_lib (ReadAll lib w);
  let '(st, ents, err) := r in
  _ ← check err "failed to read WAL (%v)";
  _ ← set_mem (Some []);
  _ ← match snapshot with Some s => call (ApplySnapshot s ents) | None => mret tt end;
  _ ← call (SetHardState st);
  _ ← call (Append ents);
  _ ← match last ents with Some e => set_lastIndex (Index e) | None => mret tt end;
  mret w.

(** [oldwal] selects between two empty branches. *)
Definition startNode : W unit :=
  h ← gets hs;
  ex ← gets (λ s, Exist (snapdir h) (ws_fs s));
  _ ← (if ex : bool then mret tt
       else
         d ← try (on_files (Mkdir env (clean (snapdir h))));
         check (match d with inl e => Some e | inr _ => None end) "cannot create dir for snapshot (%v)");
  w ← replayWAL;
  set_storage w.

(** ** Properties *)










Lemma call_run c m s :
  mem (hs s) = Some m → call c s = set_mem (Some (m ++ [c])) s.
Proof. intros Hm. unfold call. rewrite run_gets, Hm. done. Qed.




End wal.

(** ** A library with a log of two entries, whose nil log cannot be read *)

Module ToyWal.

(** [opens] says whether opening succeeds; a method on a nil log dereferences it. *)
Definition lib (opens : bool) : WalLib unit unit :=
  MkWalLib (mret (None, Some ErrNoSnapshot)) (λ _ _, true) (λ _ x, (None, x))
    (λ _ _ x, (if opens then (Some tt, None) else (None, Some ErrWal), x))
    (λ w x, match w with
            | Some _ => (Ok (MkHardState 1 [] [] [], [MkEntry 1 []; MkEntry 2 []], None), x)
            | None => (Panic, x)
            end).

Definition st : WalSt unit unit :=
  MkWalSt (MkHsWAL 0 "/w/wal-0" "/w/snap-0" 0 None None) ∅ tt [].

Definition env : FSEnv := MkFSEnv (λ _, false) (λ _, false) false.

Definition start (opens : bool) : res unit * WalSt unit unit :=
  startNode (lib opens) env (λ _ _, false) (λ f _, f) (MkLogger [] []) st.

(** The log is replayed; when it cannot be opened the replica logs that, goes on
    and crashes reading it. *)
Example wal_started :
  (start true).1 = Ok tt ∧ lastIndex (hs (start true).2) = 2%Z ∧ storage (hs (start true).2) = Some (Some tt)
  ∧ (start false).1 = Panic ∧ storage (hs (start false).2) = None.
Proof. split_and!; vm_compute; reflexivity. Qed.

End ToyWal.
