(* ===== verification/Deployment.v ===== *)
(** * The two programs ([cmd/server/main.go], [cmd/client/main.go])

    The [main] functions: the command line of the server (cobra) and of the
    client (package flag), the servers started one after the other on one
    machine, and a client that submits its five commands to one of them.  The
    argument parsers, gRPC and key parsing are parameters. *)

From stdpp Require Import base numbers fin_maps fin_map_dom gmap sets strings pretty list.
From Stdlib Require Import Strings.Byte.
From S2P Require Import Prelude GoMonad Encoding Types Database LRUCache Entity Core Pacemaker.
From S2P Require Import Transport Grpc Base Crypto Commands.

(** ** The server program *)

(** The variables the flags set. *)
Record Flags := MkFlags {
  replicaId : Z;
  listenAddress : string;
  listenPort : string;
  tlsEnabled : bool }.

(** [startCmd]: the flags registered on the command, with their defaults. *)
Definition startCmd : Flags := MkFlags 0 "127.0.0.1" "8000" false.

(** What the command line asks for: the usage message of [mainCmd], an unknown
    command or a malformed flag, or [start] with its flags and other arguments. *)
Inductive command :=
| Usage
| Malformed
| RunStart (fl : Flags) (args : list string).

Section server_main.
Context {Key Cert Pool W : Type} (x509 : X509 Cert Pool) (refused : string → bool) (startNode : M W unit).
Context (parse : bytes → option (PrivKey Key)).
(** The reading of a command line by cobra, given the defaults. *)
Context (cobra : Flags → list string → command).

(** [main]: the status the process exits with, or the replica it runs until a
    signal arrives. *)
Definition server_main (argv : list string) (w : W)
    : M Net (Z + RoundRobinPM (HotStuffBase CoreDB W)) :=
  match cobra startCmd argv with
  | Usage => mret (inl 0%Z)
  | Malformed => mret (inl 1%Z)
  | RunStart fl args =>
      r ← try (nodeStart parse x509 refused startNode args (replicaId fl) w);
      match r with
      | inl _ => mret (inl 1%Z)
      | inr pm => mret (inr pm)
      end
  end.

(** Server processes started one after the other. *)
Fixpoint start_all (argvs : list (list string)) (w : W)
    : M Net (list (Z + RoundRobinPM (HotStuffBase CoreDB W))) :=
  match argvs with
  | [] => mret []
  | argv :: argvs =>
      p ← server_main argv w;
      ps ← start_all argvs w;
      mret (p :: ps)
  end.

End server_main.

(** ** The client program *)

Record ClientFlags := MkClientFlags { serverAddr : string; client_tls : bool }.

(** The flags of the client, with their defaults. *)
Definition client_flags : ClientFlags := MkClientFlags "127.0.0.1:8000" false.

Section client_main.
Context {Cert Pool Conn S : Type} (x509 : X509 Cert Pool).
Context (dial : Z → string → list (DialOption (Cert:=Cert) (Pool:=Pool)) → M S Conn).
(** The generated stub [pb.NewHotstuffClient(conn).Submit]. *)
Context (call : Conn → SubmitRequest → M S SubmitResponse).
(** [flag.Parse]: the flags, or the status it exits with. *)
Context (flag_Parse : ClientFlags → list string → Z + ClientFlags).

(** [main]; [reqs] is the order in which the goroutines' requests are answered.
    An error of any call is a panic, which ends the process. *)
Definition client_main (argv : list string) (reqs : list SubmitRequest)
    : M S (Z + list SubmitResponse) :=
  match flag_Parse client_flags argv with
  | inl status => mret (inl status)
  | inr fl =>
      match NewGrpcClient x509 None with
      | inl _ => panic
      | inr client =>
          c ← try (NewConnection dial client (serverAddr fl));
          match c with
          | inl _ => panic
          | inr conn =>
              rs ← submit_all (call conn) reqs;
              mret (inr rs)
          end
      end
  end.

End client_main.

(** ** Servers on one machine *)

Section servers.
Context {Key Cert Pool W : Type} (x509 : X509 Cert Pool) (refused : string → bool) (startNode : M W unit).
Context (parse : bytes → option (PrivKey Key)) (cobra : Flags → list string → command).
(** The built-in keys parse. *)
Context (keys : Z → Key).
Hypothesis keys_parse : ∀ i, (0 ≤ i < 4)%Z → parse (pem i) = Some (ECDSAKey (keys i)).

Local Abbreviation main := (server_main x509 refused startNode parse cobra).

Lemma initCmd_run {S} (s : S) :
  initCmd parse s = (Ok (MkKeys (keys 0) (keys 1) (keys 2) (keys 3)), s).
Proof.
  unfold initCmd, init_key. rewrite !keys_parse by lia. reflexivity.
Qed.

Lemma nodeStart_run args i (w : W) net :
  nodeStart parse x509 refused startNode args i w net
  = if decide (length args = 0%nat) then serve x509 refused startNode i w net else (Fail ErrTrailingArgs, net).
Proof.
  unfold nodeStart. rewrite (run_bind_Ok _ _ _ _ _ (initCmd_run net)). by case_decide.
Qed.

(** A server whose flags name a replica of the cluster. *)
Lemma server_main_run argv fl (w w' : W) net :
  cobra startCmd argv = RunStart fl [] → (0 ≤ replicaId fl < 4)%Z → startNode w = (Ok tt, w') →
  (addr_of (replicaId fl) ∉ bound net) → refused (addr_of (replicaId fl)) = false →
  main argv w net = (Ok (inr (started (replicaId fl) w')), MkNet ({[addr_of (replicaId fl)]} ∪ bound net)).
Proof.
  intros Hc Hi Hw Hfree Hr. unfold server_main. rewrite Hc. unfold try, mbind, M_bind.
  rewrite nodeStart_run, decide_True by done. rewrite serve_run by done.
  rewrite decide_False by (intros [?|?]; [done|congruence]). by rewrite launch_run, Hw.
Qed.

(** One whose address is taken, or whose log cannot be replayed. *)
Lemma server_main_panics argv fl (w : W) net :
  cobra startCmd argv = RunStart fl [] → (0 ≤ replicaId fl < 4)%Z →
  addr_of (replicaId fl) ∈ bound net ∨ (startNode w).1 = Panic →
  (main argv w net).1 = Panic ∧ (addr_of (replicaId fl) ∈ bound net → (main argv w net).2 = net).
Proof.
  intros Hc Hi Hor. unfold server_main. rewrite Hc. unfold try, mbind, M_bind.
  rewrite nodeStart_run, decide_True by done. rewrite serve_run by done. case_decide as Hb; [done|].
  destruct Hor as [?|Hp]; [by destruct Hb; left|]. rewrite launch_run.
  destruct (startNode w) as [[] ?]; try done. split; [done|]. intros ?. by destruct Hb; left.
Qed.

Lemma addr_of_inj i j : (0 ≤ i < 4)%Z → (0 ≤ j < 4)%Z → addr_of i = addr_of j → i = j.
Proof.
  intros Hi Hj. assert (Hc : i = 0%Z ∨ i = 1%Z ∨ i = 2%Z ∨ i = 3%Z) by lia.
  assert (Hd : j = 0%Z ∨ j = 1%Z ∨ j = 2%Z ∨ j = 3%Z) by lia.
  destruct Hc as [-> | [-> | [-> | ->]]], Hd as [-> | [-> | [-> | ->]]]; vm_compute; congruence.
Qed.

(** Command lines that start the replicas [fls] names. *)
Definition starts (argvs : list (list string)) (fls : list Flags) : Prop :=
  Forall2 (λ argv fl, cobra startCmd argv = RunStart fl [] ∧ (0 ≤ replicaId fl < 4)%Z
                      ∧ refused (addr_of (replicaId fl)) = false) argvs fls.

(** The addresses of the replicas [fls] names. *)
Definition addrs (fls : list Flags) : gset string := list_to_set ((λ fl, addr_of (replicaId fl)) <$> fls).

Lemma elem_of_addrs i fls :
  (0 ≤ i < 4)%Z → Forall (λ fl, (0 ≤ replicaId fl < 4)%Z) fls →
  addr_of i ∈ addrs fls ↔ i ∈ replicaId <$> fls.
Proof.
  intros Hi Hall. unfold addrs. rewrite elem_of_list_to_set, !list_elem_of_fmap. rewrite Forall_forall in Hall.
  split; intros (fl & He & Hin); exists fl; split; auto.
  - apply addr_of_inj; auto.
  - by rewrite He.
Qed.

Lemma starts_range argvs fls : starts argvs fls → Forall (λ fl, (0 ≤ replicaId fl < 4)%Z) fls.
Proof. intros Hs. induction Hs as [|argv fl argvs fls (_ & Hi & _) _ IH]; constructor; done. Qed.

Lemma start_all_run argvs fls (w w' : W) :
  startNode w = (Ok tt, w') → starts argvs fls → NoDup (replicaId <$> fls) → ∀ net, addrs fls ## bound net →
  start_all x509 refused startNode parse cobra argvs w net
  = (Ok ((λ fl, inr (started (replicaId fl) w')) <$> fls), MkNet (addrs fls ∪ bound net)).
Proof.
  intros Hw Hs. induction Hs as [|argv fl argvs fls (Hc & Hi & Hr) Hs IH]; intros Hnd net Hfree.
  { cbn [start_all]. unfold addrs. simpl. rewrite (left_id_L ∅ (∪)). by destruct net. }
  cbn [fmap list_fmap] in Hnd. apply NoDup_cons in Hnd as [Hnin Hnd].
  change (addrs (fl :: fls)) with ({[addr_of (replicaId fl)]} ∪ addrs fls) in *.
  apply disjoint_union_l in Hfree as [Hown Hfree].
  cbn [start_all]. unfold mbind at 1, M_bind at 1. rewrite (server_main_run _ fl w w') by (done || by apply disjoint_singleton_l in Hown). cbv beta iota.
  assert (Hfree' : addrs fls ## {[addr_of (replicaId fl)]} ∪ bound net).
  { rewrite <-(elem_of_addrs _ _ Hi (starts_range _ _ Hs)) in Hnin.
    apply disjoint_union_r. split; [by apply disjoint_singleton_r|done]. }
  rewrite (run_bind_Ok _ _ _ _ _ (IH Hnd (MkNet ({[addr_of (replicaId fl)]} ∪ bound net)) Hfree')).
  cbn [bound]. rewrite (assoc_L (∪)), (comm_L (∪) (addrs fls)). done.
Qed.

(** C39 The deployment: servers for distinct replicas of the cluster, started in any
    order on a machine where their addresses are free, all come up in the initial
    state, with their log replayed and [OnBeat] started, listening on exactly their
    built-in addresses, and if replaying the log panics the first of them panics; a
    further server for one of the replicas that run panics, whatever address, port
    and TLS setting its flags give; and one with trailing arguments exits with
    status 1 without touching the network. *)
Theorem servers_start argvs fls (w : W) net :
  starts argvs fls → NoDup (replicaId <$> fls) → addrs fls ## bound net →
  let net' := MkNet (addrs fls ∪ bound net) in
  let out := start_all x509 refused startNode parse cobra argvs w net in
  (∀ w', startNode w = (Ok tt, w') → out = (Ok ((λ fl, inr (started (replicaId fl) w')) <$> fls), net'))
  ∧ ((startNode w).1 = Panic → fls ≠ [] → out.1 = Panic)
  ∧ (∀ argv fl, cobra startCmd argv = RunStart fl [] → replicaId fl ∈ replicaId <$> fls →
       main argv w net' = (Panic, net'))
  ∧ (∀ argv fl a args, cobra startCmd argv = RunStart fl (a :: args) →
       main argv w net' = (Ok (inl 1%Z), net')).
Proof.
  intros Hs Hnd Hfree net' out. split_and!.
  - intros w' Hw. by apply (start_all_run argvs fls w w').
  - intros Hw Hne. unfold out. destruct Hs as [|argv fl argvs fls (Hc & Hi & Hr) Hs]; [done|].
    cbn [start_all]. unfold mbind, M_bind. destruct (server_main_panics argv fl w net Hc Hi (or_intror Hw)) as [Hp _].
    by destruct (main argv w net) as [[] ?].
  - intros argv fl Hc Hin. pose proof (starts_range _ _ Hs) as Hall.
    assert (Hi : (0 ≤ replicaId fl < 4)%Z).
    { apply list_elem_of_fmap in Hin as (fl' & -> & Hin). by rewrite Forall_forall in Hall; apply Hall. }
    assert (Hb : addr_of (replicaId fl) ∈ bound net') by (apply elem_of_union_l; by apply elem_of_addrs).
    destruct (server_main_panics argv fl w net' Hc Hi (or_introl Hb)) as [Hp Hn]. specialize (Hn Hb).
    destruct (main argv w net') as [o n]. cbn [fst snd] in *. congruence.
  - intros argv fl a args Hc. unfold server_main. rewrite Hc. unfold try, mbind, M_bind.
    rewrite nodeStart_run, decide_False by done. done.
Qed.

End servers.

(** ** A client and the servers *)

Section clients.
Context {Cert Pool Conn W : Type} (x509 : X509 Cert Pool).

(** The replicas that run, by the address they listen on. *)
Local Abbreviation Sys := (gmap string (RoundRobinPM (HotStuffBase CoreDB W))).

(** A step of the replica at an address; nothing answers at a free address. *)
Definition at_server {A} (addr : string) (m : M (RoundRobinPM (HotStuffBase CoreDB W)) A) : M Sys A :=
  λ sys, match sys !! addr with
         | Some p => let '(r, p') := m p in (r, <[addr:=p']> sys)
         | None => (Fail ErrServe, sys)
         end.

Context (dial : Z → string → list (DialOption (Cert:=Cert) (Pool:=Pool)) → M Sys Conn).
Context (call : Conn → SubmitRequest → M Sys SubmitResponse).
Context (flag_Parse : ClientFlags → list string → Z + ClientFlags) (reaches : Conn → string).

(** A blocking dial without TLS connects to a server that listens, and fails
    where none does; dialling does not change a replica. *)
Hypothesis dial_listening : ∀ t addr opts sys,
  WithInsecure ∈ opts → is_Some (sys !! addr) →
  ∃ conn, dial t addr opts sys = (Ok conn, sys) ∧ reaches conn = addr.
Hypothesis dial_free : ∀ t addr opts sys,
  sys !! addr = None → ∃ e, dial t addr opts sys = (Fail e, sys).
(** A call runs the handler of the server the connection leads to. *)
Hypothesis call_serves : ∀ conn req, call conn req = at_server (reaches conn) (served req).

Lemma at_server_run {A} addr (m : M _ A) sys p :
  sys !! addr = Some p → at_server addr m sys = ((m p).1, <[addr:=(m p).2]> sys).
Proof. intros Hp. unfold at_server. rewrite Hp. by destruct (m p). Qed.

Lemma submit_all_at addr reqs : ∀ sys p,
  sys !! addr = Some p →
  submit_all (λ req, at_server addr (served req)) reqs sys = at_server addr (submit_all served reqs) sys.
Proof.
  induction reqs as [|req reqs IH]; intros sys p Hp.
  { rewrite (at_server_run _ _ _ p) by done. simpl. by rewrite insert_id. }
  rewrite (at_server_run _ (submit_all _ _) _ p) by done. cbn [submit_all]. unfold mbind, M_bind, try.
  rewrite (at_server_run _ (served req) _ p) by done.
  destruct (served req p) as [[resp|e| |w] p']; cbn [fst snd]; try done.
  rewrite (IH (<[addr:=p']> sys) p') by apply lookup_insert_eq.
  rewrite (at_server_run _ _ _ p') by apply lookup_insert_eq.
  destruct (submit_all served reqs p') as [[rs|e| |w] p2]; cbn [fst snd];
    by rewrite insert_insert_eq.
Qed.

(** The plain client dials without TLS. *)
Lemma plain_client_insecure :
  ∃ client, NewGrpcClient x509 None = inr client ∧ WithInsecure ∈ connection_opts client.
Proof.
  eexists. split; [reflexivity|]. unfold connection_opts. cbn [tlsConfig]. set_solver.
Qed.

(** C40 The client program: when a replica listens at the address its flags give
    and has room for five more commands, then in whatever order the requests of
    its goroutines are answered all five are acknowledged, and that replica
    queues each of the five commands exactly once while no other replica changes;
    when nothing listens there, the client panics without an effect.  Its [tls]
    flag plays no part. *)
Theorem client_outcome argv fl reqs (sys : Sys) :
  flag_Parse client_flags argv = inr fl → reqs ≡ₚ client_requests →
  let out := client_main x509 dial call flag_Parse argv reqs sys in
  match sys !! serverAddr fl with
  | None => out = (Panic, sys)
  | Some p =>
      (length (submitC p) + 5 ≤ submit_capacity)%nat →
      out = (Ok (inr (replicate 5 (MkSubmitResponse SUCCESS ""))),
             <[serverAddr fl:=set_submitC (submitC p ++ (sreq_Cmds <$> reqs)) p]> sys)
      ∧ sreq_Cmds <$> reqs ≡ₚ [[x30]; [x31]; [x32]; [x33]; [x34]]
  end.
Proof.
  intros Hf Hperm out. unfold out, client_main. rewrite Hf.
  destruct plain_client_insecure as (client & Hcl & Hin). rewrite Hcl.
  unfold try, NewConnection, mbind, M_bind. destruct (sys !! serverAddr fl) as [p|] eqn:Hp.
  - intros Hcap.
    destruct (dial_listening (timeout client) (serverAddr fl) (connection_opts client) sys Hin)
      as (conn & Hd & Hre); [by eexists|].
    unfold try. rewrite Hd. cbv beta iota. cbn [mret M_ret].
    assert (Hall : submit_all (call conn) reqs sys
                   = submit_all (λ req, at_server (serverAddr fl) (served req)) reqs sys).
    { rewrite <-Hre. clear -call_serves. revert sys. induction reqs as [|r reqs IH]; intros sys; [done|].
      cbn [submit_all]. unfold mbind, M_bind, try. rewrite call_serves.
      destruct (at_server _ _ sys) as [[resp|e| |w] sys']; [|done..]. by rewrite IH. }
    unfold mret, M_ret. rewrite Hall, (submit_all_at _ _ _ p), (at_server_run _ _ _ p) by done.
    destruct (client_commands_queued reqs p Hperm Hcap) as [-> Hq]. done.
  - destruct (dial_free (timeout client) (serverAddr fl) (connection_opts client) sys Hp) as (e & Hd).
    unfold try. rewrite Hd. done.
Qed.

End clients.

(** ** Witnesses: an argument parser that reads a replica id and a port, and a
    network that delivers *)

Module ToyDeployment.

Definition cobra (fl : Flags) (argv : list string) : command :=
  match argv with
  | [] => Usage
  | "start" :: "0" :: args => RunStart fl args
  | "start" :: "1" :: "8000" :: args => RunStart (MkFlags 1 (listenAddress fl) "8000" true) args
  | "start" :: "1" :: args => RunStart (MkFlags 1 (listenAddress fl) (listenPort fl) (tlsEnabled fl)) args
  | _ => Malformed
  end.

Definition parse (_ : bytes) : option (PrivKey unit) := Some (ECDSAKey tt).

Local Abbreviation Sys := (gmap string (RoundRobinPM (HotStuffBase CoreDB unit))).

Definition dial (_ : Z) (addr : string) (_ : list (DialOption (Cert:=bytes) (Pool:=list bytes))) : M Sys string :=
  λ sys, match sys !! addr with Some _ => (Ok addr, sys) | None => (Fail ErrServe, sys) end.

Definition call (addr : string) (req : SubmitRequest) : M Sys SubmitResponse := at_server addr (served req).

Definition flag_Parse (fl : ClientFlags) (argv : list string) : Z + ClientFlags :=
  match argv with [] => inr fl | [addr] => inr (MkClientFlags addr true) | _ => inl 2%Z end.

Definition sys : Sys := {["127.0.0.1:8000" := started 0 tt; "127.0.0.1:8001" := started 1 tt]}.

Lemma dial_listening t addr opts (s : Sys) :
  WithInsecure ∈ opts → is_Some (s !! addr) → ∃ conn, dial t addr opts s = (Ok conn, s) ∧ conn = addr.
Proof. intros _ [p Hp]. exists addr. unfold dial. by rewrite Hp. Qed.

Lemma dial_free t addr opts (s : Sys) : s !! addr = None → ∃ e, dial t addr opts s = (Fail e, s).
Proof. intros Hp. exists ErrServe. unfold dial. by rewrite Hp. Qed.

End ToyDeployment.

Lemma servers_start_witness :
  let main := server_main ToyTLS.x509 (λ _, false) (mret tt) ToyDeployment.parse ToyDeployment.cobra in
  let all := start_all ToyTLS.x509 (λ _, false) (mret tt) ToyDeployment.parse ToyDeployment.cobra in
  let net' := MkNet (addrs [MkFlags 1 "127.0.0.1" "8000" false; startCmd] ∪ ∅) in
  all [["start"; "1"]; ["start"; "0"]] tt (MkNet ∅) = (Ok [inr (started 1 tt); inr (started 0 tt)], net')
  ∧ main ["start"; "1"; "8000"] tt net' = (Panic, net').
Proof.
  destruct (servers_start ToyTLS.x509 (λ _, false) (mret tt) ToyDeployment.parse ToyDeployment.cobra (λ _, tt)
    ltac:(reflexivity) [["start"; "1"]; ["start"; "0"]] [MkFlags 1 "127.0.0.1" "8000" false; startCmd] tt
    (MkNet ∅)) as (Hall & _ & Hp & _).
  - repeat constructor; simpl; lia.
  - apply NoDup_cons. split; [set_solver|]. apply NoDup_singleton.
  - apply disjoint_empty_r.
  - split; [exact (Hall tt eq_refl)|]. apply (Hp _ (MkFlags 1 "127.0.0.1" "8000" true)); [reflexivity|set_solver].
Defined.

Lemma client_outcome_witness :
  (client_main ToyTLS.x509 ToyDeployment.dial ToyDeployment.call ToyDeployment.flag_Parse
     ["127.0.0.1:8001"] (rev client_requests) ToyDeployment.sys).1
  = Ok (inr (replicate 5 (MkSubmitResponse SUCCESS "")))
  ∧ (client_main ToyTLS.x509 ToyDeployment.dial ToyDeployment.call ToyDeployment.flag_Parse
       [] client_requests ∅).1 = Panic.
Proof.
  pose proof (client_outcome ToyTLS.x509 ToyDeployment.dial ToyDeployment.call ToyDeployment.flag_Parse
    (λ addr, addr) ToyDeployment.dial_listening ToyDeployment.dial_free (λ _ _, eq_refl)) as H.
  split.
  - destruct (H ["127.0.0.1:8001"] (MkClientFlags "127.0.0.1:8001" true) (rev client_requests)
      ToyDeployment.sys) as [Hr _].
    + reflexivity.
    + symmetry. apply Permutation_rev.
    + vm_compute. repeat constructor.
    + rewrite Hr. reflexivity.
  - pose proof (H [] client_flags client_requests ∅ eq_refl (Permutation_refl _)) as He.
    cbv zeta in He. rewrite lookup_empty in He. rewrite He. reflexivity.
Defined.
